(* ===== verification/_CoqProject ===== *)
-Q . S2P
Prelude.v
Codec.v
Wire.v
TreeMath.v
Types.v
Node.v
TreeIndex.v
Identity.v
Extensions.v
Crypto.v
Labels.v
TreeHash.v
ParentHash.v
OriginalHash.v
Proposal.v
TreeKem.v
GroupContext.v
Validator.v
Kem.v
SecretTree.v
Framing.v
Epoch.v
KeySchedule.v
Storage.v
StateRepo.v
PrivateMessage.v
Hpke.v
RustCrypto.v
X509.v
OpenSslX509.v
GroupState.v
Auth.v
ProposalFilter.v
Psk.v
Rules.v
Provisional.v
MessageProcessor.v
ProcessorLaws.v
Config.v
Group.v
GroupLaws.v
Faults.v
Delivery.v
Commit.v
Join.v
Snapshot.v
External.v
Client.v
Sqlite.v
Resumption.v
Member.v
Agreement.v
Observer.v
Scenario.v
Lifecycle.v
Lite.v
Grease.v
RepoLight.v
Builder.v
ExternalBuilder.v
