(* ===== verification/Prelude.v ===== *)
(** * A verification of mls-rs

    mls-rs implements Messaging Layer Security: a group of members shares a
    binary tree of public keys (the ratchet tree), each commit changes the tree
    and starts an epoch with fresh secrets, and messages are encrypted under keys
    derived from the epoch.  This development models the parts of the program
    that carry that logic and proves them correct.

    ** The parts and the files that model them

    - [Prelude] (this file): results with errors and panics, operations on a
      state that survives an error, machine integers, vectors, generic lemmas,
      hints ([mls]) and tactics.
    - [Codec], [Wire]: the wire format (mls-rs-codec, mls-rs-codec-derive).  A
      type's [MlsSize], [MlsEncode] and [MlsDecode] are one record [MlsCodec];
      the class [CodecLaws] is the contract of a canonical format and [WireLaws]
      the contract of one that only round-trips.  Every type's instance is built
      by the combinators from the instances of its fields, as the derive macros
      build the code.
    - [TreeMath] (tree_kem/math.rs): index arithmetic of the array tree.
    - [Types] (leaf_node.rs, lifetime.rs, mls-rs-core): errors, extensions,
      capabilities, credentials, leaf nodes, identity provider.
    - [Node] (node.rs), [TreeIndex] (tree_index.rs), [TreeHash] (tree_hash.rs),
      [ParentHash] (parent_hash.rs), [TreeKem] (tree_kem/mod.rs): the public
      ratchet tree [TreeKemPublic]: nodes, uniqueness indices, hashes, and the
      operations of a commit on them.  [OriginalHash] has what the validation of
      parent hashes shows.
    - [Crypto] (mls-rs-core/src/crypto.rs), [Labels] (signer.rs,
      hpke_encryption.rs, kdf_expand_with_label): the cipher suite provider, a
      parameter, and what is built on it with labels.
    - [Proposal] (proposal.rs, proposal_filter/bundle.rs, psk.rs,
      key_package/mod.rs), [GroupContext] (context.rs), [Framing] (framing.rs,
      message_signature.rs, group_info.rs, the message structs of commit.rs and
      group/mod.rs): messages and their formats.
    - [Kem] (kem.rs, private.rs, path_secret.rs, update_path.rs): the private
      side of the tree, and sending and receiving an update path.
    - [SecretTree] (secret_tree.rs), [Epoch] (epoch.rs, map.rs),
      [KeySchedule] (key_schedule.rs): the secrets of an epoch, how they are
      derived, handed out and stored.
    - [Storage] (storage traits and the in-memory storage), [StateRepo]
      (state_repo.rs): past epochs.  The repository is proved against the class
      [GroupStateStorageLaws]; the in-memory storage and SQLite are instances.
    - [PrivateMessage] (ciphertext_processor.rs and its modules, padding.rs):
      encryption of private messages, over the class [GroupStateProvider] of the
      states that hold an epoch's secrets.
    - [Extensions] (extension/built_in.rs, mls-rs-core/src/extension.rs): typed
      access to the extensions of a list, over the class [MlsCodecExtension].
    - [Validator] (leaf_node_validator.rs, tree_validator.rs,
      key_package/validator.rs): validation of leaves, key packages and trees.
    - [GroupState] (state.rs, proposal_cache.rs): the public state of a group and
      the proposals it has seen in the epoch.
    - [Auth] (message_signature.rs, membership_tag.rs, confirmation_tag.rs,
      transcript_hash.rs, message_verifier.rs, hash_reference.rs,
      proposal_ref.rs): what is signed and tagged, and who may have sent it.
    - [ProposalFilter] (proposal_filter/filtering.rs, filtering_common.rs): the
      rules for the proposals of a commit, and their application to the tree.
    - [Psk] (psk/secret.rs, psk/resolver.rs): pre-shared keys.
    - [Rules] (mls_rules.rs), [Provisional] (apply_resolved of proposal_cache.rs,
      [ProvisionalState]): what a commit's proposals make of the group.
    - [MessageProcessor] (message_processor.rs): the trait [MessageProcessor] as a
      class, its provided methods as definitions over it.  [ProcessorLaws] has the
      class of what they rely on, [MessageProcessorLaws], the machine the public
      state of a group is, and that every implementation follows it.
    - [Config] (client_config.rs, key_package/generator.rs, LeafNode::generate):
      what a group is configured with.  [Group] (group/mod.rs): a member's group,
      the first implementation of the trait; [GroupLaws] and [Delivery] have its
      theorems.
    - [Commit] (commit.rs), [Join] (joining by welcome in group/mod.rs, by
      external commit in external_commit.rs), [Snapshot] (snapshot.rs),
      [Resumption] (resumption.rs): the other ways a group changes or begins.
    - [External] (external_client.rs and external_client/): an observer of a
      group, the second implementation of the trait.  [Client] (client.rs).
    - [Hpke] (mls-rs-crypto-hpke, mls-rs-crypto-traits): the HPKE construction over
      the traits of its primitives, as records of operations.  [RustCrypto]
      (mls-rs-crypto-rustcrypto): the cipher suite provider built on it, over the
      primitives of the RustCrypto crates, which are parameters.
    - [Identity] (identity/basic.rs, mls-rs-identity-x509): the identity providers of
      the repository, X.509 over the traits of readers and validators of
      certificates.  [X509] (x509 of mls-rs-crypto-rustcrypto): a reader, a validator
      and a writer of requests, over the encoding rules, which are parameters;
      [OpenSslX509]: the validator of mls-rs-crypto-openssl.
    - [Sqlite] (mls-rs-provider-sqlite): the storages over a database, whose tables
      are maps; an instance of the contracts of [Storage] and [Client].
    - [Builder] (client_builder.rs), [ExternalBuilder] (external_client/builder.rs):
      the builders of the configurations of [Config] and [External].
    - Other builds: [Lite] (filtering_lite.rs, batch_edit_lite), without proposals
      by reference; [RepoLight] (state_repo_light.rs), without past epochs; [Grease]
      (grease.rs), with values that exercise extensibility.
    - [Member]: all operations of a member as steps, the groups reachable by
      them.  [Observer]: member and observer side by side.  [Agreement]: two
      members whose epochs have the same confirmation tag.
    - [Scenario], [Lifecycle]: a configuration with a toy provider in which groups
      are founded, joined, committed to, branched and observed; the theorems about
      such runs, and the inputs at which the general theorems are applied.

    ** How code becomes definitions

    A function keeps its name and its order of checks.  [Result E A] is a value,
    an error, a panic or (for a loop run with fuel) divergence; [?] is the monad's
    bind.  A method that changes [&mut self] and may fail returns the new state
    beside the result, since what it changed before the error stays changed
    ([try x, s <- m; k]).  Integers are [Z] with the wrap-around of a release
    build written out; [usize] has 64 bits.  Hash maps are [gmap]; where their
    iteration order reaches the wire it is a parameter ([Epoch.MapOrder]).
    Random bytes are arguments.  The default features are on (std, private
    messages, by-reference proposals, out-of-order messages, pre-shared keys,
    prior epochs, tree index).  Async and its synchronous expansion are not
    distinguished, and neither are parallel and sequential iteration.

    Loops that are not structural run with fuel: 32 rounds for walks up a tree of
    32-bit indices, the size of the subtree for its resolution, 1024 generations
    for a ratchet (the code refuses more), the length of the input for decoding.
    The theorems about them show that the fuel is enough: no result is [Diverge].

    ** What the theorems show

    - The format: every well-formed value is read back from its encoding followed
      by anything, encodings of canonical formats are unique, the length of an
      encoding is the computed one, decoding ends without a panic on every input
      ([Codec], [Types], [Node], [Proposal], [Framing], [Epoch]).
    - The tree: index arithmetic is that of a perfect binary tree; resolution is
      the recursive definition of the protocol; the incremental hashes are the
      hashes of the whole tree, and bind its content (or two of the inputs that were
      hashed collide); sender and receiver of an update path compute the same parent
      hashes; a tree whose parent hashes are accepted has every filled parent linked
      to a node below it as the protocol asks;
      a batch edit turns the roster into the one the proposals describe; the index
      answers as a scan of the tree would.
    - Keys: every receiver of an update path derives the sender's commit secret;
      the key schedule is that of the protocol, for the committer, who joins by
      welcome and who joins by external commit; the secret tree gives each generation's key once and the same key to
      sender and receiver, whatever was asked before.
    - Storage: the repository of past epochs behaves as one list of consecutive
      epochs.
    - Messages: what a member seals, every other member of the epoch opens to the
      same authenticated content; padding stays within its bounds; different reuse
      guards give different nonces.
    - Authentication: a public message is accepted exactly when its tag and its
      signature are right and its sender is one that may sign it; the message a
      member creates is accepted by the others; equal transcript hashes mean equal
      histories (or a collision of the hash).
    - Validation: a leaf, and a whole tree, is accepted exactly when it has the
      properties the protocol asks for.
    - Proposals: the receivers' check of a commit is exact for the rules of the
      protocol, and what the committer's filter lets through it accepts unchanged;
      a commit's proposals resolve at the receiver to the ones sent.
    - The machine: a commit is accepted, and then the member has the epoch that
      its confirmation tag names, or it removes the member, which is told so, or it is
      refused, and then the epoch, its secrets and what is pending are as before; whatever a member does in whatever order, its
      public state is that of a run of the protocol's machine; every reachable
      group is consistent with its provider, repository and cache; a member acts
      on nothing its sender has not signed, and what a member encrypts the others
      receive; an observer that is given the public messages a member takes from
      others, none of which removes it, processes all of them and has the member's
      public state.
    - Agreement: members that enter an epoch with the same confirmation tag, each by
      a commit or a welcome, have the same group context and the same secrets, or the
      calls that led them to the tag contain a collision of the MAC or the key
      derivation.
    - Cryptography: the contexts of the two ends of an HPKE channel agree, its
      nonces never repeat and the sampling of keys ends; the RustCrypto provider
      has the laws below that the theorems suppose of a provider, from the laws of
      the primitives, and panics exactly on a nonce of the wrong length.
    - Identities: an X.509 member is accepted exactly when its certificates are a path
      from a trusted root to its signature key that holds the pinned certificate (or,
      where that is allowed, one certificate signed by itself), and successors share an identity;
      what the validator does not check is stated as theorems too.
    - Storage: the SQLite and the in-memory storage answer alike after every
      history of writes and deletions; key packages are read back, and searching by
      prefix is exact for prefixes without the escape character.
    - The life of a group: a published key package is valid and found again; a
      stored group is read back; who joins a subgroup or successor is in the group
      that was announced, with secrets derived from the old one's.
    - Other builds: without proposals by reference the checks of a commit and the
      edit of the tree accept the same commits as the full ones, with the same tree,
      but for external initializations in the commit of a member; what greasing adds
      is hidden again and leaves no leaf invalid.
    - Where the code does otherwise, a theorem says so: a refused message key
      loses the sender's ratchet, a short update path panics, a reverted batch edit
      loses a member from the index, a failed key package deletion stores epochs
      twice, and others.  [Faults] has the two of the processing of commits, for every
      group: a commit refused for its tag leaves its private keys behind, and a
      member that is removed while it has a commit pending panics.

    ** What is supposed of a provider

    A cipher suite provider is a parameter.  What a theorem supposes of it is named
    and stated in [Crypto], as far as the interface documents it: [kdf_laws]
    (extraction from what is not empty, expansion of a key of the extracted size),
    [aead_seals] (sealing what is not empty under a key and nonce of the suite's
    sizes), [aead_pair], [hpke_pair], [export_pair] and [signature_pair] (each
    operation undoes or accepts what the other made), [random_total].  Nothing is
    supposed of a hash, a MAC or a key derivation to be injective: theorems that
    depend on it end in the alternative of an explicit collision between the calls
    that were made.  The provider of [RustCrypto] has the laws of pairs
    ([provider_sound]) and of success ([provider_derives]), and refuses the inputs
    that these leave out.

    ** Not modelled

    Of the builds with other features than the default ones, only the commits
    without proposals by reference, the repository without past epochs, the scan
    of the tree without an index and greasing are modelled.  The primitives of
    cryptography, the encoding of certificates, the providers other than
    RustCrypto and the bindings to other languages are outside the model: what
    the code relies on of them appears as parameters with the behaviour their
    interfaces document. Of the SQLite storage, the ways to open a connection,
    the version of the schema and the keys of SQLCipher.
    The locks of the in-memory storage and the sharing of a storage between the
    clones of a client are not modelled: a group owns the storages it was given,
    and the theorems about reading back take the storage it left.  Zeroization,
    [Debug] output and serde are not modelled.
*)
From stdpp Require Export base tactics list list_numbers gmap numbers option sorting.
From stdpp Require Import countable.
From coqutil Require Export Byte.
From Stdlib Require Export ZArith Lia.

#[global] Open Scope Z_scope.
Declare Scope mls_scope.
#[global] Open Scope mls_scope.

(** ** Results

    A Rust function of type [Result<A, E>] ends in one of four ways: a value,
    an error, a panic (an out-of-range index, an [unwrap] of [None], an
    explicit [panic!]), or, for a [while] loop the model runs with fuel, not at
    all within that fuel. *)
Inductive Result (E A : Type) : Type :=
  | Ok (a : A)
  | Err (e : E)
  | Panic
  | Diverge.

Arguments Ok {E A} a.
Arguments Err {E A} e.
Arguments Panic {E A}.
Arguments Diverge {E A}.

(** The [?] operator, as the bind of the result monad. *)
#[global] Instance result_bind {E} : MBind (Result E) := fun A B f r =>
  match r with
  | Ok a => f a
  | Err e => Err e
  | Panic => Panic
  | Diverge => Diverge
  end.
#[global] Instance result_ret {E} : MRet (Result E) := fun A a => Ok a.
#[global] Instance result_fmap {E} : FMap (Result E) := fun A B f r =>
  match r with
  | Ok a => Ok (f a)
  | Err e => Err e
  | Panic => Panic
  | Diverge => Diverge
  end.

(** [Result::is_ok], [Result::ok], [Option::ok_or], [Result::map_err] and
    [Option::unwrap]/[expect]. *)
Definition is_ok {E A} (r : Result E A) : bool :=
  match r with Ok _ => true | _ => false end.

Definition result_ok {E A} (r : Result E A) : option A :=
  match r with Ok a => Some a | _ => None end.

Definition ok_or {E A} (o : option A) (e : E) : Result E A :=
  match o with Some a => Ok a | None => Err e end.

Definition map_err {E F A} (f : E → F) (r : Result E A) : Result F A :=
  match r with
  | Ok a => Ok a
  | Err e => Err (f e)
  | Panic => Panic
  | Diverge => Diverge
  end.

Definition unwrap {E A} (o : option A) : Result E A :=
  match o with Some a => Ok a | None => Panic end.

(** [bool::then_some(()).ok_or(e)], the idiom the code uses for a guard. *)
Definition guard_or {E} (b : bool) (e : E) : Result E unit :=
  if b then Ok tt else Err e.

(** A [for] loop whose body may fail with [?]. *)
Fixpoint foldM {E S A} (f : S → A → Result E S) (s : S) (l : list A) : Result E S :=
  match l with
  | [] => Ok s
  | a :: l => s' ← f s a; foldM f s' l
  end.

(** [iter.map(f).collect::<Result<Vec<_>, _>>()]. *)
Fixpoint mapM_res {E A B} (f : A → Result E B) (l : list A) : Result E (list B) :=
  match l with
  | [] => Ok []
  | a :: l => b ← f a; bs ← mapM_res f l; Ok (b :: bs)
  end.

(** ** Operations on a state that stays when they fail

    A method with [&mut self] that ends in [?] leaves behind what it has changed
    so far: it returns the state beside the result. *)
Definition st_bind {E S A B} (m : Result E A * S) (k : A → S → Result E B * S) : Result E B * S :=
  match m with
  | (Ok a, s) => k a s
  | (Err e, s) => (Err e, s)
  | (Panic, s) => (Panic, s)
  | (Diverge, s) => (Diverge, s)
  end.

(** A step that reads no state. *)
Definition st_lift {E S A} (r : Result E A) (s : S) : Result E A * S := (r, s).

Notation "'try' x , s ← m ; k" := (st_bind m (λ x s, k))
  (at level 200, x pattern, s pattern, m at level 100, k at level 200, right associativity) : mls_scope.

(** ** Machine integers

    A [w]-bit unsigned integer is a [Z] in [0, 2^w).  Arithmetic that can leave
    the range is written with the wrap-around of a release build; the bounds
    theorems show where it does not. *)
Definition wrap (w z : Z) : Z := z mod 2 ^ w.
Definition u32 (z : Z) : Z := wrap 32 z.
Definition u32_max : Z := 2 ^ 32 - 1.

Definition is_u8 (z : Z) : Prop := 0 ≤ z < 2 ^ 8.
Definition is_u16 (z : Z) : Prop := 0 ≤ z < 2 ^ 16.
Definition is_u32 (z : Z) : Prop := 0 ≤ z < 2 ^ 32.
Definition is_u64 (z : Z) : Prop := 0 ≤ z < 2 ^ 64.

(** [a << n] on [u32]: the shift amount is taken modulo the width. *)
Definition shl32 (a n : Z) : Z := u32 (Z.shiftl a (n mod 32)).

(** [u32::trailing_ones]. *)
Fixpoint pos_trailing_ones (p : positive) : Z :=
  match p with
  | xI q => 1 + pos_trailing_ones q
  | xH => 1
  | xO _ => 0
  end.
Definition trailing_ones (z : Z) : Z :=
  match z with Zpos p => pos_trailing_ones p | _ => 0 end.

(** [usize::trailing_zeros] of a nonzero value. *)
Fixpoint pos_trailing_zeros (p : positive) : Z :=
  match p with
  | xO q => 1 + pos_trailing_zeros q
  | _ => 0
  end.
Definition trailing_zeros (w z : Z) : Z :=
  match z with Zpos p => pos_trailing_zeros p | _ => w end.

(** [u32::next_power_of_two] ([usize] alike): the least power of two that is
    not below [z]; 1 for 0. *)
Definition next_power_of_two (z : Z) : Z := 2 ^ Z.log2_up z.

(** ** Vectors

    A [Vec<T>] is a list; an index of type [u32] or [usize] is a [Z]. *)
Definition len {A} (l : list A) : Z := Z.of_nat (length l).

(** [l.get(i)]. *)
Definition vec_get {A} (l : list A) (i : Z) : option A :=
  if i <? 0 then None else l !! Z.to_nat i.

(** [l[i]]: panics when out of range. *)
Definition vec_index {E A} (l : list A) (i : Z) : Result E A :=
  unwrap (vec_get l i).

(** [*l.get_mut(i)? = a], or [l[i] = a] when the index is in range; nothing
    changes otherwise. *)
Definition vec_set {A} (l : list A) (i : Z) (a : A) : list A :=
  if i <? 0 then l else <[Z.to_nat i := a]> l.

(** [l[i] = a] as a statement: panics when out of range. *)
Definition vec_store {E A} (l : list A) (i : Z) (a : A) : Result E (list A) :=
  if (0 <=? i) && (i <? len l) then Ok (vec_set l i a) else Panic.

(** [v.resize(n, a)]. *)
Definition vec_resize {A} (l : list A) (n : Z) (a : A) : list A :=
  resize (Z.to_nat n) a l.

(** [Itertools::unique]: the first of each group of equal items. *)
Fixpoint unique_from {A} `{EqDecision A} (seen l : list A) : list A :=
  match l with
  | [] => []
  | a :: l => if bool_decide (a ∈ seen) then unique_from seen l else a :: unique_from (a :: seen) l
  end.
Definition unique {A} `{EqDecision A} (l : list A) : list A := unique_from [] l.

(** ** Bytes *)
Notation bytes := (list byte).

#[global] Instance byte_eq_dec : EqDecision byte := Byte.byte_eq_dec.
#[global] Instance byte_countable : Countable byte.
Proof.
  refine (inj_countable Byte.to_N Byte.of_N _).
  intros b. apply Byte.of_to_N.
Defined.

(** [uN::to_be_bytes] for an [n]-byte integer, and [uN::from_be_bytes]. *)
Fixpoint to_be_bytes (n : nat) (z : Z) : bytes :=
  match n with
  | O => []
  | S n' => byte.of_Z (Z.shiftr z (8 * Z.of_nat n')) :: to_be_bytes n' z
  end.

Fixpoint from_be_bytes_acc (acc : Z) (l : bytes) : Z :=
  match l with
  | [] => acc
  | b :: l => from_be_bytes_acc (acc * 256 + byte.unsigned b) l
  end.
Definition from_be_bytes (l : bytes) : Z := from_be_bytes_acc 0 l.

(** ** Automation *)
Create HintDb mls.

Lemma bind_ok {E A B} (r : Result E A) (f : A → Result E B) b :
  (r ≫= f) = Ok b ↔ ∃ a, r = Ok a ∧ f a = Ok b.
Proof. destruct r; naive_solver. Qed.

Lemma bind_err {E A B} (r : Result E A) (f : A → Result E B) e :
  (r ≫= f) = Err e ↔ r = Err e ∨ ∃ a, r = Ok a ∧ f a = Err e.
Proof. destruct r; naive_solver. Qed.

Lemma bind_assoc {E A B C} (r : Result E A) (f : A → Result E B) (g : B → Result E C) :
  ((r ≫= f) ≫= g) = (r ≫= λ a, f a ≫= g).
Proof. by destruct r. Qed.

Lemma bind_ext {E A B} (r : Result E A) (f g : A → Result E B) :
  (∀ a, r = Ok a → f a = g a) → (r ≫= f) = (r ≫= g).
Proof. destruct r; naive_solver. Qed.

Lemma fmap_ok {E A B} (r : Result E A) (f : A → B) b :
  (f <$> r) = Ok b ↔ ∃ a, r = Ok a ∧ f a = b.
Proof. destruct r; naive_solver. Qed.

Lemma ok_or_ok {E A} (o : option A) (e : E) a : ok_or o e = Ok a ↔ o = Some a.
Proof. destruct o; naive_solver. Qed.

Lemma map_err_ok {E F A} (f : E → F) (r : Result E A) a : map_err f r = Ok a ↔ r = Ok a.
Proof. destruct r; naive_solver. Qed.

Lemma unwrap_ok {E A} (o : option A) a : unwrap (E:=E) o = Ok a ↔ o = Some a.
Proof. destruct o; naive_solver. Qed.

Lemma guard_or_ok {E} b (e : E) u : guard_or b e = Ok u ↔ b = true.
Proof. destruct b, u; naive_solver. Qed.

(** [inv_res] opens every hypothesis that says a composite computation ended
    in [Ok]. *)
Ltac inv_res_step :=
  match goal with
  | H : Ok _ = Ok _ |- _ => injection H as H
  | H : Ok _ = Err _ |- _ => discriminate H
  | H : Err _ = Ok _ |- _ => discriminate H
  | H : Panic = Ok _ |- _ => discriminate H
  | H : Diverge = Ok _ |- _ => discriminate H
  | H : (_ ≫= _) = Ok _ |- _ =>
      apply bind_ok in H; let a := fresh "a" in let Ha := fresh "Ha" in
      destruct H as (a & Ha & H)
  | H : (_ <$> _) = Ok _ |- _ =>
      apply fmap_ok in H; let a := fresh "a" in let Ha := fresh "Ha" in
      destruct H as (a & Ha & H)
  | H : ok_or _ _ = Ok _ |- _ => apply ok_or_ok in H
  | H : map_err _ _ = Ok _ |- _ => apply map_err_ok in H
  | H : unwrap _ = Ok _ |- _ => apply unwrap_ok in H
  | H : guard_or _ _ = Ok _ |- _ => apply guard_or_ok in H
  | u : unit |- _ => destruct u
  | p : _ * _ |- _ => destruct p
  end.
Ltac inv_res := repeat (inv_res_step; simplify_eq/=).

(** Two hypotheses about the same computation agree on its result. *)
Ltac det :=
  repeat match goal with
  | H : ?e = ?r, H' : ?e = ?r' |- _ =>
      lazymatch r with Ok _ => idtac | Some _ => idtac end;
      lazymatch r' with Ok _ => idtac | Some _ => idtac | None => idtac end;
      rewrite H in H'; simplify_eq/=
  end.

Lemma st_bind_ok {E S A B} (m : Result E A * S) (k : A → S → Result E B * S) b s' :
  st_bind m k = (Ok b, s') ↔ ∃ a s, m = (Ok a, s) ∧ k a s = (Ok b, s').
Proof. destruct m as [[] ?]; naive_solver. Qed.

(** What holds of the state after every step holds in the end, also of a failure. *)
Lemma st_bind_state {E S A B} (P : S → Prop) (m : Result E A * S) (k : A → S → Result E B * S) :
  P m.2 → (∀ a, m.1 = Ok a → P (k a m.2).2) → P (st_bind m k).2.
Proof. destruct m as [[] ?]; cbn; auto. Qed.

(** ** Lemmas on results and loops *)
Lemma foldM_app {E S A} (f : S → A → Result E S) s l k :
  foldM f s (l ++ k) = (s' ← foldM f s l; foldM f s' k).
Proof.
  revert s. induction l as [|a l IH]; intros s; simpl; [done|].
  destruct (f s a); simpl; auto.
Qed.

(** The invariant rule for a [for] loop. *)
Lemma foldM_invariant {E S A} (f : S → A → Result E S) (P : S → Prop) l s s' :
  P s → (∀ s a s', a ∈ l → P s → f s a = Ok s' → P s') → foldM f s l = Ok s' → P s'.
Proof.
  revert s. induction l as [|a l IH]; simpl; intros s Hs Hf Hr; inv_res; [done|].
  eapply (IH a0); [eapply Hf|..]; [left|done|done| |done].
  intros ? ? ? ?. apply Hf. by right.
Qed.

(** A loop whose body never fails does not fail. *)
Lemma foldM_total {E S A} (f : S → A → Result E S) (P : S → Prop) l s :
  P s → (∀ s a, a ∈ l → P s → ∃ s', f s a = Ok s' ∧ P s') →
  ∃ s', foldM f s l = Ok s' ∧ P s'.
Proof.
  revert s. induction l as [|a l IH]; intros s Hs Hf; simpl; [eauto|].
  destruct (Hf s a) as (s1 & -> & Hs1); [left|done|]. simpl.
  apply IH; [done|]. intros ? ? ?. apply Hf. by right.
Qed.

Lemma mapM_res_ok {E A B} (f : A → Result E B) l k :
  mapM_res f l = Ok k ↔ Forall2 (λ a b, f a = Ok b) l k.
Proof.
  revert k. induction l as [|a l IH]; intros k; simpl.
  - split; [intros [= <-]; constructor | by inversion 1].
  - split.
    + intros. inv_res. constructor; [done|]. by apply IH.
    + inversion 1 as [|? b ? k' Hb Hk]; subst. rewrite Hb. simpl.
      apply IH in Hk. by rewrite Hk.
Qed.

Lemma mapM_res_fmap {E A B} (f : A → Result E B) (g : A → B) l :
  (∀ a, a ∈ l → f a = Ok (g a)) → mapM_res f l = Ok (g <$> l).
Proof.
  induction l as [|a l IH]; intros H; [done|]. cbn. rewrite H by left. cbn.
  rewrite IH; [done|]. intros. apply H. by right.
Qed.

(** ** Lemmas on machine integers *)
Lemma u32_small z : is_u32 z → u32 z = z.
Proof. apply Z.mod_small. Qed.

Lemma u32_range z : is_u32 (u32 z).
Proof. apply Z.mod_pos_bound. lia. Qed.

#[export] Hint Resolve u32_range : mls.
Lemma u32_bits z : is_u32 z ↔ ∀ i, 32 ≤ i → Z.testbit z i = false.
Proof.
  split.
  - intros Hz i Hi. rewrite <- (Z.mod_small z (2 ^ 32)) by exact Hz. apply Z.mod_pow2_bits_high. lia.
  - intros Hz. enough (z = z mod 2 ^ 32) as -> by (apply Z.mod_pos_bound; lia). apply Z.bits_inj'. intros i Hi.
    destruct (decide (i < 32)); [by rewrite Z.mod_pow2_bits_low by lia|]. by rewrite Z.mod_pow2_bits_high, Hz by lia.
Qed.

Lemma lxor_u32 a b : is_u32 a → is_u32 b → is_u32 (Z.lxor a b).
Proof. rewrite !u32_bits. intros Ha Hb i Hi. by rewrite Z.lxor_spec, Ha, Hb. Qed.

Lemma lor_u32 a b : is_u32 a → is_u32 b → is_u32 (Z.lor a b).
Proof. rewrite !u32_bits. intros Ha Hb i Hi. by rewrite Z.lor_spec, Ha, Hb. Qed.

Lemma land_u32 a b : is_u32 a → is_u32 (Z.land a b).
Proof. rewrite !u32_bits. intros Ha i Hi. by rewrite Z.land_spec, Ha. Qed.

#[export] Hint Rewrite u32_small using (unfold is_u32; lia) : mls.

Lemma pow2_pos k : 0 ≤ k → 0 < 2 ^ k.
Proof. intros. apply Z.pow_pos_nonneg; lia. Qed.

Lemma trailing_zeros_pow2 w d : 0 ≤ d → trailing_zeros w (2 ^ d) = d.
Proof.
  revert d. refine (natlike_ind _ _ _); [done|]. intros d Hd IH. rewrite Z.pow_succ_r by done.
  pose proof (pow2_pos d Hd). destruct (2 ^ d) as [|p|] eqn:E; [lia| |lia].
  change (2 * Z.pos p) with (Z.pos p~0). cbn [trailing_zeros pos_trailing_zeros] in *. lia.
Qed.

Lemma pow2_succ k : 0 ≤ k → 2 ^ (k + 1) = 2 * 2 ^ k.
Proof. intros. rewrite Z.pow_add_r; lia. Qed.

Lemma shl32_1 n : 0 ≤ n < 32 → shl32 1 n = 2 ^ n.
Proof.
  intros. unfold shl32. rewrite Z.mod_small, Z.shiftl_1_l by lia.
  apply u32_small. split; [apply Z.pow_nonneg; lia|apply Z.pow_lt_mono_r; lia].
Qed.

Lemma next_power_of_two_spec z :
  1 ≤ z → ∃ d, 0 ≤ d ∧ next_power_of_two z = 2 ^ d ∧ z ≤ 2 ^ d ∧ (∀ k, 0 ≤ k → z ≤ 2 ^ k → d ≤ k).
Proof.
  intros. exists (Z.log2_up z). split_and!; [apply Z.log2_up_nonneg|done| |].
  - destruct (decide (z = 1)) as [->|]; [done|]. apply Z.log2_up_spec. lia.
  - intros k Hk Hz. rewrite <- (Z.log2_up_pow2 k) by done. by apply Z.log2_up_le_mono.
Qed.

(** ** Lemmas on vectors *)
Lemma rev_reverse {A} (l : list A) : rev l = reverse l.
Proof. apply rev_alt. Qed.

Lemma vec_get_Some {A} (l : list A) i a : vec_get l i = Some a → 0 ≤ i < len l.
Proof.
  unfold vec_get, len. destruct (Z.ltb_spec i 0); [done|]. intros ?%lookup_lt_Some. lia.
Qed.

Lemma vec_get_nat {A} (l : list A) (i : nat) : vec_get l (Z.of_nat i) = l !! i.
Proof. unfold vec_get. destruct (Z.ltb_spec (Z.of_nat i) 0); [lia|]. by rewrite Nat2Z.id. Qed.

Lemma vec_get_is_Some {A} (l : list A) i : is_Some (vec_get l i) ↔ 0 ≤ i < len l.
Proof.
  unfold vec_get, len. destruct (Z.ltb_spec i 0).
  - split; [intros [? ?]; done|lia].
  - rewrite lookup_lt_is_Some. lia.
Qed.

Lemma vec_get_None {A} (l : list A) i : vec_get l i = None ↔ ¬ 0 ≤ i < len l.
Proof. rewrite <- vec_get_is_Some, eq_None_not_Some. done. Qed.

Lemma len_vec_set {A} (l : list A) i a : len (vec_set l i a) = len l.
Proof. unfold vec_set, len. destruct (i <? 0); [done|]. by rewrite length_insert. Qed.

Lemma vec_get_set_eq {A} (l : list A) i a : 0 ≤ i < len l → vec_get (vec_set l i a) i = Some a.
Proof.
  unfold vec_get, vec_set, len. destruct (Z.ltb_spec i 0); [lia|]. intros.
  apply list_lookup_insert_eq. lia.
Qed.

Lemma vec_get_set_ne {A} (l : list A) i j a : i ≠ j → vec_get (vec_set l i a) j = vec_get l j.
Proof.
  unfold vec_get, vec_set. destruct (Z.ltb_spec i 0), (Z.ltb_spec j 0); [done..|]. intros.
  apply list_lookup_insert_ne. lia.
Qed.

Lemma vec_get_app {A} (l k : list A) i :
  vec_get (l ++ k) i = if i <? len l then vec_get l i else vec_get k (i - len l).
Proof.
  unfold vec_get, len. destruct (Z.ltb_spec i (Z.of_nat (length l))).
  - destruct (Z.ltb_spec i 0); [done|]. rewrite lookup_app_l; [done|lia].
  - destruct (Z.ltb_spec i 0); [lia|].
    destruct (Z.ltb_spec (i - Z.of_nat (length l)) 0); [lia|].
    rewrite lookup_app_r by lia. f_equal. lia.
Qed.

Lemma len_app {A} (l k : list A) : len (l ++ k) = len l + len k.
Proof. unfold len. rewrite length_app. lia. Qed.

Lemma len_nonneg {A} (l : list A) : 0 ≤ len l.
Proof. unfold len. lia. Qed.

#[export] Hint Resolve len_nonneg : mls.
#[export] Hint Rewrite @len_vec_set @len_app : mls.

Lemma unique_from_spec {A} `{EqDecision A} (seen l : list A) :
  NoDup (unique_from seen l) ∧ ∀ a, a ∈ unique_from seen l ↔ a ∈ l ∧ a ∉ seen.
Proof.
  revert seen. induction l as [|b l IH]; intros seen; cbn [unique_from].
  - split; [constructor|]. set_solver.
  - case_bool_decide as Hb.
    + destruct (IH seen) as [Hn He]. split; [done|]. intros a. rewrite He, elem_of_cons. naive_solver.
    + destruct (IH (b :: seen)) as [Hn He]. split.
      * constructor; [|done]. rewrite He. set_solver.
      * intros a. rewrite !elem_of_cons, He, elem_of_cons. destruct (decide (a = b)); naive_solver.
Qed.

Lemma unique_NoDup {A} `{EqDecision A} (l : list A) : NoDup (unique l).
Proof. apply unique_from_spec. Qed.

Lemma elem_of_unique {A} `{EqDecision A} (l : list A) a : a ∈ unique l ↔ a ∈ l.
Proof. unfold unique. rewrite (proj2 (unique_from_spec [] l)). set_solver. Qed.

(** ** Lemmas on big-endian encodings *)
Lemma length_to_be_bytes n z : length (to_be_bytes n z) = n.
Proof. induction n; simpl; auto. Qed.

Lemma from_be_bytes_acc_app acc l k :
  from_be_bytes_acc acc (l ++ k) = from_be_bytes_acc (from_be_bytes_acc acc l) k.
Proof. revert acc. induction l; simpl; auto. Qed.

Lemma from_be_bytes_acc_spec acc l :
  from_be_bytes_acc acc l = acc * 256 ^ len l + from_be_bytes l.
Proof.
  unfold from_be_bytes. revert acc. induction l as [|b l IH]; intros acc; cbn [from_be_bytes_acc]; rewrite ?Z.mul_0_l, ?Z.add_0_l.
  - change (len (@nil byte)) with 0. lia.
  - rewrite (IH (acc * 256 + byte.unsigned b)), (IH (byte.unsigned b)).
    unfold len. simpl length. rewrite Nat2Z.inj_succ, Z.pow_succ_r by lia. lia.
Qed.

Lemma from_be_bytes_cons b l :
  from_be_bytes (b :: l) = byte.unsigned b * 256 ^ len l + from_be_bytes l.
Proof. unfold from_be_bytes at 1. simpl. apply from_be_bytes_acc_spec. Qed.

Lemma from_be_bytes_range l : 0 ≤ from_be_bytes l < 256 ^ len l.
Proof.
  induction l as [|b l IH]; [vm_compute; split; congruence|].
  rewrite from_be_bytes_cons. pose proof (byte.unsigned_range b).
  unfold len in *. simpl length. rewrite Nat2Z.inj_succ, Z.pow_succ_r by lia. nia.
Qed.

Lemma pow256 n : 256 ^ Z.of_nat n = 2 ^ (8 * Z.of_nat n).
Proof. rewrite Z.pow_mul_r by lia. done. Qed.

Lemma from_to_be_bytes n z : from_be_bytes (to_be_bytes n z) = z mod 256 ^ Z.of_nat n.
Proof.
  induction n as [|n IH]; [by rewrite Z.mod_1_r|].
  cbn [to_be_bytes]. rewrite from_be_bytes_cons, IH.
  unfold len. rewrite length_to_be_bytes, byte.unsigned_of_Z. unfold byte.wrap.
  rewrite Z.shiftr_div_pow2, <- pow256, Nat2Z.inj_succ, Z.pow_succ_r by lia.
  rewrite (Z.mul_comm 256), Z.rem_mul_r by lia. change (2 ^ 8) with 256. lia.
Qed.

Lemma to_from_be_bytes l : to_be_bytes (length l) (from_be_bytes l) = l.
Proof.
  enough (∀ l z, to_be_bytes (length l) (z * 256 ^ len l + from_be_bytes l) = l) as H.
  { specialize (H l 0). by rewrite Z.mul_0_l, Z.add_0_l in H. }
  clear l. induction l as [|b l IH]; intros z; [done|].
  rewrite from_be_bytes_cons. cbn [length to_be_bytes].
  pose proof (from_be_bytes_range l) as Hr. unfold len in *. cbn [length].
  assert (z * 256 ^ Z.of_nat (S (length l)) +
    (byte.unsigned b * 256 ^ Z.of_nat (length l) + from_be_bytes l) =
    (z * 256 + byte.unsigned b) * 256 ^ Z.of_nat (length l) + from_be_bytes l) as ->.
  { rewrite Nat2Z.inj_succ, Z.pow_succ_r by lia. lia. }
  f_equal; [|apply IH].
  rewrite Z.shiftr_div_pow2, <- pow256, Z.div_add_l, (Z.div_small _ _ Hr) by lia.
  apply byte.unsigned_inj. rewrite byte.unsigned_of_Z. unfold byte.wrap.
  rewrite <- (byte.wrap_unsigned b) at 2. unfold byte.wrap.
  rewrite Z.add_0_r, (Z.add_comm (z * 256)). change (2 ^ 8) with 256. by rewrite Z.mod_add.
Qed.

Lemma from_to_be_bytes_small n z :
  0 ≤ z < 2 ^ (8 * Z.of_nat n) → from_be_bytes (to_be_bytes n z) = z.
Proof. intros. rewrite from_to_be_bytes, pow256. by apply Z.mod_small. Qed.

(** ** Settled computations

    A computation that neither panics nor runs out of fuel. *)
Definition settled {E A} (r : Result E A) : Prop :=
  match r with Ok _ | Err _ => True | _ => False end.

Lemma settled_bind {E A B} (r : Result E A) (f : A → Result E B) :
  settled r → (∀ a, r = Ok a → settled (f a)) → settled (r ≫= f).
Proof. destruct r; naive_solver. Qed.

Lemma settled_fmap {E A B} (r : Result E A) (f : A → B) : settled r → settled (f <$> r).
Proof. by destruct r. Qed.

Lemma settled_ok_or {E A} (o : option A) (e : E) : settled (ok_or o e).
Proof. by destruct o. Qed.

#[export] Hint Resolve settled_bind settled_fmap settled_ok_or : mls.

(** ** Postconditions

    [post P r]: the computation is settled, and a value it returns satisfies
    [P]. *)
Definition post {E A} (P : A → Prop) (r : Result E A) : Prop :=
  match r with Ok a => P a | Err _ => True | _ => False end.

Lemma post_bind {E A B} (P : A → Prop) (Q : B → Prop) (r : Result E A) (f : A → Result E B) :
  post P r → (∀ a, r = Ok a → P a → post Q (f a)) → post Q (r ≫= f).
Proof. destruct r; naive_solver. Qed.

Lemma post_settled {E A} (r : Result E A) : settled r → post (λ a, r = Ok a) r.
Proof. by destruct r. Qed.

Lemma post_mono {E A} (P Q : A → Prop) (r : Result E A) : (∀ a, P a → Q a) → post P r → post Q r.
Proof. destruct r; naive_solver. Qed.

Lemma post_ok {E A} (P : A → Prop) (r : Result E A) a : post P r → r = Ok a → P a.
Proof. intros H ->. done. Qed.

(** The invariant rule for a loop: [I] holds of the items already handled. *)
Lemma post_foldM {E S A} (f : S → A → Result E S) (I : list A → S → Prop) l s :
  I [] s → (∀ done a rest s, l = done ++ a :: rest → I done s → post (I (done ++ [a])) (f s a)) →
  post (I l) (foldM f s l).
Proof.
  intros H0 Hstep.
  enough (∀ done rest s, l = done ++ rest → I done s → post (I l) (foldM f s rest)) as H by by apply (H []).
  clear H0 s. intros done rest. revert done. induction rest as [|a rest IH]; intros done s Hl Hs; cbn [foldM].
  - rewrite app_nil_r in Hl. by subst.
  - eapply post_bind; [by eapply Hstep|]. intros s' _ Hs'. apply (IH (done ++ [a])); [|done].
    by rewrite <- app_assoc.
Qed.
