(* ===== verification/Codec.v ===== *)
(** * The MLS wire format (mls-rs-codec, mls-rs-codec-derive)

    One record [MlsCodec A] stands for the three traits [MlsSize], [MlsEncode]
    and [MlsDecode] of a type.  A writer is the byte vector built so far; a
    reader is the list of bytes still to be read, returned with the decoded
    value.  [CodecLaws] states what every implementation promises to the code
    that serializes messages, hashes inputs and stores state; each instance
    below discharges it. *)
From S2P Require Import Prelude.

(** [mls_rs_codec::Error]. *)
Inductive Error : Type :=
  | VarIntOutOfRange
  | InvalidVarIntPrefix (p : Z)
  | VarIntMinimumLengthEncoding
  | UnexpectedEOF
  | OptionOutOfRange (n : Z)
  | UnsupportedEnumDiscriminant
  | Utf8
  | Custom (n : Z).

#[global] Instance error_eq_dec : EqDecision Error.
Proof. solve_decision. Defined.

Record MlsCodec (A : Type) : Type := {
  mls_encoded_len : A → Result Error Z;
  mls_encode : A → bytes → Result Error bytes;
  mls_decode : bytes → Result Error (A * bytes);
}.
Arguments mls_encoded_len {A}.
Arguments mls_encode {A}.
Arguments mls_decode {A}.

(** [MlsEncode::mls_encode_to_vec]. *)
Definition mls_encode_to_vec {A} (c : MlsCodec A) (a : A) : Result Error bytes :=
  mls_encode c a [].

(** ** Fixed-size arrays and integers: array.rs, stdint.rs *)
Definition array_codec (n : nat) : MlsCodec bytes := {|
  mls_encoded_len _ := Ok (Z.of_nat n);
  mls_encode a w := Ok (w ++ a);
  mls_decode r :=
    if decide (n ≤ length r)%nat then Ok (take n r, drop n r) else Err UnexpectedEOF;
|}.

Definition stdint_codec (n : nat) : MlsCodec Z := {|
  mls_encoded_len _ := Ok (Z.of_nat n);
  mls_encode z w := Ok (w ++ to_be_bytes n z);
  mls_decode r := '(a, r) ← mls_decode (array_codec n) r; Ok (from_be_bytes a, r);
|}.
Definition u8_codec := stdint_codec 1.
Definition u16_codec := stdint_codec 2.
Definition u32_codec := stdint_codec 4.
Definition u64_codec := stdint_codec 8.

(** ** Variable-length integers: varint.rs *)
Module VarInt.

(** [VarInt::MAX]. *)
Definition MAX : Z := Z.shiftl 1 30 - 1.

Inductive LengthEncoding := One | Two | Four.

(** [LengthEncoding as usize]. *)
Definition as_usize (e : LengthEncoding) : Z :=
  match e with One => 1 | Two => 2 | Four => 4 end.

(** [32 - n.leading_zeros()]. *)
Definition used_bits (n : Z) : Z := if n =? 0 then 0 else Z.log2 n + 1.

Definition count_bytes_to_encode_int (n : Z) : Result Error LengthEncoding :=
  let used := used_bits n in
  if used <=? 6 then Ok One
  else if used <=? 14 then Ok Two
  else if used <=? 30 then Ok Four
  else Panic.

(** [TryFrom<u32>] and [TryFrom<usize>]. *)
Definition try_from_u32 (n : Z) : Result Error Z :=
  if n <=? MAX then Ok n else Err VarIntOutOfRange.

Definition try_from (n : Z) : Result Error Z :=
  if n <? 2 ^ 32 then try_from_u32 n else Err VarIntOutOfRange.

(** [bytes[i] |= m]. *)
Definition or_byte (l : bytes) (i : nat) (m : Z) : bytes :=
  match l !! i with
  | Some b => <[i := byte.of_Z (Z.lor (byte.unsigned b) m)]> l
  | None => l
  end.

Definition encode (n : Z) (w : bytes) : Result Error bytes :=
  let bs := to_be_bytes 4 n in
  e ← count_bytes_to_encode_int n;
  Ok (w ++ match e with
           | One => drop 3 bs
           | Two => drop 2 (or_byte bs 2 0x40)
           | Four => or_byte bs 0 0x80
           end).

(** The [try_fold] that reads the remaining [k] bytes. *)
Fixpoint decode_rest (k : nat) (n : Z) (r : bytes) : Result Error (Z * bytes) :=
  match k with
  | O => Ok (n, r)
  | S k =>
      '(b, r) ← mls_decode u8_codec r;
      decode_rest k (Z.lor (shl32 n 8) b) r
  end.

Definition decode (r : bytes) : Result Error (Z * bytes) :=
  '(first, r) ← mls_decode u8_codec r;
  let prefix := Z.shiftr first 6 in
  count ← (if prefix <? 3 then Ok (Z.shiftl 1 prefix) else Err (InvalidVarIntPrefix prefix));
  '(n, r) ← decode_rest (Z.to_nat (count - 1)) (Z.land first 0x3f) r;
  e ← count_bytes_to_encode_int n;
  if as_usize e =? count then Ok (n, r) else Err VarIntMinimumLengthEncoding.

Definition codec : MlsCodec Z := {|
  mls_encoded_len n := as_usize <$> count_bytes_to_encode_int n;
  mls_encode := encode;
  mls_decode := decode;
|}.

End VarInt.

(** ** Length-prefixed collections: iter.rs, byte_vec.rs, vec.rs *)

(** [VarInt::try_from(len).unwrap_or(VarInt(0)).mls_encoded_len()]. *)
Definition header_length (n : Z) : Result Error Z :=
  mls_encoded_len VarInt.codec
    (match VarInt.try_from n with Ok v => v | _ => 0 end).

(** [iter.map(|x| x.mls_encoded_len()).sum()]. *)
Definition sum_encoded_len {A} (c : MlsCodec A) (l : list A) : Result Error Z :=
  foldM (λ s a, n ← mls_encoded_len c a; Ok (s + n)) 0 l.

Definition iter_mls_encoded_len {A} (c : MlsCodec A) (l : list A) : Result Error Z :=
  n ← sum_encoded_len c l; h ← header_length n; Ok (h + n).

(** [iter.try_for_each(|x| x.mls_encode(writer))]. *)
Definition encode_items {A} (c : MlsCodec A) (l : list A) (w : bytes) : Result Error bytes :=
  foldM (λ w a, mls_encode c a w) w l.

(** [iter::mls_encode] with the feature [preallocate] (the default): the header
    is the sum of the computed sizes. *)
Definition iter_mls_encode {A} (c : MlsCodec A) (l : list A) (w : bytes) : Result Error bytes :=
  n ← sum_encoded_len c l;
  header ← VarInt.try_from n;
  w ← mls_encode VarInt.codec header w;
  encode_items c l w.

(** [iter::mls_encode] without it: the items are first written to a buffer. *)
Definition iter_mls_encode_buffered {A} (c : MlsCodec A) (l : list A) (w : bytes)
    : Result Error bytes :=
  buffer ← encode_items c l [];
  n ← VarInt.try_from (len buffer);
  w ← mls_encode VarInt.codec n w;
  Ok (w ++ buffer).

Definition mls_decode_split_on_collection (r : bytes) : Result Error (bytes * bytes) :=
  '(n, r) ← mls_decode VarInt.codec r;
  if n >? len r then Err UnexpectedEOF
  else Ok (take (Z.to_nat n) r, drop (Z.to_nat n) r).

Definition mls_decode_collection {T} (item_decode : bytes → Result Error T) (r : bytes)
    : Result Error (T * bytes) :=
  '(data, rest) ← mls_decode_split_on_collection r;
  items ← item_decode data;
  Ok (items, rest).

(** [while !data.is_empty() { items.push(T::mls_decode(data)?) }].  An item that
    takes at least one byte lets [length data] iterations suffice. *)
Fixpoint decode_items {A} (c : MlsCodec A) (fuel : nat) (data : bytes)
    : Result Error (list A) :=
  match data with
  | [] => Ok []
  | _ =>
      match fuel with
      | O => Diverge
      | S fuel =>
          '(a, data) ← mls_decode c data;
          l ← decode_items c fuel data;
          Ok (a :: l)
      end
  end.

Definition vec_codec {A} (c : MlsCodec A) : MlsCodec (list A) := {|
  mls_encoded_len := iter_mls_encoded_len c;
  mls_encode := iter_mls_encode c;
  mls_decode := mls_decode_collection (λ data, decode_items c (length data) data);
|}.

(** [byte_vec]: the same format for byte strings, without per-item work. *)
Definition byte_vec_codec : MlsCodec bytes := {|
  mls_encoded_len data := h ← header_length (len data); Ok (h + len data);
  mls_encode data w :=
    n ← VarInt.try_from (len data);
    w ← mls_encode VarInt.codec n w;
    Ok (w ++ data);
  mls_decode := mls_decode_split_on_collection;
|}.

(** ** Options and pairs: option.rs, tuple.rs *)
Definition option_codec {A} (c : MlsCodec A) : MlsCodec (option A) := {|
  mls_encoded_len o :=
    n ← (match o with Some a => mls_encoded_len c a | None => Ok 0 end); Ok (1 + n);
  mls_encode o w :=
    match o with
    | Some a => mls_encode c a (w ++ [byte.of_Z 1])
    | None => Ok (w ++ [byte.of_Z 0])
    end;
  mls_decode r :=
    '(n, r) ← mls_decode u8_codec r;
    if n =? 0 then Ok (None, r)
    else if n =? 1 then '(a, r) ← mls_decode c r; Ok (Some a, r)
    else Err (OptionOutOfRange n);
|}.

Definition tuple_codec {A B} (c : MlsCodec A) (d : MlsCodec B) : MlsCodec (A * B) := {|
  mls_encoded_len p :=
    n ← mls_encoded_len c p.1; m ← mls_encoded_len d p.2; Ok (n + m);
  mls_encode p w := w ← mls_encode c p.1 w; mls_encode d p.2 w;
  mls_decode r :=
    '(a, r) ← mls_decode c r; '(b, r) ← mls_decode d r; Ok ((a, b), r);
|}.

(** ** Derived implementations: mls-rs-codec-derive

    [struct_impl] encodes the fields in declaration order; [struct_codec]
    does so through the nested tuple of the fields. *)
Definition struct_codec {A B} (fields : B → A) (make : A → B) (c : MlsCodec A)
    : MlsCodec B := {|
  mls_encoded_len b := mls_encoded_len c (fields b);
  mls_encode b w := mls_encode c (fields b) w;
  mls_decode r := '(a, r) ← mls_decode c r; Ok (make a, r);
|}.

(** [enum_impl]: a discriminant, then the variant's field, if it has one. *)
Record Variant (A : Type) : Type := {
  v_discriminant : Z;
  v_field : Type;
  v_codec : MlsCodec v_field;
  v_make : v_field → A;
  v_match : A → option v_field;
}.
Arguments v_discriminant {A}.
Arguments v_field {A}.
Arguments v_codec {A}.
Arguments v_make {A}.
Arguments v_match {A}.

Definition unit_codec : MlsCodec unit := {|
  mls_encoded_len _ := Ok 0;
  mls_encode _ w := Ok w;
  mls_decode r := Ok (tt, r);
|}.

Fixpoint enum_encoded_len {A} (d : MlsCodec Z) (vs : list (Variant A)) (a : A)
    : Result Error Z :=
  match vs with
  | [] => Panic
  | v :: vs =>
      match v_match v a with
      | Some x =>
          n ← mls_encoded_len d (v_discriminant v);
          m ← mls_encoded_len (v_codec v) x;
          Ok (n + m)
      | None => enum_encoded_len d vs a
      end
  end.

Fixpoint enum_encode {A} (d : MlsCodec Z) (vs : list (Variant A)) (a : A) (w : bytes)
    : Result Error bytes :=
  match vs with
  | [] => Panic
  | v :: vs =>
      match v_match v a with
      | Some x => w ← mls_encode d (v_discriminant v) w; mls_encode (v_codec v) x w
      | None => enum_encode d vs a w
      end
  end.

Fixpoint enum_decode_variant {A} (vs : list (Variant A)) (n : Z) (r : bytes)
    : Result Error (A * bytes) :=
  match vs with
  | [] => Err UnsupportedEnumDiscriminant
  | v :: vs =>
      if n =? v_discriminant v
      then '(x, r) ← mls_decode (v_codec v) r; Ok (v_make v x, r)
      else enum_decode_variant vs n r
  end.

Definition enum_codec {A} (d : MlsCodec Z) (vs : list (Variant A)) : MlsCodec A := {|
  mls_encoded_len := enum_encoded_len d vs;
  mls_encode := enum_encode d vs;
  mls_decode r := '(n, r) ← mls_decode d r; enum_decode_variant vs n r;
|}.

(** ** Maps: map.rs

    The map is encoded as the collection of its entries, in the iteration
    order [entries] of the container; decoding inserts them one by one. *)
Definition map_encode {K V} (ck : MlsCodec K) (cv : MlsCodec V) (entries : list (K * V))
    (w : bytes) : Result Error bytes :=
  iter_mls_encode (tuple_codec ck cv) entries w.

Definition map_decode {K V} `{Countable K} (ck : MlsCodec K) (cv : MlsCodec V) (r : bytes)
    : Result Error (gmap K V * bytes) :=
  mls_decode_collection (λ data,
    entries ← decode_items (tuple_codec ck cv) (length data) data;
    Ok (foldl (λ m '(k, v), <[k := v]> m) ∅ entries)) r.

(** * Laws

    [CodecLaws c wf] is the contract of an implementation on the values that
    satisfy [wf] (the range of an integer type, the length of an array):
    encoding appends to the writer; the computed size is the encoded size; a
    value whose size fits a length header can be encoded; decoding an encoding
    followed by anything returns the value and the rest; what decoding accepts
    is well formed and is exactly its own encoding (the format is canonical);
    decoding ends, without a panic, on every input. *)
Class CodecLaws {A} (c : MlsCodec A) (wf : A → Prop) : Prop := {
  encode_writer a w : mls_encode c a w = app w <$> mls_encode c a [];
  encode_len a bs : wf a → mls_encode c a [] = Ok bs → mls_encoded_len c a = Ok (len bs);
  len_total a : wf a → ∃ n, mls_encoded_len c a = Ok n ∧ 0 ≤ n;
  encode_total a n : wf a → mls_encoded_len c a = Ok n → n ≤ VarInt.MAX →
    ∃ bs, mls_encode c a [] = Ok bs;
  decode_encode a bs rest : wf a → mls_encode c a [] = Ok bs →
    mls_decode c (bs ++ rest) = Ok (a, rest);
  decode_sound r a rest : mls_decode c r = Ok (a, rest) →
    wf a ∧ ∃ bs, mls_encode c a [] = Ok bs ∧ r = bs ++ rest;
  decode_settled r : settled (mls_decode c r);
}.

(** Types whose encodings take at least one byte, as the items of a vector
    must. *)
Class NonEmpty {A} (c : MlsCodec A) (wf : A → Prop) : Prop :=
  encode_nonempty a : wf a → mls_encode c a [] ≠ Ok [].

Section consequences.
Context {A} (c : MlsCodec A) (wf : A → Prop) `{!CodecLaws c wf}.

Lemma decode_nil_rest a bs : wf a → mls_encode c a [] = Ok bs → mls_decode c bs = Ok (a, []).
Proof. intros Ha Hbs. rewrite <- (app_nil_r bs). by apply decode_encode. Qed.

(** No encoding is a proper prefix of another one, hence none is shared. *)
Lemma encode_prefix_free a b x y rest :
  wf a → wf b → mls_encode c a [] = Ok x → mls_encode c b [] = Ok y → x ++ rest = y → a = b.
Proof.
  intros Ha Hb Hx Hy <-. pose proof (decode_encode a x rest Ha Hx) as H1.
  rewrite (decode_nil_rest b _ Hb Hy) in H1. naive_solver.
Qed.

Lemma encode_inj a b x : wf a → wf b → mls_encode c a [] = Ok x → mls_encode c b [] = Ok x → a = b.
Proof. intros. eapply (encode_prefix_free a b x x []); eauto. apply app_nil_r. Qed.
End consequences.

(** The laws depend on the well-formedness predicate up to equivalence only. *)
Lemma laws_iff {A} (c : MlsCodec A) (wf wf' : A → Prop) :
  CodecLaws c wf → (∀ a, wf' a ↔ wf a) → CodecLaws c wf'.
Proof.
  intros [H1 H2 H3 H4 H5 H6 H7] Hiff. split; [done|..|done].
  - intros a bs Ha. apply H2. by apply Hiff.
  - intros a Ha. apply H3. by apply Hiff.
  - intros a n Ha. apply H4. by apply Hiff.
  - intros a bs rest Ha. apply H5. by apply Hiff.
  - intros r a rest H. destruct (H6 r a rest H) as [Ha Hb]. split; [by apply Hiff|done].
Qed.

Lemma stdint_laws n : CodecLaws (stdint_codec n) (λ z, 0 ≤ z < 2 ^ (8 * Z.of_nat n)).
Proof.
  split; simpl.
  - done.
  - intros a bs _ [= <-]. unfold len. by rewrite length_to_be_bytes.
  - intros. eexists. split; [done|lia].
  - eauto.
  - intros a bs rest Ha [= <-]. rewrite decide_True by (rewrite length_app, length_to_be_bytes; lia).
    simpl. rewrite take_app_length', drop_app_length' by (symmetry; apply length_to_be_bytes).
    by rewrite from_to_be_bytes_small.
  - intros r a rest H. case_decide as Hn; inv_res.
    assert (len (take n r) = Z.of_nat n) as Hl by (unfold len; rewrite length_take; lia).
    split.
    + rewrite <- pow256, <- Hl. apply from_be_bytes_range.
    + eexists. split; [done|]. replace n with (length (take n r)) at 1 by (rewrite length_take; lia).
      by rewrite to_from_be_bytes, take_drop.
  - intros r. by case_decide.
Qed.

#[export] Instance u8_laws : CodecLaws u8_codec is_u8 := stdint_laws 1.
#[export] Instance u16_laws : CodecLaws u16_codec is_u16 := stdint_laws 2.
#[export] Instance u32_laws : CodecLaws u32_codec is_u32 := stdint_laws 4.
#[export] Instance u64_laws : CodecLaws u64_codec is_u64 := stdint_laws 8.
#[export] Instance u8_nonempty : NonEmpty u8_codec is_u8.
Proof. done. Qed.
#[export] Instance u16_nonempty : NonEmpty u16_codec is_u16.
Proof. done. Qed.
#[export] Instance u32_nonempty : NonEmpty u32_codec is_u32.
Proof. done. Qed.
#[export] Instance u64_nonempty : NonEmpty u64_codec is_u64.
Proof. done. Qed.

Lemma u8_decode_cons b r : mls_decode u8_codec (b :: r) = Ok (byte.unsigned b, r).
Proof. done. Qed.

Module VarIntFacts.
Import VarInt.

(** The range of a [VarInt] value. *)
Definition wf (n : Z) : Prop := 0 ≤ n ≤ MAX.

Lemma used_bits_le n k : 0 ≤ n → 0 ≤ k → used_bits n ≤ k ↔ n < 2 ^ k.
Proof.
  intros Hn Hk. unfold used_bits. destruct (Z.eqb_spec n 0) as [->|].
  - split; [intros; by apply pow2_pos|lia].
  - pose proof (Z.log2_lt_pow2 n k). lia.
Qed.

(** The length class of a value is decided by its magnitude. *)
Lemma count_bytes_spec n :
  0 ≤ n →
  count_bytes_to_encode_int n =
    if n <? 2 ^ 6 then Ok One else if n <? 2 ^ 14 then Ok Two
    else if n <? 2 ^ 30 then Ok Four else Panic.
Proof.
  intros Hn. unfold count_bytes_to_encode_int.
  pose proof (used_bits_le n 6 Hn). pose proof (used_bits_le n 14 Hn).
  pose proof (used_bits_le n 30 Hn).
  repeat match goal with
  | |- context [?a <=? ?b] => destruct (Z.leb_spec a b)
  | |- context [?a <? ?b] => destruct (Z.ltb_spec a b)
  end; first [done | exfalso; lia].
Qed.

Lemma or_prefix m a : (m = 64 ∨ m = 128) → 0 ≤ a < 64 → Z.lor a m = a + m.
Proof.
  intros Hm Ha.
  assert (Z.land a m = 0) as Hl.
  { apply Z.bits_inj'. intros k Hk. rewrite Z.land_spec, Z.bits_0.
    destruct (decide (k < 6)).
    - assert (Z.testbit m k = false) as ->; [|by rewrite andb_false_r].
      assert (k = 0 ∨ k = 1 ∨ k = 2 ∨ k = 3 ∨ k = 4 ∨ k = 5) as Hc by lia.
      destruct Hm as [-> | ->]; destruct_or!; by subst.
    - rewrite (Z.bits_above_log2 a k); [done|lia|].
      destruct (decide (a = 0)) as [->|]; [simpl; lia|]. apply Z.log2_lt_pow2; [lia|].
      apply Z.lt_le_trans with (2 ^ 6); [lia|]. apply Z.pow_le_mono_r; lia. }
  symmetry. rewrite Z.add_nocarry_lxor by done. by apply Z.lxor_lor.
Qed.

Lemma shl8_lor n b : 0 ≤ n < 2 ^ 24 → 0 ≤ b < 256 → Z.lor (shl32 n 8) b = n * 256 + b.
Proof.
  intros Hn Hb. unfold shl32. change (8 mod 32) with 8.
  rewrite Z.shiftl_mul_pow2, u32_small by (unfold is_u32; lia). change (2 ^ 8) with 256.
  rewrite <- Z.lxor_lor, <- Z.add_nocarry_lxor; [done|..];
    (apply Z.bits_inj'; intros k Hk; rewrite Z.land_spec, Z.bits_0;
     change 256 with (2 ^ 8) in *; destruct (decide (k < 8));
     [by rewrite Z.mul_pow2_bits_low |
      rewrite (Z.bits_above_log2 b k); [by rewrite andb_false_r|lia|];
      destruct (decide (b = 0)) as [->|]; [simpl; lia|]; apply Z.log2_lt_pow2; [lia|];
      apply Z.lt_le_trans with (2 ^ 8); [lia|]; apply Z.pow_le_mono_r; lia]).
Qed.

Lemma encode_spec n w :
  wf n →
  encode n w = Ok (w ++
    if n <? 2 ^ 6 then [byte.of_Z n]
    else if n <? 2 ^ 14 then [byte.of_Z (n / 2 ^ 8 + 64); byte.of_Z n]
    else [byte.of_Z (n / 2 ^ 24 + 128); byte.of_Z (n / 2 ^ 16); byte.of_Z (n / 2 ^ 8); byte.of_Z n]).
Proof.
  intros [Hn Hm]. change MAX with (2 ^ 30 - 1) in Hm.
  unfold encode. rewrite count_bytes_spec by lia. cbn [to_be_bytes].
  rewrite !Z.shiftr_div_pow2 by lia. cbn -[Z.pow Z.div byte.of_Z Z.lor].
  rewrite Z.pow_0_r, Z.div_1_r.
  assert (∀ a, 0 ≤ a < 64 → byte.unsigned (byte.of_Z a) = a) as Hb.
  { intros a Ha. rewrite byte.unsigned_of_Z. apply Z.mod_small. lia. }
  destruct (Z.ltb_spec n (2 ^ 6)); [done|].
  destruct (Z.ltb_spec n (2 ^ 14)); [|destruct (Z.ltb_spec n (2 ^ 30)); [|lia]];
    cbn -[Z.pow Z.div byte.of_Z Z.lor]; unfold or_byte; cbn -[Z.pow Z.div byte.of_Z Z.lor];
    rewrite Hb, or_prefix by
      first [lia | split; [apply Z.div_pos|apply Z.div_lt_upper_bound]; lia];
    done.
Qed.

Lemma decode_rest_spec n bs r :
  0 ≤ n < 64 → (length bs ≤ 3)%nat →
  decode_rest (length bs) n (bs ++ r) = Ok (from_be_bytes_acc n bs, r).
Proof.
  intros Hn Hl.
  enough (∀ bs n, 0 ≤ n < 2 ^ (30 - 8 * len bs) → (length bs ≤ 3)%nat →
    decode_rest (length bs) n (bs ++ r) = Ok (from_be_bytes_acc n bs, r)) as H.
  { apply H; [|done]. split; [lia|]. apply Z.lt_le_trans with (2 ^ 6); [lia|].
    apply Z.pow_le_mono_r; unfold len; lia. }
  clear. induction bs as [|b bs IH]; intros n Hn Hl; [done|].
  cbn [length decode_rest app from_be_bytes_acc] in *. rewrite u8_decode_cons.
  cbn [mbind result_bind]. pose proof (byte.unsigned_range b) as Hb.
  assert (2 ^ (30 - 8 * len bs) = 2 ^ (30 - 8 * len (b :: bs)) * 2 ^ 8) as Hp.
  { rewrite <- Z.pow_add_r by (unfold len; simpl length; lia). f_equal. unfold len. simpl. lia. }
  assert (2 ^ (30 - 8 * len (b :: bs)) ≤ 2 ^ 22).
  { apply Z.pow_le_mono_r; [lia|]. unfold len; simpl; lia. }
  rewrite shl8_lor by lia. apply IH; [|lia]. rewrite Hp. lia.
Qed.

(** Decoding succeeds exactly on the three canonical shapes. *)
Lemma decode_cons b bs l r :
  l = bs ++ r →
  byte.unsigned b < 192 →
  len bs = 2 ^ (byte.unsigned b / 64) - 1 →
  decode (b :: l) =
    (let n := from_be_bytes_acc (byte.unsigned b mod 64) bs in
     e ← count_bytes_to_encode_int n;
     if as_usize e =? 2 ^ (byte.unsigned b / 64) then Ok (n, r) else Err VarIntMinimumLengthEncoding).
Proof.
  intros -> Hb Hl. unfold decode. rewrite u8_decode_cons. cbn [mbind result_bind].
  pose proof (byte.unsigned_range b) as Hr. rewrite Z.shiftr_div_pow2 by lia.
  change (2 ^ 6) with 64. set (p := byte.unsigned b / 64) in *.
  assert (0 ≤ p < 3) as Hp by (unfold p; split; [apply Z.div_pos|apply Z.div_lt_upper_bound]; lia).
  destruct (Z.ltb_spec p 3); [|lia]. rewrite Z.shiftl_1_l. cbn [mbind result_bind].
  change (Z.land (byte.unsigned b) 0x3f) with (Z.land (byte.unsigned b) (Z.ones 6)).
  rewrite Z.land_ones by lia. change (2 ^ 6) with 64.
  assert (Z.to_nat (2 ^ p - 1) = length bs) as -> by (unfold len in Hl; lia).
  rewrite decode_rest_spec; [done|apply Z.mod_pos_bound; lia|].
  assert (2 ^ p ≤ 2 ^ 2) by (apply Z.pow_le_mono_r; lia). unfold len in Hl. lia.
Qed.

Lemma decode_rest_inv k n r m rest :
  decode_rest k n r = Ok (m, rest) → ∃ bs, length bs = k ∧ r = bs ++ rest.
Proof.
  revert n r. induction k as [|k IH]; intros n r; cbn [decode_rest].
  - intros [= <- <-]. by exists [].
  - destruct r as [|b r]; [done|]. rewrite u8_decode_cons. cbn [mbind result_bind].
    intros (bs & <- & ->)%IH. by exists (b :: bs).
Qed.

Lemma decode_rest_settled k n r : settled (decode_rest k n r).
Proof.
  revert n r. induction k as [|k IH]; intros n r; [done|].
  destruct r as [|b r]; [done|]. cbn [decode_rest]. rewrite u8_decode_cons. apply IH.
Qed.

Lemma unsigned_of_Z z : byte.unsigned (byte.of_Z z) = z mod 256.
Proof. apply byte.unsigned_of_Z. Qed.

Lemma of_Z_eq z b : z mod 256 = byte.unsigned b → byte.of_Z z = b.
Proof. intros. apply byte.unsigned_inj. by rewrite unsigned_of_Z. Qed.

(** The shape of what [decode] accepts. *)
Lemma decode_inv r n rest :
  decode r = Ok (n, rest) →
  ∃ b bs e, r = b :: bs ++ rest ∧ byte.unsigned b < 192 ∧ len bs = 2 ^ (byte.unsigned b / 64) - 1 ∧
    n = from_be_bytes_acc (byte.unsigned b mod 64) bs ∧
    count_bytes_to_encode_int n = Ok e ∧ as_usize e = 2 ^ (byte.unsigned b / 64).
Proof.
  intros H. destruct r as [|b r]; [done|].
  assert (Z.shiftr (byte.unsigned b) 6 < 3 ∧
    ∃ bs, length bs = Z.to_nat (Z.shiftl 1 (Z.shiftr (byte.unsigned b) 6) - 1) ∧ r = bs ++ rest)
    as (Hp & bs & Hl & ->).
  { unfold decode in H. rewrite u8_decode_cons in H. cbn [mbind result_bind] in H.
    destruct (Z.ltb_spec (Z.shiftr (byte.unsigned b) 6) 3); [|done]. inv_res.
    case_match; inv_res. eauto using decode_rest_inv. }
  rewrite Z.shiftr_div_pow2, ?Z.shiftl_1_l in * by lia. change (2 ^ 6) with 64 in *.
  pose proof (byte.unsigned_range b) as Hr.
  assert (0 ≤ byte.unsigned b / 64) by (apply Z.div_pos; lia).
  assert (len bs = 2 ^ (byte.unsigned b / 64) - 1) as Hl'.
  { unfold len. pose proof (pow2_pos (byte.unsigned b / 64)). lia. }
  assert (byte.unsigned b < 192) by (Z.div_mod_to_equations; lia).
  rewrite (decode_cons _ bs _ rest) in H by done. cbv zeta in H. inv_res.
  destruct (Z.eqb_spec (as_usize a) (2 ^ (byte.unsigned b / 64))); inv_res.
  exists b, bs, a. split_and!; auto.
Qed.

Lemma decode_encode_varint n rest :
  wf n → ∃ bs, encode n [] = Ok bs ∧ decode (bs ++ rest) = Ok (n, rest).
Proof.
  intros Hn. rewrite encode_spec by done. eexists. split; [done|].
  destruct Hn as [Hn Hm]. change MAX with (2 ^ 30 - 1) in Hm.
  destruct (Z.ltb_spec n (2 ^ 6)) as [H6|H6];
    [|destruct (Z.ltb_spec n (2 ^ 14)) as [H14|H14]]; cbn [app].
  - rewrite (decode_cons _ [] rest rest eq_refl); rewrite ?unsigned_of_Z, ?(Z.mod_small n 256), ?(Z.div_small n 64) by lia;
      [|lia|done].
    cbn [from_be_bytes_acc]. rewrite Z.mod_small, count_bytes_spec by lia. by case_match; [|lia].
  - assert ((n / 2 ^ 8 + 64) / 64 = 1 ∧ (n / 2 ^ 8 + 64) mod 64 = n / 2 ^ 8 ∧
      (n / 2 ^ 8 + 64) mod 256 = n / 2 ^ 8 + 64 ∧ n / 2 ^ 8 * 256 + n mod 256 = n)
      as (E1 & E2 & E3 & E4) by (Z.div_mod_to_equations; lia).
    rewrite (decode_cons _ [_] (_ :: rest) rest eq_refl); rewrite unsigned_of_Z, ?E3, ?E1; [|Z.div_mod_to_equations; lia|done].
    cbn [from_be_bytes_acc]. rewrite unsigned_of_Z, E2, E4, count_bytes_spec by lia.
    case_match; [lia|]. case_match; [done|lia].
  - assert ((n / 2 ^ 24 + 128) / 64 = 2 ∧ (n / 2 ^ 24 + 128) mod 64 = n / 2 ^ 24 ∧
      (n / 2 ^ 24 + 128) mod 256 = n / 2 ^ 24 + 128 ∧
      ((n / 2 ^ 24 * 256 + (n / 2 ^ 16) mod 256) * 256 + (n / 2 ^ 8) mod 256) * 256 + n mod 256 = n)
      as (E1 & E2 & E3 & E4) by (Z.div_mod_to_equations; lia).
    rewrite (decode_cons _ [_; _; _] (_ :: _ :: _ :: rest) rest eq_refl); rewrite unsigned_of_Z, ?E3, ?E1;
      [|Z.div_mod_to_equations; lia|done].
    cbn [from_be_bytes_acc]. rewrite !unsigned_of_Z, E2, E4, count_bytes_spec by lia.
    repeat (case_match; [first [done | lia]|]). lia.
Qed.

Lemma encode_decode_varint r n rest :
  decode r = Ok (n, rest) → wf n ∧ ∃ bs, encode n [] = Ok bs ∧ r = bs ++ rest.
Proof.
  intros (b & bs & e & -> & Hb & Hl & Hn & He & Hu)%decode_inv.
  pose proof (byte.unsigned_range b) as Hr.
  set (p := byte.unsigned b / 64) in *.
  assert (p = 0 ∨ p = 1 ∨ p = 2) as Hp by (unfold p; Z.div_mod_to_equations; lia).
  assert (0 ≤ n) as Hn0.
  { rewrite Hn, from_be_bytes_acc_spec. pose proof (from_be_bytes_range bs).
    pose proof (Z.mod_pos_bound (byte.unsigned b) 64). nia. }
  rewrite count_bytes_spec in He by done.
  assert (wf n) as Hwf.
  { split; [done|]. change MAX with (2 ^ 30 - 1). repeat case_match; simplify_eq/=; lia. }
  split; [done|]. rewrite encode_spec by done. eexists. split; [done|].
  assert (byte.unsigned b = p * 64 + byte.unsigned b mod 64) as Hb' by (unfold p; Z.div_mod_to_equations; lia).
  pose proof (Z.mod_pos_bound (byte.unsigned b) 64 ltac:(lia)) as Hm.
  set (a := byte.unsigned b mod 64) in *. clearbody a p.
  cbn [app]. change (b :: bs ++ rest) with ((b :: bs) ++ rest). f_equal.
  destruct Hp as [-> | [-> | ->]]; unfold len in Hl.
  - destruct bs; [|done]. cbn in Hn, Hu. subst n.
    repeat case_match; simplify_eq/=. f_equal. symmetry. apply of_Z_eq. Z.div_mod_to_equations; lia.
  - destruct bs as [|b1 [|]]; try (simpl in Hl; lia). cbn in Hn, Hu. pose proof (byte.unsigned_range b1).
    repeat case_match; simplify_eq/=.
    f_equal; [|f_equal]; symmetry; apply of_Z_eq; Z.div_mod_to_equations; lia.
  - destruct bs as [|b1 [|b2 [|b3 [|]]]]; try (simpl in Hl; lia). cbn in Hn, Hu.
    pose proof (byte.unsigned_range b1). pose proof (byte.unsigned_range b2).
    pose proof (byte.unsigned_range b3).
    repeat case_match; simplify_eq/=.
    f_equal; [|f_equal; [|f_equal; [|f_equal]]]; symmetry; apply of_Z_eq; Z.div_mod_to_equations; lia.
Qed.

Lemma decode_varint_settled r : settled (decode r).
Proof.
  unfold decode. apply settled_bind; [apply decode_settled|]. intros [first r'] H.
  apply decode_sound in H as [Hf _]. unfold is_u8 in Hf.
  apply settled_bind; [by case_match|]. intros count Hc.
  apply settled_bind; [apply decode_rest_settled|]. intros [n r''] Hr.
  destruct (Z.ltb_spec (Z.shiftr first 6) 3); inv_res.
  assert (∃ e, count_bytes_to_encode_int n = Ok e) as [e ->]; [|cbn; by case_match].
  destruct (decode_rest_inv _ _ _ _ _ Hr) as (bs & Hl & ->).
  rewrite Z.shiftr_div_pow2, Z.shiftl_1_l in * by lia.
  assert (0 ≤ first / 2 ^ 6 < 3) as Hp by (Z.div_mod_to_equations; lia).
  assert (2 ^ (first / 2 ^ 6) ≤ 2 ^ 2) by (apply Z.pow_le_mono_r; lia).
  pose proof (pow2_pos (first / 2 ^ 6)).
  change 0x3f with (Z.ones 6) in Hr. rewrite Z.land_ones in Hr by lia.
  pose proof (Z.mod_pos_bound first (2 ^ 6) ltac:(lia)).
  rewrite <- Hl, decode_rest_spec in Hr by lia. inv_res.
  rewrite from_be_bytes_acc_spec. pose proof (from_be_bytes_range bs) as Hb.
  assert (256 ^ len bs ≤ 256 ^ 3) by (apply Z.pow_le_mono_r; unfold len; lia).
  rewrite count_bytes_spec by nia. repeat case_match; try by eexists. nia.
Qed.

#[export] Instance varint_laws : CodecLaws codec wf.
Proof.
  split; cbn [mls_encode mls_decode mls_encoded_len codec].
  - intros a w. unfold encode. by destruct (count_bytes_to_encode_int a).
  - intros a bs Ha. rewrite encode_spec, count_bytes_spec by (done || apply Ha). intros [= <-].
    destruct Ha as [Ha Hm]. change MAX with (2 ^ 30 - 1) in Hm. repeat case_match; done || lia.
  - intros a [Ha Hm]. change MAX with (2 ^ 30 - 1) in Hm. rewrite count_bytes_spec by done.
    repeat case_match; try lia; eexists; split; done.
  - intros a n Ha _ _. eexists. by apply encode_spec.
  - intros a bs rest Ha Hbs. destruct (decode_encode_varint a rest Ha) as (bs' & ? & ?). congruence.
  - apply encode_decode_varint.
  - apply decode_varint_settled.
Qed.

#[export] Instance varint_nonempty : NonEmpty codec wf.
Proof.
  intros n Hn. cbn. rewrite encode_spec by done. cbn [app]. repeat case_match; done.
Qed.

Lemma try_from_ok n m : 0 ≤ n → try_from n = Ok m ↔ n = m ∧ wf n.
Proof.
  intros. unfold try_from, try_from_u32, wf. change MAX with (2 ^ 30 - 1).
  repeat case_match; naive_solver lia.
Qed.

Lemma try_from_wf n : wf n → try_from n = Ok n.
Proof. intros Hn. by apply try_from_ok; [apply Hn|]. Qed.

End VarIntFacts.

Import VarIntFacts.

(** ** Collections *)
Section collections.
Context {A} (c : MlsCodec A) (wf : A → Prop) `{!CodecLaws c wf}.

Lemma encode_items_writer l w : encode_items c l w = app w <$> encode_items c l [].
Proof.
  unfold encode_items. revert w. induction l as [|a l IH]; intros w; cbn.
  - by rewrite app_nil_r.
  - rewrite encode_writer. destruct (mls_encode c a []) as [x| | |]; cbn; [|done..].
    rewrite IH, (IH x). destruct (foldM _ [] l); cbn; [|done..]. by rewrite app_assoc.
Qed.

Lemma encode_items_cons a l bs :
  encode_items c (a :: l) [] = Ok bs ↔
  ∃ x y, mls_encode c a [] = Ok x ∧ encode_items c l [] = Ok y ∧ bs = x ++ y.
Proof.
  change (encode_items c (a :: l) []) with (x ← mls_encode c a []; encode_items c l x).
  split.
  - intros H. inv_res. rewrite encode_items_writer in H. inv_res. naive_solver.
  - intros (x & y & -> & Hy & ->). cbn. by rewrite encode_items_writer, Hy.
Qed.

Lemma sum_encoded_len_acc s l :
  foldM (λ s a, n ← mls_encoded_len c a; Ok (s + n)) s l = Z.add s <$> sum_encoded_len c l.
Proof.
  unfold sum_encoded_len. revert s.
  induction l as [|a l IH]; intros s; [cbn; by rewrite Z.add_0_r|]. cbn [foldM].
  - destruct (mls_encoded_len c a) as [n| | |]; cbn [mbind result_bind]; [|done..].
    rewrite IH, (IH (0 + n)), Z.add_0_l. destruct (foldM _ 0 l); cbn; [|done..]. by rewrite Z.add_assoc.
Qed.

Lemma sum_encoded_len_cons a l n :
  sum_encoded_len c (a :: l) = Ok n ↔
  ∃ x y, mls_encoded_len c a = Ok x ∧ sum_encoded_len c l = Ok y ∧ n = x + y.
Proof.
  unfold sum_encoded_len at 1. cbn [foldM]. rewrite bind_assoc. cbn [mbind result_bind].
  split.
  - intros H. apply bind_ok in H as (x & Hx & H). rewrite sum_encoded_len_acc in H. inv_res. eauto 10.
  - intros (x & y & -> & Hy & ->). cbn. by rewrite sum_encoded_len_acc, Hy.
Qed.

Lemma sum_encoded_len_total l : Forall wf l → ∃ n, sum_encoded_len c l = Ok n ∧ 0 ≤ n.
Proof.
  induction 1 as [|a l Ha Hl (n & Hn & ?)]; [by exists 0|].
  destruct (len_total a Ha) as (m & Hm & ?). exists (m + n). split; [|lia].
  apply sum_encoded_len_cons. eauto.
Qed.

Lemma encode_items_len l bs :
  Forall wf l → encode_items c l [] = Ok bs → sum_encoded_len c l = Ok (len bs).
Proof.
  intros Hl. revert bs. induction Hl as [|a l Ha Hl IH]; intros bs; [by intros [= <-]|].
  intros (x & y & Hx & Hy & ->)%encode_items_cons. apply sum_encoded_len_cons.
  exists (len x), (len y). rewrite len_app. eauto using encode_len.
Qed.

Lemma encode_items_total l n :
  Forall wf l → sum_encoded_len c l = Ok n → n ≤ VarInt.MAX → ∃ bs, encode_items c l [] = Ok bs.
Proof.
  intros Hl. revert n. induction Hl as [|a l Ha Hl IH]; intros n; [by eexists|].
  intros (x & y & Hx & Hy & ->)%sum_encoded_len_cons Hm.
  destruct (len_total a Ha) as (x' & Hx' & ?), (sum_encoded_len_total l Hl) as (y' & Hy' & ?).
  det. destruct (encode_total a x') as [ba Hba]; [done|done|lia|].
  destruct (IH y') as [bl Hbl]; [done|lia|]. exists (ba ++ bl). apply encode_items_cons. eauto.
Qed.

Lemma decode_items_encode l bs fuel :
  NonEmpty c wf → Forall wf l → encode_items c l [] = Ok bs → (length bs ≤ fuel)%nat →
  decode_items c fuel bs = Ok l.
Proof.
  intros Hne Hl. revert bs fuel. induction Hl as [|a l Ha Hl IH]; intros bs fuel.
  - intros [= <-]. by destruct fuel.
  - intros (x & y & Hx & Hy & ->)%encode_items_cons Hf.
    pose proof (encode_nonempty a Ha). destruct x as [|b x]; [done|].
    rewrite length_app in Hf. destruct fuel as [|fuel]; [simpl in Hf; lia|].
    assert (decode_items c (S fuel) ((b :: x) ++ y) =
      ('(a, data) ← mls_decode c ((b :: x) ++ y); l ← decode_items c fuel data; Ok (a :: l)))
      as -> by done.
    rewrite (decode_encode a (b :: x) y Ha Hx). cbn. rewrite (IH y); [done|done|simpl in Hf; lia].
Qed.

Lemma decode_items_sound fuel data l :
  decode_items c fuel data = Ok l → Forall wf l ∧ encode_items c l [] = Ok data.
Proof.
  revert data l. induction fuel as [|fuel IH]; intros data l H;
    destruct data as [|b data]; cbn in H; inv_res; try (by split; [constructor|]).
  apply decode_sound in Ha as (Hwf & bs & Hbs & ->). apply IH in Ha0 as [Hl Hr].
  split; [by constructor|]. apply encode_items_cons. eauto.
Qed.

Lemma decode_items_settled fuel data :
  NonEmpty c wf → (length data ≤ fuel)%nat → settled (decode_items c fuel data).
Proof.
  intros Hne. revert data. induction fuel as [|fuel IH]; intros data Hf;
    destruct data as [|b data]; try done; [simpl in Hf; lia|].
  assert (decode_items c (S fuel) (b :: data) =
    ('(a, data) ← mls_decode c (b :: data); l ← decode_items c fuel data; Ok (a :: l)))
    as -> by done.
  apply settled_bind; [apply decode_settled|]. intros [a r] Ha.
  apply decode_sound in Ha as (Hwf & bs & Hbs & Heq).
  apply settled_bind; [|done]. apply IH.
  pose proof (encode_nonempty a Hwf). destruct bs as [|b' bs]; [done|].
  apply (f_equal length) in Heq. rewrite length_app in Heq. simpl in *. lia.
Qed.
End collections.

(** ** The length-prefixed frame *)
Lemma split_encode data h rest :
  VarIntFacts.wf (len data) → VarInt.encode (len data) [] = Ok h →
  mls_decode_split_on_collection (h ++ data ++ rest) = Ok (data, rest).
Proof.
  intros Hwf Hh. unfold mls_decode_split_on_collection.
  rewrite (decode_encode (c:=VarInt.codec) (len data) h _ Hwf Hh). cbn [mbind result_bind].
  rewrite len_app. pose proof (len_nonneg rest).
  destruct (Z.gtb_spec (len data) (len data + len rest)); [lia|].
  unfold len. rewrite Nat2Z.id. by rewrite take_app_length, drop_app_length.
Qed.

Lemma split_sound r data rest :
  mls_decode_split_on_collection r = Ok (data, rest) →
  VarIntFacts.wf (len data) ∧ ∃ h, VarInt.encode (len data) [] = Ok h ∧ r = h ++ data ++ rest.
Proof.
  unfold mls_decode_split_on_collection. intros H. inv_res.
  destruct (Z.gtb_spec z (len l)); inv_res.
  apply (decode_sound (c:=VarInt.codec)) in Ha as (Hwf & h & Hh & ->).
  assert (len (take (Z.to_nat z) l) = z) as ->.
  { unfold len in *. rewrite length_take. destruct Hwf. lia. }
  split; [done|]. exists h. by rewrite take_drop.
Qed.

Lemma split_settled r : settled (mls_decode_split_on_collection r).
Proof.
  apply settled_bind; [apply decode_settled|]. intros [] _. by case_match.
Qed.

Lemma header_length_ok n h :
  VarIntFacts.wf n → VarInt.encode n [] = Ok h → header_length n = Ok (len h).
Proof.
  intros Hwf Hh. unfold header_length.
  rewrite (try_from_wf n) by done.
  by apply (encode_len (c:=VarInt.codec)).
Qed.

Lemma header_length_total n : 0 ≤ n → ∃ h, header_length n = Ok h ∧ 0 ≤ h.
Proof.
  intros. unfold header_length. apply (len_total (c:=VarInt.codec)).
  destruct (VarInt.try_from n) eqn:E.
  - apply try_from_ok in E as [-> ?]; done.
  - by split.
  - by split.
  - by split.
Qed.

Section collections2.
Context {A} (c : MlsCodec A) (wf : A → Prop) `{!CodecLaws c wf}.

Lemma iter_encode_spec l bs :
  Forall wf l →
  iter_mls_encode c l [] = Ok bs ↔
  ∃ items h, encode_items c l [] = Ok items ∧ VarIntFacts.wf (len items) ∧
    VarInt.encode (len items) [] = Ok h ∧ bs = h ++ items.
Proof.
  intros Hl. unfold iter_mls_encode. destruct (sum_encoded_len_total c wf l Hl) as (n & Hn & Hpos).
  rewrite Hn. cbn [mbind result_bind]. split.
  - intros H. inv_res. apply try_from_ok in Ha as [<- Hwf]; [|done].
    rewrite (encode_items_writer c wf) in H. inv_res.
    destruct (encode_items_total c wf l n Hl Hn) as [items Hi]; [apply Hwf|].
    pose proof (encode_items_len c wf l items Hl Hi). det. eauto 10.
  - intros (items & h & Hi & Hwf & Hh & ->).
    pose proof (encode_items_len c wf l items Hl Hi) as Hlen. rewrite Hn in Hlen. injection Hlen as ->.
    rewrite (try_from_wf (len items)) by done.
    cbn. cbn in Hh. rewrite Hh. cbn. by rewrite (encode_items_writer c wf), Hi.
Qed.

(** With [preallocate] or without it, the same bytes are written. *)
Lemma iter_encode_buffered l w :
  Forall wf l → is_ok (iter_mls_encode c l w) = true →
  iter_mls_encode_buffered c l w = iter_mls_encode c l w.
Proof.
  intros Hl Hok. destruct (iter_mls_encode c l w) as [bs| | |] eqn:E; try done.
  unfold iter_mls_encode in E. destruct (sum_encoded_len_total c wf l Hl) as (n & Hn & Hpos).
  rewrite Hn in E. cbn [mbind result_bind] in E. inv_res.
  apply try_from_ok in Ha as [<- Hwf]; [|done].
  destruct (encode_items_total c wf l n Hl Hn) as [items Hi]; [apply Hwf|].
  pose proof (encode_items_len c wf l items Hl Hi). det.
  unfold iter_mls_encode_buffered. rewrite Hi. cbn [mbind result_bind].
  rewrite (try_from_wf (len items)) by done.
  cbn in Ha0 |- *. rewrite Ha0. cbn. rewrite (encode_items_writer c wf), Hi in E. by inv_res.
Qed.

#[export] Instance vec_laws : NonEmpty c wf → CodecLaws (vec_codec c) (Forall wf).
Proof.
  intros Hne. split; cbn [vec_codec mls_encode mls_decode mls_encoded_len].
  - intros l w. unfold iter_mls_encode.
    destruct (sum_encoded_len c l) as [n| | |]; cbn [mbind result_bind fmap result_fmap]; try done.
    destruct (VarInt.try_from n) as [h| | |]; cbn [mbind result_bind fmap result_fmap]; try done.
    rewrite (encode_writer (c:=VarInt.codec)).
    destruct (mls_encode VarInt.codec h []) as [hb| | |]; cbn [mbind result_bind fmap result_fmap]; try done.
    rewrite (encode_items_writer c wf), (encode_items_writer c wf l hb).
    destruct (encode_items c l []); cbn; try done. by rewrite app_assoc.
  - intros l bs Hl (items & h & Hi & Hwf & Hh & ->)%iter_encode_spec; [|done].
    unfold iter_mls_encoded_len. rewrite (encode_items_len c wf l items Hl Hi). cbn [mbind result_bind].
    rewrite (header_length_ok _ h) by done. cbn. by rewrite len_app.
  - intros l Hl. destruct (sum_encoded_len_total c wf l Hl) as (n & Hn & ?).
    destruct (header_length_total n) as (h & Hh & ?); [done|].
    exists (h + n). unfold iter_mls_encoded_len. rewrite Hn. cbn [mbind result_bind]. rewrite Hh. cbn.
    split; [done|lia].
  - intros l n Hl. unfold iter_mls_encoded_len.
    destruct (sum_encoded_len_total c wf l Hl) as (m & Hm & ?). rewrite Hm. cbn [mbind result_bind].
    destruct (header_length_total m) as (k & Hk & ?); [done|]. rewrite Hk. intros [= <-] Hle.
    destruct (encode_items_total c wf l m Hl Hm) as [items Hi]; [lia|].
    pose proof (encode_items_len c wf l items Hl Hi). det.
    assert (VarIntFacts.wf (len items)) as Hwf by (split; lia).
    eexists. apply iter_encode_spec; [done|].
    exists items. eexists. split_and!; [done|done|by apply encode_spec|done].
  - intros l bs rest Hl (items & h & Hi & Hwf & Hh & ->)%iter_encode_spec; [|done].
    unfold mls_decode_collection. rewrite <- app_assoc, split_encode by done.
    cbn [mbind result_bind]. rewrite (decode_items_encode c wf l items) by done. done.
  - intros r l rest. unfold mls_decode_collection. intros ([data rest'] & Hs & H)%bind_ok. inv_res.
    apply split_sound in Hs as (Hwf & h & Hh & ->).
    apply (decode_items_sound c wf) in Ha as [Hl Hi]. split; [done|].
    exists (h ++ data). split; [|by rewrite <- app_assoc]. apply iter_encode_spec; [done|]. eauto 10.
  - intros r. apply settled_bind; [apply split_settled|]. intros [data rest] _.
    apply settled_bind; [|done]. by apply (decode_items_settled c wf).
Qed.

#[export] Instance vec_nonempty : NonEmpty (vec_codec c) (Forall wf).
Proof.
  intros l Hl. cbn. intros (items & h & Hi & Hwf & Hh & Heq)%iter_encode_spec; [|done].
  apply (varint_nonempty (len items) Hwf). cbn. destruct h; [done|discriminate].
Qed.
End collections2.

(** The values a byte string field can hold: the header bounds their length. *)
#[export] Instance byte_vec_laws : CodecLaws byte_vec_codec (λ _, True).
Proof.
  split; cbn [byte_vec_codec mls_encode mls_decode mls_encoded_len].
  - intros a w.
    destruct (VarInt.try_from (len a)) as [h| | |]; cbn [mbind result_bind]; try done.
    rewrite (encode_writer (c:=VarInt.codec)). destruct (mls_encode VarInt.codec h []); cbn; try done.
    by rewrite app_assoc.
  - intros a bs _ H. inv_res. apply try_from_ok in Ha as [<- Hwf]; [|apply len_nonneg].
    rewrite (header_length_ok _ a1) by done. cbn. by rewrite len_app.
  - intros a _. destruct (header_length_total (len a)) as (h & -> & ?); [apply len_nonneg|].
    cbn. exists (h + len a). pose proof (len_nonneg a). split; [done|lia].
  - intros a n _. destruct (header_length_total (len a)) as (h & -> & ?); [apply len_nonneg|].
    intros [= <-] Hle. pose proof (len_nonneg a).
    rewrite (try_from_wf (len a)) by (split; lia).
    cbn. rewrite encode_spec by (split; lia). by eexists.
  - intros a bs rest _ H. inv_res. apply try_from_ok in Ha as [<- Hwf]; [|apply len_nonneg].
    rewrite <- app_assoc. by apply split_encode.
  - intros r a rest (Hwf & h & Hh & ->)%split_sound. split; [done|].
    exists (h ++ a). split; [|by rewrite <- app_assoc].
    rewrite (try_from_wf (len a)) by done.
    cbn. cbn in Hh. by rewrite Hh.
  - apply split_settled.
Qed.

#[export] Instance byte_vec_nonempty : NonEmpty byte_vec_codec (λ _, True).
Proof.
  intros a _ H. cbn in H. inv_res. apply try_from_ok in Ha as [<- Hwf]; [|apply len_nonneg].
  apply (varint_nonempty (len a) Hwf). cbn. destruct a1; [done|discriminate].
Qed.

(** ** Options, pairs, structs and enums *)
#[export] Instance option_laws {A} (c : MlsCodec A) wf :
  CodecLaws c wf → CodecLaws (option_codec c) (λ o, from_option wf True o).
Proof.
  intros Hc. split; cbn [option_codec mls_encode mls_decode mls_encoded_len].
  - intros [a|] w; [|done]. rewrite encode_writer, (encode_writer a ([] ++ _)).
    destruct (mls_encode c a []); cbn; try done. by rewrite <- app_assoc.
  - intros [a|] bs Ha; [|by intros [= <-]]. rewrite encode_writer. intros H. inv_res.
    rewrite (encode_len a a0) by done. cbn. f_equal. unfold len. simpl. lia.
  - intros [a|] Ha; [|eexists; split; [done|lia]]. destruct (len_total a Ha) as (n & -> & ?).
    cbn. eexists. split; [done|lia].
  - intros [a|] n Ha; [|by eexists]. intros H Hle. inv_res.
    destruct (encode_total a a0) as [bs Hbs]; [done|done|lia|].
    rewrite encode_writer, Hbs. by eexists.
  - intros [a|] bs rest Ha; [|by intros [= <-]]. rewrite encode_writer. intros H. inv_res.
    rewrite drop_0. by rewrite (decode_encode a a0).
  - intros [|b r] o rest; [done|]. rewrite u8_decode_cons. cbn [mbind result_bind].
    destruct (Z.eqb_spec (byte.unsigned b) 0) as [E|E];
      [|destruct (Z.eqb_spec (byte.unsigned b) 1) as [E1|E1]]; intros H; inv_res.
    + split; [done|]. eexists. split; [done|]. cbn. f_equal. by apply byte.unsigned_inj.
    + apply decode_sound in Ha as (Hwf & bs & Hbs & ->). split; [done|].
      rewrite encode_writer, Hbs. eexists. split; [done|]. cbn. f_equal. by apply byte.unsigned_inj.
  - intros r. apply settled_bind; [apply decode_settled|]. intros [n r'] _.
    repeat case_match; try done. apply settled_bind; [apply decode_settled|]. by intros [] _.
Qed.

#[export] Instance option_nonempty {A} (c : MlsCodec A) wf :
  CodecLaws c wf → NonEmpty (option_codec c) (λ o, from_option wf True o).
Proof.
  intros Hc [a|] Ha; [|done]. cbn. rewrite encode_writer. by destruct (mls_encode c a []).
Qed.

#[export] Instance tuple_laws {A B} (c : MlsCodec A) (d : MlsCodec B) wfc wfd :
  CodecLaws c wfc → CodecLaws d wfd → CodecLaws (tuple_codec c d) (λ p, wfc p.1 ∧ wfd p.2).
Proof.
  intros Hc Hd. split; cbn [tuple_codec mls_encode mls_decode mls_encoded_len].
  - intros [a b] w. simpl. rewrite encode_writer.
    destruct (mls_encode c a []) as [x| | |]; cbn [mbind result_bind fmap result_fmap]; try done.
    rewrite encode_writer, (encode_writer b x).
    destruct (mls_encode d b []); cbn; try done. by rewrite app_assoc.
  - intros [a b] bs [Ha Hb]; simpl in *. intros H. inv_res. rewrite encode_writer in H. inv_res.
    rewrite (encode_len a a0), (encode_len b a1) by done. cbn. by rewrite len_app.
  - intros [a b] [Ha Hb]; simpl in *. destruct (len_total a Ha) as (n & -> & ?), (len_total b Hb) as (m & -> & ?).
    cbn. exists (n + m). split; [done|lia].
  - intros [a b] k [Ha Hb]; simpl in *. destruct (len_total a Ha) as (n & Hn & ?), (len_total b Hb) as (m & Hm & ?).
    rewrite Hn, Hm. cbn. intros [= <-] Hle.
    destruct (encode_total a n) as [x Hx]; [done|done|lia|].
    destruct (encode_total b m) as [y Hy]; [done|done|lia|].
    rewrite Hx. cbn. rewrite encode_writer, Hy. by eexists.
  - intros [a b] bs rest [Ha Hb]; simpl in *. intros H. inv_res. rewrite encode_writer in H. inv_res.
    rewrite <- app_assoc, (decode_encode a a0) by done. cbn [mbind result_bind].
    by rewrite (decode_encode b a1).
  - intros r [a b] rest H. apply bind_ok in H as ([a' r1] & H1 & H).
    apply bind_ok in H as ([b' r2] & H2 & H). inv_res.
    apply decode_sound in H1 as (Ha & x & Hx & ->). apply decode_sound in H2 as (Hb & y & Hy & ->).
    split; [done|]. exists (x ++ y). simpl. rewrite Hx. cbn [mbind result_bind].
    rewrite encode_writer, Hy. split; [done|by rewrite <- app_assoc].
  - intros r. apply settled_bind; [apply decode_settled|]. intros [a r1] _.
    apply settled_bind; [apply decode_settled|]. by intros [] _.
Qed.

#[export] Instance tuple_nonempty {A B} (c : MlsCodec A) (d : MlsCodec B) wfc wfd :
  CodecLaws d wfd → NonEmpty c wfc → NonEmpty (tuple_codec c d) (λ p, wfc p.1 ∧ wfd p.2).
Proof.
  intros Hd Hc [a b] [Ha Hb]. cbn. pose proof (encode_nonempty a Ha) as H.
  destruct (mls_encode c a []) as [x| | |]; cbn; try done. rewrite encode_writer.
  destruct (mls_encode d b []) as [y| | |]; cbn; try done. by destruct x, y.
Qed.

(** A derived struct inherits the laws of the tuple of its fields. *)
Lemma struct_laws {A B} (fields : B → A) (make : A → B) (c : MlsCodec A) wf :
  (∀ b, make (fields b) = b) → (∀ a, wf a → fields (make a) = a) →
  CodecLaws c wf → CodecLaws (struct_codec fields make c) (λ b, wf (fields b)).
Proof.
  intros Hmf Hfm Hc. split; cbn [struct_codec mls_encode mls_decode mls_encoded_len].
  - intros. apply encode_writer.
  - intros. by apply encode_len.
  - intros. by apply len_total.
  - intros. by eapply encode_total.
  - intros b bs rest Hb Hbs. rewrite (decode_encode (fields b) bs) by done. cbn. by rewrite Hmf.
  - intros r b rest H. inv_res. apply decode_sound in Ha as (Hwf & bs & Hbs & ->).
    rewrite Hfm by done. eauto.
  - intros r. apply settled_bind; [apply decode_settled|]. by intros [] _.
Qed.

Lemma struct_nonempty {A B} (fields : B → A) (make : A → B) (c : MlsCodec A) wf :
  NonEmpty c wf → NonEmpty (struct_codec fields make c) (λ b, wf (fields b)).
Proof. intros Hc b Hb. by apply Hc. Qed.

#[export] Instance unit_laws : CodecLaws unit_codec (λ _, True).
Proof.
  split; cbn.
  - intros _ w. by rewrite app_nil_r.
  - by intros _ bs _ [= <-].
  - intros. by exists 0.
  - eauto.
  - by intros [] bs rest _ [= <-].
  - intros r [] rest [= <-]. split; [done|]. by exists [].
  - done.
Qed.

(** What a variant of a derived enum must satisfy: its match and constructor
    are inverse, and its field has a lawful codec. *)
Record VariantOk {A} (wf : A → Prop) (v : Variant A) : Prop := {
  vo_codec : CodecLaws (v_codec v) (λ x, wf (v_make v x));
  vo_match a x : v_match v a = Some x → a = v_make v x;
  vo_make x : v_match v (v_make v x) = Some x;
}.

Section enum.
Context {A} (wf : A → Prop) (vs : list (Variant A)) (d : MlsCodec Z) (wfd : Z → Prop).
Context `{Hd : !CodecLaws d wfd}.
Hypothesis Hvs : Forall (VariantOk wf) vs.
Hypothesis Hdisc : Forall (λ v, wfd (v_discriminant v)) vs.
Hypothesis Hnodup : NoDup (v_discriminant <$> vs).
Hypothesis Hcover : ∀ a, wf a → Exists (λ v, is_Some (v_match v a)) vs.
Hypothesis Hdisjoint : ∀ v1 v2 x, v1 ∈ vs → v2 ∈ vs → is_Some (v_match v1 (v_make v2 x)) → v1 = v2.

Lemma enum_encode_find a w :
  (∃ v x, v ∈ vs ∧ v_match v a = Some x ∧
    enum_encode d vs a w = (w ← mls_encode d (v_discriminant v) w; mls_encode (v_codec v) x w) ∧
    enum_encoded_len d vs a =
      (n ← mls_encoded_len d (v_discriminant v); m ← mls_encoded_len (v_codec v) x; Ok (n + m))) ∨
  (Forall (λ v, v_match v a = None) vs ∧ enum_encode d vs a w = Panic).
Proof.
  clear. induction vs as [|v l IH]; cbn; [by right|].
  destruct (v_match v a) as [x|] eqn:E.
  - left. exists v, x. split_and!; [left|done..].
  - destruct IH as [(v' & x & Hin & ? & -> & ->)|[HF ->]]; [|right; by split; [constructor|]].
    left. exists v', x. split_and!; [by right|done..].
Qed.

Lemma enum_encode_make v x w :
  v ∈ vs →
  enum_encode d vs (v_make v x) w = (w ← mls_encode d (v_discriminant v) w; mls_encode (v_codec v) x w) ∧
  enum_encoded_len d vs (v_make v x) =
    (n ← mls_encoded_len d (v_discriminant v); m ← mls_encoded_len (v_codec v) x; Ok (n + m)).
Proof.
  intros Hin. pose proof (proj1 (Forall_forall _ _) Hvs v Hin) as Hv.
  pose proof (vo_make _ _ Hv x) as Hm.
  destruct (enum_encode_find (v_make v x) w) as [(v' & x' & Hin' & Hx' & He & Hl)|[HF _]].
  - assert (v' = v) as -> by (apply (Hdisjoint v' v x); eauto). det. done.
  - pose proof (proj1 (Forall_forall _ _) HF v Hin). congruence.
Qed.

Lemma wf_make a : wf a → ∃ v x, v ∈ vs ∧ a = v_make v x ∧ VariantOk wf v ∧ wfd (v_discriminant v).
Proof.
  intros Ha. apply Hcover, Exists_exists in Ha as (v & Hin & x & Hx).
  pose proof (proj1 (Forall_forall _ _) Hvs v Hin) as Hv.
  pose proof (proj1 (Forall_forall _ _) Hdisc v Hin).
  exists v, x. split_and!; [done|by apply (vo_match _ _ Hv)|done|done].
Qed.

Lemma enum_decode_variant_in v r :
  v ∈ vs →
  enum_decode_variant vs (v_discriminant v) r = ('(x, r) ← mls_decode (v_codec v) r; Ok (v_make v x, r)).
Proof.
  clear - Hnodup. induction vs as [|v' l IH]; [by inversion 1|].
  cbn in Hnodup. apply NoDup_cons in Hnodup as [Hni Hnd]. cbn.
  intros [->|Hin]%elem_of_cons; [by rewrite Z.eqb_refl|].
  destruct (Z.eqb_spec (v_discriminant v) (v_discriminant v')) as [E|]; [|by apply IH].
  destruct Hni. rewrite <- E. apply list_elem_of_fmap. eauto.
Qed.

Lemma enum_decode_variant_inv n r a rest :
  enum_decode_variant vs n r = Ok (a, rest) →
  ∃ v x, v ∈ vs ∧ n = v_discriminant v ∧ a = v_make v x ∧ mls_decode (v_codec v) r = Ok (x, rest).
Proof.
  clear. induction vs as [|v l IH]; cbn; [done|].
  destruct (Z.eqb_spec n (v_discriminant v)) as [->|].
  - intros H. inv_res. eexists v, _. split_and!; [left|done..].
  - intros (v' & x & ? & ?)%IH. eexists v', x. split; [by right|done].
Qed.

Lemma enum_decode_variant_settled n r : settled (enum_decode_variant vs n r).
Proof.
  enough (∀ l, Forall (VariantOk wf) l → settled (enum_decode_variant l n r)) by auto.
  induction 1 as [|v l Hv Hl IH]; cbn; [done|]. case_match; [|done].
  destruct Hv as [Hv _ _]. apply settled_bind; [apply decode_settled|]. by intros [] _.
Qed.

(** On a value built by variant [v], the enum codec is the codec of the pair
    of discriminant and field. *)
Lemma enum_laws : CodecLaws (enum_codec d vs) wf.
Proof.
  assert (∀ v, v ∈ vs → CodecLaws (tuple_codec d (v_codec v)) (λ p, wfd p.1 ∧ wf (v_make v p.2))) as Ht.
  { intros v Hin. destruct (proj1 (Forall_forall _ _) Hvs v Hin) as [Hv _ _].
    apply (tuple_laws d (v_codec v) wfd (λ x, wf (v_make v x)) Hd Hv). }
  assert (∀ v x w, v ∈ vs → enum_encode d vs (v_make v x) w =
    mls_encode (tuple_codec d (v_codec v)) (v_discriminant v, x) w) as Henc.
  { intros v x w Hin. apply (enum_encode_make v x w Hin). }
  assert (∀ v x, v ∈ vs → enum_encoded_len d vs (v_make v x) =
    mls_encoded_len (tuple_codec d (v_codec v)) (v_discriminant v, x)) as Hlen.
  { intros v x Hin. apply (enum_encode_make v x [] Hin). }
  split; cbn [enum_codec mls_encode mls_decode mls_encoded_len].
  - intros a w. destruct (enum_encode_find a []) as [(v & x & Hin & Hx & _)|[HF He]].
    + destruct (proj1 (Forall_forall _ _) Hvs v Hin) as [_ Hm _]. rewrite (Hm _ _ Hx).
      rewrite !Henc by done. apply (@encode_writer _ _ _ (Ht v Hin)).
    + destruct (enum_encode_find a w) as [(v & x & Hin & Hx & _)|[_ Hw]]; [|by rewrite He, Hw].
      pose proof (proj1 (Forall_forall _ _) HF v Hin). congruence.
  - intros a bs Ha. destruct (wf_make a Ha) as (v & x & Hin & -> & _ & ?).
    rewrite Henc, Hlen by done. apply (@encode_len _ _ _ (Ht v Hin)). by split.
  - intros a Ha. destruct (wf_make a Ha) as (v & x & Hin & -> & _ & ?).
    rewrite Hlen by done. apply (@len_total _ _ _ (Ht v Hin)). by split.
  - intros a n Ha. destruct (wf_make a Ha) as (v & x & Hin & -> & _ & ?).
    rewrite Henc, Hlen by done. apply (@encode_total _ _ _ (Ht v Hin)). by split.
  - intros a bs rest Ha. destruct (wf_make a Ha) as (v & x & Hin & -> & _ & ?). rewrite Henc by done.
    intros Hbs. apply (@decode_encode _ _ _ (Ht v Hin) (v_discriminant v, x) bs rest) in Hbs; [|done].
    cbn in Hbs. apply bind_ok in Hbs as ([n r1] & H1 & H2). rewrite H1. cbn [mbind result_bind].
    assert (n = v_discriminant v) as -> by (by inv_res).
    rewrite enum_decode_variant_in by done. inv_res. rewrite Ha0. done.
  - intros r a rest H. apply bind_ok in H as ([n r1] & H1 & H).
    apply enum_decode_variant_inv in H as (v & x & Hin & -> & -> & Hx).
    destruct (@decode_sound _ _ _ (Ht v Hin) r (v_discriminant v, x) rest) as [[? ?] Hbs].
    { cbn. rewrite H1. cbn. by rewrite Hx. }
    split; [done|]. setoid_rewrite Henc; done.
  - intros r. apply settled_bind; [apply decode_settled|]. intros [] _. apply enum_decode_variant_settled.
Qed.

Lemma enum_nonempty : NonEmpty d wfd → NonEmpty (enum_codec d vs) wf.
Proof.
  intros Hne a Ha. destruct (wf_make a Ha) as (v & x & Hin & -> & Hv & ?).
  cbn. destruct (enum_encode_make v x [] Hin) as [-> _].
  destruct Hv as [Hv _ _].
  apply (tuple_nonempty d (v_codec v) wfd (λ x, wf (v_make v x)) Hv Hne (v_discriminant v, x)). done.
Qed.
End enum.

(** ** Encoding settles

    Writing a value, well formed or not, ends with bytes or an error: the one
    panic of the encoders, a length above [VarInt::MAX], lies behind the check
    of [VarInt::try_from]. *)
Class EncodeSettled {A} (c : MlsCodec A) : Prop := {
  encoded_len_settled a : settled (mls_encoded_len c a);
  encode_settled a w : settled (mls_encode c a w);
}.

Lemma settled_foldM {E S A} (f : S → A → Result E S) l s : (∀ s a, settled (f s a)) → settled (foldM f s l).
Proof.
  intros Hf. revert s. induction l as [|a l IH]; intros s; [done|]. cbn [foldM]. by apply settled_bind.
Qed.

Lemma try_from_bounded n v : VarInt.try_from n = Ok v → v ≤ VarInt.MAX.
Proof. unfold VarInt.try_from, VarInt.try_from_u32. repeat case_match; try done. intros [= <-]. lia. Qed.

Lemma try_from_settled n : settled (VarInt.try_from n).
Proof. unfold VarInt.try_from, VarInt.try_from_u32. by repeat case_match. Qed.

Lemma count_bytes_settled n : n ≤ VarInt.MAX → settled (VarInt.count_bytes_to_encode_int n).
Proof.
  intros Hn. unfold VarInt.count_bytes_to_encode_int, VarInt.used_bits. change VarInt.MAX with (2 ^ 30 - 1) in Hn.
  assert (n = 0 ∨ Z.log2 n < 30) as [->|Hl]; [|done|].
  - destruct (Z.lt_trichotomy n 0) as [H|[H|H]]; [right; rewrite Z.log2_nonpos by lia; lia|by left|right].
    apply Z.log2_lt_pow2; lia.
  - repeat case_match; try done; lia.
Qed.

Lemma header_length_settled n : settled (header_length n).
Proof.
  unfold header_length. cbn. apply settled_fmap, count_bytes_settled. destruct (VarInt.try_from n) eqn:E; try done.
  by apply try_from_bounded in E.
Qed.

Lemma varint_encode_settled n w : n ≤ VarInt.MAX → settled (mls_encode VarInt.codec n w).
Proof. intros Hn. apply settled_bind; [by apply count_bytes_settled|done]. Qed.

#[export] Instance array_settled n : EncodeSettled (array_codec n).
Proof. done. Qed.
#[export] Instance stdint_settled n : EncodeSettled (stdint_codec n).
Proof. done. Qed.
#[export] Instance unit_settled : EncodeSettled unit_codec.
Proof. done. Qed.

#[export] Instance byte_vec_settled : EncodeSettled byte_vec_codec.
Proof.
  split; intros a; cbn.
  - apply settled_bind; [apply header_length_settled|done].
  - intros w. apply settled_bind; [apply try_from_settled|]. intros n Hn%try_from_bounded.
    apply settled_bind; [by apply varint_encode_settled|done].
Qed.

Section settle.
Context {A B} (c : MlsCodec A) (d : MlsCodec B) `{!EncodeSettled c, !EncodeSettled d}.

#[export] Instance vec_settled : EncodeSettled (vec_codec c).
Proof.
  assert (∀ l, settled (sum_encoded_len c l)) as Hs.
  { intros l. apply settled_foldM. intros. apply settled_bind; [apply encoded_len_settled|done]. }
  split; intros l; cbn.
  - apply settled_bind; [apply Hs|]. intros n _. apply settled_bind; [apply header_length_settled|done].
  - intros w. apply settled_bind; [apply Hs|]. intros n _. apply settled_bind; [apply try_from_settled|].
    intros h Hh%try_from_bounded. apply settled_bind; [by apply varint_encode_settled|]. intros w' _.
    apply settled_foldM. intros. apply encode_settled.
Qed.

#[export] Instance option_settled : EncodeSettled (option_codec c).
Proof.
  split; intros [a|]; cbn; try done; [apply settled_bind; [apply encoded_len_settled|done]|].
  intros w. apply encode_settled.
Qed.

#[export] Instance tuple_settled : EncodeSettled (tuple_codec c d).
Proof.
  split; intros [a b]; cbn.
  - apply settled_bind; [apply encoded_len_settled|]. intros n _. apply settled_bind; [apply encoded_len_settled|done].
  - intros w. apply settled_bind; [apply encode_settled|]. intros w' _. apply encode_settled.
Qed.

#[export] Instance struct_settled {T} (fields : T → A) make : EncodeSettled (struct_codec fields make c).
Proof. split; intros; cbn; [apply encoded_len_settled|apply encode_settled]. Qed.
End settle.

(** An enum is written by the first variant that matches. *)
Lemma enum_settled {A} (vs : list (Variant A)) d :
  EncodeSettled d → Forall (λ v, EncodeSettled (v_codec v)) vs →
  (∀ a, Exists (λ v, is_Some (v_match v a)) vs) → EncodeSettled (enum_codec d vs).
Proof.
  intros Hd Hvs Hm. split; intros a; cbn; specialize (Hm a); induction Hm as [v vs [x Hx]|v vs Hm IH];
    apply Forall_cons in Hvs as [Hv Hvs]; cbn [enum_encoded_len enum_encode].
  1: rewrite Hx; apply settled_bind; [apply encoded_len_settled|]; intros; apply settled_bind; [apply encoded_len_settled|done].
  2: intros w; rewrite Hx; apply settled_bind; [apply encode_settled|]; intros; apply encode_settled.
  all: destruct (v_match v a) as [y|]; [|by apply IH].
  - apply settled_bind; [apply encoded_len_settled|]; intros; apply settled_bind; [apply encoded_len_settled|done].
  - intros w. apply settled_bind; [apply encode_settled|]; intros; apply encode_settled.
Qed.

(** The tactic for a derived enum. *)
Ltac solve_enum_settled vs :=
  apply enum_settled;
  [ apply _
  | unfold vs; rewrite ?Forall_cons, Forall_nil; split_and!; cbn; apply _ || done
  | intros []; cbn; repeat (first [apply Exists_cons_hd; by eexists | apply Exists_cons_tl]) ].

(** ** Byte strings and maps *)

(** The tactic for the laws of a derived enum: each variant has its codec, the
    discriminants are distinct bytes, and each value matches one variant. *)
Ltac solve_enum vs wf :=
  apply (enum_laws wf vs u8_codec is_u8);
  [ unfold vs; rewrite !Forall_cons, Forall_nil; split_and!; [split..|done]; cbn;
    first [ by intros [] | by (intros [] ?; intros [= <-]) | by (intros [] []) | apply _ | idtac ]
  | unfold vs; rewrite !Forall_cons, Forall_nil; unfold is_u8; cbn; lia
  | cbn; repeat constructor; set_solver
  | intros [] _; cbn; repeat (first [apply Exists_cons_hd; by eexists | apply Exists_cons_tl])
  | let H1 := fresh in let H2 := fresh in
    intros v1 v2 x H1 H2; unfold vs in *; rewrite !elem_of_cons, elem_of_nil in H1, H2;
    repeat match goal with H : _ ∨ _ |- _ => destruct H end; subst; cbn; try done; by intros [] ].

(** [u8] as the items of a [Vec<u8>]. *)
Definition byte_codec : MlsCodec byte := struct_codec byte.unsigned byte.of_Z u8_codec.

Lemma byte_codec_encode b w : mls_encode byte_codec b w = Ok (w ++ [b]).
Proof. cbn -[Z.shiftr byte.of_Z byte.unsigned]. by rewrite Z.shiftr_0_r, byte.of_Z_unsigned. Qed.

Lemma byte_codec_decode b r : mls_decode byte_codec (b :: r) = Ok (b, r).
Proof.
  unfold byte_codec, struct_codec. cbn [mls_decode]. rewrite u8_decode_cons. cbn [mbind result_bind].
  by rewrite byte.of_Z_unsigned.
Qed.

Lemma encode_items_bytes l w : encode_items byte_codec l w = Ok (w ++ l).
Proof.
  unfold encode_items. revert w. induction l as [|b l IH]; intros w; cbn [foldM]; [by rewrite app_nil_r|].
  rewrite byte_codec_encode. cbn [mbind result_bind]. by rewrite IH, <- app_assoc.
Qed.

Lemma sum_encoded_len_bytes l : sum_encoded_len byte_codec l = Ok (len l).
Proof.
  induction l as [|b l IH]; [done|]. apply sum_encoded_len_cons. exists 1, (len l).
  split_and!; [done|done|]. unfold len. simpl length. lia.
Qed.

Lemma decode_items_bytes l fuel : (length l ≤ fuel)%nat → decode_items byte_codec fuel l = Ok l.
Proof.
  revert fuel. induction l as [|b l IH]; intros fuel Hf; [by destruct fuel|].
  destruct fuel as [|fuel]; [simpl in Hf; lia|].
  change (decode_items byte_codec (S fuel) (b :: l)) with
    ('(a, data) ← mls_decode byte_codec (b :: l); k ← decode_items byte_codec fuel data; Ok (a :: k)).
  rewrite byte_codec_decode. cbn [mbind result_bind]. rewrite IH by (simpl in Hf; lia). done.
Qed.

Lemma foldl_insert_snoc {K V} `{Countable K} (l : list (K * V)) k v :
  foldl (λ (m : gmap K V) '(k, v), <[k := v]> m) ∅ (l ++ [(k, v)]) =
  <[k := v]> (foldl (λ (m : gmap K V) '(k, v), <[k := v]> m) ∅ l).
Proof. by rewrite foldl_app. Qed.

Lemma foldl_insert_map {K V} `{Countable K} (l : list (K * V)) :
  NoDup l.*1 → foldl (λ (m : gmap K V) '(k, v), <[k := v]> m) ∅ l = list_to_map l.
Proof.
  induction l as [|[k v] l IH] using rev_ind; [done|]. rewrite foldl_insert_snoc.
  rewrite fmap_app. cbn. intros [Hl [Hd _]]%NoDup_app. rewrite IH by done.
  rewrite list_to_map_app. cbn. apply map_eq. intros k'.
  assert (list_to_map (M:=gmap K V) l !! k = None) as Hk.
  { apply not_elem_of_list_to_map. intros ?. by apply (Hd k); [|left]. }
  destruct (decide (k = k')) as [<-|].
  - rewrite lookup_insert_eq, lookup_union_r by done. by rewrite lookup_insert_eq.
  - rewrite lookup_insert_ne by done.
    destruct (list_to_map (M:=gmap K V) l !! k') eqn:E.
    + by rewrite (lookup_union_Some_l _ _ _ _ E).
    + rewrite lookup_union_r by done. by rewrite lookup_insert_ne.
Qed.

(** * Properties *)

(** Every value of every variable-length integer round-trips: for each
    [n] up to [VarInt::MAX], encoding succeeds and decoding the result, followed
    by any bytes, gives back [n] and those bytes. *)
Theorem varint_roundtrip n rest :
  0 ≤ n ≤ VarInt.MAX →
  ∃ bs, mls_encode_to_vec VarInt.codec n = Ok bs ∧
    mls_decode VarInt.codec (bs ++ rest) = Ok (n, rest).
Proof. apply decode_encode_varint. Qed.

Lemma varint_roundtrip_witness :
  ∃ bs, mls_encode_to_vec VarInt.codec 15293 = Ok bs ∧
    mls_decode VarInt.codec (bs ++ []) = Ok (15293, []).
Proof. apply (varint_roundtrip 15293 []). vm_compute. split; discriminate. Defined.

(** The integer format is canonical: the decoder accepts only the unique
    minimal encoding of a value in range, so no two byte strings decode to the
    same length header. *)
Theorem varint_canonical r n rest :
  mls_decode VarInt.codec r = Ok (n, rest) →
  0 ≤ n ≤ VarInt.MAX ∧ ∃ bs, mls_encode_to_vec VarInt.codec n = Ok bs ∧ r = bs ++ rest.
Proof. apply encode_decode_varint. Qed.

Lemma varint_canonical_witness :
  0 ≤ 15293 ≤ VarInt.MAX ∧
  ∃ bs, mls_encode_to_vec VarInt.codec 15293 = Ok bs ∧ [Byte.x7b; Byte.xbd] = bs ++ [].
Proof. apply (varint_canonical [Byte.x7b; Byte.xbd] 15293 []). vm_compute. reflexivity. Defined.

(** A vector of encodable items obeys the whole codec contract: size
    computation, encoding, round trip, canonicity, and decoding that terminates
    without a panic on arbitrary input, for every item codec that does and
    whose items take at least one byte. *)
Theorem vec_codec_correct {A} (c : MlsCodec A) (wf : A → Prop) :
  CodecLaws c wf → NonEmpty c wf → CodecLaws (vec_codec c) (Forall wf).
Proof. apply vec_laws. Qed.

Lemma vec_codec_correct_witness : CodecLaws (vec_codec u32_codec) (Forall is_u32).
Proof. apply (vec_codec_correct u32_codec is_u32); [apply u32_laws|apply u32_nonempty]. Defined.

(** Derived enums obey the contract: with distinct discriminants in the
    range of the discriminant type, variants that do not overlap and that cover
    the well-formed values, and lawful field codecs, the derived implementation
    is lawful, and unknown discriminants are rejected. *)
Theorem enum_codec_correct {A} (wf : A → Prop) (vs : list (Variant A)) :
  Forall (VariantOk wf) vs →
  Forall (λ v, is_u8 (v_discriminant v)) vs →
  NoDup (v_discriminant <$> vs) →
  (∀ a, wf a → Exists (λ v, is_Some (v_match v a)) vs) →
  (∀ v1 v2 x, v1 ∈ vs → v2 ∈ vs → is_Some (v_match v1 (v_make v2 x)) → v1 = v2) →
  CodecLaws (enum_codec u8_codec vs) wf ∧
  ∀ n r, n ∉ (v_discriminant <$> vs) → enum_decode_variant vs n r = Err UnsupportedEnumDiscriminant.
Proof.
  intros Hvs Hd Hn Hc Hj. split; [by apply (enum_laws wf vs u8_codec is_u8)|].
  intros n r. clear. induction vs as [|v vs IH]; cbn; [done|].
  intros [Hv Hvs]%not_elem_of_cons. destruct (Z.eqb_spec n (v_discriminant v)); [done|by apply IH].
Qed.

(** The enum [Option<u16>]-like sample of two variants. *)
Definition sample_variants : list (Variant (unit + Z)) := [
  {| v_discriminant := 1; v_codec := unit_codec; v_make := inl;
     v_match a := match a with inl u => Some u | inr _ => None end |};
  {| v_discriminant := 2; v_codec := u16_codec; v_make := inr;
     v_match a := match a with inl _ => None | inr z => Some z end |} ].

Lemma enum_codec_correct_witness :
  CodecLaws (enum_codec u8_codec sample_variants) (λ a, match a with inl _ => True | inr z => is_u16 z end) ∧
  ∀ n r, n ∉ (v_discriminant <$> sample_variants) →
    enum_decode_variant sample_variants n r = Err UnsupportedEnumDiscriminant.
Proof.
  apply (enum_codec_correct (λ a, match a with inl _ => True | inr z => is_u16 z end) sample_variants).
  - apply Forall_cons. split; [split; cbn; [apply unit_laws|by intros [u|z] x [= ->]|done]|].
    apply Forall_singleton. split; cbn; [apply u16_laws|by intros [u|z] x [= ->]|done].
  - repeat constructor; cbn; unfold is_u8; lia.
  - cbn. apply NoDup_cons. split; [|apply NoDup_singleton]. rewrite list_elem_of_singleton. lia.
  - intros [u|z] _; [left|right; left]; cbn; eauto.
  - intros v1 v2 x H1 H2. unfold sample_variants in H1, H2.
    repeat match goal with H : _ ∈ _ :: _ |- _ => apply elem_of_cons in H as [->|H] end;
      try (by apply elem_of_nil in H1); try (by apply elem_of_nil in H2); try done;
      cbn; intros [y Hy]; discriminate.
Defined.

(** The optimised byte-string codec is the general vector codec at items
    of type [u8]: same sizes, same bytes written, same inputs accepted. *)
Theorem byte_vec_is_vec_u8 (data w r : bytes) :
  mls_encoded_len byte_vec_codec data = mls_encoded_len (vec_codec byte_codec) data ∧
  mls_encode byte_vec_codec data w = mls_encode (vec_codec byte_codec) data w ∧
  mls_decode byte_vec_codec r = mls_decode (vec_codec byte_codec) r.
Proof.
  cbn [byte_vec_codec vec_codec mls_encoded_len mls_encode mls_decode].
  unfold iter_mls_encoded_len, iter_mls_encode, mls_decode_collection.
  rewrite sum_encoded_len_bytes. cbn [mbind result_bind]. split_and!; [done| |].
  - apply bind_ext. intros n _. apply bind_ext. intros w' _. by rewrite encode_items_bytes.
  - destruct (mls_decode_split_on_collection r) as [[data' rest]| | |]; try done.
    cbn [mbind result_bind]. by rewrite decode_items_bytes.
Qed.

(** A map survives serialization whatever order the container iterates
    in: decoding the encoding of any enumeration of its entries, each key once,
    rebuilds the map. *)
Theorem map_roundtrip {K V} `{Countable K} (ck : MlsCodec K) (cv : MlsCodec V) wfk wfv
    (m : gmap K V) (entries : list (K * V)) bs rest :
  CodecLaws ck wfk → CodecLaws cv wfv → NonEmpty ck wfk →
  entries ≡ₚ map_to_list m →
  Forall (λ p, wfk p.1 ∧ wfv p.2) entries →
  map_encode ck cv entries [] = Ok bs →
  map_decode ck cv (bs ++ rest) = Ok (m, rest).
Proof.
  intros Hk Hv Hne Hperm Hwf Hbs.
  pose proof (tuple_laws ck cv wfk wfv Hk Hv) as Ht. pose proof (tuple_nonempty ck cv wfk wfv Hv Hne) as Hn.
  unfold map_encode in Hbs. apply (iter_encode_spec _ _ entries bs Hwf) in Hbs as (items & h & Hi & Hw & Hh & ->).
  unfold map_decode, mls_decode_collection. rewrite <- app_assoc, split_encode by done.
  cbn [mbind result_bind]. rewrite (decode_items_encode _ _ entries items) by done.
  cbn [mbind result_bind]. rewrite foldl_insert_map.
  - by rewrite (list_to_map_proper entries (map_to_list m)), list_to_map_to_list;
      [|rewrite Hperm; apply NoDup_fst_map_to_list|].
  - rewrite Hperm. apply NoDup_fst_map_to_list.
Qed.

Lemma map_roundtrip_witness :
  map_decode u8_codec u16_codec
    ([Byte.x06; Byte.x02; Byte.x00; Byte.x07; Byte.x01; Byte.x01; Byte.x00] ++ [Byte.xff])
  = Ok (<[1 := 256]> {[2 := 7]}, [Byte.xff]).
Proof.
  apply (map_roundtrip u8_codec u16_codec is_u8 is_u16 (<[1 := 256]> {[2 := 7]}) [(2, 7); (1, 256)]).
  - apply u8_laws.
  - apply u16_laws.
  - apply u8_nonempty.
  - vm_compute. apply Permutation_swap || reflexivity.
  - repeat constructor; cbn; unfold is_u8, is_u16; lia.
  - vm_compute. reflexivity.
Defined.
