(* ===== verification/Wire.v ===== *)
(** * Formats that only round-trip (mls-rs-codec, mls-rs/src/group/framing.rs)

    [CodecLaws] asks that whatever decodes is its own encoding.  Formats that
    contain proposals do not have that property (a proposal of the reserved type
    0 decodes but is not written), so the message formats are proved to satisfy
    the forward half, [WireLaws]: encoding appends, its length is the computed
    one, decoding an encoding returns the value and the rest, and decoding ends
    without a panic on every input. *)
From S2P Require Import Prelude Codec.
Import VarIntFacts.

Class WireLaws {A} (c : MlsCodec A) (wf : A → Prop) : Prop := {
  wire_writer a w : mls_encode c a w = app w <$> mls_encode c a [];
  wire_len a bs : wf a → mls_encode c a [] = Ok bs → mls_encoded_len c a = Ok (len bs);
  wire_decode a bs rest : wf a → mls_encode c a [] = Ok bs → mls_decode c (bs ++ rest) = Ok (a, rest);
  wire_settled r : settled (mls_decode c r);
  wire_consumes r a rest : mls_decode c r = Ok (a, rest) → ∃ bs, r = bs ++ rest;
}.

(** Every encoding, and every decoding, takes at least a byte. *)
Class WireNonEmpty {A} (c : MlsCodec A) : Prop :=
  wire_nonempty r a rest : mls_decode c r = Ok (a, rest) → (length rest < length r)%nat.

Lemma codec_wire {A} (c : MlsCodec A) wf : CodecLaws c wf → WireLaws c wf.
Proof.
  intros H. split.
  - apply encode_writer.
  - apply encode_len.
  - apply decode_encode.
  - apply decode_settled.
  - intros r a rest (_ & bs & _ & ->)%decode_sound. by exists bs.
Qed.

#[export] Hint Extern 5 (WireLaws _ _) => (apply codec_wire; apply _) : typeclass_instances.

(** Encodings are prefix-free, hence unambiguous. *)
Lemma wire_inj {A} (c : MlsCodec A) wf `{!WireLaws c wf} a b x y r s :
  wf a → wf b → mls_encode c a [] = Ok x → mls_encode c b [] = Ok y → x ++ r = y ++ s → a = b ∧ r = s.
Proof.
  intros Ha Hb Hx Hy E. pose proof (wire_decode a x r Ha Hx) as H1. rewrite E, (wire_decode b y s Hb Hy) in H1.
  by injection H1 as -> ->.
Qed.

Lemma wire_inj_nil {A} (c : MlsCodec A) wf `{!WireLaws c wf} a b x :
  wf a → wf b → mls_encode c a [] = Ok x → mls_encode c b [] = Ok x → a = b.
Proof. intros Ha Hb Hx Hy. by destruct (wire_inj c wf a b x x [] [] Ha Hb Hx Hy eq_refl). Qed.

Lemma wire_iff {A} (c : MlsCodec A) (wf wf' : A → Prop) : WireLaws c wf → (∀ a, wf' a → wf a) → WireLaws c wf'.
Proof.
  intros H Himp. split.
  - apply wire_writer.
  - intros a bs Ha. by apply wire_len, Himp.
  - intros a bs rest Ha. by apply wire_decode, Himp.
  - apply wire_settled.
  - apply wire_consumes.
Qed.

(** ** A second field whose format depends on the first *)
Definition dep_codec {A B} (c : MlsCodec A) (d : A → MlsCodec B) : MlsCodec (A * B) := {|
  mls_encoded_len p := n ← mls_encoded_len c p.1; m ← mls_encoded_len (d p.1) p.2; Ok (n + m);
  mls_encode p w := w ← mls_encode c p.1 w; mls_encode (d p.1) p.2 w;
  mls_decode r := '(a, r) ← mls_decode c r; '(b, r) ← mls_decode (d a) r; Ok ((a, b), r);
|}.

Lemma dep_wire {A B} (c : MlsCodec A) (d : A → MlsCodec B) wfc wfd :
  WireLaws c wfc → (∀ a, WireLaws (d a) (wfd a)) → WireLaws (dep_codec c d) (λ p, wfc p.1 ∧ wfd p.1 p.2).
Proof.
  intros Hc Hd. split; cbn [dep_codec mls_encode mls_decode mls_encoded_len].
  - intros [a b] w. cbn [fst snd]. rewrite wire_writer.
    destruct (mls_encode c a []) as [x| | |]; cbn [mbind result_bind fmap result_fmap]; try done.
    rewrite wire_writer, (wire_writer b x).
    destruct (mls_encode (d a) b []); cbn; try done. by rewrite app_assoc.
  - intros [a b] bs [Ha Hb]; cbn [fst snd] in *. intros H. apply bind_ok in H as (x & Hx & H).
    rewrite wire_writer in H. apply fmap_ok in H as (y & Hy & <-).
    rewrite (wire_len a x), (wire_len b y) by done. cbn. by rewrite len_app.
  - intros [a b] bs rest [Ha Hb]; cbn [fst snd] in *. intros H. apply bind_ok in H as (x & Hx & H).
    rewrite wire_writer in H. apply fmap_ok in H as (y & Hy & <-).
    rewrite <- app_assoc, (wire_decode a x) by done. cbn [mbind result_bind]. by rewrite (wire_decode b y).
  - intros r. apply settled_bind; [apply wire_settled|]. intros [a r1] _.
    apply settled_bind; [apply wire_settled|]. by intros [] _.
  - intros r [a b] rest H. apply bind_ok in H as ([a' r1] & H1 & H). apply bind_ok in H as ([b' r2] & H2 & [= <- <- <-]).
    apply wire_consumes in H1 as [x ->]. apply wire_consumes in H2 as [y ->]. exists (x ++ y). by rewrite <- app_assoc.
Qed.

Lemma tuple_wire {A B} (c : MlsCodec A) (d : MlsCodec B) wfc wfd :
  WireLaws c wfc → WireLaws d wfd → WireLaws (tuple_codec c d) (λ p, wfc p.1 ∧ wfd p.2).
Proof. intros Hc Hd. exact (dep_wire c (λ _, d) wfc (λ _, wfd) Hc (λ _, Hd)). Qed.

(** A value seen through another type; the view need only be faithful on the
    well-formed values. *)
Lemma view_wire {A B} (fields : B → A) (make : A → B) (c : MlsCodec A) wf (wf' : B → Prop) :
  (∀ b, wf' b → make (fields b) = b ∧ wf (fields b)) → WireLaws c wf → WireLaws (struct_codec fields make c) wf'.
Proof.
  intros Hmf Hc. split; cbn [struct_codec mls_encode mls_decode mls_encoded_len].
  - intros. apply wire_writer.
  - intros b bs Hb. by apply wire_len, Hmf.
  - intros b bs rest [Hb Hw]%Hmf Hbs. rewrite (wire_decode (fields b) bs) by done. cbn. by rewrite Hb.
  - intros r. apply settled_bind; [apply wire_settled|]. by intros [] _.
  - intros r b rest H. apply bind_ok in H as ([a r1] & H1 & [= <- <-]). by apply wire_consumes in H1.
Qed.

Lemma struct_wire {A B} (fields : B → A) (make : A → B) (c : MlsCodec A) wf :
  (∀ b, make (fields b) = b) → WireLaws c wf → WireLaws (struct_codec fields make c) (λ b, wf (fields b)).
Proof. intros Hmf. apply view_wire. auto. Qed.

Lemma option_wire {A} (c : MlsCodec A) wf : WireLaws c wf → WireLaws (option_codec c) (λ o, from_option wf True o).
Proof.
  intros Hc. split; cbn [option_codec mls_encode mls_decode mls_encoded_len].
  - intros [a|] w; [|done]. rewrite wire_writer, (wire_writer a ([] ++ _)).
    destruct (mls_encode c a []); cbn; try done. by rewrite <- app_assoc.
  - intros [a|] bs Ha; [|by intros [= <-]]. rewrite wire_writer. intros H. apply fmap_ok in H as (x & Hx & <-).
    rewrite (wire_len a x) by done. cbn. f_equal. unfold len. simpl. lia.
  - intros [a|] bs rest Ha; [|by intros [= <-]]. rewrite wire_writer. intros H. apply fmap_ok in H as (x & Hx & <-).
    change (mls_decode u8_codec _) with (Ok (E:=Error) (1, x ++ rest)). cbn. by rewrite (wire_decode a x).
  - intros r. apply settled_bind; [apply decode_settled|]. intros [n r'] _.
    repeat case_match; try done. apply settled_bind; [apply wire_settled|]. by intros [] _.
  - intros r o rest H. apply bind_ok in H as ([n r1] & H1 & H). apply decode_sound in H1 as (_ & x & _ & ->).
    repeat case_match; simplify_eq/=; [by eexists|]. apply bind_ok in H as ([a r2] & H2 & [= <- <-]).
    apply wire_consumes in H2 as [y ->]. exists (x ++ y). by rewrite <- app_assoc.
Qed.

(** ** An optional field without a marker: present as the context says *)
Definition present_codec {A} (present : bool) (c : MlsCodec A) : MlsCodec (option A) := {|
  mls_encoded_len o := match o with Some a => mls_encoded_len c a | None => Ok 0 end;
  mls_encode o w := match o with Some a => mls_encode c a w | None => Ok w end;
  mls_decode r := if present then '(a, r) ← mls_decode c r; Ok (Some a, r) else Ok (None, r);
|}.

Lemma present_wire {A} (present : bool) (c : MlsCodec A) wf :
  WireLaws c wf →
  WireLaws (present_codec present c) (λ o, match o with Some a => present = true ∧ wf a | None => present = false end).
Proof.
  intros Hc. split; cbn [present_codec mls_encode mls_decode mls_encoded_len].
  - intros [a|] w; [apply wire_writer|]. cbn. by rewrite app_nil_r.
  - intros [a|] bs; [intros [_ Ha]; by apply wire_len|]. by intros _ [= <-].
  - intros [a|] bs rest; [intros [-> Ha] Hbs|intros -> [= <-]; done]. by rewrite (wire_decode a bs).
  - intros r. destruct present; [|done]. apply settled_bind; [apply wire_settled|]. by intros [] _.
  - intros r o rest H. destruct present; [|injection H as <- <-; by exists []].
    apply bind_ok in H as ([a r1] & H1 & [= <- <-]). by apply wire_consumes in H1.
Qed.

(** ** Vectors *)
Section vec.
Context {A} (c : MlsCodec A) (wf : A → Prop) `{!WireLaws c wf} `{!WireNonEmpty c}.

Lemma wire_items_writer l w : encode_items c l w = app w <$> encode_items c l [].
Proof.
  unfold encode_items. revert w. induction l as [|a l IH]; intros w; cbn.
  - by rewrite app_nil_r.
  - rewrite wire_writer. destruct (mls_encode c a []) as [x| | |]; cbn; [|done..].
    rewrite IH, (IH x). destruct (foldM _ [] l); cbn; [|done..]. by rewrite app_assoc.
Qed.

Lemma wire_items_cons a l bs :
  encode_items c (a :: l) [] = Ok bs → ∃ x y, mls_encode c a [] = Ok x ∧ encode_items c l [] = Ok y ∧ bs = x ++ y.
Proof.
  change (encode_items c (a :: l) []) with (x ← mls_encode c a []; encode_items c l x).
  intros H. apply bind_ok in H as (x & Hx & H). rewrite wire_items_writer in H. apply fmap_ok in H as (y & Hy & <-). eauto.
Qed.

Lemma wire_items_len l bs : Forall wf l → encode_items c l [] = Ok bs → sum_encoded_len c l = Ok (len bs).
Proof.
  intros Hl. revert bs. induction Hl as [|a l Ha Hl IH]; intros bs; [by intros [= <-]|].
  intros (x & y & Hx & Hy & ->)%wire_items_cons. apply sum_encoded_len_cons.
  exists (len x), (len y). rewrite len_app. eauto using wire_len.
Qed.

Lemma wire_items_decode l bs fuel :
  Forall wf l → encode_items c l [] = Ok bs → (length bs ≤ fuel)%nat → decode_items c fuel bs = Ok l.
Proof.
  intros Hl. revert bs fuel. induction Hl as [|a l Ha Hl IH]; intros bs fuel.
  - intros [= <-]. by destruct fuel.
  - intros (x & y & Hx & Hy & ->)%wire_items_cons Hf.
    pose proof (wire_decode a x y Ha Hx) as Hd. pose proof (wire_nonempty _ _ _ Hd) as Hlt. rewrite length_app in Hf, Hlt.
    destruct fuel as [|fuel]; [lia|]. destruct x as [|b x]; [cbn in Hlt; lia|].
    assert (decode_items c (S fuel) ((b :: x) ++ y) =
      ('(a, data) ← mls_decode c ((b :: x) ++ y); l ← decode_items c fuel data; Ok (a :: l))) as -> by done.
    rewrite Hd. cbn [mbind result_bind]. rewrite (IH y); [done|done|cbn in *; lia].
Qed.

Lemma wire_items_settled fuel data : (length data ≤ fuel)%nat → settled (decode_items c fuel data).
Proof.
  revert data. induction fuel as [|fuel IH]; intros data Hf; destruct data as [|b data]; try done; [cbn in Hf; lia|].
  assert (decode_items c (S fuel) (b :: data) =
    ('(a, data) ← mls_decode c (b :: data); l ← decode_items c fuel data; Ok (a :: l))) as -> by done.
  apply settled_bind; [apply wire_settled|]. intros [a r] Ha. apply settled_bind; [|done]. apply IH.
  apply wire_nonempty in Ha. cbn in *. lia.
Qed.

(** The bytes of a vector: its length, then its items. *)
Lemma wire_iter_spec l bs :
  Forall wf l → iter_mls_encode c l [] = Ok bs →
  ∃ items h, encode_items c l [] = Ok items ∧ VarIntFacts.wf (len items) ∧ VarInt.encode (len items) [] = Ok h ∧ bs = h ++ items.
Proof.
  intros Hl H. unfold iter_mls_encode in H. apply bind_ok in H as (n & Hn & H). apply bind_ok in H as (m & Hm & H).
  apply bind_ok in H as (h & Hh & H). rewrite wire_items_writer in H. apply fmap_ok in H as (items & Hi & <-).
  pose proof (wire_items_len l items Hl Hi) as Hlen. rewrite Hn in Hlen. injection Hlen as ->.
  apply VarIntFacts.try_from_ok in Hm as [<- Hwf]; [|apply len_nonneg]. eauto 10.
Qed.

#[export] Instance vec_wire : WireLaws (vec_codec c) (Forall wf).
Proof.
  split; cbn [vec_codec mls_encode mls_decode mls_encoded_len].
  - intros l w. unfold iter_mls_encode.
    destruct (sum_encoded_len c l) as [n| | |]; cbn [mbind result_bind fmap result_fmap]; try done.
    destruct (VarInt.try_from n) as [h| | |]; cbn [mbind result_bind fmap result_fmap]; try done.
    rewrite (encode_writer (c:=VarInt.codec)).
    destruct (mls_encode VarInt.codec h []) as [hb| | |]; cbn [mbind result_bind fmap result_fmap]; try done.
    rewrite wire_items_writer, (wire_items_writer l hb).
    destruct (encode_items c l []); cbn; try done. by rewrite app_assoc.
  - intros l bs Hl (items & h & Hi & Hwf & Hh & ->)%wire_iter_spec; [|done].
    unfold iter_mls_encoded_len. rewrite (wire_items_len l items Hl Hi). cbn [mbind result_bind].
    rewrite (header_length_ok _ h) by done. cbn. by rewrite len_app.
  - intros l bs rest Hl (items & h & Hi & Hwf & Hh & ->)%wire_iter_spec; [|done].
    unfold mls_decode_collection. rewrite <- app_assoc, split_encode by done.
    cbn [mbind result_bind]. by rewrite (wire_items_decode l items).
  - intros r. apply settled_bind; [apply split_settled|]. intros [data rest] _.
    apply settled_bind; [|done]. by apply wire_items_settled.
  - intros r l rest. unfold mls_decode_collection. intros ([data rest'] & Hs & H)%bind_ok.
    apply bind_ok in H as (x & _ & [= <- <-]). apply split_sound in Hs as (_ & h & _ & ->). exists (h ++ data). by rewrite <- app_assoc.
Qed.
End vec.

(** ** Enums *)
Lemma enum_wire {A} (wf : A → Prop) (vs : list (Variant A)) (d : MlsCodec Z) wfd :
  CodecLaws d wfd → Forall (λ v, ∃ wfx, WireLaws (v_codec v) wfx) vs →
  (∀ a, ∃ v x wfx, WireLaws (v_codec v) wfx ∧ (wf a → wfx x) ∧ wfd (v_discriminant v) ∧ a = v_make v x ∧
     (∀ w, enum_encode d vs a w = mls_encode (tuple_codec d (v_codec v)) (v_discriminant v, x) w) ∧
     enum_encoded_len d vs a = mls_encoded_len (tuple_codec d (v_codec v)) (v_discriminant v, x) ∧
     (∀ r, enum_decode_variant vs (v_discriminant v) r = ('(x, r) ← mls_decode (v_codec v) r; Ok (v_make v x, r)))) →
  WireLaws (enum_codec d vs) wf.
Proof.
  intros Hd Hvs Hsel. split; cbn [enum_codec mls_encode mls_decode mls_encoded_len].
  - intros a w. destruct (Hsel a) as (v & x & wfx & Hx & _ & _ & _ & He & _).
    rewrite !He. by apply (@wire_writer _ _ _ (tuple_wire d (v_codec v) wfd wfx (codec_wire _ _ Hd) Hx)).
  - intros a bs Ha. destruct (Hsel a) as (v & x & wfx & Hx & Hwf & Hv & _ & He & Hl & _). rewrite He, Hl.
    apply (@wire_len _ _ _ (tuple_wire d (v_codec v) wfd wfx (codec_wire _ _ Hd) Hx)). by split; [|apply Hwf].
  - intros a bs rest Ha. destruct (Hsel a) as (v & x & wfx & Hx & Hwf & Hv & -> & He & _ & Hdec). rewrite He.
    intros H. apply bind_ok in H as (y & Hy & H). rewrite wire_writer in H. apply fmap_ok in H as (z & Hz & <-).
    cbn [fst snd] in *. rewrite <- app_assoc, (decode_encode (v_discriminant v) y) by done. cbn [mbind result_bind].
    rewrite Hdec, (wire_decode x z) by (done || by apply Hwf). done.
  - intros r. apply settled_bind; [apply decode_settled|]. intros [n r1] _. clear Hsel. induction Hvs as [|v vs [wfx Hv] _ IH]; [done|].
    cbn [enum_decode_variant]. case_match; [|exact IH]. apply settled_bind; [apply wire_settled|]. by intros [] _.
  - intros r a rest H. apply bind_ok in H as ([n r1] & H1 & H). apply decode_sound in H1 as (_ & y & _ & ->).
    enough (∃ bs, r1 = bs ++ rest) as [bs ->] by (exists (y ++ bs); by rewrite <- app_assoc).
    clear Hsel. induction Hvs as [|v vs [wfx Hv] _ IH]; [done|]. cbn [enum_decode_variant] in H. case_match; [|by apply IH].
    apply bind_ok in H as ([x r2] & H2 & [= <- <-]). by apply wire_consumes in H2.
Qed.

(** A type behind a discriminant takes at least a byte. *)
Lemma dep_nonempty {A B} (c : MlsCodec A) (d : A → MlsCodec B) wfd :
  WireNonEmpty c → (∀ a, WireLaws (d a) (wfd a)) → WireNonEmpty (dep_codec c d).
Proof.
  intros Hc Hd r [a b] rest H. apply bind_ok in H as ([a' r1] & H1 & H). apply bind_ok in H as ([b' r2] & H2 & [= <- <- <-]).
  apply wire_nonempty in H1. apply wire_consumes in H2 as [y ->]. rewrite length_app in H1. lia.
Qed.

Lemma codec_nonempty {A} (c : MlsCodec A) wf : CodecLaws c wf → NonEmpty c wf → WireNonEmpty c.
Proof.
  intros Hc Hne r a rest (Ha & bs & Hbs & ->)%decode_sound. pose proof (encode_nonempty a Ha) as H.
  rewrite length_app. destruct bs; [done|cbn; lia].
Qed.

Lemma enum_nonempty_wire {A} (vs : list (Variant A)) (d : MlsCodec Z) wfd :
  CodecLaws d wfd → NonEmpty d wfd → Forall (λ v, ∃ wfx, WireLaws (v_codec v) wfx) vs → WireNonEmpty (enum_codec d vs).
Proof.
  intros Hd Hne Hvs r a rest H. apply bind_ok in H as ([n r1] & H1 & H).
  pose proof (codec_nonempty d wfd Hd Hne _ _ _ H1). enough (length rest ≤ length r1)%nat by lia. clear -Hvs H.
  induction Hvs as [|v vs [wfx Hv] _ IH]; [done|]. cbn [enum_decode_variant] in H. case_match; [|by apply IH].
  apply bind_ok in H as ([x r2] & H2 & [= <- <-]). apply wire_consumes in H2 as [bs ->]. rewrite length_app. lia.
Qed.

(** [enum_case vs n x]: the value is built by the [n]-th variant from [x]. *)
Ltac nth_of l n :=
  lazymatch n with
  | O => lazymatch l with ?a :: _ => a end
  | S ?m => lazymatch l with _ :: ?t => nth_of t m end
  end.
Ltac enum_case vs n x :=
  let l := eval hnf in vs in let v := nth_of l n in
  exists v, x; eexists; split_and!; [cbn; apply _ | intros H; exact H || exact I | cbn; unfold is_u8, is_u16; lia
    | reflexivity | intros; reflexivity | reflexivity | intros; reflexivity].
