(* ===== verification/TreeMath.v ===== *)
(** * Tree arithmetic (mls-rs/src/tree_kem/math.rs)

    The ratchet tree is an array: leaves at even positions, parents at odd
    ones, children and parents found by bit manipulation of [u32] indices.
    [node k j] is the abstract position "[j]-th node of level [k]" of the
    perfect binary tree; the lemmas give every routine its meaning on it. *)
From S2P Require Import Prelude.

Module TreeMath.

(** [CopathNode] and [ParentSibling]. *)
Record CopathNode := { path : Z; copath : Z }.
Record ParentSibling := { parent : Z; sibling : Z }.

#[global] Instance copath_node_eq_dec : EqDecision CopathNode.
Proof. solve_decision. Defined.

(** [!x] on [u32]. *)
Definition not32 (x : Z) : Z := u32_max - x.

Definition root (leaf_count : Z) : Z := u32 (leaf_count - 1).

Definition left_unchecked (x : Z) : Z :=
  Z.lxor x (shl32 0x01 (u32 (trailing_ones x - 1))).

Definition right_unchecked (x : Z) : Z :=
  Z.lxor x (shl32 0x03 (u32 (trailing_ones x - 1))).

Definition parent_sibling (x leaf_count : Z) : option ParentSibling :=
  if x =? root leaf_count then None
  else
    let lvl := trailing_ones x in
    let p := Z.lor (Z.land x (not32 (shl32 1 (lvl + 1)))) (shl32 1 lvl) in
    let s := if x <? p then right_unchecked p else left_unchecked p in
    Some {| parent := p; sibling := s |}.

Definition is_leaf (x : Z) : bool := Z.land x 1 =? 0.

Definition is_in_tree (x root : Z) : bool := x <=? u32 (2 * root).

Definition left (x : Z) : option Z := if is_leaf x then None else Some (left_unchecked x).
Definition right (x : Z) : option Z := if is_leaf x then None else Some (right_unchecked x).

(** The loop of [direct_copath].  The level rises at each step and a [u32] has
    32 of them, so 32 rounds are enough (see [direct_copath_node]). *)
Fixpoint copath_loop (fuel : nat) (x leaf_count : Z) : list CopathNode :=
  match fuel with
  | O => []
  | S fuel =>
      match parent_sibling x leaf_count with
      | Some ps =>
          {| path := parent ps; copath := sibling ps |} :: copath_loop fuel (parent ps) leaf_count
      | None => []
      end
  end.

Definition direct_copath (x leaf_count : Z) : list CopathNode :=
  if is_in_tree x (root leaf_count) then copath_loop 32 x leaf_count else [].

(** [leaf_lca_level]: at most 32 shifts empty a [u32]. *)
Fixpoint lca_loop (fuel : nat) (xn yn k : Z) : Z :=
  match fuel with
  | O => k
  | S fuel =>
      if xn =? yn then k else lca_loop fuel (Z.shiftr xn 1) (Z.shiftr yn 1) (k + 1)
  end.
Definition leaf_lca_level (x y : Z) : Z := lca_loop 32 x y 0.

(** [subtree]: the half-open range of leaves below a node. *)
Definition subtree (x : Z) : Z * Z :=
  let breadth := shl32 1 (trailing_ones x) in
  (Z.shiftr (u32 (x + 1 - breadth)) 1, u32 (Z.shiftr (u32 (x + breadth)) 1 + 1)).

(** [BfsIterTopDown], an iterator over [usize]. *)
Record BfsIterTopDown := { level : Z; mask : Z; level_end : Z; ctr : Z }.

Definition bfs_new (num_leaves : Z) : BfsIterTopDown :=
  let depth := trailing_zeros 64 num_leaves in
  {| level := depth + 1; mask := Z.shiftl 1 depth - 1; level_end := 1; ctr := 0 |}.

Definition bfs_next (s : BfsIterTopDown) : option (Z * BfsIterTopDown) :=
  let emit (s : BfsIterTopDown) :=
    Some (Z.lor (Z.shiftl (ctr s) (level s)) (mask s),
          {| level := level s; mask := mask s; level_end := level_end s; ctr := ctr s + 1 |}) in
  if ctr s =? level_end s then
    if level s =? 1 then None
    else emit {| level := level s - 1; mask := Z.shiftr (mask s) 1;
                 level_end := Z.lor (Z.shiftl (level_end s - 1) 1) 1 + 1; ctr := 0 |}
  else emit s.

(** The first [fuel] items of the iterator. *)
Fixpoint bfs_collect (fuel : nat) (s : BfsIterTopDown) : list Z :=
  match fuel with
  | O => []
  | S fuel =>
      match bfs_next s with Some (x, s) => x :: bfs_collect fuel s | None => [] end
  end.

(** ** The abstract tree *)

(** Position of the [j]-th node of level [k]. *)
Definition node (k j : Z) : Z := j * 2 ^ (k + 1) + 2 ^ k - 1.

(** Nodes of the tree with [2 ^ d] leaves. *)
Definition in_tree (d k j : Z) : Prop := 0 ≤ k ≤ d ∧ 0 ≤ j < 2 ^ (d - k).

(** Number of the sibling on the same level. *)
Definition sib (j : Z) : Z := if Z.even j then j + 1 else j - 1.

(** The direct path with its copath, from level [k + 1] to the root [d]. *)
Definition copath_spec (d k j : Z) : list CopathNode :=
  (λ i : nat,
     {| path := node (k + 1 + Z.of_nat i) (j / 2 ^ (Z.of_nat i + 1));
        copath := node (k + Z.of_nat i) (sib (j / 2 ^ Z.of_nat i)) |})
    <$> seq 0 (Z.to_nat (d - k)).

(** ** Bits *)
Lemma trailing_ones_even z : trailing_ones (2 * z) = 0.
Proof. by destruct z. Qed.

Lemma trailing_ones_odd z : 0 ≤ z → trailing_ones (2 * z + 1) = 1 + trailing_ones z.
Proof. destruct z; [done|done|lia]. Qed.

Lemma node_0 j : node 0 j = 2 * j.
Proof. unfold node. simpl. lia. Qed.

Lemma node_S k j : 0 ≤ k → node (k + 1) j = 2 * node k j + 1.
Proof. intros. unfold node. rewrite !(pow2_succ (k + 1)), !pow2_succ by lia. lia. Qed.

Lemma node_nonneg k j : 0 ≤ k → 0 ≤ j → 0 ≤ node k j.
Proof. intros. unfold node. pose proof (pow2_pos k). pose proof (pow2_pos (k + 1)). nia. Qed.

Lemma trailing_ones_node k j : 0 ≤ k → 0 ≤ j → trailing_ones (node k j) = k.
Proof.
  intros Hk Hj. revert k Hk. refine (natlike_ind _ _ _).
  - rewrite node_0. apply trailing_ones_even.
  - intros k Hk IH. rewrite <- Z.add_1_r, node_S by done.
    rewrite trailing_ones_odd, IH by auto using node_nonneg. lia.
Qed.

Lemma trailing_ones_nonneg x : 0 ≤ trailing_ones x.
Proof. destruct x as [|p|]; try done. simpl. induction p; simpl; lia. Qed.

(** Every index is the position of exactly one abstract node. *)
Lemma node_surj x : 0 ≤ x → x = node (trailing_ones x) ((x + 1) / 2 ^ (trailing_ones x + 1)).
Proof.
  destruct x as [|p|]; [done| |lia]. intros _. induction p as [p IH|p IH|].
  - pose proof (trailing_ones_nonneg (Zpos p)) as Ht.
    assert (trailing_ones (Zpos p~1) = trailing_ones (Zpos p) + 1) as ->.
    { rewrite Pos2Z.inj_xI, trailing_ones_odd by lia. lia. }
    rewrite node_S by done. rewrite Pos2Z.inj_xI. rewrite IH at 1.
    set (t := trailing_ones (Zpos p)) in *.
    replace (2 * Z.pos p + 1 + 1) with ((Z.pos p + 1) * 2) by lia.
    replace (2 ^ (t + 1 + 1)) with (2 ^ (t + 1) * 2) by (rewrite (pow2_succ (t + 1)) by lia; lia).
    rewrite Z.div_mul_cancel_r; [done| |lia]. pose proof (pow2_pos (t + 1)). lia.
  - rewrite Pos2Z.inj_xO, trailing_ones_even, node_0. f_equal.
    change (2 ^ (0 + 1)) with 2. Z.div_mod_to_equations. lia.
  - done.
Qed.

Lemma node_inj k j k' j' :
  0 ≤ k → 0 ≤ j → 0 ≤ k' → 0 ≤ j' → node k j = node k' j' → k = k' ∧ j = j'.
Proof.
  intros ? ? ? ? E. assert (k = k') as <-.
  { rewrite <- (trailing_ones_node k j), E, trailing_ones_node by done. done. }
  split; [done|]. unfold node in E. pose proof (pow2_pos (k + 1)). nia.
Qed.

Lemma node_bound d k j : 0 ≤ d ≤ 31 → in_tree d k j → 0 ≤ node k j < 2 ^ (d + 1) - 1.
Proof.
  intros Hd [Hk Hj]. split; [apply node_nonneg; lia|]. unfold node.
  assert (2 ^ (d + 1) = 2 ^ (d - k) * 2 ^ (k + 1)) as -> by (rewrite <- Z.pow_add_r by lia; f_equal; lia).
  rewrite pow2_succ in * by lia. pose proof (pow2_pos k). nia.
Qed.

Lemma node_u32 d k j : 0 ≤ d ≤ 31 → in_tree d k j → is_u32 (node k j).
Proof.
  intros Hd Hj. pose proof (node_bound d k j Hd Hj). unfold is_u32.
  assert (2 ^ (d + 1) ≤ 2 ^ 32) by (apply Z.pow_le_mono_r; lia). lia.
Qed.

Lemma node_mod k j : 0 ≤ k → node k j mod 2 ^ (k + 1) = Z.ones k.
Proof.
  intros. unfold node. rewrite Z.ones_equiv, <- Z.add_sub_assoc, Z.add_comm, Z.mod_add.
  - pose proof (pow2_pos k). rewrite pow2_succ by lia. rewrite Z.mod_small; lia.
  - pose proof (pow2_pos (k + 1)). lia.
Qed.

Lemma node_div k j : 0 ≤ k → node k j / 2 ^ (k + 1) = j.
Proof.
  intros. unfold node. rewrite <- Z.add_sub_assoc, Z.div_add_l.
  - pose proof (pow2_pos k). rewrite pow2_succ by lia. rewrite Z.div_small; lia.
  - pose proof (pow2_pos (k + 1)). lia.
Qed.

Lemma node_testbit k j i :
  0 ≤ k → 0 ≤ i →
  Z.testbit (node k j) i = if i <? k then true else if i =? k then false else Z.testbit j (i - (k + 1)).
Proof.
  intros Hk Hi. destruct (Z.ltb_spec i k); [|destruct (Z.eqb_spec i k)].
  - rewrite <- (Z.mod_pow2_bits_low _ (k + 1)), node_mod by lia. by apply Z.ones_spec_low.
  - subst. rewrite <- (Z.mod_pow2_bits_low _ (k + 1)), node_mod by lia. apply Z.ones_spec_high. lia.
  - rewrite <- (node_div k j) at 2 by done. rewrite Z.div_pow2_bits by lia. f_equal. lia.
Qed.

Lemma lxor_clear x k : 0 ≤ k → Z.testbit x k = true → Z.lxor x (2 ^ k) = x - 2 ^ k.
Proof.
  intros Hk Hb. rewrite Z.sub_nocarry_ldiff.
  - apply Z.bits_inj'. intros i Hi. rewrite Z.lxor_spec, Z.ldiff_spec, Z.pow2_bits_eqb by done.
    destruct (Z.eqb_spec k i) as [->|]; [by rewrite Hb|by rewrite xorb_false_r, andb_true_r].
  - apply Z.bits_inj'. intros i Hi. rewrite Z.ldiff_spec, Z.bits_0, Z.pow2_bits_eqb by done.
    destruct (Z.eqb_spec k i) as [->|]; [by rewrite Hb|done].
Qed.

Lemma lxor_set x k : 0 ≤ k → Z.testbit x k = false → Z.lxor x (2 ^ k) = x + 2 ^ k.
Proof.
  intros Hk Hb. symmetry. apply Z.add_nocarry_lxor.
  apply Z.bits_inj'. intros i Hi. rewrite Z.land_spec, Z.bits_0, Z.pow2_bits_eqb by done.
  destruct (Z.eqb_spec k i) as [->|]; [by rewrite Hb|by rewrite andb_false_r].
Qed.

Lemma lor_set x k : 0 ≤ k → Z.testbit x k = false → Z.lor x (2 ^ k) = x + 2 ^ k.
Proof.
  intros Hk Hb. rewrite <- lxor_set by done. symmetry. apply Z.lxor_lor.
  apply Z.bits_inj'. intros i Hi. rewrite Z.land_spec, Z.bits_0, Z.pow2_bits_eqb by done.
  destruct (Z.eqb_spec k i) as [->|]; [by rewrite Hb|by rewrite andb_false_r].
Qed.

Lemma land_not32 x k :
  is_u32 x → 0 ≤ k < 32 →
  Z.land x (not32 (2 ^ k)) = if Z.testbit x k then x - 2 ^ k else x.
Proof.
  intros Hx Hk. unfold not32, u32_max.
  change (2 ^ 32 - 1) with (Z.ones 32).
  rewrite <- lxor_clear by (try apply Z.ones_spec_low; lia).
  assert (Z.land x (Z.ones 32) = x) as Hm by (rewrite Z.land_ones by lia; by apply Z.mod_small).
  assert (Z.land x (Z.lxor (Z.ones 32) (2 ^ k)) = Z.ldiff x (2 ^ k)) as ->.
  { apply Z.bits_inj'. intros i Hi. rewrite <- Hm at 2.
    rewrite Z.land_spec, Z.ldiff_spec, Z.lxor_spec, Z.land_spec, Z.pow2_bits_eqb by lia.
    destruct (Z.eqb_spec k i) as [->|].
    - rewrite Z.ones_spec_low by lia. by rewrite andb_false_r, andb_false_r.
    - by rewrite xorb_false_r, andb_true_r. }
  destruct (Z.testbit x k) eqn:E.
  - rewrite <- lxor_clear by (done || lia). apply Z.bits_inj'. intros i Hi.
    rewrite Z.lxor_spec, Z.ldiff_spec, Z.pow2_bits_eqb by lia.
    destruct (Z.eqb_spec k i) as [->|]; [by rewrite E|by rewrite xorb_false_r, andb_true_r].
  - apply Z.bits_inj'. intros i Hi. rewrite Z.ldiff_spec, Z.pow2_bits_eqb by lia.
    destruct (Z.eqb_spec k i) as [->|]; [by rewrite E|by rewrite andb_true_r].
Qed.

(** ** The routines on the abstract tree *)
Lemma left_node k j : 0 ≤ k ≤ 30 → 0 ≤ j → left_unchecked (node (k + 1) j) = node k (2 * j).
Proof.
  intros Hk Hj. unfold left_unchecked. rewrite trailing_ones_node by lia.
  rewrite u32_small by (unfold is_u32; lia). rewrite shl32_1 by lia.
  replace (k + 1 - 1) with k by lia. rewrite lxor_clear; [|lia|].
  - unfold node. rewrite (pow2_succ (k + 1)), (pow2_succ k) by lia. lia.
  - rewrite node_testbit by lia. by rewrite (proj2 (Z.ltb_lt _ _)) by lia.
Qed.

Lemma shl32_3 k : 0 ≤ k ≤ 30 → shl32 3 k = Z.lxor (2 ^ k) (2 ^ (k + 1)).
Proof.
  intros. unfold shl32. rewrite Z.mod_small, Z.shiftl_mul_pow2 by lia.
  rewrite lxor_set by (try (rewrite Z.pow2_bits_false by lia); lia || done).
  rewrite pow2_succ by lia. rewrite u32_small; [lia|]. unfold is_u32.
  pose proof (pow2_pos k). assert (2 ^ k ≤ 2 ^ 30) by (apply Z.pow_le_mono_r; lia). lia.
Qed.

Lemma right_node k j : 0 ≤ k ≤ 30 → 0 ≤ j → right_unchecked (node (k + 1) j) = node k (2 * j + 1).
Proof.
  intros Hk Hj. unfold right_unchecked. rewrite trailing_ones_node by lia.
  rewrite u32_small by (unfold is_u32; lia). replace (k + 1 - 1) with k by lia.
  rewrite shl32_3 by lia. rewrite <- Z.lxor_assoc, (lxor_clear _ k); [|lia|].
  - replace (node (k + 1) j - 2 ^ k) with (node k (2 * j)).
    2:{ unfold node. rewrite (pow2_succ (k + 1)), (pow2_succ k) by lia. lia. }
    rewrite lxor_set; [|lia|].
    + unfold node. ring.
    + rewrite node_testbit by lia.
      destruct (Z.ltb_spec (k + 1) k); [lia|]. destruct (Z.eqb_spec (k + 1) k); [lia|].
      rewrite Z.sub_diag. apply Z.testbit_even_0.
  - rewrite node_testbit by lia. by rewrite (proj2 (Z.ltb_lt _ _)) by lia.
Qed.

Lemma root_pow d : 0 ≤ d ≤ 31 → root (2 ^ d) = node d 0.
Proof.
  intros. unfold root, node. pose proof (pow2_pos d).
  assert (2 ^ d ≤ 2 ^ 31) by (apply Z.pow_le_mono_r; lia).
  rewrite u32_small; [lia|unfold is_u32; lia].
Qed.

Lemma parent_index k j :
  is_u32 (node k j) → 0 ≤ k ≤ 30 → 0 ≤ j →
  Z.lor (Z.land (node k j) (not32 (shl32 1 (k + 1)))) (shl32 1 k) = node (k + 1) (j / 2).
Proof.
  intros Hu Hk Hj. rewrite !shl32_1, land_not32 by (done || lia).
  assert (∀ m, node k j = node k (2 * m) → Z.lor (node k j) (2 ^ k) = node (k + 1) m) as Hset.
  { intros m ->. rewrite lor_set; [|lia|].
    - unfold node. rewrite (pow2_succ (k + 1)), (pow2_succ k) by lia. lia.
    - rewrite node_testbit by lia. destruct (Z.ltb_spec k k); [lia|]. by rewrite Z.eqb_refl. }
  rewrite node_testbit by lia. destruct (Z.ltb_spec (k + 1) k); [lia|].
  destruct (Z.eqb_spec (k + 1) k); [lia|]. rewrite Z.sub_diag, Z.bit0_odd.
  pose proof (Z.div_mod j 2 ltac:(lia)) as Hdm. rewrite Zmod_odd in Hdm. destruct (Z.odd j).
  - replace (node k j - 2 ^ (k + 1)) with (node k (2 * (j / 2))) by (unfold node; nia).
    rewrite lor_set; [|lia|].
    + unfold node. rewrite (pow2_succ (k + 1)), (pow2_succ k) by lia. lia.
    + rewrite node_testbit by lia. destruct (Z.ltb_spec k k); [lia|]. by rewrite Z.eqb_refl.
  - apply Hset. f_equal. lia.
Qed.

Lemma node_lt_parent k j : 0 ≤ k → 0 ≤ j → (node k j <? node (k + 1) (j / 2)) = Z.even j.
Proof.
  intros. pose proof (Z.div_mod j 2 ltac:(lia)) as Hdm. rewrite Zmod_odd in Hdm.
  rewrite <- Z.negb_odd. pose proof (pow2_pos k). unfold node.
  rewrite (pow2_succ (k + 1)), (pow2_succ k) by lia.
  destruct (Z.odd j), (Z.ltb_spec (j * (2 * 2 ^ k) + 2 ^ k - 1) (j / 2 * (2 * (2 * 2 ^ k)) + 2 * 2 ^ k - 1));
    simpl; try done; exfalso; nia.
Qed.

Lemma parent_sibling_node d k j :
  0 ≤ d ≤ 31 → in_tree d k j →
  parent_sibling (node k j) (2 ^ d) =
    if k =? d then None
    else Some {| parent := node (k + 1) (j / 2); sibling := node k (sib j) |}.
Proof.
  intros Hd Hj. pose proof (node_u32 d k j Hd Hj) as Hu. destruct Hj as [Hk Hj].
  unfold parent_sibling. rewrite root_pow by done.
  destruct (Z.eqb_spec k d) as [->|Hne].
  - rewrite Z.sub_diag in Hj. assert (j = 0) as -> by lia. by rewrite Z.eqb_refl.
  - destruct (Z.eqb_spec (node k j) (node d 0)) as [E|_].
    { apply node_inj in E; lia. }
    rewrite trailing_ones_node, parent_index, node_lt_parent by (done || lia).
    f_equal. f_equal. unfold sib. assert (0 ≤ j / 2) by (apply Z.div_pos; lia).
    pose proof (Z.div_mod j 2 ltac:(lia)) as Hdm. rewrite Zmod_odd, <- Z.negb_even in Hdm.
    destruct (Z.even j); simpl in Hdm.
    + rewrite right_node by lia. f_equal. lia.
    + rewrite left_node by lia. f_equal. lia.
Qed.

Lemma in_tree_parent d k j : in_tree d k j → k ≠ d → in_tree d (k + 1) (j / 2).
Proof.
  intros [Hk Hj] Hne. split; [lia|]. split; [apply Z.div_pos; lia|].
  apply Z.div_lt_upper_bound; [lia|]. rewrite <- pow2_succ by lia.
  replace (d - (k + 1) + 1) with (d - k) by lia. lia.
Qed.

Lemma in_tree_sib d k j : in_tree d k j → k ≠ d → in_tree d k (sib j).
Proof.
  intros [Hk Hj] Hne. split; [lia|]. unfold sib.
  replace (d - k) with (d - k - 1 + 1) in * by lia. rewrite pow2_succ in * by lia.
  destruct (Z.even j) eqn:E.
  - apply Z.even_spec in E as [m ->]. lia.
  - rewrite <- Z.negb_odd in E. apply negb_false_iff, Z.odd_spec in E as [m ->]. lia.
Qed.

Lemma sib_invol j : sib (sib j) = j.
Proof.
  unfold sib. destruct (Z.even j) eqn:E.
  - rewrite Z.even_add, E. simpl. lia.
  - rewrite Z.even_sub, E. simpl. lia.
Qed.

Lemma sib_unique x y : x ≠ y → x / 2 = y / 2 → sib x = y.
Proof.
  intros Hne Heq. unfold sib. destruct (Z.even x) eqn:E.
  - apply Z.even_spec in E as [m ->]. Z.div_mod_to_equations. lia.
  - rewrite <- Z.negb_odd in E. apply negb_false_iff, Z.odd_spec in E as [m ->]. Z.div_mod_to_equations. lia.
Qed.

Lemma sib_div2 j : sib j / 2 = j / 2.
Proof.
  unfold sib. destruct (Z.even j) eqn:E.
  - apply Z.even_spec in E as [m ->]. Z.div_mod_to_equations. lia.
  - rewrite <- Z.negb_odd in E. apply negb_false_iff, Z.odd_spec in E as [m ->].
    Z.div_mod_to_equations. lia.
Qed.

Lemma copath_spec_cons d k j :
  0 ≤ j → k < d →
  copath_spec d k j =
    {| path := node (k + 1) (j / 2); copath := node k (sib j) |} :: copath_spec d (k + 1) (j / 2).
Proof.
  intros Hj Hk. unfold copath_spec.
  replace (Z.to_nat (d - k)) with (S (Z.to_nat (d - (k + 1)))) by lia.
  cbn [seq fmap list_fmap]. f_equal.
  - f_equal; f_equal; rewrite ?Z.add_0_r, ?Z.div_1_r; done.
  - rewrite <- fmap_S_seq, <- list_fmap_compose. apply list_fmap_ext. intros _ i _. unfold compose.
    rewrite Nat2Z.inj_succ. f_equal; f_equal; try lia.
    + rewrite Z.div_div by (try lia; apply Z.pow_pos_nonneg; lia).
      f_equal. rewrite (Z.add_comm _ 1), <- Z.pow_succ_r by lia. f_equal. lia.
    + f_equal. rewrite Z.div_div by (try lia; apply Z.pow_pos_nonneg; lia).
      f_equal. by rewrite <- Z.pow_succ_r by lia.
Qed.

(** 32 rounds always reach the root, and more rounds change nothing. *)
Lemma copath_loop_node d fuel k j :
  0 ≤ d ≤ 31 → in_tree d k j → d - k < Z.of_nat fuel →
  copath_loop fuel (node k j) (2 ^ d) = copath_spec d k j.
Proof.
  intros Hd. revert k j. induction fuel as [|fuel IH]; intros k j Hj Hf; [destruct Hj; lia|].
  cbn [copath_loop]. rewrite parent_sibling_node by done. destruct (Z.eqb_spec k d) as [->|Hne].
  - unfold copath_spec. by rewrite Z.sub_diag.
  - cbn [parent sibling]. destruct Hj as [Hk Hj]. rewrite copath_spec_cons by lia. f_equal.
    apply IH; [by apply in_tree_parent|lia].
Qed.

Lemma direct_copath_node d k j :
  0 ≤ d ≤ 31 → in_tree d k j → direct_copath (node k j) (2 ^ d) = copath_spec d k j.
Proof.
  intros Hd Hj. unfold direct_copath, is_in_tree. rewrite root_pow by done.
  pose proof (node_bound d k j Hd Hj). pose proof (pow2_pos d). pose proof Hj as [Hk _].
  assert (2 ^ d ≤ 2 ^ 31) by (apply Z.pow_le_mono_r; lia).
  rewrite u32_small by (unfold is_u32, node; lia).
  destruct (Z.leb_spec (node k j) (2 * node d 0)) as [_|Hlt].
  - apply copath_loop_node; [done|done|lia].
  - unfold node in Hlt at 1. rewrite pow2_succ in * by lia. unfold node in *. lia.
Qed.

Lemma copath_spec_lookup d k j (p : nat) :
  copath_spec d k j !! p =
    if decide (Z.of_nat p < d - k)
    then Some {| path := node (k + 1 + Z.of_nat p) (j / 2 ^ (Z.of_nat p + 1));
                 copath := node (k + Z.of_nat p) (sib (j / 2 ^ Z.of_nat p)) |}
    else None.
Proof.
  unfold copath_spec. rewrite list_lookup_fmap. case_decide.
  - by rewrite lookup_seq_lt by lia.
  - by rewrite lookup_seq_ge by lia.
Qed.

Lemma length_copath_spec d k j : length (copath_spec d k j) = Z.to_nat (d - k).
Proof. unfold copath_spec. by rewrite length_fmap, length_seq. Qed.

Lemma elem_of_copath_spec d k j c :
  c ∈ copath_spec d k j ↔
  ∃ p, 0 ≤ p < d - k ∧ path c = node (k + 1 + p) (j / 2 ^ (p + 1)) ∧ copath c = node (k + p) (sib (j / 2 ^ p)).
Proof.
  rewrite list_elem_of_lookup. setoid_rewrite copath_spec_lookup. split.
  - intros [p Hp]. case_decide; simplify_eq/=. exists (Z.of_nat p). split_and!; done || lia.
  - intros (p & Hp & H1 & H2). exists (Z.to_nat p). rewrite !Z2Nat.id by lia.
    rewrite decide_True by lia. destruct c; simpl in *. by subst.
Qed.

Lemma in_tree_up d i p : 0 ≤ p ≤ d → 0 ≤ i < 2 ^ d → in_tree d p (i / 2 ^ p).
Proof.
  intros Hp Hi. split; [lia|]. split; [apply Z.div_pos; [lia|apply pow2_pos; lia]|].
  apply Z.div_lt_upper_bound; [apply pow2_pos; lia|].
  rewrite <- Z.pow_add_r by lia. replace (p + (d - p)) with d by lia. lia.
Qed.

(** Positions on the direct path and the copath of a leaf are in the tree. *)
Lemma copath_in_tree d i c :
  0 ≤ i < 2 ^ d → c ∈ copath_spec d 0 i →
  ∃ p, 0 ≤ p < d ∧ path c = node (p + 1) (i / 2 ^ (p + 1)) ∧ in_tree d (p + 1) (i / 2 ^ (p + 1)) ∧
    copath c = node p (sib (i / 2 ^ p)) ∧ in_tree d p (sib (i / 2 ^ p)).
Proof.
  intros Hi (p & Hp & H1 & H2)%elem_of_copath_spec. exists p.
  rewrite Z.add_0_l in *. rewrite (Z.add_comm 1 p) in H1. split_and!; try done; try lia.
  - apply in_tree_up; lia.
  - apply in_tree_sib; [apply in_tree_up|]; lia.
Qed.

(** ** Lowest common ancestors and subtrees *)
Lemma lca_loop_spec fuel n x y k :
  0 ≤ x < 2 ^ Z.of_nat n → 0 ≤ y < 2 ^ Z.of_nat n → (n ≤ fuel)%nat →
  ∃ m, lca_loop fuel x y k = k + m ∧ 0 ≤ m ≤ Z.of_nat n ∧ x / 2 ^ m = y / 2 ^ m ∧
    ∀ m', 0 ≤ m' < m → x / 2 ^ m' ≠ y / 2 ^ m'.
Proof.
  revert n x y k. induction fuel as [|fuel IH]; intros n x y k Hx Hy Hn.
  - assert (n = 0)%nat as -> by lia. exists 0. simpl in *. split_and!; try lia. f_equal. lia.
  - cbn [lca_loop]. destruct (Z.eqb_spec x y) as [->|Hne].
    { exists 0. split_and!; try done; try lia; intros; lia. }
    destruct n as [|n]; [simpl in *; lia|].
    rewrite Nat2Z.inj_succ, Z.pow_succ_r in Hx, Hy by lia.
    rewrite !Z.shiftr_div_pow2 by lia. change (2 ^ 1) with 2.
    destruct (IH n (x / 2) (y / 2) (k + 1)) as (m & -> & Hm & Heq & Hlt).
    { Z.div_mod_to_equations; lia. }
    { Z.div_mod_to_equations; lia. }
    { lia. }
    assert (∀ z q, 0 ≤ q → z / 2 / 2 ^ q = z / 2 ^ (q + 1)) as Hdd.
    { intros z q Hq. rewrite Z.div_div by (try apply pow2_pos; lia). by rewrite pow2_succ. }
    exists (m + 1). split_and!; [lia|lia|lia|by rewrite <- !Hdd by lia|].
    intros m' Hm'. destruct (decide (m' = 0)) as [->|]; [by rewrite !Z.div_1_r|].
    replace m' with (m' - 1 + 1) by lia. rewrite <- !Hdd by lia. apply Hlt. lia.
Qed.

Lemma double_div i m : 0 ≤ m → (2 * i) / 2 ^ (m + 1) = i / 2 ^ m.
Proof.
  intros. rewrite pow2_succ by done. rewrite Z.div_mul_cancel_l; [done| |lia]. pose proof (pow2_pos m). lia.
Qed.

(** The level the code computes from two leaf positions, less two, is the place
    on either direct path where the lowest common ancestor sits. *)
Lemma leaf_lca_level_spec d i j :
  0 ≤ d ≤ 31 → 0 ≤ i < 2 ^ d → 0 ≤ j < 2 ^ d → i ≠ j →
  ∃ p, leaf_lca_level (2 * i) (2 * j) = p + 2 ∧ 0 ≤ p < d ∧
    i / 2 ^ (p + 1) = j / 2 ^ (p + 1) ∧ ∀ q, 0 ≤ q ≤ p → i / 2 ^ q ≠ j / 2 ^ q.
Proof.
  intros Hd Hi Hj Hne. unfold leaf_lca_level.
  destruct (lca_loop_spec 32 (Z.to_nat (d + 1)) (2 * i) (2 * j) 0) as (m & -> & Hm & Heq & Hlt).
  1,2: rewrite Z2Nat.id, pow2_succ by lia; lia.
  { lia. }
  rewrite Z2Nat.id in Hm by lia.
  assert (m ≠ 0) by (intros ->; rewrite !Z.div_1_r in Heq; lia).
  assert (m ≠ 1).
  { intros ->. rewrite Z.pow_1_r in Heq. Z.div_mod_to_equations; lia. }
  exists (m - 2). split_and!; [lia|lia|lia| |].
  - replace m with (m - 2 + 1 + 1) in Heq by lia. by rewrite !double_div in Heq by lia.
  - intros q Hq. rewrite <- (double_div i q), <- (double_div j q) by lia. apply Hlt. lia.
Qed.

Lemma subtree_node d k j :
  0 ≤ d ≤ 31 → in_tree d k j → subtree (node k j) = (j * 2 ^ k, (j + 1) * 2 ^ k).
Proof.
  intros Hd Hj. pose proof (node_bound d k j Hd Hj) as Hb. destruct Hj as [Hk Hj].
  pose proof (pow2_pos k ltac:(lia)). assert (2 ^ (d + 1) ≤ 2 ^ 32) by (apply Z.pow_le_mono_r; lia).
  assert (node k j + 2 ^ k < 2 ^ 32) as Hlt.
  { assert (2 ^ (d + 1) = 2 ^ (d - k) * 2 ^ (k + 1)) as Hp by (rewrite <- Z.pow_add_r by lia; f_equal; lia).
    unfold node. pose proof (pow2_succ k ltac:(lia)). pose proof (pow2_pos (k + 1) ltac:(lia)). nia. }
  unfold subtree. rewrite trailing_ones_node, shl32_1 by lia.
  unfold node in *. rewrite (pow2_succ k) in * by lia. assert (0 ≤ j) as Hj0 by lia. clear Hj.
  rewrite (u32_small (j * (2 * 2 ^ k) + 2 ^ k - 1 + 1 - 2 ^ k)),
    (u32_small (j * (2 * 2 ^ k) + 2 ^ k - 1 + 2 ^ k)) by (unfold is_u32; nia).
  rewrite !Z.shiftr_div_pow2 by lia. change (2 ^ 1) with 2. f_equal.
  - replace (j * (2 * 2 ^ k) + 2 ^ k - 1 + 1 - 2 ^ k) with (j * 2 ^ k * 2) by lia.
    by apply Z.div_mul.
  - replace (j * (2 * 2 ^ k) + 2 ^ k - 1 + 2 ^ k) with ((j * 2 ^ k + 2 ^ k - 1) * 2 + 1) by lia.
    rewrite Z.div_add_l by lia. rewrite Z.add_0_r. rewrite u32_small by (unfold is_u32; nia). lia.
Qed.

(** ** Breadth-first order *)
Definition bfs_level (k : Z) (e : nat) : list Z := (λ j : nat, node k (Z.of_nat j)) <$> seq 0 e.

(** Level [k] and those below it, when level [k] has [e] nodes. *)
Fixpoint bfs_spec (k e : nat) : list Z :=
  bfs_level (Z.of_nat k) e ++ match k with O => [] | S k => bfs_spec k (2 * e) end.

Lemma bfs_emit k j : 0 ≤ k → 0 ≤ j → Z.lor (Z.shiftl j (k + 1)) (2 ^ k - 1) = node k j.
Proof.
  intros. replace (2 ^ k - 1) with (Z.ones k) by (rewrite Z.ones_equiv; lia).
  apply Z.bits_inj'. intros i Hi. rewrite Z.lor_spec, node_testbit, Z.shiftl_spec by lia.
  destruct (Z.ltb_spec i k).
  - rewrite Z.ones_spec_low by lia. by rewrite orb_true_r.
  - rewrite Z.ones_spec_high, orb_false_r by lia. destruct (Z.eqb_spec i k); [|done].
    apply Z.testbit_neg_r. lia.
Qed.

Lemma bfs_next_level fuel k (c n e : nat) :
  (c + n = e)%nat →
  bfs_collect (n + fuel) {| level := k + 1; mask := 2 ^ k - 1; level_end := Z.of_nat e; ctr := Z.of_nat c |} =
  ((λ j : nat, Z.lor (Z.shiftl (Z.of_nat j) (k + 1)) (2 ^ k - 1)) <$> seq c n) ++
  bfs_collect fuel {| level := k + 1; mask := 2 ^ k - 1; level_end := Z.of_nat e; ctr := Z.of_nat e |}.
Proof.
  revert c. induction n as [|n IH]; intros c Hc; [by assert (c = e) as -> by lia|].
  cbn [Nat.add bfs_collect]. unfold bfs_next at 1. cbn [ctr level_end level mask].
  destruct (Z.eqb_spec (Z.of_nat c) (Z.of_nat e)); [lia|].
  cbn [seq fmap list_fmap app]. f_equal.
  replace (Z.of_nat c + 1) with (Z.of_nat (S c)) by lia. apply IH. lia.
Qed.

Lemma bfs_collect_spec (k e fuel : nat) :
  (0 < e)%nat → (length (bfs_spec k e) < fuel)%nat →
  bfs_collect fuel
    {| level := Z.of_nat k + 1; mask := 2 ^ Z.of_nat k - 1; level_end := Z.of_nat e; ctr := 0 |} =
  bfs_spec k e.
Proof.
  revert e fuel. induction k as [|k IH]; intros e fuel He Hf; cbn [bfs_spec] in *;
    rewrite length_app in Hf; unfold bfs_level in Hf at 1; rewrite length_fmap, length_seq in Hf;
    replace fuel with (e + (fuel - e))%nat by lia; rewrite (bfs_next_level _ _ 0 e e) by lia;
    (f_equal; [apply list_fmap_ext; intros _ j _; apply bfs_emit; lia|]);
    destruct (fuel - e)%nat as [|m] eqn:Em; try lia;
    cbn [bfs_collect]; unfold bfs_next; cbn [ctr level_end level mask]; rewrite Z.eqb_refl.
  - done.
  - destruct (Z.eqb_spec (Z.of_nat (S k) + 1) 1); [lia|].
    rewrite <- (IH (2 * e)%nat (S m)) by lia. cbn [bfs_collect]. unfold bfs_next. cbn [ctr level_end level mask].
    destruct (Z.eqb_spec 0 (Z.of_nat (2 * e))); [lia|].
    replace (Z.of_nat (S k) + 1 - 1) with (Z.of_nat k + 1) by lia.
    replace (Z.shiftr (2 ^ Z.of_nat (S k) - 1) 1) with (2 ^ Z.of_nat k - 1).
    2:{ rewrite Z.shiftr_div_pow2, Nat2Z.inj_succ, Z.pow_succ_r by lia. change (2 ^ 1) with 2.
        Z.div_mod_to_equations; lia. }
    replace (Z.lor (Z.shiftl (Z.of_nat e - 1) 1) 1 + 1) with (Z.of_nat (2 * e)); [done|].
    rewrite Z.shiftl_mul_pow2 by lia. pose proof (lor_set ((Z.of_nat e - 1) * 2 ^ 1) 0) as Hl.
    change (2 ^ 0) with 1 in Hl. rewrite Hl; [lia|lia|]. rewrite Z.mul_comm. apply Z.testbit_even_0.
Qed.

(** ** Properties *)

(** Parent and child arithmetic is that of a perfect binary tree: a node
    that is not the root has a parent whose two children are the node and its
    sibling, in the order of their positions; the root has no parent.  The bit
    operations neither overflow nor leave the tree. *)
Theorem parent_sibling_correct d k j :
  0 ≤ d ≤ 31 → in_tree d k j →
  match parent_sibling (node k j) (2 ^ d) with
  | None => node k j = root (2 ^ d)
  | Some ps =>
      node k j ≠ root (2 ^ d) ∧
      in_tree d (k + 1) (j / 2) ∧ parent ps = node (k + 1) (j / 2) ∧
      is_leaf (parent ps) = false ∧
      in_tree d k (sib j) ∧ sibling ps = node k (sib j) ∧
      left (parent ps) = Some (Z.min (node k j) (sibling ps)) ∧
      right (parent ps) = Some (Z.max (node k j) (sibling ps))
  end.
Proof.
  intros Hd Hj. rewrite parent_sibling_node, root_pow by done. pose proof Hj as [Hk Hj'].
  destruct (Z.eqb_spec k d) as [->|Hne].
  - rewrite Z.sub_diag in Hj'. by assert (j = 0) as -> by lia.
  - assert (is_leaf (node (k + 1) (j / 2)) = false) as Hleaf.
    { unfold is_leaf. rewrite node_S by lia. change 1 with (Z.ones 1) at 2.
      rewrite Z.land_ones by lia. change (2 ^ 1) with 2.
      rewrite Z.add_comm, Z.mul_comm, Z.mod_add by lia. done. }
    assert (0 ≤ j / 2) by (apply Z.div_pos; lia).
    cbn [parent sibling]. unfold left, right. rewrite Hleaf, left_node, right_node by lia.
    pose proof (pow2_pos (k + 1) ltac:(lia)).
    split_and!; try done.
    + intros E. apply node_inj in E; lia.
    + by apply in_tree_parent.
    + by apply in_tree_sib.
    + f_equal. unfold sib. destruct (Z.even j) eqn:E.
      * apply Z.even_spec in E as [m ->].
        replace (2 * m / 2) with m by (Z.div_mod_to_equations; lia). unfold node. nia.
      * rewrite <- Z.negb_odd in E. apply negb_false_iff, Z.odd_spec in E as [m ->].
        replace ((2 * m + 1) / 2) with m by (Z.div_mod_to_equations; lia). unfold node. nia.
    + f_equal. unfold sib. destruct (Z.even j) eqn:E.
      * apply Z.even_spec in E as [m ->].
        replace (2 * m / 2) with m by (Z.div_mod_to_equations; lia). unfold node. nia.
      * rewrite <- Z.negb_odd in E. apply negb_false_iff, Z.odd_spec in E as [m ->].
        replace ((2 * m + 1) / 2) with m by (Z.div_mod_to_equations; lia). unfold node. nia.
Qed.

Lemma parent_sibling_correct_witness :
  parent_sibling 5 4 = Some {| parent := 3; sibling := 1 |} ∧ left 3 = Some (Z.min 5 1) ∧ right 3 = Some (Z.max 5 1).
Proof.
  split; [reflexivity|].
  destruct (parent_sibling_correct 2 1 1 ltac:(lia)) as (_ & _ & _ & _ & _ & _ & Hl & Hr).
  - split; [lia|]. simpl. lia.
  - split; [exact Hl|exact Hr].
Defined.

(** [direct_copath] returns, for every node of the tree and within its
    32 rounds, the path from the node to the root with the sibling of each step:
    [d - k] entries, the last one the root. *)
Theorem direct_copath_correct d k j :
  0 ≤ d ≤ 31 → in_tree d k j →
  direct_copath (node k j) (2 ^ d) = copath_spec d k j ∧
  len (direct_copath (node k j) (2 ^ d)) = d - k ∧
  (k < d → path <$> last (direct_copath (node k j) (2 ^ d)) = Some (root (2 ^ d))).
Proof.
  intros Hd Hj. rewrite direct_copath_node by done. pose proof Hj as [Hk Hj']. split_and!; [done|..].
  - unfold len. rewrite length_copath_spec. lia.
  - intros Hlt. rewrite last_lookup, length_copath_spec, copath_spec_lookup.
    rewrite decide_True by lia. cbn. rewrite root_pow by done. do 2 f_equal; [lia|].
    apply Z.div_small. replace (Z.of_nat (Nat.pred (Z.to_nat (d - k))) + 1) with (d - k) by lia. lia.
Qed.

Lemma direct_copath_correct_witness :
  len (direct_copath 4 8) = 3 ∧ path <$> last (direct_copath 4 8) = Some 7.
Proof.
  destruct (direct_copath_correct 3 0 2) as (_ & Hl & Hr); [lia|split; simpl; lia|].
  split; [exact Hl|exact (Hr ltac:(lia))].
Defined.

(** For two different leaves, entry [leaf_lca_level - 2] of either direct
    path is the lowest common ancestor: the paths agree there and differ below,
    and the copath entry of one leaf there is the ancestor-or-self of the
    other. *)
Theorem leaf_lca_correct d i j :
  0 ≤ d ≤ 31 → 0 ≤ i < 2 ^ d → 0 ≤ j < 2 ^ d → i ≠ j →
  ∃ p : nat, leaf_lca_level (2 * i) (2 * j) - 2 = Z.of_nat p ∧ Z.of_nat p < d ∧
    path <$> (direct_copath (2 * i) (2 ^ d) !! p) = path <$> (direct_copath (2 * j) (2 ^ d) !! p) ∧
    (∀ q : nat, (q < p)%nat →
       path <$> (direct_copath (2 * i) (2 ^ d) !! q) ≠ path <$> (direct_copath (2 * j) (2 ^ d) !! q)) ∧
    copath <$> (direct_copath (2 * i) (2 ^ d) !! p) = Some (node (Z.of_nat p) (j / 2 ^ Z.of_nat p)).
Proof.
  intros Hd Hi Hj Hne. destruct (leaf_lca_level_spec d i j) as (p & Hl & Hp & Heq & Hlt); try done.
  rewrite <- !node_0, !direct_copath_node by (done || split; rewrite ?Z.sub_0_r; lia).
  exists (Z.to_nat p). rewrite !copath_spec_lookup, !Z2Nat.id by lia. rewrite !node_0.
  rewrite !decide_True by lia. cbn [fmap option_fmap option_map path copath]. split_and!; [lia|lia| | |].
  - by rewrite Heq.
  - intros q Hq. rewrite !copath_spec_lookup, !decide_True by lia. cbn. intros [= E].
    apply node_inj in E as [_ E]; try lia; [|apply Z.div_pos; [lia|apply pow2_pos; lia]..].
    apply (Hlt (Z.of_nat q + 1)); [lia|done].
  - do 2 f_equal. assert (i / 2 ^ p ≠ j / 2 ^ p) as Hpne by (apply Hlt; lia).
    assert (∀ z, z / 2 ^ (p + 1) = z / 2 ^ p / 2) as Hdd.
    { intros z. rewrite Z.div_div, (Z.mul_comm _ 2), <- pow2_succ by (try apply pow2_pos; lia). done. }
    rewrite !Hdd in Heq. by apply sib_unique.
Qed.

Lemma leaf_lca_correct_witness :
  ∃ p : nat, leaf_lca_level (2 * 1) (2 * 6) - 2 = Z.of_nat p ∧ Z.of_nat p < 3 ∧
    path <$> (direct_copath (2 * 1) (2 ^ 3) !! p) = path <$> (direct_copath (2 * 6) (2 ^ 3) !! p) ∧
    (∀ q : nat, (q < p)%nat →
       path <$> (direct_copath (2 * 1) (2 ^ 3) !! q) ≠ path <$> (direct_copath (2 * 6) (2 ^ 3) !! q)) ∧
    copath <$> (direct_copath (2 * 1) (2 ^ 3) !! p) = Some (node (Z.of_nat p) (6 / 2 ^ Z.of_nat p)).
Proof. apply (leaf_lca_correct 3 1 6); lia. Defined.

(** [subtree] gives exactly the leaves below a node: a leaf is in the
    half-open range iff the node is the leaf itself or on its direct path. *)
Theorem subtree_correct d k j i :
  0 ≤ d ≤ 31 → in_tree d k j → 0 ≤ i < 2 ^ d →
  (subtree (node k j)).1 ≤ i < (subtree (node k j)).2 ↔
  node k j = 2 * i ∨ node k j ∈ path <$> direct_copath (2 * i) (2 ^ d).
Proof.
  intros Hd Hj Hi. rewrite (subtree_node d k j) by done. cbn [fst snd].
  pose proof Hj as [Hk Hj']. pose proof (pow2_pos k ltac:(lia)) as Hpk.
  assert (j * 2 ^ k ≤ i < (j + 1) * 2 ^ k ↔ i / 2 ^ k = j) as ->.
  { split.
    - intros Hr. symmetry. apply Z.div_unique with (i - j * 2 ^ k); lia.
    - intros <-. pose proof (Z.div_mod i (2 ^ k) ltac:(lia)). pose proof (Z.mod_pos_bound i (2 ^ k) Hpk). lia. }
  rewrite <- !node_0. rewrite direct_copath_node by (done || split; rewrite ?Z.sub_0_r; lia).
  rewrite list_elem_of_fmap. split.
  - intros <-. destruct (decide (k = 0)) as [->|]; [left; by rewrite Z.div_1_r|]. right.
    exists {| path := node k (i / 2 ^ k); copath := node (k - 1) (sib (i / 2 ^ (k - 1))) |}.
    split; [done|]. apply elem_of_copath_spec. exists (k - 1).
    replace (0 + 1 + (k - 1)) with k by lia. replace (k - 1 + 1) with k by lia.
    rewrite Z.add_0_l. split_and!; done || lia.
  - intros [E|(c & E & (p & Hp & Hc & _)%elem_of_copath_spec)].
    + apply node_inj in E as [-> ->]; try lia. by rewrite Z.div_1_r.
    + rewrite <- E in Hc. clear E.
      assert (0 ≤ i / 2 ^ (p + 1)) by (apply Z.div_pos; [lia|apply pow2_pos; lia]).
      apply node_inj in Hc as [-> ->]; try lia. f_equal. f_equal. lia.
Qed.

Lemma subtree_correct_witness :
  (subtree 9).1 ≤ 5 < (subtree 9).2 ↔ 9 = 2 * 5 ∨ 9 ∈ path <$> direct_copath (2 * 5) (2 ^ 3).
Proof. apply (subtree_correct 3 1 2 5); [lia|split; simpl; lia|lia]. Defined.

(** The breadth-first iterator visits the nodes of the tree level by
    level from the root, each once, and then ends. *)
Theorem bfs_correct (d fuel : nat) :
  (d ≤ 31)%nat → (length (bfs_spec d 1) < fuel)%nat →
  bfs_collect fuel (bfs_new (2 ^ Z.of_nat d)) = bfs_spec d 1.
Proof.
  intros Hd Hf. unfold bfs_new. rewrite trailing_zeros_pow2, Z.shiftl_1_l by lia.
  by apply (bfs_collect_spec d 1 fuel); [lia|].
Qed.

Lemma bfs_correct_witness :
  bfs_collect 16 (bfs_new (2 ^ Z.of_nat 3)) = [7; 3; 11; 1; 5; 9; 13; 0; 2; 4; 6; 8; 10; 12; 14].
Proof. apply (bfs_correct 3 16); [lia|]. vm_compute. lia. Defined.

End TreeMath.
