(* ===== verification/Types.v ===== *)
(** * Errors and leaf data (mls-rs/src/client.rs, mls-rs-core, tree_kem/leaf_node.rs)

    The error type of the crate, the contents of a leaf of the ratchet tree with
    their wire formats, extension lists, and lifetimes.  A newtype over an
    integer or a byte string is that integer or byte string. *)
From S2P Require Import Prelude Codec.

(** [AnyError]: the error of another layer, boxed: the codec's own errors, the
    error of an application-supplied provider, kept opaque, an [ExtensionError], or
    an error of the crate wrapped once more by [into_any_error].  [MlsError]: client.rs. *)
Inductive AnyError : Type :=
  | CodecAnyError (e : Codec.Error)
  | ProviderAnyError (payload : bytes)
  | ExtensionAnyError (e : ExtensionErr)
  | MlsAnyError (e : MlsError)
with ExtensionErr : Type :=
  | ExtSerializationError (e : AnyError)
  | ExtDeserializationError (e : AnyError)
  | IncorrectType (n : Z)
with MlsError : Type :=
  | IdentityProviderError (e : AnyError)
  | CryptoProviderError (e : AnyError)
  | KeyPackageRepoError (e : AnyError)
  | GroupStorageError (e : AnyError)
  | PskStoreError (e : AnyError)
  | MlsRulesError (e : AnyError)
  | SerializationError (e : AnyError)
  | ExtensionError (e : AnyError)
  | CipherSuiteMismatch
  | CommitMissingPath
  | InvalidEpoch
  | InvalidSignature
  | InvalidConfirmationTag
  | InvalidMembershipTag
  | InvalidTreeKemPrivateKey
  | WelcomeKeyPackageNotFound
  | LeafNotFound (n : Z)
  | CantProcessMessageFromSelf
  | CommitRequired
  | RatchetTreeNotFound
  | ExternalSenderCannotCommit
  | UnsupportedProtocolVersion (n : Z)
  | ProtocolVersionMismatch
  | UnsupportedCipherSuite (n : Z)
  | UnknownSigningIdentityForExternalSender
  | ExternalProposalsDisabled
  | InvalidExternalSigningIdentity
  | MissingExternalPubExtension
  | EpochNotFound
  | UnencryptedApplicationMessage
  | ExpectedCommitForNewMemberCommit
  | ExpectedAddProposalForNewMemberProposal
  | ExternalCommitMissingExternalInit
  | GroupUsedAfterReInit
  | PendingReInitNotFound
  | ReInitExtensionsMismatch
  | SignerNotFound
  | ExistingPendingCommit
  | PendingCommitNotFound
  | UnexpectedMessageType
  | MembershipTagForNonMember
  | MemberNotFound
  | GroupNotFound
  | UnexpectedPskId
  | InvalidSender
  | GroupIdMismatch
  | NonZeroRetentionRequired
  | TooManyPskIds
  | MissingRequiredPsk
  | OldGroupStateNotFound
  | InvalidLeafConsumption
  | KeyMissing (n : Z)
  | InvalidFutureGeneration (n : Z)
  | LeafNodeNoChildren
  | LeafNodeNoParent
  | InvalidTreeIndex
  | TimeOverflow
  | InvalidLeafNodeSource
  | InvalidLifetime
  | RequiredExtensionNotFound (n : Z)
  | RequiredProposalNotFound (n : Z)
  | RequiredCredentialNotFound (n : Z)
  | ExtensionNotInCapabilities (n : Z)
  | ExpectedNode
  | InvalidNodeIndex (n : Z)
  | UnexpectedEmptyNode
  | DuplicateLeafData (n : Z)
  | InUseCredentialTypeUnsupportedByNewLeaf
  | CredentialTypeOfNewLeafIsUnsupported
  | WrongPathLen
  | SameHpkeKey (n : Z)
  | InvalidInitKey
  | InitLeafKeyEquality
  | DifferentIdentityInUpdate (n : Z)
  | PubKeyMismatch
  | TreeHashMismatch
  | UpdateErrorNoSecretKey
  | LcaNotFoundInDirectPath
  | ParentHashMismatch
  | UnmergedLeavesMismatch
  | UnexpectedEmptyTree
  | UnexpectedTrailingBlanks
  | InvalidCommitSelfUpdate
  | InvalidTypeOrUsageInPreSharedKeyProposal
  | InvalidPskNonceLength
  | InvalidProtocolVersionInReInit
  | MoreThanOneProposalForLeaf (n : Z)
  | MoreThanOneGroupContextExtensionsProposal
  | InvalidProposalTypeForSender
  | ExternalCommitMustHaveExactlyOneExternalInit
  | ExternalCommitMustHaveNewLeaf
  | ExternalCommitRemovesOtherIdentity
  | ExternalCommitWithMoreThanOneRemove
  | DuplicatePskIds
  | InvalidProposalTypeInExternalCommit (n : Z)
  | CommitterSelfRemoval
  | OnlyMembersCanCommitProposalsByRef
  | OtherProposalWithReInit
  | UnsupportedGroupExtension (n : Z)
  | UnsupportedCustomProposal (n : Z)
  | ProposalNotFound
  | RemovingNonExistingMember
  | InvalidSuccessor
  | UpdatingNonExistingMember
  | FailedGeneratingPathSecret
  | InvalidGroupInfo
  | InvalidWelcomeMessage.

(** [From<mls_rs_codec::Error> for MlsError]. *)
Definition from_codec_error {A} (r : Result Codec.Error A) : Result MlsError A :=
  map_err (λ e, SerializationError (CodecAnyError e)) r.

(** [From<ExtensionError> for MlsError]. *)
Definition from_extension_error {A} (r : Result ExtensionErr A) : Result MlsError A :=
  map_err (λ e, ExtensionError (ExtensionAnyError e)) r.

(** ** Extensions: mls-rs-core/src/extension.rs, extension/list.rs *)
Record Extension := { extension_type : Z; extension_data : bytes }.

#[global] Instance extension_eq_dec : EqDecision Extension.
Proof. solve_decision. Defined.

Definition extension_codec : MlsCodec Extension :=
  struct_codec (λ e, (extension_type e, extension_data e))
    (λ p, {| extension_type := p.1; extension_data := p.2 |})
    (tuple_codec u16_codec byte_vec_codec).

Module ExtensionList.

Definition t := list Extension.

Definition has_extension (l : t) (ty : Z) : bool :=
  existsb (λ e, extension_type e =? ty) l.

Fixpoint get (l : t) (ty : Z) : option Extension :=
  match l with
  | [] => None
  | e :: l => if extension_type e =? ty then Some e else get l ty
  end.

(** Replace the first entry of the same type, or append. *)
Fixpoint set (l : t) (ext : Extension) : t :=
  match l with
  | [] => [ext]
  | e :: l => if extension_type e =? extension_type ext then ext :: l else e :: set l ext
  end.

Definition remove (l : t) (ty : Z) : t :=
  List.filter (λ e, negb (extension_type e =? ty)) l.

Definition append (l others : t) : t := l ++ others.

(** [Extend]/[FromIterator]/[From<Vec<Extension>>]. *)
Definition extend (l others : t) : t := foldl set l others.
Definition from_vec (v : list Extension) : t := extend [] v.

(** [PartialEq]. *)
Definition eqb (l k : t) : bool :=
  (len l =? len k) &&
  forallb (λ e, bool_decide (get k (extension_type e) = Some e)) l.

(** The decoding loop, which rejects a second extension of a type. *)
Fixpoint decode_loop (fuel : nat) (l : t) (data : bytes) : Result Codec.Error t :=
  match data with
  | [] => Ok l
  | _ =>
      match fuel with
      | O => Diverge
      | S fuel =>
          '(ext, data) ← mls_decode extension_codec data;
          if has_extension l (extension_type ext) then Err (Custom 1)
          else decode_loop fuel (l ++ [ext]) data
      end
  end.

Definition codec : MlsCodec t := {|
  mls_encoded_len := iter_mls_encoded_len extension_codec;
  mls_encode := iter_mls_encode extension_codec;
  mls_decode := mls_decode_collection (λ data, decode_loop (length data) [] data);
|}.

End ExtensionList.

(** ** Identities: mls-rs-core/src/identity *)
Inductive Credential : Type :=
  | Basic (identifier : bytes)
  | X509 (chain : list bytes)
  | CustomCredential (credential_type : Z) (data : bytes).

#[global] Instance credential_eq_dec : EqDecision Credential.
Proof. solve_decision. Defined.

(** [CredentialType::BASIC], [CredentialType::X509]. *)
Definition BASIC : Z := 1.
Definition X509_TYPE : Z := 2.

(** [Credential::credential_type]. *)
Definition credential_type (c : Credential) : Z :=
  match c with Basic _ => BASIC | X509 _ => X509_TYPE | CustomCredential ty _ => ty end.

Definition credential_codec : MlsCodec Credential := {|
  mls_encoded_len c :=
    inner ← (match c with
             | Basic id => mls_encoded_len byte_vec_codec id
             | X509 chain => mls_encoded_len (vec_codec byte_vec_codec) chain
             | CustomCredential _ data => mls_encoded_len byte_vec_codec data
             end);
    n ← mls_encoded_len u16_codec (credential_type c);
    Ok (n + inner);
  mls_encode c w :=
    w ← mls_encode u16_codec (credential_type c) w;
    match c with
    | Basic id => mls_encode byte_vec_codec id w
    | X509 chain => mls_encode (vec_codec byte_vec_codec) chain w
    | CustomCredential _ data => mls_encode byte_vec_codec data w
    end;
  mls_decode r :=
    '(ty, r) ← mls_decode u16_codec r;
    if ty =? BASIC then '(id, r) ← mls_decode byte_vec_codec r; Ok (Basic id, r)
    else if ty =? X509_TYPE then
      '(chain, r) ← mls_decode (vec_codec byte_vec_codec) r; Ok (X509 chain, r)
    else '(data, r) ← mls_decode byte_vec_codec r; Ok (CustomCredential ty data, r);
|}.

Record SigningIdentity := { signature_key : bytes; credential : Credential }.

#[global] Instance signing_identity_eq_dec : EqDecision SigningIdentity.
Proof. solve_decision. Defined.

Definition signing_identity_codec : MlsCodec SigningIdentity :=
  struct_codec (λ s, (signature_key s, credential s))
    (λ p, {| signature_key := p.1; credential := p.2 |})
    (tuple_codec byte_vec_codec credential_codec).

(** ** Leaf nodes: tree_kem/leaf_node.rs, lifetime.rs, mls-rs-core/src/group/roster.rs *)
Record Capabilities := {
  protocol_versions : list Z;
  cipher_suites : list Z;
  cap_extensions : list Z;
  proposals : list Z;
  credentials : list Z;
}.

Record Lifetime := { not_before : Z; not_after : Z }.

Inductive LeafNodeSource : Type :=
  | KeyPackageSource (l : Lifetime)
  | UpdateSource
  | CommitSource (parent_hash : bytes).

Record LeafNode := {
  leaf_public_key : bytes;
  signing_identity : SigningIdentity;
  capabilities : Capabilities;
  leaf_node_source : LeafNodeSource;
  leaf_extensions : ExtensionList.t;
  signature : bytes;
}.

#[global] Instance capabilities_eq_dec : EqDecision Capabilities.
Proof. solve_decision. Defined.
#[global] Instance lifetime_eq_dec : EqDecision Lifetime.
Proof. solve_decision. Defined.
#[global] Instance leaf_node_source_eq_dec : EqDecision LeafNodeSource.
Proof. solve_decision. Defined.

#[global] Instance leaf_node_eq_dec : EqDecision LeafNode.
Proof. solve_decision. Defined.

(** The derived [PartialEq] of a leaf: extension lists are compared as sets. *)
Definition leaf_node_eqb (l k : LeafNode) : bool :=
  bool_decide (leaf_public_key l = leaf_public_key k) &&
  bool_decide (signing_identity l = signing_identity k) &&
  bool_decide (capabilities l = capabilities k) &&
  bool_decide (leaf_node_source l = leaf_node_source k) &&
  ExtensionList.eqb (leaf_extensions l) (leaf_extensions k) &&
  bool_decide (signature l = signature k).

Definition capabilities_codec : MlsCodec Capabilities :=
  let v := vec_codec u16_codec in
  struct_codec
    (λ c, (protocol_versions c, (cipher_suites c, (cap_extensions c, (proposals c, credentials c)))))
    (λ '(a, (b, (c, (d, e)))),
       {| protocol_versions := a; cipher_suites := b; cap_extensions := c; proposals := d; credentials := e |})
    (tuple_codec v (tuple_codec v (tuple_codec v (tuple_codec v v)))).

Definition lifetime_codec : MlsCodec Lifetime :=
  struct_codec (λ l, (not_before l, not_after l)) (λ p, {| not_before := p.1; not_after := p.2 |})
    (tuple_codec u64_codec u64_codec).

Definition leaf_node_source_variants : list (Variant LeafNodeSource) := [
  {| v_discriminant := 1; v_codec := lifetime_codec; v_make := KeyPackageSource;
     v_match s := match s with KeyPackageSource l => Some l | _ => None end |};
  {| v_discriminant := 2; v_codec := unit_codec; v_make := λ _, UpdateSource;
     v_match s := match s with UpdateSource => Some tt | _ => None end |};
  {| v_discriminant := 3; v_codec := byte_vec_codec; v_make := CommitSource;
     v_match s := match s with CommitSource h => Some h | _ => None end |} ].

Definition leaf_node_source_codec : MlsCodec LeafNodeSource :=
  enum_codec u8_codec leaf_node_source_variants.

(** The fields that are signed, in order; [LeafNode] adds the signature. *)
Definition leaf_content_codec :=
  tuple_codec byte_vec_codec (tuple_codec signing_identity_codec (tuple_codec capabilities_codec
    (tuple_codec leaf_node_source_codec ExtensionList.codec))).

Definition leaf_content (l : LeafNode) :=
  (leaf_public_key l, (signing_identity l, (capabilities l, (leaf_node_source l, leaf_extensions l)))).

Definition leaf_node_codec : MlsCodec LeafNode :=
  struct_codec (λ l, (leaf_content l, signature l))
    (λ '((a, (b, (c, (d, e)))), f),
       {| leaf_public_key := a; signing_identity := b; capabilities := c; leaf_node_source := d;
          leaf_extensions := e; signature := f |})
    (tuple_codec leaf_content_codec byte_vec_codec).

(** [LeafNodeSigningContext] and [LeafNode::signable_content], i.e. the encoding
    of [LeafNodeTBS]. *)
Record LeafNodeSigningContext := { ctx_group_id : option bytes; ctx_leaf_index : option Z }.

Definition signable_content (l : LeafNode) (ctx : LeafNodeSigningContext) : Result Codec.Error bytes :=
  w ← mls_encode leaf_content_codec (leaf_content l) [];
  w ← (match ctx_group_id ctx with
       | Some g => mls_encode byte_vec_codec g w
       | None => Ok w
       end);
  match ctx_leaf_index ctx with
  | Some i => mls_encode u32_codec i w
  | None => Ok w
  end.

(** [Lifetime::seconds] at clock value [now] (a [u64]); [u64::checked_add]. *)
Definition lifetime_seconds (now s : Z) : Result MlsError Lifetime :=
  not_after ← (if now + s <? 2 ^ 64 then Ok (now + s) else Err TimeOverflow);
  Ok {| not_before := wrap 64 (now - 3600); not_after := not_after |}.

Definition lifetime_days (now d : Z) : Result MlsError Lifetime := lifetime_seconds now (u32 (d * 86400)).
Definition lifetime_years (now y : Z) : Result MlsError Lifetime := lifetime_days now (u32 (365 * y)).

Definition within_lifetime (l : Lifetime) (since_epoch : Z) : bool :=
  (not_before l <=? since_epoch) && (since_epoch <=? not_after l).

(** * Extension lists as finite maps *)
Module ExtensionListFacts.
Import ExtensionList.

(** At most one entry per type. *)
Definition wf (l : t) : Prop := NoDup (extension_type <$> l).

(** The map from types to data that a list stands for. *)
Definition to_map (l : t) : gmap Z bytes :=
  list_to_map ((λ e, (extension_type e, extension_data e)) <$> l).

Lemma to_map_cons e l : to_map (e :: l) = <[extension_type e := extension_data e]> (to_map l).
Proof. done. Qed.

Lemma to_map_lookup l ty : to_map l !! ty = extension_data <$> get l ty.
Proof.
  induction l as [|e l IH]; [done|]. rewrite to_map_cons. cbn [get].
  destruct (Z.eqb_spec (extension_type e) ty) as [<-|]; [by rewrite lookup_insert_eq|by rewrite lookup_insert_ne].
Qed.

Lemma get_type l ty e : get l ty = Some e → extension_type e = ty ∧ e ∈ l.
Proof.
  induction l as [|e' l IH]; [done|]. cbn. destruct (Z.eqb_spec (extension_type e') ty).
  - intros [= <-]. split; [done|left].
  - intros [? ?]%IH. split; [done|by right].
Qed.

Lemma get_elem l e : wf l → e ∈ l → get l (extension_type e) = Some e.
Proof.
  induction l as [|e' l IH]; [by inversion 2|]. intros [Hn Hl]%NoDup_cons. cbn.
  intros [->|Hin]%elem_of_cons; [by rewrite Z.eqb_refl|].
  destruct (Z.eqb_spec (extension_type e') (extension_type e)) as [E|]; [|by apply IH].
  destruct Hn. rewrite E. apply list_elem_of_fmap. eauto.
Qed.

Lemma has_extension_spec l ty : has_extension l ty = true ↔ ty ∈ extension_type <$> l.
Proof.
  unfold has_extension. rewrite existsb_exists, list_elem_of_fmap.
  setoid_rewrite list_elem_of_In. setoid_rewrite Z.eqb_eq. naive_solver.
Qed.

Lemma set_types l e :
  extension_type <$> set l e =
    if has_extension l (extension_type e) then extension_type <$> l
    else (extension_type <$> l) ++ [extension_type e].
Proof.
  unfold has_extension in *. induction l as [|e' l IH]; [done|]. cbn [set existsb].
  destruct (Z.eqb_spec (extension_type e') (extension_type e)) as [E|]; cbn; [by rewrite E|].
  rewrite IH. by destruct (existsb _ l).
Qed.

Lemma set_wf l e : wf l → wf (set l e).
Proof.
  unfold wf. rewrite set_types. destruct (has_extension l (extension_type e)) eqn:E; [done|].
  intros Hl. apply NoDup_app. split_and!; [done| |apply NoDup_singleton].
  intros ty Hty ->%list_elem_of_singleton. apply has_extension_spec in Hty. congruence.
Qed.

Lemma set_get l e ty : get (set l e) ty = if extension_type e =? ty then Some e else get l ty.
Proof.
  induction l as [|e' l IH]; [cbn; done|]. cbn [set].
  destruct (Z.eqb_spec (extension_type e') (extension_type e)) as [E|]; cbn [get].
  - rewrite <- E. by destruct (Z.eqb_spec (extension_type e') ty).
  - rewrite IH. destruct (Z.eqb_spec (extension_type e') ty), (Z.eqb_spec (extension_type e) ty);
      congruence.
Qed.

Lemma remove_get l ty ty' : get (remove l ty) ty' = if ty =? ty' then None else get l ty'.
Proof.
  induction l as [|e l IH]; [cbn; by case_match|]. cbn [remove List.filter].
  destruct (Z.eqb_spec (extension_type e) ty) as [E|]; cbn [negb get]; fold (remove l ty); rewrite IH;
    destruct (Z.eqb_spec ty ty'), (Z.eqb_spec (extension_type e) ty'); congruence.
Qed.

Lemma remove_sublist l ty : extension_type <$> remove l ty `sublist_of` extension_type <$> l.
Proof.
  induction l as [|e l IH]; [done|]. cbn [remove List.filter].
  destruct (extension_type e =? ty); cbn; by constructor.
Qed.

Lemma remove_wf l ty : wf l → wf (remove l ty).
Proof. intros Hl. eapply sublist_NoDup; [done|]. apply remove_sublist. Qed.

Lemma extend_wf l k : wf l → wf (extend l k).
Proof.
  unfold extend. revert l. induction k as [|e k IH]; intros l Hl; [done|]. apply IH. by apply set_wf.
Qed.

Lemma size_to_map l : wf l → Z.of_nat (size (to_map l)) = len l.
Proof.
  intros Hl. unfold to_map, len.
  rewrite <- length_map_to_list.
  rewrite map_to_list_to_map; [by rewrite length_fmap|].
  by rewrite <- list_fmap_compose.
Qed.

Lemma eqb_spec l k : wf l → wf k → eqb l k = true ↔ to_map l = to_map k.
Proof.
  intros Hl Hk. unfold eqb. rewrite andb_true_iff, Z.eqb_eq, forallb_forall.
  setoid_rewrite bool_decide_eq_true. setoid_rewrite <- list_elem_of_In. split.
  - intros [Hlen Hall].
    assert (to_map l ⊆ to_map k) as Hsub.
    { apply map_subseteq_spec. intros ty d. rewrite !to_map_lookup.
      destruct (get l ty) as [e|] eqn:E; [|done]. apply get_type in E as [<- Hin].
      by rewrite (Hall e Hin). }
    apply map_eq. intros ty.
    destruct (to_map l !! ty) eqn:E; [by erewrite lookup_weaken|].
    destruct (to_map k !! ty) eqn:E'; [|done].
    assert (to_map l ⊂ to_map k) as Hlt.
    { split; [done|]. intros Hkl. apply (lookup_weaken _ _ _ _ E') in Hkl. congruence. }
    apply map_subset_size in Hlt. pose proof (size_to_map l Hl). pose proof (size_to_map k Hk). lia.
  - intros Heq. split.
    + rewrite <- !size_to_map by done. by rewrite Heq.
    + intros e Hin. pose proof (to_map_lookup k (extension_type e)) as Hk'.
      rewrite <- Heq, to_map_lookup, (get_elem l e Hl Hin) in Hk'. cbn in Hk'.
      destruct (get k (extension_type e)) as [e'|] eqn:E; [|done]. cbn in Hk'.
      apply get_type in E as [E _]. destruct e, e'; simpl in *. congruence.
Qed.

End ExtensionListFacts.

(** * Wire formats of leaf data *)
Module LeafCodecs.
Import ExtensionListFacts.

Definition extension_wf (e : Extension) : Prop := is_u16 (extension_type e).

#[export] Instance extension_laws : CodecLaws extension_codec extension_wf.
Proof.
  eapply laws_iff; [apply struct_laws; [by intros []|by intros []|typeclasses eauto]|].
  intros []. unfold extension_wf. cbn. tauto.
Qed.

#[export] Instance extension_nonempty : NonEmpty extension_codec extension_wf.
Proof.
  intros e He. apply (tuple_nonempty u16_codec byte_vec_codec is_u16 (λ _, True) _ _
    (extension_type e, extension_data e)). done.
Qed.

(** The values an extension list holds on the wire. *)
Definition ext_list_wf (l : ExtensionList.t) : Prop := wf l ∧ Forall extension_wf l.

(** The decoding loop is the generic one with the duplicate check. *)
Lemma decode_loop_sound fuel l data k :
  wf l → ExtensionList.decode_loop fuel l data = Ok k →
  ∃ k', decode_items extension_codec fuel data = Ok k' ∧ k = l ++ k' ∧ wf k.
Proof.
  revert l data. induction fuel as [|fuel IH]; intros l data Hl; destruct data as [|b data];
    cbn [ExtensionList.decode_loop decode_items]; intros H; try done.
  1,2: injection H as <-; exists []; by rewrite app_nil_r.
  apply bind_ok in H as ([e r] & He & H). rewrite He. cbn [mbind result_bind].
  destruct (ExtensionList.has_extension l (extension_type e)) eqn:Ee; [done|].
  apply IH in H as (k' & Hk & -> & Hwf).
  - exists (e :: k'). rewrite Hk. by rewrite <- app_assoc in *.
  - unfold wf in *. rewrite fmap_app. apply NoDup_app. split_and!; [done| |apply NoDup_singleton].
    intros ty Hty ->%list_elem_of_singleton. apply has_extension_spec in Hty. congruence.
Qed.

Lemma decode_loop_complete fuel l data k :
  decode_items extension_codec fuel data = Ok k → wf (l ++ k) →
  ExtensionList.decode_loop fuel l data = Ok (l ++ k).
Proof.
  revert l data k. induction fuel as [|fuel IH]; intros l data k; destruct data as [|b data];
    cbn [ExtensionList.decode_loop decode_items]; intros H Hwf; try done.
  1,2: injection H as <-; by rewrite app_nil_r.
  apply bind_ok in H as ([e r] & -> & H). apply bind_ok in H as (k' & Hk & [= <-]). cbn [mbind result_bind].
  assert (ExtensionList.has_extension l (extension_type e) = false) as ->.
  { apply not_true_iff_false. intros Hin%has_extension_spec. unfold wf in Hwf.
    rewrite fmap_app in Hwf. apply NoDup_app in Hwf as (_ & Hd & _). apply (Hd _ Hin). left. }
  change (e :: k') with ([e] ++ k') in *. rewrite app_assoc in *. by apply IH.
Qed.

Lemma decode_loop_settled fuel l data :
  (length data ≤ fuel)%nat → settled (ExtensionList.decode_loop fuel l data).
Proof.
  revert l data. induction fuel as [|fuel IH]; intros l data Hf; destruct data as [|b data]; try done;
    [simpl in Hf; lia|].
  change (settled ('(ext, data) ← mls_decode extension_codec (b :: data);
    if ExtensionList.has_extension l (extension_type ext) then Err (Custom 1)
    else ExtensionList.decode_loop fuel (l ++ [ext]) data)).
  apply settled_bind; [apply decode_settled|]. intros [e r] He.
  apply decode_sound in He as (Hwf & bs & Hbs & Heq). case_match; [done|]. apply IH.
  pose proof (extension_nonempty e Hwf). destruct bs as [|b' bs]; [done|].
  apply (f_equal length) in Heq. rewrite length_app in Heq. simpl in *. lia.
Qed.

#[export] Instance ext_list_laws : CodecLaws ExtensionList.codec ext_list_wf.
Proof.
  destruct (vec_laws extension_codec extension_wf extension_nonempty) as [H1 H2 H3 H4 H5 H6 H7].
  split; cbn [ExtensionList.codec mls_encode mls_decode mls_encoded_len] in *.
  - apply H1.
  - intros l bs [_ Hl]. by apply H2.
  - intros l [_ Hl]. by apply H3.
  - intros l n [_ Hl]. by apply H4.
  - intros l bs rest [Hwf Hl] Hbs. specialize (H5 l bs rest Hl Hbs).
    change (mls_decode (vec_codec extension_codec)) with
      (mls_decode_collection (λ data, decode_items extension_codec (length data) data)) in H5.
    unfold mls_decode_collection in *. apply bind_ok in H5 as ([data r] & -> & H5).
    cbn [mbind result_bind] in *. apply bind_ok in H5 as (k & Hk & [= -> ->]).
    by rewrite (decode_loop_complete _ [] data l).
  - intros r l rest H. unfold mls_decode_collection in H. apply bind_ok in H as ([data r'] & Hs & H).
    apply bind_ok in H as (k & Hk & [= -> ->]).
    apply decode_loop_sound in Hk as (k & Hk & -> & Hwf); [|by constructor]. cbn [app] in *.
    destruct (H6 r k rest) as [Hf Hbs]; [|by split].
    change (mls_decode_collection (λ data, decode_items extension_codec (length data) data) r = Ok (k, rest)).
    unfold mls_decode_collection. rewrite Hs. cbn [mbind result_bind]. by rewrite Hk.
  - intros r. apply settled_bind; [apply split_settled|]. intros [data rest] _.
    apply settled_bind; [|done]. by apply decode_loop_settled.
Qed.

Definition credential_wf (c : Credential) : Prop :=
  match c with
  | Basic _ | X509 _ => True
  | CustomCredential ty _ => is_u16 ty ∧ ty ≠ BASIC ∧ ty ≠ X509_TYPE
  end.

(** Each form of credential is the pair of its type and its contents. *)
#[export] Instance credential_laws : CodecLaws credential_codec credential_wf.
Proof.
  assert (is_u16 BASIC ∧ is_u16 X509_TYPE) as [HB HX] by (unfold is_u16, BASIC, X509_TYPE; lia).
  pose proof (tuple_laws u16_codec byte_vec_codec is_u16 (λ _, True) _ _) as [B1 B2 B3 B4 B5 B6 B7].
  pose proof (tuple_laws u16_codec (vec_codec byte_vec_codec) is_u16 (Forall (λ _, True)) _
    (vec_laws byte_vec_codec (λ _, True) byte_vec_nonempty)) as [C1 C2 C3 C4 C5 C6 C7].
  assert (∀ l : list bytes, Forall (λ _, True) l) as HF by (intros; by apply Forall_true).
  assert (∀ c w, mls_encode credential_codec c w = match c with
    | Basic id => mls_encode (tuple_codec u16_codec byte_vec_codec) (BASIC, id) w
    | X509 ch => mls_encode (tuple_codec u16_codec (vec_codec byte_vec_codec)) (X509_TYPE, ch) w
    | CustomCredential ty d => mls_encode (tuple_codec u16_codec byte_vec_codec) (ty, d) w end) as Henc.
  { by intros []. }
  assert (∀ c, mls_encoded_len credential_codec c = match c with
    | Basic id => mls_encoded_len (tuple_codec u16_codec byte_vec_codec) (BASIC, id)
    | X509 ch => mls_encoded_len (tuple_codec u16_codec (vec_codec byte_vec_codec)) (X509_TYPE, ch)
    | CustomCredential ty d => mls_encoded_len (tuple_codec u16_codec byte_vec_codec) (ty, d) end) as Hlen.
  { intros [i|ch|ty d]; cbn [credential_codec mls_encoded_len tuple_codec fst snd credential_type].
    - by destruct (mls_encoded_len byte_vec_codec i).
    - by destruct (mls_encoded_len (vec_codec byte_vec_codec) ch).
    - by destruct (mls_encoded_len byte_vec_codec d). }
  split.
  - intros c w. rewrite !Henc. by destruct c.
  - intros [] bs Hc; rewrite Henc, Hlen; [apply B2|apply C2|apply B2]; split; cbn; auto; apply Hc.
  - intros [] Hc; rewrite Hlen; [apply B3|apply C3|apply B3]; split; cbn; auto; apply Hc.
  - intros [] n Hc; rewrite Henc, Hlen; [apply B4|apply C4|apply B4]; split; cbn; auto; apply Hc.
  - intros [i|ch|ty d] bs rest Hc; rewrite Henc; intros Hbs; cbn [credential_codec mls_decode].
    + specialize (B5 (BASIC, i) bs rest (conj HB I) Hbs). apply bind_ok in B5 as ([? ?] & -> & B5).
      apply bind_ok in B5 as ([? ?] & B5 & [= -> -> ->]). cbn [mbind result_bind Z.eqb BASIC]. by rewrite B5.
    + specialize (C5 (X509_TYPE, ch) bs rest (conj HX (HF ch)) Hbs). apply bind_ok in C5 as ([? ?] & -> & C5).
      apply bind_ok in C5 as ([? ?] & C5 & [= -> -> ->]). cbn [mbind result_bind].
      change (X509_TYPE =? BASIC) with false. change (X509_TYPE =? X509_TYPE) with true. by rewrite C5.
    + destruct Hc as (Ht & Hb & Hx). specialize (B5 (ty, d) bs rest (conj Ht I) Hbs).
      apply bind_ok in B5 as ([? ?] & -> & B5). apply bind_ok in B5 as ([? ?] & B5 & [= -> -> ->]).
      cbn [mbind result_bind]. destruct (Z.eqb_spec ty BASIC), (Z.eqb_spec ty X509_TYPE); try done.
      by rewrite B5.
  - intros r c rest H. cbn [credential_codec mls_decode] in H. apply bind_ok in H as ([ty r1] & Hty & H).
    setoid_rewrite Henc.
    destruct (Z.eqb_spec ty BASIC) as [->|Hb]; [|destruct (Z.eqb_spec ty X509_TYPE) as [->|Hx]];
      apply bind_ok in H as ([x r2] & Hx' & [= <- <-]).
    + destruct (B6 r (BASIC, x) r2) as [_ ?]; [|by split].
      cbn [tuple_codec mls_decode]. rewrite Hty. cbn [mbind result_bind]. by rewrite Hx'.
    + destruct (C6 r (X509_TYPE, x) r2) as [_ ?]; [|by split].
      cbn [tuple_codec mls_decode]. rewrite Hty. cbn [mbind result_bind]. by rewrite Hx'.
    + destruct (B6 r (ty, x) r2) as [[Hw _] Hbs]; [|by split].
      cbn [tuple_codec mls_decode]. rewrite Hty. cbn [mbind result_bind]. by rewrite Hx'.
  - intros r. apply settled_bind; [apply decode_settled|]. intros [ty r1] _.
    repeat case_match; (apply settled_bind; [|by intros []]).
    + apply decode_settled.
    + apply (@decode_settled _ _ _ (vec_laws byte_vec_codec (λ _, True) byte_vec_nonempty)).
    + apply decode_settled.
Qed.

Definition signing_identity_wf (s : SigningIdentity) : Prop := credential_wf (credential s).

Definition capabilities_wf (c : Capabilities) : Prop :=
  Forall is_u16 (protocol_versions c) ∧ Forall is_u16 (cipher_suites c) ∧
  Forall is_u16 (cap_extensions c) ∧ Forall is_u16 (proposals c) ∧ Forall is_u16 (credentials c).

Definition lifetime_wf (l : Lifetime) : Prop := is_u64 (not_before l) ∧ is_u64 (not_after l).

Definition leaf_node_source_wf (s : LeafNodeSource) : Prop :=
  match s with KeyPackageSource l => lifetime_wf l | _ => True end.

Definition leaf_node_wf (l : LeafNode) : Prop :=
  signing_identity_wf (signing_identity l) ∧ capabilities_wf (capabilities l) ∧
  leaf_node_source_wf (leaf_node_source l) ∧ ext_list_wf (leaf_extensions l).

#[export] Instance signing_identity_laws : CodecLaws signing_identity_codec signing_identity_wf.
Proof.
  eapply laws_iff; [apply struct_laws; [by intros []|by intros []|typeclasses eauto]|].
  intros []. unfold signing_identity_wf. cbn. tauto.
Qed.

#[export] Instance u16_vec_laws : CodecLaws (vec_codec u16_codec) (Forall is_u16).
Proof. apply vec_laws; apply _. Qed.

#[export] Instance capabilities_laws : CodecLaws capabilities_codec capabilities_wf.
Proof.
  eapply laws_iff; [apply struct_laws; [by intros []|by intros (?&?&?&?&?)|typeclasses eauto]|].
  intros []. unfold capabilities_wf. cbn. tauto.
Qed.

#[export] Instance lifetime_laws : CodecLaws lifetime_codec lifetime_wf.
Proof.
  eapply laws_iff; [apply struct_laws; [by intros []|by intros []|typeclasses eauto]|].
  intros []. unfold lifetime_wf. cbn. tauto.
Qed.

#[export] Instance leaf_node_source_laws : CodecLaws leaf_node_source_codec leaf_node_source_wf.
Proof. solve_enum leaf_node_source_variants leaf_node_source_wf. Qed.

Definition leaf_content_wf (p : bytes * (SigningIdentity * (Capabilities * (LeafNodeSource * ExtensionList.t)))) : Prop :=
  signing_identity_wf p.2.1 ∧ capabilities_wf p.2.2.1 ∧ leaf_node_source_wf p.2.2.2.1 ∧ ext_list_wf p.2.2.2.2.

#[export] Instance leaf_content_laws : CodecLaws leaf_content_codec leaf_content_wf.
Proof.
  eapply laws_iff; [unfold leaf_content_codec; typeclasses eauto|].
  intros (?&?&?&?&?). unfold leaf_content_wf. cbn. tauto.
Qed.

#[export] Instance leaf_node_laws : CodecLaws leaf_node_codec leaf_node_wf.
Proof.
  eapply laws_iff; [apply struct_laws; [by intros []|by intros [(?&?&?&?&?) ?]|typeclasses eauto]|].
  intros []. unfold leaf_node_wf, leaf_content_wf. cbn. tauto.
Qed.

#[export] Instance leaf_node_nonempty : NonEmpty leaf_node_codec leaf_node_wf.
Proof.
  intros l (H1 & H2 & H3 & H4).
  assert (NonEmpty leaf_content_codec leaf_content_wf) as Hc.
  { intros (a & b & c & d & e) (H5 & H6 & H7 & H8). unfold leaf_content_codec.
    eapply tuple_nonempty; [typeclasses eauto|apply byte_vec_nonempty|]. cbn in *. tauto. }
  apply (tuple_nonempty leaf_content_codec byte_vec_codec leaf_content_wf (λ _, True) _ Hc
    (leaf_content l, signature l)). unfold leaf_content_wf. cbn. tauto.
Qed.

(** ** Encoding settles *)
#[export] Instance extension_settled : EncodeSettled extension_codec.
Proof. apply _. Qed.

#[export] Instance extension_list_settled : EncodeSettled ExtensionList.codec.
Proof.
  pose proof (vec_settled extension_codec) as [H1 H2]. split; [exact H1|exact H2].
Qed.

#[export] Instance credential_settled : EncodeSettled credential_codec.
Proof.
  split; intros c; cbn [credential_codec mls_encoded_len mls_encode].
  - apply settled_bind; [destruct c|done].
    all: first [apply (encoded_len_settled (c := byte_vec_codec))|apply (encoded_len_settled (c := vec_codec byte_vec_codec))].
  - intros w. apply settled_bind; [done|]. intros w' _. destruct c.
    all: first [apply (encode_settled (c := byte_vec_codec))|apply (encode_settled (c := vec_codec byte_vec_codec))].
Qed.

#[export] Instance leaf_node_source_settled : EncodeSettled leaf_node_source_codec.
Proof. solve_enum_settled leaf_node_source_variants. Qed.

#[export] Instance leaf_content_settled : EncodeSettled leaf_content_codec.
Proof. apply _. Qed.

#[export] Instance leaf_node_settled : EncodeSettled leaf_node_codec.
Proof. apply _. Qed.

Lemma from_codec_settled {A} (r : Result Codec.Error A) : settled r → settled (from_codec_error r).
Proof. by destruct r. Qed.

Lemma signable_content_settled l ctx : settled (signable_content l ctx).
Proof.
  apply settled_bind; [apply encode_settled|]. intros w _. apply settled_bind.
  - destruct (ctx_group_id ctx); [apply encode_settled|done].
  - intros w' _. destruct (ctx_leaf_index ctx); [apply encode_settled|done].
Qed.

End LeafCodecs.

(** * Properties *)
Import ExtensionListFacts LeafCodecs.

(** The contexts a leaf is signed in: none for a key package, the group and the
    position of the leaf for an update or a commit. *)
Definition context_fits (l : LeafNode) (ctx : LeafNodeSigningContext) : Prop :=
  match leaf_node_source l with
  | KeyPackageSource _ => ctx = {| ctx_group_id := None; ctx_leaf_index := None |}
  | _ => ∃ g i, is_u32 i ∧ ctx = {| ctx_group_id := Some g; ctx_leaf_index := Some i |}
  end.

Lemma signable_content_split l ctx bs :
  signable_content l ctx = Ok bs →
  ∃ x tail, mls_encode leaf_content_codec (leaf_content l) [] = Ok x ∧ bs = x ++ tail ∧
    ∀ g i, ctx = {| ctx_group_id := Some g; ctx_leaf_index := Some i |} →
      mls_encode (tuple_codec byte_vec_codec u32_codec) (g, i) [] = Ok tail.
Proof.
  unfold signable_content. intros H. apply bind_ok in H as (x & Hx & H). apply bind_ok in H as (y & Hy & H).
  exists x. destruct ctx as [[g|] [i|]]; cbn [ctx_group_id ctx_leaf_index] in *.
  - rewrite encode_writer in Hy. rewrite encode_writer in H. apply fmap_ok in Hy as (t & Ht & <-). apply fmap_ok in H as (u & Hu & <-).
    exists (t ++ u). split_and!; [done|by rewrite app_assoc|]. intros ? ? [= <- <-].
    cbn [tuple_codec mls_encode fst snd]. rewrite Ht. cbn [mbind result_bind]. by rewrite encode_writer, Hu.
  - rewrite encode_writer in Hy. apply fmap_ok in Hy as (t & Ht & <-). injection H as <-. by exists t.
  - injection Hy as ->. rewrite encode_writer in H. apply fmap_ok in H as (t & Ht & <-). by exists t.
  - injection Hy as ->. injection H as ->. exists []. by rewrite app_nil_r.
Qed.

(** The wire format of leaf nodes: the encoded length is the computed one, a
    well-formed leaf decodes to itself with nothing left over, decoding accepts
    canonical encodings only and never panics; extension lists with two
    extensions of one type are among what it refuses. *)
Theorem leaf_node_codec_correct : CodecLaws leaf_node_codec leaf_node_wf.
Proof. apply _. Qed.

(** [ExtensionList] is a finite map from types to data: without duplicate
    types, [get], [set], [remove] and the order-insensitive equality are
    lookup, insertion, deletion and equality of maps, and every operation
    keeps the types distinct. *)
Theorem extension_list_refines_map (l k : ExtensionList.t) (e : Extension) (ty : Z) :
  wf l → wf k →
  to_map l !! ty = extension_data <$> ExtensionList.get l ty ∧
  to_map (ExtensionList.set l e) = <[extension_type e := extension_data e]> (to_map l) ∧
  to_map (ExtensionList.remove l ty) = delete ty (to_map l) ∧
  to_map (ExtensionList.extend l k) = to_map k ∪ to_map l ∧
  (ExtensionList.eqb l k = true ↔ to_map l = to_map k) ∧
  wf (ExtensionList.set l e) ∧ wf (ExtensionList.remove l ty) ∧ wf (ExtensionList.extend l k).
Proof.
  intros Hl Hk.
  assert (∀ l e, to_map (ExtensionList.set l e) = <[extension_type e := extension_data e]> (to_map l)) as Hset.
  { clear. intros l e. apply map_eq. intros ty. rewrite to_map_lookup, set_get.
    destruct (Z.eqb_spec (extension_type e) ty) as [<-|]; [by rewrite lookup_insert_eq|].
    by rewrite lookup_insert_ne, to_map_lookup. }
  split_and!; auto using to_map_lookup, set_wf, remove_wf, extend_wf.
  - apply map_eq. intros ty'. rewrite to_map_lookup, remove_get.
    destruct (Z.eqb_spec ty ty') as [<-|]; [by rewrite lookup_delete_eq|].
    by rewrite lookup_delete_ne, to_map_lookup.
  - unfold ExtensionList.extend. clear Hl. revert l. induction k as [|x k IH]; intros l; cbn [foldl].
    + change (to_map []) with (∅ : gmap Z bytes). by rewrite (left_id_L ∅ (∪)).
    + apply NoDup_cons in Hk as [Hx Hk]. rewrite IH by done. rewrite Hset, to_map_cons.
      rewrite <- insert_union_r; [by rewrite insert_union_l|]. rewrite to_map_lookup. destruct (ExtensionList.get k _) as [y|] eqn:E; [|done].
      apply get_type in E as [E Hin]. destruct Hx. rewrite <- E. apply list_elem_of_fmap. eauto.
  - by apply eqb_spec.
Qed.

Lemma extension_list_refines_map_witness :
  let l := [{| extension_type := 2; extension_data := [] |}] in
  to_map (ExtensionList.remove l 2) = ∅.
Proof.
  intros l. assert (wf l) as Hl by (repeat constructor; set_solver).
  destruct (extension_list_refines_map l l {| extension_type := 2; extension_data := [] |} 2 Hl Hl)
    as (_ & _ & -> & _). by vm_compute.
Defined.

(** What a leaf's signature covers: two well-formed leaves, each with a
    context of the kind its source calls for, have the same bytes to be
    signed only when all their signed fields and their contexts agree.  So a
    signature over a leaf cannot be moved to another group or position, nor
    from a key package to an update. *)
Theorem signable_content_inj (l k : LeafNode) (cl ck : LeafNodeSigningContext) bs :
  leaf_node_wf l → leaf_node_wf k → context_fits l cl → context_fits k ck →
  signable_content l cl = Ok bs → signable_content k ck = Ok bs →
  leaf_content l = leaf_content k ∧ cl = ck.
Proof.
  intros Hl Hk Fl Fk Sl Sk.
  apply signable_content_split in Sl as (x & t & Hx & -> & Ht).
  apply signable_content_split in Sk as (y & u & Hy & E & Hu).
  pose proof (decode_encode (leaf_content l) x t Hl Hx) as Dl.
  pose proof (decode_encode (leaf_content k) y u Hk Hy) as Dk. rewrite E in Dl.
  rewrite Dl in Dk. injection Dk as Epk Esi Ecap Esrc Eext ->.
  split; [unfold leaf_content; congruence|].
  unfold context_fits in *. rewrite <- Esrc in Fk. destruct (leaf_node_source l); [congruence|..];
    destruct Fl as (g & i & Hi & ->), Fk as (g' & i' & Hi' & ->).
  all: specialize (Ht _ _ eq_refl); specialize (Hu _ _ eq_refl).
  all: pose proof (encode_inj (tuple_codec byte_vec_codec u32_codec) _ (g, i) (g', i') u) as Hinj.
  all: injection (Hinj (conj I Hi) (conj I Hi') Ht Hu) as -> ->; done.
Qed.

Definition sample_leaf (src : LeafNodeSource) : LeafNode := {|
  leaf_public_key := [byte.of_Z 7];
  signing_identity := {| signature_key := [byte.of_Z 1]; credential := Basic [byte.of_Z 2] |};
  capabilities := {| protocol_versions := [1]; cipher_suites := [1]; cap_extensions := [];
                     proposals := []; credentials := [1] |};
  leaf_node_source := src; leaf_extensions := []; signature := [] |}.

Lemma sample_leaf_wf src : leaf_node_source_wf src → leaf_node_wf (sample_leaf src).
Proof.
  unfold leaf_node_wf, signing_identity_wf, capabilities_wf, ext_list_wf, wf. cbn.
  intros. split_and!; try done; repeat constructor; lia.
Qed.

Lemma signable_content_inj_witness :
  let l := sample_leaf UpdateSource in
  let c := {| ctx_group_id := Some []; ctx_leaf_index := Some 3 |} in
  leaf_content l = leaf_content l ∧ c = c.
Proof.
  intros l c. assert (context_fits l c) as Hc by (exists [], 3; split; [unfold is_u32; lia|done]).
  destruct (signable_content l c) as [bs| | |] eqn:E; try (vm_compute in E; congruence).
  exact (signable_content_inj l l c c bs (sample_leaf_wf UpdateSource I) (sample_leaf_wf UpdateSource I) Hc Hc E E).
Defined.

(** Lifetimes: from one hour before the present, [Lifetime::seconds] covers
    exactly the requested time or fails with [TimeOverflow]; [Lifetime::years]
    covers whole years up to 136, and beyond that (a [u8] goes to 255) the
    product of days and seconds wraps around, so that the lifetime is shorter
    than the one asked for: 137 years cover less than one year. *)
Theorem lifetime_bounds (now s : Z) :
  3600 ≤ now → is_u64 now → is_u64 s →
  (∀ l, lifetime_seconds now s = Ok l →
     now + s < 2 ^ 64 ∧ ∀ t, within_lifetime l t = true ↔ now - 3600 ≤ t ≤ now + s) ∧
  (2 ^ 64 ≤ now + s → lifetime_seconds now s = Err TimeOverflow) ∧
  (∀ y, 0 ≤ y ≤ 136 → lifetime_years now y = lifetime_seconds now (y * 365 * 86400)) ∧
  lifetime_years now 137 = lifetime_seconds now 25464704.
Proof.
  unfold is_u64. intros Hn Hu Hs. unfold lifetime_seconds, within_lifetime. split_and!.
  - intros l. destruct (Z.ltb_spec (now + s) (2 ^ 64)); [|done]. cbn. intros [= <-]. split; [done|].
    intros t. cbn. unfold wrap. rewrite Z.mod_small by lia. rewrite andb_true_iff. lia.
  - intros. destruct (Z.ltb_spec (now + s) (2 ^ 64)); [lia|done].
  - intros y Hy. unfold lifetime_years, lifetime_days, lifetime_seconds.
    rewrite (u32_small (365 * y)), (u32_small (365 * y * 86400)) by (unfold is_u32; lia).
    by replace (365 * y * 86400) with (y * 365 * 86400) by lia.
  - done.
Qed.

Lemma lifetime_bounds_witness :
  lifetime_years 4000 1 = lifetime_seconds 4000 (1 * 365 * 86400).
Proof.
  apply (lifetime_bounds 4000 0); unfold is_u64; lia.
Defined.
