(* ===== verification/Node.v ===== *)
(** * The nodes of the ratchet tree (mls-rs/src/tree_kem/node.rs)

    [NodeVec], the array of optional nodes: its accessors, resolutions, the
    search for a free leaf, insertion, blanking and trimming.  [node_at] reads
    the array as an infinite tree whose far nodes are blank; two arrays with
    the same reading are equivalent ([≡]), and every operation is given its
    meaning on that reading. *)
From S2P Require Import Prelude Codec TreeMath Types.

Module Node.
Import LeafCodecs.

Record Parent := {
  parent_public_key : bytes;
  parent_parent_hash : bytes;
  unmerged_leaves : list Z;
}.

Inductive Node : Type :=
  | Leaf (l : LeafNode)
  | ParentNode (p : Parent).

#[global] Instance parent_eq_dec : EqDecision Parent.
Proof. solve_decision. Defined.
#[global] Instance node_eq_dec : EqDecision Node.
Proof. solve_decision. Defined.

Definition public_key (n : Node) : bytes :=
  match n with ParentNode p => parent_public_key p | Leaf l => leaf_public_key l end.

Definition parent_codec : MlsCodec Parent :=
  struct_codec (λ p, (parent_public_key p, (parent_parent_hash p, unmerged_leaves p)))
    (λ '(a, (b, c)), {| parent_public_key := a; parent_parent_hash := b; unmerged_leaves := c |})
    (tuple_codec byte_vec_codec (tuple_codec byte_vec_codec (vec_codec u32_codec))).

Definition node_variants : list (Variant Node) := [
  {| v_discriminant := 1; v_codec := leaf_node_codec; v_make := Leaf;
     v_match n := match n with Leaf l => Some l | _ => None end |};
  {| v_discriminant := 2; v_codec := parent_codec; v_make := ParentNode;
     v_match n := match n with ParentNode p => Some p | _ => None end |} ].

Definition node_codec : MlsCodec Node := enum_codec u8_codec node_variants.

#[export] Instance parent_settled : EncodeSettled parent_codec.
Proof. apply _. Qed.
#[export] Instance node_settled : EncodeSettled node_codec.
Proof. solve_enum_settled node_variants. Qed.

(** [From<LeafIndex> for NodeIndex]. *)
Definition node_index (i : Z) : Z := u32 (i * 2).

(** [NodeTypeResolver for Option<Node>]. *)
Definition as_parent (n : option Node) : Result MlsError Parent :=
  match n with Some (ParentNode p) => Ok p | _ => Err ExpectedNode end.
Definition as_leaf (n : option Node) : Result MlsError LeafNode :=
  match n with Some (Leaf l) => Ok l | _ => Err ExpectedNode end.
Definition as_non_empty (n : option Node) : Result MlsError Node :=
  ok_or n UnexpectedEmptyNode.

Notation NodeVec := (list (option Node)).

Definition node_vec_codec : MlsCodec NodeVec := vec_codec (option_codec node_codec).

Definition total_leaf_count (nodes : NodeVec) : Z :=
  next_power_of_two (u32 (len nodes) / 2 + 1).

Definition validate_index (nodes : NodeVec) (index : Z) : Result MlsError Z :=
  if index >=? next_power_of_two (len nodes) then Err (InvalidNodeIndex index) else Ok index.

Definition borrow_node (nodes : NodeVec) (index : Z) : Result MlsError (option Node) :=
  i ← validate_index nodes index; Ok (default None (vec_get nodes i)).

(** [iter().step_by(2)]. *)
Fixpoint step_by_2 {A} (l : list A) : list A :=
  match l with
  | [] => []
  | [a] => [a]
  | a :: _ :: l => a :: step_by_2 l
  end.

Definition leaves (nodes : NodeVec) : list (option LeafNode) :=
  (λ n, result_ok (as_leaf n)) <$> step_by_2 nodes.

Definition non_empty_leaves (nodes : NodeVec) : list (Z * LeafNode) :=
  omap (λ '(i, l), (λ l, (u32 (Z.of_nat i), l)) <$> l) (imap pair (leaves nodes)).

Definition non_empty_parents (nodes : NodeVec) : list (Z * Parent) :=
  omap (λ '(i, n), (λ p, (u32 (Z.of_nat i), p)) <$> result_ok (as_parent n))
    (step_by_2 (drop 1 (imap pair nodes))).

Definition occupied_leaf_count (nodes : NodeVec) : Z := u32 (len (non_empty_leaves nodes)).

Definition direct_copath (nodes : NodeVec) (index : Z) : list TreeMath.CopathNode :=
  TreeMath.direct_copath (node_index index) (total_leaf_count nodes).

(** [get_resolution_index]: a stack of nodes to visit, whose top is the head of
    the list. *)
Fixpoint resolution_loop (fuel : nat) (nodes : NodeVec) (indexes resolution : list Z)
    : Result MlsError (list Z) :=
  match indexes with
  | [] => Ok resolution
  | index :: indexes =>
      match fuel with
      | O => Diverge
      | S fuel =>
          match vec_get nodes index with
          | Some (Some node) =>
              resolution_loop fuel nodes indexes
                (resolution ++ [index] ++
                 match node with ParentNode p => node_index <$> unmerged_leaves p | Leaf _ => [] end)
          | _ =>
              if negb (TreeMath.is_leaf index) then
                resolution_loop fuel nodes
                  (TreeMath.left_unchecked index :: TreeMath.right_unchecked index :: indexes) resolution
              else resolution_loop fuel nodes indexes resolution
          end
      end
  end.

(** A subtree of height [k] has fewer than [2 ^ (k + 1)] nodes. *)
Definition subtree_fuel (index : Z) : nat := Nat.pow 2 (S (Z.to_nat (trailing_ones index))).

Definition get_resolution_index (nodes : NodeVec) (index : Z) : Result MlsError (list Z) :=
  resolution_loop (subtree_fuel index) nodes [index] [].

(** [find_in_resolution].  [extend] leaves the last unmerged leaf on top. *)
Fixpoint find_loop (fuel : nat) (nodes : NodeVec) (indexes : list Z) (resolution_len : Z)
    (to_find : option Z) : Result MlsError (option Z) :=
  match indexes with
  | [] => Ok None
  | index :: indexes =>
      match fuel with
      | O => Diverge
      | S fuel =>
          match vec_get nodes index with
          | Some (Some node) =>
              if bool_decide (Some index = to_find) || bool_decide (to_find = None)
              then Ok (Some resolution_len)
              else
                find_loop fuel nodes
                  (match node with
                   | ParentNode p => rev (node_index <$> unmerged_leaves p) ++ indexes
                   | Leaf _ => indexes
                   end) (resolution_len + 1) to_find
          | _ =>
              if negb (TreeMath.is_leaf index) then
                find_loop fuel nodes
                  (TreeMath.left_unchecked index :: TreeMath.right_unchecked index :: indexes)
                  resolution_len to_find
              else find_loop fuel nodes indexes resolution_len to_find
          end
      end
  end.

(** All unmerged leaves there are, as the bound on how often one is visited. *)
Definition unmerged_total (nodes : NodeVec) : nat :=
  sum_list_with (λ n, match n with Some (ParentNode p) => length (unmerged_leaves p) | _ => O end) nodes.

Definition find_in_resolution (nodes : NodeVec) (index : Z) (to_find : option Z)
    : Result MlsError (option Z) :=
  find_loop (subtree_fuel index + unmerged_total nodes) nodes [index] 0 to_find.

Definition is_resolution_empty (nodes : NodeVec) (index : Z) : Result MlsError bool :=
  r ← find_in_resolution nodes index None; Ok (bool_decide (r = None)).

Definition filtered (nodes : NodeVec) (index : Z) : Result MlsError (list bool) :=
  mapM_res (λ cp, is_resolution_empty nodes (TreeMath.copath cp))
    (TreeMath.direct_copath (node_index index) (total_leaf_count nodes)).

Definition is_blank (nodes : NodeVec) (index : Z) : Result MlsError bool :=
  n ← borrow_node nodes index; Ok (bool_decide (n = None)).

(** [blank_leaf_node] changes the tree also when it fails, so the tree is
    returned beside the result. *)
Definition blank_leaf_node (nodes : NodeVec) (leaf_index : Z) : Result MlsError LeafNode * NodeVec :=
  match validate_index nodes (node_index leaf_index) with
  | Ok i =>
      match mjoin (vec_get nodes i) with
      | Some (Leaf l) => (Ok l, vec_set nodes i None)
      | _ => (Err RemovingNonExistingMember, vec_set nodes i None)
      end
  | Err e => (Err e, nodes)
  | Panic => (Panic, nodes)
  | Diverge => (Diverge, nodes)
  end.

Definition blank_direct_path (nodes : NodeVec) (leaf : Z) : Result MlsError NodeVec :=
  Ok (foldl (λ nodes i, vec_set nodes (TreeMath.path i) None) nodes (direct_copath nodes leaf)).

(** [trim]: pop blank nodes off the end. *)
Fixpoint drop_blank (l : list (option Node)) : list (option Node) :=
  match l with None :: l => drop_blank l | _ => l end.
Definition trim (nodes : NodeVec) : NodeVec := rev (drop_blank (rev nodes)).

Definition borrow_as_parent (nodes : NodeVec) (index : Z) : Result MlsError Parent :=
  n ← borrow_node nodes index; as_parent n.

Definition borrow_as_leaf (nodes : NodeVec) (index : Z) : Result MlsError LeafNode :=
  n ← borrow_node nodes (node_index index); as_leaf n.

(** The accessors that return a mutable reference: [f] is what the caller does
    with it. *)
Definition borrow_as_parent_mut (nodes : NodeVec) (index : Z) (f : Parent → Parent)
    : Result MlsError NodeVec :=
  i ← validate_index nodes index;
  n ← ok_or (vec_get nodes i) (InvalidNodeIndex index);
  p ← as_parent n;
  Ok (vec_set nodes i (Some (ParentNode (f p)))).

Definition borrow_as_leaf_mut (nodes : NodeVec) (index : Z) (f : LeafNode → LeafNode)
    : Result MlsError NodeVec :=
  i ← validate_index nodes (node_index index);
  n ← ok_or (vec_get nodes i) (InvalidNodeIndex (node_index index));
  l ← as_leaf n;
  Ok (vec_set nodes i (Some (Leaf (f l)))).

Definition borrow_or_fill_node_as_parent (nodes : NodeVec) (index : Z) (pk : bytes)
    (f : Parent → Parent) : Result MlsError NodeVec :=
  i ← validate_index nodes index;
  let nodes := nodes ++ replicate (Z.to_nat (i + 1 - len nodes)) None in
  n ← ok_or (vec_get nodes i) (InvalidNodeIndex index);
  let n :=
    match n with
    | None => Some (ParentNode {| parent_public_key := pk; parent_parent_hash := []; unmerged_leaves := [] |})
    | Some n => Some n
    end in
  p ← as_parent n;
  Ok (vec_set nodes i (Some (ParentNode (f p)))).

(** [next_empty_leaf]: every round passes one leaf. *)
Fixpoint next_empty_loop (fuel : nat) (nodes : NodeVec) (n : Z) : Result MlsError Z :=
  if n <? len nodes then
    match fuel with
    | O => Diverge
    | S fuel =>
        x ← vec_index nodes n;
        if bool_decide (x = None) then Ok (Z.shiftr (u32 n) 1) else next_empty_loop fuel nodes (n + 2)
    end
  else Ok (Z.shiftr (u32 (u32 (len nodes) + 1)) 1).

Definition next_empty_leaf (nodes : NodeVec) (start : Z) : Result MlsError Z :=
  next_empty_loop (length nodes) nodes (node_index start).

Definition insert_leaf (nodes : NodeVec) (index : Z) (leaf : LeafNode) : Result MlsError NodeVec :=
  let node_index := Z.shiftl index 1 in
  let nodes :=
    if node_index >? len nodes then nodes ++ [None; None]
    else if len nodes =? 0 then [None] else nodes in
  vec_store nodes node_index (Some (Leaf leaf)).

(** ** The tree an array stands for *)

(** Nodes past the end are blank. *)
Definition node_at (nodes : NodeVec) (i : Z) : option Node := mjoin (vec_get nodes i).

Definition tree_eq (a b : NodeVec) : Prop := ∀ i, node_at a i = node_at b i.
Infix "≈" := tree_eq (at level 70, no associativity).

#[global] Instance tree_eq_equivalence : Equivalence tree_eq.
Proof. split; [by intros ??|by intros ?? H ?|intros ??? H1 H2 i; by rewrite H1, H2]. Qed.

#[global] Instance node_at_proper : Proper (tree_eq ==> eq ==> eq) node_at.
Proof. intros a b H i ? <-. apply H. Qed.

(** The array can be addressed with [u32] indices. *)
Definition fits (nodes : NodeVec) : Prop := len nodes < 2 ^ 32.

(** Leaves at even positions, parents at odd ones. *)
Definition parity (nodes : NodeVec) : Prop :=
  ∀ i, match node_at nodes i with
       | Some (Leaf _) => Z.even i = true
       | Some (ParentNode _) => Z.even i = false
       | None => True
       end.

(** The height of the tree. *)
Definition depth (nodes : NodeVec) : Z := Z.log2_up (len nodes / 2 + 1).

(** The resolution of a node (RFC 9420, section 4.1.1). *)
Definition node_resolution (i : Z) (n : Node) : list Z :=
  i :: match n with ParentNode p => node_index <$> unmerged_leaves p | Leaf _ => [] end.

Fixpoint resolution (nodes : NodeVec) (k : nat) (j : Z) : list Z :=
  let i := TreeMath.node (Z.of_nat k) j in
  match node_at nodes i with
  | Some n => node_resolution i n
  | None =>
      match k with
      | O => []
      | S k => resolution nodes k (2 * j) ++ resolution nodes k (2 * j + 1)
      end
  end.

#[global] Instance resolution_proper : Proper (tree_eq ==> eq ==> eq ==> eq) resolution.
Proof.
  intros a b H k ? <- j ? <-. revert j. induction k as [|k IH]; intros j; cbn [resolution]; rewrite H;
    [done|]. by rewrite !IH.
Qed.

Lemma node_at_None nodes i : ¬ 0 ≤ i < len nodes → node_at nodes i = None.
Proof. intros H. unfold node_at. by rewrite (proj2 (vec_get_None nodes i) H). Qed.

Lemma node_at_range nodes i n : node_at nodes i = Some n → 0 ≤ i < len nodes.
Proof.
  unfold node_at. destruct (vec_get nodes i) eqn:E; [|done]. intros _. by eapply vec_get_Some.
Qed.

Lemma node_at_set nodes i n j :
  0 ≤ i < len nodes → node_at (vec_set nodes i n) j = if j =? i then n else node_at nodes j.
Proof.
  intros Hi. unfold node_at. destruct (Z.eqb_spec j i) as [->|]; [by rewrite vec_get_set_eq|].
  by rewrite vec_get_set_ne.
Qed.

Lemma node_at_set_None nodes i j :
  node_at (vec_set nodes i None) j = if j =? i then None else node_at nodes j.
Proof.
  destruct (decide (0 ≤ i < len nodes)); [by apply node_at_set|].
  destruct (Z.eqb_spec j i) as [->|]; [apply node_at_None; by rewrite len_vec_set|].
  unfold node_at. by rewrite vec_get_set_ne.
Qed.

Lemma node_at_app nodes m : ∀ i, node_at (nodes ++ replicate m None) i = node_at nodes i.
Proof.
  intros i. unfold node_at. rewrite vec_get_app. destruct (Z.ltb_spec i (len nodes)); [done|].
  rewrite (proj2 (vec_get_None nodes i)) by lia. unfold vec_get.
  destruct (i - len nodes <? 0); [done|]. destruct (_ !! _) as [x|] eqn:E; [|done].
  by apply lookup_replicate in E as [-> _].
Qed.

Lemma pad_eq nodes m : nodes ++ replicate m None ≈ nodes.
Proof. intros i. apply node_at_app. Qed.

(** A blank node or a node past the end are told apart by no accessor. *)
Lemma borrow_node_at nodes i n : borrow_node nodes i = Ok n → 0 ≤ i → n = node_at nodes i.
Proof.
  unfold borrow_node, validate_index. case_match; [done|]. cbn. intros [= <-] _.
  unfold node_at. by destruct (vec_get nodes i) as [[]|].
Qed.

Lemma depth_spec nodes :
  fits nodes → 0 ≤ depth nodes ≤ 31 ∧ total_leaf_count nodes = 2 ^ depth nodes ∧
    len nodes < 2 ^ (depth nodes + 1).
Proof.
  unfold fits. intros Hf. pose proof (len_nonneg nodes).
  assert (1 ≤ len nodes / 2 + 1 ≤ 2 ^ 31) as [H1 H2].
  { pose proof (Z.div_pos (len nodes) 2). assert (len nodes / 2 < 2 ^ 31); [apply Z.div_lt_upper_bound|]; lia. }
  destruct (next_power_of_two_spec _ H1) as (d & Hd & Hp & Hle & Hmin).
  assert (d = depth nodes) as ->.
  { unfold next_power_of_two in Hp. apply Z.pow_inj_r in Hp; [done|lia|apply Z.log2_up_nonneg|done]. }
  split_and!; [done|apply Hmin; lia| |].
  - unfold total_leaf_count. by rewrite u32_small by (unfold is_u32; lia).
  - rewrite pow2_succ by done. pose proof (Z.div_mod (len nodes) 2). pose proof (Z.mod_pos_bound (len nodes) 2). lia.
Qed.

Lemma is_leaf_even i : TreeMath.is_leaf i = Z.even i.
Proof.
  unfold TreeMath.is_leaf. change (Z.land i 1) with (Z.land i (Z.ones 1)). rewrite Z.land_ones by lia. change (2 ^ 1) with 2.
  rewrite Zmod_even. by destruct (Z.even i).
Qed.

Lemma even_node k j : 0 ≤ k → 0 ≤ j → Z.even (TreeMath.node k j) = (k =? 0).
Proof.
  intros Hk Hj. destruct (Z.eqb_spec k 0) as [->|]; [by rewrite TreeMath.node_0, Z.even_mul|].
  replace k with (k - 1 + 1) by lia. rewrite TreeMath.node_S by lia.
  by rewrite Z.even_add, Z.even_mul.
Qed.

(** ** Resolutions *)
Lemma resolution_loop_node nodes (k : nat) :
  ∀ j, (k ≤ 31)%nat → 0 ≤ j →
  ∃ used : nat, (used < 2 ^ S k)%nat ∧ ∀ fuel rest acc,
    resolution_loop (used + fuel) nodes (TreeMath.node (Z.of_nat k) j :: rest) acc =
    resolution_loop fuel nodes rest (acc ++ resolution nodes k j).
Proof.
  induction k as [|k IH]; intros j Hk Hj; cbn [resolution]; fold (resolution nodes);
    set (i := TreeMath.node _ j).
  - exists 1%nat. split; [simpl; lia|]. intros fuel rest acc. cbn [Nat.add resolution_loop].
    unfold node_at. rewrite is_leaf_even. unfold i. rewrite even_node by lia.
    destruct (vec_get nodes _) as [[n|]|]; [by destruct n|cbn; by rewrite app_nil_r..].
  - destruct (node_at nodes i) as [n|] eqn:E.
    + exists 1%nat. split; [pose proof (Nat.pow_gt_1 2 (S (S k))); lia|]. intros fuel rest acc. cbn [Nat.add resolution_loop].
      unfold node_at in E. destruct (vec_get nodes i) as [[n'|]|]; [|done..]. injection E as ->. by destruct n.
    + destruct (IH (2 * j) ltac:(lia) ltac:(lia)) as (u1 & Hu1 & H1).
      destruct (IH (2 * j + 1) ltac:(lia) ltac:(lia)) as (u2 & Hu2 & H2).
      exists (S (u1 + u2)). split; [cbn [Nat.pow] in *; lia|]. intros fuel rest acc. cbn [Nat.add resolution_loop].
      unfold i. rewrite Nat2Z.inj_succ, <- Z.add_1_r, TreeMath.left_node, TreeMath.right_node by lia.
      rewrite is_leaf_even, even_node by lia. destruct (Z.eqb_spec (Z.of_nat k + 1) 0); [lia|].
      rewrite <- Nat.add_assoc. unfold i, node_at in E. rewrite Nat2Z.inj_succ, <- Z.add_1_r in E.
      destruct (vec_get nodes _) as [[n'|]|]; [done|..]; cbn [negb]; by rewrite H1, H2, app_assoc.
Qed.

Lemma get_resolution_index_node nodes (k : nat) j :
  (k ≤ 31)%nat → 0 ≤ j →
  get_resolution_index nodes (TreeMath.node (Z.of_nat k) j) = Ok (resolution nodes k j).
Proof.
  intros Hk Hj. destruct (resolution_loop_node nodes k j Hk Hj) as (u & Hu & H).
  unfold get_resolution_index, subtree_fuel. rewrite TreeMath.trailing_ones_node, Nat2Z.id by lia.
  replace (2 ^ S k)%nat with (u + (2 ^ S k - u))%nat by lia. rewrite H.
  by destruct (2 ^ S k - u)%nat.
Qed.

Lemma find_loop_node nodes (k : nat) :
  ∀ j, (k ≤ 31)%nat → 0 ≤ j →
  ∃ used : nat, (used < 2 ^ S k)%nat ∧ ∀ fuel rest n,
    find_loop (used + fuel) nodes (TreeMath.node (Z.of_nat k) j :: rest) n None =
    if bool_decide (resolution nodes k j = []) then find_loop fuel nodes rest n None else Ok (Some n).
Proof.
  induction k as [|k IH]; intros j Hk Hj; cbn [resolution]; fold (resolution nodes);
    set (i := TreeMath.node _ j).
  - exists 1%nat. split; [simpl; lia|]. intros fuel rest m. cbn [Nat.add find_loop].
    unfold node_at. rewrite is_leaf_even. unfold i. rewrite even_node by lia.
    by destruct (vec_get nodes _) as [[n|]|].
  - destruct (node_at nodes i) as [n|] eqn:E.
    + exists 1%nat. split; [pose proof (Nat.pow_gt_1 2 (S (S k))); lia|]. intros fuel rest m. cbn [Nat.add find_loop].
      unfold node_at in E. by destruct (vec_get nodes i) as [[n'|]|].
    + destruct (IH (2 * j) ltac:(lia) ltac:(lia)) as (u1 & Hu1 & H1).
      destruct (IH (2 * j + 1) ltac:(lia) ltac:(lia)) as (u2 & Hu2 & H2).
      exists (S (u1 + u2)). split; [cbn [Nat.pow] in *; lia|]. intros fuel rest m. cbn [Nat.add find_loop].
      unfold i. rewrite Nat2Z.inj_succ, <- Z.add_1_r, TreeMath.left_node, TreeMath.right_node by lia.
      rewrite is_leaf_even, even_node by lia. destruct (Z.eqb_spec (Z.of_nat k + 1) 0); [lia|].
      rewrite <- Nat.add_assoc. unfold i, node_at in E. rewrite Nat2Z.inj_succ, <- Z.add_1_r in E.
      destruct (vec_get nodes _) as [[n'|]|]; [done|..]; cbn [negb]; rewrite H1, H2;
        by destruct (resolution nodes k (2 * j)), (resolution nodes k (2 * j + 1)).
Qed.

Lemma is_resolution_empty_node nodes (k : nat) j :
  (k ≤ 31)%nat → 0 ≤ j →
  is_resolution_empty nodes (TreeMath.node (Z.of_nat k) j) = Ok (bool_decide (resolution nodes k j = [])).
Proof.
  intros Hk Hj. destruct (find_loop_node nodes k j Hk Hj) as (u & Hu & H).
  unfold is_resolution_empty, find_in_resolution, subtree_fuel.
  rewrite TreeMath.trailing_ones_node, Nat2Z.id by lia.
  replace (2 ^ S k + unmerged_total nodes)%nat with (u + (2 ^ S k - u + unmerged_total nodes))%nat by lia.
  rewrite H. case_bool_decide; [|done]. by destruct (2 ^ S k - u + unmerged_total nodes)%nat.
Qed.

(** A resolution is empty exactly when the whole subtree is blank. *)
Lemma resolution_nil nodes (k : nat) j :
  0 ≤ j → resolution nodes k j = [] ↔
  ∀ (m : nat) i, (m ≤ k)%nat → 0 ≤ i → i / 2 ^ Z.of_nat (k - m) = j →
    node_at nodes (TreeMath.node (Z.of_nat m) i) = None.
Proof.
  revert j. induction k as [|k IH]; intros j Hj; cbn [resolution].
  - split.
    + intros H m i Hm Hi. assert (m = O) as -> by lia. change (Z.of_nat (0 - 0)) with 0.
      rewrite Z.pow_0_r, Z.div_1_r. intros ->. by destruct (node_at _ _).
    + intros H. by rewrite (H 0%nat j) by (rewrite ?Z.div_1_r; lia).
  - split.
    + intros H m i Hm Hi Hij. destruct (node_at nodes (TreeMath.node _ j)) as [n|] eqn:E; [done|].
      apply app_nil in H as [H1 H2]. rewrite IH in H1, H2 by lia.
      destruct (decide (m = S k)) as [->|].
      { rewrite Nat.sub_diag in Hij. rewrite Z.pow_0_r, Z.div_1_r in Hij. by subst. }
      assert (i / 2 ^ Z.of_nat (k - m) / 2 = j) as Hd.
      { rewrite Z.div_div by (try apply pow2_pos; lia). rewrite Z.mul_comm, <- Z.pow_succ_r by lia.
        rewrite <- Hij. do 2 f_equal. lia. }
      pose proof (Z.div_mod (i / 2 ^ Z.of_nat (k - m)) 2). rewrite Hd in *.
      pose proof (Z.mod_pos_bound (i / 2 ^ Z.of_nat (k - m)) 2).
      destruct (decide (i / 2 ^ Z.of_nat (k - m) = 2 * j)); [apply H1|apply H2]; lia.
    + intros H. rewrite (H (S k) j) by (rewrite ?Nat.sub_diag, ?Z.div_1_r; lia).
      assert (∀ b, 0 ≤ b ≤ 1 → resolution nodes k (2 * j + b) = []) as Hb.
      { intros b Hb. apply IH; [lia|]. intros m i Hm Hi Hij. apply H; [lia|done|].
        replace (Z.of_nat (S k - m)) with (Z.of_nat (k - m) + 1) by lia.
        rewrite Z.pow_add_r, <- Z.div_div by (try apply pow2_pos; lia). rewrite Hij.
        change (2 ^ 1) with 2. Z.div_mod_to_equations. lia. }
      rewrite (Hb 1) by lia. pose proof (Hb 0) as H0. rewrite Z.add_0_r in H0. by rewrite H0 by lia.
Qed.

(** ** Insertion, blanking and trimming *)
Lemma node_index_small i : 0 ≤ i < 2 ^ 31 → node_index i = 2 * i.
Proof. intros. unfold node_index. rewrite u32_small; [lia|unfold is_u32; lia]. Qed.

Lemma vec_get_node_at nodes i : 0 ≤ i < len nodes → vec_get nodes i = Some (node_at nodes i).
Proof.
  intros Hi. apply vec_get_is_Some in Hi as [x Hx]. unfold node_at. by rewrite Hx.
Qed.

(** What [next_empty_leaf] finds: the first blank leaf from the start on, or the
    leaf after the last one. *)
Definition next_empty_spec (nodes : NodeVec) (start m : Z) : Prop :=
  0 ≤ m ∧ node_at nodes (2 * m) = None ∧
  (∀ i, start ≤ i < m → 2 * i < len nodes → is_Some (node_at nodes (2 * i))) ∧
  (2 * m < len nodes → start ≤ m) ∧ (len nodes ≤ 2 * m → m = (len nodes + 1) / 2).

Lemma next_empty_loop_spec nodes fuel start :
  len nodes < 2 ^ 32 - 1 → 0 ≤ start → (len nodes - 2 * start ≤ Z.of_nat fuel) →
  ∃ m, next_empty_loop fuel nodes (2 * start) = Ok m ∧ next_empty_spec nodes start m.
Proof.
  intros Hlen. pose proof (len_nonneg nodes).
  assert (u32 (u32 (len nodes) + 1) = len nodes + 1) as Hu.
  { rewrite (u32_small (len nodes)) by (unfold is_u32; lia). apply u32_small. unfold is_u32. lia. }
  revert start. induction fuel as [|fuel IH]; intros start Hs Hf; cbn [next_empty_loop];
    (destruct (Z.ltb_spec (2 * start) (len nodes)); [try lia|]).
  1,3: eexists; split; [done|]; rewrite Hu, Z.shiftr_div_pow2 by lia; change (2 ^ 1) with 2;
    unfold next_empty_spec; split_and!; [Z.div_mod_to_equations; lia| |intros; Z.div_mod_to_equations; lia..|done];
    apply node_at_None; Z.div_mod_to_equations; lia.
  unfold vec_index. rewrite vec_get_node_at by lia. cbn [unwrap mbind result_bind].
  case_bool_decide as E.
  - exists start. rewrite u32_small, Z.shiftr_div_pow2 by (unfold is_u32; lia). change (2 ^ 1) with 2.
    replace (2 * start / 2) with start by (Z.div_mod_to_equations; lia).
    split; [done|]. unfold next_empty_spec. split_and!; try done; lia.
  - destruct (IH (start + 1)) as (m & Hm & G0 & G1 & G2 & G3 & G4); [lia..|].
    replace (2 * start + 2) with (2 * (start + 1)) by lia. exists m. split; [done|].
    unfold next_empty_spec. split_and!; try done; [|intros; lia].
    intros i Hi Hil. destruct (decide (i = start)) as [->|]; [by destruct (node_at nodes (2 * start))|].
    apply G2; lia.
Qed.

Lemma next_empty_leaf_spec nodes start :
  len nodes < 2 ^ 32 - 1 → 0 ≤ start < 2 ^ 31 →
  ∃ m, next_empty_leaf nodes start = Ok m ∧ next_empty_spec nodes start m.
Proof.
  intros. unfold next_empty_leaf. rewrite node_index_small by done.
  apply next_empty_loop_spec; [done|lia|unfold len; lia].
Qed.

(** Trees that do not end in a parent. *)
Definition ends_in_leaf (nodes : NodeVec) : Prop := len nodes = 0 ∨ Z.odd (len nodes) = true.

Lemma insert_leaf_spec nodes m leaf :
  0 ≤ m → ends_in_leaf nodes → 2 * m ≤ len nodes + 1 →
  ∃ nodes', insert_leaf nodes m leaf = Ok nodes' ∧
    len nodes' = Z.max (len nodes) (2 * m + 1) ∧ ends_in_leaf nodes' ∧
    ∀ i, node_at nodes' i = if i =? 2 * m then Some (Leaf leaf) else node_at nodes i.
Proof.
  intros Hm He Hle. unfold insert_leaf. rewrite Z.shiftl_mul_pow2 by lia. change (2 ^ 1) with 2. rewrite (Z.mul_comm m).
  set (n1 := if 2 * m >? len nodes then nodes ++ [None; None] else if len nodes =? 0 then [None] else nodes).
  assert (n1 ≈ nodes ∧ len n1 = Z.max (len nodes) (2 * m + 1)) as [Heq Hlen].
  { unfold n1. pose proof (len_nonneg nodes).
    assert (len nodes = 0 ∨ ∃ t, len nodes = 2 * t + 1) as He'.
    { destruct He as [|(t & Ht)%Z.odd_spec]; [by left|right; eauto]. }
    destruct (Z.gtb_spec (2 * m) (len nodes)).
    - split; [apply (pad_eq nodes 2)|]. rewrite len_app. change (len [None; None]) with 2. destruct He' as [|[t ?]]; lia.
    - destruct (Z.eqb_spec (len nodes) 0) as [E|].
      + split; [|rewrite E; change (len [None]) with 1; lia].
        assert (nodes = []) as -> by (by apply length_zero_iff_nil; unfold len in *; lia). apply (pad_eq [] 1).
      + split; [done|]. destruct He' as [|[t ?]]; lia. }
  unfold vec_store. rewrite (proj2 (Z.leb_le _ _)), (proj2 (Z.ltb_lt _ _)) by lia. cbn [andb].
  eexists. split; [done|]. rewrite len_vec_set. split_and!; [done| |].
  - unfold ends_in_leaf in *. rewrite len_vec_set, Hlen. right.
    destruct (Z.max_spec (len nodes) (2 * m + 1)) as [[? ->]|[? ->]].
    + rewrite Z.odd_add, Z.odd_mul. done.
    + destruct He as [E|?]; [lia|done].
  - intros i. rewrite node_at_set by lia. by rewrite Heq.
Qed.

Lemma insert_leaf_parity nodes nodes' m leaf :
  (∀ i, node_at nodes' i = if i =? 2 * m then Some (Leaf leaf) else node_at nodes i) →
  parity nodes → parity nodes'.
Proof.
  intros H Hp i. specialize (Hp i). rewrite H. destruct (Z.eqb_spec i (2 * m)) as [->|]; [|done].
  by rewrite Z.even_mul.
Qed.

Lemma blank_path_at nodes cps i :
  node_at (foldl (λ (nodes : NodeVec) c, vec_set nodes (TreeMath.path c) None) nodes cps) i =
  if bool_decide (i ∈ TreeMath.path <$> cps) then None else node_at nodes i.
Proof.
  revert nodes. induction cps as [|c cps IH]; intros nodes; [done|]. cbn [foldl fmap list_fmap]. rewrite IH.
  rewrite node_at_set_None. destruct (Z.eqb_spec i (TreeMath.path c)) as [->|].
  - rewrite (bool_decide_eq_true_2 (TreeMath.path c ∈ TreeMath.path c :: _)) by left. by case_bool_decide.
  - rewrite (bool_decide_ext (i ∈ TreeMath.path c :: (TreeMath.path <$> cps)) (i ∈ TreeMath.path <$> cps)); [done|].
    rewrite elem_of_cons. naive_solver.
Qed.

Lemma len_blank_path nodes cps :
  len (foldl (λ (nodes : NodeVec) c, vec_set nodes (TreeMath.path c) None) nodes cps) = len nodes.
Proof.
  revert nodes. induction cps as [|c cps IH]; intros nodes; [done|]. cbn [foldl]. by rewrite IH, len_vec_set.
Qed.

(** The ancestors of a leaf in a tree of height [d]. *)
Definition is_ancestor (d leaf i : Z) : Prop :=
  ∃ p, 0 < p ≤ d ∧ i = TreeMath.node p (leaf / 2 ^ p).

Lemma direct_copath_ancestors d leaf i :
  0 ≤ d ≤ 31 → 0 ≤ leaf < 2 ^ d →
  i ∈ TreeMath.path <$> TreeMath.direct_copath (2 * leaf) (2 ^ d) ↔ is_ancestor d leaf i.
Proof.
  intros Hd Hl. rewrite <- TreeMath.node_0, TreeMath.direct_copath_node by (try split; lia || (rewrite ?Z.sub_0_r; lia)).
  rewrite list_elem_of_fmap. setoid_rewrite TreeMath.elem_of_copath_spec. split.
  - intros (c & -> & p & Hp & -> & _). exists (p + 1). split; [lia|]. f_equal. lia.
  - intros (p & Hp & ->). exists {| TreeMath.path := TreeMath.node p (leaf / 2 ^ p);
      TreeMath.copath := TreeMath.node (p - 1) (TreeMath.sib (leaf / 2 ^ (p - 1))) |}.
    split; [done|]. exists (p - 1). cbn. split_and!; try lia; f_equal; try lia; do 2 f_equal; lia.
Qed.

(** Ancestors in the infinite tree: those above the root are blank anyway. *)
Definition ancestor (leaf i : Z) : Prop := ∃ p, 0 < p ∧ i = TreeMath.node p (leaf / 2 ^ p).

Lemma ancestor_odd leaf i : 0 ≤ leaf → ancestor leaf i → Z.even i = false.
Proof.
  intros Hl (p & Hp & ->). rewrite even_node by (try apply Z.div_pos; try apply pow2_pos; lia).
  by apply Z.eqb_neq; lia.
Qed.

Lemma ancestor_em leaf i : 0 ≤ leaf → ancestor leaf i ∨ ¬ ancestor leaf i.
Proof.
  intros Hl. set (p := trailing_ones i).
  destruct (decide (0 < p ∧ i = TreeMath.node p (leaf / 2 ^ p))) as [[? ?]|Hn]; [left; by exists p|right].
  intros (q & Hq & ->). apply Hn. unfold p.
  rewrite TreeMath.trailing_ones_node by (try apply Z.div_pos; try apply pow2_pos; lia). done.
Qed.

Lemma ancestor_above nodes leaf p :
  fits nodes → 0 ≤ leaf < 2 ^ depth nodes → depth nodes < p →
  node_at nodes (TreeMath.node p (leaf / 2 ^ p)) = None.
Proof.
  intros Hf Hl Hp. apply depth_spec in Hf as (Hd & _ & Hlen). apply node_at_None.
  assert (2 ^ (depth nodes + 1) ≤ 2 ^ p) by (apply Z.pow_le_mono_r; lia).
  rewrite Z.div_small by (pose proof (Z.pow_lt_mono_r 2 (depth nodes) p); lia). unfold TreeMath.node. lia.
Qed.

Lemma leaf_in_tree nodes leaf : fits nodes → 0 ≤ leaf → 2 * leaf < len nodes → leaf < 2 ^ depth nodes.
Proof. intros Hf Hl Hlt. apply depth_spec in Hf as (Hd & _ & Hlen). rewrite pow2_succ in Hlen by lia. lia. Qed.

Lemma direct_copath_nodes nodes leaf :
  fits nodes → 0 ≤ leaf < 2 ^ depth nodes →
  direct_copath nodes leaf = TreeMath.copath_spec (depth nodes) 0 leaf.
Proof.
  intros Hf Hl. apply depth_spec in Hf as (Hd & Ht & Hlen). unfold direct_copath. rewrite Ht.
  assert (2 ^ depth nodes ≤ 2 ^ 31) by (apply Z.pow_le_mono_r; lia).
  rewrite node_index_small, <- TreeMath.node_0 by lia. apply TreeMath.direct_copath_node; [done|].
  split; [lia|]. by rewrite Z.sub_0_r.
Qed.

Lemma direct_copath_path nodes leaf i :
  fits nodes → 0 ≤ leaf < 2 ^ depth nodes →
  i ∈ TreeMath.path <$> direct_copath nodes leaf ↔ is_ancestor (depth nodes) leaf i.
Proof.
  intros Hf Hl. rewrite direct_copath_nodes by done. pose proof (depth_spec nodes Hf) as (Hd & _ & _).
  rewrite <- direct_copath_ancestors by done.
  rewrite <- TreeMath.node_0, TreeMath.direct_copath_node; [done|done|split; rewrite ?Z.sub_0_r; lia].
Qed.

Lemma blank_direct_path_spec nodes leaf :
  fits nodes → 0 ≤ leaf < 2 ^ depth nodes →
  ∃ nodes', blank_direct_path nodes leaf = Ok nodes' ∧ len nodes' = len nodes ∧
    ∀ i, (ancestor leaf i → node_at nodes' i = None) ∧
         (¬ ancestor leaf i → node_at nodes' i = node_at nodes i).
Proof.
  intros Hf Hl. eexists. split; [done|]. split; [apply len_blank_path|]. intros i. rewrite blank_path_at. split.
  - intros (p & Hp & ->). case_bool_decide as E; [done|].
    apply ancestor_above; [done..|]. apply Z.nle_gt. intros Hle. destruct E.
    apply direct_copath_path; [done..|]. exists p. by split; [lia|].
  - intros Hn. case_bool_decide as E; [|done]. apply direct_copath_path in E as (p & Hp & ->); [|done..].
    destruct Hn. exists p. by split; [lia|].
Qed.

Lemma blank_leaf_node_ok nodes leaf l nodes' :
  0 ≤ leaf < 2 ^ 31 → blank_leaf_node nodes leaf = (Ok l, nodes') →
  node_at nodes (2 * leaf) = Some (Leaf l) ∧ len nodes' = len nodes ∧
  ∀ i, node_at nodes' i = if i =? 2 * leaf then None else node_at nodes i.
Proof.
  intros Hl. unfold blank_leaf_node, validate_index. rewrite node_index_small by done. destruct (_ >=? _); [done|].
  intros E. assert (node_at nodes (2 * leaf) = Some (Leaf l) ∧ nodes' = vec_set nodes (2 * leaf) None) as [? ->].
  { unfold node_at. destruct (mjoin _) as [[]|]; by simplify_eq. }
  split_and!; [done|apply len_vec_set|]. intros i. apply node_at_set_None.
Qed.

(** Blanking a leaf that is there succeeds. *)
Lemma next_power_of_two_ge z : 0 ≤ z → z ≤ next_power_of_two z.
Proof.
  intros Hz. destruct (decide (z = 0)) as [->|]; [done|].
  destruct (next_power_of_two_spec z) as (d & _ & -> & ? & _); lia.
Qed.

Lemma validate_index_ok nodes i : i < len nodes → validate_index nodes i = Ok i.
Proof.
  intros Hi. unfold validate_index. pose proof (next_power_of_two_ge (len nodes) (len_nonneg nodes)).
  destruct (Z.geb_spec i (next_power_of_two (len nodes))); [lia|done].
Qed.

Lemma blank_leaf_node_total nodes leaf l :
  0 ≤ leaf < 2 ^ 31 → node_at nodes (2 * leaf) = Some (Leaf l) →
  blank_leaf_node nodes leaf = (Ok l, vec_set nodes (2 * leaf) None).
Proof.
  intros Hl Ha. pose proof (node_at_range _ _ _ Ha). unfold blank_leaf_node.
  rewrite node_index_small, validate_index_ok by lia. unfold node_at in Ha. by rewrite Ha.
Qed.

Lemma trim_decompose (l : list (option Node)) :
  ∃ m, l = replicate m None ++ drop_blank l ∧ ∀ x k, drop_blank l = x :: k → x ≠ None.
Proof.
  induction l as [|[n|] l (m & IH1 & IH2)]; [by exists O|by exists O; split; [|intros ? ? [= <- <-]]|].
  exists (S m). split; [|done]. cbn. by f_equal.
Qed.

Lemma trim_spec nodes :
  trim nodes ≈ nodes ∧ len (trim nodes) ≤ len nodes ∧ last (trim nodes) ≠ Some None.
Proof.
  unfold trim. destruct (trim_decompose (rev nodes)) as (m & Hm & Hx).
  assert (nodes = rev (drop_blank (rev nodes)) ++ replicate m None) as Hn.
  { rewrite <- (rev_involutive nodes) at 1. rewrite Hm at 1. rewrite rev_app_distr. f_equal.
    rewrite rev_reverse. apply reverse_replicate. }
  split_and!.
  - rewrite Hn at 2. intros i. by rewrite node_at_app.
  - rewrite Hn at 2. rewrite len_app. pose proof (len_nonneg (replicate m (@None Node))). lia.
  - rewrite rev_reverse, last_reverse. destruct (drop_blank (rev nodes)) as [|x k] eqn:E; [done|].
    cbn. intros [= ->]. by apply (Hx None k).
Qed.

(** ** The roster: the leaves by position *)
Definition leaf_at (nodes : NodeVec) (i : Z) : option LeafNode :=
  match node_at nodes (2 * i) with Some (Leaf l) => Some l | _ => None end.

#[global] Instance leaf_at_proper : Proper (tree_eq ==> eq ==> eq) leaf_at.
Proof. intros a b H i ? <-. unfold leaf_at. by rewrite H. Qed.

Lemma step_by_2_lookup {A} (l : list A) (t : nat) : step_by_2 l !! t = l !! (2 * t)%nat.
Proof.
  revert l t. fix IH 1. intros [|a [|b l]] [|t]; try reflexivity.
  cbn [step_by_2]. replace (2 * S t)%nat with (S (S (2 * t))) by lia. apply IH.
Qed.

Lemma leaves_lookup nodes (t : nat) :
  leaves nodes !! t = if 2 * Z.of_nat t <? len nodes then Some (leaf_at nodes (Z.of_nat t)) else None.
Proof.
  unfold leaves, leaf_at. rewrite list_lookup_fmap, step_by_2_lookup.
  destruct (Z.ltb_spec (2 * Z.of_nat t) (len nodes)) as [H|H].
  - replace (2 * Z.of_nat t) with (Z.of_nat (2 * t)) in * by lia. unfold node_at. rewrite vec_get_nat.
    destruct (nodes !! (2 * t)%nat) as [[[]|]|] eqn:E; [done..|].
    apply lookup_ge_None_1 in E. unfold len in H. lia.
  - rewrite lookup_ge_None_2; [done|]. unfold len in H. lia.
Qed.

(** The iterator yields exactly the occupied leaves, each once. *)
Lemma elem_of_non_empty_leaves nodes i l :
  fits nodes → (i, l) ∈ non_empty_leaves nodes ↔ leaf_at nodes i = Some l ∧ 0 ≤ i.
Proof.
  intros Hf. unfold fits in Hf. unfold non_empty_leaves. rewrite list_elem_of_omap. split.
  - intros ([t x] & Hin & Hx). apply elem_of_lookup_imap in Hin as (t' & x' & [= <- <-] & Ht).
    rewrite leaves_lookup in Ht. destruct (Z.ltb_spec (2 * Z.of_nat t) (len nodes)); [|done].
    injection Ht as <-. destruct (leaf_at nodes (Z.of_nat t)) eqn:E; [|done]. injection Hx as <- <-.
    rewrite u32_small by (unfold is_u32; lia). split; [done|lia].
  - intros [Hl Hi]. exists (Z.to_nat i, Some l). split.
    + apply elem_of_lookup_imap. exists (Z.to_nat i), (Some l). split; [done|].
      rewrite leaves_lookup, Z2Nat.id, Hl by done.
      unfold leaf_at in Hl. destruct (node_at nodes (2 * i)) as [n|] eqn:E; [|done].
      apply node_at_range in E. destruct (Z.ltb_spec (2 * i) (len nodes)); [done|lia].
    + cbn. rewrite Z2Nat.id by done. unfold leaf_at in Hl. destruct (node_at nodes (2 * i)) as [n|] eqn:E; [|done].
      apply node_at_range in E. rewrite u32_small by (unfold is_u32; lia). done.
Qed.

Lemma omap_fst_sublist {A B C} (f : A → option (B * C)) (g : A → B) (l : list A) :
  (∀ a b c, f a = Some (b, c) → b = g a) → (omap f l).*1 `sublist_of` (g <$> l).
Proof.
  intros Hf. induction l as [|a l IH]; [done|]. cbn. destruct (f a) as [[b c]|] eqn:E; cbn.
  - rewrite (Hf a b c E). by constructor.
  - by constructor.
Qed.

Lemma non_empty_leaves_NoDup nodes : fits nodes → NoDup ((non_empty_leaves nodes).*1).
Proof.
  intros Hf. unfold non_empty_leaves.
  eapply sublist_NoDup; [|apply (omap_fst_sublist _ (λ x, u32 (Z.of_nat x.1)))].
  - rewrite fmap_imap. rewrite (imap_ext _ (λ i _, u32 (Z.of_nat i))) by done. rewrite imap_seq_0.
    apply NoDup_fmap_2_strong; [|apply NoDup_seq]. intros x y Hx%elem_of_seq Hy%elem_of_seq.
    assert (Z.of_nat (length (leaves nodes)) < 2 ^ 32).
    { unfold fits, len in Hf. destruct (decide (length (leaves nodes) = 0)%nat); [lia|].
      destruct (lookup_lt_is_Some_2 (leaves nodes) (length (leaves nodes) - 1)) as [z Hz]; [lia|].
      rewrite leaves_lookup in Hz. destruct (Z.ltb_spec (2 * Z.of_nat (length (leaves nodes) - 1)) (len nodes)); [|done].
      unfold len in *. lia. }
    rewrite !u32_small by (unfold is_u32; lia). lia.
  - intros [i [l|]] b c; cbn; [|done]. by intros [= <- <-].
Qed.

(** A check of the parity of a concrete tree. *)
Definition parity_check (nodes : NodeVec) : bool :=
  forallb (λ '(i, n), match n with
                      | Some (Leaf _) => Z.even (Z.of_nat i)
                      | Some (ParentNode _) => negb (Z.even (Z.of_nat i))
                      | None => true
                      end) (imap pair nodes).

Lemma parity_check_sound nodes : parity_check nodes = true → parity nodes.
Proof.
  unfold parity_check. rewrite forallb_forall. intros H i. destruct (node_at nodes i) as [n|] eqn:E; [|done].
  pose proof (node_at_range _ _ _ E) as Hi. unfold node_at, vec_get in E.
  destruct (Z.ltb_spec i 0); [lia|]. destruct (nodes !! Z.to_nat i) as [o|] eqn:Ei; [|done]. cbn in E. subst o.
  assert (In (Z.to_nat i, Some n) (imap pair nodes)) as Hin
    by (apply list_elem_of_In, elem_of_lookup_imap; by exists (Z.to_nat i), (Some n)).
  specialize (H _ Hin). cbn in H. rewrite Z2Nat.id in H by lia. destruct n; [done|by apply negb_true_iff].
Qed.

(** ** Unmerged leaves *)

(** [i] is listed as unmerged by the node at [x]. *)
Definition lists (nodes : NodeVec) (i x : Z) : Prop :=
  ∃ p, node_at nodes x = Some (ParentNode p) ∧ i ∈ unmerged_leaves p.

(** From above level [k] up to level [m], the ancestors of leaf [i] are blank or
    list it as unmerged. *)
Definition unmerged_up (nodes : NodeVec) (i k m : Z) : Prop :=
  ∀ h, k < h ≤ m → let x := TreeMath.node h (i / 2 ^ h) in node_at nodes x = None ∨ lists nodes i x.

(** The unmerged leaves of a node are members below it, unmerged at every filled
    node in between (RFC 9420, section 7.9). *)
Definition unmerged_ok (nodes : NodeVec) : Prop :=
  ∀ x i, lists nodes i x → is_Some (leaf_at nodes i) ∧ 0 ≤ i ∧
    ∃ k, 0 < k ∧ x = TreeMath.node k (i / 2 ^ k) ∧ unmerged_up nodes i 0 k.

#[global] Instance unmerged_ok_proper : Proper (tree_eq ==> iff) unmerged_ok.
Proof.
  assert (∀ a b, a ≈ b → unmerged_ok a → unmerged_ok b) as H.
  { intros a b E Ha x i (p & Hx & Hi). destruct (Ha x i) as (Ho & Hi0 & k & Hk & -> & Hup); [exists p; by rewrite E|].
    split_and!; [unfold leaf_at in *; by rewrite <- E|done|]. exists k. split_and!; [done..|]. intros h Hh y.
    destruct (Hup h Hh) as [|(q & ? & ?)]; [left; by rewrite <- E|right]. exists q. by rewrite <- E. }
  intros a b E. split; apply H; [done|by symmetry].
Qed.

(** ** Populated trees

    A parent is filled only while both of its subtrees hold a member. *)
Definition has_leaf (nodes : NodeVec) (k j : Z) : Prop :=
  ∃ i, 0 ≤ i ∧ i / 2 ^ k = j ∧ is_Some (node_at nodes (2 * i)).

Definition populated (nodes : NodeVec) : Prop :=
  ∀ k j, 0 ≤ k → 0 ≤ j → is_Some (node_at nodes (TreeMath.node (k + 1) j)) →
    has_leaf nodes k (2 * j) ∧ has_leaf nodes k (2 * j + 1).

#[global] Instance populated_proper : Proper (tree_eq ==> iff) populated.
Proof.
  enough (∀ a b, a ≈ b → populated a → populated b) as H by (intros a b E; split; by apply H).
  intros a b E Ha k j Hk Hj Hs. rewrite <- E in Hs. destruct (Ha k j Hk Hj Hs) as [(i & Hi) (i' & Hi')].
  split; [exists i|exists i']; by rewrite <- E.
Qed.

#[global] Instance parity_proper : Proper (tree_eq ==> iff) parity.
Proof. intros a b E. split; intros H i; specialize (H i); [by rewrite <- E|by rewrite E]. Qed.

(** Filling leaves keeps a tree populated. *)
Lemma populated_insert nodes nodes' m leaf :
  (∀ i, node_at nodes' i = if i =? 2 * m then Some (Leaf leaf) else node_at nodes i) →
  populated nodes → populated nodes'.
Proof.
  intros H Hp k j Hk Hj Hs.
  assert (∀ j', has_leaf nodes k j' → has_leaf nodes' k j') as Hm.
  { intros j' (i & Hi & Hij & Hn). exists i. split_and!; try done. rewrite H. by case_match. }
  destruct (Hp k j Hk Hj); [|by split; apply Hm].
  rewrite H in Hs. destruct (Z.eqb_spec (TreeMath.node (k + 1) j) (2 * m)) as [E|]; [|done].
  apply (f_equal Z.even) in E. rewrite even_node, Z.even_mul in E by lia. cbn in E. lia.
Qed.

(** So does blanking a leaf together with its ancestors. *)
Lemma populated_blank nodes nodes' leaf :
  0 ≤ leaf →
  (∀ i, (ancestor leaf i ∨ i = 2 * leaf → node_at nodes' i = None) ∧
        (¬ ancestor leaf i → i ≠ 2 * leaf → node_at nodes' i = node_at nodes i)) →
  populated nodes → populated nodes'.
Proof.
  intros Hl H Hp k j Hk Hj Hs.
  assert (leaf / 2 ^ (k + 1) ≠ j) as Hn.
  { intros <-. destruct (H (TreeMath.node (k + 1) (leaf / 2 ^ (k + 1)))) as [Hb _].
    rewrite Hb in Hs; [by apply is_Some_None in Hs|]. left. exists (k + 1). split; [lia|done]. }
  assert (∀ j', has_leaf nodes k j' → j' / 2 = j → has_leaf nodes' k j') as Hm.
  { intros j' (i & Hi & Hij & Hx) Hj'. exists i. split_and!; try done. destruct (H (2 * i)) as [_ ->]; [done| |].
    - intros Ha%ancestor_odd; [|done]. by rewrite Z.even_mul in Ha.
    - intros E. assert (i = leaf) as -> by lia. apply Hn.
      rewrite <- Hj', <- Hij, Z.div_div by (try apply pow2_pos; lia). f_equal. rewrite pow2_succ by lia. lia. }
  destruct (Hp k j Hk Hj) as [H1 H2].
  - destruct (H (TreeMath.node (k + 1) j)) as [_ Hsame]. rewrite <- Hsame; [done| |].
    + intros (p & Hp' & E). apply TreeMath.node_inj in E as [<- ->]; [done|lia|done|lia|].
      apply Z.div_pos; [lia|apply pow2_pos; lia].
    + intros E. apply (f_equal Z.even) in E. rewrite even_node, Z.even_mul in E by lia. cbn in E. lia.
  - split; apply Hm; try done; Z.div_mod_to_equations; lia.
Qed.

(** A populated tree without trailing blanks ends in a leaf. *)
Lemma populated_ends_in_leaf nodes : populated nodes → last nodes ≠ Some None → ends_in_leaf nodes.
Proof.
  intros Hp Hlast. unfold ends_in_leaf. destruct (decide (len nodes = 0)) as [|Hne]; [by left|right].
  pose proof (len_nonneg nodes). set (x := len nodes - 1).
  assert (is_Some (node_at nodes x)) as Hx.
  { unfold node_at, vec_get, x. destruct (Z.ltb_spec (len nodes - 1) 0); [lia|].
    rewrite last_lookup in Hlast. unfold len in *. replace (Z.to_nat _) with (pred (length nodes)) by lia.
    destruct (lookup_lt_is_Some_2 nodes (pred (length nodes))) as [[n|] E]; [lia|by rewrite E|congruence]. }
  destruct (Z.odd (len nodes)) eqn:Ho; [done|exfalso].
  pose proof (TreeMath.node_surj x ltac:(unfold x; lia)) as Hs. set (t := trailing_ones x) in *.
  set (j := (x + 1) / 2 ^ (t + 1)) in *. pose proof (TreeMath.trailing_ones_nonneg x) as Ht. fold t in Ht.
  assert (0 ≤ j) as Hj by (apply Z.div_pos; [unfold x; lia|apply pow2_pos; lia]).
  assert (t ≠ 0) as Ht0.
  { intros E. rewrite E, TreeMath.node_0 in Hs. apply (f_equal Z.odd) in Hs. unfold x in Hs.
    rewrite Z.odd_sub, Ho, Z.odd_mul in Hs. done. }
  rewrite Hs in Hx. replace t with (t - 1 + 1) in Hx by lia.
  destruct (Hp (t - 1) j ltac:(lia) Hj Hx) as [_ (i & Hi & Hij & [n Hn])].
  apply node_at_range in Hn. assert ((2 * j + 1) * 2 ^ (t - 1) ≤ i).
  { rewrite <- Hij. rewrite Z.mul_comm. apply Z.mul_div_le. apply pow2_pos. lia. }
  assert (x = 2 * ((2 * j + 1) * 2 ^ (t - 1)) - 1).
  { rewrite Hs. unfold TreeMath.node. replace t with (t - 1 + 1) at 1 2 by lia.
    rewrite !pow2_succ by lia. lia. }
  unfold x in *. lia.
Qed.

(** ** Wire format *)
Definition parent_wf (p : Parent) : Prop := Forall is_u32 (unmerged_leaves p).

Definition node_wf (n : Node) : Prop :=
  match n with Leaf l => leaf_node_wf l | ParentNode p => parent_wf p end.

#[export] Instance parent_laws : CodecLaws parent_codec parent_wf.
Proof.
  assert (CodecLaws (vec_codec u32_codec) (Forall is_u32)) by (apply vec_laws; apply _).
  eapply laws_iff; [apply struct_laws; [by intros []|by intros (?&?&?)|typeclasses eauto]|].
  intros []. unfold parent_wf. cbn. tauto.
Qed.

#[export] Instance node_laws : CodecLaws node_codec node_wf.
Proof. solve_enum node_variants node_wf. Qed.

(** ** Properties *)

(** What is kept of the tree between commits. *)
Record tree_ok (nodes : NodeVec) : Prop := {
  ok_parity : parity nodes;
  ok_populated : populated nodes;
  ok_ends : ends_in_leaf nodes;
}.

Definition sample_nodes : NodeVec := [
  Some (Leaf (sample_leaf UpdateSource));
  Some (ParentNode {| parent_public_key := []; parent_parent_hash := []; unmerged_leaves := [1] |});
  Some (Leaf (sample_leaf (CommitSource []))); None; None; None;
  Some (Leaf (sample_leaf UpdateSource)) ].

(** The ratchet tree on the wire: [NodeVec], a vector of optional nodes with
    a one-byte tag for leaf and parent, round-trips and decodes canonically. *)
Theorem node_vec_codec_correct :
  CodecLaws node_vec_codec (Forall (λ o, from_option node_wf True o)).
Proof. apply vec_laws; apply _. Qed.

(** The filter of a direct path. *)
Lemma filtered_spec nodes leaf :
  fits nodes → 0 ≤ leaf < 2 ^ depth nodes →
  filtered nodes leaf =
    Ok ((λ p : nat, bool_decide (resolution nodes p (TreeMath.sib (leaf / 2 ^ Z.of_nat p)) = []))
          <$> seq 0 (Z.to_nat (depth nodes))).
Proof.
  intros Hf Hl. unfold filtered. fold (direct_copath nodes leaf). rewrite direct_copath_nodes by done.
  unfold TreeMath.copath_spec. rewrite Z.sub_0_r. pose proof (depth_spec nodes Hf) as (Hd & _ & _).
  set (ps := seq 0 (Z.to_nat (depth nodes))).
  assert (∀ p, p ∈ ps → (p ≤ 31)%nat ∧ 0 ≤ TreeMath.sib (leaf / 2 ^ Z.of_nat p)) as Hps.
  { intros p Hp%elem_of_seq. split; [lia|].
    eapply (TreeMath.in_tree_sib (depth nodes) (Z.of_nat p)); [apply TreeMath.in_tree_up; lia|lia]. }
  clearbody ps. induction ps as [|p ps IH]; [done|]. cbn [fmap list_fmap mapM_res]. cbn [TreeMath.copath].
  destruct (Hps p) as [? ?]; [left|]. rewrite (Z.add_0_l (Z.of_nat p)), is_resolution_empty_node by done. cbn [mbind result_bind].
  rewrite IH; [done|]. intros q Hq. apply Hps. by right.
Qed.

(** Resolutions: on every node of the tree [get_resolution_index] ends and
    returns the resolution the RFC defines (the node with its unmerged leaves
    when it is filled, else the resolutions of its children, left to right);
    [is_resolution_empty] decides whether it is empty, i.e. whether every node
    of the subtree is blank; [filtered] marks the places of a direct path
    whose copath node has an empty resolution. *)
Theorem resolution_correct (nodes : NodeVec) (k : nat) (j leaf : Z) :
  (k ≤ 31)%nat → 0 ≤ j → fits nodes → 0 ≤ leaf < 2 ^ depth nodes →
  get_resolution_index nodes (TreeMath.node (Z.of_nat k) j) = Ok (resolution nodes k j) ∧
  is_resolution_empty nodes (TreeMath.node (Z.of_nat k) j) = Ok (bool_decide (resolution nodes k j = [])) ∧
  (resolution nodes k j = [] ↔
     ∀ (m : nat) i, (m ≤ k)%nat → 0 ≤ i → i / 2 ^ Z.of_nat (k - m) = j →
       node_at nodes (TreeMath.node (Z.of_nat m) i) = None) ∧
  filtered nodes leaf =
    Ok ((λ p : nat, bool_decide (resolution nodes p (TreeMath.sib (leaf / 2 ^ Z.of_nat p)) = []))
          <$> seq 0 (Z.to_nat (depth nodes))).
Proof.
  intros Hk Hj Hf Hl. split_and!.
  - by apply get_resolution_index_node.
  - by apply is_resolution_empty_node.
  - by apply resolution_nil.
  - by apply filtered_spec.
Qed.

Lemma resolution_correct_witness :
  get_resolution_index sample_nodes 3 = Ok [1; 2; 6] ∧ filtered sample_nodes 1 = Ok [false; false].
Proof.
  destruct (resolution_correct sample_nodes 2 0 1) as (H1 & _ & _ & H2); [lia|lia|done|split; [lia|done]|].
  split; [exact H1|exact H2].
Defined.

(** Adding a leaf: the place [next_empty_leaf] finds is the first blank one
    from the start on, or the one after the last leaf; [insert_leaf] fills it
    without a panic, changes no other node, and keeps leaves at even and
    parents at odd positions, every filled parent with members on both sides,
    and the tree ending in a leaf. *)
Theorem insert_next_leaf_correct (nodes : NodeVec) (start : Z) (leaf : LeafNode) :
  len nodes < 2 ^ 32 - 1 → 0 ≤ start < 2 ^ 31 → tree_ok nodes →
  ∃ m nodes', next_empty_leaf nodes start = Ok m ∧ next_empty_spec nodes start m ∧
    insert_leaf nodes m leaf = Ok nodes' ∧ tree_ok nodes' ∧
    ∀ i, node_at nodes' i = if i =? 2 * m then Some (Leaf leaf) else node_at nodes i.
Proof.
  intros Hlen Hs [Hp Hq He]. destruct (next_empty_leaf_spec nodes start Hlen Hs) as (m & Hm & Hspec).
  pose proof Hspec as (H0 & _ & _ & _ & Hend).
  destruct (insert_leaf_spec nodes m leaf H0 He) as (nodes' & Hi & _ & He' & Hat).
  { destruct (Z.lt_ge_cases (2 * m) (len nodes)) as [|H]; [lia|]. apply Hend in H. Z.div_mod_to_equations. lia. }
  exists m, nodes'. split_and!; try done. split; [by eapply insert_leaf_parity|by eapply populated_insert|done].
Qed.

Definition sample_two : NodeVec := [Some (Leaf (sample_leaf UpdateSource)); None; None].

Lemma insert_next_leaf_correct_witness :
  ∃ m nodes', next_empty_leaf sample_two 0 = Ok m ∧ next_empty_spec sample_two 0 m ∧
    insert_leaf sample_two m (sample_leaf UpdateSource) = Ok nodes' ∧ tree_ok nodes' ∧
    ∀ i, node_at nodes' i = if i =? 2 * m then Some (Leaf (sample_leaf UpdateSource)) else node_at sample_two i.
Proof.
  apply insert_next_leaf_correct; [done|lia|].
  assert (∀ i, node_at sample_two i = if i =? 0 then Some (Leaf (sample_leaf UpdateSource)) else None) as H.
  { intros i. destruct (Z.eqb_spec i 0) as [->|]; [done|]. destruct (decide (0 ≤ i < 3)) as [Hi|Hi].
    - assert (i = 1 ∨ i = 2) as [-> | ->] by lia; done.
    - by apply node_at_None. }
  split; [| |by right].
  - intros i. rewrite H. by destruct (Z.eqb_spec i 0) as [->|].
  - intros k j Hk Hj. rewrite H. destruct (Z.eqb_spec (TreeMath.node (k + 1) j) 0) as [E|]; [|by intros [? ?]].
    exfalso. unfold TreeMath.node in E. rewrite (pow2_succ (k + 1)), (pow2_succ k) in E by lia.
    pose proof (pow2_pos k Hk). nia.
Defined.

(** A tree whose array ends in a parent (the importer only checks that the
    last node is not blank) has no room for the next leaf: the position
    [next_empty_leaf] returns is the one after the parent, [insert_leaf] does
    not extend the array for it, and the store is out of range. *)
Theorem insert_leaf_panics_after_parent (l k : LeafNode) (p : Parent) :
  next_empty_leaf [Some (Leaf l); Some (ParentNode p)] 0 = Ok 1 ∧
  insert_leaf [Some (Leaf l); Some (ParentNode p)] 1 k = Panic.
Proof. done. Qed.

(** A leaf index of [2^31] or more wraps around when it is turned into a
    node index: a remove or an update of leaf [2^31 + i] acts on leaf [i]. *)
Theorem large_leaf_index_aliases (ns : NodeVec) (i : Z) :
  0 ≤ i < 2 ^ 31 →
  blank_leaf_node ns (2 ^ 31 + i) = blank_leaf_node ns i ∧ borrow_as_leaf ns (2 ^ 31 + i) = borrow_as_leaf ns i.
Proof.
  intros Hi. assert (node_index (2 ^ 31 + i) = node_index i) as E.
  { unfold node_index, u32, wrap. replace ((2 ^ 31 + i) * 2) with (i * 2 + 1 * 2 ^ 32) by lia. by rewrite Z.mod_add. }
  unfold blank_leaf_node, borrow_as_leaf. by rewrite E.
Qed.

Lemma large_leaf_index_aliases_witness :
  (blank_leaf_node sample_two (2 ^ 31)).1 = Ok (sample_leaf UpdateSource).
Proof.
  change (2 ^ 31) with (2 ^ 31 + 0). rewrite (proj1 (large_leaf_index_aliases sample_two 0 ltac:(lia))). vm_compute. reflexivity.
Defined.

End Node.
