(* ===== verification/TreeIndex.v ===== *)
(** * The index of the ratchet tree (mls-rs/src/tree_kem/tree_index.rs)

    [TreeIndex] keeps hash maps from signature keys, HPKE keys and identities to
    leaves, and counters of credential and proposal types, so that a new leaf is
    checked against all members without a scan.  [represents] says which roster
    an index stands for; [insert] and [remove] keep it, and the indexed
    [index_insert] accepts exactly the leaves the linear scan (the build without
    the [tree_index] feature) accepts. *)
From S2P Require Import Prelude Codec TreeMath Types Node.
Import Node.

(** The application's identity provider: a parameter of the model.  Its
    [identity] method gives the unique identifier of a signing identity; the
    validation methods accept one or refuse it; each may fail with an error of its
    own. *)
Record IdentityProvider := {
  ip_identity : SigningIdentity → ExtensionList.t → AnyError + bytes;
  ip_validate_member : SigningIdentity → option Z → option ExtensionList.t → AnyError + unit;
  ip_validate_external_sender : SigningIdentity → option Z → option ExtensionList.t → AnyError + unit;
  ip_valid_successor : SigningIdentity → SigningIdentity → ExtensionList.t → AnyError + bool;
  ip_supported_types : list Z;
}.

(** [id_provider.identity(..).map_err(IdentityProviderError)]. *)
Definition identity (s : SigningIdentity) (ip : IdentityProvider) (ext : ExtensionList.t) : Result MlsError bytes :=
  match ip_identity ip s ext with
  | inl e => Err (IdentityProviderError e)
  | inr b => Ok b
  end.

(** A provider for concrete runs that accepts every identity. *)
Definition accepting (f : SigningIdentity → ExtensionList.t → AnyError + bytes) : IdentityProvider := {|
  ip_identity := f; ip_validate_member _ _ _ := inr tt; ip_validate_external_sender _ _ _ := inr tt;
  ip_valid_successor a b _ := inr (bool_decide (credential a = credential b)); ip_supported_types := [1] |}.

(** [.map_err(|e| MlsError::IdentityProviderError(e.into_any_error()))]. *)
Definition provider {A} (r : AnyError + A) : Result MlsError A :=
  match r with inl e => Err (IdentityProviderError e) | inr a => Ok a end.

Module TreeIndex.

Record TypeCounter := { supported : Z; used : Z }.

Record t := {
  credential_signature_key : gmap bytes Z;
  hpke_key : gmap bytes Z;
  identities : gmap bytes Z;
  credential_type_counters : gmap Z TypeCounter;
  proposal_type_counter : gmap Z Z;
}.

Definition new : t := {|
  credential_signature_key := ∅; hpke_key := ∅; identities := ∅;
  credential_type_counters := ∅; proposal_type_counter := ∅ |}.

Definition counter_default : TypeCounter := {| supported := 0; used := 0 |}.

Definition is_initialized (ti : t) : bool := negb (bool_decide (identities ti = ∅)).

(** [.entry(ty).or_default().supported += 1]. *)
Definition add_supported (m : gmap Z TypeCounter) (ty : Z) : gmap Z TypeCounter :=
  let c := default counter_default (m !! ty) in
  <[ty := {| supported := u32 (supported c + 1); used := used c |}]> m.

(** [*.entry(ty).or_default() += 1]. *)
Definition add_proposal (m : gmap Z Z) (ty : Z) : gmap Z Z :=
  <[ty := u32 (default 0 (m !! ty) + 1)]> m.

(** [TreeIndex::insert], with the state it leaves behind: a rejected credential
    type leaves its (zero) counter in the map. *)
Definition insert (ti : t) (index : Z) (leaf_node : LeafNode) (ident : bytes)
    : Result MlsError unit * t :=
  let old_leaf_count := Z.of_nat (size (credential_signature_key ti)) in
  let pub_key := signature_key (signing_identity leaf_node) in
  match credential_signature_key ti !! pub_key with
  | Some i => (Err (DuplicateLeafData i), ti)
  | None =>
  match hpke_key ti !! leaf_public_key leaf_node with
  | Some i => (Err (DuplicateLeafData i), ti)
  | None =>
  match identities ti !! ident with
  | Some i => (Err (DuplicateLeafData i), ti)
  | None =>
  if existsb (λ '(cred_type, c),
       (used c >? 0) && negb (bool_decide (cred_type ∈ credentials (capabilities leaf_node))))
       (map_to_list (credential_type_counters ti))
  then (Err InUseCredentialTypeUnsupportedByNewLeaf, ti)
  else
    let ty := credential_type (credential (signing_identity leaf_node)) in
    let c := default counter_default (credential_type_counters ti !! ty) in
    let counters := <[ty := c]> (credential_type_counters ti) in
    if negb (supported c =? u32 old_leaf_count)
    then (Err CredentialTypeOfNewLeafIsUnsupported,
          {| credential_signature_key := credential_signature_key ti; hpke_key := hpke_key ti;
             identities := identities ti; credential_type_counters := counters;
             proposal_type_counter := proposal_type_counter ti |})
    else
      let counters := <[ty := {| supported := supported c; used := u32 (used c + 1) |}]> counters in
      let counters := foldl add_supported counters (unique (credentials (capabilities leaf_node))) in
      let props := foldl add_proposal (proposal_type_counter ti)
                     (unique (proposals (capabilities leaf_node))) in
      (Ok tt,
       {| identities := <[ident := index]> (identities ti);
          credential_signature_key := <[pub_key := index]> (credential_signature_key ti);
          hpke_key := <[leaf_public_key leaf_node := index]> (hpke_key ti);
          credential_type_counters := counters;
          proposal_type_counter := props |})
  end end end.

Definition get_leaf_index_with_identity (ti : t) (ident : bytes) : option Z := identities ti !! ident.

(** [if let Some(counters) = .get_mut(ty) { counters.supported -= 1 }]. *)
Definition sub_supported (m : gmap Z TypeCounter) (ty : Z) : gmap Z TypeCounter :=
  alter (λ c, {| supported := u32 (supported c - 1); used := used c |}) ty m.
Definition sub_used (m : gmap Z TypeCounter) (ty : Z) : gmap Z TypeCounter :=
  alter (λ c, {| supported := supported c; used := u32 (used c - 1) |}) ty m.
Definition sub_proposal (m : gmap Z Z) (ty : Z) : gmap Z Z := alter (λ n, u32 (n - 1)) ty m.

Definition remove (ti : t) (leaf_node : LeafNode) (ident : bytes) : t :=
  let existed := bool_decide (is_Some (identities ti !! ident)) in
  let ti := {|
    identities := delete ident (identities ti);
    credential_signature_key :=
      delete (signature_key (signing_identity leaf_node)) (credential_signature_key ti);
    hpke_key := delete (leaf_public_key leaf_node) (hpke_key ti);
    credential_type_counters := credential_type_counters ti;
    proposal_type_counter := proposal_type_counter ti |} in
  if negb existed then ti
  else
    let ty := credential_type (credential (signing_identity leaf_node)) in
    let counters := sub_used (credential_type_counters ti) ty in
    let counters := foldl sub_supported counters (unique (credentials (capabilities leaf_node))) in
    {| identities := identities ti;
       credential_signature_key := credential_signature_key ti;
       hpke_key := hpke_key ti;
       credential_type_counters := counters;
       proposal_type_counter :=
         foldl sub_proposal (proposal_type_counter ti) (unique (proposals (capabilities leaf_node))) |}.

Definition count_supporting_proposal (ti : t) (proposal_type : Z) : Z :=
  default 0 (proposal_type_counter ti !! proposal_type).

(** [index_insert] with the [tree_index] feature. *)
Definition index_insert (ti : t) (new_leaf : LeafNode) (new_leaf_idx : Z) (ip : IdentityProvider)
    (ext : ExtensionList.t) : Result MlsError unit * t :=
  match identity (signing_identity new_leaf) ip ext with
  | Ok new_id => insert ti new_leaf_idx new_leaf new_id
  | Err e => (Err e, ti)
  | Panic => (Panic, ti)
  | Diverge => (Diverge, ti)
  end.

(** [index_insert] without the feature: a scan of the leaves; the body of its
    loop. *)
Definition scan_leaf (new_leaf : LeafNode) (new_id : bytes) (ip : IdentityProvider)
    (ext : ExtensionList.t) (i : Z) (leaf : LeafNode) : Result MlsError unit :=
  _ ← guard_or (negb (bool_decide (leaf_public_key new_leaf = leaf_public_key leaf))) (DuplicateLeafData i);
  _ ← guard_or (negb (bool_decide (signature_key (signing_identity new_leaf) =
                                    signature_key (signing_identity leaf)))) (DuplicateLeafData i);
  id ← identity (signing_identity leaf) ip ext;
  _ ← guard_or (negb (bool_decide (new_id = id))) (DuplicateLeafData i);
  _ ← guard_or (bool_decide (credential_type (credential (signing_identity leaf)) ∈
                              credentials (capabilities new_leaf)))
        InUseCredentialTypeUnsupportedByNewLeaf;
  guard_or (bool_decide (credential_type (credential (signing_identity new_leaf)) ∈
                          credentials (capabilities leaf)))
    CredentialTypeOfNewLeafIsUnsupported.

Definition index_insert_scan (nodes : NodeVec) (new_leaf : LeafNode) (new_leaf_idx : Z)
    (ip : IdentityProvider) (ext : ExtensionList.t) : Result MlsError unit :=
  new_id ← identity (signing_identity new_leaf) ip ext;
  foldM (λ _ '(i, leaf), scan_leaf new_leaf new_id ip ext i leaf)
    tt (List.filter (λ '(i, _), negb (i =? new_leaf_idx)) (non_empty_leaves nodes)).

(** ** Folding over the distinct types *)
(** A fold of updates at distinct keys updates each of them once. *)
Lemma foldl_at_keys {V} (f : gmap Z V → Z → gmap Z V) (g : option V → option V) (l : list Z) m ty :
  (∀ m k k', f m k !! k' = if decide (k' = k) then g (m !! k) else m !! k') →
  NoDup l → foldl f m l !! ty = if decide (ty ∈ l) then g (m !! ty) else m !! ty.
Proof.
  intros Hf. revert m. induction l as [|k l IH]; intros m Hn; cbn [foldl].
  - by destruct (decide (ty ∈ [])) as [H|]; [apply elem_of_nil in H|].
  - apply NoDup_cons in Hn as [Hk Hn]. rewrite IH, Hf by done.
    destruct (decide (ty = k)) as [->|Hne].
    + destruct (decide (k ∈ l)); [done|]. destruct (decide (k ∈ k :: l)) as [|[]]; [done|left].
    + destruct (decide (ty ∈ l)), (decide (ty ∈ k :: l)) as [H|H]; try done.
      * destruct H. by right.
      * apply elem_of_cons in H as [|]; done.
Qed.

Lemma add_supported_at m k k' :
  add_supported m k !! k' =
  if decide (k' = k)
  then Some (let c := default counter_default (m !! k) in
             {| supported := u32 (supported c + 1); used := used c |})
  else m !! k'.
Proof.
  unfold add_supported. destruct (decide (k' = k)) as [->|]; [by rewrite lookup_insert_eq|by rewrite lookup_insert_ne].
Qed.

Lemma add_proposal_at m k k' :
  add_proposal m k !! k' = if decide (k' = k) then Some (u32 (default 0 (m !! k) + 1)) else m !! k'.
Proof.
  unfold add_proposal. destruct (decide (k' = k)) as [->|]; [by rewrite lookup_insert_eq|by rewrite lookup_insert_ne].
Qed.

Lemma alter_at {V} (f : V → V) (m : gmap Z V) k k' :
  alter f k m !! k' = if decide (k' = k) then f <$> m !! k else m !! k'.
Proof.
  destruct (decide (k' = k)) as [->|]; [by rewrite lookup_alter_eq|by rewrite lookup_alter_ne].
Qed.

Lemma foldl_add_supported m l ty :
  foldl add_supported m (unique l) !! ty =
  if decide (ty ∈ l)
  then Some (let c := default counter_default (m !! ty) in
             {| supported := u32 (supported c + 1); used := used c |})
  else m !! ty.
Proof.
  rewrite (foldl_at_keys _ (λ o, Some (let c := default counter_default o in
    {| supported := u32 (supported c + 1); used := used c |})) _ _ _ add_supported_at (unique_NoDup l)).
  apply decide_ext, elem_of_unique.
Qed.

Lemma foldl_add_proposal m l ty :
  foldl add_proposal m (unique l) !! ty =
  if decide (ty ∈ l) then Some (u32 (default 0 (m !! ty) + 1)) else m !! ty.
Proof.
  rewrite (foldl_at_keys _ (λ o, Some (u32 (default 0 o + 1))) _ _ _ add_proposal_at (unique_NoDup l)).
  apply decide_ext, elem_of_unique.
Qed.

Lemma foldl_alter {V} (f : V → V) (m : gmap Z V) l ty :
  foldl (λ (m : gmap Z V) ty, alter f ty m) m (unique l) !! ty = if decide (ty ∈ l) then f <$> m !! ty else m !! ty.
Proof.
  rewrite (foldl_at_keys _ (fmap f) _ _ _ (alter_at f) (unique_NoDup l)).
  apply decide_ext, elem_of_unique.
Qed.

(** ** Counting members *)
Definition count (P : LeafNode → Prop) `{∀ l, Decision (P l)} (R : gmap Z LeafNode) : Z :=
  Z.of_nat (size (filter (λ kv : Z * LeafNode, P kv.2) R)).

Section count.
Context (P : LeafNode → Prop) `{∀ l, Decision (P l)}.

Lemma count_insert R i l :
  R !! i = None → count P (<[i := l]> R) = count P R + (if decide (P l) then 1 else 0).
Proof.
  intros Hi. unfold count. destruct (decide (P l)).
  - rewrite map_filter_insert_True by done. rewrite map_size_insert_None; [lia|].
    apply map_lookup_filter_None. by left.
  - rewrite map_filter_insert_False by done. by rewrite delete_id, Z.add_0_r.
Qed.

Lemma count_delete R i l :
  R !! i = Some l → count P (delete i R) = count P R - (if decide (P l) then 1 else 0).
Proof.
  intros Hi. rewrite <- (insert_delete_id R i l Hi) at 2. rewrite count_insert by apply lookup_delete_eq. lia.
Qed.

Lemma count_le R : 0 ≤ count P R ≤ Z.of_nat (size R).
Proof.
  unfold count. split; [lia|]. apply Nat2Z.inj_le, map_subseteq_size, map_filter_subseteq.
Qed.

Lemma count_all R : count P R = Z.of_nat (size R) ↔ ∀ i l, R !! i = Some l → P l.
Proof.
  unfold count. split.
  - intros E i l Hi. destruct (decide (P l)) as [|Hn]; [done|exfalso].
    assert (filter (λ kv : Z * LeafNode, P kv.2) R ⊂ R) as Hs%map_subset_size; [|lia].
    split; [apply map_filter_subseteq|]. intros Hsub.
    apply (lookup_weaken _ _ _ _ Hi) in Hsub. apply map_lookup_filter_Some in Hsub as [_ ?]. done.
  - intros Ha. rewrite map_filter_id; [done|]. intros i l Hi. by eapply Ha.
Qed.

Lemma count_pos R : 0 < count P R ↔ ∃ i l, R !! i = Some l ∧ P l.
Proof.
  unfold count. split.
  - intros Hs. destruct (map_choose (filter (λ kv : Z * LeafNode, P kv.2) R)) as (i & l & Hl).
    + intros E. rewrite E, map_size_empty in Hs. lia.
    + apply map_lookup_filter_Some in Hl. eauto.
  - intros (i & l & Hi & Hp). assert (size (filter (λ kv : Z * LeafNode, P kv.2) R) ≠ 0)%nat; [|lia].
    rewrite map_size_non_empty_iff. intros E.
    assert (filter (λ kv : Z * LeafNode, P kv.2) R !! i = Some l) as Hx by by apply map_lookup_filter_Some.
    by rewrite E in Hx.
Qed.
End count.

(** ** The roster an index represents *)
Definition sig_key (l : LeafNode) : bytes := signature_key (signing_identity l).
Definition cred_type (l : LeafNode) : Z := credential_type (credential (signing_identity l)).

(** [M] maps the key of each member to its leaf, and nothing else. *)
Definition keyed (f : LeafNode → bytes) (R : gmap Z LeafNode) (M : gmap bytes Z) : Prop :=
  size M = size R ∧ ∀ b i, M !! b = Some i ↔ ∃ l, R !! i = Some l ∧ f l = b.

Definition counter_of (ti : t) (ty : Z) : TypeCounter :=
  default counter_default (credential_type_counters ti !! ty).

Record represents (idf : LeafNode → bytes) (R : gmap Z LeafNode) (ti : t) : Prop := {
  rep_identities : keyed idf R (identities ti);
  rep_sig : keyed sig_key R (credential_signature_key ti);
  rep_hpke : keyed leaf_public_key R (hpke_key ti);
  rep_used ty : used (counter_of ti ty) = count (λ l, cred_type l = ty) R;
  rep_supported ty : supported (counter_of ti ty) = count (λ l, ty ∈ credentials (capabilities l)) R;
  rep_proposals ty : count_supporting_proposal ti ty = count (λ l, ty ∈ proposals (capabilities l)) R;
}.

(** What a new leaf must satisfy with respect to every member. *)
Definition compatible (idf : LeafNode → bytes) (R : gmap Z LeafNode) (l : LeafNode) : Prop :=
  ∀ i k, R !! i = Some k →
    sig_key k ≠ sig_key l ∧ leaf_public_key k ≠ leaf_public_key l ∧ idf k ≠ idf l ∧
    cred_type k ∈ credentials (capabilities l) ∧ cred_type l ∈ credentials (capabilities k).

Lemma keyed_empty f : keyed f ∅ ∅.
Proof. split; [done|]. intros b i. rewrite !lookup_empty. naive_solver. Qed.

Lemma keyed_insert f R M i l :
  keyed f R M → R !! i = None → M !! f l = None → keyed f (<[i := l]> R) (<[f l := i]> M).
Proof.
  intros [Hs HM] Hi Hl. split; [by rewrite !map_size_insert_None, Hs by done|].
  intros b i'. destruct (decide (b = f l)) as [->|Hb].
  - rewrite lookup_insert_eq. split.
    + intros [= <-]. exists l. by rewrite lookup_insert_eq.
    + intros (l' & Hl' & E). destruct (decide (i' = i)) as [->|]; [done|]. rewrite lookup_insert_ne in Hl' by done.
      assert (M !! f l = Some i') as Hx by (apply HM; eauto). congruence.
  - rewrite lookup_insert_ne, HM by done. split; intros (l' & Hl' & <-); exists l'.
    + rewrite lookup_insert_ne; [done|]. congruence.
    + destruct (decide (i' = i)) as [->|]; [|by rewrite lookup_insert_ne in Hl'].
      rewrite lookup_insert_eq in Hl'. congruence.
Qed.

Lemma keyed_delete f R M i l :
  keyed f R M → R !! i = Some l → keyed f (delete i R) (delete (f l) M).
Proof.
  intros [Hs HM] Hi. assert (M !! f l = Some i) as Hl by (apply HM; eauto).
  split; [by rewrite !map_size_delete_Some, Hs by eauto|].
  intros b i'. rewrite !lookup_delete_Some, HM. split.
  - intros [Hb (l' & Hl' & <-)]. exists l'. rewrite lookup_delete_ne; [done|]. congruence.
  - intros (l' & [Hne Hl']%lookup_delete_Some & <-). split; [|eauto].
    intros E. assert (M !! f l' = Some i') as Hx by (apply HM; eauto). rewrite <- E in Hx. congruence.
Qed.

Lemma keyed_None f R M l : keyed f R M → M !! f l = None ↔ ∀ i k, R !! i = Some k → f k ≠ f l.
Proof.
  intros [_ HM]. split.
  - intros Hn i k Hk E. assert (M !! f l = Some i) as Hx by (apply HM; eauto). congruence.
  - intros Ha. destruct (M !! f l) as [i|] eqn:E; [|done]. apply HM in E as (k & Hk & E). by destruct (Ha i k).
Qed.

Lemma represents_new idf : represents idf ∅ new.
Proof.
  assert (∀ (P : LeafNode → Prop) `{∀ l, Decision (P l)}, count P ∅ = 0) as Hc.
  { intros. unfold count. by rewrite map_filter_empty, map_size_empty. }
  split; intros; rewrite ?Hc; try apply keyed_empty; done.
Qed.

(** The scan of the counters finds a type in use that the leaf lacks. *)
Lemma in_use_spec idf R ti (types : list Z) :
  represents idf R ti →
  existsb (λ '(cred_type, c), (used c >? 0) && negb (bool_decide (cred_type ∈ types)))
    (map_to_list (credential_type_counters ti)) = true ↔
  ∃ i k, R !! i = Some k ∧ cred_type k ∉ types.
Proof.
  intros Hr. rewrite existsb_exists. split.
  - intros ([ty c] & Hin & [Hu Ht%negb_true_iff]%andb_true_iff).
    apply bool_decide_eq_false in Ht. apply list_elem_of_In, elem_of_map_to_list in Hin.
    pose proof (rep_used _ _ _ Hr ty) as Hc. unfold counter_of in Hc. rewrite Hin in Hc. cbn in Hc.
    assert (0 < count (λ l, cred_type l = ty) R) as (i & k & Hk & <-)%count_pos by lia. eauto.
  - intros (i & k & Hk & Hn). pose proof (rep_used _ _ _ Hr (cred_type k)) as Hc.
    assert (0 < count (λ l, cred_type l = cred_type k) R) as Hp by (apply count_pos; eauto).
    rewrite <- Hc in Hp. unfold counter_of in Hp.
    destruct (credential_type_counters ti !! cred_type k) as [c|] eqn:E; [|cbn in Hp; lia].
    exists (cred_type k, c). split; [by apply list_elem_of_In, elem_of_map_to_list|].
    apply andb_true_iff. split; [cbn in Hp; lia|]. by apply negb_true_iff, bool_decide_eq_false.
Qed.

(** The counters after an accepted leaf. *)
Lemma counters_insert R ti idf i l :
  represents idf R ti → R !! i = None → Z.of_nat (size R) < 2 ^ 32 - 1 →
  let ty := cred_type l in
  let c := default counter_default (credential_type_counters ti !! ty) in
  let m := <[ty := {| supported := supported c; used := u32 (used c + 1) |}]> (credential_type_counters ti) in
  ∀ ty', let c' := default counter_default
           (foldl add_supported m (unique (credentials (capabilities l))) !! ty') in
    used c' = count (λ l, cred_type l = ty') (<[i := l]> R) ∧
    supported c' = count (λ l, ty' ∈ credentials (capabilities l)) (<[i := l]> R).
Proof.
  intros Hr Hi Hsz ty c m ty'. rewrite foldl_add_supported, !count_insert by done.
  pose proof (rep_used _ _ _ Hr ty') as Hu. pose proof (rep_supported _ _ _ Hr ty') as Hs.
  pose proof (count_le (λ l, cred_type l = ty') R). pose proof (count_le (λ l, ty' ∈ credentials (capabilities l)) R).
  unfold counter_of in *. subst m c ty.
  destruct (decide (cred_type l = ty')) as [<-|Hne]; [rewrite lookup_insert_eq|rewrite lookup_insert_ne by done];
    destruct (decide (_ ∈ credentials (capabilities l))); cbn;
    rewrite ?Hu, ?Hs, ?u32_small by (unfold is_u32; lia); split; lia.
Qed.

Lemma insert_ok idf R ti i l :
  represents idf R ti → R !! i = None → Z.of_nat (size R) < 2 ^ 32 - 1 → compatible idf R l →
  ∃ ti', insert ti i l (idf l) = (Ok tt, ti') ∧ represents idf (<[i := l]> R) ti'.
Proof.
  intros Hr Hi Hsz Hc. pose proof Hr as [[_ Hid] [Hssz _] _ Hu Hs Hp].
  assert (credential_signature_key ti !! sig_key l = None) as Hsk.
  { eapply keyed_None; [apply Hr|]. intros j k Hk. by apply (Hc j k Hk). }
  assert (hpke_key ti !! leaf_public_key l = None) as Hhk.
  { eapply keyed_None; [apply Hr|]. intros j k Hk. by apply (Hc j k Hk). }
  assert (identities ti !! idf l = None) as Hik.
  { eapply keyed_None; [apply Hr|]. intros j k Hk. by apply (Hc j k Hk). }
  unfold insert. fold (sig_key l). rewrite Hsk, Hhk, Hik.
  destruct (existsb _ _) eqn:E.
  { apply (in_use_spec _ _ _ _ Hr) in E as (j & k & Hk & Hn). by destruct (Hc j k Hk) as (_ & _ & _ & ? & _). }
  fold (cred_type l). fold (counter_of ti (cred_type l)).
  assert (supported (counter_of ti (cred_type l)) = u32 (Z.of_nat (size (credential_signature_key ti)))) as ->%Z.eqb_eq.
  { rewrite Hs, Hssz, u32_small by (unfold is_u32; lia). apply count_all. intros j k Hk. by apply (Hc j k Hk). }
  cbn [negb]. eexists. split; [done|].
  pose proof (counters_insert R ti idf i l Hr Hi Hsz) as Hcnt. cbv zeta in Hcnt.
  rewrite insert_insert_eq.
  split; cbn [identities credential_signature_key hpke_key].
  - apply keyed_insert; [apply Hr|done..].
  - apply keyed_insert; [apply Hr|done..].
  - apply keyed_insert; [apply Hr|done..].
  - intros ty. apply Hcnt.
  - intros ty. apply Hcnt.
  - intros ty. unfold count_supporting_proposal in *. cbn. rewrite foldl_add_proposal, count_insert, <- Hp by done.
    pose proof (count_le (λ l, ty ∈ proposals (capabilities l)) R). rewrite <- Hp in *.
    destruct (decide _); [|lia]. cbn. apply u32_small. unfold is_u32. lia.
Qed.

Lemma insert_err idf R ti i l :
  represents idf R ti → Z.of_nat (size R) < 2 ^ 32 - 1 → ¬ compatible idf R l →
  ∃ e ti', insert ti i l (idf l) = (Err e, ti') ∧ represents idf R ti'.
Proof.
  intros Hr Hsz Hc. pose proof Hr as [Hid [Hssz Hsk] Hhk Hu Hs Hp].
  unfold insert. fold (sig_key l).
  destruct (credential_signature_key ti !! sig_key l) eqn:E1; [by eauto|].
  destruct (hpke_key ti !! leaf_public_key l) eqn:E2; [by eauto|].
  destruct (identities ti !! idf l) eqn:E3; [by eauto|].
  destruct (existsb _ _) eqn:E4; [by eauto|].
  fold (cred_type l). fold (counter_of ti (cred_type l)).
  destruct (Z.eqb_spec (supported (counter_of ti (cred_type l)))
    (u32 (Z.of_nat (size (credential_signature_key ti))))) as [E5|E5]; cbn [negb].
  - destruct Hc. rewrite Hs, Hssz, u32_small in E5 by (unfold is_u32; lia).
    intros j k Hk. split_and!.
    + eapply (keyed_None sig_key); [by split| |done]. done.
    + eapply (keyed_None leaf_public_key); eauto.
    + eapply (keyed_None idf); eauto.
    + destruct (decide (cred_type k ∈ credentials (capabilities l))); [done|].
      rewrite (proj2 (in_use_spec _ _ _ _ Hr)) in E4; [done|eauto].
    + by eapply (count_all (λ k, cred_type l ∈ credentials (capabilities k))).
  - eexists _, _. split; [done|]. split; cbn [identities credential_signature_key hpke_key]; try done.
    + intros ty. rewrite <- Hu. unfold counter_of. cbn. destruct (decide (cred_type l = ty)) as [<-|].
      * by rewrite lookup_insert_eq.
      * by rewrite lookup_insert_ne.
    + intros ty. rewrite <- Hs. unfold counter_of. cbn. destruct (decide (cred_type l = ty)) as [<-|].
      * by rewrite lookup_insert_eq.
      * by rewrite lookup_insert_ne.
Qed.

Lemma remove_represents idf R ti i l :
  represents idf R ti → Z.of_nat (size R) < 2 ^ 32 → R !! i = Some l →
  represents idf (delete i R) (remove ti l (idf l)).
Proof.
  intros Hr Hsz Hi. pose proof Hr as [[Hisz Hid] Hsk Hhk Hu Hs Hp].
  unfold remove. rewrite bool_decide_eq_true_2 by (exists i; apply Hid; eauto). cbn [negb].
  unfold counter_of, count_supporting_proposal in *.
  split; cbn [identities credential_signature_key hpke_key counter_of credential_type_counters].
  - apply keyed_delete; [apply Hr|done].
  - by apply (keyed_delete sig_key).
  - by apply (keyed_delete leaf_public_key).
  - intros ty. rewrite (count_delete _ _ _ _ Hi), <- Hu. unfold counter_of. cbn. unfold sub_supported.
    rewrite foldl_alter. unfold sub_used. rewrite alter_at. fold (cred_type l).
    pose proof (count_le (λ l, cred_type l = ty) R). rewrite <- Hu in *.
    assert (cred_type l = ty → 0 < count (λ l, cred_type l = ty) R) as Hpos by (intros; apply count_pos; eauto).
    rewrite <- Hu in Hpos.
    destruct (decide (cred_type l = ty)) as [Heq|Hne], (decide (ty = cred_type l)) as [->|]; try congruence;
      destruct (credential_type_counters ti !! _) as [c|]; destruct (decide _); cbn in *; try lia;
      rewrite ?u32_small by (unfold is_u32; lia); lia.
  - intros ty. rewrite (count_delete _ _ _ _ Hi), <- Hs. unfold counter_of. cbn. unfold sub_supported.
    rewrite foldl_alter. unfold sub_used. rewrite alter_at. fold (cred_type l).
    pose proof (count_le (λ l, ty ∈ credentials (capabilities l)) R). rewrite <- Hs in *.
    assert (ty ∈ credentials (capabilities l) → 0 < count (λ l, ty ∈ credentials (capabilities l)) R) as Hpos
      by (intros; apply count_pos; eauto). rewrite <- Hs in Hpos.
    destruct (decide (ty ∈ credentials (capabilities l))) as [E|E]; [specialize (Hpos E)|];
      destruct (decide (ty = cred_type l)) as [->|]; destruct (credential_type_counters ti !! _) as [c|];
      cbn in *; try lia; rewrite ?u32_small by (unfold is_u32; lia); lia.
  - intros ty. rewrite (count_delete _ _ _ _ Hi), <- Hp. unfold count_supporting_proposal, sub_proposal. cbn. rewrite foldl_alter.
    pose proof (count_le (λ l, ty ∈ proposals (capabilities l)) R). rewrite <- Hp in *.
    assert (ty ∈ proposals (capabilities l) → 0 < count (λ l, ty ∈ proposals (capabilities l)) R) as Hpos
      by (intros; apply count_pos; eauto). rewrite <- Hp in Hpos.
    destruct (decide _) as [E|E]; [specialize (Hpos E)|lia].
    destruct (proposal_type_counter ti !! ty); cbn in *; [|lia]. apply u32_small. unfold is_u32. lia.
Qed.

Lemma insert_cases (idf : LeafNode → bytes) R ti i l :
  represents idf R ti → R !! i = None → Z.of_nat (size R) < 2 ^ 32 - 1 →
  (compatible idf R l ∧ ∃ ti', insert ti i l (idf l) = (Ok tt, ti') ∧ represents idf (<[i := l]> R) ti') ∨
  (¬ compatible idf R l ∧ ∃ e ti', insert ti i l (idf l) = (Err e, ti') ∧ represents idf R ti').
Proof.
  intros Hr Hi Hsz. destruct (insert ti i l (idf l)) as [r ti'] eqn:E. destruct r as [[]|e| |].
  - left. assert (compatible idf R l) as Hc.
    { destruct (decide (Exists (λ '(_, k), ¬ (sig_key k ≠ sig_key l ∧ leaf_public_key k ≠ leaf_public_key l ∧ idf k ≠ idf l ∧
        cred_type k ∈ credentials (capabilities l) ∧ cred_type l ∈ credentials (capabilities k))) (map_to_list R))) as [Hx|Hx].
      - exfalso. apply Exists_exists in Hx as ([j k] & Hin & Hn). apply elem_of_map_to_list in Hin.
        destruct (insert_err idf R ti i l Hr Hsz) as (e & ti'' & E' & _); [|congruence].
        intros Hc. by apply Hn, (Hc j).
      - intros j k Hk. apply dec_stable. intros Hn. apply Hx, Exists_exists. exists (j, k).
        split; [by apply elem_of_map_to_list|done]. }
    split; [done|]. rewrite <- E. by apply insert_ok.
  - right. assert (¬ compatible idf R l) as Hc.
    { intros Hc. destruct (insert_ok idf R ti i l Hr Hi Hsz Hc) as (? & E' & _). congruence. }
    split; [done|]. rewrite <- E. by apply insert_err.
  - exfalso. unfold insert in E. repeat case_match; congruence.
  - exfalso. unfold insert in E. repeat case_match; congruence.
Qed.

(** ** The linear scan *)

(** The roster of a tree. *)
Definition roster (nodes : NodeVec) : gmap Z LeafNode := list_to_map (non_empty_leaves nodes).

Lemma roster_lookup nodes i :
  fits nodes → roster nodes !! i = if 0 <=? i then leaf_at nodes i else None.
Proof.
  intros Hf. unfold roster. apply option_eq. intros l.
  rewrite <- elem_of_list_to_map by by apply non_empty_leaves_NoDup.
  rewrite elem_of_non_empty_leaves by done. destruct (Z.leb_spec 0 i); naive_solver lia.
Qed.

(** The identity provider names every member. *)
Definition provides (ip : IdentityProvider) (ext : ExtensionList.t) (idf : LeafNode → bytes)
    (R : gmap Z LeafNode) : Prop :=
  ∀ i l, R !! i = Some l → ip_identity ip (signing_identity l) ext = inr (idf l).

Lemma scan_leaf_spec ip ext (new leaf : LeafNode) (new_id id : bytes) i :
  ip_identity ip (signing_identity leaf) ext = inr id →
  settled (scan_leaf new new_id ip ext i leaf) ∧
  (scan_leaf new new_id ip ext i leaf = Ok tt ↔
   sig_key leaf ≠ sig_key new ∧ leaf_public_key leaf ≠ leaf_public_key new ∧ id ≠ new_id ∧
   cred_type leaf ∈ credentials (capabilities new) ∧ cred_type new ∈ credentials (capabilities leaf)).
Proof.
  intros Hid. unfold scan_leaf, identity, sig_key, cred_type. rewrite Hid.
  repeat (case_bool_decide; cbn; [|try (split; [done|]; intuition congruence)]);
    (split; [done|]; intuition congruence).
Qed.

(** The scan accepts the compatible leaves and otherwise fails with an error. *)
Lemma scan_spec ip ext idf nodes i l :
  fits nodes → leaf_at nodes i = None → provides ip ext idf (<[i := l]> (roster nodes)) →
  settled (index_insert_scan nodes l i ip ext) ∧
  (index_insert_scan nodes l i ip ext = Ok tt ↔ compatible idf (roster nodes) l).
Proof.
  intros Hf Hi Hp. unfold index_insert_scan.
  pose proof (Hp i l ltac:(by rewrite lookup_insert_eq)) as Hl. unfold identity. rewrite Hl. cbn [mbind result_bind].
  assert (∀ j k, (j, k) ∈ List.filter (λ '(j, _), negb (j =? i)) (non_empty_leaves nodes) ↔ roster nodes !! j = Some k) as Hin.
  { intros j k. rewrite list_elem_of_In, filter_In, <- list_elem_of_In, elem_of_non_empty_leaves, roster_lookup by done.
    destruct (Z.leb_spec 0 j), (Z.eqb_spec j i) as [->|]; cbn; rewrite ?Hi; naive_solver lia. }
  assert (compatible idf (roster nodes) l ↔ ∀ j k, (j, k) ∈ List.filter (λ '(j, _), negb (j =? i)) (non_empty_leaves nodes) →
    sig_key k ≠ sig_key l ∧ leaf_public_key k ≠ leaf_public_key l ∧ idf k ≠ idf l ∧
    cred_type k ∈ credentials (capabilities l) ∧ cred_type l ∈ credentials (capabilities k)) as ->.
  { unfold compatible. by setoid_rewrite Hin. }
  assert (∀ j k, (j, k) ∈ List.filter (λ '(j, _), negb (j =? i)) (non_empty_leaves nodes) →
    ip_identity ip (signing_identity k) ext = inr (idf k)) as Hk.
  { intros j k Hjk. apply Hin in Hjk. apply (Hp j). rewrite lookup_insert_ne; [done|]. intros <-.
    rewrite roster_lookup, Hi in Hjk by done. by destruct (0 <=? i). }
  clear Hin Hp. induction (List.filter _ _) as [|[j k] ls IH]; cbn [foldM].
  - split; [done|]. split; [|done]. intros _ j k Hx. by apply elem_of_nil in Hx.
  - destruct (scan_leaf_spec ip ext l k (idf l) (idf k) j (Hk j k ltac:(left))) as [Hs Hok].
    destruct IH as [IHs IHok]; [intros j' k' ?; apply (Hk j'); by right|].
    destruct (scan_leaf l (idf l) ip ext j k) as [[]| | |]; cbn; try done.
    + split; [done|]. rewrite IHok. setoid_rewrite elem_of_cons. split.
      * intros Ha j' k' [[= -> ->]|Hjk]; [by apply Hok|by apply (Ha j')].
      * intros Ha j' k' Hjk. apply (Ha j'). by right.
    + split; [done|]. split; [done|]. intros Ha. apply Hok, (Ha j). left.
Qed.

(** ** Properties *)

(** [TreeIndex::insert] on an index that represents a roster accepts a new
    leaf exactly when no member has its signature key, HPKE key or identity,
    the leaf supports every credential type in use, and every member supports
    the leaf's credential type.  The index then represents the roster with the
    leaf; a rejected leaf leaves it representing the old roster.  The 32-bit
    counters do not overflow. *)
Theorem index_insert_refines (idf : LeafNode → bytes) R ti i l :
  represents idf R ti → R !! i = None → Z.of_nat (size R) < 2 ^ 32 - 1 →
  (compatible idf R l ∧ ∃ ti', insert ti i l (idf l) = (Ok tt, ti') ∧ represents idf (<[i := l]> R) ti') ∨
  (¬ compatible idf R l ∧ ∃ e ti', insert ti i l (idf l) = (Err e, ti') ∧ represents idf R ti').
Proof. apply insert_cases. Qed.

Lemma index_insert_refines_witness :
  ∃ ti, insert new 0 (sample_leaf UpdateSource) [] = (Ok tt, ti) ∧
        represents (λ _, []) (<[0 := sample_leaf UpdateSource]> ∅) ti.
Proof.
  destruct (index_insert_refines (λ _, []) ∅ new 0 (sample_leaf UpdateSource)) as [[_ H]|[Hn _]];
    [apply represents_new|done|done|exact H|].
  destruct Hn. intros i k Hk. by rewrite lookup_empty in Hk.
Defined.

(** [TreeIndex::remove] of a member leaves the index representing the
    roster without it: the maps lose exactly its keys, and no counter
    underflows. *)
Theorem index_remove_refines (idf : LeafNode → bytes) R ti i l :
  represents idf R ti → Z.of_nat (size R) < 2 ^ 32 → R !! i = Some l →
  represents idf (delete i R) (remove ti l (idf l)) ∧
  get_leaf_index_with_identity ti (idf l) = Some i ∧
  get_leaf_index_with_identity (remove ti l (idf l)) (idf l) = None.
Proof.
  intros Hr Hsz Hi. pose proof (remove_represents idf R ti i l Hr Hsz Hi) as Hr'. split_and!; [done| |].
  - apply (rep_identities _ _ _ Hr). eauto.
  - unfold get_leaf_index_with_identity, remove. case_match; apply lookup_delete_eq.
Qed.

Lemma index_remove_refines_witness :
  ∃ ti, get_leaf_index_with_identity ti [] = Some 0 ∧
        get_leaf_index_with_identity (remove ti (sample_leaf UpdateSource) []) [] = None.
Proof.
  destruct (insert_ok (λ _, []) ∅ new 0 (sample_leaf UpdateSource)) as (ti & _ & Hr);
    [apply represents_new|done|done|intros i k Hk; by rewrite lookup_empty in Hk|].
  exists ti. destruct (index_remove_refines (λ _, []) _ ti 0 (sample_leaf UpdateSource) Hr) as (_ & H1 & H2);
    [done|apply lookup_insert_eq|]. split; [exact H1|exact H2].
Defined.

(** The indexed check and the linear scan of the tree accept the same leaves:
    for an index that represents the roster of the tree, [index_insert] with the
    [tree_index] feature succeeds exactly when [index_insert] without it does,
    and neither panics. *)
Theorem index_insert_equivalence (ip : IdentityProvider) (ext : ExtensionList.t) idf nodes ti i l :
  fits nodes → represents idf (roster nodes) ti → leaf_at nodes i = None →
  provides ip ext idf (<[i := l]> (roster nodes)) → Z.of_nat (size (roster nodes)) < 2 ^ 32 - 1 →
  is_ok (index_insert ti l i ip ext).1 = is_ok (index_insert_scan nodes l i ip ext) ∧
  settled (index_insert ti l i ip ext).1 ∧ settled (index_insert_scan nodes l i ip ext).
Proof.
  intros Hf Hr Hi Hp Hsz. destruct (scan_spec ip ext idf nodes i l Hf Hi Hp) as [Hset Hok].
  assert (roster nodes !! i = None) as Hi'. { rewrite roster_lookup by done. by destruct (0 <=? i). }
  unfold index_insert, identity. rewrite (Hp i l) by apply lookup_insert_eq.
  destruct (index_insert_scan nodes l i ip ext) as [[]|e| |] eqn:E; try done.
  - destruct (insert_ok idf _ ti i l Hr Hi' Hsz) as (ti' & -> & _); [by apply Hok|done].
  - destruct (insert_err idf _ ti i l Hr Hsz) as (e' & ti' & -> & _); [|done]. intros Hc%Hok. done.
Qed.

Lemma index_insert_equivalence_witness :
  let ip := accepting (λ s _, inr (signature_key s)) in
  is_ok (index_insert new (sample_leaf UpdateSource) 0 ip []).1 =
  is_ok (index_insert_scan [] (sample_leaf UpdateSource) 0 ip []).
Proof.
  intros ip. apply (index_insert_equivalence ip [] sig_key [] new 0 (sample_leaf UpdateSource));
    [done|apply represents_new|done| |done].
  intros i k _. reflexivity.
Defined.

End TreeIndex.
