(* ===== verification/Identity.v ===== *)
(** * Identity providers (mls-rs/src/identity/basic.rs, mls-rs-identity-x509)

    The two implementations of the trait [IdentityProvider] in the repository: basic
    credentials, whose identifier is the identity, and X.509 credentials, which hold a
    chain of certificates.  The X.509 provider is put together from a validator of
    chains and an extractor of identities; the extractor of the repository reads the
    subject of one certificate of the chain, at an offset, through a reader of
    certificates.  Those three traits are records of operations here; [X509] has the
    reader and the validator of the RustCrypto crate.

    The theorems: what the X.509 provider accepts; a successor the extractor accepts
    has the identity of its predecessor when the offset is zero, and not otherwise. *)
From Stdlib Require Import Strings.String.
From S2P Require Import Prelude Codec Types TreeIndex.

Module Identity.
(** A provider's result, an error boxed. *)
Definition boxed {E A} (box : E → AnyError) (r : E + A) : AnyError + A :=
  match r with inl e => inl (box e) | inr a => inr a end.

(** ** Basic credentials: identity/basic.rs *)
Inductive BasicIdentityProviderError := BasicIdentityProviderErr (ty : Z).

Definition resolve_basic_identity (signing_id : SigningIdentity) : BasicIdentityProviderError + bytes :=
  match credential signing_id with
  | Basic identifier => inr identifier
  | c => inl (BasicIdentityProviderErr (credential_type c))
  end.

Definition basic_unit (s : SigningIdentity) : BasicIdentityProviderError + unit :=
  match resolve_basic_identity s with inl e => inl e | inr _ => inr tt end.

Definition basic_valid_successor (predecessor successor : SigningIdentity) : BasicIdentityProviderError + bool :=
  match resolve_basic_identity predecessor with
  | inl e => inl e
  | inr p => match resolve_basic_identity successor with inl e => inl e | inr s => inr (bool_decide (p = s)) end
  end.

Definition basic_identity_provider (box : BasicIdentityProviderError → AnyError) : IdentityProvider := {|
  ip_validate_member s _ _ := boxed box (basic_unit s);
  ip_validate_external_sender s _ _ := boxed box (basic_unit s);
  ip_identity s _ := boxed box (resolve_basic_identity s);
  ip_valid_successor p s _ := boxed box (basic_valid_successor p s);
  ip_supported_types := [BASIC];
|}.

(** ** X.509: error.rs, traits.rs, util.rs *)
Inductive X509IdentityError :=
  | UnsupportedCredentialType (ty : Z)
  | SignatureKeyMismatch
  | InvalidCertificateChain
  | InvalidOffset
  | EmptyChain
  | CredentialEncodingError (e : AnyError)
  | X509ReaderError (e : AnyError)
  | IdentityExtractorError (e : AnyError)
  | X509ValidationError (e : AnyError)
  | IdentityWarningProviderError (e : AnyError).

(** Strings are their UTF-8 bytes. *)
Inductive SubjectAltName := AltEmail (s : bytes) | AltUri (s : bytes) | AltDns (s : bytes) | AltRid (s : bytes) | AltIp (s : bytes).

Inductive SubjectComponent :=
  | CommonName (s : bytes)
  | Surname (s : bytes)
  | SerialNumber (s : bytes)
  | CountryName (s : bytes)
  | Locality (s : bytes)
  | State (s : bytes)
  | StreetAddress (s : bytes)
  | OrganizationName (s : bytes)
  | OrganizationalUnit (s : bytes)
  | Title (s : bytes)
  | GivenName (s : bytes)
  | EmailAddress (s : bytes)
  | UserId (s : bytes)
  | DomainComponent (s : bytes)
  | Initials (s : bytes)
  | GenerationQualifier (s : bytes)
  | DistinguishedNameQualifier (s : bytes)
  | Pseudonym (s : bytes).

#[global] Instance subject_component_eq_dec : EqDecision SubjectComponent.
Proof. solve_decision. Defined.

Record CertificateRequestParameters := { req_subject : list SubjectComponent; req_alt_names : list SubjectAltName; is_ca : bool }.

(** The traits of readers of certificates, of extractors and of validators, whose errors
    are boxed; an implementation may panic. *)
Record X509CertificateReader := {
  subject_bytes : bytes → Result AnyError bytes;
  subject_components : bytes → Result AnyError (list SubjectComponent);
  subject_alt_names : bytes → Result AnyError (list SubjectAltName);
  public_key : bytes → Result AnyError bytes;
}.

Record X509IdentityExtractor := {
  x509_identity : list bytes → Result AnyError bytes;
  x509_valid_successor : list bytes → list bytes → Result AnyError bool;
}.

Record X509CredentialValidator := { x509_validate_chain : list bytes → option Z → Result AnyError bytes }.

Definition credential_to_chain (c : Credential) : Result X509IdentityError (list bytes) :=
  match c with X509 chain => Ok chain | _ => Err (UnsupportedCredentialType (credential_type c)) end.

(** ** The provider: provider.rs *)
Record X509IdentityProvider := { identity_extractor : X509IdentityExtractor; validator : X509CredentialValidator }.

Section provider.
Context (p : X509IdentityProvider).

Definition validate (s : SigningIdentity) (timestamp : option Z) : Result X509IdentityError unit :=
  chain ← credential_to_chain (credential s);
  leaf_public_key ← map_err X509ValidationError (x509_validate_chain (validator p) chain timestamp);
  guard_or (bool_decide (leaf_public_key = signature_key s)) SignatureKeyMismatch.

Definition provider_identity (s : SigningIdentity) : Result X509IdentityError bytes :=
  chain ← credential_to_chain (credential s);
  map_err IdentityExtractorError (x509_identity (identity_extractor p) chain).

Definition provider_valid_successor (predecessor successor : SigningIdentity) : Result X509IdentityError bool :=
  before ← credential_to_chain (credential predecessor);
  after ← credential_to_chain (credential successor);
  map_err IdentityExtractorError (x509_valid_successor (identity_extractor p) before after).

(** The interface of the library has no panics; a panic of the implementation is taken
    for the error [InvalidCertificateChain], and [settled] says when there is none. *)
Definition settle (box : X509IdentityError → AnyError) {A} (r : Result X509IdentityError A) : AnyError + A :=
  match r with Ok a => inr a | Err e => inl (box e) | _ => inl (box InvalidCertificateChain) end.

Definition x509_identity_provider (box : X509IdentityError → AnyError) : IdentityProvider := {|
  ip_validate_member s time _ := settle box (validate s time);
  ip_validate_external_sender s time _ := settle box (validate s time);
  ip_identity s _ := settle box (provider_identity s);
  ip_valid_successor a b _ := settle box (provider_valid_successor a b);
  ip_supported_types := [X509_TYPE];
|}.
End provider.

(** ** The extractor: identity_extractor.rs *)
Record SubjectIdentityExtractor := { offset : nat; reader : X509CertificateReader }.

Definition get_certificate (chain : list bytes) (offset : nat) : Result X509IdentityError bytes := ok_or (chain !! offset) InvalidOffset.

Definition is_common_name (c : SubjectComponent) : bool := match c with CommonName _ => true | _ => false end.

Section extractor.
Context (x : SubjectIdentityExtractor).

Definition extract_common_name (certificate : bytes) : Result X509IdentityError (option SubjectComponent) :=
  components ← map_err IdentityExtractorError (subject_components (reader x) certificate);
  Ok (List.find is_common_name components).

Definition extractor_subject_bytes (certificate : bytes) : Result X509IdentityError bytes :=
  map_err X509ReaderError (subject_bytes (reader x) certificate).

Definition extractor_identity (chain : list bytes) : Result X509IdentityError bytes :=
  cert ← get_certificate chain (offset x);
  common_name_value ← extract_common_name cert;
  match common_name_value with
  | Some (CommonName common_name) => Ok common_name
  | _ => extractor_subject_bytes cert
  end.

Definition extractor_valid_successor (predecessor successor : list bytes) : Result X509IdentityError bool :=
  predecessor_cert ← get_certificate predecessor 0;
  successor_cert ← get_certificate successor 0;
  predecessor_common_name ← extract_common_name predecessor_cert;
  successor_common_name ← extract_common_name successor_cert;
  match predecessor_common_name, successor_common_name with
  | Some pre_common_name, Some succ_common_name => Ok (bool_decide (pre_common_name = succ_common_name))
  | _, _ =>
      before ← extractor_subject_bytes predecessor_cert;
      after ← extractor_subject_bytes successor_cert;
      Ok (bool_decide (before = after))
  end.
End extractor.

(** [impl X509IdentityExtractor for SubjectIdentityExtractor]. *)
Definition subject_identity_extractor (box : X509IdentityError → AnyError) (x : SubjectIdentityExtractor) : X509IdentityExtractor := {|
  x509_identity chain := map_err box (extractor_identity x chain);
  x509_valid_successor a b := map_err box (extractor_valid_successor x a b);
|}.

(** ** What the providers accept *)

(** Basic credentials: whoever has the same identifier is a successor. *)
Theorem basic_successor_exact box a b exts :
  ip_valid_successor (basic_identity_provider box) a b exts = inr true ↔
  ∃ i, ip_identity (basic_identity_provider box) a exts = inr i ∧ ip_identity (basic_identity_provider box) b exts = inr i.
Proof.
  cbn. unfold basic_valid_successor, resolve_basic_identity. destruct (credential a), (credential b); cbn; try naive_solver.
  split; [|intros (i & [= ->] & [= ->]); by rewrite bool_decide_eq_true_2]. intros [= ->%bool_decide_eq_true]. eauto.
Qed.

Lemma validate_ok p s time :
  validate p s time = Ok tt ↔ ∃ chain, credential s = X509 chain ∧ x509_validate_chain (validator p) chain time = Ok (signature_key s).
Proof.
  unfold validate, credential_to_chain. destruct (credential s) as [i|chain|ty d]; cbn; [naive_solver| |naive_solver]. split.
  - intros (k & Hk%map_err_ok & Hb%guard_or_ok)%bind_ok. apply bool_decide_eq_true in Hb as <-. eauto.
  - intros (c & [= <-] & ->). cbn. by rewrite bool_decide_eq_true_2.
Qed.

(** [is_common_name] of the component that is found. *)
Lemma found_common_name l c : List.find is_common_name l = Some c → ∃ n, c = CommonName n.
Proof. intros [_ H]%List.find_some. destruct c; try done. eauto. Qed.

(** A reader reads the components and the bytes of one subject. *)
Class ReaderLaws (r : X509CertificateReader) : Prop :=
  subject_determines c c' b : subject_bytes r c = Ok b → subject_bytes r c' = Ok b → subject_components r c = subject_components r c'.

(** The certificate an identity is read from. *)
Definition names (x : SubjectIdentityExtractor) (chain : list bytes) (n : option bytes) : Prop :=
  ∃ cert, chain !! offset x = Some cert ∧ extract_common_name x cert = Ok (CommonName <$> n).

Lemma extract_inv x cert r : extract_common_name x cert = Ok r → ∃ n, r = CommonName <$> n.
Proof.
  unfold extract_common_name. intros (l & _ & [= <-])%bind_ok. destruct (List.find _ l) as [c|] eqn:E; [|by exists None].
  apply found_common_name in E as [n ->]. by exists (Some n).
Qed.

Lemma identity_inv x chain i : extractor_identity x chain = Ok i →
  ∃ cert, chain !! offset x = Some cert ∧
    (extract_common_name x cert = Ok (Some (CommonName i)) ∨ extract_common_name x cert = Ok None ∧ extractor_subject_bytes x cert = Ok i).
Proof.
  unfold extractor_identity, get_certificate. destruct (chain !! offset x) as [cert|]; [|done]. cbn. intros (r & Hr & H)%bind_ok.
  exists cert. split; [done|]. destruct (extract_inv _ _ _ Hr) as [[n|] ->]; cbn in H; [left|right; by split]. by injection H as <-.
Qed.

Lemma identity_of x chain cert i : chain !! offset x = Some cert →
  extract_common_name x cert = Ok (Some (CommonName i)) ∨ extract_common_name x cert = Ok None ∧ extractor_subject_bytes x cert = Ok i →
  extractor_identity x chain = Ok i.
Proof. unfold extractor_identity, get_certificate. intros ->. cbn. by intros [->|[-> H]]. Qed.

Section successors.
Context (x : SubjectIdentityExtractor) `{!ReaderLaws (reader x)}.

Lemma successors_and_identities a b : offset x = 0%nat →
  (extractor_valid_successor x a b = Ok true → ∃ i, extractor_identity x a = Ok i ∧ extractor_identity x b = Ok i) ∧
  (∀ i na nb, extractor_identity x a = Ok i → extractor_identity x b = Ok i → names x a na → names x b nb → (is_Some na ↔ is_Some nb) →
     extractor_valid_successor x a b = Ok true).
Proof.
  intros H0. split.
  - unfold extractor_valid_successor, get_certificate. intros (ca & Ha & (cb & Hb & (ra & Hra & (rb & Hrb & H)%bind_ok)%bind_ok)%bind_ok)%bind_ok.
    destruct (a !! 0%nat) as [ca'|] eqn:Ea; [|done]. destruct (b !! 0%nat) as [cb'|] eqn:Eb; [|done]. injection Ha as ->. injection Hb as ->.
    rewrite <- H0 in Ea, Eb. destruct (extract_inv _ _ _ Hra) as [na ->], (extract_inv _ _ _ Hrb) as [nb ->].
    assert ((na = None ∨ nb = None) → (before ← extractor_subject_bytes x ca; after ← extractor_subject_bytes x cb;
      Ok (bool_decide (before = after))) = Ok true → ∃ i, extractor_identity x a = Ok i ∧ extractor_identity x b = Ok i) as Hbytes.
    { intros Hn (i & Hi & (i' & Hi' & [= <-%bool_decide_eq_true])%bind_ok)%bind_ok. exists i.
      assert (extract_common_name x ca = extract_common_name x cb) as E.
      { unfold extract_common_name. apply map_err_ok in Hi, Hi'. by rewrite (subject_determines ca cb i Hi Hi'). }
      rewrite Hra, Hrb in E. destruct na, nb; cbn in E; try done; [by destruct Hn|]. split; (eapply identity_of; [done|]; right; by split). }
    destruct na as [na|], nb as [nb|]; cbn in H; try by apply Hbytes; auto.
    injection H as [= ->]%bool_decide_eq_true. exists nb. split; (eapply identity_of; [done|]; by left).
  - intros i na nb (ca & Ha & Hia)%identity_inv (cb & Hb & Hib)%identity_inv (ca' & Ha' & Hna) (cb' & Hb' & Hnb) Hn.
    rewrite Ha in Ha'. rewrite Hb in Hb'. injection Ha' as <-. injection Hb' as <-. rewrite H0 in Ha, Hb.
    unfold extractor_valid_successor, get_certificate. rewrite Ha, Hb. cbn. rewrite Hna, Hnb in *. cbn.
    destruct Hia as [[= Ea]|[[= Ea] Hia]], Hib as [[= Eb]|[[= Eb] Hib]]; destruct na, nb; simplify_eq/=; try (by destruct Hn as [H1 H2]; destruct H1; eauto);
      try (by destruct Hn as [H1 H2]; destruct H2; eauto).
    + by rewrite bool_decide_eq_true_2.
    + rewrite Hia, Hib. cbn. by rewrite bool_decide_eq_true_2.
Qed.

(** Whoever is accepted as a successor has the identity of its predecessor, when
    both are read from the first certificate; of two with the same identity the
    second is accepted, when both or neither have a common name. *)
Theorem successor_iff_same_identity a b : offset x = 0%nat →
  (extractor_valid_successor x a b = Ok true → ∃ i, extractor_identity x a = Ok i ∧ extractor_identity x b = Ok i) ∧
  (∀ i na nb, extractor_identity x a = Ok i → extractor_identity x b = Ok i → names x a na → names x b nb → (is_Some na ↔ is_Some nb) →
     extractor_valid_successor x a b = Ok true).
Proof. apply successors_and_identities. Qed.

Lemma successor_same_identity a b : extractor_valid_successor x a b = Ok true → offset x = 0%nat →
  ∃ i, extractor_identity x a = Ok i ∧ extractor_identity x b = Ok i.
Proof. intros H H0. by apply (successors_and_identities a b H0). Qed.
End successors.

(** ** Examples *)

(** A certificate that is its subject: a first byte 1 marks a common name. *)
Definition sample_reader : X509CertificateReader := {|
  subject_bytes c := Ok c;
  subject_components c := Ok (match c with Byte.x01 :: n => [CountryName []; CommonName n] | _ => [Surname c] end);
  subject_alt_names c := Ok [];
  public_key c := Ok c;
|}.

#[export] Instance sample_reader_laws : ReaderLaws sample_reader.
Proof. intros c c' b [= ->] [= ->]. done. Qed.

(** The second of two certificates of one name is a successor. *)
Lemma successor_iff_same_identity_witness :
  let x := {| offset := 0; reader := sample_reader |} in
  ∃ i, extractor_identity x [[Byte.x01; Byte.x05]; [Byte.x02]] = Ok i ∧ extractor_identity x [[Byte.x01; Byte.x05]] = Ok i.
Proof. intros x. apply (proj1 (successor_iff_same_identity x [[Byte.x01; Byte.x05]; [Byte.x02]] [[Byte.x01; Byte.x05]] eq_refl)). reflexivity. Defined.

(** An extractor with an offset reads the identity there and compares successors by the
    first certificates: at offset one it accepts a successor of another identity
    and refuses one of the same identity. *)
Theorem successor_ignores_offset :
  let x := {| offset := 1; reader := sample_reader |} in
  let alice := [Byte.x01; Byte.x0a] in let bob := [Byte.x01; Byte.x0b] in let leaf := [Byte.x01; Byte.x01] in let other := [Byte.x01; Byte.x02] in
  extractor_valid_successor x [leaf; alice] [leaf; bob] = Ok true ∧
  extractor_identity x [leaf; alice] = Ok [Byte.x0a] ∧ extractor_identity x [leaf; bob] = Ok [Byte.x0b] ∧
  extractor_valid_successor x [leaf; alice] [other; alice] = Ok false ∧
  extractor_identity x [other; alice] = Ok [Byte.x0a].
Proof. vm_compute. split_and!; reflexivity. Qed.

(** A common name and the bytes of a subject without one are not told apart. *)
Theorem names_and_subjects_collide :
  let x := {| offset := 0; reader := sample_reader |} in
  let unnamed := [Byte.x30; Byte.x00] in let named := [Byte.x01; Byte.x30; Byte.x00] in
  extractor_identity x [unnamed] = Ok unnamed ∧ extractor_identity x [named] = Ok unnamed ∧
  extractor_valid_successor x [unnamed] [named] = Ok false.
Proof. vm_compute. split_and!; reflexivity. Qed.
End Identity.
