(* ===== verification/Extensions.v ===== *)
(** * Extensions with a meaning (mls-rs/src/extension/built_in.rs,
    mls-rs-core/src/extension.rs, extension/list.rs, group/exported_tree.rs)

    The payload of an extension the protocol interprets is the encoding of a
    value: [MlsCodecExtension] gives its type and format, [get_as] reads it out of
    an extension list and [set_from] writes it. *)
From S2P Require Import Prelude Codec Types TreeMath Node TreeIndex.
Import LeafCodecs Node.

Definition APPLICATION_ID : Z := 1.
Definition RATCHET_TREE : Z := 2.
Definition REQUIRED_CAPABILITIES : Z := 3.
Definition EXTERNAL_PUB : Z := 4.
Definition EXTERNAL_SENDERS : Z := 5.

(** [ExtensionType::is_default]. *)
Definition is_default (ty : Z) : bool := ty <=? 5.

(** [MlsExtension], for the types that implement [MlsCodecExtension]. *)
Class MlsCodecExtension (E : Type) := { ext_type : Z; ext_codec : MlsCodec E }.
Arguments ext_type E {_}.

Definition into_extension {E} `{!MlsCodecExtension E} (e : E) : Result ExtensionErr Extension :=
  d ← map_err (λ e, ExtSerializationError (CodecAnyError e)) (mls_encode_to_vec ext_codec e);
  Ok {| extension_type := ext_type E; extension_data := d |}.

(** Bytes after the value are ignored, as [mls_decode] leaves them. *)
Definition from_extension {E} `{!MlsCodecExtension E} (x : Extension) : Result ExtensionErr E :=
  if negb (extension_type x =? ext_type E) then Err (IncorrectType (extension_type x))
  else '(e, _) ← map_err (λ e, ExtDeserializationError (CodecAnyError e)) (mls_decode ext_codec (extension_data x));
       Ok e.

Definition get_as {E} `{!MlsCodecExtension E} (l : ExtensionList.t) : Result ExtensionErr (option E) :=
  match ExtensionList.get l (ext_type E) with
  | None => Ok None
  | Some x => e ← from_extension x; Ok (Some e)
  end.

Definition set_from {E} `{!MlsCodecExtension E} (l : ExtensionList.t) (e : E) : Result ExtensionErr ExtensionList.t :=
  x ← into_extension e; Ok (ExtensionList.set l x).

(** ** The extensions of the protocol *)
Record ApplicationIdExt := { identifier : bytes }.
Record RatchetTreeExt := { tree_data : NodeVec }.
Record RequiredCapabilitiesExt := { rc_extensions : list Z; rc_proposals : list Z; rc_credentials : list Z }.
Record ExternalPubExt := { external_pub : bytes }.
Record ExternalSendersExt := { allowed_senders : list SigningIdentity }.

#[export] Instance application_id_ext : MlsCodecExtension ApplicationIdExt := {|
  ext_type := APPLICATION_ID; ext_codec := struct_codec identifier Build_ApplicationIdExt byte_vec_codec |}.
#[export] Instance ratchet_tree_ext : MlsCodecExtension RatchetTreeExt := {|
  ext_type := RATCHET_TREE; ext_codec := struct_codec tree_data Build_RatchetTreeExt Node.node_vec_codec |}.
#[export] Instance required_capabilities_ext : MlsCodecExtension RequiredCapabilitiesExt := {|
  ext_type := REQUIRED_CAPABILITIES;
  ext_codec := struct_codec (λ r, (rc_extensions r, (rc_proposals r, rc_credentials r)))
    (λ '(a, (b, c)), {| rc_extensions := a; rc_proposals := b; rc_credentials := c |})
    (tuple_codec (vec_codec u16_codec) (tuple_codec (vec_codec u16_codec) (vec_codec u16_codec))) |}.
#[export] Instance external_pub_ext : MlsCodecExtension ExternalPubExt := {|
  ext_type := EXTERNAL_PUB; ext_codec := struct_codec external_pub Build_ExternalPubExt byte_vec_codec |}.
#[export] Instance external_senders_ext : MlsCodecExtension ExternalSendersExt := {|
  ext_type := EXTERNAL_SENDERS;
  ext_codec := struct_codec allowed_senders Build_ExternalSendersExt (vec_codec signing_identity_codec) |}.

(** [ExternalSendersExt::verify_all]. *)
Fixpoint verify_all (ip : IdentityProvider) (time : option Z) (exts : ExtensionList.t) (l : list SigningIdentity)
    : AnyError + unit :=
  match l with
  | [] => inr tt
  | s :: l =>
      match ip_validate_external_sender ip s time (Some exts) with
      | inl e => inl e
      | inr _ => verify_all ip time exts l
      end
  end.

(** ** Reading back what was set *)

(** A format of an extension is lawful on the well-formed values. *)
Class ExtensionLaws (E : Type) `{!MlsCodecExtension E} (wf : E → Prop) : Prop := {
  ext_laws :: CodecLaws ext_codec wf;
  ext_type_u16 : is_u16 (ext_type E);
}.

#[export] Instance application_id_laws : ExtensionLaws ApplicationIdExt (λ _, True).
Proof. split; [|done]. eapply laws_iff; [apply struct_laws; [by intros []|done|typeclasses eauto]|done]. Qed.

#[export] Instance ratchet_tree_laws : ExtensionLaws RatchetTreeExt (λ r, Forall (λ o, from_option node_wf True o) (tree_data r)).
Proof. split; [|done]. eapply laws_iff; [apply struct_laws; [by intros []|done|apply vec_laws; apply _]|done]. Qed.

#[export] Instance required_capabilities_laws :
  ExtensionLaws RequiredCapabilitiesExt (λ r, Forall is_u16 (rc_extensions r) ∧ Forall is_u16 (rc_proposals r) ∧ Forall is_u16 (rc_credentials r)).
Proof. split; [|done]. eapply laws_iff; [apply struct_laws; [by intros []|by intros (?&?&?)|typeclasses eauto]|done]. Qed.

#[export] Instance external_pub_laws : ExtensionLaws ExternalPubExt (λ _, True).
Proof. split; [|done]. eapply laws_iff; [apply struct_laws; [by intros []|done|typeclasses eauto]|done]. Qed.

#[export] Instance signing_identity_nonempty : NonEmpty signing_identity_codec signing_identity_wf.
Proof.
  intros s Hs. apply (tuple_nonempty byte_vec_codec credential_codec (λ _, True) credential_wf _ byte_vec_nonempty
    (signature_key s, credential s)). split; [done|exact Hs].
Qed.

#[export] Instance external_senders_laws : ExtensionLaws ExternalSendersExt (λ e, Forall signing_identity_wf (allowed_senders e)).
Proof. split; [|done]. eapply laws_iff; [apply struct_laws; [by intros []|done|apply vec_laws; typeclasses eauto]|done]. Qed.

Lemma set_get_same l x : ExtensionList.get (ExtensionList.set l x) (extension_type x) = Some x.
Proof.
  induction l as [|e l IH]; cbn; [by rewrite Z.eqb_refl|]. destruct (extension_type e =? extension_type x) eqn:E; cbn;
    [by rewrite Z.eqb_refl|by rewrite E].
Qed.

Lemma set_get_ne l x ty : ty ≠ extension_type x → ExtensionList.get (ExtensionList.set l x) ty = ExtensionList.get l ty.
Proof.
  intros Hne. induction l as [|e l IH]; cbn.
  - destruct (extension_type x =? ty) eqn:E; [|done]. apply Z.eqb_eq in E. by subst.
  - destruct (extension_type e =? extension_type x) eqn:E; cbn.
    + apply Z.eqb_eq in E. rewrite E. destruct (extension_type x =? ty) eqn:E'; [|done]. apply Z.eqb_eq in E'. by subst.
    + by rewrite IH.
Qed.

Lemma from_into {E} `{!MlsCodecExtension E} wf `{!ExtensionLaws E wf} (e : E) x :
  wf e → into_extension e = Ok x → from_extension x = Ok e ∧ extension_type x = ext_type E.
Proof.
  unfold into_extension, from_extension, mls_encode_to_vec. intros Hwf.
  destruct (mls_encode ext_codec e []) as [d| | |] eqn:Ed; try discriminate. intros [= <-]. cbn.
  rewrite Z.eqb_refl. cbn. by rewrite (decode_nil_rest ext_codec wf e d Hwf Ed).
Qed.

(** What is set is read back, and what has another type is untouched; setting and
    reading settle. *)
Lemma get_as_set_from {E} `{!MlsCodecExtension E} wf `{!ExtensionLaws E wf} (e : E) l l' :
  wf e → set_from l e = Ok l' →
  get_as l' = Ok (Some e) ∧ ∀ ty, ty ≠ ext_type E → ExtensionList.get l' ty = ExtensionList.get l ty.
Proof.
  unfold set_from, get_as. intros Hwf. destruct (into_extension e) as [x| | |] eqn:Ex; try discriminate. intros [= <-].
  destruct (from_into wf e x Hwf Ex) as [Hf Hty]. split.
  - by rewrite <- Hty, set_get_same, Hf.
  - intros ty Hne. apply set_get_ne. by rewrite Hty.
Qed.

Lemma get_as_settled {E} `{!MlsCodecExtension E} wf `{!ExtensionLaws E wf} l : settled (get_as l : Result _ (option E)).
Proof.
  unfold get_as. destruct (ExtensionList.get _ _) as [x|]; [|done]. apply settled_bind; [|done].
  unfold from_extension. case_match; [done|]. apply settled_bind; [|by intros []].
  pose proof (decode_settled (c:=ext_codec) (extension_data x)) as Hs. by destruct (mls_decode ext_codec (extension_data x)).
Qed.

(** Reading gives a well-formed value. *)
Lemma get_as_wf {E} `{!MlsCodecExtension E} wf `{!ExtensionLaws E wf} l (e : E) : get_as l = Ok (Some e) → wf e.
Proof.
  unfold get_as. destruct (ExtensionList.get _ _) as [x|]; [|done]. unfold from_extension. case_match; [done|].
  destruct (mls_decode ext_codec (extension_data x)) as [[e' r]| | |] eqn:E'; try done. cbn. intros [= <-].
  by apply (decode_sound (wf:=wf)) in E' as [? _].
Qed.
