(* ===== verification/Crypto.v ===== *)
(** * The cryptographic provider (mls-rs-core/src/crypto.rs, CipherSuiteProvider)

    The provider is supplied by the application: it is a parameter of the model.
    Each operation may fail with an error of its own.  The operations that draw
    randomness take it as an argument.  [hpke_pair], [kem_derive_pairs] and
    [aead_pair] name what the protocol relies on: that decryption with the
    matching key inverts encryption. *)
From S2P Require Import Prelude Codec Types.

Record HpkeCiphertext := { kem_output : bytes; ciphertext : bytes }.

#[global] Instance hpke_ciphertext_eq_dec : EqDecision HpkeCiphertext.
Proof. solve_decision. Defined.

Definition hpke_ciphertext_codec : MlsCodec HpkeCiphertext :=
  struct_codec (λ c, (kem_output c, ciphertext c)) (λ p, {| kem_output := p.1; ciphertext := p.2 |})
    (tuple_codec byte_vec_codec byte_vec_codec).

(** [hpke_setup_s] followed by [export] is [csp_hpke_export_s seed pk label len],
    which returns the KEM output and the secret; likewise [csp_hpke_export_r]. *)
Record CipherSuiteProvider := {
  csp_cipher_suite : Z;
  csp_hash : bytes → AnyError + bytes;
  csp_mac : bytes → bytes → AnyError + bytes;
  csp_aead_seal : bytes → bytes → option bytes → bytes → AnyError + bytes;
  csp_aead_open : bytes → bytes → option bytes → bytes → AnyError + bytes;
  csp_aead_key_size : Z;
  csp_aead_nonce_size : Z;
  csp_kdf_extract : bytes → bytes → AnyError + bytes;
  csp_kdf_expand : bytes → bytes → Z → AnyError + bytes;
  csp_kdf_extract_size : Z;
  csp_hpke_seal : bytes → bytes → bytes → option bytes → bytes → AnyError + HpkeCiphertext;
  csp_hpke_open : HpkeCiphertext → bytes → bytes → bytes → option bytes → AnyError + bytes;
  csp_hpke_export_s : bytes → bytes → bytes → Z → AnyError + (bytes * bytes);
  csp_hpke_export_r : bytes → bytes → bytes → bytes → Z → AnyError + bytes;
  csp_kem_derive : bytes → AnyError + (bytes * bytes);
  csp_kem_generate : bytes → AnyError + (bytes * bytes);
  csp_kem_public_key_validate : bytes → AnyError + unit;
  csp_random_bytes : bytes → Z → AnyError + bytes;
  csp_verify : bytes → bytes → bytes → AnyError + unit;
  csp_sign : bytes → bytes → AnyError + bytes;
}.

(** [.map_err(|e| MlsError::CryptoProviderError(e.into_any_error()))]. *)
Definition crypto {A} (r : AnyError + A) : Result MlsError A :=
  match r with inl e => Err (CryptoProviderError e) | inr a => Ok a end.

Lemma settled_crypto {A} (r : AnyError + A) : settled (crypto r).
Proof. by destruct r. Qed.

#[export] Hint Resolve settled_crypto : mls.

(** HPKE: [open] with the key pair of [seal]'s public key returns the plaintext
    (documented contract of [hpke_open]; [kem_derive] produces key pairs). *)
Definition hpke_pair (csp : CipherSuiteProvider) (sk pk : bytes) : Prop :=
  ∀ seed info aad pt c, csp_hpke_seal csp seed pk info aad pt = inr c →
    csp_hpke_open csp c sk pk info aad = inr pt.

Definition kem_derive_pairs (csp : CipherSuiteProvider) : Prop :=
  ∀ ikm sk pk, csp_kem_derive csp ikm = inr (sk, pk) → hpke_pair csp sk pk.

Definition kem_generate_pairs (csp : CipherSuiteProvider) : Prop :=
  ∀ seed sk pk, csp_kem_generate csp seed = inr (sk, pk) → hpke_pair csp sk pk.

(** HPKE export: both sides of a set-up context derive the same secret. *)
Definition export_pair (csp : CipherSuiteProvider) (sk pk : bytes) : Prop :=
  ∀ seed label n out s, csp_hpke_export_s csp seed pk label n = inr (out, s) →
    csp_hpke_export_r csp out sk pk label n = inr s.

(** Signatures: what the secret key signs, the public key verifies. *)
Definition signature_pair (csp : CipherSuiteProvider) (sk pk : bytes) : Prop :=
  ∀ data s, csp_sign csp sk data = inr s → csp_verify csp pk s data = inr tt.

(** AEAD: [aead_open] inverts [aead_seal] under the same key, nonce and
    associated data. *)
Definition aead_pair (csp : CipherSuiteProvider) : Prop :=
  ∀ key pt aad nonce ct, csp_aead_seal csp key pt aad nonce = inr ct →
    csp_aead_open csp key ct aad nonce = inr pt.

(** Key derivation, as [CipherSuiteProvider] documents it and no further: extraction
    from keying material that is not empty gives a key of [kdf_extract_size], and a
    key of that size expands to the lengths that the cipher suite uses.  Nothing is
    asked of other inputs, on which the providers fail. *)
Record kdf_laws (csp : CipherSuiteProvider) : Prop := {
  kl_extract salt ikm : ikm ≠ [] → ∃ b, csp_kdf_extract csp salt ikm = inr b ∧ len b = csp_kdf_extract_size csp;
  kl_expand prk info n : len prk = csp_kdf_extract_size csp →
    n ∈ [csp_kdf_extract_size csp; csp_aead_key_size csp; csp_aead_nonce_size csp] →
    ∃ b, csp_kdf_expand csp prk info n = inr b ∧ len b = n;
}.

(** A bound below those of the ciphers (2^36 bytes at once and more). *)
Definition AEAD_MAX : Z := 2 ^ 32.

(** Sealing data that is not empty, under a key and a nonce of the suite's sizes, does
    not fail. *)
Definition aead_seals (csp : CipherSuiteProvider) : Prop := ∀ key pt aad nonce,
  pt ≠ [] → len pt ≤ AEAD_MAX → from_option len 0 aad ≤ AEAD_MAX →
  len key = csp_aead_key_size csp → len nonce = csp_aead_nonce_size csp →
  ∃ ct, csp_aead_seal csp key pt aad nonce = inr ct.

(** Drawing as many random bytes as asked for does not fail. *)
Definition random_total (csp : CipherSuiteProvider) : Prop :=
  ∀ seed n, 0 ≤ n → ∃ b, csp_random_bytes csp seed n = inr b ∧ length b = Z.to_nat n.

(** A transparent provider for concrete runs: a hash keeps three bytes behind a
    marker, sealing writes the recipient's key in front of the plaintext. *)
Definition toy_csp : CipherSuiteProvider := {|
  csp_cipher_suite := 1;
  csp_hash b := inr (byte.of_Z 255 :: take 3 b);
  csp_mac k b := inr (k ++ b);
  csp_aead_seal k d _ _ := inr (k ++ d);
  csp_aead_open k c _ _ := if bool_decide (take (length k) c = k) then inr (drop (length k) c) else inl (ProviderAnyError []);
  csp_aead_key_size := 2;
  csp_aead_nonce_size := 2;
  csp_kdf_extract s i := inr (take 2 (s ++ i ++ replicate 2 (byte.of_Z 0)));
  csp_kdf_expand p i n := inr (take (Z.to_nat n) (p ++ rev i ++ replicate (Z.to_nat n) (byte.of_Z 0)));
  csp_kdf_extract_size := 2;
  csp_hpke_seal seed pk _ _ pt := inr {| kem_output := seed; ciphertext := pk ++ pt |};
  csp_hpke_open c sk _ _ _ :=
    if bool_decide (take (length sk) (ciphertext c) = sk) then inr (drop (length sk) (ciphertext c))
    else inl (ProviderAnyError []);
  csp_hpke_export_s seed pk label n := inr (seed, take (Z.to_nat n) (pk ++ seed ++ label));
  csp_hpke_export_r out sk _ label n := inr (take (Z.to_nat n) (sk ++ out ++ label));
  csp_kem_derive ikm := inr (ikm, ikm);
  csp_kem_generate seed := inr (seed, seed);
  csp_kem_public_key_validate _ := inr tt;
  csp_random_bytes seed n := inr (take (Z.to_nat n) (seed ++ replicate (Z.to_nat n) (byte.of_Z 0)));
  csp_verify _ _ _ := inr tt;
  csp_sign _ d := inr d;
|}.

Lemma toy_kem : kem_derive_pairs toy_csp.
Proof.
  intros ikm sk pk [= <- <-] seed info aad pt c [= <-]. cbn. rewrite take_app_length, drop_app_length.
  by rewrite bool_decide_eq_true_2.
Qed.

Lemma toy_aead : aead_pair toy_csp.
Proof.
  intros key pt aad nonce ct [= <-]. cbn. rewrite take_app_length, drop_app_length.
  by rewrite bool_decide_eq_true_2.
Qed.

Lemma toy_kdf : kdf_laws toy_csp.
Proof.
  split.
  - intros salt ikm _. eexists. split; [done|]. unfold len. rewrite length_take, !length_app, length_replicate. change (csp_kdf_extract_size toy_csp) with 2. lia.
  - intros prk info n _ Hn. eexists. split; [done|]. unfold len. rewrite length_take, !length_app, length_replicate.
    assert (n = 2) as -> by (cbn in Hn; set_solver). lia.
Qed.

Lemma toy_export ikm sk pk : csp_kem_derive toy_csp ikm = inr (sk, pk) → export_pair toy_csp sk pk.
Proof. intros [= <- <-] seed label n out s [= <- <-]. done. Qed.

Lemma toy_aead_seals : aead_seals toy_csp.
Proof. intros key pt aad nonce _ _ _ _ _. by eexists. Qed.

Lemma toy_random : random_total toy_csp.
Proof. intros seed n Hn. eexists. split; [done|]. rewrite length_take, length_app, length_replicate. lia. Qed.
