(* ===== verification/Labels.v ===== *)
(** * Labelled derivation, signing and encryption
    (mls-rs/src/group/key_schedule.rs, signer.rs, tree_kem/hpke_encryption.rs)

    Everything the protocol derives, signs or encrypts is bound to a label: the
    input of the key derivation function, of the signature and of HPKE is the
    encoding of a label together with the context or the content. *)
From Stdlib Require Import Strings.String Strings.Byte.
From S2P Require Import Prelude Codec Types Crypto.

(** The bytes of an ASCII literal. *)
Definition ascii (s : string) : bytes := list_byte_of_string s.

Definition mls_label (label : bytes) : bytes := ascii "MLS 1.0 " ++ label.

(** ** Key derivation: key_schedule.rs, [Label] *)
Definition label_codec : MlsCodec (Z * (bytes * bytes)) :=
  tuple_codec u16_codec (tuple_codec byte_vec_codec byte_vec_codec).

(** [Label::new(len as u16, label, context)], encoded. *)
Definition kdf_label (n : Z) (label context : bytes) : Result Codec.Error bytes :=
  mls_encode_to_vec label_codec (wrap 16 n, (mls_label label, context)).

Definition kdf_expand_with_label (csp : CipherSuiteProvider) (secret label context : bytes) (n : option Z)
    : Result MlsError bytes :=
  let n := default (csp_kdf_extract_size csp) n in
  info ← from_codec_error (kdf_label n label context);
  crypto (csp_kdf_expand csp secret info n).

Definition kdf_derive_secret (csp : CipherSuiteProvider) (secret label : bytes) : Result MlsError bytes :=
  kdf_expand_with_label csp secret label [] None.

(** ** Signatures: signer.rs, [SignContent] and [Signable] *)
Definition sign_content_codec : MlsCodec (bytes * bytes) := tuple_codec byte_vec_codec byte_vec_codec.

Definition sign_content (label content : bytes) : Result Codec.Error bytes :=
  mls_encode_to_vec sign_content_codec (mls_label label, content).

(** [Signable::sign] and [Signable::verify] of a value whose signable content is
    [content]. *)
Definition sign (csp : CipherSuiteProvider) (signer label : bytes) (content : Result Codec.Error bytes)
    : Result MlsError bytes :=
  content ← from_codec_error content;
  input ← from_codec_error (sign_content label content);
  crypto (csp_sign csp signer input).

Definition verify (csp : CipherSuiteProvider) (public_key label : bytes) (content : Result Codec.Error bytes)
    (signature : bytes) : Result MlsError unit :=
  content ← from_codec_error content;
  input ← from_codec_error (sign_content label content);
  match csp_verify csp public_key signature input with
  | inr _ => Ok tt
  | inl _ => Err InvalidSignature
  end.

(** ** Encryption: hpke_encryption.rs, [EncryptContext] and [HpkeEncryptable] *)
Definition encrypt_context (label context : bytes) : Result Codec.Error bytes :=
  mls_encode_to_vec sign_content_codec (mls_label label, context).

Definition encrypt (csp : CipherSuiteProvider) (label seed public_key context content : bytes)
    : Result MlsError HpkeCiphertext :=
  info ← from_codec_error (encrypt_context label context);
  crypto (csp_hpke_seal csp seed public_key info None content).

Definition decrypt (csp : CipherSuiteProvider) (label secret_key public_key context : bytes) (ct : HpkeCiphertext)
    : Result MlsError bytes :=
  info ← from_codec_error (encrypt_context label context);
  crypto (csp_hpke_open csp ct secret_key public_key info None).

(** ** Facts *)
#[export] Instance label_laws : CodecLaws label_codec (λ p, is_u16 p.1 ∧ True ∧ True).
Proof. exact (tuple_laws _ _ _ _ u16_laws (tuple_laws _ _ _ _ byte_vec_laws byte_vec_laws)). Qed.

#[export] Instance sign_content_laws : CodecLaws sign_content_codec (λ p, True ∧ True).
Proof. exact (tuple_laws _ _ _ _ byte_vec_laws byte_vec_laws). Qed.

Lemma kdf_expand_settled csp secret label context n : settled (kdf_expand_with_label csp secret label context n).
Proof.
  apply settled_bind; [apply LeafCodecs.from_codec_settled, encode_settled|]. intros. apply settled_crypto.
Qed.

Lemma kdf_derive_settled csp secret label : settled (kdf_derive_secret csp secret label).
Proof. unfold kdf_derive_secret. apply kdf_expand_settled. Qed.

Lemma encrypt_settled csp label seed pk context content : settled (encrypt csp label seed pk context content).
Proof.
  apply settled_bind; [apply LeafCodecs.from_codec_settled, encode_settled|]. intros. apply settled_crypto.
Qed.

Lemma decrypt_settled csp label sk pk context ct : settled (decrypt csp label sk pk context ct).
Proof.
  apply settled_bind; [apply LeafCodecs.from_codec_settled, encode_settled|]. intros. apply settled_crypto.
Qed.

#[export] Hint Resolve kdf_expand_settled kdf_derive_settled encrypt_settled decrypt_settled : mls.

Lemma byte_vec_encode_bound (a w : bytes) : len a ≤ VarInt.MAX →
  ∃ bs, mls_encode byte_vec_codec a w = Ok bs ∧ len w < len bs ≤ len w + 4 + len a.
Proof.
  intros Ha. pose proof (len_nonneg a). cbn [byte_vec_codec mls_encode]. rewrite VarIntFacts.try_from_wf by (split; lia).
  cbn. rewrite VarIntFacts.encode_spec by (split; lia). cbn. eexists. split; [done|]. rewrite !len_app.
  repeat case_match; unfold len; cbn [length]; lia.
Qed.

Lemma byte_vec_grows (a w bs : bytes) : mls_encode byte_vec_codec a w = Ok bs → len w < len bs ≤ len w + 2 ^ 30 + 3.
Proof.
  intros H. pose proof H as Hn. cbn [byte_vec_codec mls_encode] in Hn. apply bind_ok in Hn as (n & Hn & _).
  apply VarIntFacts.try_from_ok in Hn as [_ [_ Hm]]; [|apply len_nonneg].
  destruct (byte_vec_encode_bound a w Hm) as (bs' & H' & Hl). rewrite H in H'. injection H' as <-. change VarInt.MAX with (2 ^ 30 - 1) in Hm. lia.
Qed.

Lemma byte_vec_encode_ok (a w : bytes) : len a ≤ VarInt.MAX → ∃ bs, mls_encode byte_vec_codec a w = Ok bs.
Proof. intros (bs & -> & _)%(byte_vec_encode_bound a w). by exists bs. Qed.

(** Derivation from a secret of the provider's size, with a short label and context,
    succeeds and gives as many bytes as asked for. *)
Lemma kdf_expand_ok csp secret label context n :
  kdf_laws csp → len secret = csp_kdf_extract_size csp →
  default (csp_kdf_extract_size csp) n ∈ [csp_kdf_extract_size csp; csp_aead_key_size csp; csp_aead_nonce_size csp] →
  len label ≤ 2 ^ 16 → len context ≤ 2 ^ 16 →
  ∃ b, kdf_expand_with_label csp secret label context n = Ok b ∧ len b = default (csp_kdf_extract_size csp) n.
Proof.
  intros Hk Hs Hn Hl Hc. unfold kdf_expand_with_label, kdf_label, mls_encode_to_vec, label_codec. cbn [mls_encode tuple_codec fst snd].
  destruct (mls_encode u16_codec (wrap 16 (default (csp_kdf_extract_size csp) n)) []) as [w| | |] eqn:E; try discriminate E.
  cbn [mbind result_bind].
  destruct (byte_vec_encode_ok (mls_label label) w) as [w1 ->].
  { unfold mls_label. rewrite len_app. change (len (ascii "MLS 1.0 ")) with 8. change VarInt.MAX with (2 ^ 30 - 1). lia. }
  cbn [mbind result_bind]. destruct (byte_vec_encode_ok context w1) as [w2 ->]; [change VarInt.MAX with (2 ^ 30 - 1); lia|].
  cbn. destruct (kl_expand _ Hk secret w2 _ Hs Hn) as (b & -> & Hb). by exists b.
Qed.

Lemma from_codec_ok {A} (r : Result Codec.Error A) a : from_codec_error r = Ok a → r = Ok a.
Proof. destruct r; cbn; congruence. Qed.

(** Decryption with the other half of a key pair inverts encryption. *)
Lemma decrypt_encrypt csp label seed sk pk context content ct :
  hpke_pair csp sk pk → encrypt csp label seed pk context content = Ok ct →
  decrypt csp label sk pk context ct = Ok content.
Proof.
  intros Hp. unfold encrypt, decrypt. destruct (from_codec_error _) as [info| | |]; try done. cbn [mbind result_bind].
  destruct (csp_hpke_seal csp seed pk info None content) as [e|c] eqn:E; [done|]. cbn. intros [= <-].
  by rewrite (Hp _ _ _ _ _ E).
Qed.

Lemma kdf_label_inj n l l' c c' b : kdf_label n l c = Ok b → kdf_label n l' c' = Ok b → l = l' ∧ c = c'.
Proof.
  intros H1 H2. assert ((wrap 16 n, (mls_label l, c)) = (wrap 16 n, (mls_label l', c'))) as [= El ->].
  { eapply (encode_inj label_codec (λ p, is_u16 p.1 ∧ True ∧ True)); [..|exact H1|exact H2];
      (split; [|done]); apply Z.mod_pos_bound; lia. }
  split; [exact El|done].
Qed.

(** A derived secret is the expansion of its label. *)
Lemma kdf_derive_inv csp secret label b :
  kdf_derive_secret csp secret label = Ok b →
  ∃ i, kdf_label (csp_kdf_extract_size csp) label [] = Ok i ∧ crypto (csp_kdf_expand csp secret i (csp_kdf_extract_size csp)) = Ok b.
Proof. intros H. apply bind_ok in H as (i & Hi%from_codec_ok & H). eauto. Qed.

(** Domain separation: two derivations from a secret have the same input to
    the key derivation function only if they agree on the length, the label and
    the context, and two signature inputs are the same only if label and content
    are. *)
Theorem labels_separate (n n' : Z) (l l' c c' b : bytes) :
  is_u16 n → is_u16 n' →
  (kdf_label n l c = Ok b → kdf_label n' l' c' = Ok b → n = n' ∧ l = l' ∧ c = c') ∧
  (sign_content l c = Ok b → sign_content l' c' = Ok b → l = l' ∧ c = c').
Proof.
  intros Hn Hn'. assert (∀ z, is_u16 z → wrap 16 z = z) as Hw by (intros z Hz; by apply Z.mod_small). split.
  - unfold kdf_label. rewrite !Hw by done. intros H1 H2.
    assert ((n, (mls_label l, c)) = (n', (mls_label l', c'))) as [= -> El ->] 
      by (apply (encode_inj label_codec (λ p, is_u16 p.1 ∧ True ∧ True) _ _ b); try done).
    split_and!; [done| |done]. exact El.
  - intros H1 H2. assert ((mls_label l, c) = (mls_label l', c')) as [= El ->] 
      by (apply (encode_inj sign_content_codec (λ p, True ∧ True) _ _ b); try done).
    split; [|done]. exact El.
Qed.

Lemma labels_separate_witness :
  ∃ b, kdf_label 32 (ascii "path") [] = Ok b ∧
    (kdf_label 32 (ascii "node") [] = Ok b → ascii "path" = ascii "node").
Proof.
  destruct (kdf_label 32 (ascii "path") []) as [b| | |] eqn:E; try (vm_compute in E; discriminate E).
  exists b. split; [reflexivity|]. intros H.
  destruct (labels_separate 32 32 (ascii "path") (ascii "node") [] [] b) as [H1 _]; [unfold is_u16; lia..|].
  apply (H1 E H).
Defined.
