(* ===== verification/TreeHash.v ===== *)
(** * Tree hashes (mls-rs/src/tree_kem/tree_hash.rs)

    The cached hash of every node, recomputed along the direct paths of the
    leaves that changed.  [subtree_hash] is the recursive definition of the RFC;
    the incremental recomputation agrees with it on every node. *)
From S2P Require Import Prelude Codec TreeMath Types Node TreeIndex Crypto.
Import Node.

(** [TreeKemPublic] of tree_kem/mod.rs; [tree_hashes] is [TreeHashes::current]. *)
Record TreeKemPublic := {
  index : TreeIndex.t;
  nodes : NodeVec;
  tree_hashes : list bytes;
}.

Module TreeHash.
Import LeafCodecs.

(** [TreeHashInput::Leaf] and [TreeHashInput::Parent] with their tags. *)
Definition leaf_hash_input_codec : MlsCodec (Z * option LeafNode) :=
  tuple_codec u32_codec (option_codec leaf_node_codec).
Definition parent_hash_input_codec : MlsCodec (option Parent * (bytes * bytes)) :=
  tuple_codec (option_codec parent_codec) (tuple_codec byte_vec_codec byte_vec_codec).

Definition tree_hash_input_variants : list (Variant (Z * option LeafNode + option Parent * (bytes * bytes))) := [
  {| v_discriminant := 1; v_codec := leaf_hash_input_codec; v_make := inl;
     v_match x := match x with inl l => Some l | inr _ => None end |};
  {| v_discriminant := 2; v_codec := parent_hash_input_codec; v_make := inr;
     v_match x := match x with inr p => Some p | inl _ => None end |} ].

Definition tree_hash_input_codec := enum_codec u8_codec tree_hash_input_variants.

Definition hash_for_leaf (csp : CipherSuiteProvider) (leaf_index : Z) (leaf_node : option LeafNode)
    : Result MlsError bytes :=
  input ← from_codec_error (mls_encode_to_vec tree_hash_input_codec (inl (leaf_index, leaf_node)));
  crypto (csp_hash csp input).

Definition retain_unmerged (filtered : list Z) (p : Parent) : Parent := {|
  parent_public_key := parent_public_key p;
  parent_parent_hash := parent_parent_hash p;
  unmerged_leaves := List.filter (λ i, negb (bool_decide (i ∈ filtered))) (unmerged_leaves p) |}.

Definition hash_for_parent (csp : CipherSuiteProvider) (parent_node : option Parent)
    (filtered : list Z) (left_hash right_hash : bytes) : Result MlsError bytes :=
  let parent_node := retain_unmerged filtered <$> parent_node in
  input ← from_codec_error
    (mls_encode_to_vec tree_hash_input_codec (inr (parent_node, (left_hash, right_hash))));
  crypto (csp_hash csp input).

(** The first loop of [tree_hash]: the leaves, with the queue of their parents. *)
Definition hash_leaf_step (csp : CipherSuiteProvider) (nodes : NodeVec) (filtered : list Z) (num_leaves : Z)
    (s : list bytes * list Z) (l : Z) : Result MlsError (list bytes * list Z) :=
  let '(hashes, queue) := s in
  let leaf := if bool_decide (l ∈ filtered) then None else result_ok (borrow_as_leaf nodes l) in
  h ← hash_for_leaf csp l leaf;
  hashes ← vec_store hashes (2 * l) h;
  Ok (hashes,
      match TreeMath.parent_sibling (u32 (2 * l)) num_leaves with
      | Some ps => queue ++ [TreeMath.parent ps]
      | None => queue
      end).

(** The second loop: nodes off the queue, their parents onto it. *)
Fixpoint hash_queue (fuel : nat) (csp : CipherSuiteProvider) (nodes : NodeVec) (filtered : list Z)
    (num_leaves : Z) (hashes : list bytes) (queue : list Z) : Result MlsError (list bytes) :=
  match queue with
  | [] => Ok hashes
  | n :: queue =>
      match fuel with
      | O => Diverge
      | S fuel =>
          lh ← vec_index hashes (TreeMath.left_unchecked n);
          rh ← vec_index hashes (TreeMath.right_unchecked n);
          h ← hash_for_parent csp (result_ok (borrow_as_parent nodes n)) filtered lh rh;
          hashes ← vec_store hashes n h;
          hash_queue fuel csp nodes filtered num_leaves hashes
            (match TreeMath.parent_sibling n num_leaves with
             | Some ps => queue ++ [TreeMath.parent ps]
             | None => queue
             end)
      end
  end.

(** Every queued node climbs at most 32 levels. *)
Definition tree_hash (csp : CipherSuiteProvider) (hashes : list bytes) (nodes : NodeVec)
    (leaves_to_update : option (list Z)) (filtered_leaves : list Z) (num_leaves : Z)
    : Result MlsError (list bytes) :=
  let leaves_to_update := default (Z.of_nat <$> seq 0 (Z.to_nat num_leaves)) leaves_to_update in
  let hashes := vec_resize hashes (num_leaves * 2 - 1) [] in
  '(hashes, queue) ← foldM (hash_leaf_step csp nodes filtered_leaves num_leaves) (hashes, [])
     (List.filter (λ l, l <? num_leaves) leaves_to_update);
  hash_queue (33 * length queue) csp nodes filtered_leaves num_leaves hashes queue.

(** [(0..num_leaves).rev().map_while(..)]: the leaves at the end without a hash. *)
Fixpoint trailing_blanks (hashes : list bytes) (l : nat) : list Z :=
  match l with
  | O => []
  | S l => if bool_decide (vec_get hashes (2 * Z.of_nat l) = None)
           then Z.of_nat l :: trailing_blanks hashes l else []
  end.

Definition update_hashes (csp : CipherSuiteProvider) (t : TreeKemPublic) (updated_leaves : list Z)
    : Result MlsError TreeKemPublic :=
  let num_leaves := total_leaf_count (nodes t) in
  let trailing := trailing_blanks (tree_hashes t) (Z.to_nat num_leaves) in
  hashes ← tree_hash csp (tree_hashes t) (nodes t) (Some (updated_leaves ++ trailing)) [] num_leaves;
  Ok {| index := index t; nodes := nodes t; tree_hashes := hashes |}.

Definition initialize_hashes (csp : CipherSuiteProvider) (t : TreeKemPublic) : Result MlsError TreeKemPublic :=
  if bool_decide (tree_hashes t = []) then
    hashes ← tree_hash csp (tree_hashes t) (nodes t) None [] (total_leaf_count (nodes t));
    Ok {| index := index t; nodes := nodes t; tree_hashes := hashes |}
  else Ok t.

(** [TreeKemPublic::tree_hash]. *)
Definition root_hash (csp : CipherSuiteProvider) (t : TreeKemPublic) : Result MlsError (bytes * TreeKemPublic) :=
  t ← initialize_hashes csp t;
  h ← vec_index (tree_hashes t) (TreeMath.root (total_leaf_count (nodes t)));
  Ok (h, t).

(** ** The recursive definition *)
Definition parent_at (nodes : NodeVec) (i : Z) : option Parent :=
  match node_at nodes i with Some (ParentNode p) => Some p | _ => None end.

Fixpoint subtree_hash (csp : CipherSuiteProvider) (nodes : NodeVec) (filtered : list Z) (k : nat) (j : Z)
    : Result MlsError bytes :=
  match k with
  | O => hash_for_leaf csp j (if bool_decide (j ∈ filtered) then None else leaf_at nodes j)
  | S k' =>
      lh ← subtree_hash csp nodes filtered k' (2 * j);
      rh ← subtree_hash csp nodes filtered k' (2 * j + 1);
      hash_for_parent csp (parent_at nodes (TreeMath.node (Z.of_nat k) j)) filtered lh rh
  end.

Lemma borrow_node_ok nodes i : 0 ≤ i → default None (result_ok (borrow_node nodes i)) = node_at nodes i.
Proof.
  intros Hi. unfold borrow_node, validate_index. pose proof (next_power_of_two_ge (len nodes) (len_nonneg nodes)).
  destruct (Z.geb_spec i (next_power_of_two (len nodes))); cbn.
  - symmetry. apply node_at_None. lia.
  - unfold node_at. by destruct (vec_get nodes i).
Qed.

Lemma borrow_as_leaf_at nodes l : 0 ≤ l < 2 ^ 31 → result_ok (borrow_as_leaf nodes l) = leaf_at nodes l.
Proof.
  intros Hl. unfold borrow_as_leaf, leaf_at. rewrite node_index_small by done.
  rewrite <- borrow_node_ok by lia. by destruct (borrow_node nodes (2 * l)) as [[[]|]| | |].
Qed.

Lemma borrow_as_parent_at nodes n : 0 ≤ n → result_ok (borrow_as_parent nodes n) = parent_at nodes n.
Proof.
  intros Hn. unfold borrow_as_parent, parent_at. rewrite <- borrow_node_ok by lia.
  by destruct (borrow_node nodes n) as [[[]|]| | |].
Qed.

(** The hash of a subtree depends on its nodes only. *)
Lemma subtree_hash_ext csp nodes nodes' filtered (k : nat) j :
  0 ≤ j →
  (∀ (m : nat) i, (m ≤ k)%nat → 0 ≤ i → i / 2 ^ Z.of_nat (k - m) = j →
     node_at nodes (TreeMath.node (Z.of_nat m) i) = node_at nodes' (TreeMath.node (Z.of_nat m) i)) →
  subtree_hash csp nodes filtered k j = subtree_hash csp nodes' filtered k j.
Proof.
  revert j. induction k as [|k IH]; intros j Hj H; cbn [subtree_hash].
  - unfold leaf_at. rewrite <- (TreeMath.node_0 j). change 0 with (Z.of_nat 0).
    rewrite (H 0%nat j); [done|lia|done|]. apply Z.div_1_r.
  - assert (∀ b, 0 ≤ b ≤ 1 → subtree_hash csp nodes filtered k (2 * j + b) = subtree_hash csp nodes' filtered k (2 * j + b)) as Hb.
    { intros b Hb. apply IH; [lia|]. intros m i Hm Hi Hij. apply H; [lia|done|].
      replace (Z.of_nat (S k - m)) with (Z.of_nat (k - m) + 1) by lia.
      rewrite Z.pow_add_r, <- Z.div_div by (try apply pow2_pos; lia). rewrite Hij.
      change (2 ^ 1) with 2. Z.div_mod_to_equations. lia. }
    rewrite (Hb 1) by lia. pose proof (Hb 0) as H0. rewrite Z.add_0_r in H0. rewrite H0 by lia.
    unfold parent_at. rewrite (H (S k) j); [done|lia|done|]. rewrite Nat.sub_diag. apply Z.div_1_r.
Qed.

#[export] Instance tree_hash_input_settled : EncodeSettled tree_hash_input_codec.
Proof. solve_enum_settled tree_hash_input_variants. Qed.

Lemma hash_for_leaf_settled csp i l : settled (hash_for_leaf csp i l).
Proof. apply settled_bind; [apply from_codec_settled, encode_settled|intros; apply settled_crypto]. Qed.

Lemma hash_for_parent_settled csp p f lh rh : settled (hash_for_parent csp p f lh rh).
Proof. apply settled_bind; [apply from_codec_settled, encode_settled|intros; apply settled_crypto]. Qed.

(** ** The incremental computation *)
Section incremental.
Context (csp : CipherSuiteProvider) (nodes : NodeVec) (filtered : list Z) (d : Z).
Hypothesis Hd : 0 ≤ d ≤ 31.
(** Hashing does not fail on this tree. *)
Hypothesis Hok : ∀ (k : nat) j, TreeMath.in_tree d (Z.of_nat k) j →
  ∃ h, subtree_hash csp nodes filtered k j = Ok h.

Definition correct (hs : list bytes) (k : nat) (j : Z) : Prop :=
  ∃ h, vec_get hs (TreeMath.node (Z.of_nat k) j) = Some h ∧ subtree_hash csp nodes filtered k j = Ok h.

Definition at_node (x : nat * Z) : Z := TreeMath.node (Z.of_nat x.1) x.2.

Lemma store_correct hs (k0 : nat) j0 h :
  len hs = 2 ^ (d + 1) - 1 → TreeMath.in_tree d (Z.of_nat k0) j0 →
  subtree_hash csp nodes filtered k0 j0 = Ok h →
  ∃ hs', vec_store (E:=MlsError) hs (TreeMath.node (Z.of_nat k0) j0) h = Ok hs' ∧ len hs' = len hs ∧
    correct hs' k0 j0 ∧ ∀ k j, correct hs k j → 0 ≤ j → correct hs' k j.
Proof.
  intros Hlen Hin Hh. pose proof (TreeMath.node_bound d _ _ Hd Hin) as Hb.
  unfold vec_store. rewrite (proj2 (Z.leb_le _ _)), (proj2 (Z.ltb_lt _ _)) by lia. cbn [andb].
  eexists. split; [done|]. split; [apply len_vec_set|].
  assert (correct (vec_set hs (TreeMath.node (Z.of_nat k0) j0) h) k0 j0) as Hc.
  { exists h. split; [|done]. apply vec_get_set_eq. lia. }
  split; [done|]. intros k j (h' & Hg & Hs) Hj. destruct (decide (k = k0 ∧ j = j0)) as [[-> ->]|Hne]; [done|].
  exists h'. split; [|done]. rewrite vec_get_set_ne; [done|].
  intros E. apply TreeMath.node_inj in E as [E1 E2]; [|destruct Hin; lia..]. apply Hne. lia.
Qed.

Definition parents_of (L : list Z) : list (nat * Z) :=
  if d =? 0 then [] else (λ l, (1%nat, l / 2)) <$> L.

Lemma leaf_step hs P l :
  len hs = 2 ^ (d + 1) - 1 → 0 ≤ l < 2 ^ d →
  ∃ hs', hash_leaf_step csp nodes filtered (2 ^ d) (hs, at_node <$> P) l =
      Ok (hs', at_node <$> P ++ parents_of [l]) ∧
    len hs' = len hs ∧ correct hs' 0 l ∧ ∀ k j, correct hs k j → 0 ≤ j → correct hs' k j.
Proof.
  intros Hlen Hl. assert (2 ^ d ≤ 2 ^ 31) by (apply Z.pow_le_mono_r; lia).
  assert (TreeMath.in_tree d (Z.of_nat 0) l) as Hin by (split; [lia|]; by rewrite Z.sub_0_r).
  destruct (Hok 0%nat l Hin) as [h Hh].
  destruct (store_correct hs 0 l h Hlen Hin Hh) as (hs1 & Hst & Hlen1 & Hc1 & Hm1).
  exists hs1. split_and!; try done.
  unfold hash_leaf_step. rewrite borrow_as_leaf_at by lia.
  cbn [subtree_hash] in Hh. rewrite Hh. cbn [mbind result_bind].
  change (Z.of_nat 0) with 0 in Hst, Hin. rewrite TreeMath.node_0 in Hst. rewrite Hst. cbn [mbind result_bind].
  rewrite u32_small, <- TreeMath.node_0, (TreeMath.parent_sibling_node d 0 l Hd Hin) by (unfold is_u32; lia).
  unfold parents_of. rewrite (Z.eqb_sym 0 d). do 2 f_equal.
  destruct (d =? 0); [by rewrite app_nil_r|by rewrite fmap_app].
Qed.

Lemma leaves_loop L hs P :
  len hs = 2 ^ (d + 1) - 1 → (∀ l, l ∈ L → 0 ≤ l < 2 ^ d) →
  ∃ hs', foldM (hash_leaf_step csp nodes filtered (2 ^ d)) (hs, at_node <$> P) L =
      Ok (hs', at_node <$> P ++ parents_of L) ∧
    len hs' = len hs ∧ (∀ l, l ∈ L → correct hs' 0 l) ∧
    ∀ k j, correct hs k j → 0 ≤ j → correct hs' k j.
Proof.
  revert hs P. induction L as [|l L IH]; intros hs P Hlen HL.
  { exists hs. unfold parents_of. destruct (d =? 0); rewrite ?app_nil_r; split_and!; try done;
      intros l Hl; by apply elem_of_nil in Hl. }
  assert (0 ≤ l < 2 ^ d) as Hl by (apply HL; left).
  destruct (leaf_step hs P l Hlen Hl) as (hs1 & Hst & Hlen1 & Hc1 & Hm1).
  cbn [foldM]. rewrite Hst. cbn [mbind result_bind].
  destruct (IH hs1 (P ++ parents_of [l])) as (hs' & -> & Hlen' & Hc' & Hm'); [lia|intros; apply HL; by right|].
  exists hs'. split_and!; [|lia| |].
  - do 2 f_equal. unfold parents_of. destruct (d =? 0); [by rewrite !app_nil_r|].
    cbn [fmap list_fmap]. by rewrite <- app_assoc.
  - intros l' [->|Hl']%elem_of_cons; [apply Hm'; [done|lia]|by apply Hc'].
  - intros k j Hkj Hj. apply Hm'; [|done]. by apply Hm1.
Qed.

(** Levels rise along the queue, by one at most. *)
Definition queue_ok (P : list (nat * Z)) : Prop :=
  (∀ x, x ∈ P → (1 ≤ x.1)%nat ∧ TreeMath.in_tree d (Z.of_nat x.1) x.2) ∧
  StronglySorted (λ x y : nat * Z, (x.1 ≤ y.1)%nat) P ∧
  match P with [] => True | x :: _ => ∀ y, y ∈ P → (y.1 ≤ S x.1)%nat end.

(** A node whose hash is not right lies above a node of the queue. *)
Definition covered (P : list (nat * Z)) (k : nat) (j : Z) : Prop :=
  ∃ x, x ∈ P ∧ (x.1 ≤ k)%nat ∧ x.2 / 2 ^ Z.of_nat (k - x.1) = j.

Definition cost (P : list (nat * Z)) : nat := sum_list_with (λ x, S (Z.to_nat d - x.1)) P.

Lemma queue_ok_next (k : nat) j P :
  queue_ok ((k, j) :: P) → Z.of_nat k ≠ d → queue_ok (P ++ [(S k, j / 2)]).
Proof.
  intros (Hin & Hs & Hle) Hk. apply StronglySorted_inv in Hs as [Hs Hall]. rewrite Forall_forall in Hall.
  destruct (Hin (k, j)) as [Hk1 Hkj]; [left|]. cbn in Hk1, Hkj.
  assert (∀ y, y ∈ P → (k ≤ y.1 ≤ S k)%nat) as HP.
  { intros y Hy. split; [by apply (Hall y)|]. apply Hle. by right. }
  split_and!.
  - intros x [Hx| ->%list_elem_of_singleton]%elem_of_app; [apply Hin; by right|]. cbn. split; [lia|].
    rewrite Nat2Z.inj_succ, <- Z.add_1_r. by apply TreeMath.in_tree_parent.
  - apply StronglySorted_app_2; [|done|repeat constructor].
    intros x y Hx ->%list_elem_of_singleton. cbn. by apply HP.
  - destruct P as [|x P]; cbn.
    + intros y ->%list_elem_of_singleton. cbn. lia.
    + intros y [Hy| ->%list_elem_of_singleton]%(elem_of_app (x :: P)); cbn.
      * pose proof (HP x ltac:(left)). pose proof (HP y Hy). lia.
      * pose proof (HP x ltac:(left)). lia.
Qed.

Lemma in_tree_child (k : nat) j b :
  TreeMath.in_tree d (Z.of_nat (S k)) j → 0 ≤ b ≤ 1 → TreeMath.in_tree d (Z.of_nat k) (2 * j + b).
Proof.
  intros [Hk Hj] Hb. split; [lia|]. replace (d - Z.of_nat k) with (d - Z.of_nat (S k) + 1) by lia.
  rewrite pow2_succ by lia. lia.
Qed.

Lemma cost_app P Q : cost (P ++ Q) = (cost P + cost Q)%nat.
Proof. apply sum_list_with_app. Qed.

Lemma covered_next (k : nat) j P (k' : nat) j' :
  covered ((k, j) :: P) k' j' → (k', j') ≠ (k, j) → 0 ≤ j → covered (P ++ [(S k, j / 2)]) k' j'.
Proof.
  intros (x & [->|Hx]%elem_of_cons & Hle & Hj') Hne Hj.
  - cbn in *. destruct (decide (k' = k)) as [->|].
    { rewrite Nat.sub_diag, Z.div_1_r in Hj'. by subst. }
    exists (S k, j / 2). split; [apply elem_of_app; right; by left|]. cbn. split; [lia|].
    rewrite Z.div_div by (try apply pow2_pos; lia). rewrite <- Hj', <- Z.pow_succ_r by lia. do 2 f_equal. lia.
  - exists x. split; [apply elem_of_app; by left|done].
Qed.

Lemma head_step hs (k : nat) j P :
  len hs = 2 ^ (d + 1) - 1 → queue_ok ((S k, j) :: P) →
  (∀ (k' : nat) j', TreeMath.in_tree d (Z.of_nat k') j' → correct hs k' j' ∨ covered ((S k, j) :: P) k' j') →
  ∃ lh rh h hs', vec_index (E:=MlsError) hs (TreeMath.left_unchecked (at_node (S k, j))) = Ok lh ∧
    vec_index (E:=MlsError) hs (TreeMath.right_unchecked (at_node (S k, j))) = Ok rh ∧
    hash_for_parent csp (result_ok (borrow_as_parent nodes (at_node (S k, j)))) filtered lh rh = Ok h ∧
    vec_store (E:=MlsError) hs (at_node (S k, j)) h = Ok hs' ∧ len hs' = len hs ∧ correct hs' (S k) j ∧
    ∀ k j, correct hs k j → 0 ≤ j → correct hs' k j.
Proof.
  intros Hlen HQ Hc. destruct (proj1 HQ (S k, j)) as [_ Hin]; [left|]. cbn in Hin. pose proof Hin as [Hk Hj].
  assert (∀ b, 0 ≤ b ≤ 1 → correct hs k (2 * j + b)) as Hchild.
  { intros b Hb. destruct (Hc k (2 * j + b)) as [|(x & Hx & Hxk & _)]; [by apply in_tree_child|done|exfalso].
    destruct HQ as (_ & Hs & _). apply StronglySorted_inv in Hs as [_ Hall]. rewrite Forall_forall in Hall.
    apply elem_of_cons in Hx as [->|Hx]; [cbn in Hxk; lia|]. specialize (Hall x Hx). cbn in Hall. lia. }
  destruct (Hchild 0) as (lh & Hlh & Hsl); [lia|]. destruct (Hchild 1) as (rh & Hrh & Hsr); [lia|].
  rewrite Z.add_0_r in Hlh, Hsl. destruct (Hok (S k) j Hin) as [h Hh].
  destruct (store_correct hs (S k) j h Hlen Hin Hh) as (hs' & Hst & Hlen' & Hc' & Hm').
  exists lh, rh, h, hs'. unfold at_node, vec_index. cbn [fst snd]. split_and!; try done.
  - rewrite Nat2Z.inj_succ, <- Z.add_1_r, TreeMath.left_node by lia. by rewrite Hlh.
  - rewrite Nat2Z.inj_succ, <- Z.add_1_r, TreeMath.right_node by lia. by rewrite Hrh.
  - rewrite borrow_as_parent_at by (apply TreeMath.node_nonneg; lia).
    cbn [subtree_hash] in Hh. rewrite Hsl, Hsr in Hh. done.
Qed.

Lemma queue_loop fuel P hs :
  len hs = 2 ^ (d + 1) - 1 → queue_ok P →
  (∀ (k : nat) j, TreeMath.in_tree d (Z.of_nat k) j → correct hs k j ∨ covered P k j) →
  (cost P ≤ fuel)%nat →
  ∃ hs', hash_queue fuel csp nodes filtered (2 ^ d) hs (at_node <$> P) = Ok hs' ∧ len hs' = len hs ∧
    ∀ (k : nat) j, TreeMath.in_tree d (Z.of_nat k) j → correct hs' k j.
Proof.
  revert P hs. induction fuel as [|fuel IH]; intros P hs Hlen HQ Hc Hf;
    (destruct P as [|[[|k] j] P]; [exists hs; split_and!; try done; intros k j Hkj;
       destruct (Hc k j Hkj) as [|(x & Hx & _)]; [done|by apply elem_of_nil in Hx]| |]).
  1,3: destruct (proj1 HQ (0%nat, j)) as [Hk _]; [left|cbn in Hk; lia].
  { cbn in Hf. lia. }
  destruct (head_step hs k j P Hlen HQ Hc) as (lh & rh & h & hs1 & Hl & Hr & Hh & Hst & Hlen1 & Hc1 & Hm1).
  cbn [fmap list_fmap hash_queue]. rewrite Hl, Hr. cbn [mbind result_bind]. rewrite Hh. cbn [mbind result_bind].
  rewrite Hst. cbn [mbind result_bind].
  destruct (proj1 HQ (S k, j)) as [_ Hin]; [left|]. cbn in Hin. pose proof Hin as [Hk Hj].
  assert (∀ (k' : nat) j', TreeMath.in_tree d (Z.of_nat k') j' →
    correct hs1 k' j' ∨ (covered ((S k, j) :: P) k' j' ∧ (k', j') ≠ (S k, j))) as Hc2.
  { intros k' j' Hin'. destruct (decide ((k', j') = (S k, j))) as [[= -> ->]|Hne]; [by left|].
    destruct (Hc k' j' Hin'); [left; apply Hm1; [done|destruct Hin'; lia]|by right]. }
  unfold at_node at 1. cbn [fst snd]. rewrite (TreeMath.parent_sibling_node d _ j Hd Hin).
  destruct (Z.eqb_spec (Z.of_nat (S k)) d) as [E|E].
  - destruct (IH P hs1) as (hs' & -> & Hlen' & Hc'); [lia| | |unfold cost in *; cbn in Hf; lia|by exists hs'; split_and!; [|lia|]].
    + destruct HQ as (H1 & H2 & H3). apply StronglySorted_inv in H2 as [H2 Hall]. rewrite Forall_forall in Hall.
      split_and!; [intros x Hx; apply H1; by right|done|]. destruct P as [|x P]; [done|]. intros y Hy.
      specialize (H3 y ltac:(by right)). specialize (Hall x ltac:(left)). cbn in *. lia.
    + intros k' j' Hin'. destruct (Hc2 k' j' Hin') as [|[(x & Hx & Hle & Hj') Hne]]; [by left|right].
      apply elem_of_cons in Hx as [->|Hx]; [|by exists x]. cbn in *. destruct Hin' as [Hk' _].
      assert (k' = S k) as -> by lia. rewrite Nat.sub_diag, Z.div_1_r in Hj'. by subst.
  - assert ([TreeMath.node (Z.of_nat (S k) + 1) (j / 2)] = at_node <$> [(S (S k), j / 2)]) as Hp.
    { unfold at_node. cbn [fmap list_fmap fst snd]. do 2 f_equal. lia. }
    cbn [TreeMath.parent]. rewrite Hp, <- fmap_app.
    destruct (IH (P ++ [(S (S k), j / 2)]) hs1) as (hs' & -> & Hlen' & Hc');
      [lia|by apply (queue_ok_next _ j)| | |by exists hs'; split_and!; [|lia|]].
    + intros k' j' Hin'. destruct (Hc2 k' j' Hin') as [|[Hcov Hne]]; [by left|right]. apply covered_next; [done..|lia].
    + rewrite cost_app. unfold cost in *. cbn [sum_list_with fst] in *. lia.
Qed.

Lemma at_parents L : Forall (λ l, 0 ≤ l < 2 ^ d) L → queue_ok (parents_of L).
Proof.
  intros HL. unfold parents_of. destruct (Z.eqb_spec d 0) as [|Hne]; [split_and!; try done; [intros x Hx; by apply elem_of_nil in Hx|constructor]|].
  assert (∀ x, x ∈ (λ l, (1%nat, l / 2)) <$> L → x.1 = 1%nat ∧ TreeMath.in_tree d (Z.of_nat x.1) x.2) as Hx.
  { intros x (l & -> & Hl)%list_elem_of_fmap. split; [done|]. rewrite Forall_forall in HL. specialize (HL l Hl). cbn.
    apply (TreeMath.in_tree_up d l 1); lia. }
  split_and!.
  - intros x H. destruct (Hx x H). split; [lia|done].
  - assert (∀ P : list (nat * Z), (∀ x, x ∈ P → x.1 = 1%nat) → StronglySorted (λ x y : nat * Z, (x.1 ≤ y.1)%nat) P) as Hss.
    { clear. intros P. induction P as [|x P IH]; intros HP; constructor; [apply IH; intros; apply HP; by right|].
      apply Forall_forall. intros y Hy. rewrite (HP x), (HP y) by (by left || by right). done. }
    apply Hss. intros x H. by apply Hx.
  - destruct ((λ l, (1%nat, l / 2)) <$> L) as [|y P]; [done|]. intros x H.
    rewrite (proj1 (Hx x H)), (proj1 (Hx y ltac:(left))). lia.
Qed.

Lemma cost_parents L : (cost (parents_of L) ≤ 33 * length (parents_of L))%nat.
Proof.
  unfold cost. induction (parents_of L) as [|x P IH]; [done|]. cbn [sum_list_with length]. lia.
Qed.

(** The whole of [tree_hash]: if the hashes that are not recomputed were
    right, all are right afterwards. *)
Lemma tree_hash_total hs L :
  (∀ l, l ∈ L → 0 ≤ l) →
  (∀ (k : nat) j, TreeMath.in_tree d (Z.of_nat k) j →
     correct (vec_resize hs (2 ^ d * 2 - 1) []) k j ∨ ∃ l, l ∈ L ∧ l < 2 ^ d ∧ l / 2 ^ Z.of_nat k = j) →
  ∃ hs', tree_hash csp hs nodes (Some L) filtered (2 ^ d) = Ok hs' ∧ len hs' = 2 ^ (d + 1) - 1 ∧
    ∀ (k : nat) j, TreeMath.in_tree d (Z.of_nat k) j → correct hs' k j.
Proof.
  intros HL Hc. pose proof (pow2_pos d ltac:(lia)). unfold tree_hash.
  change (default _ (Some L)) with L.
  set (L' := List.filter (λ l, l <? 2 ^ d) L). set (hs0 := vec_resize hs (2 ^ d * 2 - 1) []) in *.
  assert (∀ l, l ∈ L' ↔ l ∈ L ∧ l < 2 ^ d) as HL'.
  { intros l. unfold L'. rewrite !list_elem_of_In, filter_In, Z.ltb_lt. done. }
  assert (len hs0 = 2 ^ (d + 1) - 1) as Hlen0.
  { unfold hs0, vec_resize, len. rewrite length_resize, pow2_succ by lia. lia. }
  destruct (leaves_loop L' hs0 [] Hlen0) as (hs1 & H1 & Hlen1 & Hc1 & Hm1).
  { intros l [Hl Hlt]%HL'. by split; [apply HL|]. }
  cbn [fmap list_fmap app] in H1. change (at_node <$> []) with (@nil Z) in H1. rewrite H1. cbn [mbind result_bind].
  rewrite length_fmap. destruct (queue_loop (33 * length (parents_of L')) (parents_of L') hs1)
    as (hs' & -> & Hlen' & Hc'); [lia| | |apply cost_parents|by exists hs'; split_and!; [|lia|]].
  - apply at_parents, Forall_forall. intros l [Hl Hlt]%HL'. by split; [apply HL|].
  - intros k j Hin. destruct (Hc k j Hin) as [|(l & Hl & Hlt & Hj)]; [left; apply Hm1; [done|destruct Hin; lia]|].
    destruct k as [|k]; [left; rewrite Z.div_1_r in Hj; subst; by apply Hc1, HL'|right].
    exists (1%nat, l / 2). cbn [fst snd]. split_and!; [|lia|].
    + unfold parents_of. destruct Hin as [Hk _]. destruct (Z.eqb_spec d 0); [lia|].
      apply list_elem_of_fmap. exists l. split; [done|by apply HL'].
    + rewrite Z.div_div by (try apply pow2_pos; lia). rewrite <- Z.pow_succ_r by lia. rewrite <- Hj. do 2 f_equal. lia.
Qed.

End incremental.

(** [tree_hash] ends, with an error if the provider or an encoder fails. *)
Section settled.
Context (csp : CipherSuiteProvider) (nodes : NodeVec) (filtered : list Z) (d : Z).
Hypothesis Hd : 0 ≤ d ≤ 31.

Lemma store_settled (hs : list bytes) (k : nat) j h :
  len hs = 2 ^ (d + 1) - 1 → TreeMath.in_tree d (Z.of_nat k) j →
  post (λ hs', len hs' = len hs) (vec_store (E:=MlsError) hs (TreeMath.node (Z.of_nat k) j) h).
Proof.
  intros Hlen Hin. pose proof (TreeMath.node_bound d _ _ Hd Hin) as Hb.
  unfold vec_store. rewrite (proj2 (Z.leb_le _ _)), (proj2 (Z.ltb_lt _ _)) by lia. apply len_vec_set.
Qed.

Lemma index_settled (hs : list bytes) (k : nat) j :
  len hs = 2 ^ (d + 1) - 1 → TreeMath.in_tree d (Z.of_nat k) j →
  settled (vec_index (E:=MlsError) hs (TreeMath.node (Z.of_nat k) j)).
Proof.
  intros Hlen Hin. pose proof (TreeMath.node_bound d _ _ Hd Hin) as Hb. unfold vec_index.
  destruct (vec_get hs _) eqn:E; [done|]. apply vec_get_None in E. lia.
Qed.

Lemma leaf_step_settled hs P l :
  len hs = 2 ^ (d + 1) - 1 → 0 ≤ l < 2 ^ d →
  post (λ '(hs', q), len hs' = len hs ∧ q = at_node <$> P ++ parents_of d [l])
    (hash_leaf_step csp nodes filtered (2 ^ d) (hs, at_node <$> P) l).
Proof.
  intros Hlen Hl. assert (2 ^ d ≤ 2 ^ 31) by (apply Z.pow_le_mono_r; lia).
  assert (TreeMath.in_tree d (Z.of_nat 0) l) as Hin by (split; [lia|]; by rewrite Z.sub_0_r).
  eapply post_bind; [apply post_settled, hash_for_leaf_settled|]. intros h _ _.
  pose proof (store_settled hs 0 l h Hlen Hin) as Hst. change (Z.of_nat 0) with 0 in Hst, Hin.
  rewrite TreeMath.node_0 in Hst. eapply post_bind; [exact Hst|]. intros hs1 _ Hlen1. cbn. split; [done|].
  rewrite u32_small, <- TreeMath.node_0, (TreeMath.parent_sibling_node d 0 l Hd Hin) by (unfold is_u32; lia).
  unfold parents_of. rewrite (Z.eqb_sym 0 d). destruct (d =? 0); [by rewrite app_nil_r|by rewrite fmap_app].
Qed.

Lemma leaves_settled L hs P :
  len hs = 2 ^ (d + 1) - 1 → Forall (λ l, 0 ≤ l < 2 ^ d) L →
  post (λ '(hs', q), len hs' = len hs ∧ q = at_node <$> P ++ parents_of d L)
    (foldM (hash_leaf_step csp nodes filtered (2 ^ d)) (hs, at_node <$> P) L).
Proof.
  revert hs P. induction L as [|l L IH]; intros hs P Hlen HL.
  { cbn. unfold parents_of. by destruct (d =? 0); rewrite ?app_nil_r. }
  apply Forall_cons in HL as [Hl HL]. cbn [foldM]. eapply post_bind; [by apply leaf_step_settled|].
  intros [hs1 q] _ [Hlen1 ->]. eapply post_mono; [|apply (IH hs1 (P ++ parents_of d [l])); [lia|done]].
  intros [hs2 q2] [Hlen2 ->]. split; [lia|]. f_equal. rewrite <- app_assoc. f_equal. unfold parents_of.
  by destruct (d =? 0).
Qed.

Lemma queue_settled fuel P hs :
  len hs = 2 ^ (d + 1) - 1 → (cost d P ≤ fuel)%nat →
  (∀ x, x ∈ P → (1 ≤ x.1)%nat ∧ TreeMath.in_tree d (Z.of_nat x.1) x.2) →
  settled (hash_queue fuel csp nodes filtered (2 ^ d) hs (at_node <$> P)).
Proof.
  revert P hs. induction fuel as [|fuel IH]; intros P hs Hlen Hf HP;
    (destruct P as [|[k j] P]; [done|]); [cbn in Hf; lia|].
  destruct (HP (k, j)) as [Hk Hin]; [left|]. cbn in Hk, Hin. destruct k as [|k]; [lia|].
  cbn [fmap list_fmap hash_queue]. change (at_node (S k, j)) with (TreeMath.node (Z.of_nat (S k)) j).
  assert (∀ b, 0 ≤ b ≤ 1 → settled (vec_index (E:=MlsError) hs (TreeMath.node (Z.of_nat k) (2 * j + b)))) as Hch
    by (intros b Hb; by apply index_settled; [|apply in_tree_child]).
  pose proof Hin as [Hkd Hj].
  assert (Z.of_nat (S k) = Z.of_nat k + 1) as Hsk by lia.
  apply settled_bind; [rewrite Hsk, TreeMath.left_node, <- (Z.add_0_r (2 * j)) by lia; by apply Hch|]. intros lh _.
  apply settled_bind; [rewrite Hsk, TreeMath.right_node by lia; by apply Hch|]. intros rh _.
  apply settled_bind; [apply hash_for_parent_settled|]. intros h _.
  pose proof (store_settled hs (S k) j h Hlen Hin) as Hst.
  destruct (vec_store hs _ h) as [hs1| | |]; try done. cbn in Hst. cbn [mbind result_bind].
  rewrite (TreeMath.parent_sibling_node d _ j Hd Hin).
  destruct (Z.eqb_spec (Z.of_nat (S k)) d) as [E|E].
  - apply IH; [lia|unfold cost in *; cbn in Hf; lia|]. intros x Hx. apply HP. by right.
  - cbn [TreeMath.parent]. replace [TreeMath.node (Z.of_nat (S k) + 1) (j / 2)] with (at_node <$> [(S (S k), j / 2)])
      by (unfold at_node; cbn [fmap list_fmap fst snd]; do 2 f_equal; lia).
    rewrite <- fmap_app. apply IH; [lia|rewrite cost_app; unfold cost in *; cbn [sum_list_with fst] in *; lia|].
    intros x [Hx| ->%list_elem_of_singleton]%elem_of_app; [apply HP; by right|]. cbn [fst snd]. split; [lia|].
    rewrite Nat2Z.inj_succ, <- Z.add_1_r. by apply TreeMath.in_tree_parent.
Qed.

Lemma tree_hash_settled hs L :
  (∀ l, l ∈ L → 0 ≤ l) → settled (tree_hash csp hs nodes (Some L) filtered (2 ^ d)).
Proof.
  intros HL. pose proof (pow2_pos d ltac:(lia)). unfold tree_hash. change (default _ (Some L)) with L.
  set (L' := List.filter (λ l, l <? 2 ^ d) L). set (hs0 := vec_resize hs (2 ^ d * 2 - 1) []).
  assert (Forall (λ l, 0 ≤ l < 2 ^ d) L') as HL'.
  { apply Forall_forall. intros l. unfold L'. rewrite !list_elem_of_In, filter_In, Z.ltb_lt, <- list_elem_of_In.
    intros [Hl ?]. split; [by apply HL|done]. }
  assert (len hs0 = 2 ^ (d + 1) - 1) as Hlen0.
  { unfold hs0, vec_resize, len. rewrite length_resize, pow2_succ by lia. lia. }
  pose proof (leaves_settled L' hs0 [] Hlen0 HL') as Hp. change (at_node <$> []) with (@nil Z) in Hp.
  destruct (foldM _ _ _) as [[hs1 q]| | |]; try done. destruct Hp as [Hlen1 ->]. cbn [app mbind result_bind].
  rewrite length_fmap. apply queue_settled; [lia|by apply cost_parents|]. by apply at_parents.
Qed.
End settled.

Lemma elem_of_trailing hs (n : nat) l :
  l ∈ trailing_blanks hs n ↔ 0 ≤ l < Z.of_nat n ∧ len hs ≤ 2 * l.
Proof.
  induction n as [|n IH]; cbn [trailing_blanks].
  - rewrite elem_of_nil. lia.
  - case_bool_decide as E.
    + apply vec_get_None in E. rewrite elem_of_cons, IH. lia.
    + rewrite elem_of_nil. split; [done|]. intros [Hl Hle]. destruct E. apply vec_get_None. lia.
Qed.

Lemma vec_get_resize {A} (l : list A) n a i x :
  0 ≤ n → vec_get l i = Some x → i < n → vec_get (vec_resize l n a) i = Some x.
Proof.
  unfold vec_get, vec_resize. destruct (Z.ltb_spec i 0); [done|]. intros Hn Hx Hi.
  pose proof (lookup_lt_Some _ _ _ Hx). rewrite lookup_resize by lia. done.
Qed.

(** ** The cache of a tree *)

(** Every node of the tree can be hashed. *)
Definition hashable (csp : CipherSuiteProvider) (nodes : NodeVec) : Prop :=
  ∀ (k : nat) j, TreeMath.in_tree (depth nodes) (Z.of_nat k) j → ∃ h, subtree_hash csp nodes [] k j = Ok h.

(** The cache is empty, or holds the hash of every node. *)
Definition hashes_ok (csp : CipherSuiteProvider) (nodes : NodeVec) (hs : list bytes) : Prop :=
  hs = [] ∨
  (len hs = 2 ^ (depth nodes + 1) - 1 ∧
   ∀ (k : nat) j, TreeMath.in_tree (depth nodes) (Z.of_nat k) j → correct csp nodes [] hs k j).

(** The two trees differ only above the leaves [L]. *)
Definition differ_above (nodes nodes' : NodeVec) (L : list Z) : Prop :=
  ∀ k j, 0 ≤ k → 0 ≤ j → node_at nodes (TreeMath.node k j) ≠ node_at nodes' (TreeMath.node k j) →
    ∃ l, l ∈ L ∧ l / 2 ^ k = j.

Lemma update_hashes_spec csp t nodes0 L :
  fits (nodes t) → fits nodes0 → hashable csp (nodes t) → (∀ l, l ∈ L → 0 ≤ l) →
  hashes_ok csp nodes0 (tree_hashes t) → differ_above nodes0 (nodes t) L →
  ∃ hs, update_hashes csp t L = Ok {| index := index t; nodes := nodes t; tree_hashes := hs |} ∧
    hs ≠ [] ∧ hashes_ok csp (nodes t) hs.
Proof.
  intros Hf Hf0 Hh HL Hhs Hdiff. destruct (depth_spec _ Hf) as (Hd & Ht & _). destruct (depth_spec _ Hf0) as (Hd0 & _ & _).
  unfold update_hashes. rewrite Ht. set (d := depth (nodes t)) in *. set (d0 := depth nodes0) in *.
  pose proof (pow2_pos d ltac:(lia)). set (tr := trailing_blanks (tree_hashes t) (Z.to_nat (2 ^ d))).
  destruct (tree_hash_total csp (nodes t) [] d Hd Hh (tree_hashes t) (L ++ tr)) as (hs & -> & Hlen & Hc).
  - intros l [Hl|Hl]%elem_of_app; [by apply HL|]. apply elem_of_trailing in Hl. lia.
  - intros k j Hin. pose proof Hin as [Hk Hj]. pose proof (pow2_pos (Z.of_nat k) ltac:(lia)) as Hpk.
    assert (2 ^ d = 2 ^ (d - Z.of_nat k) * 2 ^ Z.of_nat k) as Hpd by (rewrite <- Z.pow_add_r by lia; f_equal; lia).
    destruct (decide (Exists (λ l, l / 2 ^ Z.of_nat k = j) L)) as [(l & Hl & Hlj)%Exists_exists|Hn].
    { right. exists l. split_and!; [apply elem_of_app; by left| |done].
      pose proof (Z.div_mod l (2 ^ Z.of_nat k)). pose proof (Z.mod_pos_bound l (2 ^ Z.of_nat k)). nia. }
    assert (subtree_hash csp nodes0 [] k j = subtree_hash csp (nodes t) [] k j) as Heq.
    { apply subtree_hash_ext; [lia|]. intros m i Hm Hi Hij. apply dec_stable. intros Hne.
      destruct (Hdiff (Z.of_nat m) i) as (l & Hl & Hli); [lia..|done|]. apply Hn, Exists_exists. exists l. split; [done|].
      rewrite <- Hij, <- Hli, Z.div_div, <- Z.pow_add_r by (try apply pow2_pos; lia). do 2 f_equal. lia. }
    assert (∀ l, len (tree_hashes t) ≤ 2 * l → 0 ≤ l < 2 ^ d → l / 2 ^ Z.of_nat k = j →
      ∃ l, l ∈ L ++ tr ∧ l < 2 ^ d ∧ l / 2 ^ Z.of_nat k = j) as Htr.
    { intros l Hl1 Hl2 Hl3. exists l. split_and!; [|lia|done]. apply elem_of_app. right. apply elem_of_trailing. lia. }
    assert ((j + 1) * 2 ^ Z.of_nat k ≤ 2 ^ d) as Hup by nia.
    assert (1 ≤ (j + 1) * 2 ^ Z.of_nat k) as Hlo by nia.
    assert (((j + 1) * 2 ^ Z.of_nat k - 1) / 2 ^ Z.of_nat k = j) as Hlast.
    { symmetry. apply (Z.div_unique _ _ _ (2 ^ Z.of_nat k - 1)); lia. }
    destruct Hhs as [E|[Hlen Hc]]; [|fold d0 in Hlen, Hc].
    { right. apply (Htr ((j + 1) * 2 ^ Z.of_nat k - 1)); [rewrite E; change (len (@nil bytes)) with 0; lia|lia|done]. }
    destruct (decide (TreeMath.in_tree d0 (Z.of_nat k) j)) as [Hin0|Hnin0].
    + left. destruct (Hc k j Hin0) as (h & Hg & Hs). exists h. rewrite <- Heq. split; [|done].
      apply vec_get_resize; [lia|done|]. pose proof (TreeMath.node_bound d _ _ Hd Hin). rewrite pow2_succ in * by lia. lia.
    + right. apply (Htr ((j + 1) * 2 ^ Z.of_nat k - 1)); [|lia|done]. rewrite Hlen, pow2_succ by lia.
      enough (2 ^ d0 ≤ (j + 1) * 2 ^ Z.of_nat k - 1) by lia.
      destruct (Z.le_gt_cases (Z.of_nat k) d0).
      * assert (2 ^ (d0 - Z.of_nat k) ≤ j) by (apply Z.nlt_ge; intros ?; apply Hnin0; split; lia).
        assert (2 ^ d0 = 2 ^ (d0 - Z.of_nat k) * 2 ^ Z.of_nat k) as -> by (rewrite <- Z.pow_add_r by lia; f_equal; lia). nia.
      * assert (2 ^ (d0 + 1) ≤ 2 ^ Z.of_nat k) by (apply Z.pow_le_mono_r; lia).
        rewrite pow2_succ in * by lia. pose proof (pow2_pos d0). nia.
  - exists hs. split_and!; [done| |by right]. intros ->. rewrite pow2_succ in Hlen by lia. change (len (@nil bytes)) with 0 in Hlen. lia.
Qed.

Lemma update_hashes_settled csp t L :
  fits (nodes t) → (∀ l, l ∈ L → 0 ≤ l) →
  post (λ t', nodes t' = nodes t ∧ index t' = index t) (update_hashes csp t L).
Proof.
  intros Hf HL. destruct (depth_spec _ Hf) as (Hd & Ht & _). unfold update_hashes. rewrite Ht.
  eapply post_bind; [|by intros hs _ _]. apply post_settled, tree_hash_settled; [done|].
  intros l [Hl|Hl]%elem_of_app; [by apply HL|]. apply elem_of_trailing in Hl. lia.
Qed.

Lemma initialize_hashes_spec csp t :
  fits (nodes t) → hashable csp (nodes t) → hashes_ok csp (nodes t) (tree_hashes t) →
  ∃ hs, initialize_hashes csp t = Ok {| index := index t; nodes := nodes t; tree_hashes := hs |} ∧
    hs ≠ [] ∧ hashes_ok csp (nodes t) hs.
Proof.
  intros Hf Hh Hhs. destruct (depth_spec _ Hf) as (Hd & Ht & _). unfold initialize_hashes. rewrite Ht.
  case_bool_decide as E; [|exists (tree_hashes t); destruct t; done].
  set (d := depth (nodes t)) in *. pose proof (pow2_pos d ltac:(lia)).
  change (tree_hash csp (tree_hashes t) (nodes t) None [] (2 ^ d)) with
    (tree_hash csp (tree_hashes t) (nodes t) (Some (Z.of_nat <$> seq 0 (Z.to_nat (2 ^ d)))) [] (2 ^ d)).
  destruct (tree_hash_total csp (nodes t) [] d Hd Hh (tree_hashes t) (Z.of_nat <$> seq 0 (Z.to_nat (2 ^ d))))
    as (hs & -> & Hlen & Hc).
  - intros l (x & -> & _)%list_elem_of_fmap. lia.
  - intros k j [Hk Hj]. right. pose proof (pow2_pos (Z.of_nat k) ltac:(lia)).
    assert (2 ^ d = 2 ^ (d - Z.of_nat k) * 2 ^ Z.of_nat k) by (rewrite <- Z.pow_add_r by lia; f_equal; lia).
    exists (j * 2 ^ Z.of_nat k). split_and!; [|nia|by apply Z.div_mul; lia].
    apply list_elem_of_fmap. exists (Z.to_nat (j * 2 ^ Z.of_nat k)). split; [nia|]. apply elem_of_seq. nia.
  - exists hs. split_and!; [done| |by right]. intros ->. rewrite pow2_succ in Hlen by lia. change (len (@nil bytes)) with 0 in Hlen. lia.
Qed.

Lemma root_hash_spec csp t :
  fits (nodes t) → hashable csp (nodes t) → hashes_ok csp (nodes t) (tree_hashes t) →
  ∃ h hs, root_hash csp t = Ok (h, {| index := index t; nodes := nodes t; tree_hashes := hs |}) ∧
    subtree_hash csp (nodes t) [] (Z.to_nat (depth (nodes t))) 0 = Ok h ∧ hashes_ok csp (nodes t) hs.
Proof.
  intros Hf Hh Hhs. destruct (initialize_hashes_spec csp t Hf Hh Hhs) as (hs & Hi & Hne & Hc).
  destruct (depth_spec _ Hf) as (Hd & Ht & _). unfold root_hash. rewrite Hi. cbn [mbind result_bind nodes tree_hashes].
  rewrite Ht, TreeMath.root_pow by done. destruct Hc as [->|[Hlen Hc]]; [done|].
  destruct (Hc (Z.to_nat (depth (nodes t))) 0) as (h & Hg & Hs).
  { rewrite Z2Nat.id by lia. split; [lia|]. rewrite Z.sub_diag. done. }
  rewrite Z2Nat.id in Hg by lia. exists h, hs. unfold vec_index. rewrite Hg. split_and!; [done|done|right; done].
Qed.

Lemma root_hash_same csp t h t' : root_hash csp t = Ok (h, t') → nodes t' = nodes t.
Proof.
  intros H. apply bind_ok in H as (t1 & H1 & H). apply bind_ok in H as (h' & _ & [= _ <-]).
  unfold initialize_hashes in H1. case_bool_decide; [|by injection H1 as ->].
  by apply bind_ok in H1 as (hs & _ & [= <-]).
Qed.

(** ** What a tree hash commits to *)
Definition tree_hash_input_wf (x : Z * option LeafNode + option Parent * (bytes * bytes)) : Prop :=
  match x with
  | inl (i, l) => is_u32 i ∧ from_option leaf_node_wf True l
  | inr (p, _) => from_option parent_wf True p
  end.

#[export] Instance leaf_hash_input_laws :
  CodecLaws leaf_hash_input_codec (λ x, tree_hash_input_wf (inl x)).
Proof. eapply laws_iff; [unfold leaf_hash_input_codec; typeclasses eauto|]. by intros [i l]. Qed.

#[export] Instance parent_hash_input_laws :
  CodecLaws parent_hash_input_codec (λ x, tree_hash_input_wf (inr x)).
Proof.
  eapply laws_iff; [unfold parent_hash_input_codec; typeclasses eauto|]. intros [p [l r]]. cbn. tauto.
Qed.

#[export] Instance tree_hash_input_laws : CodecLaws tree_hash_input_codec tree_hash_input_wf.
Proof. solve_enum tree_hash_input_variants tree_hash_input_wf. Qed.

(** What is hashed for a node and everything below it. *)
Definition encoded_input (x : Z * option LeafNode + option Parent * (bytes * bytes)) : list bytes :=
  match mls_encode_to_vec tree_hash_input_codec x with Ok b => [b] | _ => [] end.

Fixpoint hashed_inputs (csp : CipherSuiteProvider) (nodes : NodeVec) (k : nat) (j : Z) : list bytes :=
  match k with
  | O => encoded_input (inl (j, leaf_at nodes j))
  | S k' =>
      hashed_inputs csp nodes k' (2 * j) ++ hashed_inputs csp nodes k' (2 * j + 1) ++
      match subtree_hash csp nodes [] k' (2 * j), subtree_hash csp nodes [] k' (2 * j + 1) with
      | Ok lh, Ok rh => encoded_input (inr (parent_at nodes (TreeMath.node (Z.of_nat k) j), (lh, rh)))
      | _, _ => []
      end
  end.

(** Two inputs that the hash function does not tell apart. *)
Definition collide (csp : CipherSuiteProvider) (x y : bytes) : Prop :=
  x ≠ y ∧ ∃ h, csp_hash csp x = inr h ∧ csp_hash csp y = inr h.

#[global] Instance collide_dec csp x y : Decision (collide csp x y).
Proof.
  unfold collide. destruct (csp_hash csp x) as [e|h]; [right; by intros (_ & h & [=] & _)|].
  destruct (csp_hash csp y) as [e|h']; [right; by intros (_ & h' & _ & [=])|].
  destruct (decide (x ≠ y ∧ h = h')) as [[Hn ->]|Hn]; [left; by eauto|right].
  intros (Hxy & h0 & [= ->] & [= ->]). by apply Hn.
Defined.

(** Hashing the nodes of two trees met a collision. *)
Definition met_collision (csp : CipherSuiteProvider) (a b : list bytes) : Prop := ∃ x y, x ∈ a ∧ y ∈ b ∧ collide csp x y.

Lemma no_collision csp a b : ¬ met_collision csp a b →
  ∀ x y h, x ∈ a → y ∈ b → csp_hash csp x = inr h → csp_hash csp y = inr h → x = y.
Proof. intros Hn x y h Hx Hy E1 E2. destruct (decide (x = y)); [done|]. exfalso. apply Hn. exists x, y. split_and!; [done|done|]. split; [done|]. by exists h. Qed.

Lemma met_collision_decided csp a b : met_collision csp a b ∨ ¬ met_collision csp a b.
Proof.
  destruct (decide (Exists (λ x, Exists (λ y, collide csp x y) b) a)) as [H|H].
  - left. apply Exists_exists in H as (x & Hx & (y & Hy & Hc)%Exists_exists). by exists x, y.
  - right. intros (x & y & Hx & Hy & Hc). apply H, Exists_exists. exists x. split; [done|]. apply Exists_exists. eauto.
Qed.

Definition nodes_wf (nodes : NodeVec) : Prop := ∀ i n, node_at nodes i = Some n → node_wf n.

Lemma hash_input_inj csp qa qb x y h :
  ¬ met_collision csp qa qb → tree_hash_input_wf x → tree_hash_input_wf y → encoded_input x ⊆ qa → encoded_input y ⊆ qb →
  (i ← from_codec_error (mls_encode_to_vec tree_hash_input_codec x); crypto (csp_hash csp i)) = Ok h →
  (i ← from_codec_error (mls_encode_to_vec tree_hash_input_codec y); crypto (csp_hash csp i)) = Ok h →
  x = y.
Proof.
  intros Hcf Hx Hy Qx Qy Ex Ey. apply bind_ok in Ex as (a & Ha & Ex). apply bind_ok in Ey as (b & Hb & Ey).
  unfold crypto in *. destruct (csp_hash csp a) as [|h1] eqn:E1, (csp_hash csp b) as [|h2] eqn:E2; try done.
  injection Ex as ->. injection Ey as ->. apply map_err_ok in Ha, Hb.
  unfold encoded_input in Qx, Qy. rewrite Ha in Qx. rewrite Hb in Qy.
  pose proof (no_collision _ _ _ Hcf a b h (Qx a ltac:(by left)) (Qy b ltac:(by left)) E1 E2) as ->.
  by apply (encode_inj tree_hash_input_codec tree_hash_input_wf x y b).
Qed.

Lemma leaf_at_wf nodes i : nodes_wf nodes → from_option leaf_node_wf True (leaf_at nodes i).
Proof.
  intros H. unfold leaf_at. destruct (node_at nodes (2 * i)) as [[l|p]|] eqn:E; try done. by apply H in E.
Qed.

Lemma parent_at_wf nodes i : nodes_wf nodes → from_option parent_wf True (parent_at nodes i).
Proof.
  intros H. unfold parent_at. destruct (node_at nodes i) as [[l|p]|] eqn:E; try done. by apply H in E.
Qed.

Lemma retain_nil p : retain_unmerged [] p = p.
Proof.
  destruct p as [a b u]. unfold retain_unmerged. cbn. f_equal.
  induction u as [|x u IH]; [done|]. cbn. by rewrite IH.
Qed.

Lemma option_fmap_retain (o : option Parent) : retain_unmerged [] <$> o = o.
Proof. destruct o; cbn; [by rewrite retain_nil|done]. Qed.

Lemma subtree_hash_inj csp a b (k : nat) j h :
  nodes_wf a → nodes_wf b → ¬ met_collision csp (hashed_inputs csp a k j) (hashed_inputs csp b k j) → 0 ≤ j → is_u32 ((j + 1) * 2 ^ Z.of_nat k) →
  subtree_hash csp a [] k j = Ok h → subtree_hash csp b [] k j = Ok h →
  ∀ (m : nat) i, (m ≤ k)%nat → 0 ≤ i → i / 2 ^ Z.of_nat (k - m) = j →
    if decide (m = 0%nat) then leaf_at a i = leaf_at b i
    else parent_at a (TreeMath.node (Z.of_nat m) i) = parent_at b (TreeMath.node (Z.of_nat m) i).
Proof.
  intros Ha Hb. revert j h. induction k as [|k IH]; intros j h Hcf Hj Hu Ea Eb m i Hm Hi Hij.
  - assert (m = 0%nat) as -> by lia. rewrite Z.div_1_r in Hij. subst i. cbn [decide].
    cbn [subtree_hash] in Ea, Eb. rewrite bool_decide_eq_false_2 in Ea, Eb by apply not_elem_of_nil.
    rewrite Z.mul_1_r in Hu. unfold is_u32 in Hu.
    assert (inl (j, leaf_at a j) = inl (j, leaf_at b j) :> Z * option LeafNode + option Parent * (bytes * bytes)) as [= E]; [|done].
    apply (hash_input_inj csp _ _ _ _ h Hcf); try done; (split; [unfold is_u32; lia|by apply leaf_at_wf]).
  - cbn [subtree_hash] in Ea, Eb.
    apply bind_ok in Ea as (la & Hla & Ea). apply bind_ok in Ea as (ra & Hra & Ea).
    apply bind_ok in Eb as (lb & Hlb & Eb). apply bind_ok in Eb as (rb & Hrb & Eb).
    unfold hash_for_parent in Ea, Eb. rewrite option_fmap_retain in Ea, Eb. cbn [hashed_inputs] in Hcf. rewrite Hla, Hra, Hlb, Hrb in Hcf.
    assert (inr (parent_at a (TreeMath.node (Z.of_nat (S k)) j), (la, ra)) =
            inr (parent_at b (TreeMath.node (Z.of_nat (S k)) j), (lb, rb))
            :> Z * option LeafNode + option Parent * (bytes * bytes)) as [= Ep <- <-].
    { apply (hash_input_inj csp _ _ _ _ h Hcf); try done; try (by apply parent_at_wf); set_solver. }
    assert (∀ qa qb, qa ⊆ hashed_inputs csp a k (2 * j) ++ hashed_inputs csp a k (2 * j + 1) →
      qb ⊆ hashed_inputs csp b k (2 * j) ++ hashed_inputs csp b k (2 * j + 1) → ¬ met_collision csp qa qb) as Hsub.
    { intros qa qb Qa Qb (x & y & Hx & Hy & Hc). apply Hcf. exists x, y. set_solver. }
    unfold is_u32 in Hu. rewrite Nat2Z.inj_succ, Z.pow_succ_r in Hu by lia. pose proof (pow2_pos (Z.of_nat k) ltac:(lia)).
    destruct (decide (m = S k)) as [->|Hne].
    { rewrite Nat.sub_diag, Z.div_1_r in Hij. subst i. by destruct (decide (S k = 0%nat)). }
    assert (i / 2 ^ Z.of_nat (k - m) / 2 = j) as Hd.
    { rewrite Z.div_div by (try apply pow2_pos; lia). rewrite Z.mul_comm, <- Z.pow_succ_r by lia.
      rewrite <- Hij. do 2 f_equal. lia. }
    pose proof (Z.div_mod (i / 2 ^ Z.of_nat (k - m)) 2). pose proof (Z.mod_pos_bound (i / 2 ^ Z.of_nat (k - m)) 2).
    destruct (decide (i / 2 ^ Z.of_nat (k - m) = 2 * j)) as [E|E].
    + apply (IH (2 * j) la); try done; [apply Hsub; set_solver|lia|unfold is_u32; nia|lia].
    + apply (IH (2 * j + 1) ra); try done; [apply Hsub; set_solver|lia|unfold is_u32; nia|lia|lia].
Qed.

(** A check that a concrete tree can be hashed. *)
Definition hashable_check (csp : CipherSuiteProvider) (nodes : NodeVec) : bool :=
  forallb (λ k : nat, forallb (λ j : nat, is_ok (subtree_hash csp nodes [] k (Z.of_nat j)))
                        (seq 0 (Z.to_nat (2 ^ (depth nodes - Z.of_nat k)))))
    (seq 0 (S (Z.to_nat (depth nodes)))).

Lemma hashable_check_sound csp nodes : hashable_check csp nodes = true → hashable csp nodes.
Proof.
  unfold hashable_check. rewrite forallb_forall. intros H k j [Hk Hj].
  specialize (H k). rewrite forallb_forall, <- list_elem_of_In, elem_of_seq in H.
  specialize (H ltac:(lia) (Z.to_nat j)). rewrite <- list_elem_of_In, elem_of_seq, Z2Nat.id in H by lia.
  specialize (H ltac:(lia)). destruct (subtree_hash csp nodes [] k j); [eauto|done..].
Qed.

(** ** Properties *)

(** C9. Incremental hashing: if the cache held the right hashes of the tree
    before an edit (or was empty), and the edit changed nodes on the direct
    paths of the given leaves only, then [update_hashes] on those leaves ends
    without an error or a panic and leaves in the cache, for every node, the
    hash that the recursive definition gives; the tree may have grown or shrunk.
    [tree_hash] then returns the recursive hash of the root. *)
Theorem update_hashes_correct (csp : CipherSuiteProvider) (t : TreeKemPublic) (before : NodeVec) (L : list Z) :
  fits (nodes t) → fits before → hashable csp (nodes t) → (∀ l, l ∈ L → 0 ≤ l) →
  hashes_ok csp before (tree_hashes t) → differ_above before (nodes t) L →
  ∃ t' h t'', update_hashes csp t L = Ok t' ∧ nodes t' = nodes t ∧ hashes_ok csp (nodes t) (tree_hashes t') ∧
    root_hash csp t' = Ok (h, t'') ∧
    subtree_hash csp (nodes t) [] (Z.to_nat (depth (nodes t))) 0 = Ok h.
Proof.
  intros Hf Hf0 Hh HL Hhs Hdiff.
  destruct (update_hashes_spec csp t before L Hf Hf0 Hh HL Hhs Hdiff) as (hs & Hu & Hne & Hok).
  set (t' := {| index := index t; nodes := nodes t; tree_hashes := hs |}) in *.
  destruct (root_hash_spec csp t' Hf Hh Hok) as (h & hs' & Hr & Hsub & _).
  by exists t', h, {| index := index t; nodes := nodes t; tree_hashes := hs' |}.
Qed.

Definition sample_tree : TreeKemPublic := {|
  index := TreeIndex.new;
  nodes := [Some (Leaf (sample_leaf UpdateSource)); None; Some (Leaf (sample_leaf (CommitSource [])))];
  tree_hashes := [] |}.

Lemma sample_hashable : hashable toy_csp (nodes sample_tree).
Proof. apply hashable_check_sound. by vm_compute. Qed.

Lemma update_hashes_correct_witness :
  ∃ t' h t'', update_hashes toy_csp sample_tree [1] = Ok t' ∧ nodes t' = nodes sample_tree ∧
    hashes_ok toy_csp (nodes sample_tree) (tree_hashes t') ∧ root_hash toy_csp t' = Ok (h, t'') ∧
    subtree_hash toy_csp (nodes sample_tree) [] (Z.to_nat (depth (nodes sample_tree))) 0 = Ok h.
Proof.
  apply (update_hashes_correct toy_csp sample_tree (nodes sample_tree) [1]); [done|done|apply sample_hashable| | |].
  - intros l ->%list_elem_of_singleton. lia.
  - by left.
  - intros k j _ _ H. by destruct H.
Defined.

(** C33. The tree hash commits to the tree: two trees of well-formed nodes with the same
    hash at a node have the same leaves and the same parents everywhere below it,
    unless hashing them met a collision: two different inputs, one hashed for a node
    of the first tree and one for a node of the second, with the same hash. *)
Theorem tree_hash_binding (csp : CipherSuiteProvider) (a b : NodeVec) (k : nat) (j : Z) (h : bytes) :
  nodes_wf a → nodes_wf b → 0 ≤ j → is_u32 ((j + 1) * 2 ^ Z.of_nat k) →
  subtree_hash csp a [] k j = Ok h → subtree_hash csp b [] k j = Ok h →
  (∀ (m : nat) i, (m ≤ k)%nat → 0 ≤ i → i / 2 ^ Z.of_nat (k - m) = j →
    if decide (m = 0%nat) then leaf_at a i = leaf_at b i
    else parent_at a (TreeMath.node (Z.of_nat m) i) = parent_at b (TreeMath.node (Z.of_nat m) i)) ∨
  met_collision csp (hashed_inputs csp a k j) (hashed_inputs csp b k j).
Proof.
  intros Ha Hb Hj Hu Ea Eb. destruct (met_collision_decided csp (hashed_inputs csp a k j) (hashed_inputs csp b k j)) as [H|H]; [by right|left].
  intros m i. by apply (subtree_hash_inj csp a b k j h).
Qed.

(** A hash function without collisions: the identity. *)
Definition identity_hash_csp : CipherSuiteProvider := {|
  csp_cipher_suite := 1; csp_kem_public_key_validate _ := inr tt;
  csp_hash b := inr b;
  csp_mac := csp_mac toy_csp; csp_aead_seal := csp_aead_seal toy_csp; csp_aead_open := csp_aead_open toy_csp;
  csp_aead_key_size := 2; csp_aead_nonce_size := 2;
  csp_kdf_extract := csp_kdf_extract toy_csp; csp_kdf_expand := csp_kdf_expand toy_csp;
  csp_kdf_extract_size := 2; csp_hpke_seal := csp_hpke_seal toy_csp; csp_hpke_open := csp_hpke_open toy_csp;
  csp_hpke_export_s := csp_hpke_export_s toy_csp; csp_hpke_export_r := csp_hpke_export_r toy_csp;
  csp_kem_generate := csp_kem_generate toy_csp; csp_random_bytes := csp_random_bytes toy_csp;
  csp_kem_derive := csp_kem_derive toy_csp; csp_verify := csp_verify toy_csp; csp_sign := csp_sign toy_csp |}.

Lemma tree_hash_binding_witness :
  ∃ h, subtree_hash identity_hash_csp (nodes sample_tree) [] 1 0 = Ok h ∧
       leaf_at (nodes sample_tree) 1 = leaf_at (nodes sample_tree) 1.
Proof.
  assert (nodes_wf (nodes sample_tree)) as Hwf.
  { intros i n Hn. pose proof (node_at_range _ _ _ Hn) as Hi. change (len (nodes sample_tree)) with 3 in Hi.
    assert (i = 0 ∨ i = 1 ∨ i = 2) as [-> | [-> | ->]] by lia; vm_compute in Hn; try done;
      injection Hn as <-; by apply sample_leaf_wf. }
  destruct (subtree_hash identity_hash_csp (nodes sample_tree) [] 1 0) as [h| | |] eqn:E; try (vm_compute in E; congruence).
  exists h. split; [done|].
  destruct (tree_hash_binding identity_hash_csp (nodes sample_tree) (nodes sample_tree) 1 0 h) as [H|H];
    [exact Hwf|exact Hwf|lia|unfold is_u32; lia|exact E|exact E| |].
  - exact (H 0%nat 1 ltac:(lia) ltac:(lia) ltac:(reflexivity)).
  - destruct H as (x & y & _ & _ & Hne & z & [= ->] & [= ->]). by destruct Hne.
Defined.

End TreeHash.
