(* ===== verification/ParentHash.v ===== *)
(** * Parent hashes (mls-rs/src/tree_kem/parent_hash.rs, tree_hash.rs)

    The chain of hashes from the root down to a committer's leaf: its
    computation and check on a commit ([update_parent_hashes]), the original
    tree hashes with unmerged leaves removed, and the validation of a whole
    imported tree ([validate_parent_hashes]). *)
From S2P Require Import Prelude Codec TreeMath Types Node TreeIndex Crypto TreeHash.
Import Node TreeHash.

Module ParentHash.

(** [ParentHashInput] and [ParentHash::new]. *)
Definition parent_hash_input_codec : MlsCodec (bytes * (bytes * bytes)) :=
  tuple_codec byte_vec_codec (tuple_codec byte_vec_codec byte_vec_codec).

Definition new (csp : CipherSuiteProvider) (public_key parent_hash original_sibling_tree_hash : bytes)
    : Result MlsError bytes :=
  input ← from_codec_error
    (mls_encode_to_vec parent_hash_input_codec (public_key, (parent_hash, original_sibling_tree_hash)));
  crypto (csp_hash csp input).

Definition empty : bytes := [].

Definition get_parent_hash (n : Node) : option bytes :=
  match n with
  | ParentNode p => Some (parent_parent_hash p)
  | Leaf l => match leaf_node_source l with CommitSource h => Some h | _ => None end
  end.

Definition with_nodes (t : TreeKemPublic) (ns : NodeVec) : TreeKemPublic :=
  {| index := index t; nodes := ns; tree_hashes := tree_hashes t |}.

Definition set_parent_hash (h : bytes) (p : Parent) : Parent :=
  {| parent_public_key := parent_public_key p; parent_parent_hash := h; unmerged_leaves := unmerged_leaves p |}.

(** One round of the loop of [parent_hash_for_leaf]. *)
Definition parent_hash_step (csp : CipherSuiteProvider) (hashes : list bytes) (s : NodeVec * bytes)
    (node : TreeMath.CopathNode) : Result MlsError (NodeVec * bytes) :=
  let '(ns, hash) := s in
  e ← is_resolution_empty ns (TreeMath.copath node);
  if (e : bool) then Ok (ns, hash)
  else
    i ← validate_index ns (TreeMath.path node);
    n ← ok_or (vec_get ns i) (InvalidNodeIndex (TreeMath.path node));
    p ← as_parent n;
    sib ← vec_index hashes (TreeMath.copath node);
    calculated ← new csp (parent_public_key p) hash sib;
    Ok (vec_set ns i (Some (ParentNode (set_parent_hash hash p))), calculated).

Definition parent_hash_for_leaf (csp : CipherSuiteProvider) (t : TreeKemPublic) (leaf : Z)
    : Result MlsError (bytes * TreeKemPublic) :=
  '(ns, hash) ← foldM (parent_hash_step csp (tree_hashes t)) (nodes t, empty)
     (rev (direct_copath (nodes t) leaf));
  Ok (hash, with_nodes t ns).

Definition set_source (src : LeafNodeSource) (l : LeafNode) : LeafNode := {|
  leaf_public_key := leaf_public_key l; signing_identity := signing_identity l;
  capabilities := capabilities l; leaf_node_source := src;
  leaf_extensions := leaf_extensions l; signature := signature l |}.

Definition update_parent_hashes (csp : CipherSuiteProvider) (t : TreeKemPublic) (leaf_index : Z)
    (verify_leaf_hash : bool) : Result MlsError TreeKemPublic :=
  t ← update_hashes csp t [leaf_index];
  '(leaf_hash, t) ← parent_hash_for_leaf csp t leaf_index;
  i ← validate_index (nodes t) (node_index leaf_index);
  n ← ok_or (vec_get (nodes t) i) (InvalidNodeIndex (node_index leaf_index));
  leaf ← as_leaf n;
  t ← (if verify_leaf_hash then
         match leaf_node_source leaf with
         | CommitSource parent_hash =>
             if bool_decide (parent_hash = leaf_hash) then Ok t else Err ParentHashMismatch
         | _ => Err InvalidLeafNodeSource
         end
       else Ok (with_nodes t (vec_set (nodes t) i (Some (Leaf (set_source (CommitSource leaf_hash) leaf))))));
  update_hashes csp t [leaf_index].

(** [unmerged_in_subtree]: the slice of a (sorted) list of unmerged leaves that
    falls below a node. *)
Fixpoint take_below (right : Z) (l : list Z) : list Z :=
  match l with [] => [] | a :: l => if a <? right then a :: take_below right l else [] end.
Fixpoint drop_below (left : Z) (l : list Z) : list Z :=
  match l with [] => [] | a :: l' => if a <? left then drop_below left l' else l end.

Definition unmerged_in_subtree (t : TreeKemPublic) (node_unmerged subtree_root : Z) : Result MlsError (list Z) :=
  p ← borrow_as_parent (nodes t) node_unmerged;
  let '(lo, hi) := TreeMath.subtree subtree_root in
  Ok (take_below hi (drop_below lo (unmerged_leaves p))).

Definition different_unmerged (t : TreeKemPublic) (ancestor descendant : Z) : Result MlsError bool :=
  a ← is_blank (nodes t) ancestor;
  if (a : bool) then Ok false else
  d ← is_blank (nodes t) descendant;
  if (d : bool) then Ok false else
  u ← unmerged_in_subtree t ancestor descendant;
  p ← borrow_as_parent (nodes t) descendant;
  Ok (negb (bool_decide (u = unmerged_leaves p))).

(** [compute_original_hashes]: the pass over the tree from the root, which
    collects for each node the ancestors whose unmerged leaves are filtered out
    and the hash arrays computed for them. *)
Definition original_step (csp : CipherSuiteProvider) (t : TreeKemPublic) (num_leaves : Z)
    (s : list (list Z) * list (list bytes)) (n p : Z)
    : Result MlsError (list (list Z) * list (list bytes)) :=
  let '(filtered_sets, hashes) := s in
  fp ← vec_index filtered_sets p;
  filtered_sets ← vec_store filtered_sets n fp;
  a ← unwrap (last fp);
  d ← different_unmerged t a p;
  if (d : bool) then
    filtered_sets ← vec_store filtered_sets n (fp ++ [p]);
    let '(start_leaf, end_leaf) := TreeMath.subtree n in
    hp ← vec_index hashes p;
    parent ← borrow_as_parent (nodes t) p;
    hp ← tree_hash csp hp (nodes t) (Some (seqZ start_leaf (end_leaf - start_leaf)))
           (unmerged_leaves parent) num_leaves;
    hashes ← vec_store hashes p hp;
    Ok (filtered_sets, hashes)
  else Ok (filtered_sets, hashes).

Fixpoint original_loop (csp : CipherSuiteProvider) (t : TreeKemPublic) (num_leaves : Z)
    (s : list (list Z) * list (list bytes)) (order : list Z)
    : Result MlsError (list (list Z) * list (list bytes)) :=
  match order with
  | [] => Ok s
  | n :: order =>
      match TreeMath.parent_sibling n num_leaves with
      | None => Ok s
      | Some ps => s ← original_step csp t num_leaves s n (TreeMath.parent ps);
                   original_loop csp t num_leaves s order
      end
  end.

Definition compute_original_hashes (csp : CipherSuiteProvider) (t : TreeKemPublic)
    : Result MlsError (list bytes) :=
  let num_leaves := total_leaf_count (nodes t) in
  let root := TreeMath.root num_leaves in
  let size := Z.to_nat (num_leaves * 2 - 1) in
  filtered_sets ← vec_store (replicate size []) root [root];
  let order := drop 1 (TreeMath.bfs_collect (S size) (TreeMath.bfs_new num_leaves)) in
  '(filtered_sets, hashes) ← original_loop csp t num_leaves (filtered_sets, replicate size []) order;
  blank ← is_blank (nodes t) root;
  root_original ←
    (if negb blank && negb (Z.even root) then
       p ← borrow_as_parent (nodes t) root;
       if bool_decide (unmerged_leaves p = []) then Ok None
       else Some <$> tree_hash csp [] (nodes t) None (unmerged_leaves p) num_leaves
     else Ok None);
  mapM_res (λ i : nat,
    fs ← vec_index filtered_sets (Z.of_nat i);
    a ← unwrap (last fs);
    b ← is_blank (nodes t) a;
    if b || (a =? root) then
      match root_original with
      | Some ro => vec_index ro (Z.of_nat i)
      | None => vec_index (tree_hashes t) (Z.of_nat i)
      end
    else ha ← vec_index hashes a; vec_index ha (Z.of_nat i)) (seq 0 size).

(** [validate_parent_hashes].  The inner loop: the first non-blank ancestor; a
    chain that reaches a blank root is reported as [None]. *)
Fixpoint non_blank_ancestor (fuel : nat) (t : TreeKemPublic) (num_leaves : Z) (ps : TreeMath.ParentSibling)
    : Result MlsError (option TreeMath.ParentSibling) :=
  b ← is_blank (nodes t) (TreeMath.parent ps);
  if (b : bool) then
    match fuel with
    | O => Diverge
    | S fuel =>
        match TreeMath.parent_sibling (TreeMath.parent ps) num_leaves with
        | None => Ok None
        | Some ps => non_blank_ancestor fuel t num_leaves ps
        end
    end
  else Ok (Some ps).

(** How the loop over the chain of a leaf ends: the [return Ok(())] of the
    source leaves the whole function. *)
Inductive ChainEnd := ReturnOk | NextLeaf (nodes_to_validate : gset Z).

Fixpoint validate_chain (fuel : nat) (csp : CipherSuiteProvider) (t : TreeKemPublic) (original_hashes : list bytes)
    (num_leaves : Z) (nodes_to_validate : gset Z) (n : Z) : Result MlsError ChainEnd :=
  match TreeMath.parent_sibling n num_leaves with
  | None => Ok (NextLeaf nodes_to_validate)
  | Some ps =>
      match fuel with
      | O => Diverge
      | S fuel =>
          ps ← non_blank_ancestor 32 t num_leaves ps;
          match ps with
          | None => Ok ReturnOk
          | Some ps =>
              p_parent ← borrow_as_parent (nodes t) (TreeMath.parent ps);
              n_opt ← borrow_node (nodes t) n;
              n_node ← ok_or n_opt ExpectedNode;
              sib ← vec_index original_hashes (TreeMath.sibling ps);
              calculated ← new csp (parent_public_key p_parent) (parent_parent_hash p_parent) sib;
              if bool_decide (get_parent_hash n_node = Some calculated) then
                cp ← ok_or (TreeMath.parent_sibling (TreeMath.sibling ps) num_leaves) ParentHashMismatch;
                let c := TreeMath.sibling cp in
                c_resolution ← get_resolution_index (nodes t) c;
                u ← unmerged_in_subtree t (TreeMath.parent ps) c;
                let c_resolution : gset Z := list_to_set c_resolution in
                let u : gset Z := list_to_set (node_index <$> u) in
                if bool_decide (n ∈ c_resolution) && bool_decide (c_resolution ∖ {[n]} = u) &&
                   bool_decide (TreeMath.parent ps ∈ nodes_to_validate)
                then validate_chain fuel csp t original_hashes num_leaves
                       (nodes_to_validate ∖ {[TreeMath.parent ps]}) (TreeMath.parent ps)
                else Err ParentHashMismatch
              else Ok (NextLeaf nodes_to_validate)
          end
      end
  end.

Fixpoint validate_leaves_chains (csp : CipherSuiteProvider) (t : TreeKemPublic) (original_hashes : list bytes)
    (num_leaves : Z) (nodes_to_validate : gset Z) (leaves : list Z) : Result MlsError unit :=
  match leaves with
  | [] => if bool_decide (nodes_to_validate = ∅) then Ok tt else Err ParentHashMismatch
  | l :: leaves =>
      e ← validate_chain 32 csp t original_hashes num_leaves nodes_to_validate (node_index l);
      match e with
      | ReturnOk => Ok tt
      | NextLeaf nodes_to_validate =>
          validate_leaves_chains csp t original_hashes num_leaves nodes_to_validate leaves
      end
  end.

Definition validate_parent_hashes (csp : CipherSuiteProvider) (t : TreeKemPublic) : Result MlsError unit :=
  original_hashes ← compute_original_hashes csp t;
  validate_leaves_chains csp t original_hashes (total_leaf_count (nodes t))
    (list_to_set (fst <$> non_empty_parents (nodes t))) (fst <$> non_empty_leaves (nodes t)).

(** ** The committer and the receivers compute the same chain *)
Lemma resolution_nil_blank a b (k : nat) j :
  0 ≤ j → (∀ x, node_at a x = None ↔ node_at b x = None) → resolution a k j = [] ↔ resolution b k j = [].
Proof.
  intros Hj H. rewrite !resolution_nil by done. split; intros Hn m i Hm Hi Hij; apply H; by apply Hn.
Qed.

Lemma vec_set_comm {A} (l : list A) i j a b : i ≠ j → vec_set (vec_set l i a) j b = vec_set (vec_set l j b) i a.
Proof.
  intros Hij. unfold vec_set. destruct (Z.ltb_spec i 0), (Z.ltb_spec j 0); try done.
  apply list_insert_insert_ne. lia.
Qed.

Lemma vec_set_set {A} (l : list A) i a b : vec_set (vec_set l i a) i b = vec_set l i b.
Proof. unfold vec_set. destruct (i <? 0); [done|]. apply list_insert_insert_eq. Qed.

Section chain.
Context (csp : CipherSuiteProvider) (hsA hsB : list bytes) (i : Z) (l : LeafNode).

(** One round, on two trees that differ in the contents of a leaf. *)
Lemma parent_hash_step_leaf ns h c ns' h' (k : nat) j :
  is_Some (node_at ns (2 * i)) → (k ≤ 31)%nat → 0 ≤ j →
  TreeMath.copath c = TreeMath.node (Z.of_nat k) j → TreeMath.path c ≠ 2 * i →
  vec_get hsA (TreeMath.copath c) = vec_get hsB (TreeMath.copath c) →
  parent_hash_step csp hsA (ns, h) c = Ok (ns', h') →
  parent_hash_step csp hsB (vec_set ns (2 * i) (Some (Leaf l)), h) c =
    Ok (vec_set ns' (2 * i) (Some (Leaf l)), h') ∧
  len ns' = len ns ∧ node_at ns' (2 * i) = node_at ns (2 * i).
Proof.
  intros [n Hn] Hk Hj Hc Hp Hh. pose proof (node_at_range _ _ _ Hn) as Hr.
  unfold parent_hash_step. rewrite Hc, !is_resolution_empty_node by done. rewrite <- Hc.
  rewrite (bool_decide_ext (resolution (vec_set ns (2 * i) (Some (Leaf l))) k j = []) (resolution ns k j = [])).
  2:{ apply resolution_nil_blank; [done|]. intros x. rewrite node_at_set by done.
      destruct (Z.eqb_spec x (2 * i)) as [->|]; [|done]. by rewrite Hn. }
  cbn [mbind result_bind]. case_bool_decide as Hnil; [by intros [= <- <-]|].
  unfold validate_index. rewrite len_vec_set. destruct (_ >=? _); [done|]. cbn [mbind result_bind].
  rewrite vec_get_set_ne by done. unfold vec_index. rewrite <- Hh.
  intros H. apply bind_ok in H as (x & Hx & H). rewrite Hx. cbn [mbind result_bind].
  apply bind_ok in H as (p & Hpar & H). rewrite Hpar. cbn [mbind result_bind].
  apply bind_ok in H as (s & Hs & H). rewrite Hs. cbn [mbind result_bind].
  apply bind_ok in H as (h1 & Hnew & [= <- <-]). rewrite Hnew. cbn [mbind result_bind].
  rewrite vec_set_comm by done. split_and!; [done|apply len_vec_set|].
  unfold node_at. by rewrite vec_get_set_ne.
Qed.

Lemma parent_hash_chain_leaf cs ns h ns' h' :
  is_Some (node_at ns (2 * i)) →
  (∀ c, c ∈ cs → ∃ (k : nat) j, (k ≤ 31)%nat ∧ 0 ≤ j ∧ TreeMath.copath c = TreeMath.node (Z.of_nat k) j ∧
     TreeMath.path c ≠ 2 * i ∧ vec_get hsA (TreeMath.copath c) = vec_get hsB (TreeMath.copath c)) →
  foldM (parent_hash_step csp hsA) (ns, h) cs = Ok (ns', h') →
  foldM (parent_hash_step csp hsB) (vec_set ns (2 * i) (Some (Leaf l)), h) cs =
    Ok (vec_set ns' (2 * i) (Some (Leaf l)), h') ∧
  len ns' = len ns ∧ node_at ns' (2 * i) = node_at ns (2 * i).
Proof.
  revert ns h. induction cs as [|c cs IH]; intros ns h Hs Hc; cbn [foldM].
  - by intros [= <- <-].
  - intros H. apply bind_ok in H as ([ns1 h1] & H1 & H).
    destruct (Hc c) as (k & j & Hk & Hj & Hco & Hp & Hh); [left|].
    destruct (parent_hash_step_leaf ns h c ns1 h1 k j Hs Hk Hj Hco Hp Hh H1) as (-> & Hlen & Hat).
    cbn [mbind result_bind]. destruct (IH ns1 h1) as (-> & Hlen' & Hat'); [by rewrite Hat| |done|].
    + intros c' Hc'. apply Hc. by right.
    + split_and!; [done|congruence|congruence].
Qed.
End chain.

(** Hashes of the copath of a leaf do not depend on the leaf. *)
Lemma copath_hash_eq csp ns i l c hsA hsB :
  fits ns → 0 ≤ i → 2 * i < len ns →
  hsA ≠ [] → hsB ≠ [] → hashes_ok csp ns hsA → hashes_ok csp (vec_set ns (2 * i) (Some (Leaf l))) hsB →
  c ∈ direct_copath ns i →
  ∃ (k : nat) j, (k ≤ 31)%nat ∧ 0 ≤ j ∧ TreeMath.copath c = TreeMath.node (Z.of_nat k) j ∧
    TreeMath.path c ≠ 2 * i ∧ vec_get hsA (TreeMath.copath c) = vec_get hsB (TreeMath.copath c).
Proof.
  intros Hf Hi Hlt HA HB [->|[_ HokA]] [->|[_ HokB]] Hc; try done.
  pose proof (leaf_in_tree ns i Hf Hi Hlt) as Hit. destruct (depth_spec ns Hf) as (Hd & _ & _).
  assert (depth (vec_set ns (2 * i) (Some (Leaf l))) = depth ns) as Hdep by (unfold depth; by rewrite len_vec_set).
  rewrite Hdep in HokB. rewrite direct_copath_nodes in Hc by done.
  destruct (TreeMath.copath_in_tree (depth ns) i c) as (p & Hp & Hpath & Hpin & Hco & Hcin); [done..|].
  rewrite <- (Z2Nat.id p) in Hcin, Hco by lia. set (k := Z.to_nat p) in *. set (j := TreeMath.sib (i / 2 ^ Z.of_nat k)) in *.
  assert (Z.of_nat k = p) as Hkp by lia. exists k, j. split_and!; [lia|destruct Hcin; lia|done| |].
  - rewrite Hpath. intros E. apply (f_equal Z.even) in E.
    rewrite even_node, Z.even_mul in E by (destruct Hpin; lia). cbn in E. lia.
  - destruct (HokA k j Hcin) as (a & Ha & HsA). destruct (HokB k j Hcin) as (b & Hb & HsB). rewrite Hco, Ha, Hb.
    rewrite <- (subtree_hash_ext csp ns _ [] k j) in HsB; [congruence|destruct Hcin; lia|].
    intros m x Hm Hx Hxj. rewrite node_at_set by lia. destruct (Z.eqb_spec (TreeMath.node (Z.of_nat m) x) (2 * i)) as [E|]; [|done].
    exfalso. assert (m = 0%nat) as ->.
    { apply (f_equal Z.even) in E. rewrite even_node, Z.even_mul in E by lia. cbn in E. lia. }
    change (Z.of_nat 0) with 0 in E. rewrite TreeMath.node_0 in E. assert (x = i) as -> by lia.
    rewrite Nat.sub_0_r in Hxj. unfold j, TreeMath.sib in Hxj. destruct (Z.even _); lia.
Qed.

Lemma differ_above_set ns i x : 0 ≤ i → 2 * i < len ns → differ_above ns (vec_set ns (2 * i) x) [i].
Proof.
  intros Hi Hlt k j Hk Hj Hne. rewrite node_at_set in Hne by lia.
  destruct (Z.eqb_spec (TreeMath.node k j) (2 * i)) as [E|]; [|done]. exists i. split; [left|].
  assert (k = 0) as ->.
  { apply (f_equal Z.even) in E. rewrite even_node, Z.even_mul in E by lia. cbn in E. lia. }
  rewrite TreeMath.node_0 in E. rewrite Z.div_1_r. lia.
Qed.

Lemma parent_hash_step_at csp hs ns h c ns' h' :
  parent_hash_step csp hs (ns, h) c = Ok (ns', h') →
  len ns' = len ns ∧ ∀ x, x ≠ TreeMath.path c → node_at ns' x = node_at ns x.
Proof.
  unfold parent_hash_step. intros H. apply bind_ok in H as (e & _ & H). destruct e; [by injection H as <- <-|].
  unfold validate_index in H. destruct (_ >=? _); [done|]. cbn [mbind result_bind] in H.
  apply bind_ok in H as (n & _ & H). apply bind_ok in H as (p & _ & H). apply bind_ok in H as (s & _ & H).
  apply bind_ok in H as (hn & _ & [= <- <-]). split; [apply len_vec_set|].
  intros x Hx. unfold node_at. by rewrite vec_get_set_ne.
Qed.

(** Only nodes of the direct path are written. *)
Lemma parent_hash_chain_at csp hs cs ns h ns' h' :
  foldM (parent_hash_step csp hs) (ns, h) cs = Ok (ns', h') →
  len ns' = len ns ∧ ∀ x, x ∉ TreeMath.path <$> cs → node_at ns' x = node_at ns x.
Proof.
  revert ns h. induction cs as [|c cs IH]; intros ns h; cbn [foldM]; [by intros [= <- <-]|].
  intros H. apply bind_ok in H as ([ns1 h1] & H1 & H). apply IH in H as [Hlen Hat].
  apply parent_hash_step_at in H1 as [Hlen1 Hat1]. split; [congruence|].
  intros x [Hx Hx']%not_elem_of_cons. rewrite Hat by done. by apply Hat1.
Qed.

Lemma chain_differ csp hs ns i h ns' h' :
  fits ns → 0 ≤ i → 2 * i < len ns →
  foldM (parent_hash_step csp hs) (ns, h) (rev (direct_copath ns i)) = Ok (ns', h') →
  len ns' = len ns ∧ differ_above ns ns' [i] ∧ node_at ns' (2 * i) = node_at ns (2 * i).
Proof.
  intros Hf Hi Hlt H. apply parent_hash_chain_at in H as [Hlen Hat]. pose proof (leaf_in_tree ns i Hf Hi Hlt) as Hit.
  assert (∀ x, x ∈ TreeMath.path <$> rev (direct_copath ns i) → is_ancestor (depth ns) i x) as Hanc.
  { intros x Hx. apply direct_copath_path; [done..|]. apply list_elem_of_fmap in Hx as (c & -> & Hc).
    apply list_elem_of_fmap. exists c. split; [done|]. apply list_elem_of_In. apply in_rev. by apply list_elem_of_In. }
  split_and!; [done| |].
  - intros k j Hk Hj Hne. exists i. split; [left|]. destruct (decide (TreeMath.node k j ∈ TreeMath.path <$> rev (direct_copath ns i))) as [Hx|Hx].
    + apply Hanc in Hx as (p & Hp & E). apply TreeMath.node_inj in E as [-> ->]; [done|lia|lia|lia|].
      apply Z.div_pos; [lia|]. apply pow2_pos. lia.
    + by rewrite Hat in Hne.
  - apply Hat. intros Hx. apply Hanc in Hx as (p & Hp & E). apply (f_equal Z.even) in E.
    rewrite even_node, Z.even_mul in E by (try apply Z.div_pos; try apply pow2_pos; lia). cbn in E. lia.
Qed.

(** ** Properties *)

(** C18. The committer and the receivers agree on parent hashes.  Let the
    committer fill in the parent hashes of its path ([update_parent_hashes]
    without verification), which stores in its leaf a parent hash [h].  A
    receiver has the same tree, except that the committer's leaf is already the
    one from the update path (whose keys, capabilities and signature may differ
    from what the committer's tree held at that moment).  Then the receiver's
    verification succeeds when that leaf carries [h], and both end with the
    same parents; with any other parent hash it fails with
    [ParentHashMismatch]. *)
Theorem parent_hash_agreement (csp : CipherSuiteProvider) (t tR t1 : TreeKemPublic) (before : NodeVec)
    (i : Z) (l0 l1 l : LeafNode) (h h1 : bytes) :
  fits (nodes t) → fits before → 0 ≤ i < 2 ^ 31 → leaf_at (nodes t) i = Some l0 →
  nodes tR = vec_set (nodes t) (2 * i) (Some (Leaf l1)) →
  hashes_ok csp before (tree_hashes t) → hashes_ok csp before (tree_hashes tR) →
  differ_above before (nodes t) [i] →
  hashable csp (nodes t) → hashable csp (nodes tR) →
  update_parent_hashes csp t i false = Ok t1 →
  leaf_at (nodes t1) i = Some l → leaf_node_source l = CommitSource h →
  leaf_node_source l1 = CommitSource h1 →
  hashable csp (vec_set (nodes t1) (2 * i) (Some (Leaf l1))) →
  (h1 = h → ∃ tR1, update_parent_hashes csp tR i true = Ok tR1 ∧
     nodes tR1 = vec_set (nodes t1) (2 * i) (Some (Leaf l1))) ∧
  (h1 ≠ h → update_parent_hashes csp tR i true = Err ParentHashMismatch).
Proof.
  intros Hf Hf0 Hi Hl0 HtR Hhs HhsR Hdiff Hh HhR Hup Hl Hsrc Hsrc1 Hh1.
  assert (node_at (nodes t) (2 * i) = Some (Leaf l0)) as Hn0.
  { unfold leaf_at in Hl0. destruct (node_at _ _) as [[]|]; congruence. }
  pose proof (node_at_range _ _ _ Hn0) as Hr.
  assert (fits (nodes tR)) as HfR by (rewrite HtR; unfold fits; by rewrite len_vec_set).
  assert (∀ x, x ∈ [i] → 0 ≤ x) as Hpos by (intros x ->%list_elem_of_singleton; lia).
  assert (differ_above before (nodes tR) [i]) as HdiffR.
  { intros k j Hk Hj Hne. rewrite HtR in Hne. destruct (decide (node_at before (TreeMath.node k j) = node_at (nodes t) (TreeMath.node k j))) as [E|E].
    - rewrite E in Hne. by apply (differ_above_set (nodes t) i (Some (Leaf l1))); [lia..|done].
    - by apply (Hdiff k j). }
  unfold update_parent_hashes in *.
  destruct (update_hashes_spec csp t before [i] Hf Hf0 Hh Hpos Hhs Hdiff) as (hsA & HuA & HneA & HokA).
  destruct (update_hashes_spec csp tR before [i] HfR Hf0 HhR Hpos HhsR HdiffR) as (hsB & HuB & HneB & HokB).
  rewrite HuA in Hup. rewrite HuB. cbn [mbind result_bind] in *.
  apply bind_ok in Hup as ([leaf_hash t2] & Hchain & Hup). unfold parent_hash_for_leaf in *. cbn [nodes tree_hashes] in *.
  apply bind_ok in Hchain as ([ns hh] & Hfold & [= <- <-]).
  destruct (chain_differ csp hsA (nodes t) i empty ns hh Hf ltac:(lia) ltac:(lia) Hfold) as (Hlen & Hdns & Hatl).
  rewrite Hn0 in Hatl. rewrite HtR in HokB.
  destruct (parent_hash_chain_leaf csp hsA hsB i l1 (rev (direct_copath (nodes t) i)) (nodes t) empty ns hh) as (HfoldR & _ & _);
    [by rewrite Hn0| |done|].
  { intros c Hc. apply (copath_hash_eq csp (nodes t) i l1); try done; try lia.
    apply list_elem_of_In, in_rev. by apply list_elem_of_In. }
  assert (direct_copath (nodes tR) i = direct_copath (nodes t) i) as Hdc.
  { unfold direct_copath, total_leaf_count. by rewrite HtR, len_vec_set. }
  rewrite Hdc, HtR, HfoldR. cbn [mbind result_bind with_nodes nodes] in *.
  rewrite node_index_small in * by done. rewrite validate_index_ok in Hup |- * by (rewrite ?len_vec_set; lia).
  cbn [mbind result_bind] in *. rewrite vec_get_set_eq by lia. rewrite vec_get_node_at, Hatl in Hup by lia.
  cbn [ok_or mbind result_bind as_leaf leaf_node_source] in *. rewrite Hsrc1.
  set (t3 := with_nodes _ (vec_set ns _ _)) in Hup.
  assert (nodes t1 = nodes t3) as Ht1.
  { unfold update_hashes in Hup. apply bind_ok in Hup as (? & _ & [= <-]). done. }
  assert (hh = h) as ->.
  { rewrite Ht1 in Hl. unfold leaf_at, t3 in Hl. cbn [nodes with_nodes] in Hl.
    rewrite node_at_set, Z.eqb_refl in Hl by lia. injection Hl as <-. cbn in Hsrc. congruence. }
  split.
  - intros ->. rewrite bool_decide_eq_true_2 by done. cbn [mbind result_bind].
    rewrite Ht1 in Hh1 |- *. unfold t3 in Hh1 |- *. cbn [nodes with_nodes] in Hh1 |- *. rewrite vec_set_set in Hh1 |- *.
    match goal with |- context [update_hashes csp ?tt [i]] => set (t4 := tt) end.
    destruct (update_hashes_spec csp t4 (nodes tR) [i]) as (hs4 & Hu4 & _ & _);
      [|exact HfR|exact Hh1|exact Hpos|rewrite HtR; exact HokB| |].
    + unfold fits, t4. cbn [nodes with_nodes]. rewrite len_vec_set, Hlen. exact Hf.
    + intros k j Hk Hj Hne. unfold t4 in Hne. cbn [nodes with_nodes] in Hne. rewrite HtR in Hne.
      rewrite !node_at_set in Hne by lia. destruct (Z.eqb_spec (TreeMath.node k j) (2 * i)); [exfalso; apply Hne; reflexivity|].
      exact (Hdns k j Hk Hj Hne).
    + eexists. split; [exact Hu4|reflexivity].
  - intros Hne. by rewrite bool_decide_eq_false_2.
Qed.

Definition sample_parent (h : bytes) : Parent :=
  {| parent_public_key := [byte.of_Z 9]; parent_parent_hash := h; unmerged_leaves := [] |}.

Definition sample_committer : TreeKemPublic := {|
  index := TreeIndex.new;
  nodes := [Some (Leaf (sample_leaf UpdateSource)); Some (ParentNode (sample_parent []));
            Some (Leaf (sample_leaf UpdateSource))];
  tree_hashes := [] |}.

Definition sample_committed : TreeKemPublic :=
  match update_parent_hashes toy_csp sample_committer 0 false with Ok t => t | _ => sample_committer end.
Definition sample_committed_leaf : LeafNode :=
  default (sample_leaf UpdateSource) (leaf_at (nodes sample_committed) 0).
Definition sample_hash : bytes := default [] (get_parent_hash (Leaf sample_committed_leaf)).
Definition sample_receiver : TreeKemPublic :=
  with_nodes sample_committer
    (vec_set (nodes sample_committer) (2 * 0) (Some (Leaf (sample_leaf (CommitSource sample_hash))))).

Lemma parent_hash_agreement_witness :
  ∃ tR1, update_parent_hashes toy_csp sample_receiver 0 true = Ok tR1 ∧
    nodes tR1 = vec_set (nodes sample_committed) (2 * 0) (Some (Leaf (sample_leaf (CommitSource sample_hash)))).
Proof.
  apply (parent_hash_agreement toy_csp sample_committer sample_receiver sample_committed (nodes sample_committer) 0
    (sample_leaf UpdateSource) (sample_leaf (CommitSource sample_hash)) sample_committed_leaf sample_hash sample_hash);
    try reflexivity; try lia; try (by left); try (apply hashable_check_sound; vm_compute; reflexivity).
  intros k j _ _ Hne. by destruct Hne.
Defined.

(** The search for the first non-blank ancestor returns from the whole
    validation when the chain of the first member reaches a blank root (the
    comment there says the chain is done).  In a tree of four leaves with nodes 1
    and 3 blank and member 0 present, any parent whatsoever is accepted at node
    5, whether or not a member below it is linked to it. *)
Theorem validate_stops_at_blank_root (csp : CipherSuiteProvider) (t : TreeKemPublic)
    (l : LeafNode) (p : Parent) (x2 x4 : option Node) (l6 : LeafNode) (oh : list bytes) :
  nodes t = [Some (Leaf l); None; x2; None; x4; Some (ParentNode p); Some (Leaf l6)] →
  compute_original_hashes csp t = Ok oh →
  validate_parent_hashes csp t = Ok tt.
Proof.
  intros Hn Hoh. unfold validate_parent_hashes. rewrite Hoh. cbn [mbind result_bind]. rewrite Hn.
  change (total_leaf_count _) with 4.
  assert (∃ ls, fst <$> non_empty_leaves [Some (Leaf l); None; x2; None; x4; Some (ParentNode p); Some (Leaf l6)] = 0 :: ls) as [ls ->].
  { eexists. reflexivity. }
  cbn [validate_leaves_chains]. unfold validate_chain.
  change (TreeMath.parent_sibling (node_index 0) 4) with (Some {| TreeMath.parent := 1; TreeMath.sibling := 2 |}).
  cbn iota. assert (non_blank_ancestor 32 t 4 {| TreeMath.parent := 1; TreeMath.sibling := 2 |} = Ok None) as ->; [|done].
  unfold non_blank_ancestor, is_blank, borrow_node. rewrite Hn. reflexivity.
Qed.

Definition sample_unlinked : TreeKemPublic := {|
  index := TreeIndex.new;
  nodes := [Some (Leaf (sample_leaf UpdateSource)); None; None; None; None;
            Some (ParentNode (sample_parent [byte.of_Z 66])); Some (Leaf (sample_leaf UpdateSource))];
  tree_hashes := replicate 7 [] |}.

Lemma validate_stops_at_blank_root_witness : validate_parent_hashes toy_csp sample_unlinked = Ok tt.
Proof.
  destruct (compute_original_hashes toy_csp sample_unlinked) as [oh| | |] eqn:E; try (vm_compute in E; congruence).
  exact (validate_stops_at_blank_root toy_csp sample_unlinked _ _ _ _ _ oh eq_refl E).
Defined.

End ParentHash.
