(* ===== verification/OriginalHash.v ===== *)
(** * What a validation of parent hashes shows (mls-rs/src/tree_kem/tree_hash.rs, parent_hash.rs)

    The original tree hashes of [compute_original_hashes] are those of RFC 9420: for a
    node whose parent is filled, the hash of its subtree without the leaves that are
    unmerged at the parent.  From that, what [validate_parent_hashes] has checked when
    it succeeds: every filled parent is linked to a node below it, as the RFC asks. *)
From S2P Require Import Prelude Codec TreeMath Types Node TreeIndex Crypto TreeHash ParentHash.
Import Node TreeHash ParentHash.

Module OriginalHash.

(** ** Hashing a part of the tree

    [tree_hash] for the leaves of a subtree in an array whose other entries need not be
    right: if it returns, the entries of the subtree are right. *)
Section partial.
Context (csp : CipherSuiteProvider) (nodes : NodeVec) (filtered : list Z) (d : Z).
Hypothesis Hd : 0 ≤ d ≤ 31.

(** The node [j] of level [k] lies in the subtree of the node [j0] of level [k0]. *)
Definition under (k : nat) (j : Z) (k0 : nat) (j0 : Z) : Prop := (k ≤ k0)%nat ∧ 0 ≤ j ∧ j / 2 ^ Z.of_nat (k0 - k) = j0.

Lemma under_refl (k : nat) j : 0 ≤ j → under k j k j.
Proof. intros Hj. split_and!; [done|done|]. by rewrite Nat.sub_diag, Z.div_1_r. Qed.

Lemma under_child (k : nat) j (k0 : nat) j0 b : under (S k) j k0 j0 → 0 ≤ b ≤ 1 → under k (2 * j + b) k0 j0.
Proof.
  intros (Hk & Hj & E) Hb. split_and!; [lia|lia|]. replace (Z.of_nat (k0 - k)) with (1 + Z.of_nat (k0 - S k)) by lia.
  rewrite Z.pow_add_r, <- Z.div_div by (try apply pow2_pos; lia). change (2 ^ 1) with 2.
  replace ((2 * j + b) / 2) with j by (Z.div_mod_to_equations; lia). done.
Qed.

Lemma under_parent (k : nat) j (k0 : nat) j0 : under k j k0 j0 → (k < k0)%nat → under (S k) (j / 2) k0 j0.
Proof.
  intros (Hk & Hj & E) Hlt. split_and!; [lia|by apply Z.div_pos|]. rewrite <- E. rewrite Z.div_div by (try apply pow2_pos; lia).
  rewrite <- Z.pow_succ_r by lia. do 2 f_equal. lia.
Qed.

Lemma under_in_tree (k : nat) j (k0 : nat) j0 : under k j k0 j0 → TreeMath.in_tree d (Z.of_nat k0) j0 → TreeMath.in_tree d (Z.of_nat k) j.
Proof.
  intros (Hk & Hj & E) [Hk0 Hj0]. split; [lia|]. split; [done|].
  replace (d - Z.of_nat k) with (d - Z.of_nat k0 + Z.of_nat (k0 - k)) by lia. rewrite Z.pow_add_r by lia.
  pose proof (pow2_pos (Z.of_nat (k0 - k)) ltac:(lia)). pose proof (Z.mod_pos_bound j (2 ^ Z.of_nat (k0 - k)) ltac:(lia)).
  pose proof (Z.div_mod j (2 ^ Z.of_nat (k0 - k)) ltac:(lia)). nia.
Qed.

Lemma store_at (hs hs' : list bytes) (k : nat) j h :
  vec_store (E:=MlsError) hs (TreeMath.node (Z.of_nat k) j) h = Ok hs' → 0 ≤ j →
  len hs' = len hs ∧ vec_get hs' (TreeMath.node (Z.of_nat k) j) = Some h ∧
  ∀ (k' : nat) j', 0 ≤ j' → (k', j') ≠ (k, j) → vec_get hs' (TreeMath.node (Z.of_nat k') j') = vec_get hs (TreeMath.node (Z.of_nat k') j').
Proof.
  unfold vec_store. destruct (_ && _) eqn:E; [|done]. apply andb_true_iff in E as [E1%Z.leb_le E2%Z.ltb_lt].
  intros [= <-] Hj. split_and!; [apply len_vec_set|by apply vec_get_set_eq|]. intros k' j' Hj' Hne. apply vec_get_set_ne.
  intros E. apply TreeMath.node_inj in E as [? ?]; [|lia..]. apply Hne. f_equal; lia.
Qed.

Lemma correct_same (hs hs' : list bytes) (k : nat) j :
  vec_get hs' (TreeMath.node (Z.of_nat k) j) = vec_get hs (TreeMath.node (Z.of_nat k) j) →
  correct csp nodes filtered hs k j → correct csp nodes filtered hs' k j.
Proof. intros E (h & Hg & Hs). exists h. by rewrite E. Qed.

Notation parents_of := (parents_of d).

(** The leaves. *)
Lemma leaves_partial L : ∀ hs P hs' q,
  Forall (λ l, 0 ≤ l < 2 ^ d) L →
  foldM (hash_leaf_step csp nodes filtered (2 ^ d)) (hs, at_node <$> P) L = Ok (hs', q) →
  len hs' = len hs ∧ q = at_node <$> P ++ parents_of L ∧
  (∀ l, l ∈ L ∨ correct csp nodes filtered hs 0 l ∧ 0 ≤ l → correct csp nodes filtered hs' 0 l) ∧
  (∀ (k : nat) j, 0 ≤ j → ¬ (k = O ∧ j ∈ L) → vec_get hs' (TreeMath.node (Z.of_nat k) j) = vec_get hs (TreeMath.node (Z.of_nat k) j)).
Proof.
  assert (2 ^ d ≤ 2 ^ 31) as Hd31 by (apply Z.pow_le_mono_r; lia).
  induction L as [|l L IH]; intros hs P hs' q HL; cbn [foldM].
  { intros [= <- <-]. split_and!; [done| |intros l [Hl|[? _]]; [by apply elem_of_nil in Hl|done]|done].
    unfold TreeHash.parents_of. destruct (d =? 0); by rewrite app_nil_r. }
  apply Forall_cons in HL as [Hl HL]. intros ([hs1 q1] & H1 & H)%bind_ok.
  unfold hash_leaf_step in H1. rewrite borrow_as_leaf_at in H1 by lia. apply bind_ok in H1 as (h & Hh & H1).
  apply bind_ok in H1 as (hs2 & Hst & [= <- <-]).
  pose proof Hst as Hst'. rewrite <- TreeMath.node_0 in Hst'. apply (store_at _ _ O) in Hst' as (Hlen & Hat & Hsame); [|lia].
  assert (TreeMath.in_tree d 0 l) as Hin by (split; [lia|]; by rewrite Z.sub_0_r).
  assert (match TreeMath.parent_sibling (u32 (2 * l)) (2 ^ d) with
          | Some ps => (at_node <$> P) ++ [TreeMath.parent ps] | None => at_node <$> P end = at_node <$> P ++ parents_of [l]) as Eq.
  { rewrite u32_small, <- TreeMath.node_0, (TreeMath.parent_sibling_node d 0 l Hd Hin) by (unfold is_u32; lia).
    unfold TreeHash.parents_of. rewrite (Z.eqb_sym 0 d). destruct (d =? 0); [by rewrite app_nil_r|by rewrite fmap_app]. }
  rewrite Eq in H. apply IH in H as (Hlen' & -> & Hc & Hs); [|done]. split_and!.
  - congruence.
  - f_equal. unfold TreeHash.parents_of. destruct (d =? 0); [by rewrite !app_nil_r|]. cbn [fmap list_fmap]. by rewrite <- app_assoc.
  - assert (correct csp nodes filtered hs2 0 l) as Hcl by (exists h; split; [exact Hat|exact Hh]).
    intros l' Hl'. apply Hc. destruct (decide (l' = l)) as [->|Hne]; [right; split; [done|lia]|].
    destruct Hl' as [[->|Hl']%elem_of_cons|[Hl' Hp]]; [done|by left|right; split; [|done]].
    revert Hl'. apply correct_same. apply Hsame; [done|]. congruence.
  - intros k j Hj Hn. rewrite Hs; [apply Hsame; [done|]|done|].
    2:{ intros [-> ?]. apply Hn. split; [done|by right]. }
    intros [= -> ->]. apply Hn. split; [done|left].
Qed.

(** The queue.  A node of the subtree is right, or lies above a node of the queue. *)
Lemma covered_cons (x : nat * Z) P (k : nat) j : covered (x :: P) k j ↔ ((x.1 ≤ k)%nat ∧ x.2 / 2 ^ Z.of_nat (k - x.1) = j) ∨ covered P k j.
Proof.
  unfold covered. split.
  - intros (y & [->|Hy]%elem_of_cons & H); [by left|right; by exists y].
  - intros [H|(y & Hy & H)]; [exists x; split; [left|done]|exists y; split; [by right|done]].
Qed.

Lemma covered_up P (k : nat) j b : covered P k (2 * j + b) → 0 ≤ b ≤ 1 → covered P (S k) j.
Proof.
  intros (x & Hx & Hk & E) Hb. exists x. split_and!; [done|lia|]. replace (Z.of_nat (S k - x.1)) with (Z.of_nat (k - x.1) + 1) by lia.
  rewrite Z.pow_add_r, <- Z.div_div by (try apply pow2_pos; lia). rewrite E. change (2 ^ 1) with 2. Z.div_mod_to_equations. lia.
Qed.

(** The queue once its first node has been hashed. *)
Definition after_head (k : nat) (j : Z) (P : list (nat * Z)) : list (nat * Z) :=
  if Z.of_nat k =? d then P else P ++ [(S k, j / 2)].

Lemma after_head_covers (k : nat) j P (k' : nat) j' :
  0 ≤ j → (Z.of_nat k' ≤ d) → (k', j') ≠ (k, j) → covered ((k, j) :: P) k' j' ↔ covered (after_head k j P) k' j'.
Proof.
  intros Hj Hk' Hne. unfold after_head. destruct (Z.eqb_spec (Z.of_nat k) d) as [E|E].
  - rewrite covered_cons. cbn [fst snd]. split; [|by right]. intros [[Hle Hj']|H]; [|done]. assert (k' = k) as -> by lia.
    rewrite Nat.sub_diag, Z.div_1_r in Hj'. by subst.
  - split; [intros H; by apply covered_next|]. intros (x & [Hx|Hx]%elem_of_app & Hle & Hj').
    + exists x. split; [by right|done].
    + apply list_elem_of_singleton in Hx as ->. cbn [fst snd] in *. exists (k, j). split; [left|]. cbn [fst snd]. split; [lia|].
      rewrite <- Hj'. rewrite Z.div_div by (try apply pow2_pos; lia). rewrite <- Z.pow_succ_r by lia. do 2 f_equal. lia.
Qed.

Lemma queue_partial fuel : ∀ P hs hs',
  (∀ x, x ∈ P → (1 ≤ x.1)%nat ∧ TreeMath.in_tree d (Z.of_nat x.1) x.2) →
  hash_queue fuel csp nodes filtered (2 ^ d) hs (at_node <$> P) = Ok hs' →
  len hs' = len hs ∧
  (∀ (k0 : nat) j0, TreeMath.in_tree d (Z.of_nat k0) j0 →
    (∀ (k : nat) j, under k j k0 j0 → correct csp nodes filtered hs k j ∨ covered P k j) →
    ∀ (k : nat) j, under k j k0 j0 → correct csp nodes filtered hs' k j) ∧
  (∀ (k : nat) j, TreeMath.in_tree d (Z.of_nat k) j → ¬ covered P k j →
    vec_get hs' (TreeMath.node (Z.of_nat k) j) = vec_get hs (TreeMath.node (Z.of_nat k) j)).
Proof.
  induction fuel as [|fuel IH]; intros P hs hs' HP H.
  all: destruct P as [|[[|k] j] P]; [| |].
  1,4: cbn [fmap list_fmap hash_queue] in H; injection H as <-; split_and!; try done;
    intros k0 j0 _ Hc k j Hu; destruct (Hc k j Hu) as [|(x & Hx & _)]; [done|by apply elem_of_nil in Hx].
  1,3: destruct (HP (O, j) ltac:(left)) as [Hk _]; cbn in Hk; lia.
  { done. }
  destruct (HP (S k, j) ltac:(left)) as [_ Hin]. cbn [fst snd] in Hin. pose proof Hin as [Hkd Hj].
  cbn [fmap list_fmap hash_queue] in H. change (at_node (S k, j)) with (TreeMath.node (Z.of_nat (S k)) j) in H.
  apply bind_ok in H as (lh & Hl & H). apply bind_ok in H as (rh & Hr & H). apply bind_ok in H as (h & Hh & H).
  apply bind_ok in H as (hs1 & Hst & H). apply unwrap_ok in Hl, Hr.
  rewrite Nat2Z.inj_succ, <- Z.add_1_r, TreeMath.left_node in Hl by lia.
  rewrite Nat2Z.inj_succ, <- Z.add_1_r, TreeMath.right_node in Hr by lia.
  rewrite borrow_as_parent_at in Hh by (apply TreeMath.node_nonneg; lia).
  apply (store_at _ _ (S k)) in Hst as (Hlen & Hat & Hsame); [|lia].
  rewrite (TreeMath.parent_sibling_node d _ j Hd Hin) in H.
  assert (hash_queue fuel csp nodes filtered (2 ^ d) hs1 (at_node <$> after_head (S k) j P) = Ok hs') as H'.
  { unfold after_head. destruct (Z.of_nat (S k) =? d); [done|]. rewrite fmap_app. rewrite <- H. do 2 f_equal. unfold at_node. cbn [fmap list_fmap fst snd].
    do 2 f_equal. cbn [TreeMath.parent]. f_equal. lia. }
  clear H. apply IH in H' as (Hlen' & Hc' & Hs').
  2:{ unfold after_head. destruct (Z.eqb_spec (Z.of_nat (S k)) d) as [E|E]; [intros x Hx; apply HP; by right|].
      intros x [Hx| ->%list_elem_of_singleton]%elem_of_app; [apply HP; by right|]. cbn. split; [lia|].
      rewrite Nat2Z.inj_succ, <- Z.add_1_r. by apply TreeMath.in_tree_parent. }
  split_and!.
  - congruence.
  - intros k0 j0 Hin0 Hc. apply Hc'; [done|]. intros k' j' Hu. pose proof Hu as (Hk' & Hj' & _). destruct Hin0 as [Hk0 _].
    destruct (decide ((k', j') = (S k, j))) as [[= -> ->]|Hne].
    + assert (∀ x, x ∈ P → x ∈ after_head (S k) j P) as Hsub.
      { intros x Hx. unfold after_head. destruct (_ =? d); [done|]. apply elem_of_app. by left. }
      assert (∀ b, 0 ≤ b ≤ 1 → correct csp nodes filtered hs k (2 * j + b) ∨ covered (after_head (S k) j P) (S k) j) as Hch.
      { intros b Hb. destruct (Hc k (2 * j + b)) as [|[[Hle _]|Hcov]%covered_cons]; [by apply under_child|by left|cbn in Hle; lia|right].
        apply (covered_up _ _ _ b) in Hcov as (x & Hx & Hcov); [|done]. exists x. split; [by apply Hsub|done]. }
      destruct (Hch 0 ltac:(lia)) as [(lh' & Hlh & Hsl)|Hcov]; [|by right].
      destruct (Hch 1 ltac:(lia)) as [(rh' & Hrh & Hsr)|Hcov]; [|by right]. left. exists h. split; [done|].
      rewrite Z.add_0_r in Hlh, Hsl. rewrite Hl in Hlh. rewrite Hr in Hrh. injection Hlh as <-. injection Hrh as <-.
      cbn [subtree_hash]. rewrite Hsl, Hsr. exact Hh.
    + destruct (Hc k' j' Hu) as [Hcor|Hcov].
      * left. revert Hcor. apply correct_same. by apply Hsame.
      * right. by apply after_head_covers; [lia|lia|..].
  - intros k' j' Hin' Hn. destruct (decide ((k', j') = (S k, j))) as [[= -> ->]|Hne].
    { destruct Hn. exists (S k, j). split; [left|]. cbn [fst snd]. split; [done|]. by rewrite Nat.sub_diag, Z.div_1_r. }
    destruct Hin' as [? ?]. rewrite Hs'; [apply Hsame; [lia|done]|by split|]. intros Hcov. apply Hn.
    apply (after_head_covers (S k) j P k' j'); [lia|lia|done|done].
Qed.

(** The leaves of a subtree. *)
Definition leaves_under (k : nat) (j : Z) : list Z := seqZ (j * 2 ^ Z.of_nat k) ((j + 1) * 2 ^ Z.of_nat k - j * 2 ^ Z.of_nat k).

Lemma elem_of_leaves_under (k : nat) j l : l ∈ leaves_under k j ↔ l / 2 ^ Z.of_nat k = j.
Proof.
  unfold leaves_under. rewrite elem_of_seqZ. pose proof (pow2_pos (Z.of_nat k) ltac:(lia)).
  pose proof (Z.mod_pos_bound l (2 ^ Z.of_nat k) ltac:(lia)). pose proof (Z.div_mod l (2 ^ Z.of_nat k) ltac:(lia)). split.
  - intros Hl. symmetry. apply (Z.div_unique_pos _ _ _ (l - j * 2 ^ Z.of_nat k)); lia.
  - intros E. rewrite E in *. lia.
Qed.

(** [tree_hash] on all leaves of the node [j0] of level [k0]. *)
Lemma tree_hash_partial hs (k0 : nat) j0 hs' :
  TreeMath.in_tree d (Z.of_nat k0) j0 →
  tree_hash csp hs nodes (Some (leaves_under k0 j0)) filtered (2 ^ d) = Ok hs' →
  len hs' = 2 ^ (d + 1) - 1 ∧
  (∀ (k : nat) j, under k j k0 j0 → correct csp nodes filtered hs' k j) ∧
  (∀ (k : nat) j, TreeMath.in_tree d (Z.of_nat k) j → ¬ under k j k0 j0 → ¬ under k0 j0 k j →
    vec_get hs' (TreeMath.node (Z.of_nat k) j) = vec_get (vec_resize hs (2 ^ d * 2 - 1) []) (TreeMath.node (Z.of_nat k) j)).
Proof.
  intros Hin. pose proof (pow2_pos d ltac:(lia)). unfold tree_hash. change (default _ (Some ?l)) with l.
  assert (Forall (λ l, 0 ≤ l < 2 ^ d) (leaves_under k0 j0)) as HL.
  { apply Forall_forall. intros l Hl%elem_of_leaves_under. destruct (Z.lt_ge_cases l 0).
    - pose proof (Z.div_lt_upper_bound l (2 ^ Z.of_nat k0) 0 (pow2_pos (Z.of_nat k0) ltac:(lia)) ltac:(lia)). destruct Hin. lia.
    - destruct (under_in_tree O l k0 j0) as [_ Hb]; [split_and!; [lia|done|by rewrite Nat.sub_0_r]|done|]. by rewrite Z.sub_0_r in Hb. }
  assert (List.filter (λ l, l <? 2 ^ d) (leaves_under k0 j0) = leaves_under k0 j0) as ->.
  { clear -HL. induction HL as [|l L Hl _ IH]; [done|]. cbn. rewrite (proj2 (Z.ltb_lt _ _)) by lia. by rewrite IH. }
  set (hs0 := vec_resize hs (2 ^ d * 2 - 1) []).
  assert (len hs0 = 2 ^ (d + 1) - 1) as Hlen0 by (unfold hs0, vec_resize, len; rewrite length_resize, pow2_succ by lia; lia).
  intros ([hs1 q] & H1 & H2)%bind_ok. apply (leaves_partial _ hs0 []) in H1 as (Hlen1 & -> & Hc1 & Hs1); [|done].
  cbn [app] in H2. apply queue_partial in H2 as (Hlen2 & Hc2 & Hs2).
  2:{ intros x Hx. pose proof (at_parents d Hd _ HL) as (Hq & _). by apply Hq. }
  assert (∀ (k : nat) j l, under k j k0 j0 → 0 ≤ l → l / 2 ^ Z.of_nat k = j → l ∈ leaves_under k0 j0) as Hleaf.
  { intros k j l (Hk & Hj & E) Hl El. apply elem_of_leaves_under. rewrite <- E, <- El.
    rewrite Z.div_div by (try apply pow2_pos; lia). rewrite <- Z.pow_add_r by lia. do 2 f_equal. lia. }
  split_and!; [lia| |].
  - apply Hc2; [done|]. intros [|k] j Hu.
    + left. apply Hc1. left. apply (Hleaf O j); [done|by destruct Hu as (_ & ? & _)|by rewrite Z.div_1_r].
    + right. pose proof Hu as (Hk & Hj & _). set (l := j * 2 ^ Z.of_nat (S k)). pose proof (pow2_pos (Z.of_nat (S k)) ltac:(lia)).
      assert (l / 2 ^ Z.of_nat (S k) = j) as El by (apply Z.div_mul; lia).
      exists (1%nat, l / 2). cbn [fst snd]. split_and!; [|lia|].
      * unfold TreeHash.parents_of. destruct Hin as [Hk0 _]. destruct (Z.eqb_spec d 0); [lia|]. apply list_elem_of_fmap. exists l.
        split; [done|]. apply (Hleaf (S k) j); [done|lia|done].
      * rewrite Z.div_div by (try apply pow2_pos; lia). rewrite <- Z.pow_succ_r by lia. rewrite <- El. do 2 f_equal. lia.
  - intros k j Hin' Hn1 Hn2. assert (∀ l, l ∈ leaves_under k0 j0 → l / 2 ^ Z.of_nat k ≠ j) as Hno.
    { intros l Hl%elem_of_leaves_under E. destruct Hin as [Hk0 Hj0], Hin' as [Hk Hj]. destruct (decide (k ≤ k0)%nat).
      - apply Hn1. split_and!; [done|lia|]. rewrite <- E, <- Hl. rewrite Z.div_div by (try apply pow2_pos; lia).
        rewrite <- Z.pow_add_r by lia. do 2 f_equal. lia.
      - apply Hn2. split_and!; [lia|lia|]. rewrite <- E, <- Hl. rewrite Z.div_div by (try apply pow2_pos; lia).
        rewrite <- Z.pow_add_r by lia. do 2 f_equal. lia. }
    rewrite Hs2; [apply Hs1; [destruct Hin'; lia|]|done|].
    + intros [-> Hj]. apply (Hno j Hj). by rewrite Z.div_1_r.
    + intros (x & Hx & Hk & E). unfold TreeHash.parents_of in Hx. destruct (d =? 0); [by apply elem_of_nil in Hx|].
      apply list_elem_of_fmap in Hx as (l & -> & Hl). cbn [fst snd] in *. apply (Hno l Hl). rewrite <- E.
      rewrite Z.div_div by (try apply pow2_pos; lia). rewrite <- Z.pow_succ_r by lia. do 2 f_equal. lia.
Qed.
End partial.

(** ** The original hashes *)
Section original.
Context (csp : CipherSuiteProvider) (t : TreeKemPublic).
Hypothesis Hf : fits (nodes t).
Notation d := (depth (nodes t)).
Notation root := (Z.to_nat d, 0).
Notation up k j := (S k, j / 2).

Lemma depth_range : 0 ≤ d ≤ 31.
Proof. apply (depth_spec _ Hf). Qed.
Lemma leaf_count : total_leaf_count (nodes t) = 2 ^ d.
Proof. apply (depth_spec _ Hf). Qed.

Lemma under_trans (k : nat) j (k1 : nat) j1 (k2 : nat) j2 : under k j k1 j1 → under k1 j1 k2 j2 → under k j k2 j2.
Proof.
  intros (Hk & Hj & E) (Hk1 & _ & E1). split_and!; [lia|done|]. rewrite <- E1, <- E. rewrite Z.div_div by (try apply pow2_pos; lia).
  rewrite <- Z.pow_add_r by lia. do 2 f_equal. lia.
Qed.

(** The nodes that the pass has seen, up to the node [e] of level [c]. *)
Definition seen (c : nat) (e : Z) (k : nat) (j : Z) : Prop :=
  TreeMath.in_tree d (Z.of_nat k) j ∧ ((c < k)%nat ∨ k = c ∧ j < e).

(** The hashes kept for the node [a], of the subtree of the node [j] of level [k], are
    without the leaves unmerged at [a]. *)
Definition kept_for (hashes : list (list bytes)) (a : nat * Z) (k : nat) (j : Z) : Prop :=
  ∃ p hs, node_at (nodes t) (at_node a) = Some (ParentNode p) ∧ vec_get hashes (at_node a) = Some hs ∧ len hs = 2 ^ (d + 1) - 1 ∧
    ∀ (k' : nat) j', under k' j' k j → correct csp (nodes t) (unmerged_leaves p) hs k' j'.

(** What the pass knows of a node: the last ancestor [a] of its set is the one whose
    unmerged leaves are those to leave out. *)
Definition origin (hashes : list (list bytes)) (k : nat) (j : Z) (a : nat * Z) : Prop :=
  TreeMath.in_tree d (Z.of_nat a.1) a.2 ∧ under k j a.1 a.2 ∧
  (Z.of_nat k ≠ d → (k < a.1)%nat ∧ (a = up k j ∨ different_unmerged t (at_node a) (at_node (up k j)) = Ok false)) ∧
  (a = root ∨ kept_for hashes a k j).

Definition pass_inv (s : list (list Z) * list (list bytes)) (c : nat) (e : Z) : Prop :=
  ∀ (k : nat) j, seen c e k j → ∃ fp a, vec_get s.1 (TreeMath.node (Z.of_nat k) j) = Some fp ∧ last fp = Some (at_node a) ∧ origin s.2 k j a.

Lemma root_node : TreeMath.root (2 ^ d) = at_node root.
Proof. pose proof depth_range. rewrite TreeMath.root_pow by done. unfold at_node. cbn. by rewrite Z2Nat.id by lia. Qed.

Lemma blank_node (x : Z) b : 0 ≤ x → is_blank (nodes t) x = Ok b → b = bool_decide (node_at (nodes t) x = None).
Proof.
  intros Hx. unfold is_blank. intros (n & Hn & [= <-])%bind_ok. pose proof (borrow_node_ok (nodes t) x Hx) as H. rewrite Hn in H. cbn in H. by subst.
Qed.

Lemma parent_node (x : Z) p : 0 ≤ x → borrow_as_parent (nodes t) x = Ok p → node_at (nodes t) x = Some (ParentNode p).
Proof.
  intros Hx H. pose proof (borrow_as_parent_at (nodes t) x Hx) as E. rewrite H in E. unfold parent_at in E. cbn in E.
  by destruct (node_at _ _) as [[]|]; simplify_eq.
Qed.

Lemma at_node_inj (a b : nat * Z) : 0 ≤ a.2 → 0 ≤ b.2 → at_node a = at_node b → a = b.
Proof.
  intros Ha Hb E. unfold at_node in E. apply TreeMath.node_inj in E as [E1 E2]; [|lia..]. destruct a, b. cbn in *. f_equal; lia.
Qed.

(** [hashes[x] = hs]. *)
Lemma stored (hashes hashes' : list (list bytes)) x hs :
  vec_store (E:=MlsError) hashes x hs = Ok hashes' → vec_get hashes' x = Some hs ∧ ∀ y, y ≠ x → vec_get hashes' y = vec_get hashes y.
Proof.
  unfold vec_store. destruct (_ && _) eqn:E; [|done]. apply andb_true_iff in E as [E1%Z.leb_le E2%Z.ltb_lt].
  intros [= <-]. split; [by apply vec_get_set_eq|]. intros y Hy. by apply vec_get_set_ne.
Qed.
Lemma stored_set (sets sets' : list (list Z)) x fp :
  vec_store (E:=MlsError) sets x fp = Ok sets' → vec_get sets' x = Some fp ∧ ∀ y, y ≠ x → vec_get sets' y = vec_get sets y.
Proof.
  unfold vec_store. destruct (_ && _) eqn:E; [|done]. apply andb_true_iff in E as [E1%Z.leb_le E2%Z.ltb_lt].
  intros [= <-]. split; [by apply vec_get_set_eq|]. intros y Hy. by apply vec_get_set_ne.
Qed.

(** The hashes kept for [p] when those of another child of it are added. *)
Lemma kept_sibling hashes hashes' (k : nat) j hs j1 p :
  TreeMath.in_tree d (Z.of_nat k) j → TreeMath.in_tree d (Z.of_nat k) j1 → j1 ≠ j →
  node_at (nodes t) (at_node (up k j)) = Some (ParentNode p) →
  kept_for hashes (up k j) k j1 → vec_get hashes (at_node (up k j)) = Some hs →
  (∀ hs', tree_hash csp hs (nodes t) (Some (leaves_under k j)) (unmerged_leaves p) (2 ^ d) = Ok hs' →
    vec_get hashes' (at_node (up k j)) = Some hs' → kept_for hashes' (up k j) k j1).
Proof.
  intros Hin Hin1 Hne Hp (p' & hs0 & Hp' & Hg & Hl & Hc) Hg' hs' Ht Hs. rewrite Hp in Hp'. injection Hp' as <-. rewrite Hg in Hg'. injection Hg' as ->.
  apply tree_hash_partial in Ht as (Hl' & _ & Hsame); [|exact depth_range|done]. exists p, hs'. split_and!; [done|done|done|].
  intros k' j' Hu. eapply correct_same; [|by apply Hc]. rewrite Hsame.
  - f_equal. unfold vec_resize. pose proof depth_range. rewrite pow2_succ in Hl by lia. rewrite resize_all_alt; [done|]. unfold len in Hl. lia.
  - by eapply under_in_tree; [exact depth_range|exact Hu|].
  - intros (Hk & Hj & E). destruct Hu as (_ & _ & E'). congruence.
  - intros Hu'. pose proof (under_trans _ _ _ _ _ _ Hu' Hu) as (_ & _ & E). rewrite Nat.sub_diag, Z.div_1_r in E. congruence.
Qed.

Lemma kept_same hashes hashes' a (k : nat) j :
  vec_get hashes' (at_node a) = vec_get hashes (at_node a) → kept_for hashes a k j → kept_for hashes' a k j.
Proof. intros E (p & hs & Hp & Hg & Hc). exists p, hs. by rewrite E. Qed.

Lemma kept_under hashes a (k : nat) j (k' : nat) j' : under k' j' k j → kept_for hashes a k j → kept_for hashes a k' j'.
Proof.
  intros Hu (p & hs & Hp & Hg & Hl & Hc). exists p, hs. split_and!; try done. intros k1 j1 Hu1. apply Hc. by eapply under_trans.
Qed.

Lemma seen_next (c : nat) j (k1 : nat) j1 : seen c (j + 1) k1 j1 → (k1, j1) = (c, j) ∨ seen c j k1 j1 ∧ (k1, j1) ≠ (c, j).
Proof.
  intros [Hin [Hk|[-> Hj]]]; [right; split; [by split; [|left]|intros [= -> ->]; lia]|].
  destruct (decide (j1 = j)) as [->|Hne]; [by left|right]. split; [split; [done|right; split; [done|lia]]|congruence].
Qed.

Lemma step_inv fs hs fs' hs' (c : nat) j :
  TreeMath.in_tree d (Z.of_nat c) j → Z.of_nat c ≠ d → pass_inv (fs, hs) c j →
  original_step csp t (2 ^ d) (fs, hs) (TreeMath.node (Z.of_nat c) j) (at_node (up c j)) = Ok (fs', hs') →
  pass_inv (fs', hs') c (j + 1).
Proof.
  intros Hin Hc Hinv H. pose proof depth_range as Hd. assert (TreeMath.in_tree d (Z.of_nat (S c)) (j / 2)) as Hup.
  { rewrite Nat2Z.inj_succ, <- Z.add_1_r. by apply TreeMath.in_tree_parent. }
  pose proof Hin as [Hc0 Hj]. pose proof Hup as [Hc1 Hj1].
  assert (under c j (S c) (j / 2)) as Hunder.
  { split_and!; [lia|lia|]. by replace (S c - c)%nat with 1%nat by lia. }
  destruct (Hinv (S c) (j / 2)) as (fp & a & Hfp & Hlast & Hao); [split; [done|left; lia]|]. cbn [fst snd] in Hfp, Hao.
  pose proof Hao as (Hain & Hau & _ & Hah). pose proof Hain as [_ Ha2].
  unfold original_step in H. apply bind_ok in H as (fp' & Hfp' & H). apply unwrap_ok in Hfp'. unfold at_node in Hfp'. cbn [fst snd] in Hfp'.
  rewrite Hfp in Hfp'. injection Hfp' as <-. apply bind_ok in H as (fs1 & Hst & H). apply stored_set in Hst as [Hg1 Hs1].
  apply bind_ok in H as (x & Hx & H). rewrite Hlast in Hx. injection Hx as <-. apply bind_ok in H as (b & Hdiff & H).
  assert (under c j a.1 a.2) as Hu by (by eapply under_trans).
  assert ((c < a.1)%nat) as Hlt by (destruct Hau; lia).
  assert (∀ (k1 : nat) j1, 0 ≤ j1 → (k1, j1) ≠ (c, j) → TreeMath.node (Z.of_nat k1) j1 ≠ TreeMath.node (Z.of_nat c) j) as Hnn.
  { intros k1 j1 Hj' Hne E. apply Hne. by apply (at_node_inj (k1, j1) (c, j)); cbn; [lia|lia|]. }
  destruct b.
  - apply bind_ok in H as (fs2 & Hst2 & H). apply stored_set in Hst2 as [Hg2 Hs2].
    rewrite (TreeMath.subtree_node d) in H by done. fold (leaves_under c j) in H.
    apply bind_ok in H as (hp & Hhp & H). apply unwrap_ok in Hhp. apply bind_ok in H as (p & Hp & H).
    apply parent_node in Hp; [|apply TreeMath.node_nonneg; cbn [fst snd]; lia]. apply bind_ok in H as (hp' & Ht & H).
    apply bind_ok in H as (hs1 & Hst3 & [= <- <-]). apply stored in Hst3 as [Hg3 Hs3].
    intros k1 j1 [[= -> ->]|[Hseen Hne]]%seen_next.
    + exists (fp ++ [at_node (up c j)]), (up c j). split_and!; [done|by rewrite last_snoc|]. split_and!; [done|done|intros _; split; [cbn; lia|by left]|].
      right. pose proof Ht as (Hl' & Hcor & _)%tree_hash_partial; [|done..]. by exists p, hp'.
    + destruct (Hinv k1 j1 Hseen) as (fp1 & a1 & Hf1 & Hl1 & Ho1). exists fp1, a1. pose proof Hseen as [[Hk1 Hj1'] Hlev]. split_and!; [|done|].
      { cbn [fst]. rewrite Hs2, Hs1 by (apply Hnn; [lia|done]). exact Hf1. }
      destruct Ho1 as (Ho1 & Ho2 & Ho3 & Ho4). split_and!; try done. destruct Ho4 as [->|Hk]; [by left|].
      destruct (decide (a1 = up c j)) as [->|Hane].
      * destruct (decide (Z.of_nat k1 = d)) as [E|E]; [left|].
        { pose proof Ho2 as (Hle & _ & E2). cbn [fst snd] in *. assert (S c = Z.to_nat d) as Ec by lia. rewrite Ec. f_equal.
          rewrite Ec in Hj1. rewrite Z2Nat.id, Z.sub_diag in Hj1 by lia. lia. }
        destruct (Ho3 E) as [Hlt1 _]. cbn [fst] in Hlt1. assert (k1 = c) as -> by (destruct Hlev as [?|[-> ?]]; lia).
        right. eapply (kept_sibling hs hs1 c j hp j1 p); try done; congruence.
      * right. revert Hk. apply kept_same. apply Hs3. intros E. apply Hane. apply at_node_inj in E; [done|by destruct Ho1; lia|cbn; lia].
  - injection H as <- <-. intros k1 j1 [[= -> ->]|[Hseen Hne]]%seen_next.
    + exists fp, a. split_and!; [done|done|]. split_and!; [done|done|intros _; split; [done|by right]|].
      destruct Hah as [->|Hk]; [by left|right]. eapply kept_under; [exact Hunder|exact Hk].
    + destruct (Hinv k1 j1 Hseen) as (fp1 & a1 & Hf1 & Hl1 & Ho1). exists fp1, a1. split_and!; [|done|done].
      cbn [fst]. rewrite Hs1; [exact Hf1|]. apply Hnn; [destruct Hseen as [[_ ?] _]; lia|done].
Qed.

(** A level, and the levels below. *)
Lemma level_inv (c : nat) n : ∀ s (e : nat) rest s',
  Z.of_nat c < d → Z.of_nat (e + n) = 2 ^ (d - Z.of_nat c) → pass_inv s c (Z.of_nat e) →
  original_loop csp t (2 ^ d) s (((λ j : nat, TreeMath.node (Z.of_nat c) (Z.of_nat j)) <$> seq e n) ++ rest) = Ok s' →
  ∃ s1, pass_inv s1 c (2 ^ (d - Z.of_nat c)) ∧ original_loop csp t (2 ^ d) s1 rest = Ok s'.
Proof.
  pose proof depth_range as Hd. induction n as [|n IH]; intros s e rest s' Hc Hn Hinv H.
  - exists s. split; [|done]. rewrite <- Hn. by rewrite Nat.add_0_r.
  - cbn [seq fmap list_fmap app original_loop] in H.
    assert (TreeMath.in_tree d (Z.of_nat c) (Z.of_nat e)) as Hin by (split; lia).
    rewrite (TreeMath.parent_sibling_node d) in H by done. rewrite (proj2 (Z.eqb_neq _ _)) in H by lia.
    apply bind_ok in H as ([fs' hs'] & Hs & H). destruct s as [fs hs]. cbn [TreeMath.parent] in Hs.
    apply (IH (fs', hs') (S e)) in H; [exact H|done|lia|].
    replace (Z.of_nat (S e)) with (Z.of_nat e + 1) by lia. apply (step_inv fs hs fs' hs'); [done|lia|done|].
    unfold at_node. cbn [fst snd]. rewrite Nat2Z.inj_succ, <- Z.add_1_r. exact Hs.
Qed.

Lemma next_level s (c : nat) : Z.of_nat (S c) ≤ d → pass_inv s (S c) (2 ^ (d - Z.of_nat (S c))) → pass_inv s c 0.
Proof.
  intros Hc H k j [Hin [Hk|[-> Hj]]]; [|destruct Hin; lia]. apply H. split; [done|].
  destruct (decide (k = S c)) as [->|]; [right; split; [done|destruct Hin; lia]|left; lia].
Qed.

Lemma levels_inv (c : nat) : ∀ s (e : nat) s',
  Z.of_nat c < d → Z.of_nat e = 2 ^ (d - Z.of_nat c) → pass_inv s c 0 →
  original_loop csp t (2 ^ d) s (TreeMath.bfs_spec c e) = Ok s' → pass_inv s' 0 (2 ^ d).
Proof.
  induction c as [|c IH]; intros s e s' Hc He Hinv H; cbn [TreeMath.bfs_spec] in H; unfold TreeMath.bfs_level in H.
  - apply (level_inv O e s 0 []) in H as (s1 & H1 & [= <-]); [|done|done|done]. by rewrite Z.sub_0_r in H1.
  - apply (level_inv (S c) e s 0) in H as (s1 & H1 & H); [|done|done|done].
    apply (IH s1 (2 * e)%nat s'); [lia| |apply next_level; [lia|done]|done].
    rewrite Nat2Z.inj_mul, He. change (Z.of_nat 2) with 2. rewrite <- pow2_succ by lia. f_equal. lia.
Qed.

Lemma length_bfs (k e : nat) : Z.of_nat (length (TreeMath.bfs_spec k e)) = Z.of_nat e * (2 ^ (Z.of_nat k + 1) - 1).
Proof.
  revert e. induction k as [|k IH]; intros e; cbn [TreeMath.bfs_spec]; rewrite length_app; unfold TreeMath.bfs_level; rewrite length_fmap, length_seq.
  - cbn. lia.
  - rewrite Nat2Z.inj_add, IH, Nat2Z.inj_mul. change (Z.of_nat 2) with 2. rewrite Nat2Z.inj_succ, <- Z.add_1_r, (pow2_succ (Z.of_nat k + 1)) by lia. lia.
Qed.

(** What is left out in the hash of a subtree, as far as it is below the subtree. *)
Definition unmerged_placed (ns : NodeVec) : Prop :=
  ∀ (k : nat) j p, 0 ≤ j → node_at ns (TreeMath.node (Z.of_nat (S k)) j) = Some (ParentNode p) →
    StronglySorted Z.lt (unmerged_leaves p) ∧ ∀ l, l ∈ unmerged_leaves p → l / 2 ^ Z.of_nat (S k) = j.

Lemma subtree_hash_filter (ns : NodeVec) f f' (k : nat) j :
  unmerged_placed ns → 0 ≤ j → (∀ l, l / 2 ^ Z.of_nat k = j → l ∈ f ↔ l ∈ f') →
  subtree_hash csp ns f k j = subtree_hash csp ns f' k j.
Proof.
  intros Hp. revert j. induction k as [|k IH]; intros j Hj H; cbn [subtree_hash].
  - rewrite (bool_decide_ext (j ∈ f) (j ∈ f')); [done|]. apply H. by rewrite Z.div_1_r.
  - assert (∀ b, 0 ≤ b ≤ 1 → subtree_hash csp ns f k (2 * j + b) = subtree_hash csp ns f' k (2 * j + b)) as Hb.
    { intros b Hb. apply IH; [lia|]. intros l Hl. apply H. rewrite Nat2Z.inj_succ, <- Z.add_1_r, Z.pow_add_r, <- Z.div_div by (try apply pow2_pos; lia).
      rewrite Hl. change (2 ^ 1) with 2. Z.div_mod_to_equations. lia. }
    pose proof (Hb 0 ltac:(lia)) as H0. rewrite Z.add_0_r in H0. rewrite H0, (Hb 1) by lia.
    destruct (subtree_hash csp ns f' k (2 * j)); cbn; try done. destruct (subtree_hash csp ns f' k (2 * j + 1)); cbn; try done.
    unfold hash_for_parent, parent_at. destruct (node_at ns _) as [[l|p]|] eqn:E; try done. cbn [fmap option_fmap option_map].
    enough (retain_unmerged f p = retain_unmerged f' p) as -> by done. unfold retain_unmerged. f_equal.
    apply List.filter_ext_in. intros l Hl%list_elem_of_In. do 2 f_equal. apply bool_decide_ext, H. by apply (Hp k j p Hj E).
Qed.

(** The slice of a sorted list. *)
Lemma below_sorted hi (l : list Z) x : StronglySorted Z.lt l → x ∈ take_below hi l ↔ x ∈ l ∧ x < hi.
Proof.
  induction 1 as [|a l Hs IH Hall]; cbn [take_below]; [set_solver|]. rewrite Forall_forall in Hall.
  destruct (Z.ltb_spec a hi); rewrite ?elem_of_cons, ?IH.
  - naive_solver lia.
  - split; [intros Hx; by apply elem_of_nil in Hx|]. intros [[->|Hx] Hlt]; [lia|]. specialize (Hall x Hx). lia.
Qed.
Lemma above_sorted lo (l : list Z) x : StronglySorted Z.lt l → StronglySorted Z.lt (drop_below lo l) ∧ (x ∈ drop_below lo l ↔ x ∈ l ∧ lo ≤ x).
Proof.
  induction 1 as [|a l Hs IH Hall]; cbn [drop_below]; [split; [constructor|set_solver]|]. rewrite Forall_forall in Hall.
  destruct (Z.ltb_spec a lo).
  - split; [apply IH|]. rewrite (proj2 IH), elem_of_cons. naive_solver lia.
  - split; [constructor; [done|by apply Forall_forall]|]. rewrite elem_of_cons. split; [|naive_solver].
    intros [->|Hx]; split; auto. specialize (Hall x Hx). lia.
Qed.

Lemma slice_spec (x : Z) (k : nat) j u :
  TreeMath.in_tree d (Z.of_nat k) j → 0 ≤ x → unmerged_in_subtree t x (TreeMath.node (Z.of_nat k) j) = Ok u →
  ∃ p, node_at (nodes t) x = Some (ParentNode p) ∧
    (StronglySorted Z.lt (unmerged_leaves p) → ∀ l, l ∈ u ↔ l ∈ unmerged_leaves p ∧ l / 2 ^ Z.of_nat k = j).
Proof.
  intros Hin Hx. unfold unmerged_in_subtree. intros (p & Hp%parent_node & H)%bind_ok; [|done].
  rewrite (TreeMath.subtree_node d) in H by (done || apply depth_range). injection H as <-. exists p. split; [done|].
  intros Hs l. destruct (above_sorted (j * 2 ^ Z.of_nat k) _ l Hs) as [Hs' Hl]. rewrite below_sorted, Hl by done.
  rewrite <- (elem_of_leaves_under k j l). unfold leaves_under. rewrite elem_of_seqZ. naive_solver lia.
Qed.

Lemma tree_hash_all f : tree_hash csp [] (nodes t) None f (2 ^ d) = tree_hash csp [] (nodes t) (Some (leaves_under (Z.to_nat d) 0)) f (2 ^ d).
Proof.
  unfold tree_hash. cbn [default]. enough (Z.of_nat <$> seq 0 (Z.to_nat (2 ^ d)) = leaves_under (Z.to_nat d) 0) as -> by done.
  unfold leaves_under, seqZ. pose proof depth_range. rewrite Z2Nat.id by lia. replace ((0 + 1) * 2 ^ d - 0 * 2 ^ d) with (2 ^ d) by lia.
  apply list_fmap_ext. intros i x _. lia.
Qed.

(** What the pass knows at its end, of every node. *)
Lemma pass_complete fs0 fs hs (size : nat) :
  Z.of_nat size = 2 ^ (d + 1) - 1 → 0 < d → vec_get fs0 (at_node root) = Some [at_node root] →
  original_loop csp t (2 ^ d) (fs0, replicate size [])
    (drop 1 (TreeMath.bfs_collect (S size) (TreeMath.bfs_new (2 ^ d)))) = Ok (fs, hs) →
  pass_inv (fs, hs) 0 (2 ^ d).
Proof.
  intros Hsize H0 Hg0 Hloop. pose proof depth_range as Hd.
  assert (TreeMath.bfs_collect (S size) (TreeMath.bfs_new (2 ^ d)) = TreeMath.bfs_spec (Z.to_nat d) 1) as Hbfs.
  { rewrite <- (Z2Nat.id d) at 1 by lia. apply TreeMath.bfs_correct; [lia|]. pose proof (length_bfs (Z.to_nat d) 1) as Hl.
    rewrite Z2Nat.id in Hl by lia. lia. }
  rewrite Hbfs in Hloop. assert (Z.to_nat d = S (Z.to_nat (d - 1))) as Ed by lia.
  assert (drop 1 (TreeMath.bfs_spec (Z.to_nat d) 1) = TreeMath.bfs_spec (Z.to_nat (d - 1)) 2) as Hdrop by (rewrite Ed; done).
  rewrite Hdrop in Hloop.
  apply (levels_inv (Z.to_nat (d - 1)) _ 2 _) in Hloop; [exact Hloop|lia|rewrite Z2Nat.id by lia; by replace (d - (d - 1)) with 1 by lia|].
  intros k1 j1 [[Hk1 Hj1] Hlev]. assert (Z.of_nat k1 = d) as Ek by lia. rewrite Ek, Z.sub_diag in Hj1.
  assert (k1 = Z.to_nat d ∧ j1 = 0) as [-> ->] by lia. exists [at_node root], root. cbn [fst snd].
  split_and!; [exact Hg0|done|split_and!; cbn [fst snd]].
  - split; [lia|]. rewrite Z2Nat.id, Z.sub_diag by lia. lia.
  - by apply under_refl.
  - intros Hne. lia.
  - by left.
Qed.

(** Below a node whose parent is filled, what is unmerged at the ancestor the pass has
    found is what is unmerged at the parent. *)
Lemma origin_unmerged hashes (k : nat) j a p q :
  unmerged_placed (nodes t) → TreeMath.in_tree d (Z.of_nat k) j → Z.of_nat k < d → origin hashes k j a →
  node_at (nodes t) (at_node (up k j)) = Some (ParentNode p) → node_at (nodes t) (at_node a) = Some (ParentNode q) →
  subtree_hash csp (nodes t) (unmerged_leaves q) k j = subtree_hash csp (nodes t) (unmerged_leaves p) k j.
Proof.
  intros Hpl Hin Hk ([_ Ha2] & _ & Hsrc & _) Hp Hq. pose proof Hin as [_ Hj]. destruct (Hsrc ltac:(lia)) as [Hlt Horig].
  assert (0 ≤ at_node (up k j)) as Hx by (apply TreeMath.node_nonneg; cbn [fst snd]; [lia|apply Z.div_pos; lia]).
  assert (0 ≤ at_node a) as Hxa by (apply TreeMath.node_nonneg; lia).
  destruct Horig as [->|Hdiff]; [rewrite Hp in Hq; by injection Hq as ->|].
  unfold different_unmerged in Hdiff. apply bind_ok in Hdiff as (b1 & H1 & Hdiff). apply blank_node in H1; [|done].
  rewrite Hq in H1. subst b1. cbn in Hdiff. apply bind_ok in Hdiff as (b2 & H2 & Hdiff). apply blank_node in H2; [|done].
  rewrite Hp in H2. subst b2. cbn in Hdiff. apply bind_ok in Hdiff as (u & Hu' & Hdiff).
  apply bind_ok in Hdiff as (p' & Hp'%parent_node & Hdiff); [|done]. rewrite Hp in Hp'. injection Hp' as <-.
  injection Hdiff as Hdiff. apply negb_false_iff, bool_decide_eq_true in Hdiff. subst u.
  apply (slice_spec _ (S k) (j / 2)) in Hu' as (q' & Hq' & Hsl);
    [|rewrite Nat2Z.inj_succ, <- Z.add_1_r; apply TreeMath.in_tree_parent; [done|lia]|done].
  rewrite Hq in Hq'. injection Hq' as <-.
  assert (StronglySorted Z.lt (unmerged_leaves q)) as Hs.
  { destruct a as [[|ka] ja]; cbn [fst snd] in *; [lia|]. by apply (Hpl ka ja q); [lia|]. }
  apply subtree_hash_filter; [done|lia|]. intros l Hl. rewrite (Hsl Hs). split; [|by intros []]. intros Hq'. split; [done|].
  rewrite Nat2Z.inj_succ, <- Z.add_1_r, Z.pow_add_r, <- Z.div_div by (try apply pow2_pos; lia). by rewrite Hl.
Qed.

(** The hash of the subtree of a node whose parent is filled, without the leaves that
    are unmerged at the parent. *)
Lemma original_hash_spec oh (k : nat) j p :
  hashes_ok csp (nodes t) (tree_hashes t) → unmerged_placed (nodes t) →
  is_blank (nodes t) (TreeMath.root (total_leaf_count (nodes t))) = Ok false →
  compute_original_hashes csp t = Ok oh → TreeMath.in_tree d (Z.of_nat k) j → Z.of_nat k < d →
  node_at (nodes t) (at_node (up k j)) = Some (ParentNode p) →
  ∃ h, vec_get oh (TreeMath.node (Z.of_nat k) j) = Some h ∧ subtree_hash csp (nodes t) (unmerged_leaves p) k j = Ok h.
Proof.
  intros Hho Hpl Hroot H Hin Hk Hp. pose proof depth_range as Hd. pose proof Hin as [_ Hj].
  unfold compute_original_hashes in H. rewrite leaf_count, root_node in *. cbv zeta in H.
  set (size := Z.to_nat (2 ^ d * 2 - 1)) in H. assert (Z.of_nat size = 2 ^ (d + 1) - 1) as Hsize.
  { unfold size. pose proof (pow2_pos d ltac:(lia)). rewrite pow2_succ by lia. lia. }
  apply bind_ok in H as (fs0 & H0 & H). apply stored_set in H0 as [Hg0 _].
  apply bind_ok in H as ([fs hs] & Hloop & H). apply bind_ok in H as (b & Hb & H). rewrite Hroot in Hb. injection Hb as <-.
  apply bind_ok in H as (ro & Hro & H). apply pass_complete in Hloop as Hinv; [clear Hloop|done|lia|done].
  pose proof (TreeMath.node_bound d _ _ Hd Hin) as Hb. apply mapM_res_ok in H.
  destruct (lookup_lt_is_Some_2 (seq 0 size) (Z.to_nat (TreeMath.node (Z.of_nat k) j))) as [i Hi]; [rewrite length_seq; lia|].
  destruct (Forall2_lookup_l _ _ _ _ _ H Hi) as (h & Hh & Hv). apply lookup_seq in Hi as [-> _]. cbn [Nat.add] in Hv. rewrite Z2Nat.id in Hv by lia.
  exists h. split; [unfold vec_get; by rewrite (proj2 (Z.ltb_ge _ _)) by lia|].
  assert (seen 0 (2 ^ d) k j) as Hseen.
  { split; [done|]. destruct k; [right; split; [done|]|left; lia]. rewrite Z.sub_0_r in Hj. lia. }
  destruct (Hinv k j Hseen) as (fp & a & Hfp & Hlast & Horig). cbn [fst snd] in *. pose proof Horig as ([_ Ha2] & Hu & _ & Hkept).
  pose proof (λ q, origin_unmerged hs k j a p q Hpl Hin Hk Horig Hp) as Hsame.
  apply bind_ok in Hv as (fp' & Hfp' & Hv). apply unwrap_ok in Hfp'. rewrite Hfp in Hfp'. injection Hfp' as <-.
  apply bind_ok in Hv as (x & Hx & Hv). rewrite Hlast in Hx. injection Hx as <-. apply bind_ok in Hv as (b & Hbl & Hv).
  destruct (decide (a = root)) as [->|Hane].
  - rewrite Z.eqb_refl, orb_true_r in Hv.
    assert (Z.even (at_node root) = false) as Hodd by (unfold at_node; cbn [fst snd]; rewrite even_node by lia; apply Z.eqb_neq; lia).
    rewrite Hodd in Hro. cbn [negb andb] in Hro. apply bind_ok in Hro as (q & Hq%parent_node & Hro); [|apply TreeMath.node_nonneg; cbn [fst snd]; lia].
    rewrite <- (Hsame q Hq). case_bool_decide as Hq0.
    + injection Hro as <-. apply unwrap_ok in Hv. rewrite Hq0. destruct Hho as [Hho|[_ Hho]]; [rewrite Hho in Hv; apply vec_get_Some in Hv; unfold len in Hv; cbn in Hv; lia|].
      destruct (Hho k j Hin) as (h' & Hg & Hs). rewrite Hv in Hg. by injection Hg as <-.
    + apply bind_ok in Hro as (hr & Ht & [= <-]). apply unwrap_ok in Hv. rewrite tree_hash_all in Ht.
      apply tree_hash_partial in Ht as (_ & Hc & _); [|done|split; cbn; rewrite ?Z2Nat.id, ?Z.sub_diag by lia; lia].
      destruct (Hc k j Hu) as (h' & Hg & Hs). rewrite Hv in Hg. by injection Hg as <-.
  - destruct Hkept as [->|(q & hq & Hq & Hhq & _ & Hc)]; [done|]. apply blank_node in Hbl; [|apply TreeMath.node_nonneg; lia].
    rewrite Hq in Hbl. subst b. rewrite (proj2 (Z.eqb_neq _ _)) in Hv.
    2:{ intros E. apply Hane. apply at_node_inj in E; [done|lia|cbn; lia]. }
    cbn [orb] in Hv. apply bind_ok in Hv as (ha & Hha & Hv). apply unwrap_ok in Hha, Hv. rewrite Hhq in Hha. injection Hha as <-.
    destruct (Hc k j) as (h' & Hg & Hs); [by apply under_refl; lia|]. rewrite <- (Hsame q Hq). rewrite Hg in Hv. injection Hv as ->. done.
Qed.

(** ** The links *)

(** The link between a filled parent [p] and a node [n] below it that RFC 9420, section
    7.9.2, asks for.  With [c] the child of [p] on the side of [n] and [s] the other
    child: the parent hash of [n] is the hash of [p]'s key, [p]'s own parent hash and
    the original tree hash of [s] (that of its subtree without the leaves unmerged at
    [p]); [n] is in the resolution of [c]; and the rest of that resolution is what is
    unmerged at [p] below [c]. *)
Definition linked (p n : Z) : Prop :=
  ∃ (k : nat) (c s : Z) parent node h,
    0 ≤ c ∧ 0 ≤ s ∧ c ≠ s ∧ c / 2 = s / 2 ∧ p = TreeMath.node (Z.of_nat (S k)) (c / 2) ∧
    node_at (nodes t) p = Some (ParentNode parent) ∧ node_at (nodes t) n = Some node ∧
    subtree_hash csp (nodes t) (unmerged_leaves parent) k s = Ok h ∧
    (∃ hash, new csp (parent_public_key parent) (parent_parent_hash parent) h = Ok hash ∧ get_parent_hash node = Some hash) ∧
    n ∈ resolution (nodes t) k c ∧
    ∀ x, x ∈ resolution (nodes t) k c ∧ x ≠ n ↔ ∃ l, x = 2 * l ∧ l ∈ unmerged_leaves parent ∧ l / 2 ^ Z.of_nat k = c.

(** The first filled ancestor of the node [j] of level [k]. *)
Lemma filled_ancestor fuel : ∀ (k : nat) j ps ps',
  TreeMath.in_tree d (Z.of_nat k) j → TreeMath.parent_sibling (TreeMath.node (Z.of_nat k) j) (2 ^ d) = Some ps →
  non_blank_ancestor fuel t (2 ^ d) ps = Ok (Some ps') →
  ∃ (m : nat) c, under k j m c ∧ TreeMath.in_tree d (Z.of_nat m) c ∧ Z.of_nat m < d ∧
    TreeMath.parent ps' = at_node (up m c) ∧ TreeMath.sibling ps' = TreeMath.node (Z.of_nat m) (TreeMath.sib c).
Proof.
  pose proof depth_range as Hd. induction fuel as [|fuel IH]; intros k j ps ps' Hin Hps H; cbn [non_blank_ancestor] in H;
    rewrite (TreeMath.parent_sibling_node d _ j Hd Hin) in Hps; destruct (Z.eqb_spec (Z.of_nat k) d) as [|Hk]; try done; injection Hps as <-;
    apply bind_ok in H as ([|] & Hb & H); try done.
  1,3: injection H as <-; exists k, j; cbn [TreeMath.parent TreeMath.sibling]; pose proof Hin as [? ?]; split_and!;
    [by apply under_refl; lia|done|lia|unfold at_node; cbn [fst snd]; f_equal; lia|done].
  cbn [TreeMath.parent] in H. destruct (TreeMath.parent_sibling _ _) as [ps1|] eqn:E in H; [|done].
  assert (TreeMath.in_tree d (Z.of_nat (S k)) (j / 2)) as Hin' by (rewrite Nat2Z.inj_succ, <- Z.add_1_r; by apply TreeMath.in_tree_parent).
  apply (IH (S k) (j / 2)) in H as (m & c & Hu & H); [|done|by rewrite Nat2Z.inj_succ, <- Z.add_1_r].
  exists m, c. split; [|done]. eapply under_trans; [|exact Hu]. destruct Hin. split_and!; [lia|lia|]. by replace (S k - k)%nat with 1%nat by lia.
Qed.

Lemma non_blank_ancestor_None fuel num_leaves ps :
  non_blank_ancestor fuel t num_leaves ps = Ok None → is_blank (nodes t) (TreeMath.root num_leaves) = Ok true.
Proof.
  revert ps. induction fuel as [|fuel IH]; intros ps H; cbn [non_blank_ancestor] in H;
    apply bind_ok in H as ([|] & Hb & H); try done.
  unfold TreeMath.parent_sibling in H.
  destruct (Z.eqb_spec (TreeMath.parent ps) (TreeMath.root num_leaves)) as [<-|]; [done|by apply IH in H].
Qed.

(** The comparison of the rest of a resolution with the unmerged leaves. *)
Lemma rest_unmerged (m : nat) c (n : Z) (u l0 : list Z) :
  TreeMath.in_tree d (Z.of_nat m) c → (∀ l, l ∈ u ↔ l ∈ l0 ∧ l / 2 ^ Z.of_nat m = c) →
  (list_to_set (resolution (nodes t) m c) : gset Z) ∖ {[n]} = list_to_set (node_index <$> u) →
  ∀ x, x ∈ resolution (nodes t) m c ∧ x ≠ n ↔ ∃ l, x = 2 * l ∧ l ∈ l0 ∧ l / 2 ^ Z.of_nat m = c.
Proof.
  intros Hc Hsl H2 x. pose proof depth_range as Hd. pose proof Hc as [Hm Hc0].
  transitivity (x ∈ (list_to_set (resolution (nodes t) m c) : gset Z) ∖ {[n]}).
  { rewrite elem_of_difference, elem_of_list_to_set, not_elem_of_singleton. done. }
  rewrite H2, elem_of_list_to_set, list_elem_of_fmap. assert (∀ l, l / 2 ^ Z.of_nat m = c → node_index l = 2 * l) as Hidx.
  { intros l El. apply node_index_small. assert (2 ^ d ≤ 2 ^ 31) by (apply Z.pow_le_mono_r; lia).
    assert (0 ≤ l) as Hl. { destruct (Z.lt_ge_cases l 0); [|done]. pose proof (Z.div_lt_upper_bound l (2 ^ Z.of_nat m) 0 (pow2_pos (Z.of_nat m) ltac:(lia)) ltac:(lia)). lia. }
    destruct (under_in_tree d Hd O l m c) as [_ Hb]; [split_and!; [lia|done|by rewrite Nat.sub_0_r]|done|]. rewrite Z.sub_0_r in Hb. lia. }
  split.
  - intros (l & -> & Hl%Hsl). exists l. rewrite Hidx by apply Hl. done.
  - intros (l & -> & Hl). exists l. rewrite Hidx by apply Hl. split; [done|]. by apply Hsl.
Qed.

Lemma chain_links fuel oh : ∀ V (k : nat) j e,
  hashes_ok csp (nodes t) (tree_hashes t) → unmerged_placed (nodes t) →
  is_blank (nodes t) (TreeMath.root (total_leaf_count (nodes t))) = Ok false → compute_original_hashes csp t = Ok oh →
  TreeMath.in_tree d (Z.of_nat k) j →
  validate_chain fuel csp t oh (2 ^ d) V (TreeMath.node (Z.of_nat k) j) = Ok e →
  ∃ V', e = NextLeaf V' ∧ ∀ p, p ∈ V → p ∉ V' → ∃ n, linked p n.
Proof.
  pose proof depth_range as Hd. induction fuel as [|fuel IH]; intros V k j e Hho Hpl Hroot Hoh Hin H; cbn [validate_chain] in H;
    destruct (TreeMath.parent_sibling (TreeMath.node (Z.of_nat k) j) _) as [ps0|] eqn:Eps; try done;
    try (injection H as <-; exists V; by split).
  apply bind_ok in H as ([ps|] & Hps & H).
  2:{ rewrite leaf_count in Hroot. apply non_blank_ancestor_None in Hps. congruence. }
  destruct (filled_ancestor _ _ _ _ _ Hin Eps Hps) as (m & c & Hu & Hc & Hm & Hpar & Hsib).
  pose proof Hin as [Hk Hj]. pose proof Hc as [_ Hc0]. pose proof (TreeMath.in_tree_sib _ _ _ Hc ltac:(lia)) as Hs. pose proof Hs as [_ Hs0].
  apply bind_ok in H as (pp & Hpp & H). rewrite Hpar in Hpp. apply parent_node in Hpp; [|apply TreeMath.node_nonneg; cbn [fst snd]; [lia|apply Z.div_pos; lia]].
  apply bind_ok in H as (no & Hno & H). apply bind_ok in H as (nn & Hnn & H). apply ok_or_ok in Hnn as ->.
  pose proof (borrow_node_ok (nodes t) (TreeMath.node (Z.of_nat k) j) ltac:(apply TreeMath.node_nonneg; lia)) as Hn.
  rewrite Hno in Hn. cbn in Hn. apply bind_ok in H as (sib & Hsb & H). apply unwrap_ok in Hsb. rewrite Hsib in Hsb.
  destruct (original_hash_spec oh m (TreeMath.sib c) pp Hho Hpl Hroot Hoh Hs Hm) as (h & Hh & Hsub); [by rewrite TreeMath.sib_div2|].
  rewrite Hsb in Hh. injection Hh as <-.
  apply bind_ok in H as (calc & Hcalc & H). case_bool_decide as Hph; [|injection H as <-; exists V; by split].
  apply bind_ok in H as (cp & Hcp & H). apply ok_or_ok in Hcp. rewrite Hsib, (TreeMath.parent_sibling_node d) in Hcp by done.
  rewrite (proj2 (Z.eqb_neq _ _)) in Hcp by lia. injection Hcp as <-. cbn [TreeMath.sibling] in H. rewrite TreeMath.sib_invol in H.
  rewrite get_resolution_index_node in H by lia. cbn [mbind result_bind] in H. apply bind_ok in H as (u & Hun & H).
  case_bool_decide as H1; [|done]. case_bool_decide as H2; [|done]. case_bool_decide as H3; [|done]. cbn [andb] in H.
  rewrite Hpar in H, H3, Hun.
  assert (TreeMath.in_tree d (Z.of_nat (S m)) (c / 2)) as Hup by (rewrite Nat2Z.inj_succ, <- Z.add_1_r; apply TreeMath.in_tree_parent; [done|lia]).
  apply (IH _ (S m) (c / 2)) in H as (V' & -> & H); try done. exists V'. split; [done|]. intros p Hp Hp'.
  destruct (decide (p = at_node (up m c))) as [->|Hne]; [|apply H; [set_solver|done]].
  exists (TreeMath.node (Z.of_nat k) j). exists m, c, (TreeMath.sib c), pp, nn, sib.
  apply (slice_spec _ m c) in Hun as (pp' & Hpp' & Hsl); [|done|apply TreeMath.node_nonneg; cbn [fst snd]; [lia|apply Z.div_pos; lia]].
  rewrite Hpp in Hpp'. injection Hpp' as <-. specialize (Hsl (proj1 (Hpl m (c / 2) pp ltac:(apply Z.div_pos; lia) Hpp))).
  split_and!; try done; [lia|lia| |by rewrite TreeMath.sib_div2|by exists calc|by apply elem_of_list_to_set in H1|].
  - intros E. pose proof (TreeMath.sib_invol c) as Hi. unfold TreeMath.sib in E. destruct (Z.even c); lia.
  - by eapply rest_unmerged.
Qed.

Lemma leaves_links oh V ls :
  hashes_ok csp (nodes t) (tree_hashes t) → unmerged_placed (nodes t) →
  is_blank (nodes t) (TreeMath.root (total_leaf_count (nodes t))) = Ok false → compute_original_hashes csp t = Ok oh →
  Forall (λ l, 0 ≤ l < 2 ^ d) ls →
  validate_leaves_chains csp t oh (2 ^ d) V ls = Ok tt → ∀ p, p ∈ V → ∃ n, linked p n.
Proof.
  intros Hho Hpl Hroot Hoh Hls. pose proof depth_range as Hd. assert (2 ^ d ≤ 2 ^ 31) by (apply Z.pow_le_mono_r; lia).
  revert V. induction Hls as [|l ls Hl _ IH]; intros V H' p Hp; cbn [validate_leaves_chains] in H'.
  - case_bool_decide as E; [|done]. by rewrite E in Hp.
  - apply bind_ok in H' as (e & He & H'). rewrite node_index_small, <- TreeMath.node_0 in He by lia.
    apply (chain_links _ _ _ O) in He as (V' & -> & He); try done; [|split; [lia|]; by rewrite Z.sub_0_r].
    destruct (decide (p ∈ V')); [by apply (IH V')|by apply He].
Qed.

Lemma filled_parent (k : nat) j p : 0 ≤ j → node_at (nodes t) (TreeMath.node (Z.of_nat (S k)) j) = Some (ParentNode p) →
  TreeMath.node (Z.of_nat (S k)) j ∈ fst <$> non_empty_parents (nodes t).
Proof.
  intros Hj Hp. unfold fits in Hf. pose proof (node_at_range _ _ _ Hp) as Hr. set (x := TreeMath.node (Z.of_nat (S k)) j) in *.
  assert (∃ i : nat, x = 2 * Z.of_nat i + 1) as [i Hi].
  { exists (Z.to_nat (TreeMath.node (Z.of_nat k) j)). pose proof (TreeMath.node_nonneg (Z.of_nat k) j ltac:(lia) Hj).
    unfold x. rewrite Nat2Z.inj_succ, <- Z.add_1_r, TreeMath.node_S by lia. lia. }
  apply list_elem_of_fmap. exists (x, p). split; [done|]. unfold non_empty_parents. apply list_elem_of_omap.
  exists (Z.to_nat x, Some (ParentNode p)). split.
  - apply list_elem_of_lookup. exists i. rewrite step_by_2_lookup, lookup_drop, list_lookup_imap.
    replace (1 + 2 * i)%nat with (Z.to_nat x) by lia. unfold node_at, vec_get in Hp. destruct (Z.ltb_spec x 0); [done|].
    destruct (nodes t !! Z.to_nat x) as [o|]; [|done]. cbn in Hp |- *. by rewrite Hp.
  - cbn. rewrite Z2Nat.id by lia. by rewrite u32_small by (unfold is_u32; lia).
Qed.
End original.

(** C34. What a successful validation of parent hashes means.  Take a tree whose root is
    filled, whose cached tree hashes are those of its nodes, and whose unmerged leaves
    are below the nodes that list them, in increasing order.  If the validation
    succeeds, every filled parent is linked, as RFC 9420 (section 7.9.2) requires, to a
    node below it: that node's parent hash is the hash of the parent's key, of the
    parent's own parent hash and of the original tree hash of the parent's child on the
    other side (the hash of that subtree without the leaves unmerged at the parent), it
    is in the resolution of the child on its own side, and what else is in that
    resolution are the leaves unmerged at the parent. *)
Theorem validate_parent_hashes_sound (csp : CipherSuiteProvider) (t : TreeKemPublic) :
  fits (nodes t) → hashes_ok csp (nodes t) (tree_hashes t) → unmerged_placed (nodes t) →
  is_blank (nodes t) (TreeMath.root (total_leaf_count (nodes t))) = Ok false →
  validate_parent_hashes csp t = Ok tt →
  ∀ (k : nat) j p, 0 ≤ j → node_at (nodes t) (TreeMath.node (Z.of_nat (S k)) j) = Some (ParentNode p) →
    ∃ n, linked csp t (TreeMath.node (Z.of_nat (S k)) j) n.
Proof.
  intros Hf Hho Hpl Hroot H k j p Hj Hp. unfold validate_parent_hashes in H. apply bind_ok in H as (oh & Hoh & H).
  rewrite leaf_count in H by done. eapply leaves_links; [exact Hf|done..| |exact H|].
  - apply Forall_forall. intros l ([i x] & -> & Hx)%list_elem_of_fmap. apply elem_of_non_empty_leaves in Hx as [Hx Hi]; [|done].
    unfold leaf_at in Hx. destruct (node_at (nodes t) (2 * i)) as [n|] eqn:E; [|done]. apply node_at_range in E.
    pose proof (leaf_in_tree (nodes t) i Hf Hi ltac:(lia)). cbn [fst]. lia.
  - apply elem_of_list_to_set. by eapply filled_parent.
Qed.

Lemma validate_parent_hashes_sound_witness : ∃ n, linked toy_csp sample_committed 1 n.
Proof.
  apply (validate_parent_hashes_sound toy_csp sample_committed) with (k := O) (j := 0) (p := sample_parent []).
  - vm_compute. reflexivity.
  - right. split; [vm_compute; reflexivity|]. intros k j [Hk Hj]. change (depth (nodes sample_committed)) with 1 in *.
    assert (k = O ∧ (j = 0 ∨ j = 1) ∨ k = 1%nat ∧ j = 0) as [[-> [-> | ->]]|[-> ->]].
    { destruct k as [|[|k]]; [left|right|lia]; change (2 ^ _) with 2 in Hj || change (2 ^ _) with 1 in Hj; lia. }
    all: eexists; split; vm_compute; reflexivity.
  - intros k j p Hj Hp. assert (unmerged_leaves p = []) as ->; [|split; [constructor|intros l Hl; by apply elem_of_nil in Hl]].
    revert Hp. generalize (TreeMath.node (Z.of_nat (S k)) j). intros x Hp. pose proof (node_at_range _ _ _ Hp) as Hr.
    change (len (nodes sample_committed)) with 3 in Hr. assert (x = 0 ∨ x = 1 ∨ x = 2) as [->|[->| ->]] by lia; vm_compute in Hp; first [discriminate Hp|injection Hp as <-; reflexivity].
  - vm_compute. reflexivity.
  - vm_compute. reflexivity.
  - done.
  - vm_compute. reflexivity.
Defined.
End OriginalHash.
