(* ===== verification/Proposal.v ===== *)
(** * Proposals and their bundles (mls-rs/src/group/proposal.rs,
    proposal_filter/bundle.rs, psk.rs, key_package/mod.rs, framing.rs)

    The proposals of a commit with their wire format, and [ProposalBundle], the
    collection of proposals by type that a commit is resolved to. *)
From S2P Require Import Prelude Codec Types.
Import LeafCodecs.

(** ** Pre-shared key identifiers: psk.rs *)
Inductive ResumptionPSKUsage : Type := UsageApplication | UsageReinit | UsageBranch.

Record ResumptionPsk := { usage : ResumptionPSKUsage; psk_group_id : bytes; psk_epoch : Z }.

Inductive JustPreSharedKeyID : Type :=
  | ExternalPsk (id : bytes)
  | ResumptionPskId (psk : ResumptionPsk).

Record PreSharedKeyID := { key_id : JustPreSharedKeyID; psk_nonce : bytes }.

#[global] Instance resumption_usage_eq_dec : EqDecision ResumptionPSKUsage.
Proof. solve_decision. Defined.
#[global] Instance resumption_psk_eq_dec : EqDecision ResumptionPsk.
Proof. solve_decision. Defined.
#[global] Instance just_psk_id_eq_dec : EqDecision JustPreSharedKeyID.
Proof. solve_decision. Defined.
#[global] Instance psk_id_eq_dec : EqDecision PreSharedKeyID.
Proof. solve_decision. Defined.

Definition usage_variants : list (Variant ResumptionPSKUsage) := [
  {| v_discriminant := 1; v_codec := unit_codec; v_make := λ _, UsageApplication;
     v_match u := match u with UsageApplication => Some tt | _ => None end |};
  {| v_discriminant := 2; v_codec := unit_codec; v_make := λ _, UsageReinit;
     v_match u := match u with UsageReinit => Some tt | _ => None end |};
  {| v_discriminant := 3; v_codec := unit_codec; v_make := λ _, UsageBranch;
     v_match u := match u with UsageBranch => Some tt | _ => None end |} ].

Definition usage_codec : MlsCodec ResumptionPSKUsage := enum_codec u8_codec usage_variants.

Definition resumption_psk_codec : MlsCodec ResumptionPsk :=
  struct_codec (λ p, (usage p, (psk_group_id p, psk_epoch p)))
    (λ '(a, (b, c)), {| usage := a; psk_group_id := b; psk_epoch := c |})
    (tuple_codec usage_codec (tuple_codec byte_vec_codec u64_codec)).

Definition just_psk_id_variants : list (Variant JustPreSharedKeyID) := [
  {| v_discriminant := 1; v_codec := byte_vec_codec; v_make := ExternalPsk;
     v_match x := match x with ExternalPsk i => Some i | _ => None end |};
  {| v_discriminant := 2; v_codec := resumption_psk_codec; v_make := ResumptionPskId;
     v_match x := match x with ResumptionPskId r => Some r | _ => None end |} ].

Definition just_psk_id_codec : MlsCodec JustPreSharedKeyID := enum_codec u8_codec just_psk_id_variants.

Definition psk_id_codec : MlsCodec PreSharedKeyID :=
  struct_codec (λ p, (key_id p, psk_nonce p)) (λ p, {| key_id := p.1; psk_nonce := p.2 |})
    (tuple_codec just_psk_id_codec byte_vec_codec).

(** ** Key packages: key_package/mod.rs *)
Record KeyPackage := {
  kp_version : Z;
  kp_cipher_suite : Z;
  hpke_init_key : bytes;
  kp_leaf_node : LeafNode;
  kp_extensions : ExtensionList.t;
  kp_signature : bytes;
}.

#[global] Instance key_package_eq_dec : EqDecision KeyPackage.
Proof. solve_decision. Defined.

Definition key_package_codec : MlsCodec KeyPackage :=
  struct_codec
    (λ k, (kp_version k, (kp_cipher_suite k, (hpke_init_key k, (kp_leaf_node k, (kp_extensions k, kp_signature k))))))
    (λ '(a, (b, (c, (d, (e, f))))),
       {| kp_version := a; kp_cipher_suite := b; hpke_init_key := c; kp_leaf_node := d;
          kp_extensions := e; kp_signature := f |})
    (tuple_codec u16_codec (tuple_codec u16_codec (tuple_codec byte_vec_codec
      (tuple_codec leaf_node_codec (tuple_codec ExtensionList.codec byte_vec_codec))))).

(** ** Proposals: group/proposal.rs *)
Record ReInitProposal := {
  reinit_group_id : bytes;
  reinit_version : Z;
  reinit_cipher_suite : Z;
  reinit_extensions : ExtensionList.t;
}.

Record CustomProposal := { custom_type : Z; custom_data : bytes }.

(** [AddProposal], [UpdateProposal], [RemoveProposal], [PreSharedKeyProposal] and
    [ExternalInit] have one field each and stand for it. *)
Inductive Proposal : Type :=
  | Add (key_package : KeyPackage)
  | Update (leaf_node : LeafNode)
  | Remove (to_remove : Z)
  | Psk (psk : PreSharedKeyID)
  | ReInit (p : ReInitProposal)
  | ExternalInit (kem_output : bytes)
  | GroupContextExtensions (e : ExtensionList.t)
  | Custom (p : CustomProposal).

#[global] Instance reinit_eq_dec : EqDecision ReInitProposal.
Proof. solve_decision. Defined.
#[global] Instance custom_proposal_eq_dec : EqDecision CustomProposal.
Proof. solve_decision. Defined.
#[global] Instance proposal_eq_dec : EqDecision Proposal.
Proof. solve_decision. Defined.

(** [ProposalType] constants. *)
Definition ADD : Z := 1.
Definition UPDATE : Z := 2.
Definition REMOVE : Z := 3.
Definition PSK : Z := 4.
Definition RE_INIT : Z := 5.
Definition EXTERNAL_INIT : Z := 6.
Definition GROUP_CONTEXT_EXTENSIONS : Z := 7.

Definition proposal_type (p : Proposal) : Z :=
  match p with
  | Add _ => ADD
  | Update _ => UPDATE
  | Remove _ => REMOVE
  | Psk _ => PSK
  | ReInit _ => RE_INIT
  | ExternalInit _ => EXTERNAL_INIT
  | GroupContextExtensions _ => GROUP_CONTEXT_EXTENSIONS
  | Custom c => custom_type c
  end.

Definition reinit_codec : MlsCodec ReInitProposal :=
  struct_codec (λ r, (reinit_group_id r, (reinit_version r, (reinit_cipher_suite r, reinit_extensions r))))
    (λ '(a, (b, (c, d))),
       {| reinit_group_id := a; reinit_version := b; reinit_cipher_suite := c; reinit_extensions := d |})
    (tuple_codec byte_vec_codec (tuple_codec u16_codec (tuple_codec u16_codec ExtensionList.codec))).

(** [MlsSize], [MlsEncode] and [MlsDecode] for [Proposal]: written by hand in the
    source, the type in two bytes and then the contents. *)
Definition proposal_codec : MlsCodec Proposal := {|
  mls_encoded_len p :=
    inner ← (match p with
             | Add k => mls_encoded_len key_package_codec k
             | Update l => mls_encoded_len leaf_node_codec l
             | Remove i => mls_encoded_len u32_codec i
             | Psk i => mls_encoded_len psk_id_codec i
             | ReInit r => mls_encoded_len reinit_codec r
             | ExternalInit k => mls_encoded_len byte_vec_codec k
             | GroupContextExtensions e => mls_encoded_len ExtensionList.codec e
             | Custom c => mls_encoded_len byte_vec_codec (custom_data c)
             end);
    n ← mls_encoded_len u16_codec (proposal_type p);
    Ok (n + inner);
  mls_encode p w :=
    w ← mls_encode u16_codec (proposal_type p) w;
    match p with
    | Add k => mls_encode key_package_codec k w
    | Update l => mls_encode leaf_node_codec l w
    | Remove i => mls_encode u32_codec i w
    | Psk i => mls_encode psk_id_codec i w
    | ReInit r => mls_encode reinit_codec r w
    | ExternalInit k => mls_encode byte_vec_codec k w
    | GroupContextExtensions e => mls_encode ExtensionList.codec e w
    | Custom c =>
        if custom_type c <=? 7 then Err (Codec.Custom 2) else mls_encode byte_vec_codec (custom_data c) w
    end;
  mls_decode r :=
    '(ty, r) ← mls_decode u16_codec r;
    if ty =? ADD then '(k, r) ← mls_decode key_package_codec r; Ok (Add k, r)
    else if ty =? UPDATE then '(l, r) ← mls_decode leaf_node_codec r; Ok (Update l, r)
    else if ty =? REMOVE then '(i, r) ← mls_decode u32_codec r; Ok (Remove i, r)
    else if ty =? PSK then '(i, r) ← mls_decode psk_id_codec r; Ok (Psk i, r)
    else if ty =? RE_INIT then '(x, r) ← mls_decode reinit_codec r; Ok (ReInit x, r)
    else if ty =? EXTERNAL_INIT then '(k, r) ← mls_decode byte_vec_codec r; Ok (ExternalInit k, r)
    else if ty =? GROUP_CONTEXT_EXTENSIONS then
      '(e, r) ← mls_decode ExtensionList.codec r; Ok (GroupContextExtensions e, r)
    else '(d, r) ← mls_decode byte_vec_codec r; Ok (Custom {| custom_type := ty; custom_data := d |}, r);
|}.

Inductive ProposalOrRef : Type :=
  | ProposalByValue (p : Proposal)
  | Reference (r : bytes).

Definition proposal_or_ref_variants : list (Variant ProposalOrRef) := [
  {| v_discriminant := 1; v_codec := proposal_codec; v_make := ProposalByValue;
     v_match x := match x with ProposalByValue p => Some p | _ => None end |};
  {| v_discriminant := 2; v_codec := byte_vec_codec; v_make := Reference;
     v_match x := match x with Reference r => Some r | _ => None end |} ].
Definition proposal_or_ref_codec : MlsCodec ProposalOrRef := enum_codec u8_codec proposal_or_ref_variants.

(** ** Senders: group/framing.rs *)
Inductive Sender : Type :=
  | Member (i : Z)
  | External (i : Z)
  | NewMemberProposal
  | NewMemberCommit.

#[global] Instance sender_eq_dec : EqDecision Sender.
Proof. solve_decision. Defined.

Definition sender_variants : list (Variant Sender) := [
  {| v_discriminant := 1; v_codec := u32_codec; v_make := Member;
     v_match s := match s with Member i => Some i | _ => None end |};
  {| v_discriminant := 2; v_codec := u32_codec; v_make := External;
     v_match s := match s with External i => Some i | _ => None end |};
  {| v_discriminant := 3; v_codec := unit_codec; v_make := λ _, NewMemberProposal;
     v_match s := match s with NewMemberProposal => Some tt | _ => None end |};
  {| v_discriminant := 4; v_codec := unit_codec; v_make := λ _, NewMemberCommit;
     v_match s := match s with NewMemberCommit => Some tt | _ => None end |} ].
Definition sender_codec : MlsCodec Sender := enum_codec u8_codec sender_variants.

(** ** Bundles: group/proposal_filter/bundle.rs *)
Inductive ProposalSource : Type := ByValue | ByReference (r : bytes) | Local.

#[global] Instance proposal_source_eq_dec : EqDecision ProposalSource.
Proof. solve_decision. Defined.

Record ProposalInfo (T : Type) := { proposal : T; info_sender : Sender; source : ProposalSource }.
Arguments proposal {T}.
Arguments info_sender {T}.
Arguments source {T}.

(** [ProposalInfo::new]. *)
Definition proposal_info_new {T} (p : T) (s : Sender) (can_transmit : bool) : ProposalInfo T :=
  {| proposal := p; info_sender := s; source := if can_transmit then ByValue else Local |}.

(** [ProposalInfo::map], [is_by_value], [is_by_reference], [proposal_ref]. *)
Definition info_map {T U} (f : T → U) (p : ProposalInfo T) : ProposalInfo U :=
  {| proposal := f (proposal p); info_sender := info_sender p; source := source p |}.
Definition is_by_value {T} (p : ProposalInfo T) : bool := bool_decide (source p = ByValue).
Definition is_by_reference {T} (p : ProposalInfo T) : bool := negb (is_by_value p).
Definition proposal_ref {T} (p : ProposalInfo T) : option bytes :=
  match source p with ByReference r => Some r | _ => None end.

Record ProposalBundle := {
  additions : list (ProposalInfo KeyPackage);
  updates : list (ProposalInfo LeafNode);
  update_senders : list Z;
  removals : list (ProposalInfo Z);
  psks : list (ProposalInfo PreSharedKeyID);
  reinitializations : list (ProposalInfo ReInitProposal);
  external_initializations : list (ProposalInfo bytes);
  group_context_extensions : list (ProposalInfo ExtensionList.t);
  custom_proposals : list (ProposalInfo CustomProposal);
}.

Definition empty_bundle : ProposalBundle := {|
  additions := []; updates := []; update_senders := []; removals := []; psks := [];
  reinitializations := []; external_initializations := []; group_context_extensions := [];
  custom_proposals := [] |}.

(** Updates of single fields. *)
Definition set_additions (v : list (ProposalInfo KeyPackage)) (b : ProposalBundle) : ProposalBundle := {|
  additions := v; updates := updates b; update_senders := update_senders b; removals := removals b;
  psks := psks b; reinitializations := reinitializations b;
  external_initializations := external_initializations b;
  group_context_extensions := group_context_extensions b; custom_proposals := custom_proposals b |}.
Definition set_updates (v : list (ProposalInfo LeafNode)) (senders : list Z) (b : ProposalBundle) : ProposalBundle := {|
  additions := additions b; updates := v; update_senders := senders; removals := removals b;
  psks := psks b; reinitializations := reinitializations b;
  external_initializations := external_initializations b;
  group_context_extensions := group_context_extensions b; custom_proposals := custom_proposals b |}.
Definition set_removals (v : list (ProposalInfo Z)) (b : ProposalBundle) : ProposalBundle := {|
  additions := additions b; updates := updates b; update_senders := update_senders b; removals := v;
  psks := psks b; reinitializations := reinitializations b;
  external_initializations := external_initializations b;
  group_context_extensions := group_context_extensions b; custom_proposals := custom_proposals b |}.

(** [ProposalBundle::add]. *)
Definition bundle_add (b : ProposalBundle) (p : Proposal) (s : Sender) (src : ProposalSource) : ProposalBundle :=
  let info {T} (x : T) : ProposalInfo T := {| proposal := x; info_sender := s; source := src |} in
  {| additions := additions b ++ match p with Add k => [info k] | _ => [] end;
     updates := updates b ++ match p with Update l => [info l] | _ => [] end;
     update_senders := update_senders b;
     removals := removals b ++ match p with Remove i => [info i] | _ => [] end;
     psks := psks b ++ match p with Psk i => [info i] | _ => [] end;
     reinitializations := reinitializations b ++ match p with ReInit r => [info r] | _ => [] end;
     external_initializations := external_initializations b ++ match p with ExternalInit k => [info k] | _ => [] end;
     group_context_extensions :=
       group_context_extensions b ++ match p with GroupContextExtensions e => [info e] | _ => [] end;
     custom_proposals := custom_proposals b ++ match p with Custom c => [info c] | _ => [] end |}.

(** [Proposable::remove]: nothing happens past the end. *)
Definition vec_remove {A} (l : list A) (i : nat) : list A := delete i l.

(** [ProposalBundle::length]. *)
Definition bundle_length (b : ProposalBundle) : Z :=
  len (psks b) + len (external_initializations b) + len (custom_proposals b) + len (updates b) +
  len (additions b) + len (removals b) + len (reinitializations b) + len (group_context_extensions b).

(** [iter_proposals] and [into_proposals], which use different orders. *)
Definition iter_proposals (b : ProposalBundle) : list (ProposalInfo Proposal) :=
  (info_map Add <$> additions b) ++ (info_map Remove <$> removals b) ++
  (info_map ReInit <$> reinitializations b) ++ (info_map Update <$> updates b) ++
  (info_map Psk <$> psks b) ++ (info_map ExternalInit <$> external_initializations b) ++
  (info_map GroupContextExtensions <$> group_context_extensions b) ++ (info_map Custom <$> custom_proposals b).

Definition into_proposals (b : ProposalBundle) : list (ProposalInfo Proposal) :=
  (info_map Custom <$> custom_proposals b) ++ (info_map ExternalInit <$> external_initializations b) ++
  (info_map Psk <$> psks b) ++ (info_map Update <$> updates b) ++ (info_map Add <$> additions b) ++
  (info_map Remove <$> removals b) ++ (info_map ReInit <$> reinitializations b) ++
  (info_map GroupContextExtensions <$> group_context_extensions b).

Definition into_proposals_or_refs (b : ProposalBundle) : list ProposalOrRef :=
  omap (λ p, match source p with
             | ByValue => Some (ProposalByValue (proposal p))
             | ByReference r => Some (Reference r)
             | Local => None
             end) (into_proposals b).

(** [custom_proposal_types] and [proposal_types]. *)
Definition non_empty {A} (l : list A) : bool := match l with [] => false | _ => true end.

Definition custom_proposal_types (b : ProposalBundle) : list Z :=
  unique (custom_type ∘ proposal <$> custom_proposals b).

Definition proposal_types (b : ProposalBundle) : list Z :=
  (if non_empty (additions b) then [ADD] else []) ++
  (if non_empty (removals b) then [REMOVE] else []) ++
  (if non_empty (reinitializations b) then [RE_INIT] else []) ++
  (if non_empty (updates b) then [UPDATE] else []) ++
  (if non_empty (psks b) then [PSK] else []) ++
  (if non_empty (external_initializations b) then [EXTERNAL_INIT] else []) ++
  (if non_empty (group_context_extensions b) then [GROUP_CONTEXT_EXTENSIONS] else []) ++
  custom_proposal_types b.

(** [FromIterator<(Proposal, Sender, ProposalSource)>]. *)
Definition bundle_from_iter (l : list (Proposal * Sender * ProposalSource)) : ProposalBundle :=
  foldl (λ b '(p, s, src), bundle_add b p s src) empty_bundle l.

(** * Wire format *)
Module ProposalCodecs.

Definition resumption_psk_wf (p : ResumptionPsk) : Prop := is_u64 (psk_epoch p).
Definition just_psk_id_wf (k : JustPreSharedKeyID) : Prop :=
  match k with ExternalPsk _ => True | ResumptionPskId r => resumption_psk_wf r end.
Definition psk_id_wf (p : PreSharedKeyID) : Prop := just_psk_id_wf (key_id p).
Definition key_package_wf (k : KeyPackage) : Prop :=
  is_u16 (kp_version k) ∧ is_u16 (kp_cipher_suite k) ∧ leaf_node_wf (kp_leaf_node k) ∧ ext_list_wf (kp_extensions k).
Definition reinit_wf (r : ReInitProposal) : Prop :=
  is_u16 (reinit_version r) ∧ is_u16 (reinit_cipher_suite r) ∧ ext_list_wf (reinit_extensions r).

#[export] Instance usage_laws : CodecLaws usage_codec (λ _, True).
Proof. solve_enum usage_variants (λ _ : ResumptionPSKUsage, True). Qed.

#[export] Instance resumption_psk_laws : CodecLaws resumption_psk_codec resumption_psk_wf.
Proof.
  eapply laws_iff; [apply struct_laws; [by intros []|by intros (?&?&?)|typeclasses eauto]|].
  intros []. unfold resumption_psk_wf. cbn. tauto.
Qed.

#[export] Instance just_psk_id_laws : CodecLaws just_psk_id_codec just_psk_id_wf.
Proof. solve_enum just_psk_id_variants just_psk_id_wf. Qed.

#[export] Instance psk_id_laws : CodecLaws psk_id_codec psk_id_wf.
Proof.
  eapply laws_iff; [apply struct_laws; [by intros []|by intros [? ?]|typeclasses eauto]|].
  intros []. unfold psk_id_wf. cbn. tauto.
Qed.

#[export] Instance key_package_laws : CodecLaws key_package_codec key_package_wf.
Proof.
  eapply laws_iff; [apply struct_laws; [by intros []|by intros (?&?&?&?&?&?)|typeclasses eauto]|].
  intros []. unfold key_package_wf. cbn. tauto.
Qed.

#[export] Instance reinit_laws : CodecLaws reinit_codec reinit_wf.
Proof.
  eapply laws_iff; [apply struct_laws; [by intros []|by intros (?&?&?&?)|typeclasses eauto]|].
  intros []. unfold reinit_wf. cbn. tauto.
Qed.

Definition sender_wf (s : Sender) : Prop := match s with Member i | External i => is_u32 i | _ => True end.

#[export] Instance sender_laws : CodecLaws sender_codec sender_wf.
Proof. solve_enum sender_variants sender_wf. Qed.

(** A value after its two-byte type. *)
Lemma tagged_roundtrip {A} (c : MlsCodec A) wf `{!CodecLaws c wf} ty a bs rest :
  is_u16 ty → wf a → (w ← mls_encode u16_codec ty []; mls_encode c a w) = Ok bs →
  (∃ r', mls_decode u16_codec (bs ++ rest) = Ok (ty, r') ∧ mls_decode c r' = Ok (a, rest)) ∧
  (inner ← mls_encoded_len c a; n ← mls_encoded_len u16_codec ty; Ok (n + inner)) = Ok (len bs).
Proof.
  intros Ht Ha H. apply bind_ok in H as (x & Hx & H). rewrite encode_writer in H. apply fmap_ok in H as (y & Hy & <-).
  split.
  - exists (y ++ rest). rewrite <- app_assoc. split; [by apply decode_encode|by apply decode_encode].
  - rewrite (encode_len a y), (encode_len ty x) by done. cbn [mbind result_bind]. by rewrite len_app.
Qed.

Lemma tagged_sound {A} (c : MlsCodec A) wf `{!CodecLaws c wf} ty a r r1 rest :
  mls_decode u16_codec r = Ok (ty, r1) → mls_decode c r1 = Ok (a, rest) →
  is_u16 ty ∧ wf a ∧ ∃ bs, (w ← mls_encode u16_codec ty []; mls_encode c a w) = Ok bs ∧ r = bs ++ rest.
Proof.
  intros Ht Ha. apply decode_sound in Ht as (Hu & x & Hx & ->). apply decode_sound in Ha as (Hw & y & Hy & ->).
  split_and!; [done..|]. exists (x ++ y). rewrite Hx. cbn [mbind result_bind]. rewrite encode_writer, Hy, <- app_assoc. done.
Qed.

Definition proposal_wf (p : Proposal) : Prop :=
  match p with
  | Add k => key_package_wf k
  | Update l => leaf_node_wf l
  | Remove i => is_u32 i
  | Psk i => psk_id_wf i
  | ReInit r => reinit_wf r
  | ExternalInit _ => True
  | GroupContextExtensions e => ext_list_wf e
  | Custom c => is_u16 (custom_type c) ∧ 8 ≤ custom_type c
  end.

Lemma proposal_roundtrip p bs rest :
  proposal_wf p → mls_encode proposal_codec p [] = Ok bs →
  mls_decode proposal_codec (bs ++ rest) = Ok (p, rest) ∧ mls_encoded_len proposal_codec p = Ok (len bs).
Proof.
  intros Hwf He. cbn [proposal_codec mls_decode mls_encoded_len mls_encode] in *.
  assert (∀ ty, 1 ≤ ty ≤ 7 → is_u16 ty) as Hty by (unfold is_u16; lia).
  destruct p as [x|x|x|x|x|x|x|[ty d]]; cbn [proposal_wf proposal_type custom_type custom_data] in *.
  8:{ destruct Hwf as [Hu Hge]. destruct (Z.leb_spec ty 7) as [|Hgt]; [lia|].
      apply (tagged_roundtrip byte_vec_codec (λ _, True) ty d bs rest) in He as [(r' & -> & Hd) Hlen]; [|done..].
      cbn [mbind result_bind]. unfold ADD, UPDATE, REMOVE, PSK, RE_INIT, EXTERNAL_INIT, GROUP_CONTEXT_EXTENSIONS.
      rewrite !(proj2 (Z.eqb_neq ty _)) by lia. rewrite Hd. split; [done|exact Hlen]. }
  all: eapply tagged_roundtrip in He as [(r' & -> & Hd) Hlen];
    [|apply _|by apply Hty|exact Hwf || exact I]; cbn [mbind result_bind]; cbn -[mls_decode mls_encoded_len];
    rewrite Hd; split; [reflexivity|exact Hlen].
Qed.

(** A custom proposal of type 0 is the one value that decodes and does not
    encode. *)
Lemma proposal_decode_sound r p rest :
  mls_decode proposal_codec r = Ok (p, rest) →
  (proposal_wf p ∧ ∃ bs, mls_encode proposal_codec p [] = Ok bs ∧ r = bs ++ rest) ∨
  (∃ d, p = Custom {| custom_type := 0; custom_data := d |} ∧ mls_encode proposal_codec p [] = Err (Codec.Custom 2)).
Proof.
  cbn [proposal_codec mls_decode]. intros H. apply bind_ok in H as ([ty r1] & Hty & H).
  repeat match type of H with (if ?b then _ else _) = _ => destruct b eqn:?E end;
    apply bind_ok in H as ([x r2] & Hx & [= <- <-]);
    try (match goal with E : (ty =? ?c) = true |- _ => apply Z.eqb_eq in E as -> end; left;
         destruct (tagged_sound _ _ _ _ _ _ _ Hty Hx) as (_ & Hwf & Hbs); split; [exact Hwf|exact Hbs]).
  destruct (tagged_sound _ _ _ _ _ _ _ Hty Hx) as (Hu & _ & bs & Hbs & ->).
  unfold ADD, UPDATE, REMOVE, PSK, RE_INIT, EXTERNAL_INIT, GROUP_CONTEXT_EXTENSIONS in *.
  destruct (decide (ty = 0)) as [->|Hne]; [right; by exists x|left].
  assert (8 ≤ ty) by (unfold is_u16 in Hu; lia). split; [by split|]. exists bs. split; [|done].
  cbn [proposal_codec mls_encode custom_type custom_data proposal_type].
  destruct (Z.leb_spec ty 7); [lia|done].
Qed.

Lemma proposal_decode_settled r : settled (mls_decode proposal_codec r).
Proof.
  apply settled_bind; [apply decode_settled|]. intros [ty r1] _.
  repeat match goal with |- settled (if ?b then _ else _) => destruct b end;
    (apply settled_bind; [apply decode_settled|by intros []]).
Qed.

End ProposalCodecs.

(** * Properties *)
Import ProposalCodecs.

(** Proposals on the wire: a well-formed proposal decodes to itself, its
    encoded length is the computed one, and decoding never panics.  What is
    decoded is well-formed and was its own encoding, with one exception the
    hand-written codec has: a proposal of the reserved type 0 decodes as a custom
    proposal, but such a custom proposal is refused by the encoder. *)
Theorem proposal_codec_correct :
  (∀ p bs rest, proposal_wf p → mls_encode proposal_codec p [] = Ok bs →
     mls_decode proposal_codec (bs ++ rest) = Ok (p, rest) ∧ mls_encoded_len proposal_codec p = Ok (len bs)) ∧
  (∀ r p rest, mls_decode proposal_codec r = Ok (p, rest) →
     (proposal_wf p ∧ ∃ bs, mls_encode proposal_codec p [] = Ok bs ∧ r = bs ++ rest) ∨
     (∃ d, p = Custom {| custom_type := 0; custom_data := d |} ∧
           mls_encode proposal_codec p [] = Err (Codec.Custom 2))) ∧
  (∀ r, settled (mls_decode proposal_codec r)).
Proof. split_and!; [apply proposal_roundtrip|apply proposal_decode_sound|apply proposal_decode_settled]. Qed.

Lemma bundle_add_iter b p s src :
  iter_proposals (bundle_add b p s src) ≡ₚ
  iter_proposals b ++ [{| proposal := p; info_sender := s; source := src |}].
Proof.
  unfold iter_proposals, bundle_add. cbn.
  destruct p; cbn; rewrite ?fmap_app, ?app_nil_r; cbn [fmap list_fmap info_map proposal info_sender source];
    rewrite <- ?app_assoc; solve_Permutation.
Qed.

Lemma into_iter_proposals b : into_proposals b ≡ₚ iter_proposals b.
Proof. unfold into_proposals, iter_proposals. solve_Permutation. Qed.

(** A bundle holds the proposals it was built from, each once: the bundle
    collected from a list of proposals iterates, in either of the two orders the
    code uses, over a permutation of that list, and its length is theirs. *)
Theorem bundle_from_iter_correct (l : list (Proposal * Sender * ProposalSource)) :
  let infos := (λ '(p, s, src), {| proposal := p; info_sender := s; source := src |}) <$> l in
  iter_proposals (bundle_from_iter l) ≡ₚ infos ∧ into_proposals (bundle_from_iter l) ≡ₚ infos ∧
  bundle_length (bundle_from_iter l) = len l.
Proof.
  intros infos.
  assert (∀ b, iter_proposals (foldl (λ b '(p, s, src), bundle_add b p s src) b l) ≡ₚ iter_proposals b ++ infos) as H.
  { unfold infos. clear infos. induction l as [|[[p s] src] l IH]; intros b; cbn; [by rewrite app_nil_r|].
    rewrite IH, bundle_add_iter, <- app_assoc. done. }
  assert (iter_proposals (bundle_from_iter l) ≡ₚ infos) as Hi by apply (H empty_bundle).
  split_and!; [done|by rewrite into_iter_proposals|].
  transitivity (len infos); [|unfold infos, len; by rewrite length_fmap].
  unfold len. rewrite <- Hi. unfold bundle_length, iter_proposals, len. rewrite !length_app, !length_fmap. lia.
Qed.
