(* ===== verification/TreeKem.v ===== *)
(** * The public ratchet tree (mls-rs/src/tree_kem/mod.rs)

    [TreeKemPublic]: importing a tree, adding members, applying the proposals of
    a commit ([batch_edit]) and an update path.  The abstract view of a tree is
    its roster, the finite map from leaf positions to leaves. *)
From S2P Require Import Prelude Codec TreeMath Types Node TreeIndex Crypto TreeHash ParentHash Proposal.
Import Node.

Module TreeKem.
Import ParentHash.

Definition new : TreeKemPublic := {| index := TreeIndex.new; nodes := []; tree_hashes := [] |}.

Definition with_index (t : TreeKemPublic) (i : TreeIndex.t) : TreeKemPublic :=
  {| index := i; nodes := nodes t; tree_hashes := tree_hashes t |}.

Section provider.
Context (ip : IdentityProvider) (ext : ExtensionList.t).

(** The loop of [initialize_index_if_necessary]. *)
Definition index_all (ls : list (Z * LeafNode)) : Result MlsError TreeIndex.t :=
  foldM (λ ti '(i, l), let '(r, ti') := TreeIndex.index_insert ti l i ip ext in _ ← r; Ok ti') TreeIndex.new ls.

Definition initialize_index_if_necessary (t : TreeKemPublic) : Result MlsError TreeKemPublic :=
  if negb (TreeIndex.is_initialized (index t)) then
    ti ← index_all (non_empty_leaves (nodes t)); Ok (with_index t ti)
  else Ok t.

Definition import_node_data (ns : NodeVec) : Result MlsError TreeKemPublic :=
  initialize_index_if_necessary {| index := TreeIndex.new; nodes := ns; tree_hashes := [] |}.

Definition get_leaf_node_with_identity (t : TreeKemPublic) (ident : bytes) : option Z :=
  TreeIndex.get_leaf_index_with_identity (index t) ident.

(** [get_leaf_node_with_identity] without the [tree_index] feature. *)
Fixpoint scan_identity (ident : bytes) (ls : list (Z * LeafNode)) : Result MlsError (option Z) :=
  match ls with
  | [] => Ok None
  | (i, l) :: ls =>
      leaf_id ← identity (signing_identity l) ip ext;
      if bool_decide (leaf_id = ident) then Ok (Some i) else scan_identity ident ls
  end.

Definition get_leaf_node (t : TreeKemPublic) (i : Z) : Result MlsError LeafNode := borrow_as_leaf (nodes t) i.

Definition find_leaf_node (t : TreeKemPublic) (l : LeafNode) : option Z :=
  head (omap (λ '(i, k), if leaf_node_eqb k l then Some i else None) (non_empty_leaves (nodes t))).

Definition can_support_proposal (t : TreeKemPublic) (ty : Z) : bool :=
  TreeIndex.count_supporting_proposal (index t) ty =? occupied_leaf_count (nodes t).

(** [can_support_proposal] without the [tree_index] feature. *)
Definition can_support_proposal_scan (t : TreeKemPublic) (ty : Z) : bool :=
  forallb (λ '(_, l), bool_decide (ty ∈ proposals (capabilities l))) (non_empty_leaves (nodes t)).

Definition update_node (t : TreeKemPublic) (pub_key : bytes) (i : Z) : Result MlsError TreeKemPublic :=
  ns ← borrow_or_fill_node_as_parent (nodes t) i pub_key
    (λ p, {| parent_public_key := pub_key; parent_parent_hash := parent_parent_hash p; unmerged_leaves := [] |});
  Ok (with_nodes t ns).

Definition update_unmerged (t : TreeKemPublic) (i : Z) : TreeKemPublic :=
  with_nodes t (foldl (λ ns c,
    match borrow_as_parent_mut ns (TreeMath.path c)
            (λ p, {| parent_public_key := parent_public_key p; parent_parent_hash := parent_parent_hash p;
                     unmerged_leaves := unmerged_leaves p ++ [i] |}) with
    | Ok ns' => ns'
    | _ => ns
    end) (nodes t) (direct_copath (nodes t) i)).

(** A rejected leaf leaves the tree's nodes alone, but its index may have gained
    a counter (see [TreeIndex.insert]). *)
Definition add_leaf (t : TreeKemPublic) (leaf : LeafNode) (start : option Z)
    : Result MlsError Z * TreeKemPublic :=
  match next_empty_leaf (nodes t) (default 0 start) with
  | Ok i =>
      let '(r, ti) := TreeIndex.index_insert (index t) leaf i ip ext in
      let t := with_index t ti in
      match r with
      | Ok _ =>
          match insert_leaf (nodes t) i leaf with
          | Ok ns => (Ok i, update_unmerged (with_nodes t ns) i)
          | Err e => (Err e, t)
          | Panic => (Panic, t)
          | Diverge => (Diverge, t)
          end
      | Err e => (Err e, t)
      | Panic => (Panic, t)
      | Diverge => (Diverge, t)
      end
  | Err e => (Err e, t)
  | Panic => (Panic, t)
  | Diverge => (Diverge, t)
  end.

(** [derive]: the tree of a new group. *)
Definition derive (leaf : LeafNode) : Result MlsError TreeKemPublic :=
  let '(r, t) := add_leaf new leaf None in _ ← r; Ok t.

(** ** [batch_edit] *)

(** One remove proposal, from the last to the first. *)
Definition remove_step (filter : bool) (s : TreeKemPublic * ProposalBundle) (i : nat)
    : Result MlsError (TreeKemPublic * ProposalBundle) :=
  let '(t, b) := s in
  p ← unwrap (removals b !! i);
  let i_remove := proposal p in
  let '(res, ns) := blank_leaf_node (nodes t) i_remove in
  ns ← (if is_ok res then blank_direct_path ns i_remove else Ok ns);
  let t := with_nodes t ns in
  t ← (match res with
       | Ok old_leaf =>
           id ← identity (signing_identity old_leaf) ip ext;
           Ok (with_index t (TreeIndex.remove (index t) old_leaf id))
       | _ => Ok t
       end);
  if is_by_value p || negb filter then _ ← res; Ok (t, b)
  else if is_ok res then Ok (t, b)
  else Ok (t, set_removals (vec_remove (removals b) i) b).

Definition apply_removes (filter : bool) (t : TreeKemPublic) (b : ProposalBundle)
    : Result MlsError (TreeKemPublic * ProposalBundle) :=
  foldM (remove_step filter) (t, b) (rev (seq 0 (length (removals b)))).

(** The old leaves of the updating members come out of the tree first. *)
Record PartialUpdate := { pu_index : Z; pu_old : LeafNode; pu_new : LeafNode; pu_pos : nat }.

Definition take_old_step (filter : bool) (s : TreeKemPublic * list PartialUpdate)
    (x : nat * (ProposalInfo LeafNode * Z)) : Result MlsError (TreeKemPublic * list PartialUpdate) :=
  let '(t, acc) := s in
  let '(pos, (p, i)) := x in
  let '(res, ns) := blank_leaf_node (nodes t) i in
  let t := with_nodes t ns in
  match res with
  | Ok old_leaf =>
      old_id ← identity (signing_identity old_leaf) ip ext;
      Ok (with_index t (TreeIndex.remove (index t) old_leaf old_id),
          acc ++ [{| pu_index := i; pu_old := old_leaf; pu_new := proposal p; pu_pos := pos |}])
  | _ => if negb filter || negb (is_by_reference p) then Err UpdatingNonExistingMember else Ok (t, acc)
  end.

Definition take_old_leaves (filter : bool) (t : TreeKemPublic) (b : ProposalBundle)
    : Result MlsError (TreeKemPublic * list PartialUpdate) :=
  foldM (take_old_step filter) (t, []) (imap pair (zip (updates b) (update_senders b))).

(** What the loop over the updates accumulates. *)
Record UpdateState := {
  us_tree : TreeKemPublic;
  removed_leaves : list LeafNode;
  updated_indices : list Z;
  bad_indices : list nat;
}.

Definition insert_leaves (ns : NodeVec) (l : list (LeafNode * Z)) : Result MlsError NodeVec :=
  foldM (λ ns '(leaf, i), insert_leaf ns i leaf) ns l.

(** The new leaves go in one by one; an update that cannot be applied is undone,
    and one that can neither be applied nor undone ends the loop with all updates
    reverted. *)
Fixpoint apply_updates (filter : bool) (index_clone : TreeIndex.t) (s : UpdateState) (l : list PartialUpdate)
    : Result MlsError UpdateState :=
  match l with
  | [] => Ok s
  | u :: l =>
      let t := us_tree s in
      let '(res, ti) := TreeIndex.index_insert (index t) (pu_new u) (pu_index u) ip ext in
      let t := with_index t ti in
      _ ← (if filter then Ok tt else res);
      if is_ok res then
        ns ← insert_leaf (nodes t) (pu_index u) (pu_new u);
        apply_updates filter index_clone
          {| us_tree := with_nodes t ns; removed_leaves := removed_leaves s ++ [pu_old u];
             updated_indices := updated_indices s ++ [pu_index u]; bad_indices := bad_indices s |} l
      else
        let '(res, ti) := TreeIndex.index_insert (index t) (pu_old u) (pu_index u) ip ext in
        let t := with_index t ti in
        if is_ok res then
          ns ← insert_leaf (nodes t) (pu_index u) (pu_old u);
          apply_updates filter index_clone
            {| us_tree := with_nodes t ns; removed_leaves := removed_leaves s;
               updated_indices := updated_indices s; bad_indices := bad_indices s ++ [pu_pos u] |} l
        else
          ns ← insert_leaves (nodes t) (zip (removed_leaves s) (updated_indices s));
          Ok {| us_tree := with_nodes (with_index t index_clone) ns; removed_leaves := removed_leaves s;
                updated_indices := []; bad_indices := bad_indices s |}
  end.

(** Rejected updates leave the bundle. *)
Definition drop_updates (b : ProposalBundle) (s : UpdateState) : ProposalBundle :=
  match updated_indices s with
  | [] => set_updates [] (update_senders b) b
  | _ => foldl (λ b i, set_updates (vec_remove (updates b) i) (vec_remove (update_senders b) i) b)
           b (rev (bad_indices s))
  end.

Definition add_step (filter : bool) (additions : list (ProposalInfo KeyPackage))
    (s : TreeKemPublic * Z * list Z * list nat) (i : nat)
    : Result MlsError (TreeKemPublic * Z * list Z * list nat) :=
  let '(t, start, added, bad) := s in
  p ← unwrap (additions !! i);
  let '(res, t) := add_leaf t (kp_leaf_node (proposal p)) (Some start) in
  match res with
  | Ok i => Ok (t, i, added ++ [i], bad)
  | _ => if is_by_value p || negb filter then _ ← res; Ok (t, start, added, bad)
         else match res with
              | Err _ => Ok (t, start, added, bad ++ [i])
              | _ => _ ← res; Ok (t, start, added, bad)
              end
  end.

Definition apply_adds (filter : bool) (t : TreeKemPublic) (b : ProposalBundle)
    : Result MlsError (TreeKemPublic * list Z * ProposalBundle) :=
  '(t, _, added, bad) ← foldM (add_step filter (additions b)) (t, 0, [], []) (seq 0 (length (additions b)));
  Ok (t, added, foldl (λ b i, set_additions (vec_remove (additions b) i) b) b (rev bad)).

Definition batch_edit (csp : CipherSuiteProvider) (filter : bool) (t : TreeKemPublic) (b : ProposalBundle)
    : Result MlsError (TreeKemPublic * ProposalBundle * list Z) :=
  '(t, b) ← apply_removes filter t b;
  '(t, partial) ← take_old_leaves filter t b;
  s ← apply_updates filter (index t)
        {| us_tree := t; removed_leaves := []; updated_indices := []; bad_indices := [] |} partial;
  let t := us_tree s in
  ns ← foldM blank_direct_path (nodes t) (updated_indices s);
  let t := with_nodes t ns in
  let b := drop_updates b s in
  '(t, added, b) ← apply_adds filter t b;
  let t := with_nodes t (trim (nodes t)) in
  let updated_leaves := (proposal <$> removals b) ++ updated_indices s ++ added in
  t ← TreeHash.update_hashes csp t updated_leaves;
  Ok (t, b, added).

(** ** [apply_update_path] *)
Definition update_path_nodes (t : TreeKemPublic) (keys : list (option bytes)) (path : list TreeMath.CopathNode)
    : Result MlsError TreeKemPublic :=
  foldM (λ t '(k, c), match k with Some pk => update_node t pk (TreeMath.path c) | None => Ok t end)
    t (zip keys path).

Definition apply_update_path (csp : CipherSuiteProvider) (t : TreeKemPublic) (sender : Z)
    (leaf_node : LeafNode) (path_keys : list (option bytes)) : Result MlsError TreeKemPublic :=
  i ← validate_index (nodes t) (node_index sender);
  n ← ok_or (vec_get (nodes t) i) (InvalidNodeIndex (node_index sender));
  original_leaf_node ← as_leaf n;
  original_identity ← identity (signing_identity original_leaf_node) ip ext;
  let t := with_nodes t (vec_set (nodes t) i (Some (Leaf leaf_node))) in
  let path := direct_copath (nodes t) sender in
  t ← update_path_nodes t path_keys path;
  let t := with_index t (TreeIndex.remove (index t) original_leaf_node original_identity) in
  let '(r, ti) := TreeIndex.index_insert (index t) leaf_node sender ip ext in
  _ ← r;
  let t := with_index t ti in
  update_parent_hashes csp t sender true.

End provider.

(** ** The tree and its roster *)

(** The identity the provider gives a leaf. *)
Definition ident (ip : IdentityProvider) (ext : ExtensionList.t) (l : LeafNode) : bytes :=
  match ip_identity ip (signing_identity l) ext with inr b => b | inl _ => [] end.

Lemma identity_ok ip ext l id :
  identity (signing_identity l) ip ext = Ok id → id = ident ip ext l.
Proof. unfold identity, ident. destruct (ip_identity _ _ _); [done|]. by intros [= <-]. Qed.

Lemma identity_settled ip ext s : settled (identity s ip ext).
Proof. unfold identity. by destruct (ip_identity _ _ _). Qed.

Definition max_len : Z := 2 ^ 31.

(** The array holds exactly the leaves of [R]; the index represents [R]. *)
Record inv (ip : IdentityProvider) (ext : ExtensionList.t) (t : TreeKemPublic) (R : gmap Z LeafNode) : Prop := {
  inv_len : len (nodes t) < max_len;
  inv_parity : parity (nodes t);
  inv_ends : ends_in_leaf (nodes t);
  inv_roster i : 0 ≤ i → leaf_at (nodes t) i = R !! i;
  inv_keys i l : R !! i = Some l → 0 ≤ i;
  inv_index : TreeIndex.represents (ident ip ext) R (index t);
}.

Lemma leaf_at_node nodes i l :
  parity nodes → leaf_at nodes i = Some l ↔ node_at nodes (2 * i) = Some (Leaf l).
Proof. intros Hp. unfold leaf_at. destruct (node_at nodes (2 * i)) as [[]|]; naive_solver. Qed.

Lemma leaf_at_None nodes i : parity nodes → leaf_at nodes i = None ↔ node_at nodes (2 * i) = None.
Proof.
  intros Hp. unfold leaf_at. specialize (Hp (2 * i)). rewrite Z.even_mul in Hp.
  destruct (node_at nodes (2 * i)) as [[]|]; naive_solver.
Qed.

Lemma inv_range ip ext t R i l : inv ip ext t R → R !! i = Some l → 0 ≤ i < 2 ^ 30 ∧ 2 * i < len (nodes t).
Proof.
  intros [Hl Hp _ Hr Hk _] Hi. pose proof (Hk i l Hi). rewrite <- (Hr i) in Hi by done.
  apply leaf_at_node in Hi; [|done]. apply node_at_range in Hi. unfold max_len in Hl. lia.
Qed.

Lemma inv_fits ip ext t R : inv ip ext t R → fits (nodes t).
Proof. intros [Hl _ _ _ _ _]. unfold fits, max_len in *. lia. Qed.

Lemma size_bound (R : gmap Z LeafNode) n : (∀ i l, R !! i = Some l → 0 ≤ i < n) → Z.of_nat (size R) ≤ Z.max 0 n.
Proof.
  intros H. rewrite <- size_dom.
  assert (dom R ⊆ list_to_set (C := gset Z) (seqZ 0 n)) as Hs%subseteq_size.
  { intros i [l Hl]%elem_of_dom. apply elem_of_list_to_set, elem_of_seqZ. specialize (H i l Hl). lia. }
  rewrite size_list_to_set in Hs by apply NoDup_seqZ. rewrite length_seqZ in Hs. lia.
Qed.

Lemma inv_size ip ext t R : inv ip ext t R → Z.of_nat (size R) < 2 ^ 32 - 1.
Proof.
  intros Hi. pose proof (size_bound R (2 ^ 30)) as H.
  assert (Z.of_nat (size R) ≤ Z.max 0 (2 ^ 30)); [|lia]. apply H. intros i l Hl. by eapply inv_range.
Qed.

(** ** Differences between trees *)
Lemma differ_above_trans a b c L1 L2 :
  TreeHash.differ_above a b L1 → TreeHash.differ_above b c L2 → TreeHash.differ_above a c (L1 ++ L2).
Proof.
  intros H1 H2 k j Hk Hj Hne.
  destruct (decide (node_at a (TreeMath.node k j) = node_at b (TreeMath.node k j))) as [E|E].
  - rewrite E in Hne. destruct (H2 k j Hk Hj Hne) as (l & Hl & ?). exists l. split; [apply elem_of_app; by right|done].
  - destruct (H1 k j Hk Hj E) as (l & Hl & ?). exists l. split; [apply elem_of_app; by left|done].
Qed.

Lemma differ_above_mono a b L1 L2 :
  (∀ l, l ∈ L1 → l ∈ L2) → TreeHash.differ_above a b L1 → TreeHash.differ_above a b L2.
Proof. intros Hs H k j Hk Hj Hne. destruct (H k j Hk Hj Hne) as (l & Hl & ?). eauto. Qed.

Lemma differ_above_refl a L : TreeHash.differ_above a a L.
Proof. intros k j _ _ H. by destruct H. Qed.

Lemma differ_above_path a b i :
  0 ≤ i → (∀ x, node_at a x ≠ node_at b x → x = 2 * i ∨ ancestor i x) → TreeHash.differ_above a b [i].
Proof.
  intros Hi H k j Hk Hj Hne. exists i. split; [left|]. destruct (H _ Hne) as [E|(p & Hp & E)].
  - assert (k = 0) as ->.
    { apply (f_equal Z.even) in E. rewrite even_node, Z.even_mul in E by lia. cbn in E. lia. }
    rewrite TreeMath.node_0 in E. rewrite Z.div_1_r. lia.
  - apply TreeMath.node_inj in E as [-> ->]; [done|lia|lia|lia|]. apply Z.div_pos; [lia|apply pow2_pos; lia].
Qed.

(** Populated trees stay so while no leaf is emptied and no parent is filled. *)
Lemma populated_mono a b :
  (∀ i, 0 ≤ i → is_Some (node_at a (2 * i)) → is_Some (node_at b (2 * i))) →
  (∀ k j, 0 ≤ k → 0 ≤ j → is_Some (node_at b (TreeMath.node (k + 1) j)) → is_Some (node_at a (TreeMath.node (k + 1) j))) →
  populated a → populated b.
Proof.
  intros Hl Hp Ha k j Hk Hj Hs. destruct (Ha k j Hk Hj (Hp k j Hk Hj Hs)) as [(x & ? & ? & ?) (y & ? & ? & ?)].
  split; [exists x|exists y]; eauto.
Qed.

(** Parents are blanked or left alone, and those above the leaves [L] are blank. *)
Definition cleared (a b : NodeVec) (L : list Z) : Prop :=
  (∀ x, Z.even x = false → node_at b x = None ∨ node_at b x = node_at a x) ∧
  (∀ i x, i ∈ L → 0 ≤ i → ancestor i x → node_at b x = None).

Lemma cleared_refl a : cleared a a [].
Proof. split; [by right|]. intros i x Hi. by apply elem_of_nil in Hi. Qed.

Lemma cleared_trans a b c L1 L2 : cleared a b L1 → cleared b c L2 → cleared a c (L1 ++ L2).
Proof.
  intros [H1 H2] [H3 H4]. split.
  - intros x Hx. destruct (H3 x Hx) as [|E]; [by left|]. rewrite E. by apply H1.
  - intros i x [Hi|Hi]%elem_of_app H0 Ha; [|by eapply H4].
    destruct (H3 x) as [|E]; [by eapply ancestor_odd|done|]. rewrite E. by eapply H2.
Qed.

Lemma cleared_mono a b L1 L2 : (∀ l, l ∈ L2 → l ∈ L1) → cleared a b L1 → cleared a b L2.
Proof. intros Hs [H1 H2]. split; [done|]. intros i x Hi. by apply H2, Hs. Qed.

(** Blanking parents keeps the unmerged leaves in order, as long as the leaves that
    are taken out have their ancestors blanked. *)
Lemma unmerged_cleared a b L :
  parity b → cleared a b L → (∀ i, is_Some (leaf_at a i) → is_Some (leaf_at b i) ∨ i ∈ L) →
  unmerged_ok a → unmerged_ok b.
Proof.
  intros Hp [Hc1 Hc2] Hl Ha x i (p & Hx & Hi).
  assert (Z.even x = false) as Hodd by (specialize (Hp x); by rewrite Hx in Hp).
  destruct (Hc1 x Hodd) as [E|E]; [congruence|].
  destruct (Ha x i) as (Ho & Hi0 & k & Hk & -> & Hup); [exists p; split; congruence|].
  assert (ancestor i (TreeMath.node k (i / 2 ^ k))) as Hanc by by exists k.
  split_and!; [|done|].
  - destruct (Hl i Ho) as [|Hin]; [done|]. rewrite (Hc2 i _ Hin Hi0 Hanc) in Hx. done.
  - exists k. split_and!; [done..|]. intros h Hh y.
    assert (Z.even y = false) as Hy by (apply (ancestor_odd i); [done|]; exists h; split; [lia|done]).
    destruct (Hc1 y Hy) as [|E']; [by left|]. destruct (Hup h Hh) as [|(q & Hq & Hiq)].
    + left. by rewrite E'.
    + right. exists q. by rewrite E'.
Qed.

(** ** Applying the proposals of a commit, with errors reported *)
Section strict.
Context (ip : IdentityProvider) (ext : ExtensionList.t).

(** A step of the edit: the roster it leads to, and the leaves above which the
    tree may have changed. *)
Definition edited (t0 : TreeKemPublic) (t : TreeKemPublic) (R : gmap Z LeafNode) (L : list Z) : Prop :=
  inv ip ext t R ∧ TreeHash.differ_above (nodes t0) (nodes t) L ∧ tree_hashes t = tree_hashes t0 ∧
  len (nodes t) = len (nodes t0).

Lemma index_remove_inv ti R i l id :
  TreeIndex.represents (ident ip ext) R ti → Z.of_nat (size R) < 2 ^ 32 - 1 → R !! i = Some l →
  identity (signing_identity l) ip ext = Ok id →
  TreeIndex.represents (ident ip ext) (delete i R) (TreeIndex.remove ti l id).
Proof.
  intros Hr Hs Hi Hid. apply identity_ok in Hid as ->. apply TreeIndex.remove_represents; [done|lia|done].
Qed.

Lemma delete_keys (R : gmap Z LeafNode) i j l : delete i R !! j = Some l → R !! j = Some l.
Proof. intros [_ H]%lookup_delete_Some. done. Qed.

(** Blanking a leaf together with any set of parents. *)
Lemma inv_blank t R x ns ti :
  inv ip ext t R → 0 ≤ x → len ns = len (nodes t) →
  (∀ i, node_at ns i = None ∨ node_at ns i = node_at (nodes t) i) →
  node_at ns (2 * x) = None →
  (∀ i, i ≠ x → node_at ns (2 * i) = node_at (nodes t) (2 * i)) →
  TreeIndex.represents (ident ip ext) (delete x R) ti →
  inv ip ext {| index := ti; nodes := ns; tree_hashes := tree_hashes t |} (delete x R).
Proof.
  intros [Hl Hp He Hr Hk Hi] Hx Hlen Hsub Hbl Hoth Hti. split; cbn [nodes index].
  - by rewrite Hlen.
  - intros i. specialize (Hp i). by destruct (Hsub i) as [-> | ->].
  - unfold ends_in_leaf in *. by rewrite Hlen.
  - intros i Hi0. destruct (decide (i = x)) as [->|Hne].
    + rewrite lookup_delete_eq. unfold leaf_at. by rewrite Hbl.
    + rewrite lookup_delete_ne by done. rewrite <- Hr by done. unfold leaf_at. by rewrite Hoth.
  - intros i l Hil. eapply Hk. by eapply delete_keys.
  - done.
Qed.

Lemma remove_step_strict t R b i p :
  inv ip ext t R → populated (nodes t) → removals b !! i = Some p → 0 ≤ proposal p < 2 ^ 31 →
  post (λ '(t', b'), b' = b ∧ is_Some (R !! proposal p) ∧ populated (nodes t') ∧
          edited t t' (delete (proposal p) R) [proposal p] ∧ cleared (nodes t) (nodes t') [proposal p])
    (remove_step ip ext false (t, b) i).
Proof.
  intros Hinv Hpop Hp Hx. pose proof Hinv as [Hl Hpar He Hr Hk Hi]. set (x := proposal p) in *.
  unfold remove_step. rewrite Hp. cbn [unwrap mbind result_bind]. fold x.
  destruct (blank_leaf_node (nodes t) x) as [[l|e| |] ns] eqn:Eb; cbn [is_ok];
    [|by rewrite orb_true_r|by unfold blank_leaf_node, validate_index in Eb; repeat case_match; congruence..].
  apply blank_leaf_node_ok in Eb as (Hat & Hlen & Hns); [|done].
  assert (fits ns) as Hf by (pose proof (inv_fits _ _ _ _ Hinv); unfold fits in *; by rewrite Hlen).
  pose proof (node_at_range _ _ _ Hat) as Hrg.
  destruct (blank_direct_path_spec ns x Hf) as (ns' & Hbd & Hlen' & Hns').
  { split; [lia|]. apply leaf_in_tree; [done|lia|lia]. }
  rewrite Hbd. cbn [mbind result_bind].
  assert (R !! x = Some l) as HR by (rewrite <- Hr by lia; by apply leaf_at_node).
  pose proof (identity_settled ip ext (signing_identity l)) as Hset.
  destruct (identity (signing_identity l) ip ext) as [id| | |] eqn:Hid; [|done..]. rewrite orb_true_r. cbn.
  assert (∀ i, node_at ns' i = None ∨ node_at ns' i = node_at (nodes t) i) as Hsub.
  { intros j. destruct (decide (node_at ns' j = None)) as [|Hn]; [by left|right].
    destruct (Hns' j) as [H1 H2]. rewrite H2; [|intros Ha; by apply Hn, H1]. rewrite Hns.
    destruct (Z.eqb_spec j (2 * x)) as [->|]; [|done]. exfalso. apply Hn.
    rewrite H2; [rewrite Hns, Z.eqb_refl; done|]. intros Ha. by apply Hn, H1. }
  assert (∀ j, ¬ ancestor x (2 * j)) as Hev.
  { intros j Ha. apply ancestor_odd in Ha; [|lia]. by rewrite Z.even_mul in Ha. }
  split_and!; [done|by rewrite HR| | |split; [intros; apply Hsub|by intros i' x' ->%list_elem_of_singleton _ Ha; apply Hns']].
  - apply (populated_blank (nodes t) ns' x); [lia| |done]. intros j. split.
    + intros [Ha| ->]; [by apply Hns'|]. rewrite (proj2 (Hns' (2 * x)) (Hev x)), Hns, Z.eqb_refl. done.
    + intros Hna Hne. rewrite (proj2 (Hns' j) Hna), Hns. by rewrite (proj2 (Z.eqb_neq _ _)).
  - split_and!; [|apply differ_above_path; [lia|]|done|cbn; lia].
    + apply (inv_blank t R x ns'); try done; [lia|lia| | |].
      * rewrite (proj2 (Hns' (2 * x)) (Hev x)), Hns, Z.eqb_refl. done.
      * intros j Hj. rewrite (proj2 (Hns' (2 * j)) (Hev j)), Hns. rewrite (proj2 (Z.eqb_neq _ _)); [done|lia].
      * by apply (index_remove_inv _ _ _ _ _ Hi (inv_size _ _ _ _ Hinv) HR).
    + cbn. intros j Hne. destruct (Z.eqb_spec j (2 * x)); [by left|right].
      destruct (ancestor_em x j) as [|Hna]; [lia|done|]. destruct Hne.
      by rewrite (proj2 (Hns' j) Hna), Hns, (proj2 (Z.eqb_neq _ _)).
Qed.

(** Removing a list of members, the last one first. *)
Definition without (xs : list Z) (R : gmap Z LeafNode) : gmap Z LeafNode := foldr delete R xs.

Lemma edited_trans t0 t1 t2 R1 R2 L1 L2 :
  edited t0 t1 R1 L1 → edited t1 t2 R2 L2 → edited t0 t2 R2 (L1 ++ L2).
Proof.
  intros (_ & H1 & H2 & H3) (H4 & H5 & H6 & H7). split_and!; [done|by eapply differ_above_trans|congruence|congruence].
Qed.

Lemma edited_mono t0 t R L1 L2 : (∀ l, l ∈ L1 → l ∈ L2) → edited t0 t R L1 → edited t0 t R L2.
Proof. intros Hs (H1 & H2 & H3 & H4). split_and!; try done. by eapply differ_above_mono. Qed.

Lemma apply_removes_loop b n t R :
  (n ≤ length (removals b))%nat → inv ip ext t R → populated (nodes t) →
  Forall (λ p : ProposalInfo Z, 0 ≤ proposal p < 2 ^ 31) (removals b) →
  let xs := take n (proposal <$> removals b) in
  post (λ '(t', b'), b' = b ∧ populated (nodes t') ∧ edited t t' (without xs R) xs ∧
          cleared (nodes t) (nodes t') xs ∧ NoDup xs ∧ ∀ x, x ∈ xs → is_Some (R !! x))
    (foldM (remove_step ip ext false) (t, b) (rev (seq 0 n))).
Proof.
  intros Hn Hinv Hpop Hrange xs. revert t R Hn Hinv Hpop xs. induction n as [|n IH]; intros t R Hn Hinv Hpop xs.
  { cbn. split_and!; [done|done|split_and!; try done; apply differ_above_refl|apply cleared_refl|constructor|intros x Hx; by apply elem_of_nil in Hx]. }
  destruct (lookup_lt_is_Some_2 (removals b) n) as [p Hp]; [lia|].
  assert (xs = take n (proposal <$> removals b) ++ [proposal p]) as Hxs.
  { unfold xs. apply take_S_r. by rewrite list_lookup_fmap, Hp. }
  assert (0 ≤ proposal p < 2 ^ 31) as Hr by exact (Forall_lookup_1 _ _ _ _ Hrange Hp).
  rewrite seq_S, rev_app_distr. cbn [rev app foldM Nat.add].
  eapply post_bind; [by apply (remove_step_strict t R b n p)|].
  intros [t1 b1] _ (-> & HS & Hpop1 & Hed1 & Hcl1). pose proof Hed1 as (Hinv1 & _ & _ & _).
  eapply post_mono; [|apply (IH t1 (delete (proposal p) R)); [lia|done|done]].
  intros [t2 b2] (-> & Hpop2 & Hed2 & Hcl2 & Hnd & Hall). cbv beta in Hed2, Hcl2, Hnd, Hall.
  split_and!; [done|done| |rewrite Hxs; eapply cleared_mono; [|by eapply cleared_trans]; set_solver| |].
  - rewrite Hxs. unfold without in *. rewrite foldr_app. cbn [foldr].
    eapply edited_mono; [|eapply edited_trans; [exact Hed1|exact Hed2]]. set_solver.
  - rewrite Hxs. apply NoDup_app. split_and!; [done| |apply NoDup_singleton].
    intros x Hx ->%list_elem_of_singleton. specialize (Hall _ Hx). rewrite lookup_delete_eq in Hall. by destruct Hall.
  - intros x. rewrite Hxs, elem_of_app. intros [Hx| ->%list_elem_of_singleton]; [|done].
    destruct (Hall x Hx) as [l Hl]. apply delete_keys in Hl. by exists l.
Qed.

Lemma apply_removes_strict b t R :
  inv ip ext t R → populated (nodes t) →
  Forall (λ p : ProposalInfo Z, 0 ≤ proposal p < 2 ^ 31) (removals b) →
  let xs := proposal <$> removals b in
  post (λ '(t', b'), b' = b ∧ populated (nodes t') ∧ edited t t' (without xs R) xs ∧
          cleared (nodes t) (nodes t') xs ∧ NoDup xs ∧ ∀ x, x ∈ xs → is_Some (R !! x)) (apply_removes ip ext false t b).
Proof.
  intros Hinv Hpop Hr xs. pose proof (apply_removes_loop b (length (removals b)) t R) as H. cbv zeta in H.
  rewrite take_ge in H by (by rewrite length_fmap). by apply H.
Qed.

(** ** Updates *)

(** Parents are left alone. *)
Definition same_parents (a b : NodeVec) : Prop := ∀ x, Z.even x = false → node_at a x = node_at b x.

Lemma take_old_step_strict t R acc pos (p : ProposalInfo LeafNode) i :
  inv ip ext t R → 0 ≤ i < 2 ^ 31 →
  post (λ '(t', acc'), ∃ old, R !! i = Some old ∧
          acc' = acc ++ [{| pu_index := i; pu_old := old; pu_new := proposal p; pu_pos := pos |}] ∧
          edited t t' (delete i R) [i] ∧ same_parents (nodes t) (nodes t'))
    (take_old_step ip ext false (t, acc) (pos, (p, i))).
Proof.
  intros Hinv Hi. pose proof Hinv as [Hl Hpar He Hr Hk Hidx]. unfold take_old_step.
  destruct (blank_leaf_node (nodes t) i) as [[l|e| |] ns] eqn:Eb; cbn [negb orb]; [|done..].
  apply blank_leaf_node_ok in Eb as (Hat & Hlen & Hns); [|done].
  assert (R !! i = Some l) as HR by (rewrite <- Hr by lia; by apply leaf_at_node).
  pose proof (identity_settled ip ext (signing_identity l)) as Hset.
  destruct (identity (signing_identity l) ip ext) as [id| | |] eqn:Hid; [|done..]. cbn.
  exists l. split_and!; [done|done| |].
  - split_and!; [|apply differ_above_path; [lia|]|done|done].
    + apply (inv_blank t R i ns); try done; [lia| | | |].
      * intros j. rewrite Hns. destruct (j =? 2 * i); [by left|by right].
      * by rewrite Hns, Z.eqb_refl.
      * intros j Hj. rewrite Hns. rewrite (proj2 (Z.eqb_neq _ _)); [done|lia].
      * by apply (index_remove_inv _ _ _ _ _ Hidx (inv_size _ _ _ _ Hinv) HR).
    + cbn. intros j Hne. left. rewrite Hns in Hne. by destruct (Z.eqb_spec j (2 * i)).
  - intros x Hx. cbn. rewrite Hns. destruct (Z.eqb_spec x (2 * i)) as [->|]; [by rewrite Z.even_mul in Hx|done].
Qed.

(** The leaves that come out, with the proposals that replace them. *)
Definition partial_of (R : gmap Z LeafNode) (l : list PartialUpdate) : Prop :=
  NoDup (pu_index <$> l) ∧ ∀ u, u ∈ l → R !! pu_index u = Some (pu_old u).

Lemma take_old_loop R xs t0 t acc R1 :
  edited t0 t R1 (pu_index <$> acc) → R1 = without (rev (pu_index <$> acc)) R → partial_of R acc →
  same_parents (nodes t0) (nodes t) → Forall (λ x : nat * (ProposalInfo LeafNode * Z), 0 ≤ x.2.2 < 2 ^ 31) xs →
  post (λ '(t', acc'), edited t0 t' (without (rev (pu_index <$> acc')) R) (pu_index <$> acc') ∧
          partial_of R acc' ∧ same_parents (nodes t0) (nodes t') ∧
          (λ u, (pu_index u, pu_new u)) <$> acc' =
            ((λ u, (pu_index u, pu_new u)) <$> acc) ++ ((λ x, (x.2.2, proposal x.2.1)) <$> xs))
    (foldM (take_old_step ip ext false) (t, acc) xs).
Proof.
  revert t acc R1. induction xs as [|[pos [p i]] xs IH]; intros t acc R1 Hed HR1 Hpart Hsame Hrg; cbn [foldM].
  { cbn. subst R1. split_and!; try done. by rewrite app_nil_r. }
  apply Forall_cons in Hrg as [Hi Hrg]. cbn in Hi. pose proof Hed as (Hinv & _ & _ & _).
  eapply post_bind; [by apply (take_old_step_strict t R1 acc pos p i)|].
  intros [t1 acc1] _ (old & Hold & -> & Hed1 & Hsame1).
  set (u := {| pu_index := i; pu_old := old; pu_new := proposal p; pu_pos := pos |}).
  assert (R !! i = Some old ∧ i ∉ pu_index <$> acc) as [HRi Hni].
  { subst R1. clear -Hold. revert Hold. unfold without.
    induction (pu_index <$> acc) as [|x l IH] using rev_ind; [intros; split; [done|apply not_elem_of_nil]|].
    rewrite rev_app_distr. cbn [rev app foldr]. intros [Hne H]%lookup_delete_Some. apply IH in H as [H1 H2]. split; [done|]. set_solver. }
  eapply post_mono; [|apply (IH t1 (acc ++ [u]) (delete i R1))].
  - intros [t2 acc2] (H1 & H2 & H3 & H4). split_and!; try done. rewrite H4, fmap_app, <- app_assoc. done.
  - rewrite fmap_app. by eapply edited_trans.
  - subst R1. rewrite fmap_app, rev_app_distr. done.
  - destruct Hpart as [Hnd Hall]. split.
    + rewrite fmap_app. apply NoDup_app. split_and!; [done| |apply NoDup_singleton].
      intros x Hx ->%list_elem_of_singleton. done.
    + intros v [Hv| ->%list_elem_of_singleton]%elem_of_app; [by apply Hall|done].
  - intros x Hx. rewrite Hsame by done. by apply Hsame1.
  - done.
Qed.

Lemma index_insert_cases ti R i l :
  TreeIndex.represents (ident ip ext) R ti → R !! i = None → Z.of_nat (size R) < 2 ^ 32 - 1 →
  (∃ ti', TreeIndex.index_insert ti l i ip ext = (Ok tt, ti') ∧
     TreeIndex.compatible (ident ip ext) R l ∧ TreeIndex.represents (ident ip ext) (<[i := l]> R) ti') ∨
  (∃ e ti', TreeIndex.index_insert ti l i ip ext = (Err e, ti') ∧ TreeIndex.represents (ident ip ext) R ti' ∧
     (TreeIndex.compatible (ident ip ext) R l → is_ok (identity (signing_identity l) ip ext) = false)).
Proof.
  intros Hr Hi Hs. unfold TreeIndex.index_insert. pose proof (identity_settled ip ext (signing_identity l)) as Hset.
  destruct (identity (signing_identity l) ip ext) as [id|e| |] eqn:Hid; [|right; by eexists _, _|done..].
  apply identity_ok in Hid as ->. destruct (TreeIndex.insert_cases (ident ip ext) R ti i l Hr Hi Hs) as [(Hc & ti' & H1 & H2)|(Hc & e & ti' & H1 & H2)].
  - left. by exists ti'.
  - right. by exists e, ti'.
Qed.

Lemma inv_insert t R i l ns ti hs :
  inv ip ext t R → 0 ≤ i → len ns < max_len → ends_in_leaf ns → parity ns →
  node_at ns (2 * i) = Some (Leaf l) → (∀ j, j ≠ i → node_at ns (2 * j) = node_at (nodes t) (2 * j)) →
  TreeIndex.represents (ident ip ext) (<[i := l]> R) ti →
  inv ip ext {| index := ti; nodes := ns; tree_hashes := hs |} (<[i := l]> R).
Proof.
  intros [Hl Hp He Hr Hk Hidx] Hi Hlen Hends Hpar Hat Hoth Hti. split; cbn [nodes index]; try done.
  - intros j Hj. destruct (decide (j = i)) as [->|Hne].
    + rewrite lookup_insert_eq. unfold leaf_at. by rewrite Hat.
    + rewrite lookup_insert_ne by done. rewrite <- Hr by done. unfold leaf_at. by rewrite Hoth.
  - intros j k Hjk. destruct (decide (j = i)) as [->|Hne]; [done|]. rewrite lookup_insert_ne in Hjk by done. by eapply Hk.
Qed.

(** Putting a leaf in a place that is free. *)
Lemma insert_leaf_inv t R i l ti :
  inv ip ext t R → R !! i = None → 0 ≤ i → 2 * i < len (nodes t) →
  TreeIndex.represents (ident ip ext) (<[i := l]> R) ti →
  ∃ ns, insert_leaf (nodes t) i l = Ok ns ∧ same_parents (nodes t) ns ∧
    edited t {| index := ti; nodes := ns; tree_hashes := tree_hashes t |} (<[i := l]> R) [i].
Proof.
  intros Hinv Hn Hi Hlt Hti. pose proof Hinv as [Hl Hp He _ _ _].
  destruct (insert_leaf_spec (nodes t) i l Hi He) as (ns & Hns & Hlen & Hends & Hat); [lia|].
  exists ns. split_and!; [done| |].
  - intros x Hx. rewrite Hat. destruct (Z.eqb_spec x (2 * i)) as [->|]; [by rewrite Z.even_mul in Hx|done].
  - assert (len ns = len (nodes t)) as Hlen' by lia. split_and!; [|apply differ_above_path; [done|]|done|done].
    + apply (inv_insert t R); try done; [by rewrite Hlen'|by eapply insert_leaf_parity|by rewrite Hat, Z.eqb_refl|].
      intros j Hj. rewrite Hat, (proj2 (Z.eqb_neq _ _)); [done|lia].
    + cbn. intros x Hne. left. rewrite Hat in Hne. by destruct (Z.eqb_spec x (2 * i)).
Qed.

Definition with_updates (R : gmap Z LeafNode) (l : list (Z * LeafNode)) : gmap Z LeafNode :=
  foldl (λ R u, <[u.1 := u.2]> R) R l.

Lemma apply_updates_strict clone l : ∀ s R,
  inv ip ext (us_tree s) R → NoDup (pu_index <$> l) →
  (∀ u, u ∈ l → R !! pu_index u = None ∧ 0 ≤ pu_index u ∧ 2 * pu_index u < len (nodes (us_tree s))) →
  post (λ s', edited (us_tree s) (us_tree s')
                (with_updates R ((λ u, (pu_index u, pu_new u)) <$> l)) (pu_index <$> l) ∧
          same_parents (nodes (us_tree s)) (nodes (us_tree s')) ∧
          updated_indices s' = updated_indices s ++ (pu_index <$> l) ∧ bad_indices s' = bad_indices s)
    (apply_updates ip ext false clone s l).
Proof.
  induction l as [|u l IH]; intros s R Hinv Hnd Hfree; cbn [apply_updates].
  { cbn. split_and!; [split_and!; try done; apply differ_above_refl|done|by rewrite app_nil_r|done]. }
  apply NoDup_cons in Hnd as [Hu Hnd]. destruct (Hfree u) as (HR & Hu0 & Hult); [left|].
  destruct (index_insert_cases (index (us_tree s)) R (pu_index u) (pu_new u)) as [(ti & -> & _ & Hrep)|(e & ti & -> & _)];
    [by apply Hinv|done|by eapply inv_size| |done].
  cbn [is_ok mbind result_bind].
  destruct (insert_leaf_inv (us_tree s) R (pu_index u) (pu_new u) ti Hinv HR Hu0 Hult Hrep) as (ns & Hns & Hsame & Hed).
  cbn [with_index nodes]. rewrite Hns. cbn [mbind result_bind].
  match goal with |- post _ (apply_updates _ _ _ _ ?s1 _) => set (s1' := s1) end. pose proof Hed as (Hinv1 & _ & _ & Hlen1).
  eapply post_mono; [|apply (IH s1' (<[pu_index u := pu_new u]> R)); [exact Hinv1|done|]].
  - intros s2 (H1 & H2 & H3 & H4). split_and!.
    + cbn [fmap list_fmap with_updates foldl fst snd]. by apply (edited_trans _ (us_tree s1') _ (<[pu_index u:=pu_new u]> R) _ [pu_index u]).
    + intros x Hx. rewrite Hsame by done. by apply H2.
    + rewrite H3. cbn. by rewrite <- app_assoc.
    + done.
  - intros v Hv. destruct (Hfree v) as (? & ? & ?); [by right|]. split_and!; [|done|cbn in *; lia].
    rewrite lookup_insert_ne; [done|]. intros E. apply Hu. rewrite E. apply list_elem_of_fmap. eauto.
Qed.

(** Blanking the direct paths of leaves touches parents only. *)
Lemma blank_paths_strict L : ∀ ns,
  fits ns → Forall (λ i, 0 ≤ i ∧ 2 * i < len ns) L →
  ∃ ns', foldM blank_direct_path ns L = Ok ns' ∧ len ns' = len ns ∧
    (∀ x, Z.even x = true → node_at ns' x = node_at ns x) ∧
    cleared ns ns' L ∧ TreeHash.differ_above ns ns' L.
Proof.
  induction L as [|i L IH]; intros ns Hf HL; cbn [foldM].
  { exists ns. split_and!; try done; [apply cleared_refl|apply differ_above_refl]. }
  apply Forall_cons in HL as [[Hi Hlt] HL].
  destruct (blank_direct_path_spec ns i Hf) as (ns1 & -> & Hlen1 & Hns1); [split; [done|by apply leaf_in_tree]|].
  cbn [mbind result_bind]. destruct (IH ns1) as (ns2 & H1 & H2 & H3 & H4 & H5);
    [unfold fits in *; lia|by rewrite Hlen1|]. exists ns2. split_and!; [done|lia| | |].
  - intros x Hx. rewrite H3 by done. apply Hns1. intros Ha. apply ancestor_odd in Ha; [congruence|done].
  - apply (cleared_trans ns ns1 ns2 [i] L); [|done]. split.
    + intros x _. destruct (ancestor_em i x Hi); [left|right]; by apply Hns1.
    + intros j x ->%list_elem_of_singleton _ Ha. by apply Hns1.
  - apply (differ_above_trans ns ns1 ns2 [i] L); [|done]. apply differ_above_path; [done|]. intros x Hne.
    destruct (ancestor_em i x Hi) as [|Hna]; [by right|]. destruct Hne. symmetry. by apply Hns1.
Qed.

(** ** Adds *)
Definition push_unmerged (i : Z) (n : option Node) : option Node :=
  match n with
  | Some (ParentNode p) =>
      Some (ParentNode {| parent_public_key := parent_public_key p; parent_parent_hash := parent_parent_hash p;
                          unmerged_leaves := unmerged_leaves p ++ [i] |})
  | n => n
  end.

Lemma borrow_as_parent_mut_at ns x f :
  0 ≤ x →
  let ns' := match borrow_as_parent_mut ns x f with Ok ns' => ns' | _ => ns end in
  len ns' = len ns ∧ ∀ y, node_at ns' y =
    if y =? x then match node_at ns x with Some (ParentNode p) => Some (ParentNode (f p)) | n => n end
    else node_at ns y.
Proof.
  intros Hx. unfold borrow_as_parent_mut.
  assert (∀ y, node_at ns y = if y =? x then node_at ns x else node_at ns y) as Hid.
  { intros y. by destruct (Z.eqb_spec y x) as [->|]. }
  destruct (decide (x < len ns)) as [Hlt|Hge].
  - rewrite validate_index_ok by done. cbn [mbind result_bind]. rewrite vec_get_node_at by lia. cbn [ok_or mbind result_bind].
    destruct (node_at ns x) as [[l|p]|] eqn:E; cbn [as_parent mbind result_bind]; try (split; [reflexivity|exact Hid]).
    split; [apply len_vec_set|]. intros y. by apply node_at_set.
  - rewrite (node_at_None ns x) in * by lia. unfold validate_index. destruct (_ >=? _); cbn; [by split|].
    rewrite (proj2 (vec_get_None ns x)) by lia. by split.
Qed.

Lemma unmerged_fold i cs : ∀ ns,
  NoDup (TreeMath.path <$> cs) → (∀ c, c ∈ cs → 0 ≤ TreeMath.path c) →
  let ns' := foldl (λ ns c,
    match borrow_as_parent_mut ns (TreeMath.path c)
            (λ p, {| parent_public_key := parent_public_key p; parent_parent_hash := parent_parent_hash p;
                     unmerged_leaves := unmerged_leaves p ++ [i] |}) with
    | Ok ns' => ns' | _ => ns end) ns cs in
  len ns' = len ns ∧ ∀ x, node_at ns' x =
    if decide (x ∈ TreeMath.path <$> cs) then push_unmerged i (node_at ns x) else node_at ns x.
Proof.
  induction cs as [|c cs IH]; intros ns Hnd Hpos; cbn [foldl].
  { split; [done|]. intros x. destruct (decide (x ∈ _)) as [H|]; [by apply elem_of_nil in H|done]. }
  cbn [fmap list_fmap] in Hnd. apply NoDup_cons in Hnd as [Hc Hnd].
  destruct (borrow_as_parent_mut_at ns (TreeMath.path c)
    (λ p, {| parent_public_key := parent_public_key p; parent_parent_hash := parent_parent_hash p;
             unmerged_leaves := unmerged_leaves p ++ [i] |})) as [Hlen1 Hat1]; [apply Hpos; left|].
  set (ns1 := match borrow_as_parent_mut ns _ _ with Ok ns' => ns' | _ => ns end) in *.
  destruct (IH ns1 Hnd) as [Hlen Hat]; [intros; apply Hpos; by right|].
  split; [congruence|]. intros x. rewrite Hat, Hat1. cbn [fmap list_fmap].
  destruct (Z.eqb_spec x (TreeMath.path c)) as [->|Hne].
  - destruct (decide (TreeMath.path c ∈ TreeMath.path <$> cs)) as [Hin|_]; [destruct (Hc Hin)|].
    destruct (decide (TreeMath.path c ∈ _ :: _)) as [_|Hn]; [by destruct (node_at ns _) as [[]|]|]. destruct Hn. left.
  - destruct (decide (x ∈ TreeMath.path <$> cs)) as [|Hn], (decide (x ∈ _ :: _)) as [H'|H']; try done.
    + destruct H'. by right.
    + apply elem_of_cons in H' as [|]; done.
Qed.

Lemma copath_spec_NoDup d i : 0 ≤ i → NoDup (TreeMath.path <$> TreeMath.copath_spec d 0 i).
Proof.
  intros Hi. unfold TreeMath.copath_spec. rewrite <- list_fmap_compose. apply NoDup_fmap_2_strong; [|apply NoDup_seq].
  intros x y _ _ E. cbn in E. apply TreeMath.node_inj in E as [E _]; [lia|lia| |lia|];
    (apply Z.div_pos; [done|apply pow2_pos; lia]).
Qed.

(** The new leaf is unmerged at each of its filled ancestors. *)
Lemma update_unmerged_at t i :
  fits (nodes t) → 0 ≤ i → 2 * i < len (nodes t) →
  len (nodes (update_unmerged t i)) = len (nodes t) ∧
  ∀ x, (ancestor i x → node_at (nodes (update_unmerged t i)) x = push_unmerged i (node_at (nodes t) x)) ∧
       (¬ ancestor i x → node_at (nodes (update_unmerged t i)) x = node_at (nodes t) x).
Proof.
  intros Hf Hi Hlt. pose proof (leaf_in_tree _ i Hf Hi Hlt) as Hit.
  pose proof (λ x, direct_copath_path (nodes t) i x Hf (conj Hi Hit)) as Hpath.
  unfold update_unmerged. cbn [nodes with_nodes].
  destruct (unmerged_fold i (direct_copath (nodes t) i) (nodes t)) as [Hlen Hat].
  { rewrite direct_copath_nodes by done. by apply copath_spec_NoDup. }
  { intros c Hc. destruct (proj1 (Hpath (TreeMath.path c))) as (p & Hp & ->); [apply list_elem_of_fmap; eauto|].
    apply TreeMath.node_nonneg; [lia|]. apply Z.div_pos; [done|apply pow2_pos; lia]. }
  split; [done|]. intros x. rewrite Hat. split.
  - intros (p & Hp & ->). destruct (decide _) as [|Hn]; [done|].
    rewrite ancestor_above; [done|done|done|]. apply Z.nle_gt. intros Hle. apply Hn, Hpath. exists p. split; [lia|done].
  - intros Hna. destruct (decide _) as [Hx|]; [|done]. apply Hpath in Hx as (p & Hp & ->).
    destruct Hna. exists p. split; [lia|done].
Qed.

(** Blank parents stay blank. *)
Definition keeps_blank (a b : NodeVec) : Prop :=
  ∀ x, Z.even x = false → node_at a x = None → node_at b x = None.

(** What adding a member does: the leaf goes into the first blank place from
    [start] on, is unmerged at its filled ancestors and nothing else changes. *)
Definition added_at (t t' : TreeKemPublic) (leaf : LeafNode) (i : Z) : Prop :=
  tree_hashes t' = tree_hashes t ∧ len (nodes t) ≤ len (nodes t') ≤ len (nodes t) + 2 ∧
  node_at (nodes t') (2 * i) = Some (Leaf leaf) ∧
  ∀ x, x ≠ 2 * i →
    (ancestor i x → node_at (nodes t') x = push_unmerged i (node_at (nodes t) x)) ∧
    (¬ ancestor i x → node_at (nodes t') x = node_at (nodes t) x).

Lemma push_unmerged_Some i n : is_Some (push_unmerged i n) ↔ is_Some n.
Proof. destruct n as [[]|]; cbn; split; intros [? ?]; done || by eexists. Qed.

Lemma leaf_not_ancestor i j : 0 ≤ i → ¬ ancestor i (2 * j).
Proof. intros Hi Ha. apply ancestor_odd in Ha; [|done]. by rewrite Z.even_mul in Ha. Qed.

Lemma added_at_is_Some t t' leaf i x :
  0 ≤ i → added_at t t' leaf i → x ≠ 2 * i → is_Some (node_at (nodes t') x) ↔ is_Some (node_at (nodes t) x).
Proof.
  intros Hi (_ & _ & _ & H) Hx. destruct (H x Hx) as [H1 H2]. destruct (ancestor_em i x Hi) as [Ha|Ha].
  - rewrite H1 by done. apply push_unmerged_Some.
  - by rewrite H2.
Qed.

Lemma added_at_populated t t' leaf i :
  0 ≤ i → added_at t t' leaf i → populated (nodes t) → populated (nodes t').
Proof.
  intros Hi Hadd. apply populated_mono.
  - intros j _ Hj. destruct (decide (2 * j = 2 * i)) as [E|Hne]; [|by apply (added_at_is_Some t t' leaf i)].
    rewrite E. destruct Hadd as (_ & _ & -> & _). by eexists.
  - intros k j Hk Hj. apply (added_at_is_Some t t' leaf i); [done|done|]. intros E.
    apply (f_equal Z.even) in E. rewrite even_node, Z.even_mul in E by lia. cbn in E. lia.
Qed.

Lemma push_unmerged_lists i z n p :
  push_unmerged i n = Some (ParentNode p) → z ∈ unmerged_leaves p →
  z = i ∨ ∃ q, n = Some (ParentNode q) ∧ z ∈ unmerged_leaves q.
Proof.
  destruct n as [[l|q]|]; [done| |done]. cbn. intros [= <-]. cbn. rewrite elem_of_app, list_elem_of_singleton.
  intros [?|?]; [right; by exists q|by left].
Qed.

(** A new leaf is unmerged all the way up. *)
Lemma unmerged_added t t' leaf i :
  0 ≤ i → parity (nodes t) → leaf_at (nodes t) i = None → added_at t t' leaf i → unmerged_ok (nodes t) → unmerged_ok (nodes t').
Proof.
  intros Hi Hp Hfree (_ & _ & Hat & H) Hok.
  assert (∀ z x, z ≠ i → lists (nodes t) z x → lists (nodes t') z x) as Hkeep.
  { intros z x Hz (q & Hq & Hin). destruct (decide (x = 2 * i)) as [->|Hx].
    { specialize (Hp (2 * i)). rewrite Hq, Z.even_mul in Hp. done. }
    destruct (ancestor_em i x Hi) as [Ha|Ha]; [|exists q; by rewrite (proj2 (H x Hx) Ha)].
    eexists. rewrite (proj1 (H x Hx) Ha), Hq. split; [done|]. cbn. apply elem_of_app. by left. }
  assert (∀ z h, 0 ≤ z → 0 < h → let x := TreeMath.node h (z / 2 ^ h) in
    node_at (nodes t) x = None → node_at (nodes t') x = None) as Hblank.
  { intros z h Hz Hh x Hx. assert (x ≠ 2 * i) as Hne.
    { intros E. apply (f_equal Z.even) in E. unfold x in E. rewrite even_node, Z.even_mul in E; [|lia|apply Z.div_pos; [|apply pow2_pos]; lia].
      apply Z.eqb_eq in E. lia. }
    destruct (ancestor_em i x Hi) as [Ha|Ha]; [rewrite (proj1 (H x Hne) Ha)|rewrite (proj2 (H x Hne) Ha)]; by rewrite Hx. }
  intros x z (p & Hx & Hz). destruct (decide (x = 2 * i)) as [->|Hne]; [congruence|].
  assert (z = i ∧ ancestor i x ∨ lists (nodes t) z x) as [[-> (k & Hk & ->)]|Hold].
  { destruct (ancestor_em i x Hi) as [Ha|Ha].
    - rewrite (proj1 (H x Hne) Ha) in Hx. destruct (push_unmerged_lists i z _ p Hx Hz) as [->|(q & Hq & Hin)]; [by left|].
      right. by exists q.
    - rewrite (proj2 (H x Hne) Ha) in Hx. right. by exists p. }
  - split_and!; [unfold leaf_at; rewrite Hat; by eexists|done|]. exists k. split_and!; [done..|].
    intros h Hh y. assert (y ≠ 2 * i) as Hy.
    { intros E. apply (leaf_not_ancestor i i Hi). rewrite <- E. exists h. split; [lia|done]. }
    rewrite (proj1 (H y Hy)) by (exists h; split; [lia|done]). unfold lists.
    rewrite (proj1 (H y Hy)) by (exists h; split; [lia|done]).
    specialize (Hp y). destruct (node_at (nodes t) y) as [[l|q]|] eqn:E; [exfalso| |by left].
    + unfold y in Hp. rewrite even_node in Hp; [apply Z.eqb_eq in Hp; lia|lia|apply Z.div_pos; [done|apply pow2_pos; lia]].
    + right. eexists. split; [done|]. cbn. apply elem_of_app. right. by apply list_elem_of_singleton.
  - destruct (Hok x z Hold) as (Ho & Hz0 & k & Hk & -> & Hup).
    assert (z ≠ i) as Hzi by (intros ->; rewrite Hfree in Ho; by destruct Ho).
    split_and!; [|done|].
    + unfold leaf_at in *. rewrite (proj2 (H (2 * z) ltac:(lia))); [done|]. by apply leaf_not_ancestor.
    + exists k. split_and!; [done..|]. intros h Hh y. destruct (Hup h Hh) as [E|E]; [left; apply Hblank; [done|lia|done]|].
      right. by apply Hkeep.
Qed.

Lemma added_at_differ t t' leaf i :
  0 ≤ i → added_at t t' leaf i → TreeHash.differ_above (nodes t) (nodes t') [i].
Proof.
  intros Hi (_ & _ & _ & H). apply differ_above_path; [done|]. intros x Hne.
  destruct (decide (x = 2 * i)) as [|Hx]; [by left|right]. destruct (ancestor_em i x Hi) as [|Ha]; [done|].
  destruct Hne. symmetry. by apply H.
Qed.

Lemma push_unmerged_parity i x n :
  match n with Some (Leaf _) => Z.even x = true | Some (ParentNode _) => Z.even x = false | None => True end →
  match push_unmerged i n with Some (Leaf _) => Z.even x = true | Some (ParentNode _) => Z.even x = false | None => True end.
Proof. by destruct n as [[]|]. Qed.

Lemma add_leaf_cases t R leaf start :
  inv ip ext t R → len (nodes t) + 2 < max_len → 0 ≤ default 0 start < 2 ^ 31 →
  (∃ i t', add_leaf ip ext t leaf start = (Ok i, t') ∧ next_empty_spec (nodes t) (default 0 start) i ∧
     R !! i = None ∧ TreeIndex.compatible (ident ip ext) R leaf ∧
     inv ip ext t' (<[i := leaf]> R) ∧ added_at t t' leaf i) ∨
  (∃ e ti, add_leaf ip ext t leaf start = (Err e, with_index t ti) ∧ inv ip ext (with_index t ti) R ∧
     (TreeIndex.compatible (ident ip ext) R leaf → is_ok (identity (signing_identity leaf) ip ext) = false)).
Proof.
  intros Hinv Hlen Hs. pose proof Hinv as [Hl Hp He Hr Hk Hidx]. unfold max_len in *. unfold add_leaf.
  destruct (next_empty_leaf_spec (nodes t) (default 0 start)) as (i & -> & Hspec); [lia|done|].
  pose proof Hspec as (Hi & Hblank & _ & _ & Hend).
  assert (R !! i = None) as HRi by (rewrite <- Hr by done; by apply leaf_at_None).
  assert (2 * i ≤ len (nodes t) + 1) as Hib by (destruct (decide (2 * i < len (nodes t))); [|rewrite Hend by lia; Z.div_mod_to_equations]; lia).
  destruct (index_insert_cases (index t) R i leaf Hidx HRi (inv_size _ _ _ _ Hinv)) as [(ti & -> & Hc & Hti)|(e & ti & -> & Hti & Hno)].
  2: { right. exists e, ti. split_and!; [done|by split|done]. }
  left. cbn [with_index nodes].
  destruct (insert_leaf_spec (nodes t) i leaf Hi He Hib) as (ns & -> & Hlns & Hends & Hat).
  exists i. eexists. split; [reflexivity|]. set (t1 := with_nodes (with_index t ti) ns).
  destruct (update_unmerged_at t1 i) as [Hlen1 Hat1]; [unfold fits; cbn; lia|done|cbn; lia|].
  change (nodes t1) with ns in Hlen1, Hat1.
  assert (added_at t (update_unmerged t1 i) leaf i) as Hadd.
  { split_and!; [done|lia..|rewrite (proj2 (Hat1 (2 * i)) (leaf_not_ancestor i i Hi)), Hat, Z.eqb_refl; done|].
    intros x Hx. assert (node_at ns x = node_at (nodes t) x) as <- by (by rewrite Hat, (proj2 (Z.eqb_neq _ _))).
    apply Hat1. }
  split_and!; try done.
  change (update_unmerged t1 i) with {| index := ti; nodes := nodes (update_unmerged t1 i); tree_hashes := tree_hashes t |}.
  apply (inv_insert t R); try done; [unfold max_len; lia|unfold ends_in_leaf; by rewrite Hlen1| |apply Hadd|].
  - assert (parity ns) as Hpn by (by eapply insert_leaf_parity). intros x. destruct (ancestor_em i x Hi) as [Ha|Ha].
    + rewrite (proj1 (Hat1 x) Ha). apply push_unmerged_parity, Hpn.
    + rewrite (proj2 (Hat1 x) Ha). apply Hpn.
  - intros j Hj. destruct Hadd as (_ & _ & _ & H). apply H; [lia|]. by apply leaf_not_ancestor.
Qed.

(** The leftmost place without a member, and the rosters that adding a list of
    members leads to. *)
Definition leftmost_free (R : gmap Z LeafNode) (i : Z) : Prop :=
  0 ≤ i ∧ R !! i = None ∧ ∀ j, 0 ≤ j < i → is_Some (R !! j).

Inductive adds : gmap Z LeafNode → list LeafNode → list Z → gmap Z LeafNode → Prop :=
  | adds_nil R : adds R [] [] R
  | adds_cons R l ls i js R' :
      leftmost_free R i → TreeIndex.compatible (ident ip ext) R l → adds (<[i := l]> R) ls js R' →
      adds R (l :: ls) (i :: js) R'.

Lemma next_empty_leftmost t R start i :
  inv ip ext t R → (∀ j, 0 ≤ j < start → is_Some (R !! j)) → R !! i = None →
  next_empty_spec (nodes t) start i → leftmost_free R i.
Proof.
  intros [_ Hp He Hr _ _] Hlow Hfree (Hi & _ & Hfill & _ & Hend). split_and!; [done|done|]. intros j Hj.
  destruct (decide (j < start)) as [|Hjs]; [apply Hlow; lia|].
  assert (2 * j < len (nodes t)) as Hjl.
  { apply Z.nle_gt. intros Hge. assert (i = (len (nodes t) + 1) / 2) as Ei by (apply Hend; lia).
    assert (2 * j = len (nodes t)) as E by (Z.div_mod_to_equations; lia).
    destruct He as [He|He]; [rewrite He in Ei; change ((0 + 1) / 2) with 0 in Ei; lia|]. rewrite <- E, Z.odd_mul in He. done. }
  destruct (Hfill j) as [n Hn]; [lia|done|]. rewrite <- Hr by lia. unfold leaf_at. specialize (Hp (2 * j)).
  rewrite Hn in *. rewrite Z.even_mul in Hp. destruct n; [by eexists|done].
Qed.

Lemma add_step_strict pre p post t R start added bad :
  inv ip ext t R → populated (nodes t) → len (nodes t) + 2 < max_len → 0 ≤ start < 2 ^ 31 →
  (∀ j, 0 ≤ j < start → is_Some (R !! j)) →
  Prelude.post (λ '(t', i, added', bad'), bad' = bad ∧ added' = added ++ [i] ∧ leftmost_free R i ∧
       TreeIndex.compatible (ident ip ext) R (kp_leaf_node (proposal p)) ∧
       inv ip ext t' (<[i := kp_leaf_node (proposal p)]> R) ∧ added_at t t' (kp_leaf_node (proposal p)) i)
    (add_step ip ext false (pre ++ p :: post) (t, start, added, bad) (length pre)).
Proof.
  intros Hinv Hpop Hlen Hs Hlow. unfold add_step. rewrite list_lookup_middle by done. cbn [unwrap mbind result_bind].
  destruct (add_leaf_cases t R (kp_leaf_node (proposal p)) (Some start) Hinv Hlen Hs)
    as [(i & t' & -> & Hspec & HR & Hc & Hinv' & Hadd)|(e & ti & -> & _)]; [|by rewrite orb_true_r].
  cbn. split_and!; try done. by apply (next_empty_leftmost t R start).
Qed.

Lemma apply_adds_loop post : ∀ pre t R start added bad,
  inv ip ext t R → populated (nodes t) → len (nodes t) + 2 * Z.of_nat (length post) < max_len → 0 ≤ start < 2 ^ 31 →
  (∀ j, 0 ≤ j < start → is_Some (R !! j)) →
  Prelude.post (λ '(t', _, added', bad'), bad' = bad ∧ ∃ js R', added' = added ++ js ∧
       adds R (kp_leaf_node ∘ proposal <$> post) js R' ∧ inv ip ext t' R' ∧ populated (nodes t') ∧
       TreeHash.differ_above (nodes t) (nodes t') js ∧ tree_hashes t' = tree_hashes t ∧
       (∀ i, i ∈ js → 0 ≤ i) ∧ keeps_blank (nodes t) (nodes t') ∧ (unmerged_ok (nodes t) → unmerged_ok (nodes t')))
    (foldM (add_step ip ext false (pre ++ post)) (t, start, added, bad) (seq (length pre) (length post))).
Proof.
  induction post as [|p post IH]; intros pre t R start added bad Hinv Hpop Hlen Hs Hlow.
  { cbn. split; [done|]. exists [], R. rewrite app_nil_r. split_and!; try done; [constructor|apply differ_above_refl| |by intros x _].
    intros i Hi. by apply elem_of_nil in Hi. }
  cbn [length seq foldM] in *. eapply post_bind; [apply (add_step_strict pre p post t R start); try done; lia|].
  intros [[[t1 i] added1] bad1] _ (-> & -> & Hfree & Hc & Hinv1 & Hadd). pose proof Hfree as (Hi & _ & Hlow').
  pose proof Hadd as (Hh & Hlen1 & Hat & _). pose proof (node_at_range _ _ _ Hat) as Hrg.
  replace (pre ++ p :: post) with ((pre ++ [p]) ++ post) by (by rewrite <- app_assoc).
  replace (S (length pre)) with (length (pre ++ [p])) by (rewrite length_app; cbn; lia).
  eapply post_mono; [|apply (IH (pre ++ [p]) t1 (<[i := kp_leaf_node (proposal p)]> R) i); try done].
  - intros [[[t2 s2] added2] bad2] (-> & js & R' & -> & H1 & H2 & H3 & H4 & H5 & H6 & H7 & H8). split; [done|].
    exists (i :: js), R'. split_and!; try done; [by rewrite <- app_assoc|by constructor| |congruence| | |].
    + apply (differ_above_trans _ (nodes t1) _ [i] js); [by eapply added_at_differ|done].
    + intros j [->|Hj]%elem_of_cons; [done|by apply H6].
    + intros x Hx Hn. apply H7; [done|]. apply eq_None_not_Some. rewrite (added_at_is_Some _ _ _ _ _ Hi Hadd).
      * rewrite Hn. apply is_Some_None.
      * intros ->. by rewrite Z.even_mul in Hx.
    + intros Hok. apply H8. apply (unmerged_added t t1 (kp_leaf_node (proposal p)) i); try done; [by apply (inv_parity _ _ _ _ Hinv)|].
      rewrite (inv_roster _ _ _ _ Hinv) by done. apply Hfree.
  - by eapply added_at_populated.
  - lia.
  - pose proof Hinv1 as [Hl1 _ _ _ _ _]. unfold max_len in Hl1. lia.
  - intros j Hj. rewrite lookup_insert_ne by lia. by apply Hlow'.
Qed.

Lemma apply_adds_strict t R b :
  inv ip ext t R → populated (nodes t) → len (nodes t) + 2 * Z.of_nat (length (additions b)) < max_len →
  post (λ '(t', js, b'), b' = b ∧ ∃ R', adds R (kp_leaf_node ∘ proposal <$> additions b) js R' ∧
       inv ip ext t' R' ∧ populated (nodes t') ∧
       TreeHash.differ_above (nodes t) (nodes t') js ∧ tree_hashes t' = tree_hashes t ∧
       (∀ i, i ∈ js → 0 ≤ i) ∧ keeps_blank (nodes t) (nodes t') ∧ (unmerged_ok (nodes t) → unmerged_ok (nodes t')))
    (apply_adds ip ext false t b).
Proof.
  intros Hinv Hpop Hlen. eapply post_bind; [apply (apply_adds_loop (additions b) [] t R 0 [] []); try done; lia|].
  intros [[[t' s] added] bad] _ (-> & js & R' & -> & H). cbn. split; [done|]. by exists R'.
Qed.

(** ** The whole edit *)

(** A tree whose leaves are those of another one, with fewer parents. *)
Lemma inv_parents t R ns :
  inv ip ext t R → len ns = len (nodes t) → (∀ x, Z.even x = true → node_at ns x = node_at (nodes t) x) →
  cleared (nodes t) ns [] → inv ip ext (with_nodes t ns) R.
Proof.
  intros [Hl Hp He Hr Hk Hi] Hlen Hev [Hcl _]. split; cbn [nodes index with_nodes]; try done.
  - by rewrite Hlen.
  - intros x. specialize (Hp x). destruct (Z.even x) eqn:Ex; [by rewrite Hev|].
    destruct (Hcl x Ex) as [-> | ->]; [done|done].
  - unfold ends_in_leaf in *. by rewrite Hlen.
  - intros i Hi0. rewrite <- Hr by done. unfold leaf_at. rewrite Hev; [done|]. by rewrite Z.even_mul.
Qed.

Lemma inv_trim t R : inv ip ext t R → populated (nodes t) → inv ip ext (with_nodes t (trim (nodes t))) R.
Proof.
  intros [Hl Hp He Hr Hk Hi] Hpop. destruct (trim_spec (nodes t)) as (Heq & Hlen & Hlast).
  split; cbn [nodes index with_nodes]; try done; [lia| | |].
  - intros i. rewrite Heq. apply Hp.
  - apply populated_ends_in_leaf; [|done]. by rewrite Heq.
  - intros i Hi0. rewrite <- Hr by done. unfold leaf_at. by rewrite Heq.
Qed.

Lemma without_lookup xs R i : without xs R !! i = if bool_decide (i ∈ xs) then None else R !! i.
Proof.
  unfold without. induction xs as [|x xs IH]; cbn [foldr].
  { by rewrite bool_decide_eq_false_2 by apply not_elem_of_nil. }
  destruct (decide (i = x)) as [->|Hne].
  - rewrite lookup_delete_eq, bool_decide_eq_true_2; [done|left].
  - rewrite lookup_delete_ne, IH by done.
    rewrite (bool_decide_ext (i ∈ x :: xs) (i ∈ xs)); [done|]. rewrite elem_of_cons. naive_solver.
Qed.

Lemma with_updates_lookup us : ∀ R i,
  NoDup us.*1 → with_updates R us !! i = match list_find (λ u, u.1 = i) us with Some (_, u) => Some u.2 | None => R !! i end.
Proof.
  induction us as [|[x l] us IH]; intros R i Hnd; [done|]. cbn [fmap list_fmap fst] in Hnd. apply NoDup_cons in Hnd as [Hx Hnd].
  cbn [with_updates foldl fst snd list_find]. change (foldl _ _ _) with (with_updates (<[x := l]> R) us).
  rewrite IH by done. destruct (decide (x = i)) as [->|Hne].
  - rewrite (proj2 (list_find_None _ _)), lookup_insert_eq; [done|]. apply Forall_forall. intros u Hu E. apply Hx.
    rewrite <- E. apply list_elem_of_fmap. by exists u.
  - rewrite lookup_insert_ne by done. by destruct (list_find _ us) as [[]|].
Qed.

Lemma with_updates_is_Some us R i : is_Some (R !! i) → is_Some (with_updates R us !! i).
Proof.
  revert R. induction us as [|u us IH]; intros R Hi; [done|]. apply IH. destruct (decide (u.1 = i)) as [<-|].
  - rewrite lookup_insert_eq. by eexists.
  - by rewrite lookup_insert_ne.
Qed.

(** Taking the old leaves out first does not matter: the new ones replace them. *)
Lemma with_updates_without us R :
  NoDup us.*1 → with_updates (without (rev us.*1) R) us = with_updates R us.
Proof.
  intros Hnd. apply map_eq. intros i. rewrite !with_updates_lookup by done.
  destruct (list_find (λ u, u.1 = i) us) as [[k u]|] eqn:E; [done|]. apply list_find_None in E.
  rewrite without_lookup, bool_decide_eq_false_2; [done|]. rewrite list_elem_of_In, <- in_rev, <- list_elem_of_In.
  intros (u & -> & Hu)%list_elem_of_fmap. rewrite Forall_forall in E. by apply (E u).
Qed.

Lemma drop_updates_none b s :
  bad_indices s = [] → length (updates b) = length (update_senders b) →
  (updated_indices s = [] → update_senders b = []) → drop_updates b s = b.
Proof.
  intros Hb Hlen Hn. unfold drop_updates. rewrite Hb. destruct (updated_indices s); [|done].
  rewrite Hn in Hlen by done. apply nil_length_inv in Hlen. unfold set_updates. rewrite <- Hlen. by destruct b.
Qed.

(** The updates of a bundle, by the leaf they replace. *)
Definition new_leaves (b : ProposalBundle) : list (Z * LeafNode) := zip (update_senders b) (proposal <$> updates b).

Lemma imap_zip_swap (us : list (ProposalInfo LeafNode)) (ss : list Z) (f : nat → nat) :
  (λ x : nat * (ProposalInfo LeafNode * Z), (x.2.2, proposal x.2.1)) <$> imap (λ n, pair (f n)) (zip us ss) =
    zip ss (proposal <$> us).
Proof.
  revert ss f. induction us as [|u us IH]; intros [|x ss] f; try done. cbn [zip zip_with imap fmap list_fmap fst snd].
  f_equal. apply (IH ss (f ∘ S)).
Qed.

Lemma new_leaves_fst b : length (updates b) = length (update_senders b) → (new_leaves b).*1 = update_senders b.
Proof. intros H. apply fst_zip. rewrite length_fmap. lia. Qed.

Lemma take_old_leaves_strict t R b :
  inv ip ext t R → length (updates b) = length (update_senders b) → Forall (λ i, 0 ≤ i < 2 ^ 31) (update_senders b) →
  post (λ '(t', l), edited t t' (without (rev (update_senders b)) R) (update_senders b) ∧ partial_of R l ∧
          same_parents (nodes t) (nodes t') ∧ (λ u, (pu_index u, pu_new u)) <$> l = new_leaves b ∧
          pu_index <$> l = update_senders b)
    (take_old_leaves ip ext false t b).
Proof.
  intros Hinv Hlen Hrg. unfold take_old_leaves. eapply post_mono; [|apply (take_old_loop R _ t t [] R)].
  - intros [t' l] (H1 & H2 & H3 & H4). rewrite (imap_zip_swap _ _ (λ n, n)) in H4. cbn [fmap list_fmap app] in H4.
    assert (pu_index <$> l = update_senders b) as Hidx.
    { rewrite <- (new_leaves_fst b Hlen). unfold new_leaves. rewrite <- H4, <- list_fmap_compose. done. }
    rewrite Hidx in H1. done.
  - split_and!; try done. apply differ_above_refl.
  - done.
  - split; [constructor|]. intros u Hu. by apply elem_of_nil in Hu.
  - done.
  - apply Forall_forall. intros x (n & [u i] & -> & Hx)%elem_of_lookup_imap. cbn.
    rewrite Forall_forall in Hrg. apply Hrg. by apply list_elem_of_lookup_2, elem_of_zip_r in Hx.
Qed.

Lemma updates_strict t t2 R b l clone :
  inv ip ext t R → populated (nodes t) →
  edited t t2 (without (rev (update_senders b)) R) (update_senders b) → partial_of R l →
  same_parents (nodes t) (nodes t2) → (λ u, (pu_index u, pu_new u)) <$> l = new_leaves b →
  pu_index <$> l = update_senders b → length (updates b) = length (update_senders b) →
  post (λ s, updated_indices s = update_senders b ∧ bad_indices s = [] ∧
          ∃ ns, foldM blank_direct_path (nodes (us_tree s)) (update_senders b) = Ok ns ∧
            edited t (with_nodes (us_tree s) ns) (with_updates R (new_leaves b)) (update_senders b) ∧
            populated ns ∧ cleared (nodes t) ns (update_senders b))
    (apply_updates ip ext false clone
       {| us_tree := t2; removed_leaves := []; updated_indices := []; bad_indices := [] |} l).
Proof.
  intros Hinv Hpop Hed [Hnd Hold] Hsame Hnew Hidx Hlen. pose proof Hed as (Hinv2 & _ & _ & Hl2).
  assert (∀ i, i ∈ update_senders b → 0 ≤ i ∧ 2 * i < len (nodes t)) as Hrange.
  { intros i. rewrite <- Hidx. intros (u & -> & Hu)%list_elem_of_fmap.
    destruct (inv_range _ _ _ _ _ _ Hinv (Hold u Hu)). lia. }
  eapply post_mono; [|eapply (apply_updates_strict clone l _ _); [exact Hinv2|exact Hnd|]]; cbn [us_tree updated_indices bad_indices].
  - intros s (He & Hs & -> & ->). rewrite Hnew, Hidx in *. cbn [app].
    rewrite <- (new_leaves_fst b Hlen) in He at 1. rewrite with_updates_without in He by (by rewrite new_leaves_fst).
    pose proof He as (Hinv3 & _ & _ & Hl3).
    destruct (blank_paths_strict (update_senders b) (nodes (us_tree s))) as (ns & Hf & Hln & Hev & Hcl & Hdi).
    { by eapply inv_fits. }
    { apply Forall_forall. intros i Hi. rewrite Hl3, Hl2. by apply Hrange. }
    assert (cleared (nodes t) (nodes (us_tree s)) []) as Hcl0.
    { split; [|intros i x Hi; by apply elem_of_nil in Hi]. intros x Hx. right. rewrite <- Hs by done. symmetry. by apply Hsame. }
    split_and!; [done|done|]. exists ns. split_and!; [done| | |by apply (cleared_trans _ (nodes (us_tree s)) _ [])].
    + apply (edited_mono _ _ _ ((update_senders b ++ update_senders b) ++ update_senders b)).
      { intros i. rewrite !elem_of_app. tauto. }
      apply (edited_trans _ (us_tree s) _ (with_updates R (new_leaves b))); [by eapply edited_trans|].
      split_and!; [|exact Hdi|done|done]. apply inv_parents; try done.
      eapply cleared_mono; [|exact Hcl]. intros i Hi. by apply elem_of_nil in Hi.
    + apply (populated_mono (nodes t)); [| |done].
      * intros i Hi0 Hi. rewrite Hev by (by rewrite Z.even_mul).
        destruct Hinv as [_ Hp _ Hr _ _], Hinv3 as [_ Hp3 _ Hr3 _ _]. apply not_eq_None_Some.
        rewrite <- leaf_at_None by done. rewrite Hr3 by done. apply not_eq_None_Some, with_updates_is_Some.
        rewrite <- Hr by done. apply not_eq_None_Some. rewrite leaf_at_None by done. by apply not_eq_None_Some.
      * intros k j Hk Hj. assert (Z.even (TreeMath.node (k + 1) j) = false) as Ho by (rewrite even_node by lia; lia).
        destruct (cleared_trans _ _ _ _ _ Hcl0 Hcl) as [H _]. destruct (H _ Ho) as [-> | ->]; [by intros [? [=]]|done].
  - intros u Hu. assert (pu_index u ∈ update_senders b) as Hin by (rewrite <- Hidx; apply list_elem_of_fmap; by exists u).
    destruct (Hrange _ Hin). split_and!; [|done|lia]. rewrite without_lookup, bool_decide_eq_true_2; [done|].
    by rewrite list_elem_of_In, <- in_rev, <- list_elem_of_In.
Qed.

Lemma adds_bound R ls js R' : adds R ls js R' → ∀ i, i ∈ js → 0 ≤ i.
Proof. induction 1 as [|R l ls i js R' (Hi & _)]; intros j; [by intros ?%elem_of_nil|]. by intros [->|?]%elem_of_cons; auto. Qed.

(** Between the removals and updates and the adds, the unmerged leaves are in
    order. *)
Lemma edit_unmerged t t1 R xs b nl :
  inv ip ext t R → inv ip ext t1 (with_updates (without xs R) nl) →
  cleared (nodes t) (nodes t1) (xs ++ update_senders b) → unmerged_ok (nodes t) → unmerged_ok (nodes t1).
Proof.
  intros Hinv Hinv1 Hcl. apply (unmerged_cleared _ _ (xs ++ update_senders b)); [apply (inv_parity _ _ _ _ Hinv1)|done|].
  intros i Hi. assert (0 ≤ i) as Hi0.
  { destruct Hi as [l Hi]. unfold leaf_at in Hi. destruct (node_at (nodes t) (2 * i)) eqn:E; [|done]. apply node_at_range in E. lia. }
  rewrite (inv_roster _ _ _ _ Hinv) in Hi by done. rewrite (inv_roster _ _ _ _ Hinv1) by done.
  destruct (decide (i ∈ xs)) as [|Hn]; [right; apply elem_of_app; by left|left]. apply with_updates_is_Some.
  rewrite without_lookup. by rewrite bool_decide_eq_false_2.
Qed.

(** The last stage: the tree is trimmed and its hashes are brought up to date. *)
Lemma finish_strict csp t0 t R L :
  inv ip ext t R → populated (nodes t) → fits (nodes t0) → TreeHash.differ_above (nodes t0) (nodes t) L →
  TreeHash.hashes_ok csp (nodes t0) (tree_hashes t) → (∀ l, l ∈ L → 0 ≤ l) →
  post (λ t', inv ip ext t' R ∧ tree_ok (nodes t') ∧ last (nodes t') ≠ Some None ∧ nodes t' ≈ nodes t ∧
          (TreeHash.hashable csp (nodes t') → TreeHash.hashes_ok csp (nodes t') (tree_hashes t')))
    (TreeHash.update_hashes csp (with_nodes t (trim (nodes t))) L).
Proof.
  intros Hinv Hpop Hf0 Hdi Hho HL. pose proof (inv_trim t R Hinv Hpop) as Hinv'.
  destruct (trim_spec (nodes t)) as (Heq & _ & Hlast). set (t1 := with_nodes t (trim (nodes t))) in *.
  assert (fits (nodes t1)) as Hf by (by eapply inv_fits).
  assert (TreeHash.differ_above (nodes t0) (nodes t1) L) as Hdi'.
  { intros k j Hk Hj. cbn [t1 with_nodes nodes]. rewrite Heq. by apply Hdi. }
  pose proof (TreeHash.update_hashes_settled csp t1 L Hf HL) as Hs.
  pose proof (λ Hh, TreeHash.update_hashes_spec csp t1 (nodes t0) L Hf Hf0 Hh HL Hho Hdi') as Hspec.
  destruct (TreeHash.update_hashes csp t1 L) as [t'| | |]; try done. destruct Hs as [Hn Hi].
  cbn. rewrite Hn in *. split_and!.
  - destruct Hinv' as [H1 H2 H3 H4 H5 H6]. split; rewrite ?Hn, ?Hi; done.
  - destruct Hinv' as [_ Hp He _ _ _]. split; [done| |done]. cbn [t1 with_nodes nodes]. by rewrite Heq.
  - done.
  - done.
  - intros Hh. destruct (Hspec Hh) as (hs & [= ->] & _ & H). exact H.
Qed.

(** What an edit without errors promises. *)
Record batch_edited (csp : CipherSuiteProvider) (t : TreeKemPublic) (R : gmap Z LeafNode) (b : ProposalBundle)
    (t' : TreeKemPublic) (added : list Z) (R' : gmap Z LeafNode) : Prop := {
  be_removed : NoDup (proposal <$> removals b) ∧ ∀ i, i ∈ proposal <$> removals b → is_Some (R !! i);
  be_updated : NoDup (update_senders b) ∧
    ∀ i, i ∈ update_senders b → is_Some (without (proposal <$> removals b) R !! i);
  be_roster : adds (with_updates (without (proposal <$> removals b) R) (new_leaves b))
    (kp_leaf_node ∘ proposal <$> additions b) added R';
  be_inv : inv ip ext t' R';
  be_tree : tree_ok (nodes t');
  be_trimmed : last (nodes t') ≠ Some None;
  be_blank i x : i ∈ (proposal <$> removals b) ++ update_senders b → ancestor i x → node_at (nodes t') x = None;
  be_unmerged : unmerged_ok (nodes t) → unmerged_ok (nodes t');
  be_hashes : TreeHash.hashable csp (nodes t') → TreeHash.hashes_ok csp (nodes t') (tree_hashes t');
}.

(** C1. Applying the proposals of a commit with errors reported ([filter] off,
    the receiver's mode).  On a tree in good order [batch_edit] never panics; if
    it returns, no proposal was dropped, the removed and updated leaves were
    members, and the new roster is the old one without the removed members, with
    the updated leaves, and with each added member in the leftmost free leaf.  The
    new tree is in good order and trimmed, all ancestors of a removed or updated
    leaf are blank, unmerged leaves stay consistent, the index represents the new
    roster, and the cached tree hashes are those of the new tree. *)
Theorem batch_edit_refines csp t R b :
  inv ip ext t R → populated (nodes t) →
  len (nodes t) + 2 * Z.of_nat (length (additions b)) < max_len →
  Forall (λ p : ProposalInfo Z, 0 ≤ proposal p < 2 ^ 31) (removals b) →
  Forall (λ i, 0 ≤ i < 2 ^ 31) (update_senders b) →
  length (updates b) = length (update_senders b) →
  TreeHash.hashes_ok csp (nodes t) (tree_hashes t) →
  post (λ '(t', b', added), b' = b ∧ ∃ R', batch_edited csp t R b t' added R') (batch_edit ip ext csp false t b).
Proof.
  intros Hinv Hpop Hlen Hrem Hsend Hul Hho. unfold batch_edit. set (xs := proposal <$> removals b).
  eapply post_bind; [by apply (apply_removes_strict b t R)|].
  intros [t1 b1] _ (-> & Hpop1 & Hed1 & Hcl1 & Hnd & Hall). fold xs in Hed1, Hcl1, Hnd, Hall. pose proof Hed1 as (Hinv1 & Hdi1 & Hh1 & Hl1).
  eapply post_bind; [by apply (take_old_leaves_strict t1 (without xs R) b)|].
  intros [t2 l] _ (Hed2 & Hpart & Hsame & Hnew & Hidx).
  eapply post_bind; [by apply (updates_strict t1 t2 (without xs R) b l)|].
  intros s _ (Hu & Hbad & ns & Hns & Hed3 & Hpop3 & Hcl3). rewrite Hu, Hns. cbn [mbind result_bind].
  pose proof Hed3 as (Hinv3 & Hdi3 & Hh3 & Hl3). rewrite drop_updates_none by (done || by rewrite Hu).
  eapply post_bind; [apply (apply_adds_strict _ _ b Hinv3 Hpop3); cbn in Hl3 |- *; lia|].
  intros [[t4 js] b4] _ (-> & R' & Hadds & Hinv4 & Hpop4 & Hdi4 & Hh4 & Hjs & Hkeep & Hum). fold xs.
  eapply post_bind; [apply (finish_strict csp t t4 R' (xs ++ update_senders b ++ js) Hinv4 Hpop4)|].
  - by eapply inv_fits.
  - eapply differ_above_trans; [exact Hdi1|]. by eapply differ_above_trans.
  - rewrite Hh4, Hh3, Hh1. exact Hho.
  - unfold xs. rewrite Forall_forall in Hrem. rewrite Forall_forall in Hsend. intros i. rewrite !elem_of_app. intros [(p & -> & Hp)%list_elem_of_fmap|[Hi|Hi]].
    + specialize (Hrem p Hp). lia.
    + specialize (Hsend i Hi). lia.
    + by apply Hjs.
  - intros t5 _ (Hinv5 & Hok & Hlast & Heq & Hhash). cbn. split; [done|]. exists R'. destruct Hpart as [Hnd2 Hold].
    split; try done.
    + split; [by rewrite <- Hidx|]. intros i. rewrite <- Hidx. intros (u & -> & Hin)%list_elem_of_fmap. exists (pu_old u). by apply Hold.
    + intros i x Hi Ha. assert (0 ≤ i) as Hi0.
      { apply elem_of_app in Hi as [Hi|Hi]; [destruct (Hall i Hi) as [k Hk]; by eapply (inv_keys _ _ _ _ Hinv)|].
        rewrite Forall_forall in Hsend. by apply Hsend. }
      rewrite Heq. apply Hkeep; [by eapply ancestor_odd|]. by apply (cleared_trans _ _ _ _ _ Hcl1 Hcl3) with i.
    + intros Hok0. rewrite Heq. apply Hum. eapply (edit_unmerged t (with_nodes (us_tree s) ns) R xs b); try done. by eapply cleared_trans.
Qed.

(** ** Importing a tree *)
Lemma length_non_empty_leaves ns : (length (non_empty_leaves ns) ≤ length ns)%nat.
Proof.
  assert (∀ {A} (l : list A), length (step_by_2 l) ≤ length l ∧ ∀ a, length (step_by_2 (a :: l)) ≤ S (length l))%nat as Hs.
  { intros A l. induction l as [|b l [IH1 IH2]]; [split; [done|intros; cbn; lia]|]. split; [apply IH2|]. intros a. cbn [step_by_2 length]. lia. }
  assert (∀ {A B} (f : A → option B) l, length (omap f l) ≤ length l)%nat as Ho.
  { intros A B f l. induction l as [|a l IH]; [done|]. cbn. destruct (f a); cbn; lia. }
  unfold non_empty_leaves. etransitivity; [apply Ho|]. rewrite length_imap. unfold leaves. rewrite length_fmap. apply Hs.
Qed.

Lemma index_all_spec ls : ∀ (R : gmap Z LeafNode) ti,
  TreeIndex.represents (ident ip ext) R ti → NoDup ls.*1 → (∀ i, i ∈ ls.*1 → R !! i = None) →
  Z.of_nat (size R + length ls) < 2 ^ 32 - 1 →
  post (λ ti', TreeIndex.represents (ident ip ext) (list_to_map ls ∪ R) ti')
    (foldM (λ ti '(i, l), let '(r, ti') := TreeIndex.index_insert ti l i ip ext in _ ← r; Ok ti') ti ls).
Proof.
  induction ls as [|[i l] ls IH]; intros R ti Hr Hnd Hfree Hs; cbn [foldM].
  { cbn. by rewrite (left_id_L ∅ (∪)). }
  cbn [fmap list_fmap fst length] in *. apply NoDup_cons in Hnd as [Hi Hnd].
  assert (R !! i = None) as HR by (apply Hfree; left).
  destruct (index_insert_cases ti R i l Hr HR) as [(ti' & -> & _ & Hti)|(e & ti' & -> & _)]; [lia| |done].
  cbn [mbind result_bind]. eapply post_mono; [|apply (IH (<[i := l]> R) ti' Hti Hnd)].
  - intros ti2 H. rewrite list_to_map_cons. rewrite <- insert_union_r in H; [by rewrite <- insert_union_l|].
    by apply not_elem_of_list_to_map_1.
  - intros j Hj. rewrite lookup_insert_ne by (intros ->; done). apply Hfree. by right.
  - rewrite map_size_insert_None by done. lia.
Qed.

Lemma import_spec ns :
  len ns < max_len →
  post (λ t, nodes t = ns ∧ tree_hashes t = [] ∧ TreeIndex.represents (ident ip ext) (TreeIndex.roster ns) (index t))
    (import_node_data ip ext ns).
Proof.
  intros Hl. assert (fits ns) as Hf by (unfold fits, max_len in *; lia).
  unfold import_node_data, initialize_index_if_necessary.
  change (negb (TreeIndex.is_initialized _)) with true. cbn [nodes].
  eapply post_bind; [apply (index_all_spec _ ∅); [apply TreeIndex.represents_new|by apply non_empty_leaves_NoDup|done|]|].
  - rewrite map_size_empty. pose proof (length_non_empty_leaves ns). unfold len, max_len in *. lia.
  - intros ti _ H. rewrite (right_id_L ∅ (∪)) in H. done.
Qed.

Lemma inv_roster_eq t R : inv ip ext t R → R = TreeIndex.roster (nodes t).
Proof.
  intros Hinv. pose proof (inv_fits _ _ _ _ Hinv) as Hf. destruct Hinv as [_ _ _ Hr Hk _].
  apply map_eq. intros i. rewrite TreeIndex.roster_lookup by done. destruct (Z.leb_spec 0 i) as [Hi|Hi].
  - by rewrite Hr.
  - destruct (R !! i) eqn:E; [|done]. apply Hk in E. lia.
Qed.

Lemma inv_occupied t R : inv ip ext t R → occupied_leaf_count (nodes t) = Z.of_nat (size R).
Proof.
  intros Hinv. pose proof (inv_size _ _ _ _ Hinv) as Hs. pose proof (inv_fits _ _ _ _ Hinv) as Hf.
  rewrite (inv_roster_eq t R Hinv) in *. unfold TreeIndex.roster in *.
  rewrite map_size_list_to_map in * by (by apply non_empty_leaves_NoDup).
  unfold occupied_leaf_count, len. rewrite u32_small; [done|]. unfold is_u32. lia.
Qed.

Lemma inv_elem t R i l : inv ip ext t R → (i, l) ∈ non_empty_leaves (nodes t) ↔ R !! i = Some l.
Proof.
  intros Hinv. pose proof (inv_fits _ _ _ _ Hinv) as Hf. rewrite (inv_roster_eq t R Hinv). unfold TreeIndex.roster.
  apply elem_of_list_to_map. by apply non_empty_leaves_NoDup.
Qed.

Lemma scan_identity_spec id ls :
  (∀ i l, (i, l) ∈ ls → ip_identity ip (signing_identity l) ext = inr (ident ip ext l)) →
  (∀ o, scan_identity ip ext id ls = Ok o →
     match o with
     | Some i => ∃ l, (i, l) ∈ ls ∧ ident ip ext l = id
     | None => ∀ i l, (i, l) ∈ ls → ident ip ext l ≠ id
     end) ∧ ∃ o, scan_identity ip ext id ls = Ok o.
Proof.
  induction ls as [|[i l] ls IH]; intros Hp; cbn [scan_identity].
  { split; [|by eexists]. intros o [= <-] i l Hi. by apply elem_of_nil in Hi. }
  unfold identity. rewrite (Hp i l) by left. cbn [mbind result_bind].
  destruct (IH (λ j k Hj, Hp j k (list_elem_of_further _ _ _ Hj))) as [IH1 IH2].
  case_bool_decide as E.
  - split; [|by eexists]. intros o [= <-]. exists l. split; [left|done].
  - split; [|done]. intros o Ho. specialize (IH1 o Ho). destruct o as [j|].
    + destruct IH1 as (k & Hk & ?). exists k. split; [by right|done].
    + intros j k [[= -> ->]|Hj]%elem_of_cons; [done|by eapply IH1].
Qed.

(** The index answers what a scan of the leaves answers, as the builds with
    and without the [tree_index] feature must: which members support a proposal
    type, and which leaf has an identity. *)
Theorem index_answers_scan t R ty id :
  inv ip ext t R → TreeIndex.provides ip ext (ident ip ext) R →
  can_support_proposal t ty = can_support_proposal_scan t ty ∧
  scan_identity ip ext id (non_empty_leaves (nodes t)) = Ok (get_leaf_node_with_identity t id).
Proof.
  intros Hinv Hprov. pose proof Hinv as [_ _ _ _ _ [[_ Hid] _ _ _ _ Hpr]]. split.
  - unfold can_support_proposal, can_support_proposal_scan. rewrite Hpr, (inv_occupied _ _ Hinv). apply eq_true_iff_eq.
    rewrite Z.eqb_eq, forallb_forall, TreeIndex.count_all. split.
    + intros H [i l] Hl%list_elem_of_In. apply bool_decide_eq_true_2. by eapply H, (inv_elem t R i l Hinv).
    + intros H i l Hl%(inv_elem t R i l Hinv). apply list_elem_of_In in Hl. by apply H, bool_decide_eq_true in Hl.
  - destruct (scan_identity_spec id (non_empty_leaves (nodes t))) as [H [o Ho]].
    { intros i l Hl%(inv_elem t R i l Hinv). by eapply Hprov. }
    rewrite Ho. f_equal. specialize (H o Ho). unfold get_leaf_node_with_identity, TreeIndex.get_leaf_index_with_identity.
    destruct o as [i|].
    + destruct H as (l & Hl%(inv_elem t R i l Hinv) & E). symmetry. apply Hid. eauto.
    + destruct (TreeIndex.identities (index t) !! id) as [i|] eqn:Ei; [|done].
      apply Hid in Ei as (l & Hl%(inv_elem t R i l Hinv) & E). destruct (H i l Hl E).
Qed.

(** Adding a member to a tree in good order succeeds exactly when the
    identity provider knows it and it is compatible with every member.  It takes
    the leftmost free leaf; the leaf is recorded as unmerged at each of its
    filled ancestors, and nothing else changes.  A rejected leaf leaves all nodes
    alone and the index representing the same roster. *)
Theorem add_leaf_correct t R leaf :
  inv ip ext t R → populated (nodes t) → len (nodes t) + 2 < max_len →
  (is_ok (identity (signing_identity leaf) ip ext) = true ∧ TreeIndex.compatible (ident ip ext) R leaf ∧
   ∃ i t', add_leaf ip ext t leaf None = (Ok i, t') ∧ leftmost_free R i ∧
     inv ip ext t' (<[i := leaf]> R) ∧ populated (nodes t') ∧ added_at t t' leaf i) ∨
  (¬ (is_ok (identity (signing_identity leaf) ip ext) = true ∧ TreeIndex.compatible (ident ip ext) R leaf) ∧
   ∃ e ti, add_leaf ip ext t leaf None = (Err e, with_index t ti) ∧ inv ip ext (with_index t ti) R).
Proof.
  intros Hinv Hpop Hlen. destruct (add_leaf_cases t R leaf None Hinv Hlen) as
    [(i & t' & E & Hspec & HR & Hc & Hinv' & Hadd)|(e & ti & E & Hinv' & Hno)]; [cbn; lia|left|right].
  - assert (leftmost_free R i) as Hfree by (apply (next_empty_leftmost t R 0); [done|intros; lia|done|done]).
    split_and!; [|done|exists i, t'; split_and!; try done; eapply added_at_populated; [apply Hfree|done|done]].
    unfold add_leaf, TreeIndex.index_insert in E. destruct (next_empty_leaf _ _); try done.
    destruct (identity _ _ _); [done|by cbn in E; congruence..].
  - split; [|by exists e, ti]. intros [H1 H2]. rewrite Hno in H1 by done. done.
Qed.

(** Importing a tree checks every leaf against all others: when it
    succeeds, the index represents the roster of the imported nodes, in which
    keys and identities are pairwise distinct; it never panics. *)
Theorem import_node_data_correct ns :
  len ns < max_len → parity ns → ends_in_leaf ns →
  post (λ t, nodes t = ns ∧ inv ip ext t (TreeIndex.roster ns)) (import_node_data ip ext ns).
Proof.
  intros Hl Hp He. eapply post_mono; [|by apply import_spec]. intros t (<- & _ & Hr). split; [done|].
  assert (fits (nodes t)) as Hf by (unfold fits, max_len in *; lia).
  split; try done; intros i; rewrite TreeIndex.roster_lookup by done.
  - intros Hi. by rewrite (proj2 (Z.leb_le _ _)).
  - intros l. destruct (Z.leb_spec 0 i); done.
Qed.

End strict.

(** ** Concrete runs *)
Definition sample_ip : IdentityProvider :=
  accepting (λ s _, match credential s with Basic b => inr b | _ => inl (ProviderAnyError []) end).

(** A member with HPKE key [k], signature key [s] and identity [n]. *)
Definition member (k s n : Z) : LeafNode := {|
  leaf_public_key := [byte.of_Z k];
  signing_identity := {| signature_key := [byte.of_Z s]; credential := Basic [byte.of_Z n] |};
  capabilities := {| protocol_versions := [1]; cipher_suites := [1]; cap_extensions := [];
                     proposals := []; credentials := [1] |};
  leaf_node_source := UpdateSource; leaf_extensions := []; signature := [] |}.

Definition member_kp (l : LeafNode) : KeyPackage := {|
  kp_version := 1; kp_cipher_suite := 1; hpke_init_key := []; kp_leaf_node := l; kp_extensions := [];
  kp_signature := [] |}.

Definition add_info (l : LeafNode) : ProposalInfo KeyPackage :=
  {| proposal := member_kp l; info_sender := Member 0; source := ByValue |}.
Definition update_info (src : ProposalSource) (i : Z) (l : LeafNode) : ProposalInfo LeafNode :=
  {| proposal := l; info_sender := Member i; source := src |}.
Definition remove_info (i : Z) : ProposalInfo Z := {| proposal := i; info_sender := Member 0; source := ByValue |}.

Definition sample_adds : ProposalBundle :=
  set_additions (add_info <$> [member 1 1 1; member 2 2 2; member 3 3 3]) empty_bundle.
Definition sample_edit : ProposalBundle :=
  set_removals [remove_info 0] (set_updates [update_info ByValue 1 (member 5 2 2)] [1]
    (set_additions [add_info (member 4 4 4)] empty_bundle)).

Definition edit (t : TreeKemPublic) (b : ProposalBundle) : TreeKemPublic :=
  match batch_edit sample_ip [] toy_csp false t b with Ok (t', _, _) => t' | _ => t end.

Definition sample_group : TreeKemPublic := edit new sample_adds.

Lemma new_inv ip ext : inv ip ext new ∅.
Proof.
  split; try done; [|by left| |apply TreeIndex.represents_new]; intros i; unfold leaf_at;
    (rewrite node_at_None; [done|change (len (nodes new)) with 0; lia]).
Qed.

Lemma populated_nil : populated [].
Proof. intros k j _ _ [n Hn]. rewrite node_at_None in Hn; [done|]. change (len []) with 0. lia. Qed.

(** The group of three members, by two applications of the theorem. *)
Lemma batch_edit_refines_witness :
  ∃ R, inv sample_ip [] sample_group R ∧ is_ok (batch_edit sample_ip [] toy_csp false sample_group sample_edit) = true ∧
    post (λ '(t', b', added), b' = sample_edit ∧ ∃ R', batch_edited sample_ip [] toy_csp sample_group R sample_edit t' added R')
      (batch_edit sample_ip [] toy_csp false sample_group sample_edit).
Proof.
  assert (batch_edit sample_ip [] toy_csp false new sample_adds = Ok (sample_group, sample_adds, [0; 1; 2])) as E
    by (vm_compute; reflexivity).
  destruct (post_ok _ _ _ (batch_edit_refines sample_ip [] toy_csp new ∅ sample_adds (new_inv _ _) populated_nil
    eq_refl (Forall_nil_2 _) (Forall_nil_2 _) eq_refl (or_introl eq_refl)) E) as [_ (R & [_ _ _ Hinv Htree _ _ _ Hh])].
  exists R. split; [exact Hinv|]. split; [vm_compute; reflexivity|].
  apply batch_edit_refines; [exact Hinv|apply Htree| |..].
  - vm_compute. reflexivity.
  - repeat constructor; cbn; lia.
  - repeat constructor; cbn; lia.
  - reflexivity.
  - apply Hh, TreeHash.hashable_check_sound. vm_compute. reflexivity.
Defined.

Lemma add_leaf_correct_witness :
  ∃ i t', add_leaf sample_ip [] new (member 1 1 1) None = (Ok i, t') ∧ leftmost_free ∅ i ∧
    inv sample_ip [] t' {[i := member 1 1 1]}.
Proof.
  destruct (add_leaf_correct sample_ip [] new ∅ (member 1 1 1)) as [(_ & _ & i & t' & H1 & H2 & H3 & _)|[[] _]];
    [apply new_inv|apply populated_nil|done|by exists i, t'|].
  split; [done|]. intros i k Hi. by rewrite lookup_empty in Hi.
Defined.

Definition sample_import : NodeVec := [Some (Leaf (member 1 1 1)); None; Some (Leaf (member 2 2 2))].

Lemma import_node_data_correct_witness :
  is_ok (import_node_data sample_ip [] sample_import) = true ∧
  post (λ t, nodes t = sample_import ∧ inv sample_ip [] t (TreeIndex.roster sample_import))
    (import_node_data sample_ip [] sample_import).
Proof.
  split; [vm_compute; reflexivity|].
  apply import_node_data_correct; [vm_compute; reflexivity| |right; reflexivity].
  intros i. destruct (decide (0 ≤ i < 3)) as [Hi|Hi]; [|by rewrite node_at_None].
  assert (i = 0 ∨ i = 1 ∨ i = 2) as [->|[->| ->]] by lia; reflexivity.
Defined.

Lemma index_answers_scan_witness :
  ∃ t, add_leaf sample_ip [] new (member 1 1 1) None = (Ok 0, t) ∧
    can_support_proposal t 8 = can_support_proposal_scan t 8 ∧
    scan_identity sample_ip [] [byte.of_Z 1] (non_empty_leaves (nodes t)) = Ok (get_leaf_node_with_identity t [byte.of_Z 1]).
Proof.
  assert ((add_leaf sample_ip [] new (member 1 1 1) None).1 = Ok 0) as H by (vm_compute; reflexivity).
  destruct (add_leaf_cases sample_ip [] new ∅ (member 1 1 1) None (new_inv _ _))
    as [(i & t & E & _ & _ & _ & Hinv & _)|(e & ti & E & _)]; [reflexivity|split; reflexivity| |rewrite E in H; discriminate H].
  assert (i = 0) as -> by (rewrite E in H; injection H; done). exists t. split; [exact E|].
  eapply index_answers_scan; [exact Hinv|].
  intros j l [[_ <-]|[_ Hn]]%lookup_insert_Some; [reflexivity|by rewrite lookup_empty in Hn].
Defined.

(** ** Two behaviours to know about *)

(** Members 0 and 1 update, by reference, in a group of three: the new leaf of 0
    takes the HPKE key that 1 gives up, the new leaf of 1 takes the one of 2. *)
Definition crossing_updates : ProposalBundle :=
  set_updates [update_info (ByReference [byte.of_Z 1]) 0 (member 2 1 1);
               update_info (ByReference [byte.of_Z 2]) 1 (member 3 2 2)] [0; 1] empty_bundle.

(** The committer's mode ([filter] on) can lose a member.  When an update can
    neither be applied nor undone, [batch_edit] means to revert all updates, but
    the old leaf of the update at hand is not put back, and the index goes back to
    a state in which the old leaves of all updates are missing: the edit
    succeeds, no remove was proposed, and member 1 is gone from the tree while
    members 0 and 1 are gone from the index.  The bundle keeps the senders of the
    updates it drops. *)
Theorem batch_edit_revert_loses_member :
  leaf_at (nodes sample_group) 1 = Some (member 2 2 2) ∧
  match batch_edit sample_ip [] toy_csp true sample_group crossing_updates with
  | Ok (t, b, added) =>
      leaf_at (nodes t) 0 = Some (member 1 1 1) ∧ leaf_at (nodes t) 1 = None ∧
      leaf_at (nodes t) 2 = Some (member 3 3 3) ∧
      get_leaf_node_with_identity t [byte.of_Z 1] = None ∧ get_leaf_node_with_identity t [byte.of_Z 2] = None ∧
      removals b = [] ∧ updates b = [] ∧ update_senders b = [0; 1] ∧ added = []
  | _ => False
  end.
Proof. vm_compute. split_and!; reflexivity. Qed.

End TreeKem.
