(* ===== verification/GroupContext.v ===== *)
(** * The group context (mls-rs/src/group/context.rs)

    What all members of a group agree on in an epoch, and its wire format. *)
From S2P Require Import Prelude Codec Types.
Import LeafCodecs.

Record GroupContext := {
  protocol_version : Z;
  gc_cipher_suite : Z;
  group_id : bytes;
  epoch : Z;
  tree_hash : bytes;
  confirmed_transcript_hash : bytes;
  gc_extensions : ExtensionList.t;
}.

#[global] Instance group_context_eq_dec : EqDecision GroupContext.
Proof. solve_decision. Defined.

(** [GroupContext::new_group]. *)
Definition new_group (version cipher_suite : Z) (group_id tree_hash : bytes) (extensions : ExtensionList.t)
    : GroupContext := {|
  protocol_version := version; gc_cipher_suite := cipher_suite; group_id := group_id; epoch := 0;
  tree_hash := tree_hash; confirmed_transcript_hash := []; gc_extensions := extensions |}.

Definition group_context_codec : MlsCodec GroupContext :=
  struct_codec
    (λ c, (protocol_version c, (gc_cipher_suite c, (group_id c, (epoch c, (tree_hash c,
      (confirmed_transcript_hash c, gc_extensions c)))))))
    (λ '(a, (b, (c, (d, (e, (f, g)))))),
       {| protocol_version := a; gc_cipher_suite := b; group_id := c; epoch := d; tree_hash := e;
          confirmed_transcript_hash := f; gc_extensions := g |})
    (tuple_codec u16_codec (tuple_codec u16_codec (tuple_codec byte_vec_codec (tuple_codec u64_codec
      (tuple_codec byte_vec_codec (tuple_codec byte_vec_codec ExtensionList.codec)))))).

(** Replacing a field. *)
Definition with_tree_hash (c : GroupContext) (h : bytes) : GroupContext := {|
  protocol_version := protocol_version c; gc_cipher_suite := gc_cipher_suite c; group_id := group_id c;
  epoch := epoch c; tree_hash := h; confirmed_transcript_hash := confirmed_transcript_hash c;
  gc_extensions := gc_extensions c |}.

#[export] Instance group_context_settled : EncodeSettled group_context_codec.
Proof. apply _. Qed.

Definition group_context_wf (c : GroupContext) : Prop :=
  is_u16 (protocol_version c) ∧ is_u16 (gc_cipher_suite c) ∧ is_u64 (epoch c) ∧ ext_list_wf (gc_extensions c).

#[export] Instance group_context_laws : CodecLaws group_context_codec group_context_wf.
Proof.
  eapply laws_iff; [apply struct_laws; [by intros []|by intros (?&?&?&?&?&?&?)|typeclasses eauto]|].
  intros []. unfold group_context_wf. cbn. tauto.
Qed.
