(* ===== verification/Validator.v ===== *)
(** * Validators (mls-rs/src/tree_kem/leaf_node_validator.rs, tree_validator.rs,
    key_package/validator.rs, message_processor.rs)

    What a client checks of leaves, key packages and whole trees it did not make.
    The theorems say, for each, exactly which values are accepted; for the
    unmerged leaves of a tree, whose check is a walk that strikes entries off
    copies of the lists, that it accepts exactly the trees in which every unmerged
    leaf of a node is a member that is unmerged all the way up to that node. *)
From Stdlib Require Import Strings.String.
From S2P Require Import Prelude Codec TreeMath Types Node TreeIndex Extensions Crypto Labels TreeHash ParentHash Proposal TreeKem GroupContext.
Import Node.

(** ** Leaves *)
Inductive ValidationContext :=
  | AddContext (t : option Z)
  | UpdateContext (group_id : bytes) (leaf_index : Z) (t : option Z)
  | CommitContext (group_id : bytes) (leaf_index : Z) (t : option Z).

Definition signing_context (c : ValidationContext) : LeafNodeSigningContext :=
  match c with
  | AddContext _ => {| ctx_group_id := None; ctx_leaf_index := None |}
  | UpdateContext g i _ | CommitContext g i _ => {| ctx_group_id := Some g; ctx_leaf_index := Some i |}
  end.

Definition generation_time (c : ValidationContext) : option Z :=
  match c with AddContext t | UpdateContext _ _ t | CommitContext _ _ t => t end.

Definition check_context (l : LeafNode) (c : ValidationContext) : Result MlsError unit :=
  match c with
  | AddContext t =>
      match leaf_node_source l with
      | KeyPackageSource lifetime =>
          match t with
          | Some now => if negb (within_lifetime lifetime now) then Err InvalidLifetime else Ok tt
          | None => Ok tt
          end
      | _ => Err InvalidLeafNodeSource
      end
  | UpdateContext _ _ _ => match leaf_node_source l with UpdateSource => Ok tt | _ => Err InvalidLeafNodeSource end
  | CommitContext _ _ _ => match leaf_node_source l with CommitSource _ => Ok tt | _ => Err InvalidLeafNodeSource end
  end.

(** A [for] loop that returns an error at the first item not in [have]. *)
Fixpoint require_all (have : list Z) (err : Z → MlsError) (l : list Z) : Result MlsError unit :=
  match l with
  | [] => Ok tt
  | x :: l => if bool_decide (x ∈ have) then require_all have err l else Err (err x)
  end.

Section leaf.
Context (csp : CipherSuiteProvider) (ip : IdentityProvider) (group_context_extensions : option ExtensionList.t).

(** [and_then(|exts| exts.get_as::<E>().transpose()).transpose()?]. *)
Definition group_extension {E} `{!MlsCodecExtension E} : Result MlsError (option E) :=
  match group_context_extensions with
  | None => Ok None
  | Some exts => from_extension_error (get_as exts)
  end.

Definition validate_required_capabilities (l : LeafNode) : Result MlsError unit :=
  r ← group_extension (E:=RequiredCapabilitiesExt);
  match r with
  | None => Ok tt
  | Some r =>
      require_all (cap_extensions (capabilities l)) RequiredExtensionNotFound (rc_extensions r);;
      require_all (proposals (capabilities l)) RequiredProposalNotFound (rc_proposals r);;
      require_all (credentials (capabilities l)) RequiredCredentialNotFound (rc_credentials r)
  end.

Definition validate_external_senders_ext_credentials (l : LeafNode) : Result MlsError unit :=
  e ← group_extension (E:=ExternalSendersExt);
  match e with
  | None => Ok tt
  | Some e =>
      require_all (credentials (capabilities l)) RequiredCredentialNotFound
        ((λ s, credential_type (credential s)) <$> allowed_senders e)
  end.

Definition check_if_valid (l : LeafNode) (c : ValidationContext) : Result MlsError unit :=
  check_context l c;;
  provider (ip_validate_member ip (signing_identity l) (generation_time c) group_context_extensions);;
  verify csp (signature_key (signing_identity l)) (ascii "LeafNodeTBS") (signable_content l (signing_context c)) (signature l);;
  validate_required_capabilities l;;
  require_all (cap_extensions (capabilities l)) ExtensionNotInCapabilities (extension_type <$> leaf_extensions l);;
  require_all (cap_extensions (capabilities l)) UnsupportedGroupExtension
    (List.filter (λ ty, negb (is_default ty)) (extension_type <$> default [] group_context_extensions));;
  validate_external_senders_ext_credentials l.

(** The context a leaf's own source names. *)
Definition own_context (l : LeafNode) (gid : bytes) (leaf_index : Z) : ValidationContext :=
  match leaf_node_source l with
  | KeyPackageSource _ => AddContext None
  | UpdateSource => UpdateContext gid leaf_index None
  | CommitSource _ => CommitContext gid leaf_index None
  end.

Definition revalidate (l : LeafNode) (gid : bytes) (leaf_index : Z) : Result MlsError unit :=
  check_if_valid l (own_context l gid leaf_index).
End leaf.

(** ** Key packages *)
Definition key_package_data_codec : MlsCodec (Z * (Z * (bytes * (LeafNode * ExtensionList.t)))) :=
  tuple_codec u16_codec (tuple_codec u16_codec (tuple_codec byte_vec_codec (tuple_codec leaf_node_codec ExtensionList.codec))).

(** [Signable::signable_content] of a key package. *)
Definition key_package_tbs (k : KeyPackage) : Result Codec.Error bytes :=
  mls_encode_to_vec key_package_data_codec
    (kp_version k, (kp_cipher_suite k, (hpke_init_key k, (kp_leaf_node k, kp_extensions k)))).

Definition validate_key_package_properties (csp : CipherSuiteProvider) (k : KeyPackage) (version : Z) : Result MlsError unit :=
  verify csp (signature_key (signing_identity (kp_leaf_node k))) (ascii "KeyPackageTBS") (key_package_tbs k) (kp_signature k);;
  if negb (kp_version k =? version) then Err ProtocolVersionMismatch
  else if negb (kp_cipher_suite k =? csp_cipher_suite csp) then Err CipherSuiteMismatch
  else
    match csp_kem_public_key_validate csp (hpke_init_key k) with inl _ => Err InvalidInitKey | inr _ => Ok tt end;;
    if bool_decide (hpke_init_key k = leaf_public_key (kp_leaf_node k)) then Err InitLeafKeyEquality else Ok tt.

(** [validate_key_package] of message_processor.rs, at the time [now]. *)
Definition validate_key_package (csp : CipherSuiteProvider) (ip : IdentityProvider) (now : Z) (k : KeyPackage) (version : Z)
    : Result MlsError unit :=
  check_if_valid csp ip None (kp_leaf_node k) (AddContext (Some now));;
  validate_key_package_properties csp k version.

(** [KeyPackage::expiration]. *)
Definition kp_expiration (k : KeyPackage) : Result MlsError Z :=
  match leaf_node_source (kp_leaf_node k) with
  | KeyPackageSource l => Ok (not_after l)
  | _ => Err InvalidLeafNodeSource
  end.

(** ** Trees *)
Definition unmerged_set (n : option Node) : gset Z :=
  match n with Some (ParentNode p) => list_to_set (unmerged_leaves p) | _ => ∅ end.

(** The walk from a leaf: a blank node is passed, a node that lists the leaf as
    unmerged is struck off, any other ends it.  The height of a tree of [u32]
    indices bounds the rounds. *)
Fixpoint strike_path (fuel : nat) (nodes : NodeVec) (leaf_count index n : Z) (sets : list (gset Z))
    : Result MlsError (list (gset Z)) :=
  match fuel with
  | O => Diverge
  | S fuel =>
      match TreeMath.parent_sibling n leaf_count with
      | None => Ok sets
      | Some ps =>
          blank ← is_blank nodes (TreeMath.parent ps);
          if (blank : bool) then strike_path fuel nodes leaf_count index (TreeMath.parent ps) sets
          else
            p ← borrow_as_parent nodes (TreeMath.parent ps);
            if bool_decide (index ∈ unmerged_leaves p) then
              s ← vec_index sets (TreeMath.parent ps);
              strike_path fuel nodes leaf_count index (TreeMath.parent ps)
                (vec_set sets (TreeMath.parent ps) (s ∖ {[index]}))
            else Ok sets
      end
  end.

Definition validate_unmerged (t : TreeKemPublic) : Result MlsError unit :=
  let leaf_count := total_leaf_count (nodes t) in
  sets ← foldM (λ sets '(i, _), strike_path 33 (nodes t) leaf_count i (node_index i) sets)
    (unmerged_set <$> nodes t) (non_empty_leaves (nodes t));
  guard_or (forallb (λ s : gset Z, bool_decide (s = ∅)) sets) UnmergedLeavesMismatch.

Section tree.
Context (csp : CipherSuiteProvider) (ip : IdentityProvider) (context : GroupContext).

(** Hashes that were not computed yet are stored in the tree. *)
Definition validate_tree_hash (t : TreeKemPublic) : Result MlsError TreeKemPublic :=
  '(h, t) ← TreeHash.root_hash csp t;
  if bool_decide (h = GroupContext.tree_hash context) then Ok t else Err TreeHashMismatch.

Definition validate_no_trailing_blanks (t : TreeKemPublic) : Result MlsError unit :=
  n ← ok_or (last (nodes t)) UnexpectedEmptyTree;
  guard_or (match n with Some _ => true | None => false end) UnexpectedTrailingBlanks.

Fixpoint validate_leaves (l : list (Z * LeafNode)) : Result MlsError unit :=
  match l with
  | [] => Ok tt
  | (i, leaf) :: l => revalidate csp ip (Some (gc_extensions context)) leaf (group_id context) i;; validate_leaves l
  end.

Definition validate_tree (t : TreeKemPublic) : Result MlsError TreeKemPublic :=
  t ← validate_tree_hash t;
  ParentHash.validate_parent_hashes csp t;;
  validate_no_trailing_blanks t;;
  validate_leaves (non_empty_leaves (nodes t));;
  validate_unmerged t;;
  Ok t.
End tree.

(** * Unmerged leaves *)

(** Reading an ancestor of a position in the array never fails. *)
Lemma borrow_ancestor nodes i k :
  fits nodes → 0 ≤ i → 2 * i < len nodes → 0 ≤ k ≤ depth nodes →
  borrow_node nodes (TreeMath.node k (i / 2 ^ k)) = Ok (node_at nodes (TreeMath.node k (i / 2 ^ k))).
Proof.
  intros Hf Hi Hl Hk. destruct (depth_spec nodes Hf) as (Hd & _ & _).
  destruct (next_power_of_two_spec (len nodes)) as (e & He & Hp & Hle & Hmin); [lia|].
  assert (depth nodes ≤ e) as Hde.
  { unfold depth. rewrite <- (Z.log2_up_pow2 e) by done. apply Z.log2_up_le_mono.
    destruct (decide (e = 0)) as [->|]; [cbn in *; Z.div_mod_to_equations; lia|].
    replace e with (Z.pred e + 1) in * by lia. pose proof (pow2_pos (Z.pred e) ltac:(lia)) as Hpe.
    rewrite pow2_succ in * by lia. Z.div_mod_to_equations. lia. }
  assert (TreeMath.node k (i / 2 ^ k) < 2 ^ e) as Hlt.
  { destruct (decide (k = e)) as [->|Hne].
    - rewrite Z.div_small by lia. unfold TreeMath.node. lia.
    - assert (TreeMath.in_tree (e - 1) k (i / 2 ^ k)) as Hin.
      { apply TreeMath.in_tree_up; [lia|]. split; [done|]. replace e with (e - 1 + 1) in Hle by lia.
        rewrite pow2_succ in Hle by lia. lia. }
      destruct Hin as [_ Hj]. unfold TreeMath.node.
      assert (2 ^ e = 2 ^ (e - 1 - k) * 2 ^ (k + 1)) as -> by (rewrite <- Z.pow_add_r by lia; f_equal; lia).
      rewrite pow2_succ by lia. pose proof (pow2_pos k ltac:(lia)). nia. }
  unfold borrow_node, validate_index. rewrite Hp. destruct (Z.geb_spec (TreeMath.node k (i / 2 ^ k)) (2 ^ e)); [lia|].
  cbn. unfold node_at. by destruct (vec_get nodes _) as [[]|].
Qed.

Definition set_at (sets : list (gset Z)) (x : Z) : gset Z := default ∅ (vec_get sets x).

Section strike.
Context (nodes : NodeVec) (Hf : fits nodes) (Hpar : parity nodes) (i : Z) (Hi : 0 ≤ i) (Hlt : 2 * i < len nodes).

(** The entries a walk from level [k] strikes off. *)
Definition struck (k x : Z) : Prop :=
  ∃ m, k < m ≤ depth nodes ∧ x = TreeMath.node m (i / 2 ^ m) ∧ unmerged_up nodes i k m ∧ lists nodes i x.

Lemma in_depth : i < 2 ^ depth nodes.
Proof. destruct (depth_spec nodes Hf) as (Hd & _ & Hl). rewrite pow2_succ in Hl by lia. lia. Qed.

Lemma struck_step k x :
  0 ≤ k < depth nodes → let x0 := TreeMath.node (k + 1) (i / 2 ^ (k + 1)) in
  struck k x ↔ (node_at nodes x0 = None ∨ lists nodes i x0) ∧ ((x = x0 ∧ lists nodes i x0) ∨ struck (k + 1) x).
Proof.
  intros Hk x0. split.
  - intros (m & Hm & -> & Hup & Hl). split; [apply (Hup (k + 1)); lia|].
    destruct (decide (m = k + 1)) as [->|Hne]; [by left|right]. exists m. split_and!; [lia..|done| |done].
    intros h Hh. apply Hup. lia.
  - intros [H0 [[-> Hl]|(m & Hm & -> & Hup & Hl)]].
    + exists (k + 1). split_and!; [lia..|done| |done]. intros h Hh. by replace h with (k + 1) by lia.
    + exists m. split_and!; [lia..|done| |done]. intros h Hh. destruct (decide (h = k + 1)) as [->|]; [done|].
      apply Hup. lia.
Qed.

Lemma lists_em j x : lists nodes j x ∨ ¬ lists nodes j x.
Proof.
  unfold lists. destruct (node_at nodes x) as [[l|p]|]; [right; by intros (? & ? & _)| |right; by intros (? & ? & _)].
  destruct (decide (j ∈ unmerged_leaves p)); [left; by exists p|right]. by intros (? & [= <-] & ?).
Qed.

Lemma struck_em k x : 0 ≤ k ≤ depth nodes → struck k x ∨ ¬ struck k x.
Proof.
  intros Hk. remember (Z.to_nat (depth nodes - k)) as n eqn:En. revert k Hk En.
  induction n as [|n IH]; intros k Hk En.
  { right. intros (m & Hm & _). lia. }
  destruct (IH (k + 1)) as [Hs|Hs]; [lia..| |]; pose proof (struck_step k x ltac:(lia)) as H;
    set (x0 := TreeMath.node (k + 1) (i / 2 ^ (k + 1))) in *; cbn in H;
    destruct (lists_em i x0) as [Hl|Hl]; destruct (node_at nodes x0); destruct (decide (x = x0)); rewrite H; intuition congruence.
Qed.

Lemma strike_path_spec fuel k sets :
  0 ≤ k ≤ depth nodes → (Z.to_nat (depth nodes - k) < fuel)%nat → len sets = len nodes →
  ∃ sets', strike_path fuel nodes (total_leaf_count nodes) i (TreeMath.node k (i / 2 ^ k)) sets = Ok sets' ∧
    len sets' = len nodes ∧
    ∀ x z, z ∈ set_at sets' x ↔ z ∈ set_at sets x ∧ ¬ (z = i ∧ struck k x).
Proof.
  destruct (depth_spec nodes Hf) as (Hd & Hc & _). pose proof in_depth as Hid.
  revert k sets. induction fuel as [|fuel IH]; intros k sets Hk Hfu Hlen; [lia|]. cbn [strike_path].
  rewrite Hc, TreeMath.parent_sibling_node by (try done; by apply TreeMath.in_tree_up).
  assert (∀ m, 0 ≤ m → i / 2 ^ m / 2 = i / 2 ^ (m + 1)) as Hdiv.
  { intros m Hm. rewrite Z.div_div by (try apply pow2_pos; lia). f_equal. rewrite pow2_succ by done. lia. }
  destruct (Z.eqb_spec k (depth nodes)) as [->|Hne].
  { exists sets. split_and!; [done..|]. intros x z. split; [|tauto]. intros Hz. split; [done|].
    intros (_ & m & Hm & _). lia. }
  cbn [TreeMath.parent]. rewrite Hdiv by lia. unfold is_blank, borrow_as_parent.
  rewrite borrow_ancestor by (done || lia). cbn [mbind result_bind].
  set (x0 := TreeMath.node (k + 1) (i / 2 ^ (k + 1))). pose proof (λ x, struck_step k x ltac:(lia)) as Hstep. fold x0 in Hstep.
  rewrite <- Hc in *. destruct (node_at nodes x0) as [n|] eqn:E.
  - rewrite bool_decide_eq_false_2 by done. pose proof (Hpar x0) as Hp0. rewrite E in Hp0.
    destruct n as [l|p]; [exfalso|].
    { unfold x0 in Hp0. rewrite even_node in Hp0 by (try (apply Z.div_pos; [|apply pow2_pos]); lia).
      apply Z.eqb_eq in Hp0. lia. }
    cbn [as_parent mbind result_bind]. case_bool_decide as Hin.
    + assert (lists nodes i x0) as Hl0 by by exists p.
      pose proof (node_at_range nodes x0 _ E) as Hr.
      destruct (vec_get sets x0) as [s0|] eqn:Es.
      2:{ apply vec_get_None in Es. unfold len in *. lia. }
      unfold vec_index. rewrite Es. cbn [unwrap mbind result_bind].
      destruct (IH (k + 1) (vec_set sets x0 (s0 ∖ {[i]}))) as (sets' & Hs & Hl' & Hz); [lia|lia|by rewrite len_vec_set|].
      exists sets'. split_and!; [done..|]. intros x z. rewrite Hz, Hstep. unfold set_at.
      destruct (decide (x = x0)) as [->|Hx].
      * rewrite vec_get_set_eq, Es by (unfold len in *; lia). cbn. rewrite elem_of_difference, elem_of_singleton. tauto.
      * rewrite vec_get_set_ne by done. tauto.
    + exists sets. split_and!; [done..|]. intros x z. rewrite Hstep. split; [|tauto]. intros Hz. split; [done|].
      intros (_ & [H0|(p' & Hp' & Hin')] & _); [congruence|]. congruence.
  - rewrite bool_decide_eq_true_2 by done. destruct (IH (k + 1) sets) as (sets' & Hs & Hl' & Hz); [lia|lia|done|].
    exists sets'. split_and!; [done..|]. intros x z. rewrite Hz, Hstep.
    assert (¬ lists nodes i x0) by (intros (p & Hp & _); congruence). tauto.
Qed.
End strike.

Lemma strike_all nodes (l : list (Z * LeafNode)) sets :
  fits nodes → parity nodes → (∀ e, e ∈ l → 0 ≤ e.1 ∧ 2 * e.1 < len nodes) → len sets = len nodes →
  ∃ sets', foldM (λ sets '(i, _), strike_path 33 nodes (total_leaf_count nodes) i (node_index i) sets) sets l = Ok sets' ∧
    len sets' = len nodes ∧
    ∀ x z, z ∈ set_at sets' x ↔ z ∈ set_at sets x ∧ ¬ (z ∈ l.*1 ∧ struck nodes z 0 x).
Proof.
  intros Hf Hpar. destruct (depth_spec nodes Hf) as (Hd & _ & _). unfold fits in Hf.
  revert sets. induction l as [|[i leaf] l IH]; intros sets Hl Hlen; cbn [foldM].
  { exists sets. split_and!; [done..|]. intros x z. rewrite elem_of_nil. tauto. }
  destruct (Hl (i, leaf)) as [Hi Hlt]; [apply elem_of_cons; by left|]. cbn in Hi, Hlt.
  destruct (strike_path_spec nodes Hf Hpar i Hi Hlt 33 0 sets) as (s1 & H1 & Hl1 & Hz1); [lia|lia|done|].
  rewrite TreeMath.node_0, Z.div_1_r in H1. unfold node_index. rewrite Z.mul_comm, u32_small by (unfold is_u32; lia).
  rewrite H1. cbn [mbind result_bind]. destruct (IH s1) as (s2 & H2 & Hl2 & Hz2); [|done|].
  { intros e He. apply Hl, elem_of_cons. by right. }
  exists s2. split_and!; [done..|]. intros x z. rewrite Hz2, Hz1. cbn. rewrite elem_of_cons.
  destruct (decide (z = i)) as [->|]; tauto.
Qed.

(** What is left over when nothing is listed wrongly. *)
Lemma unmerged_ok_struck nodes :
  fits nodes → (unmerged_ok nodes ↔
    ∀ x i, lists nodes i x → i ∈ (non_empty_leaves nodes).*1 ∧ struck nodes i 0 x).
Proof.
  intros Hf. assert (∀ i, i ∈ (non_empty_leaves nodes).*1 ↔ is_Some (leaf_at nodes i) ∧ 0 ≤ i) as Hne.
  { intros i. rewrite list_elem_of_fmap. split.
    - intros ([j l] & -> & Hj%elem_of_non_empty_leaves). 2:done. destruct Hj as [Hj ?]. by split; [eexists|].
    - intros [[l Hl] Hi]. exists (i, l). split; [done|]. by apply elem_of_non_empty_leaves. }
  split; intros H x i Hl; specialize (H x i Hl).
  - destruct H as (Ho & Hi & k & Hk & -> & Hup). rewrite Hne. split; [done|]. exists k. split_and!; [lia| |done..].
    apply Z.nlt_ge. intros Hlt. destruct Hl as (p & Hp & _). rewrite ancestor_above in Hp; [done..| |done].
    destruct Ho as [l Ho]. unfold leaf_at in Ho. destruct (node_at nodes (2 * i)) eqn:E; [|done]. apply node_at_range in E.
    split; [done|]. apply leaf_in_tree; [done..|lia].
  - rewrite Hne in H. destruct H as [[Ho Hi] (m & Hm & -> & Hup & _)]. split_and!; [done..|]. exists m. split_and!; [lia|done..].
Qed.

Lemma set_at_unmerged nodes x z : z ∈ set_at (unmerged_set <$> nodes) x ↔ lists nodes z x.
Proof.
  unfold set_at, lists, node_at, vec_get. destruct (x <? 0); cbn.
  - split; [set_solver|]. by intros (? & ? & _).
  - rewrite list_lookup_fmap. destruct (nodes !! Z.to_nat x) as [[[l|p]|]|]; cbn.
    + split; [set_solver|]. by intros (? & ? & _).
    + rewrite elem_of_list_to_set. split; [intros ?; by exists p|]. by intros (? & [= <-] & ?).
    + split; [set_solver|]. by intros (? & ? & _).
    + split; [set_solver|]. by intros (? & ? & _).
Qed.

Lemma validate_unmerged_spec t :
  fits (nodes t) → parity (nodes t) →
  (validate_unmerged t = Ok tt ∧ unmerged_ok (nodes t)) ∨
  (validate_unmerged t = Err UnmergedLeavesMismatch ∧ ¬ unmerged_ok (nodes t)).
Proof.
  intros Hf Hpar. set (ns := nodes t) in *. unfold validate_unmerged. fold ns.
  destruct (strike_all ns (non_empty_leaves ns) (unmerged_set <$> ns) Hf Hpar) as (sets & -> & Hl & Hz).
  { intros [i l] (Hi & Hi0)%elem_of_non_empty_leaves; [|done]. split; [done|]. unfold leaf_at in Hi.
    destruct (node_at ns (2 * i)) eqn:E; [|done]. apply node_at_range in E. cbn. lia. }
  { unfold len. by rewrite length_fmap. }
  cbn [mbind result_bind].
  assert (forallb (λ s : gset Z, bool_decide (s = ∅)) sets = true ↔ ∀ x z, z ∉ set_at sets x) as Hempty.
  { rewrite forallb_forall. unfold set_at. split.
    - intros H x z. destruct (vec_get sets x) as [s|] eqn:E; cbn; [|set_solver].
      assert (In s sets) as Hin. { apply list_elem_of_In. unfold vec_get in E. case_match; [done|]. by eapply list_elem_of_lookup_2. }
      apply H, bool_decide_eq_true_1 in Hin. set_solver.
    - intros H s Hs%list_elem_of_In. apply bool_decide_eq_true_2. apply list_elem_of_lookup in Hs as [j Hj].
      apply set_eq. intros z. split; [|set_solver]. intros Hzs. exfalso. apply (H (Z.of_nat j) z).
      by rewrite vec_get_nat, Hj. }
  assert ((∀ x z, z ∉ set_at sets x) ↔ unmerged_ok ns) as Hiff.
  { rewrite unmerged_ok_struck by done. setoid_rewrite Hz. setoid_rewrite set_at_unmerged. split.
    - intros H x i Hli. specialize (H x i).
      destruct (decide (i ∈ (non_empty_leaves ns).*1)) as [Hin|Hin]; [|exfalso; tauto].
      destruct (struck_em ns i 0 x) as [Hs|Hs]; [destruct (depth_spec ns Hf); lia|done|exfalso; tauto].
    - intros H x z [Hli Hn]. apply Hn. by apply H. }
  destruct (forallb _ sets) eqn:E.
  - left. split; [done|]. by apply Hiff, Hempty.
  - right. split; [done|]. intros H. pose proof (proj2 Hempty (proj2 Hiff H)). congruence.
Qed.

(** * What is accepted *)

Lemma require_all_ok have err l : require_all have err l = Ok tt ↔ ∀ x, x ∈ l → x ∈ have.
Proof.
  induction l as [|y l IH]; cbn.
  - split; [|done]. intros _ x Hx. by apply elem_of_nil in Hx.
  - case_bool_decide as Hy.
    + rewrite IH. setoid_rewrite elem_of_cons. naive_solver.
    + split; [done|]. intros H. destruct Hy. apply H, elem_of_cons. by left.
Qed.

Lemma provider_ok {A} (r : AnyError + A) a : provider r = Ok a ↔ r = inr a.
Proof. destruct r; cbn; naive_solver. Qed.

Lemma seq_ok {E B} (m : Result E unit) (k : Result E B) b : (m;; k) = Ok b ↔ m = Ok tt ∧ k = Ok b.
Proof. destruct m as [[]| | |]; cbn; split; try done; by intros []. Qed.

Lemma option_ext_ok {A} (r : Result MlsError (option A)) (k : A → Result MlsError unit) :
  settled r → (x ← r; match x with None => Ok tt | Some a => k a end) = Ok tt ↔
    (∃ x, r = Ok x) ∧ ∀ a, r = Ok (Some a) → k a = Ok tt.
Proof.
  destruct r as [[a|]| | |]; cbn; intros Hs; try done; split.
  - intros Hk. split; [by eexists|]. by intros ? [= <-].
  - intros [_ H]. by apply H.
  - intros _. split; [by eexists|done].
  - done.
  - done.
  - by intros [[x Hx] _].
Qed.

(** The extension lists that can be read where the protocol reads them. *)
Definition readable (exts : option ExtensionList.t) : Prop :=
  (∃ r, group_extension exts (E:=RequiredCapabilitiesExt) = Ok r) ∧ (∃ e, group_extension exts (E:=ExternalSendersExt) = Ok e).

(** The source of the leaf and, for a key package, its lifetime fit the occasion. *)
Definition fits_context (l : LeafNode) (c : ValidationContext) : Prop :=
  match c with
  | AddContext t => ∃ lt, leaf_node_source l = KeyPackageSource lt ∧
      ∀ now, t = Some now → not_before lt ≤ now ≤ not_after lt
  | UpdateContext _ _ _ => leaf_node_source l = UpdateSource
  | CommitContext _ _ _ => ∃ h, leaf_node_source l = CommitSource h
  end.

(** RFC 9420, section 7.3, less the checks that need the rest of the tree. *)
Record valid_leaf (csp : CipherSuiteProvider) (ip : IdentityProvider) (exts : option ExtensionList.t) (l : LeafNode)
    (c : ValidationContext) : Prop := {
  vl_context : fits_context l c;
  vl_identity : ip_validate_member ip (signing_identity l) (generation_time c) exts = inr tt;
  vl_signature : verify csp (signature_key (signing_identity l)) (ascii "LeafNodeTBS")
    (signable_content l (signing_context c)) (signature l) = Ok tt;
  vl_readable : readable exts;
  vl_required r : group_extension exts = Ok (Some r) →
    (∀ x, x ∈ rc_extensions r → x ∈ cap_extensions (capabilities l)) ∧
    (∀ x, x ∈ rc_proposals r → x ∈ proposals (capabilities l)) ∧
    (∀ x, x ∈ rc_credentials r → x ∈ credentials (capabilities l));
  vl_extensions e : e ∈ leaf_extensions l → extension_type e ∈ cap_extensions (capabilities l);
  vl_group_extensions es e : exts = Some es → e ∈ es → 5 < extension_type e → extension_type e ∈ cap_extensions (capabilities l);
  vl_senders x s : group_extension exts = Ok (Some x) → s ∈ allowed_senders x →
    credential_type (credential s) ∈ credentials (capabilities l);
}.

Lemma check_context_ok l c : check_context l c = Ok tt ↔ fits_context l c.
Proof.
  destruct c as [t|g i t|g i t]; cbn; destruct (leaf_node_source l) as [lt| |h]; try (split; naive_solver).
  destruct t as [now|]; cbn; [|split; naive_solver].
  unfold within_lifetime. split.
  - intros H. exists lt. split; [done|]. intros ? [= <-]. destruct (_ <=? now) eqn:E1, (now <=? _) eqn:E2; cbn in H; try done. lia.
  - intros (lt' & [= <-] & H). specialize (H now eq_refl). rewrite (proj2 (Z.leb_le _ _)), (proj2 (Z.leb_le _ _)) by lia. done.
Qed.

Lemma group_extension_settled {E} `{!MlsCodecExtension E} wf `{!ExtensionLaws E wf} exts :
  settled (group_extension exts (E:=E)).
Proof.
  unfold group_extension. destruct exts as [l|]; [|done]. pose proof (get_as_settled (E:=E) wf l) as H.
  unfold from_extension_error. by destruct (get_as l).
Qed.

Lemma required_ok exts l :
  validate_required_capabilities exts l = Ok tt ↔
  (∃ r, group_extension exts (E:=RequiredCapabilitiesExt) = Ok r) ∧ ∀ r, group_extension exts = Ok (Some r) →
    (∀ x, x ∈ rc_extensions r → x ∈ cap_extensions (capabilities l)) ∧
    (∀ x, x ∈ rc_proposals r → x ∈ proposals (capabilities l)) ∧
    (∀ x, x ∈ rc_credentials r → x ∈ credentials (capabilities l)).
Proof.
  unfold validate_required_capabilities. rewrite option_ext_ok by (eapply group_extension_settled; apply _).
  by setoid_rewrite seq_ok; setoid_rewrite seq_ok; setoid_rewrite require_all_ok.
Qed.

Lemma senders_ok exts l :
  validate_external_senders_ext_credentials exts l = Ok tt ↔
  (∃ e, group_extension exts (E:=ExternalSendersExt) = Ok e) ∧
  ∀ x, group_extension exts = Ok (Some x) → ∀ s, s ∈ allowed_senders x → credential_type (credential s) ∈ credentials (capabilities l).
Proof.
  unfold validate_external_senders_ext_credentials. rewrite option_ext_ok by (eapply group_extension_settled; apply _).
  setoid_rewrite require_all_ok. setoid_rewrite list_elem_of_fmap. naive_solver.
Qed.

Lemma group_extensions_ok exts l :
  require_all (cap_extensions (capabilities l)) UnsupportedGroupExtension
    (List.filter (λ ty, negb (is_default ty)) (extension_type <$> default [] exts)) = Ok tt ↔
  ∀ es e, exts = Some es → e ∈ es → 5 < extension_type e → extension_type e ∈ cap_extensions (capabilities l).
Proof.
  rewrite require_all_ok. setoid_rewrite list_elem_of_In. setoid_rewrite filter_In. setoid_rewrite <- list_elem_of_In.
  unfold is_default. setoid_rewrite negb_true_iff. setoid_rewrite Z.leb_gt. setoid_rewrite list_elem_of_fmap.
  destruct exts; cbn; [naive_solver|]. split; [naive_solver|]. intros _ x [(e & _ & He) _]. by apply elem_of_nil in He.
Qed.

Lemma check_if_valid_ok csp ip exts l c :
  check_if_valid csp ip exts l c = Ok tt ↔ valid_leaf csp ip exts l c.
Proof.
  unfold check_if_valid. rewrite !seq_ok, check_context_ok, provider_ok, required_ok, senders_ok, group_extensions_ok, require_all_ok.
  setoid_rewrite list_elem_of_fmap. split.
  - intros (H1 & H2 & H3 & (H4 & H5) & H6 & H7 & (H8 & H9)). split; try done; naive_solver.
  - intros [H1 H2 H3 [H4 H5] H6 H7 H8 H9]. split_and!; try done; naive_solver.
Qed.

(** C26. The leaf node validator accepts exactly the leaves the protocol allows on the
    occasion: right source and, for a key package at a known time, lifetime;
    identity accepted by the application; signature by the leaf's own key over
    the leaf in its context; every required capability, every extension of the
    leaf and every extension of the group that is not built in declared among the
    leaf's capabilities; and the credential types of all external senders. *)
Theorem leaf_validator_exact csp ip exts l c :
  check_if_valid csp ip exts l c = Ok tt ↔ valid_leaf csp ip exts l c.
Proof. apply check_if_valid_ok. Qed.

(** The walk that validates the unmerged leaves of a tree accepts exactly the
    trees in which every leaf that a filled node lists as unmerged is occupied,
    lies below that node, and is unmerged at every filled node in between; it
    refuses all others with [UnmergedLeavesMismatch], and ends without a panic on
    every tree with leaves at even and parents at odd positions. *)
Theorem validate_unmerged_correct t :
  fits (nodes t) → parity (nodes t) →
  (validate_unmerged t = Ok tt ↔ unmerged_ok (nodes t)) ∧
  (validate_unmerged t = Err UnmergedLeavesMismatch ↔ ¬ unmerged_ok (nodes t)).
Proof. intros Hf Hp. destruct (validate_unmerged_spec t Hf Hp) as [[-> H]|[-> H]]; naive_solver. Qed.

Lemma validate_leaves_ok csp ip context l :
  validate_leaves csp ip context l = Ok tt ↔
  ∀ i leaf, (i, leaf) ∈ l → valid_leaf csp ip (Some (gc_extensions context)) leaf (own_context leaf (group_id context) i).
Proof.
  induction l as [|[j leaf] l IH]; cbn.
  - split; [|done]. intros _ i leaf H. by apply elem_of_nil in H.
  - rewrite seq_ok, IH. unfold revalidate. split.
    + intros [H1 H2] i k [[= <- <-]|Hin]%elem_of_cons; [|by apply H2]. by apply check_if_valid_ok.
    + intros H. split; [|intros i k Hin; apply H, elem_of_cons; by right].
      apply check_if_valid_ok, H, elem_of_cons. by left.
Qed.

Lemma no_trailing_ok t : validate_no_trailing_blanks t = Ok tt ↔ ∃ n, last (nodes t) = Some (Some n).
Proof. unfold validate_no_trailing_blanks. destruct (last (nodes t)) as [[n|]|]; cbn; naive_solver. Qed.

(** C25. The tree validator accepts a tree exactly when its root hash is the one in the
    group context, its parent hashes are valid, its last node is filled, every
    member's leaf is valid in the context its own source names, and the unmerged
    leaves are consistent; the tree it returns is the given one with its hashes
    filled in. *)
Theorem tree_validator_exact csp ip context t t' :
  fits (nodes t) → parity (nodes t) →
  validate_tree csp ip context t = Ok t' ↔
  TreeHash.root_hash csp t = Ok (GroupContext.tree_hash context, t') ∧ nodes t' = nodes t ∧
  ParentHash.validate_parent_hashes csp t' = Ok tt ∧
  (∃ n, last (nodes t) = Some (Some n)) ∧
  (∀ i l, 0 ≤ i → leaf_at (nodes t) i = Some l →
     valid_leaf csp ip (Some (gc_extensions context)) l (own_context l (group_id context) i)) ∧
  unmerged_ok (nodes t).
Proof.
  intros Hf Hp. unfold validate_tree, validate_tree_hash.
  destruct (TreeHash.root_hash csp t) as [[h t1]| | |] eqn:Eh; cbn [mbind result_bind]; try naive_solver.
  pose proof (TreeHash.root_hash_same csp t h t1 Eh) as Hn.
  case_bool_decide as Ec; cbn [mbind result_bind]; [subst h|naive_solver].
  rewrite !seq_ok, no_trailing_ok, validate_leaves_ok, Hn.
  assert (validate_unmerged t1 = Ok tt ↔ unmerged_ok (nodes t)) as ->.
  { rewrite <- Hn in *. destruct (validate_unmerged_spec t1 Hf Hp) as [[-> H]|[-> H]]; naive_solver. }
  setoid_rewrite elem_of_non_empty_leaves; [|done]. naive_solver.
Qed.

(** ** Concrete runs *)
Definition one_parent (unmerged : list Z) : TreeKemPublic := {|
  index := TreeIndex.new; tree_hashes := [];
  nodes := [Some (Leaf (sample_leaf UpdateSource));
            Some (ParentNode {| parent_public_key := []; parent_parent_hash := []; unmerged_leaves := unmerged |});
            Some (Leaf (sample_leaf UpdateSource))] |}.

Lemma validate_unmerged_correct_witness :
  unmerged_ok (nodes (one_parent [1])) ∧ ¬ unmerged_ok (nodes (one_parent [5])).
Proof.
  split.
  - apply (validate_unmerged_correct (one_parent [1])); [reflexivity|apply parity_check_sound; reflexivity|vm_compute; reflexivity].
  - apply (validate_unmerged_correct (one_parent [5])); [reflexivity|apply parity_check_sound; reflexivity|vm_compute; reflexivity].
Defined.

Definition founder : TreeKemPublic := {|
  index := TreeIndex.new; tree_hashes := [];
  nodes := [Some (Leaf (sample_leaf (KeyPackageSource {| not_before := 0; not_after := 10 |})))] |}.

Definition founder_context : GroupContext :=
  match TreeHash.root_hash toy_csp founder with
  | Ok (h, _) => new_group 1 1 [Byte.x07] h []
  | _ => new_group 1 1 [] [] []
  end.

Lemma tree_validator_exact_witness :
  ∃ t', validate_tree toy_csp TreeKem.sample_ip founder_context founder = Ok t' ∧
    TreeHash.root_hash toy_csp founder = Ok (GroupContext.tree_hash founder_context, t') ∧ unmerged_ok (nodes founder).
Proof.
  destruct (validate_tree toy_csp TreeKem.sample_ip founder_context founder) as [t'| | |] eqn:E;
    try (vm_compute in E; discriminate E).
  exists t'. split; [reflexivity|].
  apply (tree_validator_exact toy_csp TreeKem.sample_ip founder_context founder t') in E as (H1 & _ & _ & _ & _ & H2);
    [split; assumption|reflexivity|apply parity_check_sound; reflexivity].
Defined.
