(* ===== verification/Kem.v ===== *)
(** * TreeKEM: sharing path secrets (mls-rs/src/tree_kem/kem.rs, path_secret.rs,
    private.rs, update_path.rs, leaf_node.rs)

    The committer refreshes the keys on its direct path ([encap]) and encrypts
    each path secret to the resolution of the copath node; every other member
    finds its ciphertext, decrypts the secret of the lowest common ancestor and
    derives the rest ([decap]).  The theorem is that both ends agree on the commit
    secret and on the keys of the shared ancestors. *)
From Stdlib Require Import Strings.String.
From S2P Require Import Prelude Codec TreeMath Types Node TreeIndex Crypto Labels TreeHash ParentHash Proposal TreeKem GroupContext.
Import Node.

Module Kem.
Import ParentHash.

(** ** Path secrets: path_secret.rs *)

(** [PathSecretGenerator]: the first secret is given or random, the others are
    derived from the one before. *)
Record PathSecretGenerator := { last_secret : option bytes; starting_with : option bytes }.

Definition generator_new : PathSecretGenerator := {| last_secret := None; starting_with := None |}.
Definition generator_starting_with (s : bytes) : PathSecretGenerator :=
  {| last_secret := None; starting_with := Some s |}.

(** [PathSecret::random] and [PathSecret::empty]. *)
Definition path_secret_random (csp : CipherSuiteProvider) (seed : bytes) : Result MlsError bytes :=
  crypto (csp_random_bytes csp seed (csp_kdf_extract_size csp)).
Definition path_secret_empty (csp : CipherSuiteProvider) : bytes :=
  replicate (Z.to_nat (csp_kdf_extract_size csp)) (byte.of_Z 0).

Definition next_secret (csp : CipherSuiteProvider) (seed : bytes) (g : PathSecretGenerator)
    : Result MlsError (bytes * PathSecretGenerator) :=
  secret ← (match starting_with g with
            | Some s => Ok s
            | None => match last_secret g with
                      | Some last => kdf_derive_secret csp last (ascii "path")
                      | None => path_secret_random csp seed
                      end
            end);
  Ok (secret, {| last_secret := Some secret; starting_with := None |}).

Definition to_hpke_key_pair (csp : CipherSuiteProvider) (secret : bytes) : Result MlsError (bytes * bytes) :=
  node_secret ← kdf_derive_secret csp secret (ascii "node");
  crypto (csp_kem_derive csp node_secret).

(** ** Update paths: update_path.rs *)
Record UpdatePathNode := { up_public_key : bytes; encrypted_path_secret : list HpkeCiphertext }.
Record UpdatePath := { up_leaf_node : LeafNode; up_nodes : list UpdatePathNode }.
Record ValidatedUpdatePath := { v_leaf_node : LeafNode; v_nodes : list (option UpdatePathNode) }.

Definition update_path_node_codec : MlsCodec UpdatePathNode :=
  struct_codec (λ n, (up_public_key n, encrypted_path_secret n))
    (λ p, {| up_public_key := p.1; encrypted_path_secret := p.2 |})
    (tuple_codec byte_vec_codec (vec_codec hpke_ciphertext_codec)).
Definition update_path_codec : MlsCodec UpdatePath :=
  struct_codec (λ p, (up_leaf_node p, up_nodes p)) (λ p, {| up_leaf_node := p.1; up_nodes := p.2 |})
    (tuple_codec leaf_node_codec (vec_codec update_path_node_codec)).

(** The [while] loop that passes the filtered positions from [i] on. *)
Fixpoint skip_filtered (fuel : nat) (filtered : list bool) (unfiltered : list (option UpdatePathNode)) (i : nat)
    : Result MlsError (list (option UpdatePathNode) * nat) :=
  f ← ok_or (filtered !! i) WrongPathLen;
  if (f : bool) then
    match fuel with
    | O => Diverge
    | S fuel => skip_filtered fuel filtered (unfiltered ++ [None]) (S i)
    end
  else Ok (unfiltered, i).

(** The last part of [validate_update_path]: put the nodes of the path back at
    the positions that are not filtered. *)
Definition unfilter (filtered : list bool) (path_nodes : list UpdatePathNode)
    : Result MlsError (list (option UpdatePathNode)) :=
  '(unfiltered, _) ← foldM (λ '(unfiltered, i) n,
      '(unfiltered, i) ← skip_filtered (length filtered) filtered unfiltered i;
      Ok (unfiltered ++ [Some n], S i)) ([], O) path_nodes;
  Ok unfiltered.

(** ** The private side: private.rs *)
Record TreeKemPrivate := { self_index : Z; secret_keys : list (option bytes) }.

Definition new_self_leaf (self_index : Z) (leaf_secret : bytes) : TreeKemPrivate :=
  {| self_index := self_index; secret_keys := [Some leaf_secret] |}.
Definition new_for_external : TreeKemPrivate := {| self_index := 0; secret_keys := [] |}.

(** [leaf_lca_level(..) as usize - 2]. *)
Definition lca_index (a b : Z) : Z :=
  wrap 64 (TreeMath.leaf_lca_level (node_index a) (node_index b) - 2).

Definition update_secrets_step (csp : CipherSuiteProvider) (nodes : NodeVec)
    (s : list (option bytes) * PathSecretGenerator) (x : nat * (TreeMath.CopathNode * bool))
    : Result MlsError (list (option bytes) * PathSecretGenerator) :=
  let '(keys, g) := s in
  let '(i, (n, f)) := x in
  if (f : bool) then Ok (keys, g)
  else
    '(secret, g) ← next_secret csp [] g;
    node ← borrow_node nodes (TreeMath.path n);
    expected_pub_key ← ok_or (public_key <$> node) PubKeyMismatch;
    '(secret_key, pk) ← to_hpke_key_pair csp secret;
    if bool_decide (expected_pub_key = pk) then
      keys ← vec_store keys (Z.of_nat i + 1) (Some secret_key);
      Ok (keys, g)
    else Err PubKeyMismatch.

Definition update_secrets (csp : CipherSuiteProvider) (p : TreeKemPrivate) (signer_index : Z) (path_secret : bytes)
    (t : TreeKemPublic) : Result MlsError TreeKemPrivate :=
  let lca := lca_index (self_index p) signer_index in
  let path := direct_copath (nodes t) (self_index p) in
  filtered ← filtered (nodes t) (self_index p);
  let keys := vec_resize (secret_keys p) (len path + 1) None in
  '(keys, _) ← foldM (update_secrets_step csp (nodes t)) (keys, generator_starting_with path_secret)
    (drop (Z.to_nat lca) (imap pair (zip path filtered)));
  Ok {| self_index := self_index p; secret_keys := keys |}.

(** [update_leaf]: panics when there are no keys. *)
Definition update_leaf (p : TreeKemPrivate) (new_leaf : bytes) : Result MlsError TreeKemPrivate :=
  keys ← vec_store (replicate (length (secret_keys p)) None) 0 (Some new_leaf);
  Ok {| self_index := self_index p; secret_keys := keys |}.

(** ** The committer's leaf: leaf_node.rs, [LeafNode::commit] *)
Record ConfigProperties := { new_capabilities : Capabilities; new_extensions : ExtensionList.t }.

Definition sign_leaf (csp : CipherSuiteProvider) (signer : bytes) (ctx : LeafNodeSigningContext) (l : LeafNode)
    : Result MlsError LeafNode :=
  s ← sign csp signer (ascii "LeafNodeTBS") (signable_content l ctx);
  Ok {| leaf_public_key := leaf_public_key l; signing_identity := signing_identity l; capabilities := capabilities l;
        leaf_node_source := leaf_node_source l; leaf_extensions := leaf_extensions l; signature := s |}.

Definition leaf_commit (csp : CipherSuiteProvider) (seed gid : bytes) (leaf_index : Z) (props : ConfigProperties)
    (new_signing_identity : option SigningIdentity) (signer : bytes) (l : LeafNode)
    : Result MlsError (bytes * LeafNode) :=
  '(secret, public) ← crypto (csp_kem_generate csp seed);
  let l := {| leaf_public_key := public;
              signing_identity := default (signing_identity l) new_signing_identity;
              capabilities := new_capabilities props; leaf_node_source := leaf_node_source l;
              leaf_extensions := new_extensions props; signature := signature l |} in
  l ← sign_leaf csp signer {| ctx_group_id := Some gid; ctx_leaf_index := Some leaf_index |} l;
  Ok (secret, l).

(** ** [TreeKem::encap]: kem.rs *)
Record EncapGeneration := {
  update_path : UpdatePath;
  path_secrets : list (option bytes);
  commit_secret : bytes;
}.

(** The randomness of a run: of the first path secret, of the leaf's key, and of
    each encryption (by copath node and recipient). *)
Record EncapRandomness := { r_path : bytes; r_leaf : bytes; r_seal : Z → Z → bytes }.

Definition encap_step (csp : CipherSuiteProvider) (seed : bytes)
    (s : TreeKemPublic * list (option bytes) * PathSecretGenerator * list (option bytes))
    (x : nat * (TreeMath.CopathNode * bool))
    : Result MlsError (TreeKemPublic * list (option bytes) * PathSecretGenerator * list (option bytes)) :=
  let '(t, keys, g, secrets) := s in
  let '(i, (node, f)) := x in
  if negb f then
    '(secret, g) ← next_secret csp seed g;
    '(secret_key, pk) ← to_hpke_key_pair csp secret;
    keys ← vec_store keys (Z.of_nat i + 1) (Some secret_key);
    t ← TreeKem.update_node t pk (TreeMath.path node);
    Ok (t, keys, g, secrets ++ [Some secret])
  else
    keys ← vec_store keys (Z.of_nat i + 1) None;
    Ok (t, keys, g, secrets ++ [None]).

Definition encrypt_copath_node_resolution (csp : CipherSuiteProvider) (t : TreeKemPublic) (seal : Z → bytes)
    (path_secret : bytes) (copath_index : Z) (context : bytes) (excluding : list Z) : Result MlsError UpdatePathNode :=
  reso ← get_resolution_index (nodes t) copath_index;
  ctxts ← mapM_res (λ idx,
      node ← borrow_node (nodes t) idx;
      node ← as_non_empty node;
      encrypt csp (ascii "UpdatePathNode") (seal idx) (public_key node) context path_secret)
    (List.filter (λ idx, negb (bool_decide (idx ∈ excluding))) reso);
  ps ← ok_or (TreeMath.parent_sibling copath_index (total_leaf_count (nodes t))) ExpectedNode;
  p ← borrow_as_parent (nodes t) (TreeMath.parent ps);
  Ok {| up_public_key := parent_public_key p; encrypted_path_secret := ctxts |}.

Definition encrypt_path_secrets (csp : CipherSuiteProvider) (t : TreeKemPublic) (seal : Z → Z → bytes)
    (path : list TreeMath.CopathNode) (path_secrets : list (option bytes)) (context_bytes : bytes)
    (excluding : list Z) : Result MlsError (list UpdatePathNode) :=
  let excluding := node_index <$> excluding in
  mapM_res (λ '(copath, s), encrypt_copath_node_resolution csp t (seal copath) s copath context_bytes excluding)
    (omap (λ '(n, s), (λ s, (TreeMath.copath n, s)) <$> s) (zip path path_secrets)).

Definition encap (csp : CipherSuiteProvider) (r : EncapRandomness) (t : TreeKemPublic) (p : TreeKemPrivate)
    (context : GroupContext) (excluding : list Z) (signer : bytes) (props : ConfigProperties)
    (new_signing_identity : option SigningIdentity)
    : Result MlsError (TreeKemPublic * TreeKemPrivate * GroupContext * EncapGeneration) :=
  let self := self_index p in
  let path := direct_copath (nodes t) self in
  filtered ← filtered (nodes t) self;
  let keys := vec_resize (secret_keys p) (len path + 1) None in
  '(t, keys, g, secrets) ← foldM (encap_step csp (r_path r)) (t, keys, generator_new, [])
    (imap pair (zip path filtered));
  t ← update_parent_hashes csp t self false;
  own_leaf ← borrow_as_leaf (nodes t) self;
  '(leaf_secret, own_leaf) ← leaf_commit csp (r_leaf r) (group_id context) self props new_signing_identity signer own_leaf;
  ns ← borrow_as_leaf_mut (nodes t) self (λ _, own_leaf);
  let t := with_nodes t ns in
  keys ← vec_store keys 0 (Some leaf_secret);
  t ← TreeHash.update_hashes csp t [self];
  '(h, t) ← TreeHash.root_hash csp t;
  let context := with_tree_hash context h in
  context_bytes ← from_codec_error (mls_encode_to_vec group_context_codec context);
  node_updates ← encrypt_path_secrets csp t (r_seal r) path secrets context_bytes excluding;
  '(commit_secret, _) ← next_secret csp (r_path r) g;
  Ok (t, {| self_index := self; secret_keys := keys |}, context,
      {| update_path := {| up_leaf_node := own_leaf; up_nodes := node_updates |};
         path_secrets := secrets; commit_secret := commit_secret |}).

(** ** [TreeKem::decap]: kem.rs *)

(** [find_resolved_pos]: an index below zero wraps around and panics at the next
    access. *)
Fixpoint non_blank_pos (nodes : NodeVec) (path : list TreeMath.CopathNode) (i : nat) : Result MlsError nat :=
  n ← unwrap (path !! i);
  blank ← is_blank nodes (TreeMath.path n);
  if (blank : bool) then match i with O => Panic | S i => non_blank_pos nodes path i end else Ok i.

Definition find_resolved_pos (nodes : NodeVec) (keys : list (option bytes)) (path : list TreeMath.CopathNode) (lca : Z)
    : Result MlsError nat :=
  i ← (if lca <? len path then non_blank_pos nodes path (Z.to_nat lca) else Panic);
  k ← unwrap (keys !! i);
  Ok (if bool_decide (k = None) then O else i).

Fixpoint find_position (x : Z) (l : list Z) : option Z :=
  match l with
  | [] => None
  | y :: l => if y =? x then Some 0 else Z.succ <$> find_position x l
  end.

Definition find_ciphertext_pos (nodes : NodeVec) (lca resolved : Z) (excluding : list Z) : Result MlsError Z :=
  reso ← get_resolution_index nodes lca;
  ok_or (find_position resolved
           (List.filter (λ idx, (idx mod 2 =? 1) || negb (bool_decide (idx / 2 ∈ excluding))) reso))
    UpdateErrorNoSecretKey.

Definition decap_step (csp : CipherSuiteProvider) (s : list (option bytes) * PathSecretGenerator)
    (x : nat * option UpdatePathNode) : Result MlsError (list (option bytes) * PathSecretGenerator) :=
  let '(keys, g) := s in
  let '(i, update) := x in
  match update with
  | Some update =>
      '(secret, g) ← next_secret csp [] g;
      '(hpke_private, hpke_public) ← to_hpke_key_pair csp secret;
      if bool_decide (hpke_public = up_public_key update) then
        keys ← vec_store keys (Z.of_nat i + 1) (Some hpke_private);
        Ok (keys, g)
      else Err PubKeyMismatch
  | None =>
      keys ← vec_store keys (Z.of_nat i + 1) None;
      Ok (keys, g)
  end.

(** The receiver's path: its leaf, then its ancestors. *)
Definition own_path (nodes : NodeVec) (self : Z) : list TreeMath.CopathNode :=
  {| TreeMath.path := node_index self; TreeMath.copath := 0 |} :: direct_copath nodes self.

Definition decap (csp : CipherSuiteProvider) (t : TreeKemPublic) (p : TreeKemPrivate) (sender_index : Z)
    (update_path : ValidatedUpdatePath) (added_leaves : list Z) (context_bytes : bytes)
    : Result MlsError (bytes * TreeKemPrivate) :=
  let self := self_index p in
  let lca := lca_index self sender_index in
  let path := own_path (nodes t) self in
  resolved_pos ← find_resolved_pos (nodes t) (secret_keys p) path lca;
  lca_path ← vec_index path lca;
  resolved ← unwrap (path !! resolved_pos);
  ct_pos ← find_ciphertext_pos (nodes t) (TreeMath.path lca_path) (TreeMath.path resolved) added_leaves;
  lca_node ← vec_index (v_nodes update_path) lca;
  lca_node ← ok_or lca_node LcaNotFoundInDirectPath;
  ct ← ok_or (vec_get (encrypted_path_secret lca_node) ct_pos) LcaNotFoundInDirectPath;
  secret ← unwrap (secret_keys p !! resolved_pos);
  secret ← ok_or secret UpdateErrorNoSecretKey;
  node ← borrow_node (nodes t) (TreeMath.path resolved);
  node ← ok_or node UpdateErrorNoSecretKey;
  lca_path_secret ← decrypt csp (ascii "UpdatePathNode") secret (public_key node) context_bytes ct;
  let keys := vec_resize (secret_keys p) (len path + 1) None in
  '(keys, g) ← foldM (decap_step csp) (keys, generator_starting_with lca_path_secret)
    (drop (Z.to_nat lca) (imap pair (v_nodes update_path)));
  '(commit_secret, _) ← next_secret csp [] g;
  Ok (commit_secret, {| self_index := self; secret_keys := keys |}).

(** ** The sequence of path secrets *)

(** [produces seed g l g']: from [g], the generator gives the secrets of [l], in
    order, and ends in [g']. *)
Inductive produces (csp : CipherSuiteProvider) (seed : bytes)
    : PathSecretGenerator → list (option bytes) → PathSecretGenerator → Prop :=
  | produces_nil g : produces csp seed g [] g
  | produces_some g s g1 l g' :
      next_secret csp seed g = Ok (s, g1) → produces csp seed g1 l g' → produces csp seed g (Some s :: l) g'
  | produces_none g l g' : produces csp seed g l g' → produces csp seed g (None :: l) g'.

Definition after (s : bytes) : PathSecretGenerator := {| last_secret := Some s; starting_with := None |}.

Lemma next_secret_after csp seed g s g1 : next_secret csp seed g = Ok (s, g1) → g1 = after s.
Proof. unfold next_secret. intros H. apply bind_ok in H as (x & _ & [= -> <-]). done. Qed.

Lemma next_secret_seed csp seed seed' s : next_secret csp seed (after s) = next_secret csp seed' (after s).
Proof. done. Qed.

Lemma next_secret_settled csp seed g : settled (next_secret csp seed g).
Proof.
  apply settled_bind; [|done]. destruct (starting_with g); [done|]. destruct (last_secret g); [apply kdf_derive_settled|apply settled_crypto].
Qed.

Lemma to_hpke_settled csp s : settled (to_hpke_key_pair csp s).
Proof. apply settled_bind; [apply kdf_derive_settled|intros; apply settled_crypto]. Qed.

Lemma to_hpke_pair csp s sk pk :
  kem_derive_pairs csp → to_hpke_key_pair csp s = Ok (sk, pk) → hpke_pair csp sk pk.
Proof.
  intros Hk H. apply bind_ok in H as (ns & _ & H). unfold crypto in H. destruct (csp_kem_derive csp ns) as [e|[a b]] eqn:E; [done|].
  injection H as -> ->. by eapply Hk.
Qed.

Lemma produces_snoc csp seed g l g1 s g2 :
  produces csp seed g l g1 → next_secret csp seed g1 = Ok (s, g2) → produces csp seed g (l ++ [Some s]) g2.
Proof. induction 1; intros; cbn; econstructor; eauto. constructor. Qed.

Lemma produces_snoc_none csp seed g l g1 : produces csp seed g l g1 → produces csp seed g (l ++ [None]) g1.
Proof. induction 1; cbn; econstructor; eauto. constructor. Qed.

(** From a given secret on, the rest of the sequence does not depend on the seed. *)
Lemma produces_split csp seed seed' g l1 s l2 g' :
  produces csp seed g (l1 ++ Some s :: l2) g' →
  produces csp seed' (after s) l2 g' ∧ ∃ s', g' = after s'.
Proof.
  revert g. induction l1 as [|o l1 IH]; intros g H; cbn in H.
  - inversion H as [|? ? ? ? ? Hn Hp|]; subst. apply next_secret_after in Hn as ->.
    clear H. revert s Hp. induction l2 as [|o l2 IH]; intros s Hp; inversion Hp as [|? ? ? ? ? Hn Hp'|? ? ? Hp']; subst.
    + split; [constructor|eauto].
    + pose proof (next_secret_after _ _ _ _ _ Hn) as ->. destruct (IH _ Hp') as [H1 H2]. split; [|done].
      econstructor; [|exact H1]. by rewrite (next_secret_seed _ seed' seed).
    + destruct (IH _ Hp') as [H2 H3]. split; [by constructor|done].
  - inversion H; subst; by eapply IH.
Qed.

(** ** Filtered paths *)

(** [unfilter] restores the positions the committer left out, up to the last
    position it kept. *)
Lemma skip_filtered_spec fuel fs i (m : nat) acc :
  (∀ k, (i ≤ k < i + m)%nat → fs !! k = Some true) → fs !! (i + m)%nat = Some false → (m ≤ fuel)%nat →
  skip_filtered fuel fs acc i = Ok (acc ++ replicate m None, (i + m)%nat).
Proof.
  revert i acc fuel. induction m as [|m IH]; intros i acc fuel Ht Hf Hm.
  - rewrite Nat.add_0_r in *. destruct fuel; cbn [skip_filtered]; rewrite Hf; cbn; by rewrite app_nil_r.
  - destruct fuel as [|fuel]; [lia|]. cbn [skip_filtered]. rewrite Ht by lia. cbn [ok_or mbind result_bind].
    rewrite IH; [|intros; apply Ht; lia|by rewrite Nat.add_succ_comm|lia]. rewrite <- app_assoc, Nat.add_succ_comm. done.
Qed.

Definition is_none {A} (o : option A) : bool := match o with None => true | Some _ => false end.

Lemma split_first_some {A} (l : list (option A)) :
  Forall (λ o, o = None) l ∨ ∃ m a l', l = replicate m None ++ Some a :: l'.
Proof.
  induction l as [|[a|] l [IH|(m & b & l' & ->)]]; [by left|right; by exists O, a, l|right..|left; by constructor|].
  - by exists O, a, (replicate m None ++ Some b :: l').
  - right. by exists (S m), b, l'.
Qed.

Lemma omap_replicate_None {A} m (l : list (option A)) : omap id (replicate m None ++ l) = omap id l.
Proof. induction m; done. Qed.

Lemma omap_Forall_None {A} (l : list (option A)) : Forall (λ o, o = None) l → omap id l = [].
Proof. induction 1 as [|x l -> _ IH]; done. Qed.

Lemma unfilter_loop (ups : list (option UpdatePathNode)) : ∀ pre acc,
  ∃ vs rest i, foldM (λ '(unfiltered, i) n,
      '(unfiltered, i) ← skip_filtered (length (is_none <$> pre ++ ups)) (is_none <$> pre ++ ups) unfiltered i;
      Ok (unfiltered ++ [Some n], S i)) (acc, length pre) (omap id ups) = Ok (acc ++ vs, i) ∧
    ups = vs ++ rest ∧ Forall (λ o, o = None) rest.
Proof.
  remember (length ups) as n eqn:Hn. revert ups Hn. induction (lt_wf n) as [n _ IH]. intros ups Hn pre acc.
  destruct (split_first_some ups) as [Hall|(m & u & ups' & ->)].
  { exists [], ups, (length pre). rewrite omap_Forall_None by done. by rewrite app_nil_r. }
  rewrite omap_replicate_None. cbn [omap list_omap id foldM].
  assert (∀ k, (is_none <$> pre ++ replicate m None ++ Some u :: ups') !! (length pre + k)%nat =
    (is_none <$> replicate m None ++ Some u :: ups') !! k) as Hlk.
  { intros k. rewrite !list_lookup_fmap, lookup_app_r by lia. do 2 f_equal. lia. }
  rewrite (skip_filtered_spec _ _ _ m); first last.
  { rewrite length_fmap, !length_app, length_replicate. lia. }
  { rewrite Hlk, list_lookup_fmap, lookup_app_r by (rewrite length_replicate; lia). by rewrite length_replicate, Nat.sub_diag. }
  { intros k Hk. replace k with (length pre + (k - length pre))%nat by lia.
    rewrite Hlk, list_lookup_fmap, lookup_app_l by (rewrite length_replicate; lia). by rewrite lookup_replicate_2 by lia. }
  cbn [mbind result_bind]. rewrite app_assoc. rewrite (cons_middle (Some u)), app_assoc.
  destruct (IH (length ups')) with (ups := ups') (pre := (pre ++ replicate m None) ++ [Some u]) (acc := (acc ++ replicate m None) ++ [Some u])
    as (vs & rest & i & H & Heq & Hrest); [rewrite Hn, length_app; cbn; lia|done|].
  replace (S (length pre + m)) with (length ((pre ++ replicate m None) ++ [Some u])) by (rewrite !length_app, length_replicate; cbn; lia).
  rewrite H. exists (replicate m None ++ Some u :: vs), rest, i. split_and!; [|by rewrite Heq, <- app_assoc|done].
  by rewrite <- !app_assoc.
Qed.

Lemma unfilter_spec (ups : list (option UpdatePathNode)) :
  ∃ vs rest, unfilter (is_none <$> ups) (omap id ups) = Ok vs ∧ ups = vs ++ rest ∧ Forall (λ o, o = None) rest.
Proof.
  destruct (unfilter_loop ups [] []) as (vs & rest & i & H & Heq & Hrest). exists vs, rest.
  split_and!; [|done|done]. unfold unfilter. cbn [app length] in H. by rewrite H.
Qed.

(** ** The receiver's loop *)

(** The update of a position carries the public key that its secret gives. *)
Definition matching (csp : CipherSuiteProvider) (v : option UpdatePathNode) (s : option bytes) : Prop :=
  match v, s with
  | Some u, Some s => ∃ sk, to_hpke_key_pair csp s = Ok (sk, up_public_key u)
  | None, None => True
  | _, _ => False
  end.

(** The secret key of a path secret. *)
Definition key_of (csp : CipherSuiteProvider) (s : bytes) : option bytes :=
  match to_hpke_key_pair csp s with Ok (sk, _) => Some sk | _ => None end.

Lemma decap_loop csp vs : ∀ sec g g' (q : nat) keys,
  produces csp [] g sec g' → Forall2 (matching csp) vs sec → (q + length vs < length keys)%nat →
  ∃ keys', foldM (decap_step csp) (keys, g) (zip (seq q (length vs)) vs) = Ok (keys', g') ∧
    length keys' = length keys ∧
    ∀ i, keys' !! i = if decide (q < i ∧ i ≤ q + length vs)%nat
                      then Some (mjoin (sec !! (i - S q)%nat) ≫= key_of csp) else keys !! i.
Proof.
  induction vs as [|v vs IH]; intros sec g g' q keys Hp Hm Hlen; inversion Hm as [|? s ? sec' Hv Hm']; subst.
  { inversion Hp; subst. exists keys. cbn. split_and!; [done|done|]. intros i. case_decide; [lia|done]. }
  cbn [length seq zip zip_with foldM] in *.
  assert (∃ k, (match v with Some _ => k = s ≫= key_of csp | None => k = None end) ∧ ∃ g1, produces csp [] g1 sec' g' ∧
    decap_step csp (keys, g) (q, v) = Ok (<[S q := k]> keys, g1)) as (k & Hk & g1 & Hg1 & ->).
  { assert (∀ k : option bytes, vec_store (E:=MlsError) keys (Z.of_nat q + 1) k = Ok (<[S q := k]> keys)) as Hst.
    { intros k. unfold vec_store, vec_set. rewrite (proj2 (Z.leb_le _ _)), (proj2 (Z.ltb_lt _ _)) by (unfold len; lia).
      rewrite (proj2 (Z.ltb_ge _ _)) by lia. cbn [andb]. do 2 f_equal. lia. }
    destruct v as [u|], s as [s|]; try done; cbn [decap_step].
    - destruct Hv as [sk Hsk]. inversion Hp as [|? ? g1 ? ? Hn Hp'|]; subst. rewrite Hn. cbn [mbind result_bind].
      rewrite Hsk. cbn [mbind result_bind]. rewrite bool_decide_eq_true_2 by done. rewrite Hst. cbn [mbind result_bind].
      exists (Some sk). split; [|by exists g1]. cbn. unfold key_of. by rewrite Hsk.
    - inversion Hp; subst. rewrite Hst. cbn. exists None. split; [done|]. by exists g. }
  cbn [mbind result_bind].
  destruct (IH sec' g1 g' (S q) (<[S q := k]> keys) Hg1 Hm') as (keys' & -> & Hlen' & Hat); [rewrite length_insert; lia|].
  exists keys'. split_and!; [done|by rewrite Hlen', length_insert|]. intros i. rewrite Hat.
  destruct (decide (i = S q)) as [->|Hne].
  - rewrite decide_False, decide_True by lia. rewrite list_lookup_insert_eq by lia. rewrite Nat.sub_diag. cbn.
    f_equal. destruct v, s; done.
  - rewrite list_lookup_insert_ne by done. destruct (decide (S q < i ∧ i ≤ S q + length vs)%nat).
    + rewrite decide_True by lia. replace (i - S q)%nat with (S (i - S (S q))) by lia. done.
    + rewrite decide_False by lia. done.
Qed.

(** ** Finding one's place in a resolution *)
Lemma resolution_ext a b (k : nat) : ∀ j,
  (∀ (m : nat) i, (m ≤ k)%nat → 0 ≤ i → i / 2 ^ Z.of_nat (k - m) = j →
     node_at a (TreeMath.node (Z.of_nat m) i) = node_at b (TreeMath.node (Z.of_nat m) i)) →
  0 ≤ j → resolution a k j = resolution b k j.
Proof.
  induction k as [|k IH]; intros j H Hj; cbn [resolution].
  - rewrite (H O j); [done|lia|done|apply Z.div_1_r].
  - rewrite (H (S k) j) by (try done; rewrite Nat.sub_diag; apply Z.div_1_r).
    destruct (node_at b _); [done|].
    assert (∀ c, 0 ≤ c ≤ 1 → resolution a k (2 * j + c) = resolution b k (2 * j + c)) as Hc.
    { intros c Hc. apply IH; [|lia]. intros m i Hm Hi E. apply H; [lia|done|].
      replace (S k - m)%nat with (S (k - m)) by lia. rewrite Nat2Z.inj_succ, Z.pow_succ_r, Z.mul_comm by lia.
      rewrite <- Z.div_div by (try apply pow2_pos; lia). rewrite E. Z.div_mod_to_equations. lia. }
    rewrite (Hc 1) by lia. pose proof (Hc 0 ltac:(lia)) as H0. rewrite Z.add_0_r in H0. by rewrite H0.
Qed.

(** The nearest filled node at or below level [q] on the way to a leaf. *)
Lemma nearest_filled nodes self (q : nat) :
  0 ≤ self → is_Some (node_at nodes (2 * self)) →
  ∃ (i : nat) n, (i ≤ q)%nat ∧ node_at nodes (TreeMath.node (Z.of_nat i) (self / 2 ^ Z.of_nat i)) = Some n ∧
    (∀ m : nat, (i < m ≤ q)%nat → node_at nodes (TreeMath.node (Z.of_nat m) (self / 2 ^ Z.of_nat m)) = None) ∧
    ∀ x, x ∈ node_resolution (TreeMath.node (Z.of_nat i) (self / 2 ^ Z.of_nat i)) n →
         x ∈ resolution nodes q (self / 2 ^ Z.of_nat q).
Proof.
  intros Hs [l Hl]. induction q as [|q IH].
  - exists O, l. cbn [resolution]. change (Z.of_nat 0) with 0. rewrite Z.pow_0_r, Z.div_1_r, TreeMath.node_0, Hl.
    split_and!; [lia|done|intros; lia|done].
  - cbn [resolution]. destruct (node_at nodes (TreeMath.node (Z.of_nat (S q)) _)) as [n|] eqn:E.
    { exists (S q), n. split_and!; [lia|done|intros; lia|done]. }
    destruct IH as (i & n & Hi & Hn & Hb & Hx). exists i, n. split_and!; [lia|done| |].
    + intros m Hm. destruct (decide (m = S q)) as [->|]; [done|apply Hb; lia].
    + intros x Hin. apply Hx in Hin. apply elem_of_app.
      pose proof (Z.div_mod (self / 2 ^ Z.of_nat q) 2 ltac:(lia)) as Hdm.
      pose proof (Z.mod_pos_bound (self / 2 ^ Z.of_nat q) 2 ltac:(lia)) as Hmod.
      replace (self / 2 ^ Z.of_nat (S q)) with (self / 2 ^ Z.of_nat q / 2).
      2: { rewrite Z.div_div by (try apply pow2_pos; lia). f_equal. rewrite Nat2Z.inj_succ, Z.pow_succ_r by lia. lia. }
      set (y := self / 2 ^ Z.of_nat q) in *. destruct (decide (y mod 2 = 0)).
      * left. by replace (2 * (y / 2)) with y by lia.
      * right. by replace (2 * (y / 2) + 1) with y by lia.
Qed.

Lemma find_position_spec x l : x ∈ l → ∃ p, find_position x l = Some p ∧ vec_get l p = Some x.
Proof.
  induction l as [|y l IH]; [by intros ?%elem_of_nil|]. intros Hx. cbn [find_position].
  destruct (Z.eqb_spec y x) as [->|Hne]; [by exists 0|]. apply elem_of_cons in Hx as [->|Hx]; [done|].
  destruct (IH Hx) as (p & -> & Hp). exists (Z.succ p). split; [done|].
  pose proof (vec_get_Some _ _ _ Hp) as Hr. unfold vec_get in *.
  rewrite (proj2 (Z.ltb_ge p _)) in Hp by lia. rewrite (proj2 (Z.ltb_ge (Z.succ p) _)) by lia.
  replace (Z.to_nat (Z.succ p)) with (S (Z.to_nat p)) by lia. exact Hp.
Qed.

(** ** The committer's loop *)

(** A node of the direct path whose copath node is not empty lies in the array. *)
Lemma path_in_array nodes i (p : nat) :
  0 ≤ i → 2 * i < len nodes → resolution nodes p (TreeMath.sib (i / 2 ^ Z.of_nat p)) ≠ [] →
  0 ≤ TreeMath.node (Z.of_nat (S p)) (i / 2 ^ Z.of_nat (S p)) < len nodes.
Proof.
  intros Hi Hlt Hne. set (y := i / 2 ^ Z.of_nat p) in *. pose proof (pow2_pos (Z.of_nat p) ltac:(lia)) as Hp.
  assert (i / 2 ^ Z.of_nat (S p) = y / 2) as HJ.
  { unfold y. rewrite Z.div_div by lia. f_equal. rewrite Nat2Z.inj_succ, Z.pow_succ_r by lia. lia. }
  assert (0 ≤ y) as Hy by (apply Z.div_pos; lia). rewrite HJ.
  split; [apply TreeMath.node_nonneg; [lia|apply Z.div_pos; lia]|]. apply Z.nle_gt. intros Hge. apply Hne.
  unfold TreeMath.node in Hge. rewrite Nat2Z.inj_succ, Z.add_succ_l, !Z.pow_succ_r in Hge by lia.
  rewrite Z.pow_add_r, Z.pow_1_r in Hge by lia.
  assert (y * 2 ^ Z.of_nat p ≤ i) as Hyi by (unfold y; rewrite Z.mul_comm; apply Z.mul_div_le; lia).
  assert (Z.even y = true) as Hev.
  { destruct (Z.even y) eqn:Ev; [done|]. apply (f_equal negb) in Ev. rewrite Z.negb_even in Ev. apply Z.odd_spec in Ev as [z Hz].
    replace (y / 2) with z in Hge by (Z.div_mod_to_equations; lia). nia. }
  unfold TreeMath.sib. rewrite Hev. apply resolution_nil; [lia|]. intros m i' Hm Hi' E.
  apply node_at_None. intros [_ Hb]. apply Z.even_spec in Hev as [z Hz].
  replace (y / 2) with z in Hge by (Z.div_mod_to_equations; lia).
  pose proof (pow2_pos (Z.of_nat m) ltac:(lia)) as Hpm. pose proof (pow2_pos (Z.of_nat (p - m)) ltac:(lia)) as Hpd.
  assert (2 ^ Z.of_nat p = 2 ^ Z.of_nat (p - m) * 2 ^ Z.of_nat m) as Hs by (rewrite <- Z.pow_add_r by lia; f_equal; lia).
  assert ((y + 1) * 2 ^ Z.of_nat (p - m) ≤ i') as Hlow by (rewrite <- E, Z.mul_comm; apply Z.mul_div_le; lia).
  unfold TreeMath.node in Hb. rewrite Z.pow_add_r, Z.pow_1_r in Hb by lia. rewrite Hz in Hlow.
  assert ((2 * z + 1) * 2 ^ Z.of_nat p ≤ i' * 2 ^ Z.of_nat m) by (rewrite Hs; nia). nia.
Qed.

Lemma update_node_at t pk x t' :
  0 ≤ x < len (nodes t) → TreeKem.update_node t pk x = Ok t' →
  len (nodes t') = len (nodes t) ∧
  (∃ p, parent_public_key p = pk ∧ unmerged_leaves p = [] ∧ node_at (nodes t') x = Some (ParentNode p)) ∧
  ∀ y, y ≠ x → node_at (nodes t') y = node_at (nodes t) y.
Proof.
  intros Hx H. apply bind_ok in H as (ns & H & [= <-]). unfold borrow_or_fill_node_as_parent in H.
  rewrite validate_index_ok in H by lia. cbn [mbind result_bind] in H.
  replace (Z.to_nat (x + 1 - len (nodes t))) with O in H by lia. rewrite app_nil_r in H.
  apply bind_ok in H as (n & _ & H). apply bind_ok in H as (p & _ & [= <-]). cbn [nodes with_nodes].
  split_and!; [apply len_vec_set| |].
  - eexists. split_and!; [| |rewrite node_at_set by lia; by rewrite Z.eqb_refl]; done.
  - intros y Hy. rewrite node_at_set by lia. by rewrite (proj2 (Z.eqb_neq _ _)).
Qed.

(** The state after [m] nodes of the direct path of leaf [i]. *)
Record encap_inv (csp : CipherSuiteProvider) (seed : bytes) (t0 : TreeKemPublic) (i : Z) (n : nat) (fs : list bool)
    (t : TreeKemPublic) (keys : list (option bytes)) (g : PathSecretGenerator) (secrets : list (option bytes)) : Prop := {
  ei_filter : is_none <$> secrets = fs;
  ei_gen : produces csp seed generator_new secrets g;
  ei_len : len (nodes t) = len (nodes t0);
  ei_same x : ¬ ancestor i x → node_at (nodes t) x = node_at (nodes t0) x;
  ei_keys : length keys = n ∧ ∀ p o, secrets !! p = Some o → keys !! S p = Some (o ≫= key_of csp);
  ei_pub (p : nat) s : secrets !! p = Some (Some s) → ∃ sk q,
    to_hpke_key_pair csp s = Ok (sk, parent_public_key q) ∧
    node_at (nodes t) (TreeMath.node (Z.of_nat (S p)) (i / 2 ^ Z.of_nat (S p))) = Some (ParentNode q);
}.

Lemma node_path_inj i (p q : nat) : 0 ≤ i →
  TreeMath.node (Z.of_nat p) (i / 2 ^ Z.of_nat p) = TreeMath.node (Z.of_nat q) (i / 2 ^ Z.of_nat q) → p = q.
Proof.
  intros Hi E. apply TreeMath.node_inj in E as [E _]; [lia|lia| |lia|]; apply Z.div_pos; try lia; apply pow2_pos; lia.
Qed.

Lemma encap_step_inv csp seed t0 i n fs f t keys g secrets c t' keys' g' secrets' :
  0 ≤ i → encap_inv csp seed t0 i n fs t keys g secrets → (S (length secrets) < n)%nat →
  TreeMath.path c = TreeMath.node (Z.of_nat (S (length secrets))) (i / 2 ^ Z.of_nat (S (length secrets))) →
  (f = false → 0 ≤ TreeMath.path c < len (nodes t0)) →
  encap_step csp seed (t, keys, g, secrets) (length secrets, (c, f)) = Ok (t', keys', g', secrets') →
  encap_inv csp seed t0 i n (fs ++ [f]) t' keys' g' secrets' ∧ length secrets' = S (length secrets).
Proof.
  intros Hi [Hf Hg Hl Hs [Hk1 Hk2] Hp] Hn Hc Hr. set (m := length secrets) in *.
  assert (∀ k, vec_store (E:=MlsError) keys (Z.of_nat m + 1) k = Ok (<[S m := k]> keys)) as Hst.
  { intros k. unfold vec_store, vec_set. rewrite (proj2 (Z.leb_le _ _)), (proj2 (Z.ltb_lt _ _)) by (unfold len; lia).
    rewrite (proj2 (Z.ltb_ge _ _)) by lia. cbn [andb]. do 2 f_equal. lia. }
  assert (∀ o p x, (secrets ++ [o]) !! p = Some x → p = m ∧ x = o ∨ (p < m)%nat ∧ secrets !! p = Some x) as Hcase.
  { intros o p x [Hx|[Hge Hx]]%lookup_app_Some; [right; split; [by eapply lookup_lt_Some|done]|left].
    apply list_lookup_singleton_Some in Hx as [? <-]. split; [unfold m; lia|done]. }
  unfold encap_step. destruct f; cbn [negb].
  - rewrite Hst. cbn [mbind result_bind]. intros [= <- <- <- <-]. split; [|rewrite length_app; cbn; lia]. split; try done.
    + by rewrite fmap_app, Hf.
    + by apply produces_snoc_none.
    + split; [by rewrite length_insert|]. intros p o [[-> ->]|[Hlt Ho]]%Hcase; [by rewrite list_lookup_insert_eq by lia|].
      rewrite list_lookup_insert_ne by lia. by apply Hk2.
    + intros p s [[_ [=]]|[_ Ho]]%Hcase. by apply Hp.
  - intros H. apply bind_ok in H as ([s g1] & Hn1 & H). apply bind_ok in H as ([sk pk] & Hpair & H).
    rewrite Hst in H. cbn [mbind result_bind] in H. apply bind_ok in H as (t1 & Hu & [= <- <- <- <-]).
    apply update_node_at in Hu as (Hl1 & (q & Hq1 & Hq2 & Hq3) & Hoth); [|rewrite Hl; by apply Hr].
    split; [|rewrite length_app; cbn; lia]. split.
    + by rewrite fmap_app, Hf.
    + by eapply produces_snoc.
    + congruence.
    + intros x Hx. rewrite Hoth; [by apply Hs|]. intros ->. apply Hx. exists (Z.of_nat (S m)). split; [lia|done].
    + split; [by rewrite length_insert|]. intros p o [[-> ->]|[Hlt Ho]]%Hcase.
      * rewrite list_lookup_insert_eq by lia. cbn. unfold key_of. by rewrite Hpair.
      * rewrite list_lookup_insert_ne by lia. by apply Hk2.
    + intros p s' [[-> [= ->]]|[Hlt Ho]]%Hcase.
      * exists sk, q. rewrite <- Hc, Hq1. done.
      * destruct (Hp p s' Ho) as (sk' & q' & H1 & H2). exists sk', q'. split; [done|]. rewrite Hoth; [done|].
        rewrite Hc. intros E%node_path_inj; [lia|done].
Qed.

Lemma imap_pair_zip {A} (l : list A) : imap pair l = zip (seq 0 (length l)) l.
Proof.
  enough (∀ n, imap (λ i, pair (n + i)%nat) l = zip (seq n (length l)) l) as H by apply (H O).
  induction l as [|a l IH]; intros n; [done|]. cbn [length seq zip zip_with imap]. rewrite Nat.add_0_r. f_equal.
  rewrite <- IH. apply imap_ext. intros i x _. cbn. f_equal. lia.
Qed.

Lemma encap_loop csp seed t0 i n : 0 ≤ i → ∀ cs t keys g secrets fs t' keys' g' secrets',
  encap_inv csp seed t0 i n fs t keys g secrets → (length secrets + length cs < n)%nat →
  (∀ k c f, cs !! k = Some (c, f) →
     TreeMath.path c = TreeMath.node (Z.of_nat (S (length secrets + k))) (i / 2 ^ Z.of_nat (S (length secrets + k))) ∧
     (f = false → 0 ≤ TreeMath.path c < len (nodes t0))) →
  foldM (encap_step csp seed) (t, keys, g, secrets) (zip (seq (length secrets) (length cs)) cs) = Ok (t', keys', g', secrets') →
  encap_inv csp seed t0 i n (fs ++ cs.*2) t' keys' g' secrets'.
Proof.
  intros Hi. induction cs as [|[c f] cs IH]; intros t keys g secrets fs t' keys' g' secrets' Hinv Hn Hcs.
  { cbn. rewrite app_nil_r. by intros [= <- <- <- <-]. }
  cbn [length seq zip zip_with foldM] in *. intros H. apply bind_ok in H as ([[[t1 keys1] g1] secrets1] & H1 & H2).
  destruct (Hcs O c f) as [Hc Hr]; [done|]. rewrite Nat.add_0_r in Hc.
  eapply encap_step_inv in H1 as [Hinv1 Hlen1]; [|done|exact Hinv|lia|done|done].
  cbn [fmap list_fmap snd]. rewrite (cons_middle f), app_assoc. rewrite <- Hlen1 in H2. eapply IH; [exact Hinv1|lia| |exact H2].
  intros k c' f' Hk. rewrite Hlen1.
  replace (S (length secrets) + k)%nat with (length secrets + S k)%nat by lia. by apply (Hcs (S k)).
Qed.

(** Updating parent hashes changes no key. *)
Lemma parent_hash_step_keys csp hs ns h c ns' h' :
  parent_hash_step csp hs (ns, h) c = Ok (ns', h') → ∀ x, public_key <$> node_at ns' x = public_key <$> node_at ns x.
Proof.
  unfold parent_hash_step. intros H. apply bind_ok in H as (e & _ & H). destruct e; [by injection H as <- <-|].
  apply bind_ok in H as (i & _ & H). apply bind_ok in H as (n & Hn & H).
  apply bind_ok in H as (p & Hp & H). apply bind_ok in H as (s & _ & H). apply bind_ok in H as (hn & _ & [= <- <-]).
  unfold ok_or in Hn. destruct (vec_get ns i) as [n'|] eqn:E; [|done]. injection Hn as ->.
  destruct n as [[l|q]|]; try done. injection Hp as ->. pose proof (vec_get_Some _ _ _ E) as Hi.
  intros x. rewrite node_at_set by done. destruct (Z.eqb_spec x i) as [->|]; [|done].
  unfold node_at. by rewrite E.
Qed.

Lemma parent_hash_chain_keys csp hs cs ns h ns' h' :
  foldM (parent_hash_step csp hs) (ns, h) cs = Ok (ns', h') → ∀ x, public_key <$> node_at ns' x = public_key <$> node_at ns x.
Proof.
  revert ns h. induction cs as [|c cs IH]; intros ns h; cbn [foldM]; [by intros [= <- <-]|].
  intros H x. apply bind_ok in H as ([ns1 h1] & H1 & H). rewrite (IH _ _ H). by eapply parent_hash_step_keys.
Qed.

Lemma update_hashes_nodes csp t L t' : TreeHash.update_hashes csp t L = Ok t' → nodes t' = nodes t.
Proof. intros H. by apply bind_ok in H as (hs & _ & [= <-]). Qed.

Lemma update_parent_hashes_shape csp t i v t' :
  fits (nodes t) → 0 ≤ i → 2 * i < len (nodes t) → update_parent_hashes csp t i v = Ok t' →
  len (nodes t') = len (nodes t) ∧ TreeHash.differ_above (nodes t) (nodes t') [i] ∧
  ∀ x, public_key <$> node_at (nodes t') x = public_key <$> node_at (nodes t) x.
Proof.
  intros Hf Hi Hlt H. unfold update_parent_hashes in H. apply bind_ok in H as (t1 & H1 & H).
  apply bind_ok in H as ([lh t2] & H2 & H). apply update_hashes_nodes in H1.
  unfold parent_hash_for_leaf in H2. apply bind_ok in H2 as ([ns hash] & H2 & [= <- <-]). rewrite H1 in H2.
  pose proof (parent_hash_chain_keys _ _ _ _ _ _ _ H2) as Hkeys. apply chain_differ in H2 as (Hlen & Hdi & _); [|done..].
  apply bind_ok in H as (k & Hk & H). apply bind_ok in H as (n & Hn & H). apply bind_ok in H as (leaf & Hleaf & H).
  apply bind_ok in H as (t3 & H3 & H). apply update_hashes_nodes in H. rewrite H. cbn [nodes with_nodes] in *.
  destruct v.
  - destruct (leaf_node_source leaf); try done. case_bool_decide; [|done]. injection H3 as <-. cbn. done.
  - injection H3 as <-. cbn [nodes with_nodes]. rewrite node_index_small in Hk by (unfold fits in Hf; lia).
    rewrite validate_index_ok in Hk by lia. injection Hk as <-. unfold ok_or in Hn.
    rewrite vec_get_node_at in Hn by lia. injection Hn as <-. split_and!; [by rewrite len_vec_set| |].
    + apply (TreeKem.differ_above_mono _ _ ([i] ++ [i])); [set_solver|].
      apply (TreeKem.differ_above_trans _ ns); [done|]. apply differ_above_set; lia.
    + intros x. rewrite <- Hkeys, node_at_set by lia. destruct (Z.eqb_spec x (2 * i)) as [->|]; [|done].
      by destruct (node_at ns (2 * i)) as [[l|]|]; try done; injection Hleaf as ->.
Qed.

(** ** Reading nodes of the tree *)
Lemma borrow_node_in_tree nodes k j :
  fits nodes → ends_in_leaf nodes → 1 ≤ len nodes → TreeMath.in_tree (depth nodes) k j →
  borrow_node nodes (TreeMath.node k j) = Ok (node_at nodes (TreeMath.node k j)).
Proof.
  intros Hf He Hl Hin. destruct (depth_spec nodes Hf) as (Hd & _ & _).
  pose proof (TreeMath.node_bound _ _ _ Hd Hin) as Hb.
  destruct He as [He|He]; [lia|]. apply Z.odd_spec in He as [L HL].
  assert (depth nodes = Z.log2_up (L + 1)) as HdL.
  { unfold depth. f_equal. rewrite HL. Z.div_mod_to_equations. lia. }
  destruct (next_power_of_two_spec (len nodes) Hl) as (e & He & Hp & Hle & _).
  assert (TreeMath.node k j < next_power_of_two (len nodes)) as Hlt.
  { rewrite Hp. destruct (decide (L = 0)) as [->|HL0].
    - rewrite HdL in Hb. change (Z.log2_up (0 + 1)) with 0 in Hb. pose proof (pow2_pos e He). change (2 ^ (0 + 1)) with 2 in Hb. lia.
    - destruct (Z.log2_up_spec (L + 1)) as [H1 _]; [lia|]. rewrite <- HdL in H1.
      assert (1 ≤ depth nodes) as Hd1 by (rewrite HdL; change (Z.log2_up 2 ≤ Z.log2_up (L + 1)); apply Z.log2_up_le_mono; lia).
      assert (2 ^ depth nodes < 2 ^ e) as H2.
      { replace (depth nodes) with (Z.pred (depth nodes) + 1) by lia. rewrite pow2_succ by lia. lia. }
      apply Z.pow_lt_mono_r_iff in H2; [|lia..].
      assert (2 ^ (depth nodes + 1) ≤ 2 ^ e) by (apply Z.pow_le_mono_r; lia). lia. }
  unfold borrow_node, validate_index. destruct (Z.geb_spec (TreeMath.node k j) (next_power_of_two (len nodes))); [lia|].
  cbn. unfold node_at. by destruct (vec_get nodes _) as [[]|].
Qed.

Lemma own_path_lookup nodes self (k : nat) :
  fits nodes → 0 ≤ self < 2 ^ depth nodes → Z.of_nat k ≤ depth nodes →
  ∃ c, own_path nodes self !! k = Some c ∧ TreeMath.path c = TreeMath.node (Z.of_nat k) (self / 2 ^ Z.of_nat k).
Proof.
  intros Hf Hs Hk. destruct (depth_spec nodes Hf) as (Hd & _ & _). assert (2 ^ depth nodes ≤ 2 ^ 31) by (apply Z.pow_le_mono_r; lia).
  unfold own_path. destruct k as [|k]; cbn [lookup list_lookup].
  - eexists. split; [done|]. cbn. change (Z.of_nat 0) with 0. rewrite Z.pow_0_r, Z.div_1_r, TreeMath.node_0.
    apply node_index_small. lia.
  - change (list_lookup k (direct_copath nodes self)) with (direct_copath nodes self !! k).
    rewrite direct_copath_nodes, TreeMath.copath_spec_lookup by done. rewrite decide_True by lia. eexists. split; [done|]. cbn [TreeMath.path].
    do 2 f_equal; [lia|]. f_equal. lia.
Qed.

Lemma length_own_path nodes self :
  fits nodes → 0 ≤ self < 2 ^ depth nodes → len (own_path nodes self) = depth nodes + 1.
Proof.
  intros Hf Hs. destruct (depth_spec nodes Hf) as (Hd & _ & _). unfold own_path, len. cbn [length].
  rewrite direct_copath_nodes, TreeMath.length_copath_spec by (done || lia). lia.
Qed.

Lemma non_blank_pos_spec nodes self (q i : nat) n :
  fits nodes → ends_in_leaf nodes → 1 ≤ len nodes → 0 ≤ self < 2 ^ depth nodes → Z.of_nat q ≤ depth nodes → (i ≤ q)%nat →
  node_at nodes (TreeMath.node (Z.of_nat i) (self / 2 ^ Z.of_nat i)) = Some n →
  (∀ m : nat, (i < m ≤ q)%nat → node_at nodes (TreeMath.node (Z.of_nat m) (self / 2 ^ Z.of_nat m)) = None) →
  non_blank_pos nodes (own_path nodes self) q = Ok i.
Proof.
  intros Hf He Hl Hs. induction q as [|q IH]; intros Hq Hi Hn Hb.
  all: destruct (own_path_lookup nodes self _ Hf Hs Hq) as (c & Hc & Hpc).
  all: cbn [non_blank_pos]; rewrite Hc; cbn [unwrap mbind result_bind]; unfold is_blank; rewrite Hpc, borrow_node_in_tree by
      (try done; apply TreeMath.in_tree_up; lia); cbn [mbind result_bind].
  - assert (i = O) as -> by lia. rewrite Hn. by rewrite bool_decide_eq_false_2.
  - destruct (decide (i = S q)) as [->|Hne]; [rewrite Hn; by rewrite bool_decide_eq_false_2|].
    rewrite Hb by lia. rewrite bool_decide_eq_true_2 by done. apply IH; [lia|lia|done|]. intros m Hm. apply Hb. lia.
Qed.

(** ** Private keys that fit the tree *)

(** At every filled ancestor a member holds the node's secret key, unless it is
    unmerged there. *)
Definition holds_key (csp : CipherSuiteProvider) (p : TreeKemPrivate) (k : nat) (n : Node) : Prop :=
  match secret_keys p !! k with
  | Some (Some sk) => hpke_pair csp sk (public_key n)
  | Some None => ∃ q, n = ParentNode q ∧ self_index p ∈ unmerged_leaves q
  | None => False
  end.

Definition priv_ok (csp : CipherSuiteProvider) (nodes : NodeVec) (p : TreeKemPrivate) : Prop :=
  ∀ (k : nat) n, node_at nodes (TreeMath.node (Z.of_nat k) (self_index p / 2 ^ Z.of_nat k)) = Some n → holds_key csp p k n.

(** The two ends leave the same leaves out of a resolution. *)
Lemma filters_agree excluding (reso : list Z) :
  Forall (λ e, 0 ≤ e < 2 ^ 31) excluding →
  List.filter (λ idx, negb (bool_decide (idx ∈ node_index <$> excluding))) reso =
  List.filter (λ idx, (idx mod 2 =? 1) || negb (bool_decide (idx / 2 ∈ excluding))) reso.
Proof.
  intros He. apply filter_ext. intros x. rewrite Forall_forall in He.
  assert (x ∈ node_index <$> excluding ↔ x mod 2 = 0 ∧ x / 2 ∈ excluding) as Hx.
  { rewrite list_elem_of_fmap. split.
    - intros (e & -> & Hin). rewrite node_index_small by (by apply He). rewrite Z.mul_comm, Z.mod_mul, Z.div_mul by done. done.
    - intros [Hm Hin]. exists (x / 2). split; [|done]. rewrite node_index_small by (by apply He). Z.div_mod_to_equations. lia. }
  rewrite (bool_decide_ext _ _ Hx). pose proof (Z.mod_pos_bound x 2 ltac:(lia)).
  destruct (Z.eqb_spec (x mod 2) 1) as [E|E]; cbn [orb].
  - rewrite bool_decide_eq_false_2; [done|]. intros [? _]. lia.
  - f_equal. apply bool_decide_ext. split; [by intros []|]. intros ?. split; [lia|done].
Qed.

(** What the receiver finds: its position [i] below the common ancestor, the key
    it holds there, and the place of that node among the recipients. *)
Lemma receiver_finds csp nodes p (q : nat) l excluding :
  fits nodes → ends_in_leaf nodes → 1 ≤ len nodes → 0 ≤ self_index p < 2 ^ depth nodes → Z.of_nat q ≤ depth nodes →
  leaf_at nodes (self_index p) = Some l →
  (∀ (k : nat) n, (k ≤ q)%nat → node_at nodes (TreeMath.node (Z.of_nat k) (self_index p / 2 ^ Z.of_nat k)) = Some n → holds_key csp p k n) →
  self_index p ∉ excluding →
  ∃ (i : nat) n sk pos, (i ≤ q)%nat ∧
    find_resolved_pos nodes (secret_keys p) (own_path nodes (self_index p)) (Z.of_nat q) = Ok i ∧
    node_at nodes (TreeMath.node (Z.of_nat i) (self_index p / 2 ^ Z.of_nat i)) = Some n ∧
    secret_keys p !! i = Some (Some sk) ∧ hpke_pair csp sk (public_key n) ∧
    find_ciphertext_pos nodes (TreeMath.node (Z.of_nat q) (self_index p / 2 ^ Z.of_nat q))
      (TreeMath.node (Z.of_nat i) (self_index p / 2 ^ Z.of_nat i)) excluding = Ok pos ∧
    vec_get (List.filter (λ idx, (idx mod 2 =? 1) || negb (bool_decide (idx / 2 ∈ excluding)))
      (resolution nodes q (self_index p / 2 ^ Z.of_nat q))) pos =
      Some (TreeMath.node (Z.of_nat i) (self_index p / 2 ^ Z.of_nat i)).
Proof.
  intros Hf He Hl Hs Hq Hleaf Hpriv Hex. set (r := self_index p) in *. destruct (depth_spec nodes Hf) as (Hd & _ & _).
  assert (2 ^ depth nodes ≤ 2 ^ 31) by (apply Z.pow_le_mono_r; lia).
  assert (node_at nodes (2 * r) = Some (Leaf l)) as Hat.
  { unfold leaf_at in Hleaf. destruct (node_at nodes (2 * r)) as [[]|]; congruence. }
  assert (∀ c : nat, c = O → TreeMath.node (Z.of_nat c) (r / 2 ^ Z.of_nat c) = 2 * r) as H0.
  { intros c ->. change (Z.of_nat 0) with 0. by rewrite Z.pow_0_r, Z.div_1_r, TreeMath.node_0. }
  destruct (nearest_filled nodes r q) as (i & n & Hi & Hn & Hb & Hres); [lia|by eexists|].
  assert (∀ (c : nat) m, (c ≤ q)%nat → node_at nodes (TreeMath.node (Z.of_nat c) (r / 2 ^ Z.of_nat c)) = Some m →
    TreeMath.node (Z.of_nat c) (r / 2 ^ Z.of_nat c) ∈ resolution nodes q (r / 2 ^ Z.of_nat q) →
    ∃ pos, find_ciphertext_pos nodes (TreeMath.node (Z.of_nat q) (r / 2 ^ Z.of_nat q))
      (TreeMath.node (Z.of_nat c) (r / 2 ^ Z.of_nat c)) excluding = Ok pos ∧
    vec_get (List.filter (λ idx, (idx mod 2 =? 1) || negb (bool_decide (idx / 2 ∈ excluding)))
      (resolution nodes q (r / 2 ^ Z.of_nat q))) pos = Some (TreeMath.node (Z.of_nat c) (r / 2 ^ Z.of_nat c))) as Hct.
  { intros c m Hc _ Hin. unfold find_ciphertext_pos. rewrite get_resolution_index_node; [|lia|apply Z.div_pos; [lia|apply pow2_pos; lia]].
    cbn [mbind result_bind]. edestruct find_position_spec as (pos & -> & Hpos); [|exists pos; by split].
    apply list_elem_of_In, filter_In. split; [by apply list_elem_of_In|].
    destruct (decide (c = O)) as [->|Hc0].
    - rewrite H0 by done. rewrite Z.mul_comm, Z.div_mul by done. rewrite bool_decide_eq_false_2 by done. apply orb_true_r.
    - assert (Z.even (TreeMath.node (Z.of_nat c) (r / 2 ^ Z.of_nat c)) = false) as Hev.
      { rewrite even_node; [lia|lia|apply Z.div_pos; [lia|apply pow2_pos; lia]]. }
      rewrite Zmod_even, Hev. done. }
  unfold find_resolved_pos. rewrite length_own_path, (proj2 (Z.ltb_lt _ _)), Nat2Z.id by (done || lia).
  rewrite (non_blank_pos_spec nodes r q i n) by done. cbn [mbind result_bind].
  pose proof (Hpriv i n Hi Hn) as Hk. unfold holds_key in Hk. destruct (secret_keys p !! i) as [[sk|]|] eqn:Ek; [| |done]; cbn [unwrap mbind result_bind].
  - rewrite bool_decide_eq_false_2 by done. destruct (Hct i n Hi Hn) as (pos & Hp1 & Hp2); [apply Hres; left|].
    exists i, n, sk, pos. done.
  - rewrite bool_decide_eq_true_2 by done. destruct Hk as (par & -> & Hun).
    pose proof (Hpriv O (Leaf l) ltac:(lia)) as Hk0. rewrite H0 in Hk0 by done. specialize (Hk0 Hat). unfold holds_key in Hk0.
    destruct (secret_keys p !! O) as [[sk|]|] eqn:Ek0; [|by destruct Hk0 as (? & [=] & _)|done].
    destruct (Hct O (Leaf l)) as (pos & Hp1 & Hp2); [lia|by rewrite H0| |].
    + rewrite H0 by done. apply Hres. right. apply list_elem_of_fmap. exists r. split; [|done]. symmetry. apply node_index_small. lia.
    + exists O, (Leaf l), sk, pos. split_and!; try done; [lia|by rewrite H0].
Qed.

(** ** What the committer sends *)

(** The updates of the path, at their positions. *)
Lemma spread {A} (f : A * bytes → Result MlsError UpdatePathNode) (h : TreeMath.CopathNode → A) : ∀ path secrets us,
  length path = length secrets →
  mapM_res f (omap (λ '(n, s), (λ s, (h n, s)) <$> s) (zip path secrets)) = Ok us →
  ∃ ups, us = omap id ups ∧ is_none <$> ups = is_none <$> secrets ∧
    ∀ (p : nat) s, secrets !! p = Some (Some s) → ∃ c u, path !! p = Some c ∧ ups !! p = Some (Some u) ∧ f (h c, s) = Ok u.
Proof.
  induction path as [|c path IH]; intros [|o secrets] us Hlen; try done; cbn [zip zip_with omap list_omap mapM_res].
  { intros [= <-]. by exists []. }
  injection Hlen as Hlen. destruct o as [s|]; cbn [fmap option_fmap option_map mapM_res].
  - intros H. apply bind_ok in H as (u & Hu & H). apply bind_ok in H as (us' & Hus & [= <-]).
    destruct (IH secrets us' Hlen Hus) as (ups & -> & Hn & Hf). exists (Some u :: ups). split_and!; [done|cbn; by rewrite Hn|].
    intros [|p] s' Hs; [injection Hs as <-; by exists c, u|by apply Hf].
  - intros H. destruct (IH secrets us Hlen H) as (ups & -> & Hn & Hf). exists (None :: ups). split_and!; [done|cbn; by rewrite Hn|].
    intros [|p] s' Hs; [done|by apply Hf].
Qed.

(** The outcome of [encap], as the receivers depend on it. *)
Record encapped (csp : CipherSuiteProvider) (seed : bytes) (t t1 : TreeKemPublic) (p1 : TreeKemPrivate) (sender : Z) (seal : Z → Z → bytes)
    (secrets : list (option bytes)) (commit context : bytes) (excluding : list Z) (us : list UpdatePathNode) : Prop := {
  en_len : len (nodes t1) = len (nodes t);
  en_differ : TreeHash.differ_above (nodes t) (nodes t1) [sender];
  en_filter : filtered (nodes t) sender = Ok (is_none <$> secrets);
  en_secrets : ∃ g g', produces csp seed generator_new secrets g ∧ next_secret csp seed g = Ok (commit, g');
  en_keys (p : nat) o : secrets !! p = Some o → secret_keys p1 !! S p = Some (o ≫= key_of csp);
  en_pub (p : nat) s : secrets !! p = Some (Some s) → ∃ sk pk, to_hpke_key_pair csp s = Ok (sk, pk) ∧
    public_key <$> node_at (nodes t1) (TreeMath.node (Z.of_nat (S p)) (sender / 2 ^ Z.of_nat (S p))) = Some pk;
  en_sent : encrypt_path_secrets csp t1 seal (direct_copath (nodes t) sender) secrets context excluding = Ok us;
}.

Lemma filtered_path_in_array ns i fs : fits ns → 0 ≤ i → 2 * i < len ns → filtered ns i = Ok fs →
  length fs = Z.to_nat (depth ns) ∧
  ∀ (k : nat) c f, zip (direct_copath ns i) fs !! k = Some (c, f) →
    TreeMath.path c = TreeMath.node (Z.of_nat (S k)) (i / 2 ^ Z.of_nat (S k)) ∧ (f = false → 0 ≤ TreeMath.path c < len ns).
Proof.
  intros Hf Hi Hlt Hfs. pose proof (leaf_in_tree ns i Hf Hi Hlt) as Hit. rewrite filtered_spec in Hfs by done. injection Hfs as <-.
  split; [by rewrite length_fmap, length_seq|]. intros k c f H. rewrite direct_copath_nodes in H by done.
  rewrite lookup_zip_with, TreeMath.copath_spec_lookup in H. case_decide; [|done]. cbn in H.
  rewrite list_lookup_fmap in H. destruct (seq 0 _ !! k) as [k'|] eqn:Ek; [|done]. apply lookup_seq in Ek as [-> _].
  cbn in H. injection H as <- <-. cbn [TreeMath.path]. rewrite ?Z.add_0_l.
  replace (1 + Z.of_nat k) with (Z.of_nat (S k)) by lia. replace (Z.of_nat k + 1) with (Z.of_nat (S k)) by lia.
  split; [done|]. intros Hb%bool_decide_eq_false. by apply path_in_array.
Qed.

Lemma encap_encapped csp r t p context excluding signer props nsi t1 p1 context1 gen :
  fits (nodes t) → 0 ≤ self_index p → 2 * self_index p < len (nodes t) →
  encap csp r t p context excluding signer props nsi = Ok (t1, p1, context1, gen) →
  ∃ context_bytes, mls_encode_to_vec group_context_codec context1 = Ok context_bytes ∧
    encapped csp (r_path r) t t1 p1 (self_index p) (r_seal r) (path_secrets gen) (commit_secret gen) context_bytes excluding
      (up_nodes (update_path gen)).
Proof.
  intros Hf Hi Hlt H. unfold encap in H. set (i := self_index p) in *. pose proof (leaf_in_tree _ i Hf Hi Hlt) as Hit.
  destruct (depth_spec _ Hf) as (Hd & _ & _).
  apply bind_ok in H as (fs & Hfs & H). destruct (filtered_path_in_array _ _ _ Hf Hi Hlt Hfs) as [Hlfs Hpath].
  apply bind_ok in H as ([[[t2 keys2] g] secrets] & Hloop & H). rewrite imap_pair_zip in Hloop.
  set (keys0 := vec_resize (secret_keys p) (len (direct_copath (nodes t) i) + 1) None) in *.
  assert (length (direct_copath (nodes t) i) = Z.to_nat (depth (nodes t))) as Hlp.
  { rewrite direct_copath_nodes, TreeMath.length_copath_spec by (done || lia). f_equal. lia. }
  assert (length keys0 = S (Z.to_nat (depth (nodes t)))) as Hlk.
  { unfold keys0, vec_resize, len. rewrite length_resize, Hlp. lia. }
  apply (encap_loop csp (r_path r) t i (length keys0) Hi _ t keys0 generator_new [] []) in Hloop as [E1 E2 E3 E4 E5 E6].
  2: { split; try done. by constructor. }
  2: { cbn. rewrite length_zip_with_l_eq by lia. lia. }
  2: { cbn. exact Hpath. }
  cbn [app] in E1. rewrite snd_zip in E1 by lia.
  apply bind_ok in H as (t3 & H3 & H).
  apply update_parent_hashes_shape in H3 as (S1 & S2 & S3); [|unfold fits in *; lia|done|lia].
  apply bind_ok in H as (leaf & _ & H). apply bind_ok in H as ([lsk leaf'] & _ & H).
  apply bind_ok in H as (ns & Hns & H). apply bind_ok in H as (keys3 & Hk3 & H).
  apply bind_ok in H as (t4 & H4%update_hashes_nodes & H). apply bind_ok in H as ([h t5] & H5%TreeHash.root_hash_same & H).
  apply bind_ok in H as (cb & Hcb & H). apply bind_ok in H as (us & Hus & H). apply bind_ok in H as ([cs g'] & Hcs & [= <- <- <- <-]).
  assert (ns = vec_set (nodes t3) (2 * i) (Some (Leaf leaf'))) as ->.
  { unfold borrow_as_leaf_mut in Hns. rewrite node_index_small in Hns by (unfold fits in Hf; lia).
    rewrite validate_index_ok in Hns by lia. cbn [mbind result_bind] in Hns.
    apply bind_ok in Hns as (n & _ & Hns). by apply bind_ok in Hns as (l & _ & [= <-]). }
  cbn [nodes with_nodes] in H4. rewrite H4 in H5.
  exists cb. split; [by apply from_codec_ok|].
  cbn [path_secrets commit_secret update_path up_nodes]. split.
  - rewrite H5, len_vec_set. lia.
  - rewrite H5. apply (TreeKem.differ_above_mono _ _ ([i] ++ ([i] ++ [i]))); [set_solver|].
    apply (TreeKem.differ_above_trans _ (nodes t2)).
    + apply TreeKem.differ_above_path; [done|]. intros x Hx. destruct (ancestor_em i x Hi) as [|Hn]; [by right|].
      destruct Hx. symmetry. by apply E4.
    + apply (TreeKem.differ_above_trans _ (nodes t3)); [done|]. apply differ_above_set; lia.
  - by rewrite Hfs, E1.
  - by exists g, g'.
  - intros k o Ho. cbn [secret_keys]. unfold vec_store, vec_set in Hk3. destruct (_ && _); [|done]. injection Hk3 as <-.
    rewrite list_lookup_insert_ne by done. by apply E5.
  - intros k s Hs. destruct (E6 k s Hs) as (sk & q & Hpair & Hat). exists sk, (parent_public_key q). split; [done|].
    rewrite H5, node_at_set by lia. destruct (Z.eqb_spec (TreeMath.node (Z.of_nat (S k)) (i / 2 ^ Z.of_nat (S k))) (2 * i)) as [E|_].
    + apply (f_equal Z.even) in E. rewrite even_node, Z.even_mul in E by (try apply Z.div_pos; try apply pow2_pos; lia).
      change (Z.even 2 || Z.even i) with true in E. apply Z.eqb_eq in E. lia.
    + by rewrite S3, Hat.
  - done.
Qed.

(** ** Agreement *)
Lemma div_half i (p : nat) : i / 2 ^ Z.of_nat (S p) = i / 2 ^ Z.of_nat p / 2.
Proof. rewrite Z.div_div by (try apply pow2_pos; lia). f_equal. rewrite Nat2Z.inj_succ, Z.pow_succ_r by lia. lia. Qed.

(** Where the paths of two leaves meet. *)
Lemma lca_spec nodes r s :
  fits nodes → 0 ≤ r < 2 ^ depth nodes → 0 ≤ s < 2 ^ depth nodes → r ≠ s →
  ∃ p : nat, lca_index r s = Z.of_nat p ∧ Z.of_nat p < depth nodes ∧ r / 2 ^ Z.of_nat p ≠ s / 2 ^ Z.of_nat p ∧
    TreeMath.sib (s / 2 ^ Z.of_nat p) = r / 2 ^ Z.of_nat p ∧ r / 2 ^ Z.of_nat (S p) = s / 2 ^ Z.of_nat (S p).
Proof.
  intros Hf Hr Hs Hne. destruct (depth_spec nodes Hf) as (Hd & _ & _).
  assert (2 ^ depth nodes ≤ 2 ^ 31) by (apply Z.pow_le_mono_r; lia).
  destruct (TreeMath.leaf_lca_level_spec (depth nodes) r s) as (p & Hl & Hp & Heq & Hlt); try done.
  exists (Z.to_nat p). unfold lca_index. rewrite !node_index_small, Hl by lia. unfold wrap. rewrite Z.mod_small by lia.
  assert (r / 2 ^ Z.of_nat (S (Z.to_nat p)) = s / 2 ^ Z.of_nat (S (Z.to_nat p))) as Heq'.
  { rewrite Nat2Z.inj_succ, Z2Nat.id by lia. done. }
  split_and!; [lia|lia| | |done].
  - rewrite Z2Nat.id by lia. apply Hlt. lia.
  - apply TreeMath.sib_unique; [rewrite Z2Nat.id by lia; apply not_eq_sym, Hlt; lia|]. by rewrite <- !div_half.
Qed.

(** Below the meeting point nothing changed. *)
Lemma below_same a b s (p m : nat) j i :
  TreeHash.differ_above a b [s] → s / 2 ^ Z.of_nat p ≠ j → 0 ≤ s → (m ≤ p)%nat → 0 ≤ i → i / 2 ^ Z.of_nat (p - m) = j →
  node_at a (TreeMath.node (Z.of_nat m) i) = node_at b (TreeMath.node (Z.of_nat m) i).
Proof.
  intros Hd Hne Hs Hm Hi E. destruct (decide (node_at a (TreeMath.node (Z.of_nat m) i) = node_at b (TreeMath.node (Z.of_nat m) i)))
    as [|Hx]; [done|]. destruct Hne. apply Hd in Hx as (l & ->%list_elem_of_singleton & <-); [|lia|done].
  rewrite <- E, Z.div_div by (try apply pow2_pos; lia). rewrite <- Z.pow_add_r by lia. do 2 f_equal. lia.
Qed.

Lemma encrypt_copath_ok csp t seal s (p : nat) j context excluding u :
  fits (nodes t) → Z.of_nat p < depth (nodes t) → 0 ≤ j < 2 ^ (depth (nodes t) - Z.of_nat p) →
  encrypt_copath_node_resolution csp t seal s (TreeMath.node (Z.of_nat p) j) context excluding = Ok u →
  (∃ q, node_at (nodes t) (TreeMath.node (Z.of_nat (S p)) (j / 2)) = Some (ParentNode q) ∧ up_public_key u = parent_public_key q) ∧
  Forall2 (λ idx ct, ∃ n, node_at (nodes t) idx = Some n ∧
      encrypt csp (ascii "UpdatePathNode") (seal idx) (public_key n) context s = Ok ct)
    (List.filter (λ idx, negb (bool_decide (idx ∈ excluding))) (resolution (nodes t) p j)) (encrypted_path_secret u).
Proof.
  intros Hf Hp Hj. destruct (depth_spec _ Hf) as (Hd & Ht & _). unfold encrypt_copath_node_resolution.
  rewrite get_resolution_index_node by lia. cbn [mbind result_bind]. rewrite Ht.
  rewrite TreeMath.parent_sibling_node by (lia || split; lia). rewrite (proj2 (Z.eqb_neq _ _)) by lia. cbn [ok_or].
  intros H. apply bind_ok in H as (cts & Hcts & H). cbn [mbind result_bind TreeMath.parent] in H.
  apply bind_ok in H as (q & Hq & [= <-]). cbn [up_public_key encrypted_path_secret]. split.
  - exists q. split; [|done]. apply bind_ok in Hq as (n & Hn & Hq). apply bind_ok in Hn as (x & Hx & [= <-]).
    unfold validate_index in Hx. destruct (_ >=? _); [done|]. injection Hx as <-.
    replace (Z.of_nat (S p)) with (Z.of_nat p + 1) by lia. unfold node_at.
    destruct (vec_get _ _) as [[[]|]|]; try done. cbn in *. by injection Hq as ->.
  - apply mapM_res_ok in Hcts. eapply Forall2_impl; [exact Hcts|]. cbn. intros idx ct H.
    apply bind_ok in H as (n & Hn & H). apply bind_ok in Hn as (x & Hx & [= <-]).
    unfold validate_index in Hx. destruct (_ >=? _); [done|]. injection Hx as <-.
    apply bind_ok in H as (n & Hn & H). exists n. split; [|done]. unfold node_at.
    by destruct (vec_get _ _) as [[]|]; cbn in Hn; simplify_eq.
Qed.

Lemma depth_len (a b : NodeVec) : len a = len b → depth a = depth b.
Proof. unfold depth, total_leaf_count. by intros ->. Qed.

Lemma sib_in_tree d s (p : nat) : 0 ≤ s < 2 ^ d → Z.of_nat p < d → 0 ≤ TreeMath.sib (s / 2 ^ Z.of_nat p) < 2 ^ (d - Z.of_nat p).
Proof.
  intros Hs Hp. assert (TreeMath.in_tree d (Z.of_nat p) (s / 2 ^ Z.of_nat p)) as H by (apply TreeMath.in_tree_up; lia).
  by apply TreeMath.in_tree_sib in H as [_ H]; [|lia].
Qed.

Lemma encapped_length csp seed t t1 p1 sender seal secrets commit context excluding us :
  fits (nodes t) → 0 ≤ sender → 2 * sender < len (nodes t) →
  encapped csp seed t t1 p1 sender seal secrets commit context excluding us → length secrets = Z.to_nat (depth (nodes t)).
Proof.
  intros Hf Hi Hlt E. destruct (filtered_path_in_array _ _ _ Hf Hi Hlt (en_filter _ _ _ _ _ _ _ _ _ _ _ _ E)) as [Hl _].
  by rewrite length_fmap in Hl.
Qed.

(** The secret of position [p] is encrypted to the resolution of the copath node. *)
Definition sent_to (csp : CipherSuiteProvider) (ns : NodeVec) (sender : Z) (context : bytes) (excluding : list Z)
    (secrets : list (option bytes)) (ups : list (option UpdatePathNode)) : Prop :=
  ∀ (p : nat) s, secrets !! p = Some (Some s) → ∃ u, ups !! p = Some (Some u) ∧
    Forall2 (λ idx ct, ∃ n sd, node_at ns idx = Some n ∧
        encrypt csp (ascii "UpdatePathNode") sd (public_key n) context s = Ok ct)
      (List.filter (λ idx, negb (bool_decide (idx ∈ node_index <$> excluding)))
        (resolution ns p (TreeMath.sib (sender / 2 ^ Z.of_nat p)))) (encrypted_path_secret u).

(** Every secret of the path is sent, with its public key, to the resolution of
    the copath node. *)
Lemma encapped_sent csp seed t t1 p1 sender seal secrets commit context excluding us :
  fits (nodes t) → 0 ≤ sender → 2 * sender < len (nodes t) →
  encapped csp seed t t1 p1 sender seal secrets commit context excluding us →
  ∃ ups, us = omap id ups ∧ is_none <$> ups = is_none <$> secrets ∧ Forall2 (matching csp) ups secrets ∧
    sent_to csp (nodes t1) sender context excluding secrets ups.
Proof.
  intros Hf Hi Hlt [E1 E2 E3 _ _ E5 E6]. pose proof (leaf_in_tree _ _ Hf Hi Hlt) as Hit. destruct (depth_spec _ Hf) as (Hd & _ & _).
  destruct (filtered_path_in_array _ _ _ Hf Hi Hlt E3) as [Hl _]. rewrite length_fmap in Hl.
  apply spread in E6 as (ups & -> & Hn & Hs).
  2: { rewrite direct_copath_nodes, TreeMath.length_copath_spec by (done || lia). lia. }
  rewrite direct_copath_nodes in Hs by done.
  assert (∀ (p : nat) s, secrets !! p = Some (Some s) → ∃ u sk, ups !! p = Some (Some u) ∧
    to_hpke_key_pair csp s = Ok (sk, up_public_key u) ∧
    Forall2 (λ idx ct, ∃ n sd, node_at (nodes t1) idx = Some n ∧ encrypt csp (ascii "UpdatePathNode") sd (public_key n) context s = Ok ct)
        (List.filter (λ idx, negb (bool_decide (idx ∈ node_index <$> excluding)))
          (resolution (nodes t1) p (TreeMath.sib (sender / 2 ^ Z.of_nat p)))) (encrypted_path_secret u)) as H.
  { intros p s Hps. pose proof (lookup_lt_Some _ _ _ Hps). destruct (Hs p s Hps) as (c & u & Hc & Hu & He).
    destruct (E5 p s Hps) as (sk & pk & Hk & Hpk). rewrite TreeMath.copath_spec_lookup, decide_True in Hc by lia.
    injection Hc as <-. cbn [TreeMath.copath] in He. rewrite Z.add_0_l in He.
    apply encrypt_copath_ok in He as [(q & Hq & Hqk) He]; rewrite ?(depth_len _ _ E1).
    2: unfold fits in *; lia. 2: lia. 2: apply sib_in_tree; lia.
    rewrite TreeMath.sib_div2, <- div_half in Hq. rewrite Hq in Hpk. injection Hpk as <-.
    exists u, sk. rewrite Hqk. split_and!; [done|done|]. eapply Forall2_impl; [exact He|]. intros ? ? (n & ? & ?). eauto. }
  exists ups. split_and!; [done|done| |intros p s Hps; destruct (H p s Hps) as (u & sk & ? & _ & ?); eauto].
  apply Forall2_lookup. intros p. pose proof (f_equal (lookup p) Hn) as Hp. rewrite !list_lookup_fmap in Hp.
  destruct (secrets !! p) as [[s|]|] eqn:Es; [| |].
  - destruct (H p s Es) as (u & sk & -> & Hk & _). constructor. by exists sk.
  - destruct (ups !! p) as [[]|]; try done. by constructor.
  - destruct (ups !! p) as [[]|]; try done. constructor.
Qed.

Lemma produces_drop_nones csp seed g l r g' :
  Forall (λ o, o = None) r → produces csp seed g (l ++ r) g' → produces csp seed g l g'.
Proof.
  intros Hr. revert g. induction l as [|o l IH]; intros g H; cbn in H.
  - clear -Hr H. induction Hr as [|x r -> _ IH]; inversion H; subst; [constructor|by apply IH].
  - inversion H; subst; econstructor; eauto.
Qed.

Lemma matching_nones csp vs sec : Forall2 (matching csp) vs sec → Forall (λ o, o = None) vs → Forall (λ o, o = None) sec.
Proof. induction 1 as [|v s vs sec Hm _ IH]; inversion 1; subst; constructor; auto. by destruct s. Qed.

Lemma drop_zip_seq {A} (l : list A) p :
  drop p (imap pair l) = zip (seq p (length (drop p l))) (drop p l).
Proof.
  rewrite imap_pair_zip. by rewrite (zip_with_drop pair), drop_seq, length_drop.
Qed.

(** The receiver's derivation from the secret of the common ancestor on. *)
Lemma decap_derives csp seed g g' vs rest secrets (p : nat) s keys commit gc :
  produces csp seed g secrets g' → next_secret csp seed g' = Ok (commit, gc) →
  Forall2 (matching csp) (vs ++ rest) secrets → Forall (λ o, o = None) rest →
  secrets !! p = Some (Some s) → (length secrets < length keys)%nat →
  ∃ keys', foldM (decap_step csp) (keys, generator_starting_with s) (drop p (imap pair vs)) = Ok (keys', g') ∧
    next_secret csp [] g' = Ok (commit, gc) ∧
    ∀ m, keys' !! m = if decide (p < m)%nat then (if decide (m ≤ length vs)%nat then Some (mjoin (secrets !! (m - 1)%nat) ≫= key_of csp) else keys !! m)
                      else keys !! m.
Proof.
  intros Hp Hn Hm Hr Hs Hlen. apply Forall2_app_inv_l in Hm as (sv & sr & Hm & Hmr & ->).
  apply produces_drop_nones in Hp; [|by eapply matching_nones].
  pose proof (matching_nones _ _ _ Hmr Hr) as Hnone. pose proof (Forall2_length _ _ _ Hm) as Hl.
  rewrite length_app in Hlen.
  assert (sv !! p = Some (Some s)) as Hsv.
  { apply lookup_app_Some in Hs as [|[_ Hs]]; [done|]. rewrite Forall_forall in Hnone. by apply list_elem_of_lookup_2, Hnone in Hs. }
  pose proof (lookup_lt_Some _ _ _ Hsv) as Hlt.
  pose proof (take_drop_middle sv p (Some s) Hsv) as Hsplit. rewrite <- Hsplit in Hp.
  apply (produces_split _ _ []) in Hp as [Hp [s' ->]].
  destruct (decap_loop csp (drop p vs) (drop p sv) (generator_starting_with s) (after s') p keys) as (keys' & Hk & _ & Hat).
  - rewrite (drop_S _ _ _ Hsv). by econstructor.
  - by apply Forall2_drop.
  - rewrite length_drop. lia.
  - exists keys'. rewrite drop_zip_seq. split_and!; [done|by rewrite <- (next_secret_seed csp seed)|].
    intros m. rewrite Hat, length_drop. repeat case_decide; try lia; try done. rewrite lookup_drop.
    replace (p + (m - S p))%nat with (m - 1)%nat by lia. by rewrite lookup_app_l by lia.
Qed.

(** A member [pr] that can receive the commit of [sender]: it is a leaf of the tree
    [t] the commit was made for, holds the keys of that tree, is not among the
    leaves just added, and has, in [tR], changed nothing off the sender's path. *)
Record receiver_ready (csp : CipherSuiteProvider) (t tR : TreeKemPublic) (pr : TreeKemPrivate) (sender : Z)
    (excluding : list Z) : Prop := {
  rr_index : 0 ≤ self_index pr ∧ 2 * self_index pr < len (nodes t);
  rr_other : self_index pr ≠ sender;
  rr_leaf : is_Some (leaf_at (nodes t) (self_index pr));
  rr_keys : priv_ok csp (nodes t) pr;
  rr_old : self_index pr ∉ excluding;
  rr_len : len (nodes tR) = len (nodes t);
  rr_same : TreeHash.differ_above (nodes t) (nodes tR) [sender];
}.

Lemma node_leaf_div r : TreeMath.node (Z.of_nat 0) (r / 2 ^ Z.of_nat 0) = 2 * r.
Proof. change (Z.of_nat 0) with 0. by rewrite Z.pow_0_r, Z.div_1_r, TreeMath.node_0. Qed.

Lemma path_div r (k q : nat) : (k ≤ q)%nat → r / 2 ^ Z.of_nat k / 2 ^ Z.of_nat (q - k) = r / 2 ^ Z.of_nat q.
Proof. intros Hk. rewrite Z.div_div, <- Z.pow_add_r by (try apply pow2_pos; lia). do 2 f_equal. lia. Qed.

(** What the receiver finds in its own tree, in terms of the committer's. *)
Lemma receiver_ready_finds csp t tR pr sender excluding (q : nat) :
  fits (nodes t) → ends_in_leaf (nodes t) → 0 ≤ sender → receiver_ready csp t tR pr sender excluding →
  Z.of_nat q ≤ depth (nodes t) → self_index pr / 2 ^ Z.of_nat q ≠ sender / 2 ^ Z.of_nat q →
  let r := self_index pr in
  ∃ (i : nat) n sk pos, (i ≤ q)%nat ∧
    find_resolved_pos (nodes tR) (secret_keys pr) (own_path (nodes tR) r) (Z.of_nat q) = Ok i ∧
    node_at (nodes t) (TreeMath.node (Z.of_nat i) (r / 2 ^ Z.of_nat i)) = Some n ∧
    borrow_node (nodes tR) (TreeMath.node (Z.of_nat i) (r / 2 ^ Z.of_nat i)) = Ok (Some n) ∧
    secret_keys pr !! i = Some (Some sk) ∧ hpke_pair csp sk (public_key n) ∧
    find_ciphertext_pos (nodes tR) (TreeMath.node (Z.of_nat q) (r / 2 ^ Z.of_nat q))
      (TreeMath.node (Z.of_nat i) (r / 2 ^ Z.of_nat i)) excluding = Ok pos ∧
    vec_get (List.filter (λ idx, (idx mod 2 =? 1) || negb (bool_decide (idx / 2 ∈ excluding)))
      (resolution (nodes t) q (r / 2 ^ Z.of_nat q))) pos = Some (TreeMath.node (Z.of_nat i) (r / 2 ^ Z.of_nat i)).
Proof.
  intros Hf He Hs [[Hr Hlt] Hne [l Hl] Hk Hold Hlen Hd] Hq Hdiff r. fold r in Hr, Hlt, Hne, Hl, Hold, Hdiff.
  pose proof (leaf_in_tree _ _ Hf Hr Hlt) as Hit. pose proof (depth_len _ _ Hlen) as Hdep.
  assert (∀ (m : nat) i, (m ≤ q)%nat → 0 ≤ i → i / 2 ^ Z.of_nat (q - m) = r / 2 ^ Z.of_nat q →
    node_at (nodes t) (TreeMath.node (Z.of_nat m) i) = node_at (nodes tR) (TreeMath.node (Z.of_nat m) i)) as Hsame.
  { intros m i Hm Hi E. by apply (below_same _ _ sender q m (r / 2 ^ Z.of_nat q) i). }
  assert (∀ m : nat, (m ≤ q)%nat → node_at (nodes t) (TreeMath.node (Z.of_nat m) (r / 2 ^ Z.of_nat m)) =
    node_at (nodes tR) (TreeMath.node (Z.of_nat m) (r / 2 ^ Z.of_nat m))) as Hpath.
  { intros m Hm. apply Hsame; [done|apply Z.div_pos; [lia|apply pow2_pos; lia]|by apply path_div]. }
  assert (fits (nodes tR)) as HfR by (unfold fits in *; lia).
  assert (ends_in_leaf (nodes tR)) as HeR by (unfold ends_in_leaf in *; by rewrite Hlen).
  destruct (receiver_finds csp (nodes tR) pr q l excluding) as (i & n & sk & pos & Hi & H1 & H2 & H3 & H4 & H5 & H6); fold r.
  1-3: done || lia. 1-2: rewrite ?Hdep; fold r; lia.
  - revert Hl. unfold leaf_at. pose proof (Hpath O ltac:(lia)) as H0. rewrite node_leaf_div in H0. by rewrite H0.
  - intros k n Hk' Hn. apply Hk. fold r. by rewrite Hpath.
  - done.
  - fold r in H1, H2, H5, H6. exists i, n, sk, pos.
    rewrite (resolution_ext (nodes t) (nodes tR)); [|done|apply Z.div_pos; [lia|apply pow2_pos; lia]].
    rewrite Hpath by done. rewrite borrow_node_in_tree, H2; [done..|lia|]. apply TreeMath.in_tree_up; rewrite ?Hdep; lia.
Qed.

(** The committer has a secret for the ancestor it shares with a member. *)
Lemma shared_secret csp seed t t1 p1 sender seal secrets commit context excluding us (q : nat) x :
  fits (nodes t) → 0 ≤ sender < 2 ^ depth (nodes t) → Z.of_nat q < depth (nodes t) →
  encapped csp seed t t1 p1 sender seal secrets commit context excluding us →
  x ∈ resolution (nodes t) q (TreeMath.sib (sender / 2 ^ Z.of_nat q)) → ∃ s, secrets !! q = Some (Some s).
Proof.
  intros Hf Hs Hq E Hx. pose proof (en_filter _ _ _ _ _ _ _ _ _ _ _ _ E) as Hfs. rewrite filtered_spec in Hfs by done.
  injection Hfs as Hfs. apply (f_equal (lookup q)) in Hfs. rewrite !list_lookup_fmap, lookup_seq_lt in Hfs by lia.
  destruct (secrets !! q) as [[s|]|]; [by exists s| |done]. cbn in Hfs. injection Hfs as Hfs%bool_decide_eq_true.
  rewrite Hfs in Hx. by apply elem_of_nil in Hx.
Qed.

Lemma vec_get_of_nat {A} (l : list A) (k : nat) : vec_get l (Z.of_nat k) = l !! k.
Proof. unfold vec_get. rewrite (proj2 (Z.ltb_ge _ _)) by lia. by rewrite Nat2Z.id. Qed.

Lemma vec_get_Forall2 {A B} (P : A → B → Prop) l k i a : Forall2 P l k → vec_get l i = Some a → ∃ b, vec_get k i = Some b ∧ P a b.
Proof. unfold vec_get. intros HF. destruct (i <? 0); [done|]. intros Hi. by eapply Forall2_lookup_l. Qed.

Lemma decap_ok csp tR pr sender vs excluding context (q i : nat) pos u ct sk n s :
  fits (nodes tR) → 0 ≤ self_index pr < 2 ^ depth (nodes tR) → Z.of_nat q ≤ depth (nodes tR) → (i ≤ q)%nat →
  lca_index (self_index pr) sender = Z.of_nat q →
  find_resolved_pos (nodes tR) (secret_keys pr) (own_path (nodes tR) (self_index pr)) (Z.of_nat q) = Ok i →
  find_ciphertext_pos (nodes tR) (TreeMath.node (Z.of_nat q) (self_index pr / 2 ^ Z.of_nat q))
    (TreeMath.node (Z.of_nat i) (self_index pr / 2 ^ Z.of_nat i)) excluding = Ok pos →
  v_nodes vs !! q = Some (Some u) → vec_get (encrypted_path_secret u) pos = Some ct →
  secret_keys pr !! i = Some (Some sk) →
  borrow_node (nodes tR) (TreeMath.node (Z.of_nat i) (self_index pr / 2 ^ Z.of_nat i)) = Ok (Some n) →
  decrypt csp (ascii "UpdatePathNode") sk (public_key n) context ct = Ok s →
  decap csp tR pr sender vs excluding context =
    ('(keys, g) ← foldM (decap_step csp)
        (vec_resize (secret_keys pr) (len (own_path (nodes tR) (self_index pr)) + 1) None, generator_starting_with s)
        (drop q (imap pair (v_nodes vs)));
     '(commit_secret, _) ← next_secret csp [] g;
     Ok (commit_secret, {| self_index := self_index pr; secret_keys := keys |})).
Proof.
  intros Hf Hr Hq Hi Hlca Hpos Hct Hu Hget Hsk Hn Hdec. unfold decap. rewrite Hlca, Hpos. cbn [mbind result_bind].
  destruct (own_path_lookup (nodes tR) (self_index pr) q Hf Hr Hq) as (cq & Hcq & Hpq).
  destruct (own_path_lookup (nodes tR) (self_index pr) i Hf Hr ltac:(lia)) as (ci & Hci & Hpi).
  unfold vec_index. rewrite !vec_get_of_nat, Hcq, Hci. cbn [unwrap mbind result_bind]. rewrite Hpq, Hpi, Hct. cbn [mbind result_bind].
  rewrite Hu. cbn [unwrap ok_or mbind result_bind]. rewrite Hget. cbn [ok_or mbind result_bind]. rewrite Hsk.
  cbn [unwrap ok_or mbind result_bind]. rewrite Hn. cbn [ok_or mbind result_bind]. rewrite Hdec. cbn [mbind result_bind].
  by rewrite Nat2Z.id.
Qed.

Lemma vec_get_elem_of {A} (l : list A) i a : vec_get l i = Some a → a ∈ l.
Proof. unfold vec_get. destruct (i <? 0); [done|]. apply list_elem_of_lookup_2. Qed.

(** The receiver's ciphertext, and that it opens to the committer's secret. *)
Lemma receiver_opens csp seed t t1 p1 sender seal secrets commit context excluding us ups tR pr (q : nat) :
  fits (nodes t) → ends_in_leaf (nodes t) → 0 ≤ sender → sender < 2 ^ depth (nodes t) → Forall (λ e, 0 ≤ e < 2 ^ 31) excluding →
  encapped csp seed t t1 p1 sender seal secrets commit context excluding us →
  sent_to csp (nodes t1) sender context excluding secrets ups → receiver_ready csp t tR pr sender excluding →
  Z.of_nat q < depth (nodes t) → self_index pr / 2 ^ Z.of_nat q ≠ sender / 2 ^ Z.of_nat q →
  TreeMath.sib (sender / 2 ^ Z.of_nat q) = self_index pr / 2 ^ Z.of_nat q →
  ∃ s u (i : nat) pos ct sk n, secrets !! q = Some (Some s) ∧ ups !! q = Some (Some u) ∧ (i ≤ q)%nat ∧
    find_resolved_pos (nodes tR) (secret_keys pr) (own_path (nodes tR) (self_index pr)) (Z.of_nat q) = Ok i ∧
    find_ciphertext_pos (nodes tR) (TreeMath.node (Z.of_nat q) (self_index pr / 2 ^ Z.of_nat q))
      (TreeMath.node (Z.of_nat i) (self_index pr / 2 ^ Z.of_nat i)) excluding = Ok pos ∧
    vec_get (encrypted_path_secret u) pos = Some ct ∧ secret_keys pr !! i = Some (Some sk) ∧
    borrow_node (nodes tR) (TreeMath.node (Z.of_nat i) (self_index pr / 2 ^ Z.of_nat i)) = Ok (Some n) ∧
    decrypt csp (ascii "UpdatePathNode") sk (public_key n) context ct = Ok s.
Proof.
  intros Hf He Hp Hit Hex E Hsent Hrdy Hq Hne Hsib. pose proof (rr_index _ _ _ _ _ _ Hrdy) as [Hr _].
  set (r := self_index pr) in *. rename sender into s0.
  destruct (receiver_ready_finds csp t tR pr s0 excluding q Hf He Hp Hrdy ltac:(lia) Hne)
    as (i & n & sk & pos & Hi & R1 & R2 & R3 & R4 & R5 & R6 & R7). fold r in R1, R2, R3, R6, R7.
  destruct (shared_secret _ _ _ _ _ _ _ _ _ _ _ _ q (TreeMath.node (Z.of_nat i) (r / 2 ^ Z.of_nat i)) Hf (conj Hp Hit) Hq E) as [s Hs].
  { rewrite Hsib. apply vec_get_elem_of in R7. apply list_elem_of_In, filter_In in R7 as [R7 _]. by apply list_elem_of_In. }
  destruct (Hsent q s Hs) as (u & Hu & Hcts). rewrite Hsib in Hcts.
  assert (∀ (m : nat) i, (m ≤ q)%nat → 0 ≤ i → i / 2 ^ Z.of_nat (q - m) = r / 2 ^ Z.of_nat q →
    node_at (nodes t1) (TreeMath.node (Z.of_nat m) i) = node_at (nodes t) (TreeMath.node (Z.of_nat m) i)) as Hsame.
  { intros m j Hm Hj Hjq. symmetry. apply (below_same _ _ s0 q m (r / 2 ^ Z.of_nat q) j); try done. apply (en_differ _ _ _ _ _ _ _ _ _ _ _ _ E). }
  rewrite (resolution_ext _ _ _ _ Hsame), filters_agree in Hcts by (done || apply Z.div_pos; try apply pow2_pos; lia).
  destruct (vec_get_Forall2 _ _ _ _ _ Hcts R7) as (ct & Hct & n' & sd & Hn' & Hseal).
  rewrite Hsame, R2 in Hn' by (try apply path_div; try apply Z.div_pos; try apply pow2_pos; lia). injection Hn' as <-.
  pose proof (decrypt_encrypt _ _ _ _ _ _ _ _ R5 Hseal) as Hdec.
  exists s, u, i, pos, ct, sk, n. done.
Qed.

Lemma resize_keys {A} (l : list (option A)) (n m : nat) : (m < n)%nat → mjoin (resize n None l !! m) = mjoin (l !! m).
Proof.
  intros Hm. destruct (decide (m < length l)%nat) as [Hl|Hl].
  - by rewrite lookup_resize by done.
  - rewrite lookup_resize_new by lia. by rewrite (lookup_ge_None_2 l m) by lia.
Qed.

Lemma shared_above r s (q m : nat) :
  r / 2 ^ Z.of_nat q ≠ s / 2 ^ Z.of_nat q → r / 2 ^ Z.of_nat (S q) = s / 2 ^ Z.of_nat (S q) →
  r / 2 ^ Z.of_nat m = s / 2 ^ Z.of_nat m ↔ (q < m)%nat.
Proof.
  intros Hne Heq. split; intros H.
  - apply Nat.nle_gt. intros Hle. apply Hne. by rewrite <- (path_div r m q), <- (path_div s m q), H.
  - by rewrite <- (path_div r (S q) m), <- (path_div s (S q) m), Heq by lia.
Qed.

(** C2. TreeKEM agreement: every member that was in the group before the commit
    and receives the update path finds its ciphertext, decrypts it and arrives at
    the committer's commit secret; at every ancestor it shares with the committer
    and that got a new key, both hold the same secret key, which is the partner
    of the public key in the committer's tree; its keys elsewhere stay. *)
Theorem decap_agrees csp rnd t p context excluding signer props nsi t1 p1 context1 gen tR pr :
  kem_derive_pairs csp → fits (nodes t) → ends_in_leaf (nodes t) →
  0 ≤ self_index p → 2 * self_index p < len (nodes t) → Forall (λ e, 0 ≤ e < 2 ^ 31) excluding →
  encap csp rnd t p context excluding signer props nsi = Ok (t1, p1, context1, gen) →
  receiver_ready csp t tR pr (self_index p) excluding →
  ∃ vs context_bytes pr',
    (fs ← filtered (nodes t) (self_index p); unfilter fs (up_nodes (update_path gen))) = Ok vs ∧
    mls_encode_to_vec group_context_codec context1 = Ok context_bytes ∧
    decap csp tR pr (self_index p) {| v_leaf_node := up_leaf_node (update_path gen); v_nodes := vs |} excluding context_bytes =
      Ok (commit_secret gen, pr') ∧ self_index pr' = self_index pr ∧
    ∀ m : nat,
      if decide (self_index pr / 2 ^ Z.of_nat m = self_index p / 2 ^ Z.of_nat m)
      then ∀ s, path_secrets gen !! (m - 1)%nat = Some (Some s) →
           ∃ sk pk, secret_keys pr' !! m = Some (Some sk) ∧ secret_keys p1 !! m = Some (Some sk) ∧ hpke_pair csp sk pk ∧
             public_key <$> node_at (nodes t1) (TreeMath.node (Z.of_nat m) (self_index pr / 2 ^ Z.of_nat m)) = Some pk
      else Z.of_nat m ≤ depth (nodes t) → mjoin (secret_keys pr' !! m) = mjoin (secret_keys pr !! m).
Proof.
  intros Hkem Hf He Hp Hlt Hex Henc Hrdy. apply encap_encapped in Henc as (cb & Hcb & E); [|done..].
  set (s0 := self_index p) in *. set (r := self_index pr) in *. pose proof (leaf_in_tree _ _ Hf Hp Hlt) as Hit.
  destruct (encapped_sent _ _ _ _ _ _ _ _ _ _ _ _ Hf Hp Hlt E) as (ups & Hus & Hnone & Hmatch & Hsent).
  destruct (unfilter_spec ups) as (vs & rest & Hvs & Hups & Hrest).
  pose proof (rr_index _ _ _ _ _ _ Hrdy) as [Hr Hrlt]. fold r in Hr, Hrlt. pose proof (leaf_in_tree _ _ Hf Hr Hrlt) as Hrt.
  destruct (lca_spec (nodes t) r s0) as (q & Hlca & Hq & Hne & Hsib & Heq); [done|lia|lia|apply (rr_other _ _ _ _ _ _ Hrdy)|].
  destruct (receiver_opens csp (r_path rnd) t t1 p1 s0 (r_seal rnd) (path_secrets gen) (commit_secret gen) cb excluding
      (up_nodes (update_path gen)) ups tR pr q)
    as (s & u & i & pos & ct & sk & n & Hs & Hu & Hi & R1 & R6 & Hct & R4 & R3 & Hdec); try done. fold r in R1, R3, R6.
  assert (∀ k v, ups !! k = Some (Some v) → vs !! k = Some (Some v)) as Hkept.
  { intros k v Hk. rewrite Hups in Hk. apply lookup_app_Some in Hk as [|[_ Hk]]; [done|].
    rewrite Forall_forall in Hrest. by apply list_elem_of_lookup_2, Hrest in Hk. }
  pose proof (depth_len _ _ (rr_len _ _ _ _ _ _ Hrdy)) as Hdep.
  assert (fits (nodes tR)) as HfR by (pose proof (rr_len _ _ _ _ _ _ Hrdy); unfold fits in *; lia).
  destruct (en_secrets _ _ _ _ _ _ _ _ _ _ _ _ E) as (g & g' & Hg & Hg'). rewrite Hups in Hmatch.
  pose proof (encapped_length _ _ _ _ _ _ _ _ _ _ _ _ Hf Hp Hlt E) as Hls.
  set (keys0 := vec_resize (secret_keys pr) (len (own_path (nodes tR) r) + 1) None).
  assert (length keys0 = (Z.to_nat (depth (nodes t)) + 2)%nat) as Hlk.
  { unfold keys0, vec_resize. rewrite length_resize, length_own_path by (rewrite ?Hdep; done || lia). lia. }
  destruct (decap_derives _ _ _ _ _ _ _ q s keys0 _ _ Hg Hg' Hmatch Hrest Hs ltac:(lia)) as (keys' & D1 & D2 & D3).
  exists vs, cb, {| self_index := r; secret_keys := keys' |}. split_and!; [|done| |done|].
  - rewrite (en_filter _ _ _ _ _ _ _ _ _ _ _ _ E). cbn [mbind result_bind]. by rewrite Hus, <- Hnone.
  - rewrite (decap_ok csp tR pr s0 _ excluding cb q i pos u ct sk n s); [|done|rewrite Hdep; exact (conj Hr Hrt)|rewrite Hdep; lia|exact Hi|done|exact R1|exact R6|by apply Hkept|done|done|done|done].
    cbn [v_nodes]. fold r keys0. rewrite D1. cbn [mbind result_bind]. by rewrite D2.
  - intros m. cbn [secret_keys]. rewrite D3. destruct (decide (r / _ = s0 / _)) as [Hm|Hm].
    + apply (shared_above r s0 q) in Hm as Hqm; [|done..]. rewrite decide_True by done. intros s' Hs'.
      destruct (Hsent _ _ Hs') as (u' & Hu' & _). apply Hkept, lookup_lt_Some in Hu'. rewrite decide_True, Hs' by lia.
      destruct (en_pub _ _ _ _ _ _ _ _ _ _ _ _ E _ _ Hs') as (sk' & pk & Hpair & Hpk).
      pose proof (en_keys _ _ _ _ _ _ _ _ _ _ _ _ E _ _ Hs') as Hk1. replace (S (m - 1)) with m in * by lia.
      cbn in *. unfold key_of in *. rewrite Hpair in *. exists sk', pk. split_and!; [done|done|by eapply to_hpke_pair|by rewrite Hm].
    + rewrite decide_False by (intros ?; apply Hm; by apply (shared_above r s0 q)). intros Hmd. apply resize_keys.
      rewrite length_own_path by (rewrite ?Hdep; done || lia). lia.
Qed.

(** Three members; the first commits, the third receives. *)
Definition sample_context : GroupContext := new_group 1 1 [byte.of_Z 7] [] [].
Definition sample_sender : TreeKemPrivate := new_self_leaf 0 [byte.of_Z 1].
Definition sample_reader : TreeKemPrivate := new_self_leaf 2 [byte.of_Z 3].
Definition sample_randomness : EncapRandomness :=
  {| r_path := byte.of_Z <$> [10; 11; 12]; r_leaf := [byte.of_Z 13]; r_seal _ i := [byte.of_Z i] |}.
Definition sample_encap : Result MlsError (TreeKemPublic * TreeKemPrivate * GroupContext * EncapGeneration) :=
  encap toy_csp sample_randomness TreeKem.sample_group sample_sender sample_context [] []
    {| new_capabilities := capabilities (TreeKem.member 1 1 1); new_extensions := [] |} None.

Lemma sample_ready : receiver_ready toy_csp TreeKem.sample_group TreeKem.sample_group sample_reader 0 [].
Proof.
  assert (nodes TreeKem.sample_group = [Some (Leaf (TreeKem.member 1 1 1)); None; Some (Leaf (TreeKem.member 2 2 2)); None;
    Some (Leaf (TreeKem.member 3 3 3))]) as E by (vm_compute; reflexivity).
  generalize dependent TreeKem.sample_group. intros t E.
  split; [rewrite E; by vm_compute|discriminate|unfold leaf_at; rewrite E; by eexists| |apply not_elem_of_nil|reflexivity|apply TreeKem.differ_above_refl].
  rewrite E. clear E. intros k n. change (self_index sample_reader) with 2. destruct (decide (k = O)) as [->|Hk].
  - rewrite node_leaf_div. intros [= <-]. cbn. intros seed info aad pt c [= <-]. cbn. done.
  - intros Hn. exfalso. pose proof (node_at_range _ _ _ Hn) as [_ Hlt]. change (len _) with 5 in Hlt.
    assert (Z.even (TreeMath.node (Z.of_nat k) (2 / 2 ^ Z.of_nat k)) = false) as Hev.
    { rewrite even_node; [lia|lia|apply Z.div_pos; [lia|apply pow2_pos; lia]]. }
    assert (0 ≤ TreeMath.node (Z.of_nat k) (2 / 2 ^ Z.of_nat k)) as H0.
    { apply TreeMath.node_nonneg; [lia|apply Z.div_pos; [lia|apply pow2_pos; lia]]. }
    assert (TreeMath.node (Z.of_nat k) (2 / 2 ^ Z.of_nat k) = 1 ∨ TreeMath.node (Z.of_nat k) (2 / 2 ^ Z.of_nat k) = 3) as [Hx|Hx].
    { revert H0 Hev Hlt. generalize (TreeMath.node (Z.of_nat k) (2 / 2 ^ Z.of_nat k)). intros x H0 Hev Hlt.
      assert (x = 0 ∨ x = 1 ∨ x = 2 ∨ x = 3 ∨ x = 4) as [->|[->|[->|[->| ->]]]] by lia; (discriminate || lia). }
    all: rewrite Hx in Hn; discriminate.
Qed.

Lemma decap_agrees_witness :
  match sample_encap with
  | Ok (_, _, _, gen) => ∃ vs context_bytes pr',
      decap toy_csp TreeKem.sample_group sample_reader 0 {| v_leaf_node := up_leaf_node (update_path gen); v_nodes := vs |} []
        context_bytes = Ok (commit_secret gen, pr')
  | _ => False
  end.
Proof.
  assert (is_ok sample_encap = true) as Hok by (vm_compute; reflexivity).
  destruct sample_encap as [[[[t1 p1] c1] gen]| | |] eqn:E; try discriminate Hok.
  edestruct decap_agrees as (vs & cb & pr' & _ & _ & H & _); [exact toy_kem| | | | | |exact E|exact sample_ready|].
  - vm_compute. reflexivity.
  - right. vm_compute. reflexivity.
  - vm_compute. discriminate.
  - vm_compute. reflexivity.
  - constructor.
  - exists vs, cb, pr'. exact H.
Defined.

(** An update path without nodes passes the reconstruction of the filtered
    positions, whatever they are, and makes every member that tries to open it
    panic: the index of the common ancestor is not checked against the length of
    the path. *)
Theorem empty_update_path_panics csp t pr sender fs leaf excluding context :
  fits (nodes t) → ends_in_leaf (nodes t) → 0 ≤ sender → 2 * sender < len (nodes t) →
  receiver_ready csp t t pr sender excluding →
  unfilter fs [] = Ok [] ∧ decap csp t pr sender {| v_leaf_node := leaf; v_nodes := [] |} excluding context = Panic.
Proof.
  intros Hf He Hp Hlt Hrdy. split; [done|]. pose proof (rr_index _ _ _ _ _ _ Hrdy) as [Hr Hrlt].
  pose proof (leaf_in_tree _ _ Hf Hp Hlt) as Hit. pose proof (leaf_in_tree _ _ Hf Hr Hrlt) as Hrt.
  destruct (lca_spec (nodes t) (self_index pr) sender) as (q & Hlca & Hq & Hne & _); [done|lia|lia|apply (rr_other _ _ _ _ _ _ Hrdy)|].
  destruct (receiver_ready_finds csp t t pr sender excluding q Hf He Hp Hrdy ltac:(lia) Hne)
    as (i & n & sk & pos & Hi & R1 & _ & _ & _ & _ & R6 & _).
  destruct (own_path_lookup (nodes t) (self_index pr) q Hf (conj Hr Hrt) ltac:(lia)) as (cq & Hcq & Hpq).
  destruct (own_path_lookup (nodes t) (self_index pr) i Hf (conj Hr Hrt) ltac:(lia)) as (ci & Hci & Hpi).
  unfold decap, vec_index. rewrite Hlca, R1. cbn [mbind result_bind]. rewrite !vec_get_of_nat, Hcq, Hci.
  cbn [unwrap mbind result_bind]. by rewrite Hpq, Hpi, R6.
Qed.

Lemma empty_update_path_panics_witness :
  unfilter [false; true] [] = Ok [] ∧
  decap toy_csp TreeKem.sample_group sample_reader 0 {| v_leaf_node := TreeKem.member 1 1 1; v_nodes := [] |} [] [] = Panic.
Proof.
  apply empty_update_path_panics; [| | | |exact sample_ready].
  - vm_compute. reflexivity.
  - right. vm_compute. reflexivity.
  - vm_compute. discriminate.
  - vm_compute. reflexivity.
Defined.

End Kem.
