(* ===== verification/SecretTree.v ===== *)
(** * The secret tree (mls-rs/src/group/secret_tree.rs)

    The keys of an epoch's encrypted messages: a tree of secrets from which each
    member's two ratchets are derived on demand, and the ratchets, which hand out
    one key per generation.  The theorems: a ratchet gives the key of every
    generation at most once, in any order within the window, and the same key to
    sender and receiver; the tree gives every member its ratchet whatever was
    asked before; a failed request loses the member's ratchet. *)
From Stdlib Require Import Strings.String.
From S2P Require Import Prelude Codec TreeMath Types Node Crypto Labels.

Module SecretTree.

(** ** Data *)
Definition MAX_RATCHET_BACK_HISTORY : Z := 1024.

Inductive KeyType := Handshake | Application.

#[global] Instance key_type_eq_dec : EqDecision KeyType.
Proof. solve_decision. Defined.

Record MessageKeyData := { nonce : bytes; key : bytes; key_generation : Z }.

#[global] Instance message_key_data_eq_dec : EqDecision MessageKeyData.
Proof. solve_decision. Defined.

Record SecretKeyRatchet := { secret : bytes; generation : Z; history : gmap Z MessageKeyData }.

Record SecretRatchets := { application : SecretKeyRatchet; handshake : SecretKeyRatchet }.

Inductive SecretTreeNode :=
  | Secret (s : bytes)
  | Ratchet (r : SecretRatchets).

Definition into_secret (n : SecretTreeNode) : option bytes :=
  match n with Secret s => Some s | Ratchet _ => None end.

(** [SecretTree<NodeIndex>]; [TreeSecretsVec] is its map. *)
Record SecretTree := { known_secrets : gmap Z SecretTreeNode; leaf_count : Z }.

Definition set_node (t : SecretTree) (index : Z) (value : SecretTreeNode) : SecretTree :=
  {| known_secrets := <[index := value]> (known_secrets t); leaf_count := leaf_count t |}.

Definition take_node (t : SecretTree) (index : Z) : option SecretTreeNode * SecretTree :=
  (known_secrets t !! index, {| known_secrets := delete index (known_secrets t); leaf_count := leaf_count t |}).

Definition empty_tree : SecretTree := {| known_secrets := ∅; leaf_count := 0 |}.

Definition new_tree (leaf_count : Z) (encryption_secret : bytes) : SecretTree :=
  set_node {| known_secrets := ∅; leaf_count := leaf_count |} (TreeMath.root leaf_count) (Secret encryption_secret).

(** ** Ratchets *)

(** [.map_err(|e| MlsError::CryptoProviderError(e.into_any_error()))] on an
    [MlsError]. *)
Definition rewrap {A} (r : Result MlsError A) : Result MlsError A :=
  map_err (λ e, CryptoProviderError (MlsAnyError e)) r.

Definition key_type_label (key_type : KeyType) : bytes :=
  match key_type with Handshake => ascii "handshake" | Application => ascii "application" end.

Definition new_ratchet (csp : CipherSuiteProvider) (secret : bytes) (key_type : KeyType)
    : Result MlsError SecretKeyRatchet :=
  secret ← rewrap (kdf_expand_with_label csp secret (key_type_label key_type) [] None);
  Ok {| secret := secret; generation := 0; history := ∅ |}.

Definition derive_secret (csp : CipherSuiteProvider) (r : SecretKeyRatchet) (label : bytes) (n : Z)
    : Result MlsError bytes :=
  rewrap (kdf_expand_with_label csp (secret r) label (to_be_bytes 4 (generation r)) (Some n)).

Definition next_message_key (csp : CipherSuiteProvider) (r : SecretKeyRatchet)
    : Result MlsError MessageKeyData * SecretKeyRatchet :=
  let generation := generation r in
  try nonce, r ← st_lift (derive_secret csp r (ascii "nonce") (csp_aead_nonce_size csp)) r;
  try key, r ← st_lift (derive_secret csp r (ascii "key") (csp_aead_key_size csp)) r;
  let k := {| nonce := nonce; key := key; key_generation := generation |} in
  try secret, r ← st_lift (derive_secret csp r (ascii "secret") (csp_kdf_extract_size csp)) r;
  (Ok k, {| secret := secret; generation := u32 (generation + 1); history := history r |}).

(** The loop that keeps the keys of the generations passed over. *)
Fixpoint advance (fuel : nat) (csp : CipherSuiteProvider) (r : SecretKeyRatchet) (target : Z)
    : Result MlsError unit * SecretKeyRatchet :=
  if generation r <? target then
    match fuel with
    | O => (Diverge, r)
    | S fuel =>
        try key_data, r ← next_message_key csp r;
        advance fuel csp
          {| secret := secret r; generation := generation r;
             history := <[key_generation key_data := key_data]> (history r) |} target
    end
  else (Ok tt, r).

Definition get_message_key (csp : CipherSuiteProvider) (r : SecretKeyRatchet) (target : Z)
    : Result MlsError MessageKeyData * SecretKeyRatchet :=
  if target <? generation r then
    (ok_or (history r !! target) (KeyMissing target),
     {| secret := secret r; generation := generation r; history := delete target (history r) |})
  else
    let max_generation_allowed := u32 (generation r + MAX_RATCHET_BACK_HISTORY) in
    if target >? max_generation_allowed then (Err (InvalidFutureGeneration target), r)
    else
      try _, r ← advance (Z.to_nat MAX_RATCHET_BACK_HISTORY) csp r target;
      next_message_key csp r.

(** ** The two ratchets of a member *)
Definition ratchet_of (key_type : KeyType) (r : SecretRatchets) : SecretKeyRatchet :=
  match key_type with Handshake => handshake r | Application => application r end.
Definition set_ratchet (key_type : KeyType) (r : SecretRatchets) (x : SecretKeyRatchet) : SecretRatchets :=
  match key_type with
  | Handshake => {| application := application r; handshake := x |}
  | Application => {| application := x; handshake := handshake r |}
  end.

Definition ratchets_message_key_generation (csp : CipherSuiteProvider) (r : SecretRatchets) (generation : Z)
    (key_type : KeyType) : Result MlsError MessageKeyData * SecretRatchets :=
  let '(res, x) := get_message_key csp (ratchet_of key_type r) generation in (res, set_ratchet key_type r x).

Definition ratchets_next_message_key (csp : CipherSuiteProvider) (r : SecretRatchets) (key_type : KeyType)
    : Result MlsError MessageKeyData * SecretRatchets :=
  let '(res, x) := next_message_key csp (ratchet_of key_type r) in (res, set_ratchet key_type r x).

(** ** The tree *)
Definition consume_node (csp : CipherSuiteProvider) (t : SecretTree) (index : Z) : Result MlsError unit * SecretTree :=
  let '(node, t) := take_node t index in
  match node ≫= into_secret with
  | Some secret =>
      try left_index, t ← st_lift (ok_or (TreeMath.left index) LeafNodeNoChildren) t;
      try right_index, t ← st_lift (ok_or (TreeMath.right index) LeafNodeNoChildren) t;
      try left_secret, t ← st_lift (kdf_expand_with_label csp secret (ascii "tree") (ascii "left") None) t;
      try right_secret, t ← st_lift (kdf_expand_with_label csp secret (ascii "tree") (ascii "right") None) t;
      (Ok tt, set_node (set_node t left_index (Secret left_secret)) right_index (Secret right_secret))
  | None => (Ok tt, t)
  end.

Fixpoint consume_path (csp : CipherSuiteProvider) (t : SecretTree) (path : list TreeMath.CopathNode)
    : Result MlsError unit * SecretTree :=
  match path with
  | [] => (Ok tt, t)
  | i :: path => try _, t ← consume_node csp t (TreeMath.path i); consume_path csp t path
  end.

Definition take_leaf_ratchet (csp : CipherSuiteProvider) (t : SecretTree) (leaf_index : Z)
    : Result MlsError SecretRatchets * SecretTree :=
  try node, t ←
    match take_node t leaf_index with
    | (Some node, t) => (Ok node, t)
    | (None, t) =>
        try _, t ← consume_path csp t (rev (TreeMath.direct_copath leaf_index (leaf_count t)));
        let '(node, t) := take_node t leaf_index in (ok_or node InvalidLeafConsumption, t)
    end;
  match node with
  | Ratchet ratchet => (Ok ratchet, t)
  | Secret secret =>
      st_lift (a ← new_ratchet csp secret Application; h ← new_ratchet csp secret Handshake;
               Ok {| application := a; handshake := h |}) t
  end.

(** [SecretTree::next_message_key] and [SecretTree::message_key_generation]. *)
Definition tree_next_message_key (csp : CipherSuiteProvider) (t : SecretTree) (leaf_index : Z) (key_type : KeyType)
    : Result MlsError MessageKeyData * SecretTree :=
  try ratchet, t ← take_leaf_ratchet csp t leaf_index;
  let '(res, ratchet) := ratchets_next_message_key csp ratchet key_type in
  try res, t ← st_lift res t;
  (Ok res, set_node t leaf_index (Ratchet ratchet)).

Definition tree_message_key_generation (csp : CipherSuiteProvider) (t : SecretTree) (leaf_index : Z)
    (key_type : KeyType) (generation : Z) : Result MlsError MessageKeyData * SecretTree :=
  try ratchet, t ← take_leaf_ratchet csp t leaf_index;
  let '(res, ratchet) := ratchets_message_key_generation csp ratchet generation key_type in
  try res, t ← st_lift res t;
  (Ok res, set_node t leaf_index (Ratchet ratchet)).

(** ** What a ratchet promises *)
Section ratchet.
Context (csp : CipherSuiteProvider) (Hkdf : kdf_laws csp) (s0 : bytes) (Hs0 : len s0 = csp_kdf_extract_size csp).

(** The key of generation [n] and the secret after it, from the secret before. *)
Definition chain_step (s : bytes) (n : Z) : Result MlsError (MessageKeyData * bytes) :=
  let r := {| secret := s; generation := n; history := ∅ |} in
  nonce ← derive_secret csp r (ascii "nonce") (csp_aead_nonce_size csp);
  key ← derive_secret csp r (ascii "key") (csp_aead_key_size csp);
  next ← derive_secret csp r (ascii "secret") (csp_kdf_extract_size csp);
  Ok ({| nonce := nonce; key := key; key_generation := n |}, next).

Fixpoint secret_at (n : nat) : Result MlsError bytes :=
  match n with
  | O => Ok s0
  | S n => s ← secret_at n; '(_, s) ← chain_step s (Z.of_nat n); Ok s
  end.

(** The key of each generation: a function of the ratchet's first secret. *)
Definition key_at (g : Z) : Result MlsError MessageKeyData :=
  s ← secret_at (Z.to_nat g); '(k, _) ← chain_step s g; Ok k.

(** A ratchet whose keys in [used] have been handed out: it is at the secret of
    its generation and holds exactly the keys below it that are not used. *)
Record ratchet_inv (r : SecretKeyRatchet) (used : gset Z) : Prop := {
  ri_generation : is_u32 (generation r);
  ri_secret : secret_at (Z.to_nat (generation r)) = Ok (secret r);
  ri_used g : g ∈ used → 0 ≤ g < generation r;
  ri_history g : history r !! g =
    if decide (0 ≤ g < generation r ∧ g ∉ used) then result_ok (key_at g) else None;
}.

(** A key and a nonce of the sizes that the cipher takes. *)
Definition key_sized (k : MessageKeyData) : Prop := len (key k) = csp_aead_key_size csp ∧ len (nonce k) = csp_aead_nonce_size csp.

Lemma derive_secret_ok r label n :
  len (secret r) = csp_kdf_extract_size csp →
  n ∈ [csp_kdf_extract_size csp; csp_aead_key_size csp; csp_aead_nonce_size csp] → len label ≤ 2 ^ 16 →
  ∃ b, derive_secret csp r label n = Ok b ∧ len b = n.
Proof.
  intros Hr Hn Hl. unfold derive_secret.
  destruct (kdf_expand_ok csp (secret r) label (to_be_bytes 4 (generation r)) (Some n)) as (b & -> & Hb); [done|done|done|done| |by exists b].
  unfold len. rewrite length_to_be_bytes. lia.
Qed.

Lemma chain_step_ok s n : len s = csp_kdf_extract_size csp →
  ∃ k s', chain_step s n = Ok (k, s') ∧ key_generation k = n ∧ key_sized k ∧ len s' = csp_kdf_extract_size csp.
Proof.
  intros Hs. unfold chain_step. set (r := {| secret := s; generation := n; history := ∅ |}).
  destruct (derive_secret_ok r (ascii "nonce") (csp_aead_nonce_size csp)) as (a & -> & Ha); [done|set_solver|by vm_compute|].
  cbn [mbind result_bind].
  destruct (derive_secret_ok r (ascii "key") (csp_aead_key_size csp)) as (b & -> & Hb); [done|set_solver|by vm_compute|].
  cbn [mbind result_bind].
  destruct (derive_secret_ok r (ascii "secret") (csp_kdf_extract_size csp)) as (c & -> & Hc); [done|set_solver|by vm_compute|].
  by do 2 eexists.
Qed.

Lemma secret_at_ok n : ∃ s, secret_at n = Ok s ∧ len s = csp_kdf_extract_size csp.
Proof.
  induction n as [|n (s & IH & Hs)]; [by exists s0|]. cbn [secret_at]. rewrite IH. cbn [mbind result_bind].
  destruct (chain_step_ok s (Z.of_nat n) Hs) as (k & s' & -> & _ & _ & Hs'). by exists s'.
Qed.

Lemma secret_at_len n s : secret_at n = Ok s → len s = csp_kdf_extract_size csp.
Proof. destruct (secret_at_ok n) as (s' & -> & Hs'). by intros [= <-]. Qed.

Lemma key_at_ok g : ∃ k, key_at g = Ok k ∧ key_generation k = g ∧ key_sized k.
Proof.
  unfold key_at. destruct (secret_at_ok (Z.to_nat g)) as (s & -> & Hs). cbn [mbind result_bind].
  destruct (chain_step_ok s g Hs) as (k & s' & -> & ? & ? & _). by exists k.
Qed.

(** [next_message_key] is one step of the chain. *)
Lemma next_message_key_step r k s' :
  chain_step (secret r) (generation r) = Ok (k, s') →
  next_message_key csp r = (Ok k, {| secret := s'; generation := u32 (generation r + 1); history := history r |}).
Proof.
  unfold chain_step, next_message_key, st_lift. intros H.
  assert (∀ l n, derive_secret csp r l n =
    derive_secret csp {| secret := secret r; generation := generation r; history := ∅ |} l n) as Hd by done.
  apply bind_ok in H as (a & Ha & H). apply bind_ok in H as (b & Hb & H). apply bind_ok in H as (c & Hc & [= <- <-]).
  rewrite Hd, Ha. cbn [st_bind]. rewrite Hd, Hb. cbn [st_bind]. by rewrite Hd, Hc.
Qed.

Lemma ratchet_next r used :
  ratchet_inv r used → generation r + 1 < 2 ^ 32 →
  ∃ k r', next_message_key csp r = (Ok k, r') ∧ key_at (generation r) = Ok k ∧
    generation r' = generation r + 1 ∧ history r' = history r ∧
    secret_at (Z.to_nat (generation r')) = Ok (secret r').
Proof.
  intros [Hg Hs _ _] Hlt. destruct (chain_step_ok (secret r) (generation r)) as (k & s' & Hk & _); [by eapply secret_at_len|].
  rewrite (next_message_key_step _ _ _ Hk). do 2 eexists. split; [done|]. cbn [generation history secret].
  unfold is_u32 in Hg. rewrite u32_small by (unfold is_u32; lia). split_and!; try done.
  - unfold key_at. rewrite Hs. cbn [mbind result_bind]. by rewrite Hk.
  - replace (Z.to_nat (generation r + 1)) with (S (Z.to_nat (generation r))) by lia. cbn [secret_at].
    rewrite Hs. cbn [mbind result_bind]. rewrite Z2Nat.id by lia. by rewrite Hk.
Qed.

(** Handing out the key of the current generation. *)
Lemma next_message_key_spec r used :
  ratchet_inv r used → generation r + 1 < 2 ^ 32 →
  ∃ k r', next_message_key csp r = (Ok k, r') ∧ key_at (generation r) = Ok k ∧
    generation r' = generation r + 1 ∧ ratchet_inv r' (used ∪ {[generation r]}).
Proof.
  intros Hinv Hlt. destruct (ratchet_next r used Hinv Hlt) as (k & r' & H1 & H2 & H3 & H4 & H5).
  exists k, r'. split_and!; try done. destruct Hinv as [Hg Hs Hu Hh]. unfold is_u32 in *. split; rewrite ?H3.
  - unfold is_u32. lia.
  - by rewrite <- H3.
  - intros g [Hin| ->%elem_of_singleton]%elem_of_union; [apply Hu in Hin|]; lia.
  - intros g. rewrite H4, Hh. repeat case_decide; try done; set_unfold; exfalso; [naive_solver lia|].
    destruct (decide (g = generation r)); naive_solver lia.
Qed.

(** Passing over a generation: its key goes to the history. *)
Lemma advance_spec target : ∀ fuel r used,
  ratchet_inv r used → target < 2 ^ 32 → target - generation r ≤ Z.of_nat fuel →
  ∃ r', advance fuel csp r target = (Ok tt, r') ∧ ratchet_inv r' used ∧ generation r' = Z.max (generation r) target.
Proof.
  induction fuel as [|fuel IH]; intros r used Hinv Ht Hfuel; cbn [advance]; destruct (Z.ltb_spec (generation r) target) as [Hlt|Hge].
  - lia.
  - exists r. split_and!; [done|done|lia].
  - destruct (ratchet_next r used Hinv ltac:(lia)) as (k & r' & -> & H2 & H3 & H4 & H5). cbn [st_bind].
    destruct (key_at_ok (generation r)) as (k' & Hk' & Hgen & _). rewrite H2 in Hk'. injection Hk' as <-.
    destruct (IH {| secret := secret r'; generation := generation r'; history := <[key_generation k := k]> (history r') |} used)
      as (r2 & -> & Hinv2 & Hmax); [|done|cbn; lia|exists r2; cbn in Hmax; split_and!; [done|done|lia]].
    destruct Hinv as [Hg Hs Hu Hh]. unfold is_u32 in *. split; cbn [generation secret history].
    + unfold is_u32. lia.
    + done.
    + intros g Hin. apply Hu in Hin. lia.
    + intros g. rewrite H3, H4, Hgen. destruct (decide (g = generation r)) as [->|Hne].
      * rewrite lookup_insert_eq, decide_True, H2; [done|]. split; [lia|]. intros Hin%Hu. lia.
      * rewrite lookup_insert_ne, Hh by done. repeat case_decide; naive_solver lia.
  - exists r. split_and!; [done|done|lia].
Qed.

(** A request for generation [g] by a receiver. *)
Lemma get_message_key_spec r used g :
  ratchet_inv r used → 0 ≤ g < 2 ^ 32 - 1 →
  if decide (g ∈ used) then get_message_key csp r g = (Err (KeyMissing g), r)
  else if decide (g < generation r ∨ g ≤ generation r + MAX_RATCHET_BACK_HISTORY < 2 ^ 32)
  then ∃ k r', get_message_key csp r g = (Ok k, r') ∧ key_at g = Ok k ∧ ratchet_inv r' (used ∪ {[g]}) ∧
         generation r' = Z.max (generation r) (g + 1)
  else get_message_key csp r g = (Err (InvalidFutureGeneration g), r).
Proof.
  intros Hinv Hg. pose proof Hinv as [Hgen Hs Hu Hh]. unfold is_u32 in Hgen. unfold get_message_key.
  destruct (decide (g ∈ used)) as [Hin|Hnin].
  { pose proof (Hu g Hin). rewrite (proj2 (Z.ltb_lt _ _)) by lia. rewrite delete_id by (rewrite Hh, decide_False; naive_solver).
    rewrite Hh, decide_False by naive_solver. by destruct r. }
  destruct (Z.ltb_spec g (generation r)) as [Hlt|Hge].
  { rewrite decide_True by lia. destruct (key_at_ok g) as (k & Hk & _). rewrite Hh, decide_True by (split; [lia|done]).
    rewrite Hk. do 2 eexists. split_and!; [done|done| |cbn; lia]. split; cbn [generation secret history]; try done.
    - intros x [Hx| ->%elem_of_singleton]%elem_of_union; [by apply Hu|lia].
    - intros x. destruct (decide (x = g)) as [->|Hne].
      + rewrite lookup_delete_eq, decide_False; [done|]. set_solver.
      + rewrite lookup_delete_ne, Hh by done. repeat case_decide; set_solver. }
  unfold MAX_RATCHET_BACK_HISTORY in *. rewrite Z.gtb_ltb.
  destruct (decide (generation r + 1024 < 2 ^ 32)) as [Hno|Hover].
  - rewrite u32_small by (unfold is_u32; lia). destruct (Z.ltb_spec (generation r + 1024) g) as [Hfar|Hnear].
    { by rewrite decide_False by lia. }
    rewrite decide_True by lia.
    destruct (advance_spec g (Z.to_nat 1024) r used) as (r1 & -> & Hinv1 & Hgen1); [done|lia|lia|]. cbn [st_bind].
    replace (Z.max (generation r) g) with g in Hgen1 by lia.
    destruct (next_message_key_spec r1 used Hinv1) as (k & r2 & H1 & H2 & H3 & H4); [lia|]. rewrite Hgen1 in *.
    exists k, r2. split_and!; try done. lia.
  - rewrite decide_False by lia. unfold u32, wrap.
    rewrite (Z.mod_eq _ (2 ^ 32)) by lia. replace ((generation r + 1024) / 2 ^ 32) with 1 by (Z.div_mod_to_equations; lia).
    by rewrite (proj2 (Z.ltb_lt _ _)) by lia.
Qed.

End ratchet.

(** ** What the tree promises *)
Section tree.
Context (csp : CipherSuiteProvider) (Hkdf : kdf_laws csp) (d : Z) (Hd : 0 ≤ d ≤ 31) (root_secret : bytes).
Context (Hlen : len root_secret = csp_kdf_extract_size csp).

(** The secret of the [j]-th node [m] levels below the root. *)
Fixpoint node_secret (m : nat) (j : Z) : Result MlsError bytes :=
  match m with
  | O => Ok root_secret
  | S m =>
      s ← node_secret m (j / 2);
      kdf_expand_with_label csp s (ascii "tree") (if Z.even j then ascii "left" else ascii "right") None
  end.

Definition leaf_secret (i : Z) : Result MlsError bytes := node_secret (Z.to_nat d) i.
Definition ratchet_secret (i : Z) (kt : KeyType) : Result MlsError bytes :=
  s ← leaf_secret i; rewrap (kdf_expand_with_label csp s (key_type_label kt) [] None).

(** The key of generation [g] of member [i]. *)
Definition tree_key (i : Z) (kt : KeyType) (g : Z) : Result MlsError MessageKeyData :=
  s ← ratchet_secret i kt; key_at csp s g.

(** The abstract state of a ratchet: its next generation and the generations
    handed out; one per member and key type. *)
Notation Abs := (Z → KeyType → Z * gset Z).

Definition good_ratchets (i : Z) (a : KeyType → Z * gset Z) (r : SecretRatchets) : Prop :=
  ∀ kt, ∃ s, ratchet_secret i kt = Ok s ∧ generation (ratchet_of kt r) = (a kt).1 ∧
    ratchet_inv csp s (ratchet_of kt r) (a kt).2.

(** Level [c] is the only one at which the path of leaf [i] has a known node. *)
Definition covers (t : SecretTree) (i c : Z) : Prop :=
  0 ≤ c ≤ d ∧ ∀ k, 0 ≤ k ≤ d → is_Some (known_secrets t !! TreeMath.node k (i / 2 ^ k)) ↔ k = c.

Record tree_inv (t : SecretTree) (a : Abs) (lost : gset Z) : Prop := {
  ti_count : leaf_count t = 2 ^ d;
  ti_secret k j s : TreeMath.in_tree d k j → known_secrets t !! TreeMath.node k j = Some (Secret s) →
    node_secret (Z.to_nat (d - k)) j = Ok s;
  ti_ratchet k j r : TreeMath.in_tree d k j → known_secrets t !! TreeMath.node k j = Some (Ratchet r) →
    k = 0 ∧ good_ratchets j (a j) r;
  ti_cover i : 0 ≤ i < 2 ^ d → i ∉ lost → ∃ c, covers t i c;
  ti_lost i : 0 ≤ i < 2 ^ d → i ∈ lost → ∀ k, 0 ≤ k ≤ d → known_secrets t !! TreeMath.node k (i / 2 ^ k) = None;
  ti_fresh i kt : 0 ≤ i < 2 ^ d → i ∉ lost → (∀ r, known_secrets t !! (2 * i) ≠ Some (Ratchet r)) → a i kt = (0, ∅);
}.

Lemma node_secret_ok m j : ∃ s, node_secret m j = Ok s ∧ len s = csp_kdf_extract_size csp.
Proof.
  revert j. induction m as [|m IH]; intros j; cbn [node_secret]; [by exists root_secret|].
  destruct (IH (j / 2)) as (s & -> & Hs). cbn [mbind result_bind].
  apply (kdf_expand_ok _ _ _ _ None); [done|done|cbn; set_solver|by vm_compute|]. by destruct (Z.even j); vm_compute.
Qed.

Lemma node_secret_len m j s : node_secret m j = Ok s → len s = csp_kdf_extract_size csp.
Proof. destruct (node_secret_ok m j) as (s' & -> & Hs'). by intros [= <-]. Qed.

Lemma ratchet_secret_len i kt s : ratchet_secret i kt = Ok s → len s = csp_kdf_extract_size csp.
Proof.
  unfold ratchet_secret, leaf_secret. destruct (node_secret_ok (Z.to_nat d) i) as (s' & -> & Hs'). cbn [mbind result_bind].
  destruct (kdf_expand_ok csp s' (key_type_label kt) [] None) as (b & -> & Hb);
    [done|done|cbn; set_solver|by destruct kt; vm_compute|by vm_compute|]. by intros [= <-].
Qed.

Lemma child_secret k j s (c : bool) :
  0 ≤ k < d → node_secret (Z.to_nat (d - (k + 1))) j = Ok s →
  node_secret (Z.to_nat (d - k)) (2 * j + Z.b2z c) =
    kdf_expand_with_label csp s (ascii "tree") (if c then ascii "right" else ascii "left") None.
Proof.
  intros Hk Hs. replace (Z.to_nat (d - k)) with (S (Z.to_nat (d - (k + 1)))) by lia. cbn [node_secret].
  replace ((2 * j + Z.b2z c) / 2) with j by (destruct c; cbn [Z.b2z]; Z.div_mod_to_equations; lia).
  rewrite Hs. cbn [mbind result_bind]. rewrite Z.even_add, Z.even_mul. by destruct c.
Qed.

Lemma path_step i k : 0 ≤ k → i / 2 ^ (k + 1) = i / 2 ^ k / 2.
Proof. intros Hk. rewrite Z.div_div, (Z.mul_comm _ 2), <- pow2_succ by (try apply pow2_pos; lia). done. Qed.

(** The children of a node on the path of a leaf. *)
Lemma path_child i k j (c : bool) : 0 ≤ k → i / 2 ^ k = 2 * j + Z.b2z c → i / 2 ^ (k + 1) = j.
Proof. intros Hk E. rewrite path_step, E by done. destruct c; cbn [Z.b2z]; Z.div_mod_to_equations; lia. Qed.

Lemma node_path_ne i k k' j : 0 ≤ i → 0 ≤ k → 0 ≤ k' → 0 ≤ j →
  k' ≠ k ∨ i / 2 ^ k' ≠ j → TreeMath.node k' (i / 2 ^ k') ≠ TreeMath.node k j.
Proof.
  intros Hi Hk Hk' Hj Hor E. apply TreeMath.node_inj in E as [-> E]; [naive_solver|done| |done|done].
  apply Z.div_pos; [done|by apply pow2_pos].
Qed.

Lemma left_right k j : 0 ≤ k ≤ 30 → 0 ≤ j →
  TreeMath.left (TreeMath.node (k + 1) j) = Some (TreeMath.node k (2 * j)) ∧
  TreeMath.right (TreeMath.node (k + 1) j) = Some (TreeMath.node k (2 * j + 1)).
Proof.
  intros Hk Hj. unfold TreeMath.left, TreeMath.right. rewrite TreeMath.left_node, TreeMath.right_node by done.
  rewrite Node.is_leaf_even, Node.even_node by lia. by rewrite (proj2 (Z.eqb_neq _ _)) by lia.
Qed.

(** Replacing a node's secret by those of its children. *)
Definition split_node (t : SecretTree) (k j : Z) (l r : bytes) : SecretTree :=
  {| known_secrets := <[TreeMath.node k (2 * j + 1) := Secret r]> (<[TreeMath.node k (2 * j) := Secret l]>
       (delete (TreeMath.node (k + 1) j) (known_secrets t)));
     leaf_count := leaf_count t |}.

Lemma consume_unknown t x : known_secrets t !! x = None → consume_node csp t x = (Ok tt, t).
Proof. intros Hx. unfold consume_node, take_node. rewrite Hx. cbn. rewrite delete_id by done. by destruct t. Qed.

Lemma consume_secret t k j s : 0 ≤ k < d → 0 ≤ j →
  known_secrets t !! TreeMath.node (k + 1) j = Some (Secret s) → node_secret (Z.to_nat (d - (k + 1))) j = Ok s →
  ∃ l r, consume_node csp t (TreeMath.node (k + 1) j) = (Ok tt, split_node t k j l r) ∧
    node_secret (Z.to_nat (d - k)) (2 * j) = Ok l ∧ node_secret (Z.to_nat (d - k)) (2 * j + 1) = Ok r.
Proof.
  intros Hk Hj Hx Hs. destruct (left_right k j ltac:(lia) Hj) as [Hl Hr].
  destruct (node_secret_ok (Z.to_nat (d - k)) (2 * j)) as (l & El & _).
  destruct (node_secret_ok (Z.to_nat (d - k)) (2 * j + 1)) as (r & Er & _). exists l, r. split; [|done].
  pose proof (child_secret k j s false Hk Hs) as Cl. pose proof (child_secret k j s true Hk Hs) as Cr.
  cbn [Z.b2z] in Cl, Cr. rewrite Z.add_0_r, El in Cl. rewrite Er in Cr.
  unfold consume_node, take_node. rewrite Hx. cbn [mbind option_bind into_secret]. unfold st_lift. rewrite Hl, Hr, <- Cl, <- Cr. done.
Qed.

(** The nodes on the path of a leaf after a split. *)
Lemma split_path t k j l r i k' : 0 ≤ i → 0 ≤ k → 0 ≤ k' → 0 ≤ j →
  known_secrets (split_node t k j l r) !! TreeMath.node k' (i / 2 ^ k') =
    if decide (i / 2 ^ (k + 1) = j)
    then (if decide (k' = k) then Some (Secret (if decide (i / 2 ^ k = 2 * j) then l else r))
          else if decide (k' = k + 1) then None else known_secrets t !! TreeMath.node k' (i / 2 ^ k'))
    else known_secrets t !! TreeMath.node k' (i / 2 ^ k').
Proof.
  intros Hi Hk Hk' Hj. cbn [split_node known_secrets]. destruct (decide (i / 2 ^ (k + 1) = j)) as [E|E].
  - rewrite path_step in E by done. assert (i / 2 ^ k = 2 * j ∨ i / 2 ^ k = 2 * j + 1) as Hc by (Z.div_mod_to_equations; lia).
    destruct (decide (k' = k)) as [->|Hne].
    + destruct (decide (i / 2 ^ k = 2 * j)) as [E'|E'].
      * rewrite lookup_insert_ne by (apply not_eq_sym, node_path_ne; try done; lia). by rewrite E', lookup_insert_eq.
      * destruct Hc as [|E'']; [done|]. by rewrite E'', lookup_insert_eq.
    + rewrite !lookup_insert_ne by (apply not_eq_sym, node_path_ne; try done; lia).
      destruct (decide (k' = k + 1)) as [->|Hne'].
      * by rewrite path_step, E, lookup_delete_eq by done.
      * by rewrite lookup_delete_ne by (apply not_eq_sym, node_path_ne; try done; lia).
  - assert (i / 2 ^ k ≠ 2 * j) by (intros E'; apply E, (path_child i k j false); [done|cbn [Z.b2z]; lia]).
    assert (i / 2 ^ k ≠ 2 * j + 1) by (intros E'; apply E, (path_child i k j true); [done|cbn [Z.b2z]; lia]).
    assert (∀ x k0, 0 ≤ x → 0 ≤ k0 → i / 2 ^ k0 ≠ x → TreeMath.node k0 x ≠ TreeMath.node k' (i / 2 ^ k')) as Hn.
    { intros x k0 Hx Hk0 Hx'. apply not_eq_sym, node_path_ne; try done. destruct (decide (k' = k0)) as [->|]; [by right|by left]. }
    by rewrite !lookup_insert_ne, lookup_delete_ne by (apply Hn; lia || done).
Qed.

(** Any node is on the path of its leftmost leaf. *)
Lemma on_path k j : 0 ≤ k → j * 2 ^ k / 2 ^ k = j.
Proof. intros Hk. apply Z.div_mul. pose proof (pow2_pos k Hk). lia. Qed.

Lemma leftmost_leaf k j : TreeMath.in_tree d k j → 0 ≤ j * 2 ^ k < 2 ^ d.
Proof.
  intros [Hk Hj]. pose proof (pow2_pos k ltac:(lia)) as Hp. assert (2 ^ d = 2 ^ (d - k) * 2 ^ k) as ->; [|nia].
  rewrite <- Z.pow_add_r by lia. f_equal. lia.
Qed.

Lemma covers_split t k j l r i c : 0 ≤ i → 0 ≤ k → k + 1 ≤ d → 0 ≤ j →
  is_Some (known_secrets t !! TreeMath.node (k + 1) j) → covers t i c →
  covers (split_node t k j l r) i (if decide (i / 2 ^ (k + 1) = j) then k else c).
Proof.
  intros Hi Hk Hkd Hj Hx [Hc Hu]. destruct (decide (i / 2 ^ (k + 1) = j)) as [E|E].
  - assert (k + 1 = c) as <- by (apply Hu; [lia|by rewrite E]).
    split; [lia|]. intros k' Hk'. rewrite split_path, decide_True by (done || lia).
    destruct (decide (k' = k)) as [->|Hne]; [by split; eauto|]. destruct (decide (k' = k + 1)) as [->|Hne'].
    + split; [by intros []|lia].
    + rewrite Hu by done. lia.
  - split; [done|]. intros k' Hk'. rewrite split_path, decide_False by (done || lia). by apply Hu.
Qed.

Lemma leaf_node i : TreeMath.node 0 (i / 2 ^ 0) = 2 * i.
Proof. by rewrite Z.pow_0_r, Z.div_1_r, TreeMath.node_0. Qed.

Lemma split_inv t a lost k j s l r :
  tree_inv t a lost → 0 ≤ k → TreeMath.in_tree d (k + 1) j → known_secrets t !! TreeMath.node (k + 1) j = Some (Secret s) →
  node_secret (Z.to_nat (d - k)) (2 * j) = Ok l → node_secret (Z.to_nat (d - k)) (2 * j + 1) = Ok r →
  tree_inv (split_node t k j l r) a lost.
Proof.
  intros Hinv Hk [Hk1 Hj] Hx Hl Hr.
  assert (∀ i, 0 ≤ i < 2 ^ d → i / 2 ^ (k + 1) = j → i ∉ lost) as Hnl.
  { intros i Hi E Hin. pose proof (ti_lost _ _ _ Hinv i Hi Hin (k + 1) ltac:(lia)) as H. rewrite E, Hx in H. done. }
  split.
  - apply (ti_count _ _ _ Hinv).
  - intros k' j' s' Hin H. pose proof (leftmost_leaf _ _ Hin) as Hi. pose proof Hin as [Hk' Hj'].
    rewrite <- (on_path k' j') in H |- * by lia. set (i := j' * 2 ^ k') in *. rewrite split_path in H by lia.
    destruct (decide (i / 2 ^ (k + 1) = j)) as [E|E]; [destruct (decide (k' = k)) as [->|]; [|case_decide; [done|]]|].
    + injection H as <-. rewrite path_step in E by done. destruct (decide (i / 2 ^ k = 2 * j)) as [->|Hne]; [done|].
      by replace (i / 2 ^ k) with (2 * j + 1) by (Z.div_mod_to_equations; lia).
    + apply (ti_secret _ _ _ Hinv _ _ _); [|done]. unfold i. by rewrite on_path by lia.
    + apply (ti_secret _ _ _ Hinv _ _ _); [|done]. unfold i. by rewrite on_path by lia.
  - intros k' j' r' Hin H. apply (ti_ratchet _ _ _ Hinv); [done|]. pose proof (leftmost_leaf _ _ Hin) as Hi. pose proof Hin as [Hk' Hj'].
    rewrite <- (on_path k' j') in H |- * by lia. rewrite split_path in H by lia. repeat case_decide; done.
  - intros i Hi Hnin. destruct (ti_cover _ _ _ Hinv i Hi Hnin) as [c Hc]. eexists. eapply covers_split; [lia..|by eexists|done].
  - intros i Hi Hin k' Hk'. rewrite split_path by lia. rewrite decide_False by (intros E; by apply (Hnl i)). by apply (ti_lost _ _ _ Hinv).
  - intros i kt Hi Hnin Hno. apply (ti_fresh _ _ _ Hinv); [done..|]. intros r' Hr'. apply (Hno r').
    rewrite <- leaf_node in *. rewrite split_path by lia. destruct (decide (i / 2 ^ (k + 1) = j)) as [E|E]; [|done].
    destruct (ti_cover _ _ _ Hinv i Hi Hnin) as (c & Hc & Hu).
    assert (k + 1 = c) by (apply Hu; [lia|rewrite E; by eexists]). assert (0 = c) by (apply Hu; [lia|by eexists]). lia.
Qed.

Lemma consume_inv t a lost k j :
  tree_inv t a lost → 0 ≤ k → TreeMath.in_tree d (k + 1) j →
  ∃ t', consume_node csp t (TreeMath.node (k + 1) j) = (Ok tt, t') ∧ tree_inv t' a lost ∧
    ∀ i c, 0 ≤ i → i / 2 ^ (k + 1) = j → c ≤ k + 1 → covers t i c → ∃ c', covers t' i c' ∧ c' ≤ k.
Proof.
  intros Hinv Hk Hin. pose proof Hin as [Hk1 Hj]. destruct (known_secrets t !! TreeMath.node (k + 1) j) as [[s|r]|] eqn:Hx.
  - pose proof (ti_secret _ _ _ Hinv _ _ _ Hin Hx) as Hs.
    destruct (consume_secret t k j s ltac:(lia) ltac:(lia) Hx Hs) as (l & r & -> & Hl & Hr).
    eexists. split; [done|]. split; [by eapply split_inv|]. intros i c Hi E _ Hc. exists k. split; [|done].
    pose proof (covers_split t k j l r i c Hi Hk ltac:(lia) ltac:(lia) ltac:(by eexists) Hc) as Hc'. by rewrite decide_True in Hc'.
  - apply (ti_ratchet _ _ _ Hinv _ _ _ Hin) in Hx as [? _]. lia.
  - rewrite consume_unknown by done. exists t. split_and!; [done|done|]. intros i c Hi E Hc [Hcd Hu]. exists c. split; [done|].
    destruct (decide (c = k + 1)) as [->|]; [|lia]. destruct (proj2 (Hu (k + 1) ltac:(lia)) eq_refl) as [x Hx']. rewrite E, Hx in Hx'. done.
Qed.

(** Walking down from the root reaches the leaf. *)
Lemma consume_path_inv i a lost : 0 ≤ i < 2 ^ d → ∀ (n : nat) t,
  Z.of_nat n ≤ d → tree_inv t a lost →
  ∃ t', consume_path csp t (rev (take n (TreeMath.copath_spec d 0 i))) = (Ok tt, t') ∧ tree_inv t' a lost ∧
    ((∃ c, covers t i c ∧ c ≤ Z.of_nat n) → covers t' i 0).
Proof.
  intros Hi. induction n as [|n IH]; intros t Hn Hinv.
  - exists t. cbn. split_and!; [done|done|]. intros (c & Hc & Hle). replace 0 with c; [done|]. destruct Hc. lia.
  - assert (TreeMath.copath_spec d 0 i !! n = Some {| TreeMath.path := TreeMath.node (0 + 1 + Z.of_nat n) (i / 2 ^ (Z.of_nat n + 1));
      TreeMath.copath := TreeMath.node (0 + Z.of_nat n) (TreeMath.sib (i / 2 ^ Z.of_nat n)) |}) as Hl.
    { by rewrite TreeMath.copath_spec_lookup, decide_True by lia. }
    rewrite (take_S_r _ _ _ Hl), rev_app_distr. cbn [rev app consume_path TreeMath.path].
    replace (0 + 1 + Z.of_nat n) with (Z.of_nat n + 1) by lia.
    destruct (consume_inv t a lost (Z.of_nat n) (i / 2 ^ (Z.of_nat n + 1)) Hinv) as (t1 & -> & Hinv1 & Hcov); [lia|apply TreeMath.in_tree_up; lia|].
    cbn [st_bind]. destruct (IH t1) as (t2 & -> & Hinv2 & Hcov2); [lia|done|]. exists t2. split_and!; [done|done|].
    intros (c & Hc & Hle). apply Hcov2. apply (Hcov i c); [lia|done|lia|done].
Qed.

Definition delete_node (t : SecretTree) (x : Z) : SecretTree :=
  {| known_secrets := delete x (known_secrets t); leaf_count := leaf_count t |}.

Lemma leaf_on_path i i' k : 0 ≤ i → 0 ≤ i' → 0 ≤ k → i' ≠ i → TreeMath.node k (i' / 2 ^ k) ≠ 2 * i.
Proof.
  intros Hi Hi' Hk Hne. rewrite <- TreeMath.node_0. apply node_path_ne; try done.
  destruct (decide (k = 0)) as [->|]; [right; by rewrite Z.pow_0_r, Z.div_1_r|by left].
Qed.

Lemma take_leaf_inv t a lost i :
  tree_inv t a lost → 0 ≤ i < 2 ^ d → covers t i 0 → tree_inv (delete_node t (2 * i)) a (lost ∪ {[i]}).
Proof.
  intros Hinv Hi [_ Hu]. split; cbn [delete_node known_secrets leaf_count].
  - apply (ti_count _ _ _ Hinv).
  - intros k j s Hin [_ H]%lookup_delete_Some. by apply (ti_secret _ _ _ Hinv).
  - intros k j r Hin [_ H]%lookup_delete_Some. by apply (ti_ratchet _ _ _ Hinv).
  - intros i' Hi' Hn. destruct (ti_cover _ _ _ Hinv i' Hi') as (c & Hc & Hu'); [set_solver|]. exists c. split; [done|].
    intros k Hk. cbn [delete_node known_secrets]. rewrite lookup_delete_ne; [by apply Hu'|].
    apply not_eq_sym, leaf_on_path; [lia..|set_solver].
  - intros i' Hi' [Hin| ->%elem_of_singleton]%elem_of_union k Hk; apply lookup_delete_None.
    + right. by apply (ti_lost _ _ _ Hinv).
    + destruct (decide (k = 0)) as [->|Hne]; [left; symmetry; apply leaf_node|right].
      apply eq_None_not_Some. intros H%Hu; [|done]. by apply Hne.
  - intros i' kt Hi' Hn Hr. apply (ti_fresh _ _ _ Hinv); [done|set_solver|]. intros r H. apply (Hr r).
    rewrite lookup_delete_ne; [done|]. assert (i' ≠ i) by set_solver. lia.
Qed.

Lemma put_leaf_inv t a a' lost i r :
  tree_inv t a (lost ∪ {[i]}) → 0 ≤ i < 2 ^ d → i ∉ lost → good_ratchets i (a' i) r → (∀ i' kt, i' ≠ i → a' i' kt = a i' kt) →
  tree_inv (set_node t (2 * i) (Ratchet r)) a' lost.
Proof.
  intros Hinv Hi Hnin Hgood Hsame.
  assert (∀ i' k, 0 ≤ i' < 2 ^ d → i' ≠ i → 0 ≤ k → known_secrets (set_node t (2 * i) (Ratchet r)) !! TreeMath.node k (i' / 2 ^ k) =
    known_secrets t !! TreeMath.node k (i' / 2 ^ k)) as Hoff.
  { intros i' k Hi' Hne Hk. cbn [set_node known_secrets]. apply lookup_insert_ne, not_eq_sym, leaf_on_path; lia. }
  split; cbn [set_node known_secrets leaf_count].
  - apply (ti_count _ _ _ Hinv).
  - intros k j s Hin H. apply lookup_insert_Some in H as [[_ [=]]|[_ H]]. by apply (ti_secret _ _ _ Hinv).
  - intros k j r' Hin H. apply lookup_insert_Some in H as [[E [= <-]]|[E H]].
    + rewrite <- TreeMath.node_0 in E. destruct Hin as [Hk Hj]. apply TreeMath.node_inj in E as [<- <-]; [done|lia..].
    + destruct (ti_ratchet _ _ _ Hinv _ _ _ Hin H) as [-> Hg]. split; [done|]. intros kt. rewrite Hsame; [apply Hg|].
      intros ->. by rewrite TreeMath.node_0 in E.
  - intros i' Hi' Hn. destruct (decide (i' = i)) as [->|Hne].
    + exists 0. split; [lia|]. intros k Hk. cbn [set_node known_secrets]. destruct (decide (k = 0)) as [->|Hk0].
      * rewrite leaf_node, lookup_insert_eq. by split; eauto.
      * assert (2 * i ≠ TreeMath.node k (i / 2 ^ k)) as Hx.
        { rewrite <- TreeMath.node_0. apply not_eq_sym, node_path_ne; [lia..|by left]. }
        rewrite lookup_insert_ne by exact Hx. rewrite (ti_lost _ _ _ Hinv); [split; [by intros []|done]|done|set_solver|done].
    + destruct (ti_cover _ _ _ Hinv i' Hi') as (c & Hc & Hu); [set_solver|]. exists c. split; [done|].
      intros k Hk. rewrite Hoff by (done || lia). by apply Hu.
  - intros i' Hi' Hin k Hk. assert (i' ≠ i) by set_solver. specialize (Hoff i' k Hi' H ltac:(lia)). cbn in Hoff. rewrite Hoff.
    apply (ti_lost _ _ _ Hinv); [done|set_solver|done].
  - intros i' kt Hi' Hn Hr. destruct (decide (i' = i)) as [->|Hne]; [exfalso; apply (Hr r), lookup_insert_eq|].
    rewrite Hsame by done. apply (ti_fresh _ _ _ Hinv); [done|set_solver|]. intros r' H. apply (Hr r').
    rewrite lookup_insert_ne by lia. done.
Qed.

Lemma new_ratchet_spec i s kt :
  leaf_secret i = Ok s →
  ∃ r, new_ratchet csp s kt = Ok r ∧ ratchet_secret i kt = Ok (secret r) ∧ generation r = 0 ∧ ratchet_inv csp (secret r) r ∅.
Proof.
  intros Hs. pose proof (node_secret_len _ _ _ Hs) as Hl. unfold new_ratchet, ratchet_secret. rewrite Hs. cbn [mbind result_bind].
  destruct (kdf_expand_ok csp s (key_type_label kt) [] None) as (b & -> & _);
    [done|done|cbn; set_solver|by destruct kt; vm_compute|by vm_compute|].
  eexists. split_and!; [done..|]. split; cbn; [by vm_compute|done|set_solver|]. intros g. rewrite decide_False by lia. done.
Qed.

Lemma take_node_delete t x : take_node t x = (known_secrets t !! x, delete_node t x).
Proof. done. Qed.

Lemma delete_node_id t x : known_secrets t !! x = None → delete_node t x = t.
Proof. intros H. unfold delete_node. rewrite delete_id by done. by destruct t. Qed.

(** A leaf's node, however it was reached, gives the member's ratchets. *)
Lemma leaf_ratchets t a lost i n :
  tree_inv t a lost → 0 ≤ i < 2 ^ d → i ∉ lost → known_secrets t !! (2 * i) = Some n →
  ∃ r, (match n with
        | Ratchet r => (Ok r, delete_node t (2 * i))
        | Secret s => st_lift (a ← new_ratchet csp s Application; h ← new_ratchet csp s Handshake;
                               Ok {| application := a; handshake := h |}) (delete_node t (2 * i))
        end) = (Ok r, delete_node t (2 * i)) ∧ good_ratchets i (a i) r.
Proof.
  intros Hinv Hi Hnin Hn. pose proof (TreeMath.in_tree_up d i 0 ltac:(lia) Hi) as Hin.
  rewrite <- leaf_node in Hn. rewrite Z.pow_0_r, Z.div_1_r in Hin, Hn. destruct n as [s|r].
  - apply (ti_secret _ _ _ Hinv) in Hn as Hs; [|done]. rewrite Z.sub_0_r in Hs.
    destruct (new_ratchet_spec i s Application Hs) as (x & -> & A1 & A2 & A3). cbn [mbind result_bind].
    destruct (new_ratchet_spec i s Handshake Hs) as (y & -> & B1 & B2 & B3). cbn [mbind result_bind].
    eexists. split; [done|]. assert (∀ kt, a i kt = (0, ∅)) as Hf.
    { intros kt. apply (ti_fresh _ _ _ Hinv); [done..|]. intros r Hr. rewrite <- TreeMath.node_0, Hn in Hr. done. }
    intros [|]; rewrite Hf; cbn; [exists (secret y)|exists (secret x)]; done.
  - exists r. split; [done|]. by apply (ti_ratchet _ _ _ Hinv) in Hn as [_ ?].
Qed.

Lemma take_leaf_ratchet_spec t a lost i :
  tree_inv t a lost → 0 ≤ i < 2 ^ d →
  if decide (i ∈ lost)
  then ∃ t', take_leaf_ratchet csp t (2 * i) = (Err InvalidLeafConsumption, t') ∧ tree_inv t' a lost
  else ∃ r t', take_leaf_ratchet csp t (2 * i) = (Ok r, t') ∧ good_ratchets i (a i) r ∧ tree_inv t' a (lost ∪ {[i]}).
Proof.
  intros Hinv Hi. unfold take_leaf_ratchet. rewrite take_node_delete.
  destruct (known_secrets t !! (2 * i)) as [n|] eqn:Hn.
  - rewrite decide_False; [|intros Hin; rewrite <- leaf_node, (ti_lost _ _ _ Hinv i Hi Hin 0) in Hn by lia; done].
    cbn [st_bind]. assert (i ∉ lost) as Hnin.
    { intros Hin; rewrite <- leaf_node, (ti_lost _ _ _ Hinv i Hi Hin 0) in Hn by lia; done. }
    destruct (leaf_ratchets t a lost i n Hinv Hi Hnin Hn) as (r & -> & Hr). do 2 eexists. split_and!; [done|done|].
    apply take_leaf_inv; [done..|]. destruct (ti_cover _ _ _ Hinv i Hi Hnin) as (c & Hc & Hu).
    replace 0 with c; [by split|]. symmetry. apply Hu; [lia|]. rewrite leaf_node. by eexists.
  - rewrite delete_node_id by done. rewrite (ti_count _ _ _ Hinv), <- TreeMath.node_0, TreeMath.direct_copath_node, TreeMath.node_0
      by (done || (split; rewrite ?Z.sub_0_r; lia)).
    destruct (consume_path_inv i a lost Hi (Z.to_nat d) t ltac:(lia) Hinv) as (t1 & Hp & Hinv1 & Hcov).
    rewrite take_ge in Hp by (rewrite TreeMath.length_copath_spec; lia). rewrite Hp. cbn [st_bind]. rewrite take_node_delete.
    destruct (decide (i ∈ lost)) as [Hin|Hnin].
    + pose proof (ti_lost _ _ _ Hinv1 i Hi Hin 0 ltac:(lia)) as H0. rewrite leaf_node in H0. rewrite H0. cbn [ok_or st_bind].
      rewrite delete_node_id by done. by exists t1.
    + destruct Hcov as [H0 Hu]; [destruct (ti_cover _ _ _ Hinv i Hi Hnin) as (c & Hc & Hc'); exists c; split; [by split|lia]|].
      destruct (proj2 (Hu 0 ltac:(lia)) eq_refl) as [n' Hn']. rewrite leaf_node in Hn'. rewrite Hn'. cbn [ok_or st_bind].
      destruct (leaf_ratchets t1 a lost i n' Hinv1 Hi Hnin Hn') as (r & -> & Hr). do 2 eexists. split_and!; [done|done|].
      by apply take_leaf_inv.
Qed.

(** The abstract operations on a ratchet's state: the next generation and the
    generations handed out. *)
Definition abs_get (s : Z * gset Z) (g : Z) : Result MlsError (Z * gset Z) :=
  if decide (g ∈ s.2) then Err (KeyMissing g)
  else if decide (g < s.1 ∨ g ≤ s.1 + MAX_RATCHET_BACK_HISTORY < 2 ^ 32)
  then Ok (Z.max s.1 (g + 1), s.2 ∪ {[g]}) else Err (InvalidFutureGeneration g).

Definition update (a : Abs) (i : Z) (kt : KeyType) (s : Z * gset Z) : Abs :=
  λ i' kt', if decide (i' = i ∧ kt' = kt) then s else a i' kt'.

Lemma ratchet_of_set kt kt' r x :
  ratchet_of kt' (set_ratchet kt r x) = if decide (kt' = kt) then x else ratchet_of kt' r.
Proof. by destruct kt, kt'. Qed.

Lemma good_update i kt (a : Abs) r s x n u :
  good_ratchets i (a i) r → ratchet_secret i kt = Ok s → generation x = n → ratchet_inv csp s x u →
  good_ratchets i (update a i kt (n, u) i) (set_ratchet kt r x).
Proof.
  intros Hg Hs Hn Hx kt'. unfold update. rewrite ratchet_of_set. destruct (decide (kt' = kt)) as [->|Hne].
  - rewrite decide_True by done. exists s. done.
  - rewrite decide_False by naive_solver. apply Hg.
Qed.

Lemma get_refines s r g (a : Z * gset Z) : len s = csp_kdf_extract_size csp →
  generation r = a.1 → ratchet_inv csp s r a.2 → 0 ≤ g < 2 ^ 32 - 1 →
  match abs_get a g with
  | Ok (n, u) => ∃ k r', get_message_key csp r g = (Ok k, r') ∧ key_at csp s g = Ok k ∧ generation r' = n ∧ ratchet_inv csp s r' u
  | Err e => get_message_key csp r g = (Err e, r)
  | _ => False
  end.
Proof.
  intros Hs Hn Hr Hg. pose proof (get_message_key_spec csp Hkdf s Hs r a.2 g Hr Hg) as H. unfold abs_get. rewrite <- Hn.
  case_decide; [done|]. case_decide; [|done]. destruct H as (k & r' & G1 & G2 & G3 & G4). by exists k, r'.
Qed.

Lemma tree_get_spec t a lost i kt g :
  tree_inv t a lost → 0 ≤ i < 2 ^ d → 0 ≤ g < 2 ^ 32 - 1 →
  match (if decide (i ∈ lost) then Err InvalidLeafConsumption else abs_get (a i kt) g) with
  | Ok s => ∃ k t', tree_message_key_generation csp t (2 * i) kt g = (Ok k, t') ∧ tree_key i kt g = Ok k ∧
              tree_inv t' (update a i kt s) lost
  | Err e => ∃ t', tree_message_key_generation csp t (2 * i) kt g = (Err e, t') ∧ tree_inv t' a (lost ∪ {[i]})
  | _ => False
  end.
Proof.
  intros Hinv Hi Hg. pose proof (take_leaf_ratchet_spec t a lost i Hinv Hi) as H. unfold tree_message_key_generation.
  destruct (decide (i ∈ lost)) as [Hin|Hnin].
  { destruct H as (t' & -> & Hinv'). exists t'. split; [done|]. by replace (lost ∪ {[i]}) with lost by set_solver. }
  destruct H as (r & t' & -> & Hgood & Hinv'). cbn [st_bind]. destruct (Hgood kt) as (s & Hs & Hn & Hr).
  pose proof (get_refines s _ g _ (ratchet_secret_len _ _ _ Hs) Hn Hr Hg) as H. unfold ratchets_message_key_generation, st_lift.
  destruct (abs_get (a i kt) g) as [[n u]|e| |]; [| |done..].
  - destruct H as (k & x & -> & Hk & Hx & Hinvx). exists k, (set_node t' (2 * i) (Ratchet (set_ratchet kt r x))). split; [done|].
    split; [unfold tree_key; by rewrite Hs|]. apply (put_leaf_inv t' a); [done..| |].
    + by eapply good_update.
    + intros i' kt' Hne. unfold update. by rewrite decide_False by naive_solver.
  - rewrite H. by exists t'.
Qed.

Lemma tree_next_spec t a lost i kt :
  tree_inv t a lost → 0 ≤ i < 2 ^ d → i ∉ lost → (a i kt).1 + 1 < 2 ^ 32 →
  ∃ k t', tree_next_message_key csp t (2 * i) kt = (Ok k, t') ∧ key_generation k = (a i kt).1 ∧ key_sized csp k ∧
    tree_key i kt (a i kt).1 = Ok k ∧ tree_inv t' (update a i kt ((a i kt).1 + 1, (a i kt).2 ∪ {[(a i kt).1]})) lost.
Proof.
  intros Hinv Hi Hnin Hlt. pose proof (take_leaf_ratchet_spec t a lost i Hinv Hi) as H. rewrite decide_False in H by done.
  destruct H as (r & t' & Ht & Hgood & Hinv'). unfold tree_next_message_key. rewrite Ht. cbn [st_bind].
  destruct (Hgood kt) as (s & Hs & Hn & Hr). rewrite <- Hn in Hlt.
  pose proof (ratchet_secret_len _ _ _ Hs) as Hl. destruct (next_message_key_spec csp Hkdf s Hl _ _ Hr Hlt) as (k & x & Hk & Hkey & Hg & Hx). rewrite Hn in *.
  unfold ratchets_next_message_key, st_lift. rewrite Hk. do 2 eexists. split; [done|].
  destruct (key_at_ok csp Hkdf s Hl (a i kt).1) as (k' & Hk' & Hgen & Hsized). rewrite Hkey in Hk'. injection Hk' as <-.
  split_and!; [done|done|unfold tree_key; by rewrite Hs|]. apply (put_leaf_inv t' a); [done..| |].
  - by eapply good_update.
  - intros i' kt' Hne. unfold update. by rewrite decide_False by naive_solver.
Qed.

Lemma new_tree_inv : tree_inv (new_tree (2 ^ d) root_secret) (λ _ _, (0, ∅)) ∅.
Proof.
  clear Hkdf Hlen.
  assert (∀ k j n, TreeMath.in_tree d k j → known_secrets (new_tree (2 ^ d) root_secret) !! TreeMath.node k j = Some n →
    k = d ∧ n = Secret root_secret) as Hroot.
  { intros k j n [Hk Hj] H. cbn in H. rewrite TreeMath.root_pow in H by done. apply lookup_insert_Some in H as [[E <-]|[_ H]]; [|done].
    apply TreeMath.node_inj in E as [-> _]; [done|lia..]. }
  split; [done| | | | |].
  - intros k j s Hin H. apply Hroot in H as [-> [= ->]]; [|done]. by rewrite Z.sub_diag.
  - intros k j r Hin H. by apply Hroot in H as [-> [=]].
  - intros i Hi _. exists d. split; [lia|]. intros k Hk. split.
    + intros [n H]. apply Hroot in H as [-> _]; [done|]. by apply TreeMath.in_tree_up.
    + intros ->. cbn. rewrite TreeMath.root_pow by done. rewrite (Z.div_small i) by done. rewrite lookup_insert_eq. by eexists.
  - set_solver.
  - done.
Qed.

End tree.

(** C19. With key derivation as the provider's interface documents it and a first secret
    of its size, a ratchet refines its specification, the next generation and the set
    of generations handed out: a key that was handed out is refused, a key within the
    window of 1024 generations ahead (as long as that bound does not leave the 32
    bits) or kept in the history is given, and is the key the first secret
    determines; everything else is refused; a refused request changes nothing and
    every request ends. *)
Theorem ratchet_refines csp s r used g :
  kdf_laws csp → len s = csp_kdf_extract_size csp → ratchet_inv csp s r used → 0 ≤ g < 2 ^ 32 - 1 →
  match abs_get (generation r, used) g with
  | Ok (n, used') => ∃ k r', get_message_key csp r g = (Ok k, r') ∧ key_at csp s g = Ok k ∧
                       generation r' = n ∧ ratchet_inv csp s r' used'
  | Err e => get_message_key csp r g = (Err e, r)
  | _ => False
  end.
Proof. intros Hk Hs Hr Hg. by apply (get_refines csp Hk s r g (generation r, used)). Qed.

(** C6. With key derivation as the provider's interface documents it and an encryption
    secret of its size, the secret tree of a group of at most 2^31 leaves refines the
    family of its members' ratchets: whatever has been asked before and in whatever order, a request for a member whose ratchet
    is not lost is answered as that member's ratchet specifies, with the key the
    epoch's encryption secret determines for this member, type and generation;
    a member whose ratchet is lost is refused; a refused request leaves the
    member's ratchet lost. *)
Theorem secret_tree_refines csp d root t a lost i kt g :
  kdf_laws csp → 0 ≤ d ≤ 31 → len root = csp_kdf_extract_size csp → tree_inv csp d root t a lost → 0 ≤ i < 2 ^ d → 0 ≤ g < 2 ^ 32 - 1 →
  match (if decide (i ∈ lost) then Err InvalidLeafConsumption else abs_get (a i kt) g) with
  | Ok s => ∃ k t', tree_message_key_generation csp t (2 * i) kt g = (Ok k, t') ∧ tree_key csp d root i kt g = Ok k ∧
              tree_inv csp d root t' (update a i kt s) lost
  | Err e => ∃ t', tree_message_key_generation csp t (2 * i) kt g = (Err e, t') ∧ tree_inv csp d root t' a (lost ∪ {[i]})
  | _ => False
  end.
Proof. intros. by apply tree_get_spec. Qed.

(** The generations of the abstract state are those of a [u32]. *)
Lemma generation_u32 csp d root t a lost i kt :
  kdf_laws csp → 0 ≤ d ≤ 31 → len root = csp_kdf_extract_size csp → tree_inv csp d root t a lost → 0 ≤ i < 2 ^ d → i ∉ lost → is_u32 (a i kt).1.
Proof.
  intros Hk Hd Hroot Hinv Hi Hnin. pose proof (take_leaf_ratchet_spec csp Hk d Hd root Hroot t a lost i Hinv Hi) as H.
  rewrite decide_False in H by done. destruct H as (r & t' & _ & Hgood & _). destruct (Hgood kt) as (s & _ & <- & Hr). apply Hr.
Qed.

(** What the sender takes the receiver finds. *)
Lemma keys_agree csp d root tS aS lostS tR aR lostR i kt :
  kdf_laws csp → 0 ≤ d ≤ 31 → len root = csp_kdf_extract_size csp → 0 ≤ i < 2 ^ d →
  tree_inv csp d root tS aS lostS → tree_inv csp d root tR aR lostR → i ∉ lostS → i ∉ lostR →
  let g := (aS i kt).1 in
  g + 1 < 2 ^ 32 → g ∉ (aR i kt).2 → g ≤ (aR i kt).1 + MAX_RATCHET_BACK_HISTORY < 2 ^ 32 →
  ∃ k tS' tR', tree_next_message_key csp tS (2 * i) kt = (Ok k, tS') ∧ key_generation k = g ∧ key_sized csp k ∧
    tree_message_key_generation csp tR (2 * i) kt g = (Ok k, tR') ∧
    tree_inv csp d root tS' (update aS i kt (g + 1, (aS i kt).2 ∪ {[g]})) lostS ∧
    tree_inv csp d root tR' (update aR i kt (Z.max (aR i kt).1 (g + 1), (aR i kt).2 ∪ {[g]})) lostR.
Proof.
  intros Hk Hd Hroot Hi HS HR HlS HlR g Hg Hfresh Hwin.
  destruct (tree_next_spec csp Hk d Hd root Hroot tS aS lostS i kt HS Hi HlS Hg) as (k & tS' & H1 & Hgen & Hsized & H2 & H3).
  pose proof (generation_u32 csp d root tS aS lostS i kt Hk Hd Hroot HS Hi HlS) as [Hg0 _]. fold g in Hg0.
  pose proof (tree_get_spec csp Hk d Hd root Hroot tR aR lostR i kt g HR Hi ltac:(lia)) as H.
  unfold abs_get in H. rewrite !decide_False in H by done. rewrite decide_True in H by (right; lia).
  destruct H as (k' & tR' & H4 & H5 & H6). fold g in H2. rewrite H2 in H5. injection H5 as <-. by exists k, tS', tR'.
Qed.

(** Sender and receiver agree: the key a member takes for its next message
    is the key every other member of the epoch gets for that generation, in any
    state in which it has not lost the sender's ratchet, has not used the
    generation, and is at most 1024 generations behind. *)
Theorem message_keys_agree csp d root tS aS lostS tR aR lostR i kt :
  kdf_laws csp → 0 ≤ d ≤ 31 → len root = csp_kdf_extract_size csp → 0 ≤ i < 2 ^ d →
  tree_inv csp d root tS aS lostS → tree_inv csp d root tR aR lostR → i ∉ lostS → i ∉ lostR →
  let g := (aS i kt).1 in
  g + 1 < 2 ^ 32 → g ∉ (aR i kt).2 → g ≤ (aR i kt).1 + MAX_RATCHET_BACK_HISTORY < 2 ^ 32 →
  ∃ k tS' tR', tree_next_message_key csp tS (2 * i) kt = (Ok k, tS') ∧ key_generation k = g ∧ key_sized csp k ∧
    tree_message_key_generation csp tR (2 * i) kt g = (Ok k, tR') ∧
    tree_inv csp d root tS' (update aS i kt (g + 1, (aS i kt).2 ∪ {[g]})) lostS ∧
    tree_inv csp d root tR' (update aR i kt (Z.max (aR i kt).1 (g + 1), (aR i kt).2 ∪ {[g]})) lostR.
Proof. apply keys_agree. Qed.

(** A refused request disables the member: after an error for member [i], a
    repeated message is enough, every further request for this member fails, for
    both key types and every generation, although the tree still had the keys. *)
Theorem refused_request_loses_ratchet csp d root t a lost i kt g e t' :
  kdf_laws csp → 0 ≤ d ≤ 31 → len root = csp_kdf_extract_size csp → tree_inv csp d root t a lost → 0 ≤ i < 2 ^ d → 0 ≤ g < 2 ^ 32 - 1 →
  tree_message_key_generation csp t (2 * i) kt g = (Err e, t') →
  ∀ kt' g', 0 ≤ g' < 2 ^ 32 - 1 → (tree_message_key_generation csp t' (2 * i) kt' g').1 = Err InvalidLeafConsumption.
Proof.
  intros Hk Hd Hroot Hinv Hi Hg He kt' g' Hg'. pose proof (tree_get_spec csp Hk d Hd root Hroot t a lost i kt g Hinv Hi Hg) as H.
  destruct (if decide (i ∈ lost) then _ else _) as [s|e'| |]; [destruct H as (k & t1 & H & _); congruence| |done..].
  destruct H as (t1 & H1 & Hinv1). rewrite H1 in He. injection He as <- <-.
  pose proof (tree_get_spec csp Hk d Hd root Hroot t1 a (lost ∪ {[i]}) i kt' g' Hinv1 Hi Hg') as H.
  rewrite decide_True in H by set_solver. destruct H as (t2 & -> & _). done.
Qed.

(** A tree of four members, used by the first of them and read by another. *)
Definition sample_secret : bytes := byte.of_Z <$> [1; 2].
Definition sample_secrets : SecretTree := new_tree 4 sample_secret.
Definition sample_start : SecretKeyRatchet := {| secret := sample_secret; generation := 0; history := ∅ |}.

Lemma ratchet_refines_witness :
  ∃ k r', get_message_key toy_csp sample_start 3 = (Ok k, r') ∧ key_at toy_csp sample_secret 3 = Ok k ∧
    generation r' = 4 ∧ ratchet_inv toy_csp sample_secret r' (∅ ∪ {[3]}).
Proof.
  assert (ratchet_inv toy_csp sample_secret sample_start ∅) as Hr.
  { split; [by vm_compute|done|set_solver|]. intros g. rewrite decide_False; [done|]. cbn. lia. }
  exact (ratchet_refines toy_csp sample_secret sample_start ∅ 3 toy_kdf eq_refl Hr ltac:(lia)).
Defined.

Lemma secret_tree_refines_witness :
  ∃ k t', tree_message_key_generation toy_csp sample_secrets (2 * 2) Application 1 = (Ok k, t') ∧
    tree_key toy_csp 2 sample_secret 2 Application 1 = Ok k ∧
    tree_inv toy_csp 2 sample_secret t' (update (λ _ _, (0, ∅)) 2 Application (2, ∅ ∪ {[1]})) ∅.
Proof.
  exact (secret_tree_refines toy_csp 2 sample_secret sample_secrets (λ _ _, (0, ∅)) ∅ 2 Application 1 toy_kdf ltac:(lia) eq_refl
    (new_tree_inv toy_csp 2 ltac:(lia) sample_secret) ltac:(lia) ltac:(lia)).
Defined.

Lemma message_keys_agree_witness :
  ∃ k tS' tR', tree_next_message_key toy_csp sample_secrets (2 * 1) Handshake = (Ok k, tS') ∧ key_generation k = 0 ∧
    tree_message_key_generation toy_csp sample_secrets (2 * 1) Handshake 0 = (Ok k, tR').
Proof.
  destruct (message_keys_agree toy_csp 2 sample_secret sample_secrets (λ _ _, (0, ∅)) ∅ sample_secrets (λ _ _, (0, ∅)) ∅ 1 Handshake)
    as (k & tS & tR & H1 & H2 & _ & H3 & _); [exact toy_kdf|lia|reflexivity|lia|exact (new_tree_inv toy_csp 2 ltac:(lia) sample_secret)|
      exact (new_tree_inv toy_csp 2 ltac:(lia) sample_secret)|set_solver|set_solver|cbn; lia|cbn; set_solver|cbn; unfold MAX_RATCHET_BACK_HISTORY; lia|].
  exists k, tS, tR. split; [exact H1|]. split; [exact H2|exact H3].
Defined.

Lemma refused_request_loses_ratchet_witness :
  let t' := (tree_message_key_generation toy_csp sample_secrets (2 * 1) Application 2000).2 in
  (tree_message_key_generation toy_csp t' (2 * 1) Handshake 0).1 = Err InvalidLeafConsumption.
Proof.
  intros t'. apply (refused_request_loses_ratchet toy_csp 2 sample_secret sample_secrets (λ _ _, (0, ∅)) ∅ 1 Application 2000
    (InvalidFutureGeneration 2000) t' toy_kdf ltac:(lia) eq_refl (new_tree_inv toy_csp 2 ltac:(lia) sample_secret) ltac:(lia) ltac:(lia)).
  - vm_compute. reflexivity.
  - lia.
Defined.

End SecretTree.
