(* ===== verification/Framing.v ===== *)
(** * Messages on the wire (mls-rs/src/group/framing.rs, message_signature.rs,
    commit.rs, group_info.rs, mod.rs)

    The message types and their formats.  Several fields are present or absent
    according to a field before them: the confirmation tag of a commit, the
    membership tag of a member's public message; an encrypted content carries its
    type outside.  The theorem is that every well-formed message is read back,
    followed by whatever, and that reading never panics. *)
From Stdlib Require Import Strings.String.
From S2P Require Import Prelude Codec Wire Types Proposal Crypto Labels GroupContext Kem.
Import LeafCodecs ProposalCodecs.

(** ** Content types and wire formats *)
Inductive ContentType := ApplicationType | ProposalType | CommitType.

#[global] Instance content_type_eq_dec : EqDecision ContentType.
Proof. solve_decision. Defined.

Definition content_type_variants : list (Variant ContentType) := [
  {| v_discriminant := 1; v_codec := unit_codec; v_make := λ _, ApplicationType;
     v_match x := match x with ApplicationType => Some tt | _ => None end |};
  {| v_discriminant := 2; v_codec := unit_codec; v_make := λ _, ProposalType;
     v_match x := match x with ProposalType => Some tt | _ => None end |};
  {| v_discriminant := 3; v_codec := unit_codec; v_make := λ _, CommitType;
     v_match x := match x with CommitType => Some tt | _ => None end |} ].
Definition content_type_codec : MlsCodec ContentType := enum_codec u8_codec content_type_variants.

Inductive WireFormat := WirePublicMessage | WirePrivateMessage | WireWelcome | WireGroupInfo | WireKeyPackage.

#[global] Instance wire_format_eq_dec : EqDecision WireFormat.
Proof. solve_decision. Defined.

Definition wire_format_variants : list (Variant WireFormat) := [
  {| v_discriminant := 1; v_codec := unit_codec; v_make := λ _, WirePublicMessage;
     v_match x := match x with WirePublicMessage => Some tt | _ => None end |};
  {| v_discriminant := 2; v_codec := unit_codec; v_make := λ _, WirePrivateMessage;
     v_match x := match x with WirePrivateMessage => Some tt | _ => None end |};
  {| v_discriminant := 3; v_codec := unit_codec; v_make := λ _, WireWelcome;
     v_match x := match x with WireWelcome => Some tt | _ => None end |};
  {| v_discriminant := 4; v_codec := unit_codec; v_make := λ _, WireGroupInfo;
     v_match x := match x with WireGroupInfo => Some tt | _ => None end |};
  {| v_discriminant := 5; v_codec := unit_codec; v_make := λ _, WireKeyPackage;
     v_match x := match x with WireKeyPackage => Some tt | _ => None end |} ].
Definition wire_format_codec : MlsCodec WireFormat := enum_codec u16_codec wire_format_variants.

(** ** Commits and contents *)
Record Commit := { commit_proposals : list ProposalOrRef; commit_path : option Kem.UpdatePath }.

Definition commit_codec : MlsCodec Commit :=
  struct_codec (λ c, (commit_proposals c, commit_path c)) (λ p, {| commit_proposals := p.1; commit_path := p.2 |})
    (tuple_codec (vec_codec proposal_or_ref_codec) (option_codec Kem.update_path_codec)).

Inductive Content :=
  | ApplicationContent (data : bytes)
  | ProposalContent (p : Proposal)
  | CommitContent (c : Commit).

(** [From<&Content> for ContentType]. *)
Definition content_type (c : Content) : ContentType :=
  match c with
  | ApplicationContent _ => ApplicationType
  | ProposalContent _ => ProposalType
  | CommitContent _ => CommitType
  end.

Definition content_variants : list (Variant Content) := [
  {| v_discriminant := 1; v_codec := byte_vec_codec; v_make := ApplicationContent;
     v_match x := match x with ApplicationContent d => Some d | _ => None end |};
  {| v_discriminant := 2; v_codec := proposal_codec; v_make := ProposalContent;
     v_match x := match x with ProposalContent p => Some p | _ => None end |};
  {| v_discriminant := 3; v_codec := commit_codec; v_make := CommitContent;
     v_match x := match x with CommitContent c => Some c | _ => None end |} ].
Definition content_codec : MlsCodec Content := enum_codec u8_codec content_variants.

Record FramedContent := {
  fc_group_id : bytes;
  fc_epoch : Z;
  fc_sender : Sender;
  fc_authenticated_data : bytes;
  fc_content : Content;
}.

Definition framed_content_codec : MlsCodec FramedContent :=
  struct_codec (λ c, (fc_group_id c, (fc_epoch c, (fc_sender c, (fc_authenticated_data c, fc_content c)))))
    (λ '(a, (b, (c, (d, e)))), {| fc_group_id := a; fc_epoch := b; fc_sender := c; fc_authenticated_data := d; fc_content := e |})
    (tuple_codec byte_vec_codec (tuple_codec u64_codec (tuple_codec sender_codec (tuple_codec byte_vec_codec content_codec)))).

(** ** Authentication data: message_signature.rs

    The confirmation tag is written when there is one and read for a commit. *)
Record FramedContentAuthData := { auth_signature : bytes; confirmation_tag : option bytes }.

Definition auth_data_codec (t : ContentType) : MlsCodec FramedContentAuthData :=
  struct_codec (λ a, (auth_signature a, confirmation_tag a)) (λ p, {| auth_signature := p.1; confirmation_tag := p.2 |})
    (tuple_codec byte_vec_codec (present_codec (bool_decide (t = CommitType)) byte_vec_codec)).

Record AuthenticatedContent := { wire_format : WireFormat; content : FramedContent; auth : FramedContentAuthData }.

Definition authenticated_content_codec : MlsCodec AuthenticatedContent :=
  struct_codec (λ a, (wire_format a, (content a, auth a)))
    (λ '(w, (c, a)), {| wire_format := w; content := c; auth := a |})
    (tuple_codec wire_format_codec (dep_codec framed_content_codec (λ c, auth_data_codec (content_type (fc_content c))))).

(** ** Public messages *)
Record PublicMessage := { pm_content : FramedContent; pm_auth : FramedContentAuthData; membership_tag : option bytes }.

Definition is_member (s : Sender) : bool := match s with Member _ => true | _ => false end.

Definition public_message_codec : MlsCodec PublicMessage :=
  struct_codec (λ m, (pm_content m, (pm_auth m, membership_tag m)))
    (λ '(c, (a, t)), {| pm_content := c; pm_auth := a; membership_tag := t |})
    (dep_codec framed_content_codec (λ c, tuple_codec (auth_data_codec (content_type (fc_content c)))
      (present_codec (is_member (fc_sender c)) byte_vec_codec))).

(** [From<PublicMessage> for AuthenticatedContent]. *)
Definition from_public_message (m : PublicMessage) : AuthenticatedContent :=
  {| wire_format := WirePublicMessage; content := pm_content m; auth := pm_auth m |}.

(** ** Private messages *)
Record PrivateMessageContent := { pmc_content : Content; pmc_auth : FramedContentAuthData }.

(** The content without its type. *)
Definition content_encode (c : Content) (w : bytes) : Result Codec.Error bytes :=
  match c with
  | ApplicationContent d => mls_encode byte_vec_codec d w
  | ProposalContent p => mls_encode proposal_codec p w
  | CommitContent c => mls_encode commit_codec c w
  end.
Definition content_decode (t : ContentType) (r : bytes) : Result Codec.Error (Content * bytes) :=
  match t with
  | ApplicationType => '(d, r) ← mls_decode byte_vec_codec r; Ok (ApplicationContent d, r)
  | ProposalType => '(p, r) ← mls_decode proposal_codec r; Ok (ProposalContent p, r)
  | CommitType => '(c, r) ← mls_decode commit_codec r; Ok (CommitContent c, r)
  end.

Definition private_content_encode (m : PrivateMessageContent) : Result Codec.Error bytes :=
  w ← content_encode (pmc_content m) [];
  mls_encode (auth_data_codec (content_type (pmc_content m))) (pmc_auth m) w.

(** What follows the content must be padding, zeros. *)
Definition private_content_decode (t : ContentType) (r : bytes) : Result Codec.Error PrivateMessageContent :=
  '(c, r) ← content_decode t r;
  '(a, r) ← mls_decode (auth_data_codec (content_type c)) r;
  if existsb (λ b, negb (bool_decide (b = byte.of_Z 0))) r then Err (Codec.Custom 5)
  else Ok {| pmc_content := c; pmc_auth := a |}.

Record PrivateContentAAD := { aad_group_id : bytes; aad_epoch : Z; aad_content_type : ContentType; aad_data : bytes }.

Definition private_content_aad_codec : MlsCodec PrivateContentAAD :=
  struct_codec (λ a, (aad_group_id a, (aad_epoch a, (aad_content_type a, aad_data a))))
    (λ '(a, (b, (c, d))), {| aad_group_id := a; aad_epoch := b; aad_content_type := c; aad_data := d |})
    (tuple_codec byte_vec_codec (tuple_codec u64_codec (tuple_codec content_type_codec byte_vec_codec))).

Record PrivateMessage := {
  pr_group_id : bytes;
  pr_epoch : Z;
  pr_content_type : ContentType;
  pr_authenticated_data : bytes;
  encrypted_sender_data : bytes;
  pr_ciphertext : bytes;
}.

Definition private_message_codec : MlsCodec PrivateMessage :=
  struct_codec
    (λ m, (pr_group_id m, (pr_epoch m, (pr_content_type m, (pr_authenticated_data m, (encrypted_sender_data m, pr_ciphertext m))))))
    (λ '(a, (b, (c, (d, (e, f))))), {| pr_group_id := a; pr_epoch := b; pr_content_type := c; pr_authenticated_data := d;
       encrypted_sender_data := e; pr_ciphertext := f |})
    (tuple_codec byte_vec_codec (tuple_codec u64_codec (tuple_codec content_type_codec
      (tuple_codec byte_vec_codec (tuple_codec byte_vec_codec byte_vec_codec))))).

(** [From<&PrivateMessage> for PrivateContentAAD]. *)
Definition from_private_message (m : PrivateMessage) : PrivateContentAAD := {|
  aad_group_id := pr_group_id m; aad_epoch := pr_epoch m; aad_content_type := pr_content_type m;
  aad_data := pr_authenticated_data m |}.

(** ** Group information and welcomes *)
Record GroupInfo := {
  gi_group_context : GroupContext;
  gi_extensions : ExtensionList.t;
  gi_confirmation_tag : bytes;
  gi_signer : Z;
  gi_signature : bytes;
}.

Definition signable_group_info_codec : MlsCodec (GroupContext * (ExtensionList.t * (bytes * Z))) :=
  tuple_codec group_context_codec (tuple_codec ExtensionList.codec (tuple_codec byte_vec_codec u32_codec)).

Definition group_info_codec : MlsCodec GroupInfo :=
  struct_codec (λ g, (gi_group_context g, (gi_extensions g, (gi_confirmation_tag g, (gi_signer g, gi_signature g)))))
    (λ '(a, (b, (c, (d, e)))), {| gi_group_context := a; gi_extensions := b; gi_confirmation_tag := c; gi_signer := d; gi_signature := e |})
    (tuple_codec group_context_codec (tuple_codec ExtensionList.codec (tuple_codec byte_vec_codec
      (tuple_codec u32_codec byte_vec_codec)))).

(** [Signable::signable_content] of a group info. *)
Definition group_info_tbs (g : GroupInfo) : Result Codec.Error bytes :=
  mls_encode_to_vec signable_group_info_codec (gi_group_context g, (gi_extensions g, (gi_confirmation_tag g, gi_signer g))).

Record GroupSecrets := { joiner_secret : bytes; path_secret : option bytes; psks : list PreSharedKeyID }.
Record EncryptedGroupSecrets := { new_member : bytes; encrypted_group_secrets : HpkeCiphertext }.
Record Welcome := { w_cipher_suite : Z; w_secrets : list EncryptedGroupSecrets; encrypted_group_info : bytes }.

Definition group_secrets_codec : MlsCodec GroupSecrets :=
  struct_codec (λ g, (joiner_secret g, (path_secret g, psks g)))
    (λ '(a, (b, c)), {| joiner_secret := a; path_secret := b; psks := c |})
    (tuple_codec byte_vec_codec (tuple_codec (option_codec byte_vec_codec) (vec_codec psk_id_codec))).
Definition encrypted_group_secrets_codec : MlsCodec EncryptedGroupSecrets :=
  struct_codec (λ g, (new_member g, encrypted_group_secrets g)) (λ p, {| new_member := p.1; encrypted_group_secrets := p.2 |})
    (tuple_codec byte_vec_codec hpke_ciphertext_codec).
Definition welcome_codec : MlsCodec Welcome :=
  struct_codec (λ w, (w_cipher_suite w, (w_secrets w, encrypted_group_info w)))
    (λ '(a, (b, c)), {| w_cipher_suite := a; w_secrets := b; encrypted_group_info := c |})
    (tuple_codec u16_codec (tuple_codec (vec_codec encrypted_group_secrets_codec) byte_vec_codec)).

(** ** [MlsMessage] *)
Inductive MlsMessagePayload :=
  | Plain (m : PublicMessage)
  | Cipher (m : PrivateMessage)
  | WelcomePayload (w : Welcome)
  | GroupInfoPayload (g : GroupInfo)
  | KeyPackagePayload (k : KeyPackage).

Definition payload_variants : list (Variant MlsMessagePayload) := [
  {| v_discriminant := 1; v_codec := public_message_codec; v_make := Plain;
     v_match x := match x with Plain m => Some m | _ => None end |};
  {| v_discriminant := 2; v_codec := private_message_codec; v_make := Cipher;
     v_match x := match x with Cipher m => Some m | _ => None end |};
  {| v_discriminant := 3; v_codec := welcome_codec; v_make := WelcomePayload;
     v_match x := match x with WelcomePayload m => Some m | _ => None end |};
  {| v_discriminant := 4; v_codec := group_info_codec; v_make := GroupInfoPayload;
     v_match x := match x with GroupInfoPayload m => Some m | _ => None end |};
  {| v_discriminant := 5; v_codec := key_package_codec; v_make := KeyPackagePayload;
     v_match x := match x with KeyPackagePayload m => Some m | _ => None end |} ].

Record MlsMessage := { msg_version : Z; payload : MlsMessagePayload }.

Definition mls_message_codec : MlsCodec MlsMessage :=
  struct_codec (λ m, (msg_version m, payload m)) (λ p, {| msg_version := p.1; payload := p.2 |})
    (tuple_codec u16_codec (enum_codec u16_codec payload_variants)).

Definition message_wire_format (m : MlsMessage) : WireFormat :=
  match payload m with
  | Plain _ => WirePublicMessage
  | Cipher _ => WirePrivateMessage
  | WelcomePayload _ => WireWelcome
  | GroupInfoPayload _ => WireGroupInfo
  | KeyPackagePayload _ => WireKeyPackage
  end.

Definition message_epoch (m : MlsMessage) : option Z :=
  match payload m with
  | Plain p => Some (fc_epoch (pm_content p))
  | Cipher c => Some (pr_epoch c)
  | GroupInfoPayload g => Some (epoch (gi_group_context g))
  | _ => None
  end.

Definition message_cipher_suite (m : MlsMessage) : option Z :=
  match payload m with
  | GroupInfoPayload g => Some (gc_cipher_suite (gi_group_context g))
  | WelcomePayload w => Some (w_cipher_suite w)
  | KeyPackagePayload k => Some (kp_cipher_suite k)
  | _ => None
  end.

Definition message_group_id (m : MlsMessage) : option bytes :=
  match payload m with
  | Plain p => Some (fc_group_id (pm_content p))
  | Cipher p => Some (pr_group_id p)
  | GroupInfoPayload p => Some (group_id (gi_group_context p))
  | KeyPackagePayload _ | WelcomePayload _ => None
  end.

Definition from_bytes (b : bytes) : Result MlsError MlsMessage :=
  from_codec_error ('(m, _) ← mls_decode mls_message_codec b; Ok m).
Definition to_bytes (m : MlsMessage) : Result MlsError bytes :=
  from_codec_error (mls_encode_to_vec mls_message_codec m).

(** [custom_proposals_by_value] and [welcome_key_package_references]. *)
Definition find_custom_proposals (c : Commit) : list CustomProposal :=
  omap (λ p, match p with ProposalByValue (Custom p) => Some p | _ => None end) (commit_proposals c).
Definition custom_proposals_by_value (m : MlsMessage) : list CustomProposal :=
  match payload m with
  | Plain p => match fc_content (pm_content p) with CommitContent c => find_custom_proposals c | _ => [] end
  | _ => []
  end.
Definition welcome_key_package_references (m : MlsMessage) : list bytes :=
  match payload m with WelcomePayload w => new_member <$> w_secrets w | _ => [] end.

(** * Round trips *)
Module FramingLaws.


#[export] Instance content_type_laws : CodecLaws content_type_codec (λ _, True).
Proof. solve_enum content_type_variants (λ _ : ContentType, True). Qed.

#[export] Instance wire_format_laws : CodecLaws wire_format_codec (λ _, True).
Proof.
  apply (enum_laws _ wire_format_variants u16_codec is_u16).
  - unfold wire_format_variants. rewrite !Forall_cons, Forall_nil. split_and!; [split..|done]; cbn;
      first [by intros [] | by (intros [] ?; intros [= <-]) | by (intros [] []) | apply _].
  - unfold wire_format_variants. rewrite !Forall_cons, Forall_nil. unfold is_u16. cbn. lia.
  - cbn. repeat constructor; set_solver.
  - intros [] _; cbn; repeat (first [apply Exists_cons_hd; by eexists | apply Exists_cons_tl]).
  - intros v1 v2 x H1 H2. unfold wire_format_variants in *. rewrite !elem_of_cons, elem_of_nil in H1, H2.
    repeat match goal with H : _ ∨ _ |- _ => destruct H end; subst; cbn; try done; by intros [].
Qed.

#[export] Instance hpke_ciphertext_laws : CodecLaws hpke_ciphertext_codec (λ _, True).
Proof.
  eapply laws_iff; [apply struct_laws; [by intros []|by intros (?&?)|typeclasses eauto]|]. intros []. cbn. tauto.
Qed.

#[export] Instance hpke_ciphertext_nonempty : NonEmpty hpke_ciphertext_codec (λ _, True).
Proof. intros [] _. apply (tuple_nonempty byte_vec_codec byte_vec_codec (λ _, True) (λ _, True) _ _ (_, _)). done. Qed.

#[export] Instance update_path_node_laws : CodecLaws Kem.update_path_node_codec (λ _, True).
Proof.
  eapply laws_iff; [apply struct_laws; [by intros []|by intros (?&?)|]|].
  - apply (tuple_laws byte_vec_codec (vec_codec hpke_ciphertext_codec) (λ _, True) (Forall (λ _, True))); apply _.
  - intros []. cbn. split; [|done]. intros _. split; [done|]. by apply Forall_true.
Qed.

#[export] Instance update_path_node_nonempty : NonEmpty Kem.update_path_node_codec (λ _, True).
Proof.
  intros [] _. apply (tuple_nonempty byte_vec_codec (vec_codec hpke_ciphertext_codec) (λ _, True) (Forall (λ _, True)) _ _ (_, _)).
  cbn. split; [done|]. by apply Forall_true.
Qed.

Definition update_path_wf (p : Kem.UpdatePath) : Prop := leaf_node_wf (Kem.up_leaf_node p).

#[export] Instance update_path_laws : CodecLaws Kem.update_path_codec update_path_wf.
Proof.
  eapply laws_iff; [apply struct_laws; [by intros []|by intros (?&?)|]|].
  - apply (tuple_laws leaf_node_codec (vec_codec Kem.update_path_node_codec) leaf_node_wf (Forall (λ _, True))); apply _.
  - intros []. unfold update_path_wf. cbn. split; [|by intros [? _]]. intros H. split; [done|]. by apply Forall_true.
Qed.

(** Proposals only round-trip. *)
Lemma tagged_writer {A} (c : MlsCodec A) wf `{!CodecLaws c wf} ty a w :
  (w ← mls_encode u16_codec ty w; mls_encode c a w) = app w <$> (w ← mls_encode u16_codec ty []; mls_encode c a w).
Proof.
  rewrite (encode_writer ty). destruct (mls_encode u16_codec ty []) as [x| | |]; cbn [mbind result_bind fmap result_fmap]; try done.
  rewrite encode_writer, (encode_writer a x). destruct (mls_encode c a []); cbn; try done. by rewrite app_assoc.
Qed.

#[export] Instance proposal_wire : WireLaws proposal_codec proposal_wf.
Proof.
  split.
  - intros p w. cbn [proposal_codec mls_encode]. destruct p as [x|x|x|x|x|x|x|[ty d]]; cbn [proposal_type custom_type custom_data];
      try case_match; try done; eapply tagged_writer; apply _.
  - intros p bs Hp Hbs. by apply (proposal_roundtrip p bs []).
  - intros p bs rest Hp Hbs. by apply (proposal_roundtrip p bs rest).
  - apply proposal_decode_settled.
  - intros r p rest H. cbn [proposal_codec mls_decode] in H. apply bind_ok in H as ([ty r1] & Hty & H).
    apply decode_sound in Hty as (_ & x & _ & ->). enough (∃ bs, r1 = bs ++ rest) as [bs ->] by (exists (x ++ bs); by rewrite <- app_assoc).
    repeat match type of H with (if ?b then _ else _) = _ => destruct b end;
      apply bind_ok in H as ([y r2] & Hx & [= <- <-]); apply decode_sound in Hx as (_ & bs & _ & ->); by exists bs.
Qed.

Definition proposal_or_ref_wf (p : ProposalOrRef) : Prop := match p with ProposalByValue p => proposal_wf p | Reference _ => True end.

Lemma proposal_or_ref_fields : Forall (λ v, ∃ wfx, WireLaws (v_codec v) wfx) proposal_or_ref_variants.
Proof. repeat constructor; cbn; [exists proposal_wf|exists (λ _, True)]; apply _. Qed.

#[export] Instance proposal_or_ref_wire : WireLaws proposal_or_ref_codec proposal_or_ref_wf.
Proof.
  apply (enum_wire _ _ _ is_u8); [apply _|apply proposal_or_ref_fields|]. intros [p|r].
  - enum_case proposal_or_ref_variants O p.
  - enum_case proposal_or_ref_variants (S O) r.
Qed.

#[export] Instance proposal_or_ref_nonempty : WireNonEmpty proposal_or_ref_codec.
Proof. apply (enum_nonempty_wire _ _ is_u8); [apply _|apply _|apply proposal_or_ref_fields]. Qed.

Definition commit_wf (c : Commit) : Prop :=
  Forall proposal_or_ref_wf (commit_proposals c) ∧ from_option update_path_wf True (commit_path c).

#[export] Instance commit_wire : WireLaws commit_codec commit_wf.
Proof.
  eapply wire_iff; [apply struct_wire; [by intros []|]; apply tuple_wire; [apply vec_wire; apply _|]|].
  - apply option_wire. apply _.
  - by intros [] [].
Qed.

Definition content_wf (c : Content) : Prop :=
  match c with ApplicationContent _ => True | ProposalContent p => proposal_wf p | CommitContent c => commit_wf c end.

Lemma content_fields : Forall (λ v, ∃ wfx, WireLaws (v_codec v) wfx) content_variants.
Proof. repeat constructor; cbn; [exists (λ _, True)|exists proposal_wf|exists commit_wf]; apply _. Qed.

#[export] Instance content_wire : WireLaws content_codec content_wf.
Proof.
  apply (enum_wire _ _ _ is_u8); [apply _|apply content_fields|]. intros [d|p|c].
  - enum_case content_variants O d.
  - enum_case content_variants (S O) p.
  - enum_case content_variants (S (S O)) c.
Qed.

Definition framed_content_wf (c : FramedContent) : Prop :=
  is_u64 (fc_epoch c) ∧ sender_wf (fc_sender c) ∧ content_wf (fc_content c).

#[export] Instance framed_content_wire : WireLaws framed_content_codec framed_content_wf.
Proof.
  eapply wire_iff; [apply struct_wire; [by intros []|]|].
  - repeat (eapply tuple_wire; [apply _|]). apply content_wire.
  - intros []. unfold framed_content_wf. cbn. tauto.
Qed.

(** The confirmation tag is there exactly for a commit. *)
Definition auth_data_wf (t : ContentType) (a : FramedContentAuthData) : Prop := is_Some (confirmation_tag a) ↔ t = CommitType.

#[export] Instance auth_data_wire t : WireLaws (auth_data_codec t) (auth_data_wf t).
Proof.
  eapply wire_iff; [apply struct_wire; [by intros []|]; apply tuple_wire; [apply _|apply present_wire; apply _]|].
  intros [s [tag|]] H; unfold auth_data_wf in H; cbn in *.
  - split; [done|]. split; [|done]. apply bool_decide_eq_true. apply H. by eexists.
  - split; [done|]. apply bool_decide_eq_false. intros ->. by destruct (proj2 H eq_refl).
Qed.

Definition authenticated_content_wf (a : AuthenticatedContent) : Prop :=
  framed_content_wf (content a) ∧ auth_data_wf (content_type (fc_content (content a))) (auth a).

#[export] Instance authenticated_content_wire : WireLaws authenticated_content_codec authenticated_content_wf.
Proof.
  eapply wire_iff; [apply struct_wire; [by intros []|]; apply tuple_wire; [apply _|]|].
  - apply (dep_wire framed_content_codec _ framed_content_wf (λ c, auth_data_wf (content_type (fc_content c)))); [apply _|intros; apply _].
  - intros [] []. cbn. done.
Qed.

(** A public message has a membership tag exactly when its sender is a member. *)
Definition public_message_wf (m : PublicMessage) : Prop :=
  framed_content_wf (pm_content m) ∧ auth_data_wf (content_type (fc_content (pm_content m))) (pm_auth m) ∧
  (is_Some (membership_tag m) ↔ ∃ i, fc_sender (pm_content m) = Member i).

#[export] Instance public_message_wire : WireLaws public_message_codec public_message_wf.
Proof.
  eapply wire_iff; [apply struct_wire; [by intros []|]|].
  - eapply (dep_wire framed_content_codec _ framed_content_wf); [apply _|]. intros a.
    apply (tuple_wire _ _ (auth_data_wf (content_type (fc_content a)))); [apply _|apply present_wire; apply _].
  - assert (∀ x, is_member x = true ↔ ∃ i, x = Member i) as Hm by (intros []; cbn; naive_solver).
    intros [c a [tag|]] (H1 & H2 & H3); cbn in *; rewrite <- Hm in H3; split_and!; try done; [apply H3; by eexists|].
    apply not_true_iff_false. intros H%H3. by destruct H.
Qed.

Definition private_message_wf (m : PrivateMessage) : Prop := is_u64 (pr_epoch m).

#[export] Instance private_message_laws : CodecLaws private_message_codec private_message_wf.
Proof.
  eapply laws_iff; [apply struct_laws; [by intros []|by intros (?&?&?&?&?&?)|typeclasses eauto]|].
  intros []. unfold private_message_wf. cbn. tauto.
Qed.

#[export] Instance private_content_aad_laws : CodecLaws private_content_aad_codec (λ a, is_u64 (aad_epoch a)).
Proof.
  eapply laws_iff; [apply struct_laws; [by intros []|by intros (?&?&?&?)|typeclasses eauto]|]. intros []. cbn. tauto.
Qed.

Definition group_info_wf (g : GroupInfo) : Prop :=
  group_context_wf (gi_group_context g) ∧ ext_list_wf (gi_extensions g) ∧ is_u32 (gi_signer g).

#[export] Instance group_info_laws : CodecLaws group_info_codec group_info_wf.
Proof.
  eapply laws_iff; [apply struct_laws; [by intros []|by intros (?&?&?&?&?)|typeclasses eauto]|].
  intros []. unfold group_info_wf. cbn. tauto.
Qed.

#[export] Instance encrypted_group_secrets_laws : CodecLaws encrypted_group_secrets_codec (λ _, True).
Proof.
  eapply laws_iff; [apply struct_laws; [by intros []|by intros (?&?)|typeclasses eauto]|]. intros []. cbn. tauto.
Qed.

#[export] Instance encrypted_group_secrets_nonempty : NonEmpty encrypted_group_secrets_codec (λ _, True).
Proof. intros [] _. apply (tuple_nonempty byte_vec_codec hpke_ciphertext_codec (λ _, True) (λ _, True) _ _ (_, _)). done. Qed.

Definition welcome_wf (w : Welcome) : Prop := is_u16 (w_cipher_suite w).

#[export] Instance welcome_laws : CodecLaws welcome_codec welcome_wf.
Proof.
  eapply laws_iff; [apply struct_laws; [by intros []|by intros (?&?&?)|]|].
  - apply (tuple_laws u16_codec (tuple_codec (vec_codec encrypted_group_secrets_codec) byte_vec_codec) is_u16
      (λ p, Forall (λ _, True) p.1 ∧ True)); [apply _|].
    apply (tuple_laws (vec_codec encrypted_group_secrets_codec) byte_vec_codec (Forall (λ _, True)) (λ _, True)); apply _.
  - intros []. unfold welcome_wf. cbn. split; [|tauto]. intros H. split_and!; [done| |done]. by apply Forall_true.
Qed.

Definition group_secrets_wf (g : GroupSecrets) : Prop := Forall psk_id_wf (psks g).

(** A format that does not accept the empty string writes at least a byte. *)
Lemma nonempty_by_decode {A} (c : MlsCodec A) wf e : CodecLaws c wf → mls_decode c [] = Err e → NonEmpty c wf.
Proof. intros Hc He a Ha Hbs. pose proof (decode_encode a [] [] Ha Hbs) as H. cbn in H. rewrite He in H. done. Qed.

#[export] Instance psk_id_nonempty : NonEmpty psk_id_codec psk_id_wf.
Proof. by eapply nonempty_by_decode; [apply _|]. Qed.

#[export] Instance group_secrets_laws : CodecLaws group_secrets_codec group_secrets_wf.
Proof.
  eapply laws_iff; [apply struct_laws; [by intros []|by intros (?&?&?)|]|].
  - apply (tuple_laws byte_vec_codec (tuple_codec (option_codec byte_vec_codec) (vec_codec psk_id_codec)) (λ _, True)
      (λ p, from_option (λ _, True) True p.1 ∧ Forall psk_id_wf p.2)); [apply _|].
    apply (tuple_laws (option_codec byte_vec_codec) (vec_codec psk_id_codec) (λ o, from_option (λ _, True) True o) (Forall psk_id_wf)); apply _.
  - intros [a [b|] c]; unfold group_secrets_wf; cbn; tauto.
Qed.

Definition payload_wf (p : MlsMessagePayload) : Prop :=
  match p with
  | Plain m => public_message_wf m
  | Cipher m => private_message_wf m
  | WelcomePayload w => welcome_wf w
  | GroupInfoPayload g => group_info_wf g
  | KeyPackagePayload k => key_package_wf k
  end.

Lemma payload_fields : Forall (λ v, ∃ wfx, WireLaws (v_codec v) wfx) payload_variants.
Proof.
  repeat constructor; cbn; [exists public_message_wf|exists private_message_wf|exists welcome_wf|exists group_info_wf|exists key_package_wf];
    apply _.
Qed.

#[export] Instance payload_wire : WireLaws (enum_codec u16_codec payload_variants) payload_wf.
Proof.
  apply (enum_wire _ _ _ is_u16); [apply _|apply payload_fields|]. intros [m|m|m|m|m].
  - enum_case payload_variants O m.
  - enum_case payload_variants (S O) m.
  - enum_case payload_variants (S (S O)) m.
  - enum_case payload_variants (S (S (S O))) m.
  - enum_case payload_variants (S (S (S (S O)))) m.
Qed.

Definition mls_message_wf (m : MlsMessage) : Prop := is_u16 (msg_version m) ∧ payload_wf (payload m).

#[export] Instance mls_message_wire : WireLaws mls_message_codec mls_message_wf.
Proof.
  eapply wire_iff; [apply struct_wire; [by intros []|]; apply tuple_wire; apply _|]. by intros [] [].
Qed.

(** ** The content of an encrypted message *)
Lemma content_decode_encode c bs rest :
  content_wf c → content_encode c [] = Ok bs → content_decode (content_type c) (bs ++ rest) = Ok (c, rest).
Proof.
  destruct c as [d|p|c]; cbn [content_wf content_encode content_decode content_type]; intros Hwf Hbs.
  - by rewrite (decode_encode d bs).
  - by rewrite (wire_decode p bs).
  - by rewrite (wire_decode c bs).
Qed.

Lemma existsb_zeros n : existsb (λ b, negb (bool_decide (b = byte.of_Z 0))) (replicate n (byte.of_Z 0)) = false.
Proof. induction n as [|n IH]; [done|]. cbn [replicate existsb]. by rewrite bool_decide_eq_true_2, IH. Qed.

Lemma private_content_roundtrip m bs n :
  content_wf (pmc_content m) → auth_data_wf (content_type (pmc_content m)) (pmc_auth m) → private_content_encode m = Ok bs →
  private_content_decode (content_type (pmc_content m)) (bs ++ replicate n (byte.of_Z 0)) = Ok m.
Proof.
  intros Hc Ha H. destruct m as [c a]. cbn [pmc_content pmc_auth] in *. unfold private_content_encode in H. cbn [pmc_content pmc_auth] in H.
  apply bind_ok in H as (x & Hx & H). rewrite wire_writer in H. apply fmap_ok in H as (y & Hy & <-).
  unfold private_content_decode. rewrite <- app_assoc, (content_decode_encode c x) by done. cbn [mbind result_bind].
  rewrite (wire_decode a y) by done. cbn [mbind result_bind]. by rewrite existsb_zeros.
Qed.

Lemma private_content_settled t r : settled (private_content_decode t r).
Proof.
  apply settled_bind.
  - destruct t; (apply settled_bind; [first [apply decode_settled|apply wire_settled]|by intros []]).
  - intros [c r1] _. apply settled_bind; [apply wire_settled|]. intros [a r2] _. by case_match.
Qed.

End FramingLaws.
Import FramingLaws.

(** C31. Messages survive the wire: what [to_bytes] writes for a well-formed
    message, [from_bytes] reads back, also with bytes after it; the computed
    length is the length written; and [from_bytes] never panics or loops, whatever
    it is given. *)
Theorem message_roundtrip (m : MlsMessage) (b rest junk : bytes) :
  mls_message_wf m → to_bytes m = Ok b →
  from_bytes (b ++ rest) = Ok m ∧ mls_encoded_len mls_message_codec m = Ok (len b) ∧ settled (from_bytes junk).
Proof.
  intros Hwf Hb. apply from_codec_ok in Hb. split_and!.
  - unfold from_bytes. by rewrite (wire_decode m b rest Hwf Hb).
  - by apply wire_len.
  - apply from_codec_settled, settled_bind; [apply wire_settled|by intros []].
Qed.

(** A commit with a removal, sent in the clear by member 1. *)
Definition sample_commit : MlsMessage := {|
  msg_version := 1;
  payload := Plain {|
    pm_content := {| fc_group_id := [byte.of_Z 7]; fc_epoch := 3; fc_sender := Member 1; fc_authenticated_data := [];
                     fc_content := CommitContent {| commit_proposals := [ProposalByValue (Remove 0)]; commit_path := None |} |};
    pm_auth := {| auth_signature := [byte.of_Z 1]; confirmation_tag := Some [byte.of_Z 2] |};
    membership_tag := Some [byte.of_Z 3] |} |}.

Lemma message_roundtrip_witness :
  ∃ b, to_bytes sample_commit = Ok b ∧ from_bytes (b ++ [byte.of_Z 9]) = Ok sample_commit.
Proof.
  destruct (to_bytes sample_commit) as [b| | |] eqn:E; [|vm_compute in E; discriminate..].
  exists b. split; [reflexivity|]. apply (message_roundtrip sample_commit b [byte.of_Z 9] []); [|exact E].
  split; [by vm_compute|]. split; [|split; [|split; by eexists]].
  - split; [by vm_compute|]. split; [by vm_compute|]. split; [|done]. constructor; [by vm_compute|constructor].
  - split; [done|by eexists].
Defined.
