(* ===== verification/Epoch.v ===== *)
(** * Epoch secrets (mls-rs/src/group/epoch.rs, secret_tree.rs, map.rs)

    What is kept of an epoch, and its storage format.  The format contains hash
    maps, which are written in their iteration order, so the same epoch can have
    several encodings: [MapOrder] is the order, of which only is known that it
    lists the entries.  The theorems: whatever the order, a stored epoch is read
    back; every state a secret tree reaches can be stored. *)
From Stdlib Require Import Strings.String.
From S2P Require Import Prelude Codec Wire TreeMath Types Crypto Labels GroupContext SecretTree.
Import LeafCodecs SecretTree.

(** ** Hash maps *)

(** The iteration order of [HashMap]. *)
Class MapOrder := {
  map_iter {K} `{Countable K} {V} : gmap K V → list (K * V);
  map_iter_perm {K} `{Countable K} {V} (m : gmap K V) : map_iter m ≡ₚ map_to_list m;
}.

#[export] Instance ascending : MapOrder :=
  {| map_iter K _ _ V m := map_to_list m; map_iter_perm K _ _ V m := reflexivity _ |}.

(** A map written as the items of its entries, and read by inserting the entry
    of each item. *)
Definition collection_codec {order : MapOrder} {K} `{Countable K} {V X} (item : K * V → X) (entry : X → K * V)
    (c : MlsCodec X) : MlsCodec (gmap K V) :=
  struct_codec (λ m, item <$> map_iter m) (foldl (λ m x, <[(entry x).1 := (entry x).2]> m) ∅) (vec_codec c).

Definition hash_map_codec {order : MapOrder} {K} `{Countable K} {V} (k : MlsCodec K) (c : MlsCodec V) : MlsCodec (gmap K V) :=
  collection_codec id id (tuple_codec k c).

Definition map_codec {order : MapOrder} {V} (c : MlsCodec V) : MlsCodec (gmap Z V) := hash_map_codec u32_codec c.

Section formats.
Context {order : MapOrder}.

Definition message_key_codec : MlsCodec MessageKeyData :=
  struct_codec (λ k, (nonce k, (key k, key_generation k)))
    (λ '(a, (b, c)), {| nonce := a; key := b; key_generation := c |})
    (tuple_codec byte_vec_codec (tuple_codec byte_vec_codec u32_codec)).

(** Only the keys of the history are written: each has its generation. *)
Definition ratchet_codec : MlsCodec SecretKeyRatchet :=
  struct_codec (λ r, (secret r, (generation r, history r)))
    (λ '(a, (b, c)), {| secret := a; generation := b; history := c |})
    (tuple_codec byte_vec_codec (tuple_codec u32_codec
      (collection_codec snd (λ k, (key_generation k, k)) message_key_codec))).

Definition ratchets_codec : MlsCodec SecretRatchets :=
  struct_codec (λ r, (application r, handshake r)) (λ p, {| application := p.1; handshake := p.2 |})
    (tuple_codec ratchet_codec ratchet_codec).

Definition secret_node_variants : list (Variant SecretTreeNode) := [
  {| v_discriminant := 0; v_codec := byte_vec_codec; v_make := Secret;
     v_match x := match x with Secret s => Some s | _ => None end |};
  {| v_discriminant := 1; v_codec := ratchets_codec; v_make := Ratchet;
     v_match x := match x with Ratchet r => Some r | _ => None end |} ].

Definition secret_node_codec : MlsCodec SecretTreeNode := enum_codec u8_codec secret_node_variants.

Definition secret_tree_codec : MlsCodec SecretTree.SecretTree :=
  struct_codec (λ t, (known_secrets t, leaf_count t)) (λ p, {| known_secrets := p.1; leaf_count := p.2 |})
    (tuple_codec (map_codec secret_node_codec) u32_codec).
End formats.

(** ** Epochs *)
Record EpochSecrets := {
  resumption_secret : bytes;
  sender_data_secret : bytes;
  secret_tree : SecretTree.SecretTree;
}.

Record PriorEpoch := {
  context : GroupContext;
  self_index : Z;
  epoch_secrets : EpochSecrets;
  signature_public_keys : list (option bytes);
}.

Definition epoch_id (e : PriorEpoch) : Z := epoch (context e).
Definition epoch_group_id (e : PriorEpoch) : bytes := group_id (context e).

Definition with_secrets (e : PriorEpoch) (s : EpochSecrets) : PriorEpoch := {|
  context := context e; self_index := self_index e; epoch_secrets := s;
  signature_public_keys := signature_public_keys e |}.

Section epochs.
Context {order : MapOrder}.

Definition epoch_secrets_codec : MlsCodec EpochSecrets :=
  struct_codec (λ e, (resumption_secret e, (sender_data_secret e, secret_tree e)))
    (λ '(a, (b, c)), {| resumption_secret := a; sender_data_secret := b; secret_tree := c |})
    (tuple_codec byte_vec_codec (tuple_codec byte_vec_codec secret_tree_codec)).

Definition prior_epoch_codec : MlsCodec PriorEpoch :=
  struct_codec (λ e, (context e, (self_index e, (epoch_secrets e, signature_public_keys e))))
    (λ '(a, (b, (c, d))), {| context := a; self_index := b; epoch_secrets := c; signature_public_keys := d |})
    (tuple_codec group_context_codec (tuple_codec u32_codec (tuple_codec epoch_secrets_codec
      (vec_codec (option_codec byte_vec_codec))))).
End epochs.

(** ** Well-formed states *)
Definition key_wf (k : MessageKeyData) : Prop := is_u32 (key_generation k).
Definition ratchet_wf (r : SecretKeyRatchet) : Prop :=
  is_u32 (generation r) ∧ map_Forall (λ g k, key_generation k = g ∧ is_u32 g) (history r).
Definition ratchets_wf (r : SecretRatchets) : Prop := ratchet_wf (application r) ∧ ratchet_wf (handshake r).
Definition secret_node_wf (n : SecretTreeNode) : Prop := match n with Secret _ => True | Ratchet r => ratchets_wf r end.
Definition secret_tree_wf (t : SecretTree.SecretTree) : Prop :=
  map_Forall (λ x n, is_u32 x ∧ secret_node_wf n) (known_secrets t) ∧ is_u32 (leaf_count t).
Definition epoch_secrets_wf (e : EpochSecrets) : Prop := secret_tree_wf (secret_tree e).
Definition prior_epoch_wf (e : PriorEpoch) : Prop :=
  group_context_wf (context e) ∧ is_u32 (self_index e) ∧ epoch_secrets_wf (epoch_secrets e).

(** ** Laws *)
Section laws.
Context {order : MapOrder}.

Lemma foldl_entries {K} `{Countable K} {V} (l : list (K * V)) (m : gmap K V) :
  NoDup l.*1 → (∀ k, k ∈ l.*1 → m !! k = None) →
  foldl (λ m x, <[x.1 := x.2]> m) m l = list_to_map l ∪ m.
Proof.
  revert m. induction l as [|[k v] l IH]; intros m Hnd Hnone; [symmetry; apply (left_id_L ∅ (∪))|].
  cbn [foldl fst snd]. cbn in Hnd. apply NoDup_cons in Hnd as [Hk Hnd]. rewrite IH; [|done|].
  - rewrite list_to_map_cons, <- insert_union_r, insert_union_l; [done|]. by apply not_elem_of_list_to_map_1.
  - intros x Hx. rewrite lookup_insert_ne by (intros ->; done). apply Hnone. cbn. by right.
Qed.

Lemma collect_iter {K} `{Countable K} {V X} (item : K * V → X) (entry : X → K * V) (m : gmap K V) :
  map_Forall (λ k v, entry (item (k, v)) = (k, v)) m →
  foldl (λ m x, <[(entry x).1 := (entry x).2]> m) ∅ (item <$> map_iter m) = m.
Proof.
  intros Hm. transitivity (foldl (λ (m : gmap K V) x, <[x.1 := x.2]> m) ∅ (map_iter m)).
  - assert (Forall (λ p, entry (item p) = p) (map_iter m)) as Hall.
    { apply Forall_forall. intros [k v]. rewrite map_iter_perm. intros Hk%elem_of_map_to_list. by apply Hm. }
    generalize (∅ : gmap K V). induction Hall as [|p l Hp _ IH]; intros m0; [done|]. cbn. rewrite Hp. apply IH.
  - rewrite foldl_entries.
    + rewrite (right_id_L ∅ (∪)). rewrite (list_to_map_proper _ (map_to_list m)); [apply list_to_map_to_list| |apply map_iter_perm].
      rewrite map_iter_perm. apply NoDup_fst_map_to_list.
    + rewrite map_iter_perm. apply NoDup_fst_map_to_list.
    + intros. apply lookup_empty.
Qed.

Lemma collection_wire {K} `{Countable K} {V X} (item : K * V → X) (entry : X → K * V) (c : MlsCodec X) (wf : X → Prop) :
  WireLaws c wf → WireNonEmpty c →
  WireLaws (collection_codec item entry c) (map_Forall (λ k v, entry (item (k, v)) = (k, v) ∧ wf (item (k, v)))).
Proof.
  intros Hc Hne. eapply view_wire; [|apply (vec_wire c wf)]. intros m Hm. split.
  - apply collect_iter. intros k v Hk. by apply Hm.
  - apply Forall_fmap, Forall_forall. intros [k v]. rewrite map_iter_perm. intros Hk%elem_of_map_to_list. by apply Hm.
Qed.
End laws.

Section instances.
Context {order : MapOrder}.

#[export] Instance message_key_laws : CodecLaws message_key_codec key_wf.
Proof.
  eapply laws_iff; [apply struct_laws; [by intros []|by intros (?&?&?)|typeclasses eauto]|].
  intros []. unfold key_wf. cbn. tauto.
Qed.

#[export] Instance byte_vec_first_nonempty {B} (c : MlsCodec B) wf : WireLaws c wf → WireNonEmpty (tuple_codec byte_vec_codec c).
Proof. intros Hc. apply (dep_nonempty _ (λ _, c) (λ _, wf)); [|done]. exact (codec_nonempty _ _ byte_vec_laws _). Qed.

Lemma struct_nonempty_wire {A B} (fields : B → A) (make : A → B) (c : MlsCodec A) : WireNonEmpty c → WireNonEmpty (struct_codec fields make c).
Proof. intros Hc r b rest H. apply bind_ok in H as ([a r1] & H1 & [= <- <-]). by apply Hc in H1. Qed.

#[export] Instance message_key_nonempty : WireNonEmpty message_key_codec.
Proof. apply struct_nonempty_wire. eapply byte_vec_first_nonempty. apply codec_wire. typeclasses eauto. Qed.

#[export] Instance ratchet_wire : WireLaws ratchet_codec ratchet_wf.
Proof.
  eapply wire_iff; [apply struct_wire; [by intros []|]|].
  - apply tuple_wire; [apply codec_wire, byte_vec_laws|]. apply tuple_wire; [apply codec_wire, u32_laws|].
    apply collection_wire; [apply codec_wire, message_key_laws|apply _].
  - intros r [Hg Hh]. cbn. split_and!; [done|done|]. intros g k [Hk Hw]%Hh. unfold key_wf. by rewrite Hk.
Qed.

#[export] Instance ratchets_wire : WireLaws ratchets_codec ratchets_wf.
Proof. eapply wire_iff; [apply struct_wire; [by intros []|apply tuple_wire; apply _]|]. done. Qed.

Lemma secret_node_fields : Forall (λ v : Variant SecretTreeNode, ∃ wfx, WireLaws (v_codec v) wfx) secret_node_variants.
Proof. repeat constructor; eexists; cbn; [apply codec_wire, byte_vec_laws|apply ratchets_wire]. Qed.

#[export] Instance secret_node_wire : WireLaws secret_node_codec secret_node_wf.
Proof.
  apply (enum_wire _ _ _ _ u8_laws); [apply secret_node_fields|]. intros [s|r].
  - enum_case secret_node_variants 0%nat s.
  - enum_case secret_node_variants 1%nat r.
Qed.

Lemma hash_map_wire {K} `{Countable K} {V} (k : MlsCodec K) (c : MlsCodec V) wfk wf :
  WireLaws k wfk → WireNonEmpty k → WireLaws c wf →
  WireLaws (hash_map_codec k c) (map_Forall (λ k v, wfk k ∧ wf v)).
Proof.
  intros Hk Hne Hc. eapply wire_iff; [apply collection_wire|].
  - apply tuple_wire; [apply Hk|apply Hc].
  - by apply (dep_nonempty _ (λ _, c) (λ _, wf)).
  - intros m Hm i v Hi. split; [done|]. by apply Hm.
Qed.

#[export] Instance map_wire {V} (c : MlsCodec V) wf :
  WireLaws c wf → WireLaws (map_codec c) (map_Forall (λ k v, is_u32 k ∧ wf v)).
Proof. intros Hc. apply hash_map_wire; [apply codec_wire, u32_laws|exact (codec_nonempty _ _ u32_laws _)|done]. Qed.

#[export] Instance secret_tree_wire : WireLaws secret_tree_codec secret_tree_wf.
Proof.
  eapply wire_iff; [apply struct_wire; [by intros []|]|].
  - apply tuple_wire; [apply map_wire, secret_node_wire|apply codec_wire, u32_laws].
  - done.
Qed.

#[export] Instance epoch_secrets_wire : WireLaws epoch_secrets_codec epoch_secrets_wf.
Proof.
  eapply wire_iff; [apply struct_wire; [by intros []|]|].
  - apply tuple_wire; [apply codec_wire, byte_vec_laws|]. apply tuple_wire; [apply codec_wire, byte_vec_laws|apply _].
  - done.
Qed.

#[export] Instance prior_epoch_wire : WireLaws prior_epoch_codec prior_epoch_wf.
Proof.
  eapply wire_iff; [apply struct_wire; [by intros []|]|].
  - apply tuple_wire; [apply codec_wire, group_context_laws|]. apply tuple_wire; [apply codec_wire, u32_laws|].
    apply tuple_wire; [apply _|]. apply codec_wire. typeclasses eauto.
  - intros e (H1 & H2 & H3). cbn. split_and!; try done. apply Forall_true. by intros [].
Qed.
End instances.

(** ** Every reachable state can be stored *)
Section reachable.
Context (csp : CipherSuiteProvider).

Lemma next_message_key_generation r k :
  (next_message_key csp r).1 = Ok k → key_generation k = generation r.
Proof.
  unfold next_message_key, st_lift. repeat (destruct (derive_secret _ _ _ _); cbn [st_bind fst]; try done).
  by intros [= <-].
Qed.

Lemma next_message_key_wf r : ratchet_wf r → ratchet_wf (next_message_key csp r).2.
Proof.
  intros [Hg Hh]. unfold next_message_key, st_lift. repeat (destruct (derive_secret _ _ _ _); cbn [st_bind snd]; try done).
  split; [apply u32_range|done].
Qed.

Lemma advance_wf fuel target r : ratchet_wf r → ratchet_wf (advance fuel csp r target).2.
Proof.
  revert r. induction fuel as [|fuel IH]; intros r Hr; cbn [advance]; case_match; try done.
  apply st_bind_state; [by apply next_message_key_wf|]. intros k Hk. apply IH.
  apply next_message_key_generation in Hk. pose proof (next_message_key_wf r Hr) as [Hg Hh]. split; [done|]. cbn.
  apply map_Forall_insert_2; [|done]. split; [done|]. rewrite Hk. apply Hr.
Qed.

Lemma get_message_key_wf target r : ratchet_wf r → ratchet_wf (get_message_key csp r target).2.
Proof.
  intros Hr. unfold get_message_key. case_match; [split; [apply Hr|by apply map_Forall_delete, Hr]|]. case_match; [done|].
  apply st_bind_state; [by apply advance_wf|]. intros _ _. by apply next_message_key_wf, advance_wf.
Qed.

Lemma ratchet_of_wf kt r : ratchets_wf r → ratchet_wf (ratchet_of kt r).
Proof. intros [??]. by destruct kt. Qed.

Lemma set_ratchet_wf kt r x : ratchets_wf r → ratchet_wf x → ratchets_wf (set_ratchet kt r x).
Proof. intros [??] ?. by destruct kt. Qed.

Lemma set_node_wf t x n : secret_tree_wf t → is_u32 x → secret_node_wf n → secret_tree_wf (set_node t x n).
Proof. intros [Hk Hl] Hx Hn. split; [|done]. by apply map_Forall_insert_2. Qed.

Lemma take_node_wf t x : secret_tree_wf t → secret_tree_wf (take_node t x).2.
Proof. intros [Hk Hl]. split; [|done]. by apply map_Forall_delete. Qed.

Lemma children_u32 x l r : is_u32 x → TreeMath.left x = Some l → TreeMath.right x = Some r → is_u32 l ∧ is_u32 r.
Proof.
  intros Hx. unfold TreeMath.left, TreeMath.right. case_match; [done|]. intros [= <-] [= <-].
  unfold TreeMath.left_unchecked, TreeMath.right_unchecked, shl32. auto using lxor_u32, u32_range.
Qed.

Lemma consume_node_wf t x : is_u32 x → secret_tree_wf t → secret_tree_wf (consume_node csp t x).2.
Proof.
  intros Hx Ht. pose proof (take_node_wf t x Ht) as Ht'. unfold consume_node. destruct (take_node t x) as [n t'].
  destruct (n ≫= into_secret) as [s|]; [|done]. unfold st_lift.
  destruct (TreeMath.left x) as [l|] eqn:El; [|done]. destruct (TreeMath.right x) as [r|] eqn:Er; [|done]. cbn [ok_or st_bind].
  destruct (children_u32 x l r Hx El Er).
  repeat (destruct (kdf_expand_with_label _ _ _ _ _); cbn [st_bind snd]; try done). by repeat apply set_node_wf.
Qed.

Lemma consume_path_wf t path :
  Forall (λ i, is_u32 (TreeMath.path i)) path → secret_tree_wf t → secret_tree_wf (consume_path csp t path).2.
Proof.
  intros Hp. revert t. induction Hp as [|i path Hi _ IH]; intros t Ht; [done|]. cbn [consume_path].
  apply st_bind_state; [by apply consume_node_wf|]. intros _ _. by apply IH, consume_node_wf.
Qed.
Lemma copath_u32 x n : is_u32 x → Forall (λ i, is_u32 (TreeMath.path i)) (TreeMath.direct_copath x n).
Proof.
  intros Hx. unfold TreeMath.direct_copath. destruct (TreeMath.is_in_tree _ _); [|done]. revert x Hx.
  assert (∀ x, is_u32 x → ∀ ps, TreeMath.parent_sibling x n = Some ps → is_u32 (TreeMath.parent ps)) as Hp.
  { intros x Hx ps. unfold TreeMath.parent_sibling. case_match; [done|]. intros [= <-]. cbn.
    apply lor_u32; [by apply land_u32|apply u32_range]. }
  generalize 32%nat as fuel. induction fuel as [|fuel IH]; intros x Hx; [constructor|]. cbn [TreeMath.copath_loop].
  destruct (TreeMath.parent_sibling x n) as [ps|] eqn:E; [|done]. pose proof (Hp x Hx ps E). constructor; [done|by apply IH].
Qed.

Lemma take_leaf_ratchet_wf t x : is_u32 x → secret_tree_wf t →
  secret_tree_wf (take_leaf_ratchet csp t x).2 ∧ ∀ r, (take_leaf_ratchet csp t x).1 = Ok r → ratchets_wf r.
Proof.
  intros Hx Ht. unfold take_leaf_ratchet.
  set (m := match take_node t x with (Some node, t0) => _ | _ => _ end).
  assert (secret_tree_wf m.2 ∧ ∀ n, m.1 = Ok n → secret_node_wf n) as [Hm Hn].
  { assert (∀ t n, secret_tree_wf t → (take_node t x).1 = Some n → secret_node_wf n) as Htake.
    { intros t0 n [Hk _] H. exact (proj2 (Hk _ _ H)). }
    pose proof (Htake t) as H1. pose proof (take_node_wf t x Ht) as H2. subst m. destruct (take_node t x) as [[n|] t1]; cbn [fst snd st_bind ok_or] in *.
    - split; [done|]. intros ? [= <-]. eauto.
    - pose proof (consume_path_wf t1 (rev (TreeMath.direct_copath x (leaf_count t1)))) as Hc.
      destruct (consume_path _ _ _) as [res t2]. cbn in Hc. specialize (Hc (Forall_rev (copath_u32 _ _ Hx)) H2).
      destruct res; cbn [st_bind fst snd]; [|by split..]. pose proof (Htake t2) as H3. pose proof (take_node_wf t2 x Hc) as H4.
      destruct (take_node t2 x) as [[n|] t3]; cbn [fst snd st_bind ok_or] in *; [|by split]. split; [done|]. intros ? [= <-]. eauto. }
  destruct m as [[n| | |] t1]; cbn [fst snd st_bind ok_or] in *; [|by split..]. specialize (Hn n eq_refl). destruct n as [s|r]; cbn; [|naive_solver].
  unfold st_lift. split; [done|]. cbn [fst]. intros r H. apply bind_ok in H as (a & Ha & H). apply bind_ok in H as (h & Hh & [= <-]).
  apply bind_ok in Ha as (? & _ & [= <-]). apply bind_ok in Hh as (? & _ & [= <-]). repeat split; cbn; try done; apply map_Forall_empty.
Qed.
End reachable.

(** C35. A secret tree of [u32] indices stays one whatever is asked of it, whether
    the request is served or fails, and the epoch it belongs to is read back
    from storage with nothing lost, in whatever order its hash maps were
    written. *)
Theorem secret_tree_storable {order : MapOrder} csp t leaf kt g e bs rest :
  is_u32 leaf → secret_tree_wf t →
  secret_tree_wf (tree_next_message_key csp t leaf kt).2 ∧
  secret_tree_wf (tree_message_key_generation csp t leaf kt g).2 ∧
  (prior_epoch_wf e → mls_encode prior_epoch_codec e [] = Ok bs → mls_decode prior_epoch_codec (bs ++ rest) = Ok (e, rest)).
Proof.
  intros Hx Ht. destruct (take_leaf_ratchet_wf csp t leaf Hx Ht) as [H1 H2]. split_and!; [| |apply wire_decode].
  - unfold tree_next_message_key. apply st_bind_state; [done|]. intros r Hr%H2. unfold ratchets_next_message_key.
    pose proof (next_message_key_wf csp (ratchet_of kt r) (ratchet_of_wf kt r Hr)) as Hk. destruct (next_message_key _ _) as [res x].
    apply st_bind_state; [done|]. intros k _. by apply set_node_wf, set_ratchet_wf.
  - unfold tree_message_key_generation. apply st_bind_state; [done|]. intros r Hr%H2. unfold ratchets_message_key_generation.
    pose proof (get_message_key_wf csp g (ratchet_of kt r) (ratchet_of_wf kt r Hr)) as Hk. destruct (get_message_key _ _ _) as [res x].
    apply st_bind_state; [done|]. intros k _. by apply set_node_wf, set_ratchet_wf.
Qed.

Lemma new_tree_wf n s : is_u32 n → secret_tree_wf (new_tree n s).
Proof. intros Hn. apply set_node_wf; [|apply u32_range|done]. split; [apply map_Forall_empty|done]. Qed.

(** A member of a group of four has sent one message. *)
Definition sample_epoch : PriorEpoch := {|
  context := new_group 1 1 sample_secret [] [];
  self_index := 0;
  epoch_secrets := {| resumption_secret := sample_secret; sender_data_secret := sample_secret;
    secret_tree := (tree_next_message_key toy_csp sample_secrets 0 Application).2 |};
  signature_public_keys := [Some sample_secret; None] |}.

Lemma secret_tree_storable_witness :
  ∃ bs, mls_encode (prior_epoch_codec (order:=ascending)) sample_epoch [] = Ok bs ∧
    mls_decode (prior_epoch_codec (order:=ascending)) (bs ++ [Byte.x00]) = Ok (sample_epoch, [Byte.x00]).
Proof.
  destruct (mls_encode (prior_epoch_codec (order:=ascending)) sample_epoch []) as [bs| | |] eqn:E;
    try (vm_compute in E; discriminate E).
  exists bs. split; [done|].
  assert (is_u32 0) as H0 by (unfold is_u32; lia). assert (secret_tree_wf sample_secrets) as Ht by (apply new_tree_wf; unfold is_u32; lia).
  destruct (secret_tree_storable (order:=ascending) toy_csp sample_secrets 0 Application 0 sample_epoch bs [Byte.x00] H0 Ht)
    as (H1 & _ & H3).
  apply H3; [|exact E]. split; [|split; [exact H0|exact H1]].
  unfold group_context_wf. cbn. unfold is_u16, is_u64. split_and!; try lia; repeat constructor; try done; set_solver.
Defined.
