(* ===== verification/KeySchedule.v ===== *)
(** * The key schedule (mls-rs/src/group/key_schedule.rs)

    From the last epoch's init secret and the commit secret come the joiner
    secret, which the welcome carries, and from it and the pre-shared keys the
    epoch secret and everything derived from it.  The theorems: with a provider as its
    interface documents it the derivation succeeds and gives the secrets of RFC 9420,
    section 8, to the committer, who starts from the last epoch, and to the joiner,
    who starts from the joiner secret; what the committer encrypts under the joiner
    secret the joiner decrypts; an external committer and the group agree on the
    init secret; distinct secrets of an epoch have distinct derivation inputs. *)
From Stdlib Require Import Strings.String.
From S2P Require Import Prelude Codec Wire TreeMath Types Crypto Labels GroupContext Kem SecretTree Epoch.

Record KeySchedule := {
  exporter_secret : bytes;
  authentication_secret : bytes;
  external_secret : bytes;
  membership_key : bytes;
  init_secret : bytes;
}.

#[global] Instance key_schedule_eq_dec : EqDecision KeySchedule.
Proof. solve_decision. Defined.

Definition key_schedule_codec : MlsCodec KeySchedule :=
  struct_codec
    (λ k, (exporter_secret k, (authentication_secret k, (external_secret k, (membership_key k, init_secret k)))))
    (λ '(a, (b, (c, (d, e)))),
       {| exporter_secret := a; authentication_secret := b; external_secret := c; membership_key := d; init_secret := e |})
    (tuple_codec byte_vec_codec (tuple_codec byte_vec_codec (tuple_codec byte_vec_codec
      (tuple_codec byte_vec_codec byte_vec_codec)))).

Record KeyScheduleDerivationResult := {
  key_schedule : KeySchedule;
  confirmation_key : bytes;
  joiner_secret : bytes;
  epoch_secrets : EpochSecrets;
}.

(** [KeySchedule::new]: the other secrets are empty. *)
Definition key_schedule_new (init : bytes) : KeySchedule := {|
  exporter_secret := []; authentication_secret := []; external_secret := []; membership_key := []; init_secret := init |}.

Section schedule.
Context (csp : CipherSuiteProvider).

(** [SecretsProducer::derive]. *)
Definition produce (epoch_secret label : bytes) : Result MlsError bytes := kdf_derive_secret csp epoch_secret label.

Definition from_epoch_secret (epoch_secret : bytes) (secret_tree_size : Z)
    : Result MlsError KeyScheduleDerivationResult :=
  resumption ← produce epoch_secret (ascii "resumption");
  sender_data ← produce epoch_secret (ascii "sender data");
  encryption ← produce epoch_secret (ascii "encryption");
  exporter ← produce epoch_secret (ascii "exporter");
  authentication ← produce epoch_secret (ascii "authentication");
  external ← produce epoch_secret (ascii "external");
  membership ← produce epoch_secret (ascii "membership");
  init ← produce epoch_secret (ascii "init");
  confirm ← produce epoch_secret (ascii "confirm");
  Ok {| key_schedule := {| exporter_secret := exporter; authentication_secret := authentication;
          external_secret := external; membership_key := membership; init_secret := init |};
        confirmation_key := confirm;
        joiner_secret := [];
        epoch_secrets := {| resumption_secret := resumption; sender_data_secret := sender_data;
          secret_tree := SecretTree.new_tree secret_tree_size encryption |} |}.

Definition get_pre_epoch_secret (psk_secret joiner_secret : bytes) : Result MlsError bytes :=
  crypto (csp_kdf_extract csp joiner_secret psk_secret).

Definition from_joiner (joiner_secret : bytes) (context : GroupContext) (secret_tree_size : Z) (psk_secret : bytes)
    : Result MlsError KeyScheduleDerivationResult :=
  epoch_seed ← get_pre_epoch_secret psk_secret joiner_secret;
  context ← from_codec_error (mls_encode_to_vec group_context_codec context);
  epoch_secret ← kdf_expand_with_label csp epoch_seed (ascii "epoch") context None;
  from_epoch_secret epoch_secret secret_tree_size.

Definition from_key_schedule (last : KeySchedule) (commit_secret : bytes) (context : GroupContext)
    (secret_tree_size : Z) (psk_secret : bytes) : Result MlsError KeyScheduleDerivationResult :=
  joiner_seed ← crypto (csp_kdf_extract csp (init_secret last) commit_secret);
  encoded ← from_codec_error (mls_encode_to_vec group_context_codec context);
  joiner ← kdf_expand_with_label csp joiner_seed (ascii "joiner") encoded None;
  r ← from_joiner joiner context secret_tree_size psk_secret;
  Ok {| key_schedule := key_schedule r; confirmation_key := confirmation_key r; joiner_secret := joiner;
        epoch_secrets := epoch_secrets r |}.

Definition from_random_epoch_secret (seed : bytes) (secret_tree_size : Z)
    : Result MlsError KeyScheduleDerivationResult :=
  epoch_secret ← crypto (csp_random_bytes csp seed (csp_kdf_extract_size csp));
  from_epoch_secret epoch_secret secret_tree_size.

Definition export_secret (k : KeySchedule) (label context : bytes) (n : Z) : Result MlsError bytes :=
  secret ← kdf_derive_secret csp (exporter_secret k) label;
  context_hash ← crypto (csp_hash csp context);
  kdf_expand_with_label csp secret (ascii "exported") context_hash (Some n).

(** ** External commits *)
Definition get_external_key_pair (k : KeySchedule) : Result MlsError (bytes * bytes) :=
  crypto (csp_kem_derive csp (external_secret k)).

(** [get_external_key_pair_ext]: the public key the group info carries. *)
Definition get_external_key_pair_ext (k : KeySchedule) : Result MlsError bytes :=
  '(_, external_pub) ← get_external_key_pair k; Ok external_pub.

Definition EXPORTER_CONTEXT : bytes := ascii "MLS 1.0 external init secret".

(** [InitSecret::encode_for_external] returns the init secret and the KEM output. *)
Definition encode_for_external (seed external_pub : bytes) : Result MlsError (bytes * bytes) :=
  '(kem_output, secret) ← crypto (csp_hpke_export_s csp seed external_pub EXPORTER_CONTEXT (csp_kdf_extract_size csp));
  Ok (secret, kem_output).

Definition decode_for_external (kem_output external_secret external_pub : bytes) : Result MlsError bytes :=
  crypto (csp_hpke_export_r csp kem_output external_secret external_pub EXPORTER_CONTEXT (csp_kdf_extract_size csp)).

Definition derive_for_external (k : KeySchedule) (kem_output : bytes) : Result MlsError KeySchedule :=
  '(secret, public) ← get_external_key_pair k;
  init ← decode_for_external kem_output secret public;
  Ok (key_schedule_new init).

(** ** The key of a welcome message *)
Record WelcomeSecret := { welcome_key : bytes; welcome_nonce : bytes }.

Definition get_welcome_secret (joiner_secret psk_secret : bytes) : Result MlsError bytes :=
  epoch_seed ← get_pre_epoch_secret psk_secret joiner_secret;
  kdf_derive_secret csp epoch_seed (ascii "welcome").

Definition from_joiner_secret (joiner_secret psk_secret : bytes) : Result MlsError WelcomeSecret :=
  welcome_secret ← get_welcome_secret joiner_secret psk_secret;
  key ← kdf_expand_with_label csp welcome_secret (ascii "key") [] (Some (csp_aead_key_size csp));
  nonce ← kdf_expand_with_label csp welcome_secret (ascii "nonce") [] (Some (csp_aead_nonce_size csp));
  Ok {| welcome_key := key; welcome_nonce := nonce |}.

Definition welcome_encrypt (w : WelcomeSecret) (plaintext : bytes) : Result MlsError bytes :=
  crypto (csp_aead_seal csp (welcome_key w) plaintext None (welcome_nonce w)).

Definition welcome_decrypt (w : WelcomeSecret) (ct : bytes) : Result MlsError bytes :=
  crypto (csp_aead_open csp (welcome_key w) ct None (welcome_nonce w)).
End schedule.

(** ** Facts *)
#[export] Instance key_schedule_laws : CodecLaws key_schedule_codec (λ _, True).
Proof.
  eapply laws_iff; [apply struct_laws; [by intros []|by intros (?&?&?&?&?)|typeclasses eauto]|].
  intros []. cbn. tauto.
Qed.

(** Everything but the joiner secret, which only the committer has. *)
Definition same_epoch (a b : KeyScheduleDerivationResult) : Prop :=
  key_schedule a = key_schedule b ∧ confirmation_key a = confirmation_key b ∧ epoch_secrets a = epoch_secrets b.

Section facts.
Context (csp : CipherSuiteProvider).

(** The labels of an epoch's secrets, and what each is derived from. *)
Definition epoch_labels : list bytes :=
  ascii <$> ["resumption"; "sender data"; "encryption"; "exporter"; "authentication"; "external"; "membership"; "init";
             "confirm"]%string.

Notation size := (csp_kdf_extract_size csp).

Lemma produce_ok (Hk : kdf_laws csp) epoch_secret label : len epoch_secret = size → label ∈ epoch_labels →
  ∃ b, produce csp epoch_secret label = Ok b ∧ len b = size.
Proof.
  intros Hs Hl. apply (kdf_expand_ok csp epoch_secret label [] None); [done|done|by left| |by vm_compute].
  revert label Hl. apply (Forall_forall (λ l, len l ≤ 2 ^ 16)). unfold epoch_labels. repeat constructor; by vm_compute.
Qed.

Lemma extract_ok (Hk : kdf_laws csp) salt ikm : ikm ≠ [] → ∃ b, crypto (csp_kdf_extract csp salt ikm) = Ok b ∧ len b = size.
Proof. intros Hi. destruct (kl_extract _ Hk salt ikm Hi) as (b & -> & Hb). by exists b. Qed.

(** *** The schedule of RFC 9420, section 8 *)

(** [DeriveSecret(secret, label)]. *)
Definition derives (secret : bytes) (label : string) (b : bytes) : Prop :=
  ∃ info, kdf_label size (ascii label) [] = Ok info ∧ csp_kdf_expand csp secret info size = inr b ∧ len b = size.

(** [ExpandWithLabel(secret, label, context, Nh)]. *)
Definition expands (secret : bytes) (label : string) (context b : bytes) : Prop :=
  ∃ info, kdf_label size (ascii label) context = Ok info ∧ csp_kdf_expand csp secret info size = inr b ∧ len b = size.

(** The secrets of an epoch by the table of the section, each of the size of the KDF. *)
Record epoch_of (epoch_secret : bytes) (n : Z) (r : KeyScheduleDerivationResult) : Prop := {
  eo_sender_data : derives epoch_secret "sender data" (sender_data_secret (epoch_secrets r));
  eo_encryption : ∃ b, derives epoch_secret "encryption" b ∧ secret_tree (epoch_secrets r) = SecretTree.new_tree n b;
  eo_exporter : derives epoch_secret "exporter" (exporter_secret (key_schedule r));
  eo_external : derives epoch_secret "external" (external_secret (key_schedule r));
  eo_confirm : derives epoch_secret "confirm" (confirmation_key r);
  eo_membership : derives epoch_secret "membership" (membership_key (key_schedule r));
  eo_resumption : derives epoch_secret "resumption" (resumption_secret (epoch_secrets r));
  eo_authentication : derives epoch_secret "authentication" (authentication_secret (key_schedule r));
  eo_init : derives epoch_secret "init" (init_secret (key_schedule r));
}.

(** The figure of the section: from the init secret of the last epoch, the commit
    secret, the pre-shared key secret and the encoded group context to the joiner
    secret, the welcome secret and the epoch secret. *)
Record schedule_of (init commit_secret psk context joiner welcome epoch_secret : bytes) : Prop := {
  so_joiner : ∃ b, csp_kdf_extract csp init commit_secret = inr b ∧ expands b "joiner" context joiner;
  so_member : ∃ b, csp_kdf_extract csp joiner psk = inr b ∧ derives b "welcome" welcome ∧ expands b "epoch" context epoch_secret;
}.

Lemma produced (Hk : kdf_laws csp) secret (label : string) b :
  len secret = size → len (ascii label) ≤ 2 ^ 16 → produce csp secret (ascii label) = Ok b → derives secret label b.
Proof.
  intros Hs Hl Hp. destruct (kdf_expand_ok csp secret (ascii label) [] None) as (b' & Hb' & Hlen); [done|done|by left|done|by vm_compute|].
  unfold produce, kdf_derive_secret in Hp. rewrite Hp in Hb'. injection Hb' as <-.
  apply bind_ok in Hp as (i & Hi%from_codec_ok & Hp). exists i. split_and!; [done| |done]. by destruct (csp_kdf_expand _ _ _ _); [|injection Hp as ->].
Qed.

Lemma expanded (Hk : kdf_laws csp) secret (label : string) context :
  len secret = size → len (ascii label) ≤ 2 ^ 16 → len context ≤ 2 ^ 16 →
  ∃ b, kdf_expand_with_label csp secret (ascii label) context None = Ok b ∧ expands secret label context b ∧ len b = size.
Proof.
  intros Hs Hl Hc. destruct (kdf_expand_ok csp secret (ascii label) context None) as (b & Hb & Hlen); [done|done|by left|done|done|].
  exists b. split_and!; [done| |done]. apply bind_ok in Hb as (i & Hi%from_codec_ok & Hb). exists i. split_and!; [done| |done].
  by destruct (csp_kdf_expand _ _ _ _); [|injection Hb as ->].
Qed.

Lemma from_epoch_secret_ok (Hk : kdf_laws csp) epoch_secret n : len epoch_secret = size →
  ∃ r, from_epoch_secret csp epoch_secret n = Ok r ∧ epoch_of epoch_secret n r.
Proof.
  intros Hs. unfold from_epoch_secret.
  repeat match goal with |- ∃ r, (_ ← produce csp ?e ?l; _) = _ ∧ _ =>
    let b := fresh "b" in let Hb := fresh "Hb" in
    destruct (produce_ok Hk e l Hs) as (b & Hb & _); [unfold epoch_labels; by eauto 10 using list_elem_of_here, list_elem_of_further|];
    rewrite Hb; apply produced in Hb; [cbn [mbind result_bind]|done|done|by vm_compute] end.
  eexists. split; [done|]. split; cbn; eauto.
Qed.

Lemma from_joiner_ok (Hk : kdf_laws csp) joiner context encoded n psk :
  psk ≠ [] → mls_encode_to_vec group_context_codec context = Ok encoded → len encoded ≤ 2 ^ 16 →
  ∃ member epoch_secret r, csp_kdf_extract csp joiner psk = inr member ∧ len member = size ∧
    expands member "epoch" encoded epoch_secret ∧ from_joiner csp joiner context n psk = Ok r ∧ epoch_of epoch_secret n r.
Proof.
  intros Hp Henc Hlen. unfold from_joiner, get_pre_epoch_secret. destruct (kl_extract _ Hk joiner psk Hp) as (seed & -> & Hs).
  cbn [crypto mbind result_bind]. rewrite Henc. cbn [from_codec_error map_err mbind result_bind].
  destruct (expanded Hk seed "epoch" encoded) as (e & -> & He & Hle); [done|by vm_compute|done|]. cbn [mbind result_bind].
  destruct (from_epoch_secret_ok Hk e n Hle) as (r & -> & Hr). by exists seed, e, r.
Qed.

(** The joiner secret of a commit is the whole difference between the members of
    the last epoch and the new ones. *)
Lemma from_key_schedule_joiner last commit_secret context n psk r :
  from_key_schedule csp last commit_secret context n psk = Ok r →
  ∃ r', from_joiner csp (joiner_secret r) context n psk = Ok r' ∧ same_epoch r r'.
Proof.
  intros H. repeat (apply bind_ok in H as (? & ? & H)). injection H as <-. eexists. split; [eassumption|]. done.
Qed.

(** The key of the welcome message, of the sizes that the cipher takes. *)
Lemma from_joiner_secret_ok (Hk : kdf_laws csp) joiner psk member :
  csp_kdf_extract csp joiner psk = inr member → len member = size →
  ∃ w welcome, from_joiner_secret csp joiner psk = Ok w ∧ derives member "welcome" welcome ∧
    len (welcome_key w) = csp_aead_key_size csp ∧ len (welcome_nonce w) = csp_aead_nonce_size csp.
Proof.
  intros Hm Hl. unfold from_joiner_secret, get_welcome_secret, get_pre_epoch_secret. rewrite Hm. cbn [crypto mbind result_bind].
  destruct (kdf_expand_ok csp member (ascii "welcome") [] None) as (s & Hs & Hsl); [done|done|by left|by vm_compute|by vm_compute|].
  fold (kdf_derive_secret csp member (ascii "welcome")) in Hs. rewrite Hs. apply produced in Hs; [|done|done|by vm_compute]. cbn [mbind result_bind].
  destruct (kdf_expand_ok csp s (ascii "key") [] (Some (csp_aead_key_size csp))) as (k & -> & Hkl);
    [done|done|right; by left|by vm_compute|by vm_compute|]. cbn [mbind result_bind].
  destruct (kdf_expand_ok csp s (ascii "nonce") [] (Some (csp_aead_nonce_size csp))) as (m & -> & Hml);
    [done|done|right; right; by left|by vm_compute|by vm_compute|]. cbn [mbind result_bind]. by do 2 eexists.
Qed.

Lemma welcome_decrypt_encrypt w pt ct : aead_pair csp → welcome_encrypt csp w pt = Ok ct → welcome_decrypt csp w ct = Ok pt.
Proof.
  intros Ha. unfold welcome_encrypt, welcome_decrypt. destruct (csp_aead_seal _ _ _ _ _) as [|c] eqn:E; [done|].
  intros [= <-]. by rewrite (Ha _ _ _ _ _ E).
Qed.

Lemma external_init_agrees k seed pub init kem :
  (∀ sk pk, get_external_key_pair csp k = Ok (sk, pk) → export_pair csp sk pk) →
  get_external_key_pair_ext csp k = Ok pub → encode_for_external csp seed pub = Ok (init, kem) →
  derive_for_external csp k kem = Ok (key_schedule_new init).
Proof.
  unfold get_external_key_pair_ext, derive_for_external, encode_for_external, decode_for_external.
  destruct (get_external_key_pair csp k) as [[sk pk]| | |]; try done. intros Hp [= <-]. cbn [mbind result_bind].
  destruct (csp_hpke_export_s _ _ _ _ _) as [|[out s]] eqn:E; [done|]. intros [= <- <-]. by rewrite (Hp sk pk eq_refl _ _ _ _ _ E).
Qed.
End facts.



(** External commits: the client that joins with the public key from a group
    info and the members that read its KEM output start the next epoch from the
    same init secret, so they derive the same next epoch. *)
Theorem external_commit_agrees csp k seed pub init kem commit_secret context n psk :
  (∀ sk pk, csp_kem_derive csp (external_secret k) = inr (sk, pk) → export_pair csp sk pk) →
  get_external_key_pair_ext csp k = Ok pub → encode_for_external csp seed pub = Ok (init, kem) →
  ∃ k', derive_for_external csp k kem = Ok k' ∧
    from_key_schedule csp k' commit_secret context n psk =
    from_key_schedule csp (key_schedule_new init) commit_secret context n psk.
Proof.
  intros Hp Hpub Henc. exists (key_schedule_new init). split; [|done]. eapply external_init_agrees; [|done..].
  intros sk pk. unfold get_external_key_pair. destruct (csp_kem_derive _ _) as [|[]] eqn:E; [done|]. intros [= <- <-]. by apply Hp.
Qed.

Lemma external_commit_agrees_witness :
  ∃ k', derive_for_external toy_csp {| exporter_secret := []; authentication_secret := []; external_secret := [Byte.x05];
          membership_key := []; init_secret := [] |} [Byte.x09] = Ok k' ∧
    from_key_schedule toy_csp k' [] (new_group 1 1 [] [] []) 2 [] =
    from_key_schedule toy_csp (key_schedule_new [Byte.x05; Byte.x09]) [] (new_group 1 1 [] [] []) 2 [].
Proof.
  apply (external_commit_agrees toy_csp _ [Byte.x09] [Byte.x05]); [intros sk pk; apply toy_export|reflexivity|vm_compute; reflexivity].
Defined.

(** Secrets derived one after the other. *)
Lemma produce_all csp epoch_secret ls bs :
  Forall2 (λ l b, produce csp epoch_secret l = Ok b) ls bs →
  ∃ infos, mapM_res (λ l, kdf_label (csp_kdf_extract_size csp) l []) ls = Ok infos ∧ (NoDup ls → NoDup infos) ∧
    mapM_res (λ i, crypto (csp_kdf_expand csp epoch_secret i (csp_kdf_extract_size csp))) infos = Ok bs.
Proof.
  induction 1 as [|l b ls bs Hl _ (infos & Hi & Hnd & Hb)]; [by exists []|].
  apply kdf_derive_inv in Hl as (i & Hl & He). exists (i :: infos). cbn [mapM_res]. rewrite Hl, Hi, He. cbn [mbind result_bind].
  rewrite Hb. split_and!; [done| |done]. intros [Hnin Hls]%NoDup_cons. apply NoDup_cons. split; [|auto].
  intros Hin. apply Hnin. clear -Hin Hl Hi. revert infos Hi Hin. induction ls as [|l' ls IH]; intros infos Hi Hin.
  - injection Hi as <-. by apply not_elem_of_nil in Hin.
  - apply bind_ok in Hi as (i' & Hi' & Hi). apply bind_ok in Hi as (is' & His & [= <-]).
    apply elem_of_cons in Hin as [<-|Hin]; [|right; eauto].
    destruct (kdf_label_inj _ _ _ _ _ _ Hl Hi') as [-> _]. by left.
Qed.

(** The nine secrets of an epoch come from pairwise different inputs of the key
    derivation function: under the label of each, of which no two encode alike. *)
Theorem epoch_secrets_separate csp epoch_secret n r :
  from_epoch_secret csp epoch_secret n = Ok r →
  ∃ infos, mapM_res (λ l, kdf_label (csp_kdf_extract_size csp) l []) epoch_labels = Ok infos ∧ NoDup infos ∧
    mapM_res (λ i, crypto (csp_kdf_expand csp epoch_secret i (csp_kdf_extract_size csp))) infos =
    Ok [resumption_secret (epoch_secrets r); sender_data_secret (epoch_secrets r);
        default [] (SecretTree.known_secrets (secret_tree (epoch_secrets r)) !! TreeMath.root n ≫= SecretTree.into_secret);
        exporter_secret (key_schedule r); authentication_secret (key_schedule r); external_secret (key_schedule r);
        membership_key (key_schedule r); init_secret (key_schedule r); confirmation_key r].
Proof.
  intros H. unfold from_epoch_secret in H. repeat (apply bind_ok in H as (? & ? & H)). injection H as <-.
  cbn [epoch_secrets key_schedule confirmation_key resumption_secret sender_data_secret exporter_secret authentication_secret
       external_secret membership_key init_secret secret_tree SecretTree.known_secrets SecretTree.new_tree SecretTree.set_node].
  rewrite lookup_insert_eq. cbn [mbind option_bind SecretTree.into_secret default].
  match goal with |- context [Ok ?l] => destruct (produce_all csp epoch_secret epoch_labels l) as (infos & Hi & Hnd & Hb) end.
  - unfold epoch_labels. repeat (constructor; [assumption|]). constructor.
  - exists infos. split_and!; [exact Hi| |exact Hb]. apply Hnd. apply (bool_decide_unpack (NoDup epoch_labels)). by vm_compute.
Qed.

Lemma epoch_secrets_separate_witness :
  ∃ r, from_epoch_secret toy_csp [Byte.x01; Byte.x02] 2 = Ok r ∧
  ∃ infos, mapM_res (λ l, kdf_label 2 l []) epoch_labels = Ok infos ∧ NoDup infos.
Proof.
  destruct (from_epoch_secret toy_csp [Byte.x01; Byte.x02] 2) as [r| | |] eqn:E; try (vm_compute in E; discriminate E).
  exists r. split; [reflexivity|].
  destruct (epoch_secrets_separate toy_csp _ _ _ E) as (infos & Hi & Hnd & _). exists infos. split; [exact Hi|exact Hnd].
Defined.
