(* ===== verification/Storage.v ===== *)
(** * Storage (mls-rs-core/src/group/group_state.rs, key_package.rs, psk.rs,
    mls-rs/src/storage_provider/in_memory)

    The storage traits, as classes; what the group relies on, as the class
    [GroupStateStorageLaws]; and the in-memory implementation, which is shown to
    satisfy it.  The implementation finds an epoch by its distance from the
    oldest one it keeps: that is right as long as the stored epochs are
    consecutive. *)
From S2P Require Import Prelude Codec Types.

(** ** The traits *)
Record EpochRecord := { record_id : Z; record_data : bytes }.

(** [mls_rs_core::group::GroupState]. *)
Record StoredState := { stored_id : bytes; stored_data : bytes }.

Class GroupStateStorage (S : Type) := {
  storage_state : S → bytes → AnyError + option bytes;
  storage_epoch : S → bytes → Z → AnyError + option bytes;
  storage_write : S → StoredState → list EpochRecord → list EpochRecord → (AnyError + unit) * S;
  storage_max_epoch_id : S → bytes → AnyError + option Z;
}.

Record KeyPackageData := { key_package_bytes : bytes; init_key : bytes; leaf_node_key : bytes; expiration : Z }.

Class KeyPackageStorage (K : Type) := {
  kp_delete : K → bytes → (AnyError + unit) * K;
  kp_insert : K → bytes → KeyPackageData → (AnyError + unit) * K;
  kp_get : K → bytes → AnyError + option KeyPackageData;
}.

Class PreSharedKeyStorage (P : Type) := { psk_get : P → bytes → AnyError + option bytes }.

(** ** Consecutive lists *)
Definition consecutive {A} (id : A → Z) (l : list A) : Prop :=
  ∀ i j a b, l !! i = Some a → l !! j = Some b → id b - id a = Z.of_nat j - Z.of_nat i.

Definition find_id {A} (id : A → Z) (n : Z) (l : list A) : option A := snd <$> list_find (λ a, id a = n) l.

(** Replace the element with the same number. *)
Definition update_id {A} (id : A → Z) (l : list A) (u : A) : list A := (λ a, if decide (id a = id u) then u else a) <$> l.

Arguments find_id : simpl never.
Arguments update_id : simpl never.

Section consecutive.
Context {A} (id : A → Z).

Lemma find_id_Some n l a : find_id id n l = Some a → id a = n ∧ ∃ i, l !! i = Some a.
Proof. unfold find_id. intros ([i x] & Hf & ->)%fmap_Some. apply list_find_Some in Hf as (Hi & Hn & _). eauto. Qed.

Lemma find_id_None n l : find_id id n l = None ↔ Forall (λ a, id a ≠ n) l.
Proof. unfold find_id. rewrite fmap_None. apply list_find_None. Qed.

Lemma find_id_unique_nodup n l i a : NoDup (id <$> l) → l !! i = Some a → id a = n → find_id id n l = Some a.
Proof.
  intros Hnd Hi Hn. destruct (find_id id n l) as [b|] eqn:E.
  - apply find_id_Some in E as [Hb [j Hj]]. enough (i = j) as -> by congruence.
    eapply (NoDup_lookup (id <$> l)); [done|..]; rewrite list_lookup_fmap; [by rewrite Hi|]. rewrite Hj. cbn. congruence.
  - apply find_id_None in E. by eapply Forall_lookup_1 in E; [|done].
Qed.

Lemma consecutive_NoDup l : consecutive id l → NoDup (id <$> l).
Proof.
  intros Hc. apply NoDup_alt. intros i j x Hi Hj. rewrite list_lookup_fmap in Hi, Hj.
  apply fmap_Some in Hi as (a & Hi & ->). apply fmap_Some in Hj as (b & Hj & Hab). pose proof (Hc _ _ _ _ Hi Hj). lia.
Qed.

Lemma find_id_unique n l i a : consecutive id l → l !! i = Some a → id a = n → find_id id n l = Some a.
Proof. intros Hc. by apply find_id_unique_nodup, consecutive_NoDup. Qed.

(** Finding by distance from the first. *)
Lemma consecutive_index n l a :
  consecutive id l → head l = Some a → id a ≤ n → l !! Z.to_nat (n - id a) = find_id id n l.
Proof.
  intros Hc Ha Hn. assert (l !! 0%nat = Some a) as H0 by (by destruct l).
  destruct (l !! Z.to_nat (n - id a)) as [b|] eqn:E.
  - symmetry. apply (find_id_unique _ _ _ _ Hc E). pose proof (Hc _ _ _ _ H0 E). lia.
  - symmetry. apply find_id_None, Forall_forall. intros x [j Hj]%list_elem_of_lookup <-.
    pose proof (Hc _ _ _ _ H0 Hj) as Hj'. rewrite Hj' in E. replace (Z.to_nat (Z.of_nat j - Z.of_nat 0)) with j in E by lia. congruence.
Qed.

Lemma consecutive_before n l a : consecutive id l → head l = Some a → n < id a → find_id id n l = None.
Proof.
  intros Hc Ha Hn. assert (l !! 0%nat = Some a) as H0 by (by destruct l). apply find_id_None, Forall_forall.
  intros x [j Hj]%list_elem_of_lookup. pose proof (Hc _ _ _ _ H0 Hj). lia.
Qed.

Lemma consecutive_drop k l : consecutive id l → consecutive id (drop k l).
Proof. intros Hc i j a b. rewrite !lookup_drop. intros Hi Hj. pose proof (Hc _ _ _ _ Hi Hj). lia. Qed.

Lemma consecutive_snoc l a :
  consecutive id l → (∀ b, last l = Some b → id a = id b + 1) → consecutive id (l ++ [a]).
Proof.
  intros Hc Hl. assert (∀ i x, l !! i = Some x → id a - id x = Z.of_nat (length l) - Z.of_nat i) as Hpos.
  { intros i x Hx. destruct (last l) as [b|] eqn:E; [|by apply last_None in E; subst].
    specialize (Hl b eq_refl). rewrite last_lookup in E. pose proof (Hc _ _ _ _ Hx E). pose proof (lookup_lt_Some _ _ _ E). lia. }
  intros i j x y Hi Hj.
  assert (∀ k z, (l ++ [a]) !! k = Some z → l !! k = Some z ∨ (k = length l ∧ z = a)) as Hsplit.
  { intros k z Hk. apply lookup_app_Some in Hk as [Hk|[Hk H]]; [by left|]. right.
    apply list_lookup_singleton_Some in H as [H ->]. split; [lia|done]. }
  destruct (Hsplit _ _ Hi) as [Hi'|[-> ->]], (Hsplit _ _ Hj) as [Hj'|[-> ->]].
  - by apply Hc.
  - by apply Hpos.
  - pose proof (Hpos _ _ Hj'). lia.
  - lia.
Qed.

Lemma consecutive_app_l l k : consecutive id (l ++ k) → consecutive id l.
Proof. intros Hc i j a b Hi Hj. apply Hc; by apply lookup_app_l_Some. Qed.

Lemma consecutive_app_r l k : consecutive id (l ++ k) → consecutive id k.
Proof. intros Hc. rewrite <- (drop_app_length l k). by apply consecutive_drop. Qed.

Lemma consecutive_ids l k : (id <$> l) = (id <$> k) → consecutive id l → consecutive id k.
Proof.
  intros E Hc i j a b Hi Hj.
  assert (∀ n x, k !! n = Some x → ∃ y, l !! n = Some y ∧ id y = id x) as H.
  { intros n x Hx. assert ((id <$> l) !! n = Some (id x)) as H by (by rewrite E, list_lookup_fmap, Hx).
    rewrite list_lookup_fmap in H. apply fmap_Some in H as (y & Hy & ->). by exists y. }
  destruct (H _ _ Hi) as (x & Hx & <-), (H _ _ Hj) as (y & Hy & <-). by apply Hc.
Qed.

Lemma update_id_ids l u : id <$> update_id id l u = id <$> l.
Proof. unfold update_id. rewrite <- list_fmap_compose. apply list_fmap_ext. intros i a _. cbn. case_decide; congruence. Qed.

Lemma updates_ids us l : id <$> foldl (update_id id) l us = id <$> l.
Proof. revert l. induction us as [|u us IH]; intros l; cbn [foldl]; [done|]. by rewrite IH, update_id_ids. Qed.

(** Updating in place by distance from the first. *)
Lemma update_by_index l a u :
  consecutive id l → head l = Some a → id a ≤ id u →
  <[Z.to_nat (id u - id a) := u]> l = update_id id l u.
Proof.
  intros Hc Ha Hle. assert (l !! 0%nat = Some a) as H0 by (by destruct l).
  apply list_eq. intros i. unfold update_id. rewrite list_lookup_fmap. destruct (l !! i) as [x|] eqn:E; cbn.
  - pose proof (Hc _ _ _ _ H0 E). case_decide as Hd.
    + replace (Z.to_nat (id u - id a)) with i by lia. apply list_lookup_insert_eq. by eapply lookup_lt_Some.
    + rewrite list_lookup_insert_ne by lia. done.
  - apply lookup_ge_None in E. apply lookup_ge_None. by rewrite length_insert.
Qed.

Lemma update_id_absent l u : Forall (λ a, id a ≠ id u) l → update_id id l u = l.
Proof.
  intros H. unfold update_id. rewrite <- (list_fmap_id l) at 2. apply list_fmap_ext. intros i a Hi.
  rewrite decide_False; [done|]. by eapply Forall_lookup_1 in H.
Qed.

Lemma find_id_cons n a l : find_id id n (a :: l) = if decide (id a = n) then Some a else find_id id n l.
Proof.
  unfold find_id. cbn [list_find]. case_decide; [done|]. by destruct (list_find _ l) as [[]|].
Qed.

Lemma find_id_app n l k : find_id id n (l ++ k) = match find_id id n l with Some a => Some a | None => find_id id n k end.
Proof. induction l as [|a l IH]; [done|]. cbn [app]. rewrite !find_id_cons, IH. by case_decide. Qed.

Lemma find_update n l u :
  find_id id n (update_id id l u) = (λ a, if decide (id a = id u) then u else a) <$> find_id id n l.
Proof.
  induction l as [|a l IH]; [done|]. unfold update_id in *. cbn [fmap list_fmap].
  rewrite !find_id_cons, IH. destruct (decide (id a = id u)); repeat case_decide; cbn; try congruence;
    rewrite ?decide_True, ?decide_False by congruence; done.
Qed.

Lemma find_updates n us l : NoDup (id <$> us) →
  find_id id n (foldl (update_id id) l us) = (λ a, default a (find_id id n us)) <$> find_id id n l.
Proof.
  revert l. induction us as [|u us IH]; intros l Hnd; cbn [foldl].
  - symmetry. apply option_fmap_id.
  - cbn in Hnd. apply NoDup_cons in Hnd as [Hu Hnd]. rewrite IH, find_update, find_id_cons by done.
    destruct (find_id id n l) as [a|] eqn:E; [|done]. cbn. apply find_id_Some in E as [Ha _].
    destruct (decide (id u = n)) as [Heq|Hne].
    + rewrite decide_True by congruence. destruct (find_id id n us) as [b|] eqn:Eb; [|done].
      apply find_id_Some in Eb as (Hb & i & Hi). exfalso. apply Hu. rewrite Heq, <- Hb.
      apply list_elem_of_fmap_2. by eapply list_elem_of_lookup_2.
    + by rewrite decide_False by congruence.
Qed.

(** A list of numbered elements is determined by the numbers and by what is found. *)
Lemma list_eq_find l k :
  consecutive id l → id <$> l = id <$> k → (∀ n, find_id id n l = find_id id n k) → l = k.
Proof.
  intros Hc Hids Hfind. pose proof (consecutive_ids _ _ Hids Hc) as Hc'. apply list_eq. intros i.
  assert (id <$> l !! i = id <$> k !! i) as H by (by rewrite <- !list_lookup_fmap, Hids).
  destruct (l !! i) as [a|] eqn:Ea, (k !! i) as [b|] eqn:Eb; simplify_eq/=; [|done].
  pose proof (find_id_unique (id a) l i a Hc Ea eq_refl) as H1. rewrite Hfind in H1.
  rewrite (find_id_unique (id a) k i b Hc' Eb) in H1 by done. congruence.
Qed.

(** Replacing an element by another with its number. *)
Lemma insert_update_id l i a u : NoDup (id <$> l) → l !! i = Some a → id u = id a → <[i := u]> l = update_id id l u.
Proof.
  intros Hnd Hi Hu. apply list_eq. intros j. unfold update_id. rewrite list_lookup_fmap.
  destruct (decide (i = j)) as [->|Hne].
  - rewrite list_lookup_insert_eq by (by eapply lookup_lt_Some). rewrite Hi. cbn. by rewrite decide_True.
  - rewrite list_lookup_insert_ne by done. destruct (l !! j) as [b|] eqn:Ej; [|done]. cbn. rewrite decide_False; [done|].
    intros Heq. apply Hne. eapply (NoDup_lookup (id <$> l)); [done|..]; rewrite list_lookup_fmap; [by rewrite Hi|].
    rewrite Ej. cbn. congruence.
Qed.
End consecutive.

(** ** What a group relies on

    [stored s g] are the epochs kept for group [g], oldest first, and [readable s]
    the numbers an epoch can be asked for under.  A write adds the new ones, replaces
    the updated ones and may drop the oldest. *)
Class GroupStateStorageLaws (S : Type) `{!GroupStateStorage S} := {
  stored : S → bytes → list EpochRecord;
  readable : S → Z → Prop;
  stored_epoch s g n : readable s n →
    consecutive record_id (stored s g) → storage_epoch s g n = inr (record_data <$> find_id record_id n (stored s g));
  stored_max s g : storage_max_epoch_id s g = inr (record_id <$> last (stored s g));
  stored_write s st inserts updates s' :
    consecutive record_id (stored s (stored_id st) ++ inserts) → storage_write s st inserts updates = (inr tt, s') →
    (∃ k, stored s' (stored_id st) = drop k (foldl (update_id record_id) (stored s (stored_id st) ++ inserts) updates)) ∧
    storage_state s' (stored_id st) = inr (Some (stored_data st));
  stored_frame s st inserts updates s' g :
    storage_write s st inserts updates = (inr tt, s') → g ≠ stored_id st →
    stored s' g = stored s g ∧ storage_state s' g = storage_state s g;
}.

(** ** In memory: group_state_storage.rs *)
Module InMemory.
Definition DEFAULT_EPOCH_RETENTION_LIMIT : Z := 3.

Record InMemoryGroupData := { state_data : bytes; epoch_data : list EpochRecord }.

Definition data_new (state_data : bytes) : InMemoryGroupData := {| state_data := state_data; epoch_data := [] |}.

(** [front().and_then(|e| epoch_id.checked_sub(e.id))]. *)
Definition get_epoch_data_index (d : InMemoryGroupData) (epoch_id : Z) : option Z :=
  e ← head (epoch_data d); if record_id e <=? epoch_id then Some (epoch_id - record_id e) else None.

Definition get_epoch (d : InMemoryGroupData) (epoch_id : Z) : option EpochRecord :=
  i ← get_epoch_data_index d epoch_id; epoch_data d !! Z.to_nat i.

Definition insert_epoch (d : InMemoryGroupData) (e : EpochRecord) : InMemoryGroupData :=
  {| state_data := state_data d; epoch_data := epoch_data d ++ [e] |}.

(** [get_mut_epoch] and the assignment; nothing happens out of range. *)
Definition update_epoch (d : InMemoryGroupData) (e : EpochRecord) : InMemoryGroupData :=
  match get_epoch_data_index d (record_id e) with
  | Some i => {| state_data := state_data d; epoch_data := <[Z.to_nat i := e]> (epoch_data d) |}
  | None => d
  end.

Fixpoint trim (l : list EpochRecord) (max_epoch_retention : Z) : list EpochRecord :=
  match l with
  | [] => []
  | _ :: t => if len l >? max_epoch_retention then trim t max_epoch_retention else l
  end.

Definition trim_epochs (d : InMemoryGroupData) (max_epoch_retention : Z) : InMemoryGroupData :=
  {| state_data := state_data d; epoch_data := trim (epoch_data d) max_epoch_retention |}.

Record InMemoryGroupStateStorage := { inner : gmap bytes InMemoryGroupData; max_epoch_retention : Z }.

Definition new : InMemoryGroupStateStorage := {| inner := ∅; max_epoch_retention := DEFAULT_EPOCH_RETENTION_LIMIT |}.

Definition with_max_epoch_retention (s : InMemoryGroupStateStorage) (n : Z) : Result MlsError InMemoryGroupStateStorage :=
  if n >? 0 then Ok {| inner := inner s; max_epoch_retention := n |} else Err NonZeroRetentionRequired.

Definition delete_group (s : InMemoryGroupStateStorage) (g : bytes) : InMemoryGroupStateStorage :=
  {| inner := delete g (inner s); max_epoch_retention := max_epoch_retention s |}.

Definition max_epoch_id (s : InMemoryGroupStateStorage) (g : bytes) : option Z :=
  d ← inner s !! g; record_id <$> last (epoch_data d).

Definition state (s : InMemoryGroupStateStorage) (g : bytes) : option bytes := state_data <$> inner s !! g.

Definition epoch (s : InMemoryGroupStateStorage) (g : bytes) (epoch_id : Z) : option bytes :=
  d ← inner s !! g; record_data <$> get_epoch d epoch_id.

Definition write (s : InMemoryGroupStateStorage) (st : StoredState) (inserts updates : list EpochRecord)
    : InMemoryGroupStateStorage :=
  let d := match inner s !! stored_id st with
           | Some d => {| state_data := stored_data st; epoch_data := epoch_data d |}
           | None => data_new (stored_data st)
           end in
  let d := foldl insert_epoch d inserts in
  let d := foldl update_epoch d updates in
  {| inner := <[stored_id st := trim_epochs d (max_epoch_retention s)]> (inner s);
     max_epoch_retention := max_epoch_retention s |}.

#[global] Instance storage : GroupStateStorage InMemoryGroupStateStorage := {|
  storage_state s g := inr (state s g);
  storage_epoch s g n := inr (epoch s g n);
  storage_write s st ins ups := (inr tt, write s st ins ups);
  storage_max_epoch_id s g := inr (max_epoch_id s g) |}.

Definition records (s : InMemoryGroupStateStorage) (g : bytes) : list EpochRecord := from_option epoch_data [] (inner s !! g).

Lemma trim_drop l n : ∃ k, trim l n = drop k l.
Proof.
  induction l as [|a l [k IH]]; [by exists 0%nat|]. cbn [trim]. case_match; [exists (S k); exact IH|by exists 0%nat].
Qed.

Lemma length_trim l n : 0 ≤ n → len (trim l n) ≤ n.
Proof. intros Hn. induction l as [|a l IH]; [done|]. cbn [trim]. rewrite Z.gtb_ltb. case_match eqn:E; [done|lia]. Qed.

Lemma insert_epochs_spec d es : foldl insert_epoch d es = {| state_data := state_data d; epoch_data := epoch_data d ++ es |}.
Proof.
  revert d. induction es as [|e es IH]; intros d; cbn [foldl]; [by destruct d; rewrite app_nil_r|].
  rewrite IH. cbn. by rewrite <- app_assoc.
Qed.

Lemma update_epoch_spec d e : consecutive record_id (epoch_data d) →
  update_epoch d e = {| state_data := state_data d; epoch_data := update_id record_id (epoch_data d) e |}.
Proof.
  intros Hc. unfold update_epoch, get_epoch_data_index. destruct (head (epoch_data d)) as [a|] eqn:Ea; cbn.
  - destruct (Z.leb_spec (record_id a) (record_id e)).
    + by rewrite (update_by_index _ _ a).
    + rewrite update_id_absent; [by destruct d|]. apply find_id_None. by apply (consecutive_before _ _ _ a).
  - apply head_None in Ea. destruct d as [sd ed]. cbn in *. by rewrite Ea.
Qed.

Lemma update_epochs_spec es d : consecutive record_id (epoch_data d) →
  foldl update_epoch d es = {| state_data := state_data d; epoch_data := foldl (update_id record_id) (epoch_data d) es |}.
Proof.
  revert d. induction es as [|e es IH]; intros d Hc; cbn [foldl]; [by destruct d|].
  rewrite update_epoch_spec by done. rewrite IH; [done|]. cbn.
  eapply consecutive_ids; [|exact Hc]. by rewrite update_id_ids.
Qed.

Lemma write_records s st ins ups :
  consecutive record_id (records s (stored_id st) ++ ins) →
  records (write s st ins ups) (stored_id st) =
  trim (foldl (update_id record_id) (records s (stored_id st) ++ ins) ups) (max_epoch_retention s).
Proof.
  unfold records. intros Hc. unfold write. cbn [inner]. rewrite lookup_insert_eq. cbn [from_option trim_epochs epoch_data].
  f_equal. rewrite insert_epochs_spec, update_epochs_spec; cbn [epoch_data]; by destruct (inner s !! stored_id st).
Qed.

#[global] Instance storage_laws : GroupStateStorageLaws InMemoryGroupStateStorage.
Proof.
  refine {| stored := records; readable _ _ := True |}.
  - intros s g n _ Hc. unfold records in *. cbn. unfold epoch, get_epoch, get_epoch_data_index. f_equal.
    destruct (inner s !! g) as [d|]; [|done]. cbn in *. destruct (head (epoch_data d)) as [a|] eqn:Ea; cbn.
    + destruct (Z.leb_spec (record_id a) n); cbn; [by rewrite (consecutive_index _ _ _ a)|].
      by rewrite (consecutive_before _ _ _ a).
    + apply head_None in Ea. by rewrite Ea.
  - intros s g. unfold records. cbn. unfold max_epoch_id. by destruct (inner s !! g).
  - intros s st ins ups s' Hc [= <-]. split.
    + rewrite write_records by done. apply trim_drop.
    + cbn. unfold state, write. cbn [inner]. rewrite lookup_insert_eq. cbn.
      rewrite insert_epochs_spec, update_epochs_spec; unfold records in Hc; cbn; by destruct (inner s !! stored_id st).
  - intros s st ins ups s' g [= <-] Hne. unfold records, write, state. cbn. unfold state. cbn.
    by rewrite lookup_insert_ne.
Defined.

(** key_package_storage.rs and psk_storage.rs. *)
Record InMemoryKeyPackageStorage := { packages : gmap bytes KeyPackageData }.

#[global] Instance key_packages : KeyPackageStorage InMemoryKeyPackageStorage := {|
  kp_delete k id := (inr tt, {| packages := delete id (packages k) |});
  kp_insert k id pkg := (inr tt, {| packages := <[id := pkg]> (packages k) |});
  kp_get k id := inr (packages k !! id) |}.

Record InMemoryPreSharedKeyStorage := { psk_map : gmap bytes bytes }.

#[global] Instance psk_storage : PreSharedKeyStorage InMemoryPreSharedKeyStorage := {|
  psk_get p id := inr (psk_map p !! id) |}.
End InMemory.
