(* ===== verification/StateRepo.v ===== *)
(** * The repository of past epochs (mls-rs/src/group/state_repo.rs)

    A group keeps its past epochs in three places: those not yet written, those
    read from storage and perhaps changed, and storage itself.  The abstract
    state is one list of consecutive epochs; the theorems show that each
    operation acts on that list, whatever is where, against the interface of a
    storage.  Two operations do not keep to it: a resumption secret is looked up
    by epoch number alone, so the number of another group's epoch finds this
    group's secret; and when the key package cannot be deleted after a write, the
    next write stores the same epochs again. *)
From S2P Require Import Prelude Codec Wire Types Crypto Labels Proposal GroupContext SecretTree Epoch Storage.

Record EpochStorageCommit := { inserts : list PriorEpoch; updates : list PriorEpoch }.

Record GroupStateRepository (S K : Type) := {
  pending_commit : EpochStorageCommit;
  pending_key_package_removal : option bytes;
  repo_group_id : bytes;
  storage : S;
  key_package_repo : K;
}.
Arguments pending_commit {S K}.
Arguments pending_key_package_removal {S K}.
Arguments repo_group_id {S K}.
Arguments storage {S K}.
Arguments key_package_repo {S K}.

(** [.map_err(|e| MlsError::GroupStorageError(e.into_any_error()))]. *)
Definition group_storage {A} (r : AnyError + A) : Result MlsError A :=
  match r with inl e => Err (GroupStorageError e) | inr a => Ok a end.

(** What [get_epoch_mut] returns: a reference into one of the two lists. *)
Inductive EpochRef := InInserts (i : nat) | InUpdates (i : nat).

Section repo.
Context {order : MapOrder} {S K : Type} `{!GroupStateStorage S} `{!KeyPackageStorage K}.
Notation Repo := (GroupStateRepository S K).

Definition with_pending (r : Repo) (c : EpochStorageCommit) : Repo := {|
  pending_commit := c; pending_key_package_removal := pending_key_package_removal r;
  repo_group_id := repo_group_id r; storage := storage r; key_package_repo := key_package_repo r |}.

Definition repo_new (group_id : bytes) (storage : S) (key_package_repo : K) (key_package_to_remove : option bytes) : Repo := {|
  pending_commit := {| inserts := []; updates := [] |}; pending_key_package_removal := key_package_to_remove;
  repo_group_id := group_id; storage := storage; key_package_repo := key_package_repo |}.

Definition find_max_id (r : Repo) : Result MlsError (option Z) :=
  match last (inserts (pending_commit r)) with
  | Some e => Ok (Some (epoch_id e))
  | None => group_storage (storage_max_epoch_id (storage r) (repo_group_id r))
  end.

Definition find_pending (r : Repo) (n : Z) : option nat :=
  fst <$> list_find (λ e, epoch_id e = n) (updates (pending_commit r)).

Definition decode_epoch (data : bytes) : Result MlsError PriorEpoch :=
  '(e, _) ← from_codec_error (mls_decode prior_epoch_codec data); Ok e.

Definition repo_resumption_secret (r : Repo) (psk_id : ResumptionPsk) : Result MlsError (option bytes) :=
  let others :=
    match find_pending r (psk_epoch psk_id) with
    | Some i =>
        match updates (pending_commit r) !! i with
        | Some e => Ok (Some (resumption_secret (epoch_secrets e)))
        | None => Panic
        end
    | None =>
        found ← group_storage (storage_epoch (storage r) (psk_group_id psk_id) (psk_epoch psk_id));
        match found with
        | Some data => e ← decode_epoch data; Ok (Some (resumption_secret (epoch_secrets e)))
        | None => Ok None
        end
    end in
  match head (inserts (pending_commit r)) with
  | Some first =>
      if epoch_id first <=? psk_epoch psk_id
      then Ok ((λ e, resumption_secret (epoch_secrets e)) <$>
               inserts (pending_commit r) !! Z.to_nat (psk_epoch psk_id - epoch_id first))
      else others
  | None => others
  end.

(** The second half of [get_epoch_mut]: the cached updates, and storage. *)
Definition get_stored_epoch (r : Repo) (n : Z) : Result MlsError (option EpochRef) * Repo :=
  match find_pending r n with
  | Some i => (Ok (Some (InUpdates i)), r)
  | None =>
      try found, r ← st_lift (group_storage (storage_epoch (storage r) (repo_group_id r) n)) r;
      match found with
      | Some data =>
          try e, r ← st_lift (decode_epoch data) r;
          let c := pending_commit r in
          (Ok (Some (InUpdates (length (updates c)))),
           with_pending r {| inserts := inserts c; updates := updates c ++ [e] |})
      | None => (Ok None, r)
      end
  end.

Definition get_epoch_mut (r : Repo) (n : Z) : Result MlsError (option EpochRef) * Repo :=
  match head (inserts (pending_commit r)) with
  | Some first =>
      if epoch_id first <=? n
      then let i := Z.to_nat (n - epoch_id first) in
           (Ok (if decide (i < length (inserts (pending_commit r)))%nat then Some (InInserts i) else None), r)
      else get_stored_epoch r n
  | None => get_stored_epoch r n
  end.

(** Reading and writing through the reference. *)
Definition deref (r : Repo) (x : EpochRef) : option PriorEpoch :=
  match x with
  | InInserts i => inserts (pending_commit r) !! i
  | InUpdates i => updates (pending_commit r) !! i
  end.

Definition store (r : Repo) (x : EpochRef) (e : PriorEpoch) : Repo :=
  let c := pending_commit r in
  with_pending r (match x with
    | InInserts i => {| inserts := <[i := e]> (inserts c); updates := updates c |}
    | InUpdates i => {| inserts := inserts c; updates := <[i := e]> (updates c) |}
    end).

Definition repo_insert (r : Repo) (e : PriorEpoch) : Result MlsError unit * Repo :=
  if bool_decide (epoch_group_id e ≠ repo_group_id r) then (Err GroupIdMismatch, r)
  else
    try max, r ← st_lift (find_max_id r) r;
    let push := (Ok tt, with_pending r {| inserts := inserts (pending_commit r) ++ [e]; updates := updates (pending_commit r) |}) in
    match max with
    | Some id => if epoch_id e =? wrap 64 (id + 1) then push else (Err InvalidEpoch, r)
    | None => push
    end.

Definition epoch_record (e : PriorEpoch) : Result MlsError EpochRecord :=
  data ← from_codec_error (mls_encode_to_vec prior_epoch_codec e);
  Ok {| record_id := epoch_id e; record_data := data |}.

(** The snapshot is given by its encoding and its group identifier. *)
Definition write_to_storage (r : Repo) (snapshot : Result Codec.Error bytes) (snapshot_group_id : bytes)
    : Result MlsError unit * Repo :=
  try ins, r ← st_lift (mapM_res epoch_record (inserts (pending_commit r))) r;
  try ups, r ← st_lift (mapM_res epoch_record (updates (pending_commit r))) r;
  try data, r ← st_lift (from_codec_error snapshot) r;
  let '(written, s) := storage_write (storage r) {| stored_id := snapshot_group_id; stored_data := data |} ins ups in
  let r := {| pending_commit := pending_commit r; pending_key_package_removal := pending_key_package_removal r;
              repo_group_id := repo_group_id r; storage := s; key_package_repo := key_package_repo r |} in
  try _, r ← st_lift (group_storage written) r;
  try _, r ←
    match pending_key_package_removal r with
    | Some id =>
        let '(deleted, k) := kp_delete (key_package_repo r) id in
        (match deleted with inl e => Err (KeyPackageRepoError e) | inr _ => Ok tt end,
         {| pending_commit := pending_commit r; pending_key_package_removal := pending_key_package_removal r;
            repo_group_id := repo_group_id r; storage := storage r; key_package_repo := k |})
    | None => (Ok tt, r)
    end;
  (Ok tt, with_pending r {| inserts := []; updates := [] |}).
End repo.

(** ** One list of consecutive epochs *)
Section refinement.
Context {order : MapOrder} {S K : Type} `{!GroupStateStorage S} `{!GroupStateStorageLaws S} `{!KeyPackageStorage K}.
Notation Repo := (GroupStateRepository S K).
Implicit Types (r : Repo) (past : list PriorEpoch).

(** A record holds an epoch. *)
Definition represents (rec : EpochRecord) (e : PriorEpoch) : Prop :=
  record_id rec = epoch_id e ∧ decode_epoch (record_data rec) = Ok e.

(** [past] are the epochs in storage. *)
Record repo_inv r past : Prop := {
  ri_stored : Forall2 represents (stored (storage r) (repo_group_id r)) past;
  ri_consecutive : consecutive epoch_id (past ++ inserts (pending_commit r));
  ri_updates : NoDup (epoch_id <$> updates (pending_commit r));
  ri_known : Forall (λ e, is_Some (find_id epoch_id (epoch_id e) past)) (updates (pending_commit r));
  ri_wf : Forall (λ e, prior_epoch_wf e ∧ epoch_group_id e = repo_group_id r)
            (past ++ inserts (pending_commit r) ++ updates (pending_commit r));
}.

Definition epochs r past : list PriorEpoch :=
  foldl (update_id epoch_id) past (updates (pending_commit r)) ++ inserts (pending_commit r).

Lemma stored_ids r past : repo_inv r past → record_id <$> stored (storage r) (repo_group_id r) = epoch_id <$> past.
Proof. intros [H _ _ _ _]. induction H as [|? ? ? ? [? _] _ IH]; [done|]. cbn. congruence. Qed.

Lemma consecutive_by_ids {A B} (f : A → Z) (g : B → Z) l k : f <$> l = g <$> k → consecutive g k → consecutive f l.
Proof.
  intros E Hc i j a b Hi Hj.
  assert (∀ n x, l !! n = Some x → ∃ y, k !! n = Some y ∧ g y = f x) as H.
  { intros n x Hx. assert ((g <$> k) !! n = Some (f x)) as H by (by rewrite <- E, list_lookup_fmap, Hx).
    rewrite list_lookup_fmap in H. apply fmap_Some in H as (y & Hy & ->). by exists y. }
  destruct (H _ _ Hi) as (x & Hx & <-), (H _ _ Hj) as (y & Hy & <-). by apply Hc.
Qed.

Lemma stored_consecutive r past : repo_inv r past → consecutive record_id (stored (storage r) (repo_group_id r)).
Proof.
  intros H. eapply consecutive_by_ids; [by apply stored_ids|]. eapply consecutive_app_l, ri_consecutive, H.
Qed.

Lemma find_stored r past n : repo_inv r past →
  match find_id epoch_id n past with
  | Some e => ∃ rec, find_id record_id n (stored (storage r) (repo_group_id r)) = Some rec ∧ decode_epoch (record_data rec) = Ok e
  | None => find_id record_id n (stored (storage r) (repo_group_id r)) = None
  end.
Proof.
  intros [H _ _ _ _]. induction H as [|rec e recs past [Hid Hdec] _ IH]; [done|]. rewrite !find_id_cons, <- Hid.
  case_decide; [by exists rec|done].
Qed.

Lemma find_epochs r past n : repo_inv r past →
  find_id epoch_id n (epochs r past) =
  match find_id epoch_id n past with
  | Some e => Some (default e (find_id epoch_id n (updates (pending_commit r))))
  | None => find_id epoch_id n (inserts (pending_commit r))
  end.
Proof.
  intros H. unfold epochs. rewrite find_id_app, find_updates by apply H. by destruct (find_id epoch_id n past).
Qed.

Lemma epochs_ids r past : epoch_id <$> epochs r past = epoch_id <$> (past ++ inserts (pending_commit r)).
Proof. unfold epochs. by rewrite !fmap_app, updates_ids. Qed.

Lemma epochs_consecutive r past : repo_inv r past → consecutive epoch_id (epochs r past).
Proof. intros H. eapply consecutive_ids; [symmetry; apply epochs_ids|]. apply H. Qed.

(** What is in storage is older than what is not. *)
Lemma find_past_inserts r past n e :
  repo_inv r past → find_id epoch_id n past = Some e → find_id epoch_id n (inserts (pending_commit r)) = None.
Proof.
  intros H (He & i & Hi)%find_id_Some. destruct (find_id epoch_id n (inserts _)) as [b|] eqn:E; [|done].
  apply find_id_Some in E as (Hb & j & Hj). exfalso. pose proof (ri_consecutive _ _ H) as Hc.
  assert ((past ++ inserts (pending_commit r)) !! i = Some e) as H1 by (by apply lookup_app_l_Some).
  assert ((past ++ inserts (pending_commit r)) !! (length past + j)%nat = Some b) as H2
    by (rewrite lookup_app_r by lia; by replace (length past + j - length past)%nat with j by lia).
  pose proof (Hc _ _ _ _ H1 H2). pose proof (lookup_lt_Some _ _ _ Hi). lia.
Qed.

(** An update of what the repository holds. *)
Lemma epochs_eq r r' past l :
  repo_inv r past → repo_inv r' past → epoch_id <$> l = epoch_id <$> epochs r past →
  epoch_id <$> inserts (pending_commit r') = epoch_id <$> inserts (pending_commit r) →
  (∀ n, find_id epoch_id n (epochs r' past) = find_id epoch_id n l) → epochs r' past = l.
Proof.
  intros H H' Hl Hins Hfind. apply (list_eq_find epoch_id); [by apply epochs_consecutive| |done].
  by rewrite Hl, !epochs_ids, !fmap_app, Hins.
Qed.
(** Changing the two lists keeps the invariant when the numbers stay and each
    epoch is well formed. *)
Lemma pending_inv r past ins ups :
  repo_inv r past → epoch_id <$> ins = epoch_id <$> inserts (pending_commit r) → NoDup (epoch_id <$> ups) →
  Forall (λ e, is_Some (find_id epoch_id (epoch_id e) past)) ups →
  Forall (λ e, prior_epoch_wf e ∧ epoch_group_id e = repo_group_id r) (ins ++ ups) →
  repo_inv (with_pending r {| inserts := ins; updates := ups |}) past.
Proof.
  intros [H1 H2 H3 H4 H5] Hi Hnd Hk Hwf. split; cbn; try done.
  - eapply consecutive_ids; [|exact H2]. by rewrite !fmap_app, Hi.
  - apply Forall_app. split; [|done]. by apply Forall_app in H5 as [? _].
Qed.

Lemma find_pending_spec r n :
  match find_pending r n with
  | Some i => ∃ e, updates (pending_commit r) !! i = Some e ∧ find_id epoch_id n (updates (pending_commit r)) = Some e
  | None => find_id epoch_id n (updates (pending_commit r)) = None
  end.
Proof.
  unfold find_pending, find_id. destruct (list_find _ _) as [[i e]|] eqn:E; cbn; [|done].
  apply list_find_Some in E as (Hi & _ & _). eauto.
Qed.

(** An epoch read from storage joins the updates. *)
Lemma cache_inv r past n e :
  repo_inv r past → find_id epoch_id n past = Some e → find_id epoch_id n (updates (pending_commit r)) = None →
  let r' := with_pending r {| inserts := inserts (pending_commit r); updates := updates (pending_commit r) ++ [e] |} in
  repo_inv r' past ∧ epochs r' past = epochs r past.
Proof.
  intros H Ee Hp r'. pose proof Ee as (He & i & Hi)%find_id_Some.
  pose proof (ri_wf _ _ H) as Hw. apply Forall_app in Hw as [Hw1 Hw2].
  assert (repo_inv r' past) as Hinv.
  { apply pending_inv; [done|done| | |].
    - rewrite fmap_app. apply NoDup_app. split; [apply H|]. split; [|apply NoDup_singleton].
      intros m Hm ->%list_elem_of_singleton. rewrite He in Hm. apply list_elem_of_fmap in Hm as (u & Hu & Hin).
      apply find_id_None in Hp. eapply Forall_forall in Hp; [|exact Hin]. by symmetry in Hu.
    - apply Forall_app. split; [apply H|]. constructor; [|constructor]. rewrite He, Ee. eauto.
    - rewrite app_assoc. apply Forall_app. split; [exact Hw2|]. constructor; [|constructor]. by eapply Forall_lookup_1 in Hw1. }
  split; [exact Hinv|]. apply (epochs_eq r); [done|done|done|done|]. intros m.
  rewrite (find_epochs _ _ _ Hinv), (find_epochs _ _ _ H). cbn. rewrite find_id_app, find_id_cons.
  destruct (find_id epoch_id m past) as [b|] eqn:Eb; [|done]. destruct (find_id epoch_id m (updates _)); [done|].
  case_decide; [|done]. cbn. congruence.
Qed.

(** Where an epoch is found. *)
Definition found r past n (x : option EpochRef) (r' : Repo) : Prop :=
  repo_inv r' past ∧ epochs r' past = epochs r past ∧
  match x with
  | None => find_id epoch_id n (epochs r past) = None
  | Some x => ∃ e, deref r' x = Some e ∧ find_id epoch_id n (epochs r past) = Some e ∧
      match x with InInserts i => find_id epoch_id n past = None | InUpdates i => is_Some (find_id epoch_id n past) end
  end.

Lemma get_stored_epoch_spec r past n :
  readable (storage r) n → repo_inv r past → find_id epoch_id n (inserts (pending_commit r)) = None →
  ∃ x r', get_stored_epoch r n = (Ok x, r') ∧ found r past n x r'.
Proof.
  intros Hr H Hnone. pose proof (find_epochs r past n H) as Hf. rewrite Hnone in Hf. pose proof (find_pending_spec r n) as Hp.
  unfold get_stored_epoch. destruct (find_pending r n) as [i|].
  - destruct Hp as (e & Hi & He). do 2 eexists. split; [done|]. split_and!; [done|done|]. exists e.
    assert (is_Some (find_id epoch_id n past)) as Hs.
    { pose proof He as [<- _]%find_id_Some. pose proof (ri_known _ _ H) as Hk. by eapply Forall_lookup_1 in Hk. }
    split_and!; [done| |done]. rewrite Hf. destruct Hs as [p ->]. by rewrite He.
  - rewrite (stored_epoch _ _ _ Hr (stored_consecutive _ _ H)). pose proof (find_stored r past n H) as Hs.
    destruct (find_id epoch_id n past) as [e|] eqn:Ee; [|rewrite Hs; cbn; by do 2 eexists].
    destruct Hs as (rec & -> & Hdec). cbn [group_storage fmap option_fmap option_map st_bind st_lift].
    unfold st_lift. cbn [st_bind]. rewrite Hdec. cbn [st_bind].
    destruct (cache_inv r past n e H Ee Hp) as [H1 H2]. do 2 eexists. split; [done|]. split_and!; [done|done|].
    exists e. rewrite Hf, Hp. cbn. rewrite Ee, lookup_app_r, Nat.sub_diag by lia. eauto.
Qed.

(** An epoch that is as new as the oldest unwritten one is not in storage. *)
Lemma new_not_past r past n first :
  repo_inv r past → head (inserts (pending_commit r)) = Some first → epoch_id first ≤ n → find_id epoch_id n past = None.
Proof.
  intros H Eh Hle. destruct (find_id epoch_id n past) as [p|] eqn:Ep; [|done]. exfalso.
  apply find_id_Some in Ep as (Hp & i & Hi). pose proof (ri_consecutive _ _ H) as Hc.
  assert ((past ++ inserts (pending_commit r)) !! i = Some p) as H1 by (by apply lookup_app_l_Some).
  assert ((past ++ inserts (pending_commit r)) !! length past = Some first) as H2.
  { rewrite lookup_app_r, Nat.sub_diag by lia. by destruct (inserts (pending_commit r)). }
  pose proof (Hc _ _ _ _ H1 H2). pose proof (lookup_lt_Some _ _ _ Hi). lia.
Qed.

Lemma get_epoch_mut_spec r past n :
  readable (storage r) n → repo_inv r past → ∃ x r', get_epoch_mut r n = (Ok x, r') ∧ found r past n x r'.
Proof.
  intros Hr H. pose proof (consecutive_app_r _ _ _ (ri_consecutive _ _ H)) as Hci. unfold get_epoch_mut.
  destruct (head (inserts (pending_commit r))) as [first|] eqn:Eh; cycle 1.
  { apply head_None in Eh. apply get_stored_epoch_spec; [done|done|by rewrite Eh]. }
  destruct (Z.leb_spec (epoch_id first) n) as [Hle|Hlt]; cycle 1.
  { apply get_stored_epoch_spec; [done|done|]. by apply (consecutive_before _ _ _ first). }
  pose proof (consecutive_index _ n _ first Hci Eh Hle) as Hidx. pose proof (new_not_past r past n first H Eh Hle) as Hnp.
  do 2 eexists. split; [done|]. split_and!; [done|done|]. rewrite (find_epochs r past n H), Hnp. case_decide as Hd.
  - apply lookup_lt_is_Some_2 in Hd as [e He]. exists e. by rewrite <- Hidx.
  - rewrite <- Hidx. apply lookup_ge_None. lia.
Qed.

(** Writing an epoch back through its reference. *)
Lemma store_spec r past x e0 e :
  repo_inv r past → deref r x = Some e0 → epoch_id e = epoch_id e0 → prior_epoch_wf e → epoch_group_id e = repo_group_id r →
  match x with
  | InInserts i => find_id epoch_id (epoch_id e) past = None
  | InUpdates i => is_Some (find_id epoch_id (epoch_id e) past)
  end →
  repo_inv (store r x e) past ∧ epochs (store r x e) past = update_id epoch_id (epochs r past) e.
Proof.
  intros H Hx Hid Hwf Hg Hpast. pose proof (ri_wf _ _ H) as Hw. apply Forall_app in Hw as [_ Hw]. apply Forall_app in Hw as [Hw1 Hw2].
  pose proof (consecutive_NoDup _ _ (consecutive_app_r _ _ _ (ri_consecutive _ _ H))) as Hnd.
  destruct x as [i|i]; cbn in Hx; unfold store; rewrite (insert_update_id epoch_id _ i e0 e) by (done || apply H).
  - assert (repo_inv (with_pending r {| inserts := update_id epoch_id (inserts (pending_commit r)) e; updates := updates (pending_commit r) |}) past) as Hinv.
    { apply pending_inv; [done|apply update_id_ids|apply H|apply H|]. apply Forall_app. split; [|done].
      rewrite <- (insert_update_id epoch_id _ i e0 e) by done. by apply Forall_insert. }
    split; [done|]. apply (epochs_eq r); [done|done|apply update_id_ids|apply update_id_ids|]. intros n.
    rewrite find_update, (find_epochs _ _ _ Hinv), (find_epochs _ _ _ H). cbn. rewrite find_update.
    destruct (find_id epoch_id n past) as [p|] eqn:Ep; [|done]. cbn. rewrite decide_False; [done|]. intros Heq.
    enough (n = epoch_id e) as -> by congruence.
    destruct (find_id epoch_id n (updates _)) as [u|] eqn:Eu; cbn in Heq;
      [apply find_id_Some in Eu as [Hu _]|apply find_id_Some in Ep as [Hp _]]; congruence.
  - assert (repo_inv (with_pending r {| inserts := inserts (pending_commit r); updates := update_id epoch_id (updates (pending_commit r)) e |}) past) as Hinv.
    { rewrite <- (insert_update_id epoch_id _ i e0 e) by (done || apply H). apply pending_inv; [done|done| | |].
      - rewrite (insert_update_id epoch_id _ i e0 e), update_id_ids by (done || apply H). apply H.
      - apply Forall_insert; [apply H|done].
      - apply Forall_app. split; [done|by apply Forall_insert]. }
    split; [done|]. apply (epochs_eq r); [done|done|apply update_id_ids|done|]. intros n.
    rewrite find_update, (find_epochs _ _ _ Hinv), (find_epochs _ _ _ H). cbn. rewrite find_update.
    destruct (find_id epoch_id n past) as [p|] eqn:Ep; cbn.
    + f_equal. destruct (find_id epoch_id n (updates (pending_commit r))) as [u|] eqn:Eu; cbn; [done|].
      rewrite decide_False; [done|]. apply find_id_Some in Ep as [Hp _]. intros Heq.
      rewrite (find_id_unique_nodup epoch_id n _ i e0) in Eu; [done|apply H|done|congruence].
    + destruct (find_id epoch_id n (inserts _)) as [b|] eqn:Eb; [|done]. cbn. rewrite decide_False; [done|].
      apply find_id_Some in Eb as [Hb _]. intros Heq. rewrite <- Heq, Hb, Ep in Hpast. by destruct Hpast.
Qed.
Lemma last_fmap {A B} (f : A → B) l : last (f <$> l) = f <$> last l.
Proof. rewrite !last_lookup, length_fmap, list_lookup_fmap. done. Qed.

Lemma find_max_id_spec r past : repo_inv r past → find_max_id r = Ok (epoch_id <$> last (epochs r past)).
Proof.
  intros H. unfold find_max_id. rewrite <- last_fmap, epochs_ids, last_fmap, last_app.
  destruct (last (inserts (pending_commit r))) as [e|]; [done|]. rewrite stored_max. cbn [group_storage].
  by rewrite <- last_fmap, (stored_ids _ _ H), last_fmap.
Qed.

Lemma epochs_wf r past : repo_inv r past → Forall (λ e, prior_epoch_wf e ∧ epoch_group_id e = repo_group_id r) (epochs r past).
Proof.
  intros H. apply Forall_forall. intros e [i Hi]%list_elem_of_lookup.
  pose proof (find_id_unique epoch_id _ _ _ _ (epochs_consecutive _ _ H) Hi eq_refl) as He. rewrite (find_epochs _ _ _ H) in He.
  pose proof (ri_wf _ _ H) as Hw. rewrite Forall_forall in Hw. apply Hw.
  assert (∀ n l x, find_id epoch_id n l = Some x → x ∈ l) as Hin by (intros n l x (_ & j & Hj)%find_id_Some; by eapply list_elem_of_lookup_2).
  destruct (find_id epoch_id (epoch_id e) past) as [p|] eqn:Ep; [|apply Hin in He; set_solver].
  destruct (find_id epoch_id (epoch_id e) (updates _)) as [u|] eqn:Eu; simplify_eq/=; [apply Hin in Eu|apply Hin in Ep]; set_solver.
Qed.

(** The epoch after the last one, or any if there is none. *)
Definition next_epoch (l : list PriorEpoch) (n : Z) : Prop := ∀ e, last l = Some e → n = epoch_id e + 1.

#[global] Instance next_epoch_dec l n : Decision (next_epoch l n).
Proof.
  unfold next_epoch. destruct (last l) as [e|]; [destruct (decide (n = epoch_id e + 1)) as [->|Hn]|].
  - left. by intros ? [= ->].
  - right. intros Ha. by apply Hn, Ha.
  - by left.
Defined.

Lemma repo_insert_spec r past e :
  repo_inv r past → prior_epoch_wf e → Forall (λ e, epoch_id e + 1 < 2 ^ 64) (epochs r past) →
  if decide (epoch_group_id e ≠ repo_group_id r) then repo_insert r e = (Err GroupIdMismatch, r)
  else if decide (next_epoch (epochs r past) (epoch_id e))
  then ∃ r', repo_insert r e = (Ok tt, r') ∧ repo_inv r' past ∧ epochs r' past = epochs r past ++ [e]
  else repo_insert r e = (Err InvalidEpoch, r).
Proof.
  intros H Hwf Hmax. unfold repo_insert. destruct (decide (epoch_group_id e ≠ repo_group_id r)) as [Hg|Hg].
  { by rewrite bool_decide_eq_true_2. }
  rewrite bool_decide_eq_false_2 by done. apply dec_stable in Hg. rewrite (find_max_id_spec _ _ H).
  unfold st_lift. cbn [st_bind]. set (r' := with_pending r _).
  assert (next_epoch (epochs r past) (epoch_id e) → repo_inv r' past ∧ epochs r' past = epochs r past ++ [e]) as Hpush.
  { intros Hn. split; [|unfold epochs, r'; cbn; by rewrite app_assoc]. destruct H as [H1 H2 H3 H4 H5].
    split; cbn; try done.
    - rewrite app_assoc. apply consecutive_snoc; [done|]. intros b Hb.
      assert (epoch_id <$> last (epochs r past) = Some (epoch_id b)) as Hl by (by rewrite <- last_fmap, epochs_ids, last_fmap, Hb).
      apply fmap_Some in Hl as (x & Hx & ->). by apply Hn.
    - apply Forall_app in H5 as [Ha Hb]. apply Forall_app in Hb as [Hb Hc].
      repeat (apply Forall_app; split; try done). by constructor. }
  destruct (last (epochs r past)) as [m|] eqn:El; cbn [fmap option_fmap option_map].
  - assert (wrap 64 (epoch_id m + 1) = epoch_id m + 1) as ->.
    { rewrite last_lookup in El. pose proof (Forall_lookup_1 _ _ _ _ Hmax El) as Hb. cbn in Hb.
      assert (0 ≤ epoch_id m); [|apply Z.mod_small; lia].
      pose proof (epochs_wf _ _ H) as Hall. eapply Forall_lookup_1 in Hall; [|done]. apply Hall. }
    destruct (Z.eqb_spec (epoch_id e) (epoch_id m + 1)) as [He|He].
    + assert (next_epoch (epochs r past) (epoch_id e)) as Hn by (intros x Hx; rewrite El in Hx; congruence).
      rewrite decide_True by done. exists r'. auto.
    + rewrite decide_False; [done|]. intros Hn. by apply He, Hn.
  - assert (next_epoch (epochs r past) (epoch_id e)) as Hn by (intros x Hx; by rewrite El in Hx).
    rewrite decide_True by done. exists r'. auto.
Qed.
(** ** Writing *)
Lemma epoch_records_spec l recs :
  Forall prior_epoch_wf l → mapM_res epoch_record l = Ok recs → Forall2 represents recs l.
Proof.
  intros Hl. revert recs. induction Hl as [|e l He _ IH]; intros recs H.
  - injection H as <-. constructor.
  - apply bind_ok in H as (rec & Hr & H). apply bind_ok in H as (recs' & Hrs & [= <-]). constructor; [|by apply IH].
    apply bind_ok in Hr as (data & Hd%from_codec_ok & [= <-]). split; [done|]. cbn. unfold decode_epoch.
    assert (mls_decode prior_epoch_codec data = Ok (e, [])) as ->; [|done].
    rewrite <- (app_nil_r data). by apply wire_decode.
Qed.

Lemma represents_ids recs l : Forall2 represents recs l → record_id <$> recs = epoch_id <$> l.
Proof. induction 1 as [|? ? ? ? [? _] _ IH]; [done|]. cbn. congruence. Qed.

Lemma represents_update recs l u v :
  represents u v → Forall2 represents recs l → Forall2 represents (update_id record_id recs u) (update_id epoch_id l v).
Proof.
  intros Huv. induction 1 as [|rec e recs l Hre _ IH]; [constructor|]. unfold update_id in *. cbn. constructor; [|done].
  destruct Huv as [Hu ?], Hre as [Hr ?]. rewrite Hu, Hr. by case_decide.
Qed.

Lemma represents_updates us vs recs l :
  Forall2 represents us vs → Forall2 represents recs l →
  Forall2 represents (foldl (update_id record_id) recs us) (foldl (update_id epoch_id) l vs).
Proof. intros H. revert recs l. induction H as [|u v us vs Huv _ IH]; intros; cbn [foldl]; [done|]. by apply IH, represents_update. Qed.

(** Updates are of stored epochs: those not written yet are not touched. *)
Lemma updates_stored_only r past :
  repo_inv r past → foldl (update_id epoch_id) (past ++ inserts (pending_commit r)) (updates (pending_commit r)) = epochs r past.
Proof.
  intros H. apply (list_eq_find epoch_id); [|by rewrite updates_ids, epochs_ids|].
  - eapply consecutive_ids; [symmetry; apply updates_ids|apply H].
  - intros n. rewrite find_updates, (find_epochs _ _ _ H), find_id_app by apply H.
    destruct (find_id epoch_id n past) as [p|] eqn:Ep; [done|]. destruct (find_id epoch_id n (inserts _)) as [b|]; [|done]. cbn.
    destruct (find_id epoch_id n (updates _)) as [u|] eqn:Eu; [|done]. exfalso.
    apply find_id_Some in Eu as (<- & i & Hi). pose proof (ri_known _ _ H) as Hk. eapply Forall_lookup_1 in Hk; [|done].
    rewrite Ep in Hk. by destruct Hk.
Qed.

(** What a write leaves in storage. *)
Lemma written_inv r past data ins ups s' kr :
  repo_inv r past → mapM_res epoch_record (inserts (pending_commit r)) = Ok ins →
  mapM_res epoch_record (updates (pending_commit r)) = Ok ups →
  storage_write (storage r) {| stored_id := repo_group_id r; stored_data := data |} ins ups = (inr tt, s') →
  let r' := {| pending_commit := {| inserts := []; updates := [] |}; pending_key_package_removal := pending_key_package_removal r;
               repo_group_id := repo_group_id r; storage := s'; key_package_repo := kr |} in
  ∃ k, repo_inv r' (drop k (epochs r past)) ∧ epochs r' (drop k (epochs r past)) = drop k (epochs r past) ∧
    storage_state s' (repo_group_id r) = inr (Some data).
Proof.
  intros H Hins Hups Hw r'. pose proof (ri_wf _ _ H) as Hwf. apply Forall_app in Hwf as [_ Hwf]. apply Forall_app in Hwf as [Hwi Hwu].
  apply epoch_records_spec in Hins; [|by eapply Forall_impl; [exact Hwi|intros ? []]].
  apply epoch_records_spec in Hups; [|by eapply Forall_impl; [exact Hwu|intros ? []]].
  pose proof (Forall2_app (ri_stored _ _ H) Hins) as Hall.
  pose proof (consecutive_by_ids _ _ _ _ (represents_ids _ _ Hall) (ri_consecutive _ _ H)) as Hc.
  destruct (stored_write (storage r) {| stored_id := repo_group_id r; stored_data := data |} ins ups s' Hc Hw) as [[k Hk] Hst].
  pose proof (represents_updates _ _ _ _ Hups Hall) as Hnew. rewrite (updates_stored_only _ _ H) in Hnew.
  exists k. split_and!; [|unfold epochs; cbn; by rewrite app_nil_r|exact Hst]. split; cbn.
  - cbn in Hk. rewrite Hk. by apply Forall2_drop.
  - rewrite app_nil_r. by apply consecutive_drop, epochs_consecutive.
  - constructor.
  - constructor.
  - rewrite app_nil_r. by apply Forall_drop, epochs_wf.
Qed.

(** What a write that succeeds has done. *)
Lemma write_ok_inv (r r' : Repo) data gid :
  write_to_storage r data gid = (Ok tt, r') →
  ∃ b ins ups s' kr, data = Ok b ∧ mapM_res epoch_record (inserts (pending_commit r)) = Ok ins ∧
    mapM_res epoch_record (updates (pending_commit r)) = Ok ups ∧
    storage_write (storage r) {| stored_id := gid; stored_data := b |} ins ups = (inr tt, s') ∧
    r' = {| pending_commit := {| inserts := []; updates := [] |}; pending_key_package_removal := pending_key_package_removal r;
            repo_group_id := repo_group_id r; storage := s'; key_package_repo := kr |}.
Proof.
  intros H. unfold write_to_storage, st_lift in H. apply st_bind_ok in H as (ins & r0 & [= Hi <-] & H).
  apply st_bind_ok in H as (ups & r0 & [= Hu <-] & H). apply st_bind_ok in H as (b & r0 & [= Hb%from_codec_ok <-] & H).
  destruct (storage_write (storage r) _ ins ups) as [written s'] eqn:Ew.
  apply st_bind_ok in H as ([] & r0 & [= Hw <-] & H). destruct written as [|[]]; [done|].
  apply st_bind_ok in H as ([] & r0 & Hd & [= <-]). exists b, ins, ups, s'. cbn in Hd.
  destruct (pending_key_package_removal r) as [id|] eqn:Er; cbn in Hd.
  - destruct (kp_delete _ id) as [[e|[]] kr]; [done|]. injection Hd as <-. by exists kr.
  - injection Hd as <-. by exists (key_package_repo r).
Qed.

(** The lookup behind the unwritten epochs, for this group. *)
Lemma resumption_stored r past n :
  readable (storage r) n → repo_inv r past → find_id epoch_id n (inserts (pending_commit r)) = None →
  match find_pending r n with
  | Some i =>
      match updates (pending_commit r) !! i with
      | Some e => Ok (Some (resumption_secret (epoch_secrets e)))
      | None => Panic
      end
  | None =>
      found ← group_storage (storage_epoch (storage r) (repo_group_id r) n);
      match found with
      | Some data => e ← decode_epoch data; Ok (Some (resumption_secret (epoch_secrets e)))
      | None => Ok None
      end
  end = Ok ((λ e, resumption_secret (epoch_secrets e)) <$> find_id epoch_id n (epochs r past)).
Proof.
  intros Hr H Hnone. rewrite (find_epochs r past n H), Hnone. pose proof (find_pending_spec r n) as Hp. destruct (find_pending r n) as [i|].
  - destruct Hp as (e & -> & He). pose proof He as (Hid & j & Hj)%find_id_Some. pose proof (ri_known _ _ H) as Hk.
    eapply Forall_lookup_1 in Hk; [|done]. rewrite Hid in Hk. destruct Hk as [p ->]. by rewrite He.
  - rewrite (stored_epoch _ _ _ Hr (stored_consecutive _ _ H)), Hp. pose proof (find_stored r past n H) as Hs.
    destruct (find_id epoch_id n past) as [e|]; [|by rewrite Hs]. destruct Hs as (rec & -> & Hdec). cbn. by rewrite Hdec.
Qed.
End refinement.

Lemma get_epoch_mut_group {order : MapOrder} {S K} `{!GroupStateStorage S} (r : GroupStateRepository S K) n :
  repo_group_id (get_epoch_mut r n).2 = repo_group_id r.
Proof.
  assert (repo_group_id (get_stored_epoch r n).2 = repo_group_id r) as H.
  { unfold get_stored_epoch. case_match; [done|]. apply (st_bind_state (λ r', repo_group_id r' = repo_group_id r)); [done|].
    intros [data|] _; [|done]. by apply (st_bind_state (λ r', repo_group_id r' = repo_group_id r)). }
  unfold get_epoch_mut. by repeat case_match.
Qed.

(** ** The properties *)
Section properties.
Context {order : MapOrder} {S K : Type} `{!GroupStateStorage S} `{!GroupStateStorageLaws S} `{!KeyPackageStorage K}.
Notation Repo := (GroupStateRepository S K).

(** C10. Looking an epoch up finds what the list of epochs has under that number,
    wherever it is kept, and changes nothing of the list; what the caller
    writes through the reference replaces that epoch and no other; an epoch is
    appended exactly when it is of this group and follows the last one. *)
Theorem repo_refines_list (r : Repo) past n e :
  readable (storage r) n → repo_inv r past → prior_epoch_wf e → Forall (λ e, epoch_id e + 1 < 2 ^ 64) (epochs r past) →
  (∃ x r', get_epoch_mut r n = (Ok x, r') ∧ repo_inv r' past ∧ epochs r' past = epochs r past ∧
     (x ≫= deref r') = find_id epoch_id n (epochs r past) ∧
     (∀ ref, x = Some ref → epoch_id e = n → epoch_group_id e = repo_group_id r →
        repo_inv (store r' ref e) past ∧ epochs (store r' ref e) past = update_id epoch_id (epochs r past) e)) ∧
  (if decide (epoch_group_id e ≠ repo_group_id r) then repo_insert r e = (Err GroupIdMismatch, r)
   else if decide (next_epoch (epochs r past) (epoch_id e))
   then ∃ r', repo_insert r e = (Ok tt, r') ∧ repo_inv r' past ∧ epochs r' past = epochs r past ++ [e]
   else repo_insert r e = (Err InvalidEpoch, r)).
Proof.
  intros Hr H Hwf Hmax. split; [|by apply repo_insert_spec].
  destruct (get_epoch_mut_spec r past n Hr H) as (x & r' & Hg & Hinv & Heq & Hx). exists x, r'. split_and!; try done.
  - destruct x as [x|]; [|by rewrite Hx]. destruct Hx as (e0 & Hd & -> & _). exact Hd.
  - intros ref -> Hn Hgid. destruct Hx as (e0 & Hd & Hf & Hp). rewrite <- Heq. apply find_id_Some in Hf as [Hf _].
    apply (store_spec _ _ _ e0); [done|done|congruence|done| |by rewrite Hn].
    pose proof (get_epoch_mut_group r n) as Hgr. rewrite Hg in Hgr. cbn in Hgr. congruence.
Qed.
(** A write puts the list of epochs in storage, less the oldest ones as the
    storage decides, with every change made through a reference; nothing stays
    pending, so the repository stands for the same list after it; and the
    snapshot is what a later load reads. *)
Theorem write_refines_list (r : Repo) past data ins ups :
  repo_inv r past → mapM_res epoch_record (inserts (pending_commit r)) = Ok ins →
  mapM_res epoch_record (updates (pending_commit r)) = Ok ups →
  (storage_write (storage r) {| stored_id := repo_group_id r; stored_data := data |} ins ups).1 = inr tt →
  (∀ id, pending_key_package_removal r = Some id → (kp_delete (key_package_repo r) id).1 = inr tt) →
  ∃ r' k, write_to_storage r (Ok data) (repo_group_id r) = (Ok tt, r') ∧
    repo_inv r' (drop k (epochs r past)) ∧ epochs r' (drop k (epochs r past)) = drop k (epochs r past) ∧
    storage_state (storage r') (repo_group_id r) = inr (Some data).
Proof.
  intros H Hins Hups Hw Hd. unfold write_to_storage, st_lift. rewrite Hins. cbn [st_bind]. rewrite Hups. cbn [st_bind from_codec_error map_err].
  destruct (storage_write _ _ _ _) as [res s'] eqn:Ew. cbn in Hw. subst res. cbn [group_storage st_bind pending_key_package_removal key_package_repo].
  destruct (pending_key_package_removal r) as [id|] eqn:Er.
  - specialize (Hd id eq_refl). destruct (kp_delete _ _) as [d k] eqn:Ed. cbn in Hd. subst d. cbn [st_bind].
    destruct (written_inv r past data ins ups s' k H Hins Hups Ew) as (n & H1 & H2 & H3). do 2 eexists. rewrite <- Er. split; [done|]. eauto.
  - cbn [st_bind].
    destruct (written_inv r past data ins ups s' (key_package_repo r) H Hins Hups Ew) as (n & H1 & H2 & H3). do 2 eexists. rewrite <- Er. split; [done|]. eauto.
Qed.

(** The resumption secret of this group's epochs is the right one.  For an
    epoch of another group the number alone decides: as soon as this group has an
    unwritten epoch of that number, its secret is returned in place of the other
    group's. *)
Theorem resumption_secret_lookup (r : Repo) past u n other :
  readable (storage r) n → repo_inv r past →
  repo_resumption_secret r {| usage := u; psk_group_id := repo_group_id r; psk_epoch := n |} =
    Ok ((λ e, resumption_secret (epoch_secrets e)) <$> find_id epoch_id n (epochs r past)) ∧
  (∀ e, find_id epoch_id n (inserts (pending_commit r)) = Some e →
     repo_resumption_secret r {| usage := u; psk_group_id := other; psk_epoch := n |} =
     Ok (Some (resumption_secret (epoch_secrets e)))).
Proof.
  intros Hr H. pose proof (consecutive_app_r _ _ _ (ri_consecutive _ _ H)) as Hci. pose proof (find_epochs r past n H) as Hf.
  assert (∀ g, find_id epoch_id n past = None → ∀ first, head (inserts (pending_commit r)) = Some first → epoch_id first ≤ n →
    repo_resumption_secret r {| usage := u; psk_group_id := g; psk_epoch := n |} =
    Ok ((λ e, resumption_secret (epoch_secrets e)) <$> find_id epoch_id n (inserts (pending_commit r)))) as Hnew.
  { intros g _ first Eh Hle. unfold repo_resumption_secret. rewrite Eh. cbn [psk_epoch].
    rewrite (proj2 (Z.leb_le _ _)) by done. by rewrite (consecutive_index _ n _ first). }
  split.
  - destruct (head (inserts (pending_commit r))) as [first|] eqn:Eh; [destruct (decide (epoch_id first ≤ n)) as [Hle|Hlt]|].
    + pose proof (new_not_past r past n first H Eh Hle) as Hnp. rewrite Hf, Hnp. by apply (Hnew _ Hnp first).
    + assert (find_id epoch_id n (inserts (pending_commit r)) = None) as Hnone by (apply (consecutive_before _ _ _ first); [done|done|lia]).
      unfold repo_resumption_secret. rewrite Eh. cbn [psk_epoch psk_group_id]. rewrite (proj2 (Z.leb_gt _ _)) by lia.
      by apply resumption_stored.
    + apply head_None in Eh. unfold repo_resumption_secret. rewrite Eh. cbn [head psk_epoch psk_group_id].
      apply resumption_stored; [done|done|by rewrite Eh].
  - intros e He. pose proof He as (Hid & i & Hi)%find_id_Some.
    destruct (head (inserts (pending_commit r))) as [first|] eqn:Eh; [|by apply head_None in Eh; rewrite Eh in Hi].
    assert (epoch_id first ≤ n) as Hle.
    { assert (inserts (pending_commit r) !! 0%nat = Some first) as H0 by (by destruct (inserts (pending_commit r))).
      pose proof (Hci _ _ _ _ H0 Hi). lia. }
    rewrite (Hnew other (new_not_past r past n first H Eh Hle) first), He; done.
Qed.
End properties.

(** When the used key package cannot be deleted, the epochs that were just
    stored stay pending: the next write stores them a second time, after which
    the in-memory storage answers with this epoch for the number of the next
    one. *)
Theorem failed_delete_stores_twice {order : MapOrder} {K} `{!KeyPackageStorage K} (k : K) e d id err data :
  mls_encode_to_vec prior_epoch_codec e = Ok d → (∀ k, (kp_delete k id).1 = inl err) →
  let g := epoch_group_id e in
  let r := {| pending_commit := {| inserts := [e]; updates := [] |}; pending_key_package_removal := Some id;
              repo_group_id := g; storage := InMemory.new; key_package_repo := k |} in
  ∃ r1 r2, write_to_storage r (Ok data) g = (Err (KeyPackageRepoError err), r1) ∧
    write_to_storage r1 (Ok data) g = (Err (KeyPackageRepoError err), r2) ∧
    InMemory.epoch (storage r2) g (epoch_id e) = Some d ∧ InMemory.epoch (storage r2) g (epoch_id e + 1) = Some d.
Proof.
  intros Hd Hk g r.
  assert (∀ r0 : GroupStateRepository InMemory.InMemoryGroupStateStorage K,
    pending_commit r0 = {| inserts := [e]; updates := [] |} → pending_key_package_removal r0 = Some id →
    ∃ r1, write_to_storage r0 (Ok data) g = (Err (KeyPackageRepoError err), r1) ∧ pending_commit r1 = pending_commit r0 ∧
      pending_key_package_removal r1 = Some id ∧
      storage r1 = InMemory.write (storage r0) {| stored_id := g; stored_data := data |}
                     [ {| record_id := epoch_id e; record_data := d |} ] []) as Hwrite.
  { intros [pc rm rg st kr] Hp Hr. cbn in Hp, Hr. subst pc rm. unfold write_to_storage, st_lift.
    cbn [mapM_res inserts updates pending_commit]. unfold epoch_record. rewrite Hd. cbn. pose proof (Hk kr) as Hk0.
    destruct (kp_delete kr id) as [res k']. cbn in Hk0. subst res. by eexists. }
  destruct (Hwrite r eq_refl eq_refl) as (r1 & H1 & P1 & R1 & S1). exists r1.
  destruct (Hwrite r1 P1 R1) as (r2 & H2 & _ & _ & S2). exists r2. split_and!; [done|done|..]; rewrite S2, S1;
    unfold InMemory.epoch, InMemory.write; cbn -[Z.sub Z.leb Z.add]; rewrite lookup_insert_eq; cbn -[Z.sub Z.leb Z.add];
    unfold InMemory.get_epoch, InMemory.get_epoch_data_index; rewrite lookup_insert_eq; rewrite !lookup_empty; cbn -[Z.sub Z.leb Z.add];
    match goal with |- context [InMemory.trim ?l ?n] =>
      change (InMemory.trim l n) with [ {| record_id := epoch_id e; record_data := d |}; {| record_id := epoch_id e; record_data := d |} ] end;
    cbn -[Z.sub Z.leb Z.add].
  - rewrite (proj2 (Z.leb_le _ _)) by lia. cbn -[Z.sub]. by rewrite Z.sub_diag.
  - rewrite (proj2 (Z.leb_le _ _)) by lia. cbn -[Z.sub Z.add]. replace (epoch_id e + 1 - epoch_id e) with 1 by lia. done.
Qed.

(** ** Examples *)
Definition example_epoch (n : Z) : PriorEpoch := {|
  context := {| protocol_version := 1; gc_cipher_suite := 1; group_id := [Byte.x07]; epoch := n; tree_hash := [];
    confirmed_transcript_hash := []; gc_extensions := [] |};
  self_index := 0;
  epoch_secrets := {| resumption_secret := [byte.of_Z n]; sender_data_secret := [];
    secret_tree := SecretTree.new_tree 2 [Byte.x01] |};
  signature_public_keys := [] |}.

Definition example_repo : GroupStateRepository InMemory.InMemoryGroupStateStorage InMemory.InMemoryKeyPackageStorage := {|
  pending_commit := {| inserts := [example_epoch 4]; updates := [] |}; pending_key_package_removal := Some [Byte.x02];
  repo_group_id := [Byte.x07]; storage := InMemory.new; key_package_repo := {| InMemory.packages := ∅ |} |}.

Lemma example_epoch_wf n : is_u64 n → prior_epoch_wf (example_epoch n).
Proof.
  intros Hn. unfold prior_epoch_wf, group_context_wf, epoch_secrets_wf. cbn. unfold is_u16, is_u32. split_and!; try lia; try done.
  - split; [apply NoDup_nil_2|constructor].
  - apply new_tree_wf. unfold is_u32. lia.
Qed.

Lemma example_inv : repo_inv example_repo [].
Proof.
  split; cbn.
  - constructor.
  - intros [|i] [|j] a b Hi Hj; simplify_eq/=; lia.
  - constructor.
  - constructor.
  - constructor; [|constructor]. split; [|done]. apply example_epoch_wf. unfold is_u64. lia.
Qed.

(** A key package repository that cannot delete. *)
Definition stuck_packages : KeyPackageStorage unit := {|
  kp_delete k _ := (inl (ProviderAnyError []), k); kp_insert k _ _ := (inr tt, k); kp_get _ _ := inr None |}.

Lemma repo_refines_list_witness :
  ∃ r', repo_insert example_repo (example_epoch 5) = (Ok tt, r') ∧ epochs r' [] = [example_epoch 4; example_epoch 5].
Proof.
  destruct (repo_refines_list example_repo [] 4 (example_epoch 5)) as [_ H].
  - exact I.
  - exact example_inv.
  - apply example_epoch_wf. unfold is_u64. lia.
  - constructor; [cbn; lia|constructor].
  - rewrite decide_False in H by (intros H1; apply H1; reflexivity).
    rewrite decide_True in H by (intros e [= <-]; reflexivity). destruct H as (r' & H1 & _ & H2). exists r'. split; assumption.
Defined.

Lemma write_refines_list_witness :
  ∃ r' k, write_to_storage example_repo (Ok [Byte.x09]) [Byte.x07] = (Ok tt, r') ∧ repo_inv r' (drop k [example_epoch 4]) ∧
    storage_state (storage r') [Byte.x07] = inr (Some [Byte.x09]).
Proof.
  destruct (mapM_res (epoch_record (order:=ascending)) (inserts (pending_commit example_repo))) as [ins| | |] eqn:E;
    try (vm_compute in E; discriminate E).
  destruct (write_refines_list example_repo [] [Byte.x09] ins []) as (r' & k & H1 & H2 & _ & H4).
  - exact example_inv.
  - exact E.
  - reflexivity.
  - reflexivity.
  - intros id _. reflexivity.
  - exists r', k. split; [exact H1|]. split; [exact H2|exact H4].
Defined.

Lemma resumption_secret_lookup_witness :
  repo_resumption_secret example_repo {| usage := UsageApplication; psk_group_id := [Byte.x08]; psk_epoch := 4 |} = Ok (Some [Byte.x04]).
Proof.
  refine (proj2 (resumption_secret_lookup example_repo [] UsageApplication 4 [Byte.x08] _ example_inv) (example_epoch 4) _);
    [exact I|reflexivity].
Defined.

Lemma failed_delete_stores_twice_witness :
  ∃ d r1 r2, let r := {| pending_commit := {| inserts := [example_epoch 4]; updates := [] |}; pending_key_package_removal := Some [Byte.x02];
              repo_group_id := [Byte.x07]; storage := InMemory.new; key_package_repo := tt |} in
    write_to_storage (KeyPackageStorage0:=stuck_packages) r (Ok []) [Byte.x07] = (Err (KeyPackageRepoError (ProviderAnyError [])), r1) ∧
    write_to_storage (KeyPackageStorage0:=stuck_packages) r1 (Ok []) [Byte.x07] = (Err (KeyPackageRepoError (ProviderAnyError [])), r2) ∧
    InMemory.epoch (storage r2) [Byte.x07] 5 = Some d.
Proof.
  destruct (mls_encode_to_vec (prior_epoch_codec (order:=ascending)) (example_epoch 4)) as [d| | |] eqn:E; try (vm_compute in E; discriminate E).
  destruct (failed_delete_stores_twice (KeyPackageStorage0:=stuck_packages) tt (example_epoch 4) d [Byte.x02] (ProviderAnyError []) [] E)
    as (r1 & r2 & H1 & H2 & _ & H4); [intros; reflexivity|].
  exists d, r1, r2. split; [exact H1|]. split; [exact H2|exact H4].
Defined.
