(* ===== verification/PrivateMessage.v ===== *)
(** * Private messages (mls-rs/src/group/ciphertext_processor.rs and its modules,
    padding.rs)

    Encryption of a message under a key of the sender's ratchet, with the sender
    and the generation encrypted under a key derived from a sample of the
    ciphertext.  The theorems: what a member seals every other member of the epoch
    opens, exactly; padding hides the length within a quarter of it; two guards
    never give the same nonce. *)
From Stdlib Require Import Strings.String.
From S2P Require Import Prelude Codec Wire TreeMath Types Proposal Node Crypto Labels GroupContext SecretTree Framing Epoch.
Import FramingLaws.

(** ** Padding: padding.rs *)
Inductive PaddingMode := StepFunction | NoPadding.

Definition padded_size (m : PaddingMode) (content_size : Z) : Z :=
  match m with
  | StepFunction =>
      let blind := Z.shiftl 1 (trailing_zeros 64 (Z.max (next_power_of_two (content_size + 1)) 256) - 3) in
      Z.lor content_size (blind - 1) + 1
  | NoPadding => content_size
  end.

(** [Vec::resize(n, 0)]. *)
Definition resize (b : bytes) (n : Z) : bytes := take (Z.to_nat n) b ++ replicate (Z.to_nat n - length b) (byte.of_Z 0).

(** ** Reuse guard: reuse_guard.rs *)
Definition REUSE_GUARD_SIZE : nat := 4.

Definition byte_xor (a b : Byte.byte) : Byte.byte := byte.of_Z (Z.lxor (byte.unsigned a) (byte.unsigned b)).

Definition guard_random (csp : CipherSuiteProvider) (seed : bytes) : Result MlsError bytes :=
  crypto (csp_random_bytes csp seed (Z.of_nat REUSE_GUARD_SIZE)).

(** [iter_mut().zip(guard)]: the bytes that have a guard byte are changed. *)
Definition guard_apply (guard nonce : bytes) : bytes := zip_with byte_xor nonce guard ++ drop (length guard) nonce.

(** ** Sender data: sender_data_key.rs *)
Record SenderData := { sd_sender : Z; sd_generation : Z; reuse_guard : bytes }.

Definition sender_data_codec : MlsCodec SenderData :=
  struct_codec (λ d, (sd_sender d, (sd_generation d, reuse_guard d)))
    (λ '(a, (b, c)), {| sd_sender := a; sd_generation := b; reuse_guard := c |})
    (tuple_codec u32_codec (tuple_codec u32_codec (array_codec REUSE_GUARD_SIZE))).

Record SenderDataAAD := { sda_group_id : bytes; sda_epoch : Z; sda_content_type : ContentType }.

Definition sender_data_aad_codec : MlsCodec SenderDataAAD :=
  struct_codec (λ d, (sda_group_id d, (sda_epoch d, sda_content_type d)))
    (λ '(a, (b, c)), {| sda_group_id := a; sda_epoch := b; sda_content_type := c |})
    (tuple_codec byte_vec_codec (tuple_codec u64_codec content_type_codec)).

Record SenderDataKey := { sdk_key : bytes; sdk_nonce : bytes }.

Section sender_data.
Context (csp : CipherSuiteProvider).

(** [ciphertext.get(0..extract_size).unwrap_or(ciphertext)]. *)
Definition ciphertext_sample (ct : bytes) : bytes :=
  let extract_size := csp_kdf_extract_size csp in
  if extract_size <=? len ct then take (Z.to_nat extract_size) ct else ct.

Definition sender_data_key (sender_data_secret ct : bytes) : Result MlsError SenderDataKey :=
  let sample := ciphertext_sample ct in
  key ← kdf_expand_with_label csp sender_data_secret (ascii "key") sample (Some (csp_aead_key_size csp));
  nonce ← kdf_expand_with_label csp sender_data_secret (ascii "nonce") sample (Some (csp_aead_nonce_size csp));
  Ok {| sdk_key := key; sdk_nonce := nonce |}.

Definition sender_data_seal (k : SenderDataKey) (d : SenderData) (aad : SenderDataAAD) : Result MlsError bytes :=
  data ← from_codec_error (mls_encode_to_vec sender_data_codec d);
  aad ← from_codec_error (mls_encode_to_vec sender_data_aad_codec aad);
  crypto (csp_aead_seal csp (sdk_key k) data (Some aad) (sdk_nonce k)).

Definition sender_data_open (k : SenderDataKey) (data : bytes) (aad : SenderDataAAD) : Result MlsError SenderData :=
  aad ← from_codec_error (mls_encode_to_vec sender_data_aad_codec aad);
  data ← crypto (csp_aead_open csp (sdk_key k) data (Some aad) (sdk_nonce k));
  '(d, _) ← from_codec_error (mls_decode sender_data_codec data);
  Ok d.

(** ** Message keys: message_key.rs *)
Definition message_encrypt (k : SecretTree.MessageKeyData) (data aad guard : bytes) : Result MlsError bytes :=
  crypto (csp_aead_seal csp (SecretTree.key k) data (Some aad) (guard_apply guard (SecretTree.nonce k))).

Definition message_decrypt (k : SecretTree.MessageKeyData) (data aad guard : bytes) : Result MlsError bytes :=
  crypto (csp_aead_open csp (SecretTree.key k) data (Some aad) (guard_apply guard (SecretTree.nonce k))).
End sender_data.

(** ** The processor: ciphertext_processor.rs

    [GroupStateProvider]: a group, or one of its past epochs. *)
Class GroupStateProvider (GS : Type) := {
  gs_context : GS → GroupContext;
  gs_self_index : GS → Z;
  gs_secrets : GS → EpochSecrets;
  gs_set_secrets : GS → EpochSecrets → GS;
}.

#[export] Instance prior_epoch_provider : GroupStateProvider PriorEpoch := {|
  gs_context := context; gs_self_index := self_index; gs_secrets := epoch_secrets; gs_set_secrets := with_secrets |}.

(** Writing the secrets changes nothing else. *)
Class GroupStateProviderLaws (GS : Type) `{!GroupStateProvider GS} : Prop := {
  gs_set_get (s : GS) e : gs_secrets (gs_set_secrets s e) = e;
  gs_set_context (s : GS) e : gs_context (gs_set_secrets s e) = gs_context s;
  gs_set_index (s : GS) e : gs_self_index (gs_set_secrets s e) = gs_self_index s;
}.

#[export] Instance prior_epoch_provider_laws : GroupStateProviderLaws PriorEpoch.
Proof. by split. Qed.

Section processor.
Context (csp : CipherSuiteProvider) {GS : Type} `{!GroupStateProvider GS}.

Definition set_secret_tree (s : GS) (t : SecretTree.SecretTree) : GS :=
  gs_set_secrets s {| resumption_secret := resumption_secret (gs_secrets s);
    sender_data_secret := sender_data_secret (gs_secrets s); secret_tree := t |}.

Definition next_encryption_key (s : GS) (kt : SecretTree.KeyType) : Result MlsError SecretTree.MessageKeyData * GS :=
  let '(r, t) := SecretTree.tree_next_message_key csp (secret_tree (gs_secrets s)) (Node.node_index (gs_self_index s)) kt in
  (r, set_secret_tree s t).

Definition decryption_key (s : GS) (sender : Z) (kt : SecretTree.KeyType) (generation : Z)
    : Result MlsError SecretTree.MessageKeyData * GS :=
  let '(r, t) := SecretTree.tree_message_key_generation csp (secret_tree (gs_secrets s)) (Node.node_index sender) kt generation in
  (r, set_secret_tree s t).

Definition key_type (t : ContentType) : SecretTree.KeyType :=
  match t with ApplicationType => SecretTree.Application | _ => SecretTree.Handshake end.

Definition sender_aad (s : GS) (t : ContentType) : SenderDataAAD :=
  {| sda_group_id := group_id (gs_context s); sda_epoch := epoch (gs_context s); sda_content_type := t |}.

Definition seal (s : GS) (m : AuthenticatedContent) (padding : PaddingMode) (seed : bytes)
    : Result MlsError PrivateMessage * GS :=
  let c := content m in
  if bool_decide (Member (gs_self_index s) ≠ fc_sender c) then (Err InvalidSender, s)
  else
    let t := content_type (fc_content c) in
    let aad := {| aad_group_id := fc_group_id c; aad_epoch := fc_epoch c; aad_content_type := t;
                  aad_data := fc_authenticated_data c |} in
    try guard, s ← st_lift (guard_random csp seed) s;
    try serialized, s ←
      st_lift (from_codec_error (private_content_encode {| pmc_content := fc_content c; pmc_auth := auth m |})) s;
    let serialized := resize serialized (padded_size padding (len serialized)) in
    let self_index := gs_self_index s in
    try key_data, s ← next_encryption_key s (key_type t);
    try aad, s ← st_lift (from_codec_error (mls_encode_to_vec private_content_aad_codec aad)) s;
    try ct, s ← st_lift (message_encrypt csp key_data serialized aad guard) s;
    let sender_data := {| sd_sender := self_index; sd_generation := SecretTree.key_generation key_data; reuse_guard := guard |} in
    try k, s ← st_lift (sender_data_key csp (sender_data_secret (gs_secrets s)) ct) s;
    try encrypted, s ← st_lift (sender_data_seal csp k sender_data (sender_aad s t)) s;
    (Ok {| pr_group_id := group_id (gs_context s); pr_epoch := epoch (gs_context s); pr_content_type := t;
           pr_authenticated_data := fc_authenticated_data c; encrypted_sender_data := encrypted; pr_ciphertext := ct |}, s).

Definition open (s : GS) (m : PrivateMessage) : Result MlsError AuthenticatedContent * GS :=
  let t := pr_content_type m in
  try k, s ← st_lift (sender_data_key csp (sender_data_secret (gs_secrets s)) (pr_ciphertext m)) s;
  try d, s ← st_lift (sender_data_open csp k (encrypted_sender_data m) (sender_aad s t)) s;
  if bool_decide (gs_self_index s = sd_sender d) then (Err CantProcessMessageFromSelf, s)
  else
    try key, s ← decryption_key s (sd_sender d) (key_type t) (sd_generation d);
    try aad, s ← st_lift (from_codec_error (mls_encode_to_vec private_content_aad_codec (from_private_message m))) s;
    try decrypted, s ← st_lift (message_decrypt csp key (pr_ciphertext m) aad (reuse_guard d)) s;
    try c, s ← st_lift (from_codec_error (private_content_decode t decrypted)) s;
    (Ok {| wire_format := WirePrivateMessage;
           content := {| fc_group_id := pr_group_id m; fc_epoch := pr_epoch m; fc_sender := Member (sd_sender d);
                         fc_authenticated_data := pr_authenticated_data m; fc_content := pmc_content c |};
           auth := pmc_auth c |}, s).
End processor.

(** ** Padding *)
Lemma lor_ones n k : 0 ≤ k → Z.lor n (2 ^ k - 1) = (n / 2 ^ k) * 2 ^ k + (2 ^ k - 1).
Proof.
  intros Hk. pose proof (Z.pow_pos_nonneg 2 k ltac:(lia) Hk). replace (2 ^ k - 1) with (Z.ones k) by (rewrite Z.ones_equiv; lia).
  set (x := Z.lor n (Z.ones k)). rewrite (Z.div_mod x (2 ^ k)) by lia.
  assert (x / 2 ^ k = n / 2 ^ k) as ->.
  { unfold x. rewrite <- !Z.shiftr_div_pow2, Z.shiftr_lor by done. rewrite (Z.shiftr_div_pow2 (Z.ones k)) by done.
    rewrite Z.ones_equiv, (Z.div_small (Z.pred _)) by lia. apply Z.lor_0_r. }
  assert (x mod 2 ^ k = Z.ones k) as ->; [|lia]. rewrite <- Z.land_ones by done. unfold x. apply Z.bits_inj'. intros i _.
  rewrite Z.land_spec, Z.lor_spec. by destruct (Z.testbit n i), (Z.testbit (Z.ones k) i).
Qed.

(** The step function rounds up to a multiple of [2 ^ k]. *)
Lemma step_function n :
  0 ≤ n → ∃ k, 5 ≤ k ∧ (k = 5 ∨ 2 ^ (k + 2) ≤ n) ∧ (256 ≤ n → n < 2 ^ (k + 3)) ∧ padded_size StepFunction n = (n / 2 ^ k + 1) * 2 ^ k.
Proof.
  intros Hn. destruct (next_power_of_two_spec (n + 1)) as (d & Hd & Hp & Hle & Hmin); [lia|].
  assert (Z.max (next_power_of_two (n + 1)) 256 = 2 ^ Z.max d 8) as Hmax.
  { rewrite Hp. change 256 with (2 ^ 8). destruct (Z.max_spec d 8) as [[Hlt ->]|[Hge ->]].
    - apply Z.max_r, Z.pow_le_mono_r; lia.
    - apply Z.max_l, Z.pow_le_mono_r; lia. }
  exists (Z.max d 8 - 3). split_and!; [lia| | |].
  - destruct (decide (d ≤ 8)) as [|Hd8]; [left; lia|right]. replace (Z.max d 8 - 3 + 2) with (d - 1) by lia.
    destruct (decide (2 ^ (d - 1) ≤ n)); [done|]. specialize (Hmin (d - 1)). lia.
  - intros _. replace (Z.max d 8 - 3 + 3) with (Z.max d 8) by lia.
    pose proof (Z.pow_le_mono_r 2 d (Z.max d 8) ltac:(lia) ltac:(lia)). lia.
  - unfold padded_size. rewrite Hmax, trailing_zeros_pow2, Z.shiftl_1_l by lia. rewrite lor_ones by lia. lia.
Qed.

Lemma padded_size_ge m n : 0 ≤ n → n ≤ padded_size m n.
Proof.
  intros Hn. destruct m; [|done]. destruct (step_function n Hn) as (k & Hk & _ & _ & ->).
  pose proof (Z.pow_pos_nonneg 2 k ltac:(lia) ltac:(lia)). pose proof (Z.mul_succ_div_gt n (2 ^ k)). lia.
Qed.

Lemma padded_size_le m n : 0 ≤ n → padded_size m n ≤ n + Z.max 32 (n / 4).
Proof.
  intros Hn. destruct m; cbn [padded_size]; [|lia]. destruct (step_function n Hn) as (k & Hk & Hcase & _ & Hp). unfold padded_size in Hp. rewrite Hp.
  pose proof (Z.pow_pos_nonneg 2 k ltac:(lia) ltac:(lia)). pose proof (Z.div_mod n (2 ^ k) ltac:(lia)).
  pose proof (Z.mod_pos_bound n (2 ^ k) ltac:(lia)). destruct Hcase as [->|Hbig]; [change (2 ^ 5) with 32 in *; lia|].
  assert (2 ^ k ≤ n / 4); [|lia]. rewrite Z.pow_add_r in Hbig by lia. change (2 ^ 2) with 4 in Hbig. apply Z.div_le_lower_bound; lia.
Qed.

Lemma resize_ge b n : len b ≤ n → ∃ k, resize b n = b ++ replicate k (byte.of_Z 0) ∧ len (resize b n) = n.
Proof.
  intros H. exists (Z.to_nat n - length b)%nat. unfold resize, len in *. rewrite take_ge by lia. split; [done|].
  rewrite length_app, length_replicate. lia.
Qed.

(** ** The reuse guard *)
Lemma byte_xor_unsigned a b : byte.unsigned (byte_xor a b) = Z.lxor (byte.unsigned a) (byte.unsigned b).
Proof.
  unfold byte_xor. rewrite byte.unsigned_of_Z. unfold byte.wrap. apply Z.mod_small.
  pose proof (byte.unsigned_range a). pose proof (byte.unsigned_range b). change (2 ^ 8) with 256 in *.
  split; [apply Z.lxor_nonneg; lia|]. destruct (decide (Z.lxor (byte.unsigned a) (byte.unsigned b) = 0)); [lia|].
  apply Z.log2_lt_cancel. change (Z.log2 256) with 8. pose proof (Z.log2_lxor (byte.unsigned a) (byte.unsigned b) ltac:(lia) ltac:(lia)).
  assert (∀ x, 0 ≤ x < 256 → Z.log2 x < 8) as Hlog.
  { intros x Hx. destruct (decide (x = 0)) as [->|]; [done|]. apply Z.log2_lt_pow2; lia. }
  pose proof (Hlog (byte.unsigned a)). pose proof (Hlog (byte.unsigned b)). lia.
Qed.

Lemma byte_unsigned_inj a b : byte.unsigned a = byte.unsigned b → a = b.
Proof. intros H. rewrite <- (byte.of_Z_unsigned a), <- (byte.of_Z_unsigned b). by rewrite H. Qed.

Lemma byte_xor_twice a b : byte_xor (byte_xor a b) b = a.
Proof. apply byte_unsigned_inj. rewrite !byte_xor_unsigned, Z.lxor_assoc, Z.lxor_nilpotent. apply Z.lxor_0_r. Qed.

Lemma byte_xor_inj a b b' : byte_xor a b = byte_xor a b' → b = b'.
Proof.
  intros H. apply byte_unsigned_inj. apply (f_equal byte.unsigned) in H. rewrite !byte_xor_unsigned in H.
  apply (f_equal (Z.lxor (byte.unsigned a))) in H. by rewrite <- !Z.lxor_assoc, !Z.lxor_nilpotent, !Z.lxor_0_l in H.
Qed.

Lemma guard_apply_len guard nonce : len (guard_apply guard nonce) = len nonce.
Proof. unfold guard_apply, len. rewrite length_app, length_zip_with, length_drop. lia. Qed.

Lemma guard_apply_twice guard nonce : (length guard ≤ length nonce)%nat → guard_apply guard (guard_apply guard nonce) = nonce.
Proof.
  unfold guard_apply. revert nonce. induction guard as [|g guard IH]; intros [|n nonce] H; cbn in *; try done; try lia.
  rewrite byte_xor_twice. f_equal. apply IH. lia.
Qed.

Lemma guard_apply_inj guard guard' nonce :
  length guard = length guard' → (length guard ≤ length nonce)%nat → guard_apply guard nonce = guard_apply guard' nonce → guard = guard'.
Proof.
  unfold guard_apply. revert guard' nonce. induction guard as [|g guard IH]; intros [|g' guard'] [|n nonce] Hl Hn H; cbn in *; try done; try lia.
  injection H as Hx H. apply byte_xor_inj in Hx as ->. f_equal. apply (IH guard' nonce); [lia|lia|done].
Qed.

(** ** Encodings that succeed *)
Lemma sender_aad_ok aad : len (sda_group_id aad) ≤ VarInt.MAX →
  ∃ b, mls_encode_to_vec sender_data_aad_codec aad = Ok b ∧ len b ≤ AEAD_MAX.
Proof.
  intros H. destruct aad as [g e t]. unfold mls_encode_to_vec, sender_data_aad_codec. cbn [struct_codec tuple_codec mls_encode fst snd sda_group_id sda_epoch sda_content_type] in *.
  change VarInt.MAX with (2 ^ 30 - 1) in H. unfold AEAD_MAX.
  destruct (byte_vec_encode_bound g [] H) as (w & -> & Hw). change (len []) with 0 in Hw. cbn [mbind result_bind].
  destruct t; cbn; (eexists; split; [done|]); rewrite !len_app; unfold len in *; cbn [length]; lia.
Qed.

Lemma content_aad_ok aad : len (aad_group_id aad) ≤ VarInt.MAX → len (aad_data aad) ≤ VarInt.MAX →
  ∃ b, mls_encode_to_vec private_content_aad_codec aad = Ok b ∧ len b ≤ AEAD_MAX.
Proof.
  intros H1 H2. destruct aad as [g e t d]. unfold mls_encode_to_vec, private_content_aad_codec.
  cbn [struct_codec tuple_codec mls_encode fst snd aad_group_id aad_epoch aad_content_type aad_data] in *.
  change VarInt.MAX with (2 ^ 30 - 1) in H1, H2. unfold AEAD_MAX.
  destruct (byte_vec_encode_bound g [] H1) as (w & -> & Hw). change (len []) with 0 in Hw. cbn [mbind result_bind].
  destruct t; cbn -[byte_vec_codec];
    match goal with |- context [mls_encode byte_vec_codec d ?w'] => destruct (byte_vec_encode_bound d w' H2) as (b & -> & Hb) end;
    (exists b; split; [done|]); rewrite !len_app in Hb; unfold len in *; cbn [length] in Hb; lia.
Qed.

(** A content and its signature take at least one byte. *)
Lemma private_content_nonempty c bs : private_content_encode c = Ok bs → bs ≠ [].
Proof.
  unfold private_content_encode, auth_data_codec. cbn [struct_codec tuple_codec mls_encode fst snd]. intros (w & _ & H)%bind_ok.
  apply bind_ok in H as (w1 & H1%byte_vec_grows & H2). pose proof (len_nonneg w).
  assert (len w1 ≤ len bs) as Hle.
  { cbn [present_codec mls_encode] in H2. destruct (confirmation_tag _); [apply byte_vec_grows in H2; lia|by injection H2 as <-]. }
  intros ->. change (len []) with 0 in Hle. lia.
Qed.

(** Application data and its signature are within the bound of the ciphers. *)
Lemma application_content_bound d sig bs :
  private_content_encode {| pmc_content := ApplicationContent d; pmc_auth := {| auth_signature := sig; confirmation_tag := None |} |} = Ok bs →
  len bs ≤ 3 * 2 ^ 30.
Proof.
  unfold private_content_encode, auth_data_codec. cbn [pmc_content content_encode struct_codec tuple_codec mls_encode fst snd present_codec].
  intros (w & Hw%byte_vec_grows & H)%bind_ok. apply bind_ok in H as (w1 & H1%byte_vec_grows & [= <-]). change (len []) with 0 in Hw. lia.
Qed.

(** ** Sealing and opening *)
#[export] Instance array_laws n : CodecLaws (array_codec n) (λ b, length b = n).
Proof.
  split; cbn.
  - done.
  - intros a bs Ha [= <-]. unfold len. by rewrite Ha.
  - intros a _. eexists. split; [done|lia].
  - eauto.
  - intros a bs rest Ha [= <-]. rewrite decide_True by (rewrite length_app; lia).
    by rewrite take_app_length', drop_app_length' by done.
  - intros r a rest H. case_decide as Hn; [|done]. injection H as <- <-. split; [rewrite length_take; lia|].
    exists (take n r). by rewrite take_drop.
  - intros r. by case_decide.
Qed.

#[export] Instance sender_data_laws :
  CodecLaws sender_data_codec (λ d, is_u32 (sd_sender d) ∧ is_u32 (sd_generation d) ∧ length (reuse_guard d) = REUSE_GUARD_SIZE).
Proof.
  eapply laws_iff; [apply struct_laws; [by intros []|by intros (?&?&?)|typeclasses eauto]|].
  intros []. cbn. tauto.
Qed.

Section roundtrip.
Context (csp : CipherSuiteProvider) (Hkdf : kdf_laws csp) (Haead : aead_pair csp) (Hseal : aead_seals csp).
Context (Hrandom : random_total csp) (Hsize : csp_kdf_extract_size csp ≤ 2 ^ 16).

Lemma sender_data_key_ok secret ct : len secret = csp_kdf_extract_size csp →
  ∃ k, sender_data_key csp secret ct = Ok k ∧ len (sdk_key k) = csp_aead_key_size csp ∧ len (sdk_nonce k) = csp_aead_nonce_size csp.
Proof.
  intros Hl. assert (len (ciphertext_sample csp ct) ≤ 2 ^ 16) as Hs.
  { unfold ciphertext_sample, len in *. case_match eqn:E; [rewrite length_take; lia|]. apply Z.leb_gt in E. lia. }
  unfold sender_data_key.
  destruct (kdf_expand_ok csp secret (ascii "key") (ciphertext_sample csp ct) (Some (csp_aead_key_size csp))) as (k & -> & Hk);
    [done|done|right; by left|by vm_compute|done|]. cbn [mbind result_bind].
  destruct (kdf_expand_ok csp secret (ascii "nonce") (ciphertext_sample csp ct) (Some (csp_aead_nonce_size csp))) as (n & -> & Hn);
    [done|done|right; right; by left|by vm_compute|done|]. by eexists.
Qed.

Lemma sender_data_encode_ok d : length (reuse_guard d) = REUSE_GUARD_SIZE →
  ∃ b, mls_encode_to_vec sender_data_codec d = Ok b ∧ len b = 12.
Proof.
  destruct d as [a g u]. cbn [reuse_guard]. intros Hu. eexists. split; [reflexivity|].
  unfold len. rewrite !length_app, !length_to_be_bytes. cbn [snd reuse_guard length]. rewrite Hu. reflexivity.
Qed.

Lemma sender_data_roundtrip k d aad :
  is_u32 (sd_sender d) → is_u32 (sd_generation d) → length (reuse_guard d) = REUSE_GUARD_SIZE →
  len (sda_group_id aad) ≤ VarInt.MAX → len (sdk_key k) = csp_aead_key_size csp → len (sdk_nonce k) = csp_aead_nonce_size csp →
  ∃ b, sender_data_seal csp k d aad = Ok b ∧ sender_data_open csp k b aad = Ok d.
Proof.
  intros H1 H2 H3 Hg Hk Hn. unfold sender_data_seal, sender_data_open. destruct (sender_data_encode_ok d H3) as (data & Hd & Hdl).
  destruct (sender_aad_ok aad Hg) as (a & -> & Ha). rewrite Hd. cbn [from_codec_error map_err mbind result_bind].
  destruct (Hseal (sdk_key k) data (Some a) (sdk_nonce k)) as [ct Hct]; [by intros ->|rewrite Hdl; by vm_compute|done|done|done|].
  rewrite Hct. exists ct. split; [done|].
  rewrite (Haead _ _ _ _ _ Hct). cbn [crypto mbind result_bind].
  by rewrite (decode_nil_rest _ _ d data (conj H1 (conj H2 H3)) Hd).
Qed.

Lemma message_roundtrip_key k data aad guard :
  SecretTree.key_sized csp k → data ≠ [] → len data ≤ AEAD_MAX → len aad ≤ AEAD_MAX →
  ∃ ct, message_encrypt csp k data aad guard = Ok ct ∧ message_decrypt csp k ct aad guard = Ok data.
Proof.
  intros [Hk Hn] Hd Hdl Ha. unfold message_encrypt, message_decrypt.
  destruct (Hseal (SecretTree.key k) data (Some aad) (guard_apply guard (SecretTree.nonce k))) as [ct Hct]; [done..|by rewrite guard_apply_len|].
  rewrite Hct. exists ct. split; [done|]. by rewrite (Haead _ _ _ _ _ Hct).
Qed.

Context {GS GR : Type} `{!GroupStateProvider GS} `{!GroupStateProviderLaws GS}
  `{!GroupStateProvider GR} `{!GroupStateProviderLaws GR}.
Context (d : Z) (Hd : 0 ≤ d ≤ 31) (root : bytes) (sS : GS) (sR : GR) (m : AuthenticatedContent).
Context (aS aR : Z → SecretTree.KeyType → Z * gset Z) (lostS lostR : gset Z).

Notation i := (gs_self_index sS).
Notation kt := (key_type (content_type (fc_content (content m)))).
Notation g := ((aS i kt).1).

(** The two members are in the same epoch; the receiver can take the sender's
    next key.  The secrets of the epoch are of the KDF's size. *)
Record can_exchange : Prop := {
  ce_context : gs_context sR = gs_context sS;
  ce_secret : sender_data_secret (gs_secrets sR) = sender_data_secret (gs_secrets sS);
  ce_sizes : len root = csp_kdf_extract_size csp ∧ len (sender_data_secret (gs_secrets sS)) = csp_kdf_extract_size csp;
  ce_sender_tree : SecretTree.tree_inv csp d root (secret_tree (gs_secrets sS)) aS lostS;
  ce_receiver_tree : SecretTree.tree_inv csp d root (secret_tree (gs_secrets sR)) aR lostR;
  ce_index : 0 ≤ i < 2 ^ d;
  ce_distinct : gs_self_index sR ≠ i;
  ce_sender_kept : i ∉ lostS;
  ce_receiver_kept : i ∉ lostR;
  ce_room : g + 1 < 2 ^ 32;
  ce_fresh : g ∉ (aR i kt).2;
  ce_window : g ≤ (aR i kt).1 + SecretTree.MAX_RATCHET_BACK_HISTORY < 2 ^ 32;
}.

(** The message is one the sender may send in this epoch. *)
Record sendable (encoded : bytes) : Prop := {
  se_sender : fc_sender (content m) = Member i;
  se_group : fc_group_id (content m) = group_id (gs_context sS);
  se_epoch : fc_epoch (content m) = epoch (gs_context sS);
  se_format : wire_format m = WirePrivateMessage;
  se_content : content_wf (fc_content (content m));
  se_auth : auth_data_wf (content_type (fc_content (content m))) (auth m);
  se_encoded : private_content_encode {| pmc_content := fc_content (content m); pmc_auth := auth m |} = Ok encoded;
  se_group_len : len (group_id (gs_context sS)) ≤ VarInt.MAX;
  se_data_len : len (fc_authenticated_data (content m)) ≤ VarInt.MAX;
  se_bound : len encoded ≤ 3 * 2 ^ 30;
}.

Lemma open_seal_spec padding seed encoded :
  can_exchange → sendable encoded →
  ∃ msg sS' sR', seal csp sS m padding seed = (Ok msg, sS') ∧ open csp sR msg = (Ok m, sR') ∧
    SecretTree.tree_inv csp d root (secret_tree (gs_secrets sS'))
      (SecretTree.update aS i kt (g + 1, (aS i kt).2 ∪ {[g]})) lostS ∧
    SecretTree.tree_inv csp d root (secret_tree (gs_secrets sR'))
      (SecretTree.update aR i kt (Z.max (aR i kt).1 (g + 1), (aR i kt).2 ∪ {[g]})) lostR.
Proof.
  intros [Hctx Hsec [Hroot Hsds] HtS HtR Hi Hne HlS HlR Hroom Hfresh Hwin] [Es Eg Ee Ef Hc Ha Henc Hgl Hdl Hbound].
  destruct (SecretTree.keys_agree csp d root _ aS lostS _ aR lostR i kt Hkdf Hd Hroot Hi HtS HtR HlS HlR Hroom Hfresh Hwin)
    as (k & tS' & tR' & HkS & Hgen & Hsized & HkR & HiS & HiR).
  pose proof (Z.pow_le_mono_r 2 d 31 ltac:(lia) ltac:(lia)) as Hpow.
  assert (Node.node_index i = 2 * i) as Hidx by (unfold Node.node_index; rewrite u32_small; [lia|]; unfold is_u32; lia).
  destruct (Hrandom seed (Z.of_nat REUSE_GUARD_SIZE)) as (guard & Hg & Hgl4); [lia|]. rewrite Nat2Z.id in Hgl4.
  destruct (resize_ge encoded (padded_size padding (len encoded))) as (pad & Hpad & Hplen); [apply padded_size_ge; unfold len; lia|].
  pose proof (padded_size_le padding (len encoded) (len_nonneg encoded)) as Hple. rewrite Hpad in Hplen.
  assert (encoded ++ replicate pad (byte.of_Z 0) ≠ []) as Hpne.
  { intros [Hnil _]%app_nil. by apply private_content_nonempty in Henc. }
  assert (len (encoded ++ replicate pad (byte.of_Z 0)) ≤ AEAD_MAX) as Hpmax.
  { rewrite Hplen. unfold AEAD_MAX. pose proof (Z.div_le_upper_bound (len encoded) 4 (3 * 2 ^ 28)). lia. }
  set (c := content m) in *. set (t := content_type (fc_content c)) in *.
  destruct (content_aad_ok {| aad_group_id := fc_group_id c; aad_epoch := fc_epoch c; aad_content_type := t;
              aad_data := fc_authenticated_data c |}) as (aad & Haad' & Haadl); [cbn; by rewrite Eg|done|].
  destruct (message_roundtrip_key k (encoded ++ replicate pad (byte.of_Z 0)) aad guard Hsized Hpne Hpmax Haadl) as (ct & Hct & Hdec).
  destruct (sender_data_key_ok (sender_data_secret (gs_secrets sS)) ct) as (sk & Hsk & Hskk & Hskn); [done|].
  destruct (sender_data_roundtrip sk {| sd_sender := i; sd_generation := (aS i (key_type t)).1; reuse_guard := guard |} (sender_aad sS t)) as (esd & Hesd & Hopen);
    [unfold is_u32; cbn; lia|exact (SecretTree.generation_u32 csp d root _ aS lostS i kt Hkdf Hd Hroot HtS Hi HlS)|done|done|done|done|].
  eexists _, (set_secret_tree sS tS'), (set_secret_tree sR tR'). split_and!.
  - unfold seal. fold c t. rewrite bool_decide_eq_false_2 by (intros H; apply H; done). unfold guard_random, st_lift. rewrite Hg.
    cbn [crypto st_bind]. rewrite Henc. cbn [from_codec_error map_err st_bind]. rewrite Hpad. unfold next_encryption_key.
    rewrite Hidx, HkS. cbn [st_bind]. rewrite Haad'. cbn [from_codec_error map_err st_bind]. rewrite Hct. cbn [st_bind].
    unfold set_secret_tree at 1. rewrite gs_set_get. cbn [sender_data_secret]. rewrite Hsk. cbn [st_bind].
    rewrite Hgen. unfold sender_aad, set_secret_tree. rewrite !gs_set_context. unfold sender_aad in Hesd. rewrite Hesd. cbn [st_bind]. reflexivity.
  - unfold open, st_lift. cbn [pr_content_type pr_ciphertext encrypted_sender_data pr_group_id pr_epoch pr_authenticated_data].
    rewrite Hsec, Hsk. cbn [st_bind]. unfold sender_aad in Hopen |- *. rewrite Hctx, Hopen. cbn [st_bind sd_sender].
    rewrite bool_decide_eq_false_2 by done. unfold decryption_key. cbn [sd_generation reuse_guard]. rewrite Hidx, HkR. cbn [st_bind].
    unfold from_private_message. cbn [pr_content_type pr_group_id pr_epoch pr_authenticated_data].
    rewrite <- Eg, <- Ee, Haad'. cbn [from_codec_error map_err st_bind]. rewrite Hdec. cbn [st_bind].
    pose proof (private_content_roundtrip {| pmc_content := fc_content c; pmc_auth := auth m |} encoded pad Hc Ha Henc) as Hrt.
    cbn [pmc_content] in Hrt. fold t in Hrt. rewrite Hrt.
    cbn [from_codec_error map_err st_bind pmc_content pmc_auth]. f_equal. f_equal. rewrite <- Es. subst c t. clear -Ef.
    destruct m as [wf [gi ep se ad co] au]. cbn in *. by rewrite Ef.
  - unfold set_secret_tree. by rewrite gs_set_get.
  - unfold set_secret_tree. by rewrite gs_set_get.
Qed.
End roundtrip.

(** Private messages: whatever a member seals, under any padding, every other
    member of the epoch that has not lost the sender's ratchet, not used the
    generation and is at most 1024 generations behind opens to exactly the message
    that was sealed; both spend the key, and it fails for neither. *)
Theorem open_seal csp {GS GR} `{!GroupStateProvider GS} `{!GroupStateProviderLaws GS} `{!GroupStateProvider GR} `{!GroupStateProviderLaws GR}
    d root (sS : GS) (sR : GR) m aS aR lostS lostR padding seed encoded :
  kdf_laws csp → aead_pair csp → aead_seals csp → random_total csp → csp_kdf_extract_size csp ≤ 2 ^ 16 → 0 ≤ d ≤ 31 →
  can_exchange csp d root sS sR m aS aR lostS lostR → sendable sS m encoded →
  let i := gs_self_index sS in let kt := key_type (content_type (fc_content (content m))) in let g := (aS i kt).1 in
  ∃ msg sS' sR', seal csp sS m padding seed = (Ok msg, sS') ∧ open csp sR msg = (Ok m, sR') ∧
    SecretTree.tree_inv csp d root (secret_tree (gs_secrets sS'))
      (SecretTree.update aS i kt (g + 1, (aS i kt).2 ∪ {[g]})) lostS ∧
    SecretTree.tree_inv csp d root (secret_tree (gs_secrets sR'))
      (SecretTree.update aR i kt (Z.max (aR i kt).1 (g + 1), (aR i kt).2 ∪ {[g]})) lostR.
Proof. intros. by eapply open_seal_spec. Qed.

(** The first message of a group of two. *)
Definition first_epoch (self : Z) : PriorEpoch := {|
  context := new_group 1 1 [Byte.x07] [] [];
  self_index := self;
  epoch_secrets := {| resumption_secret := []; sender_data_secret := [Byte.x01; Byte.x02];
    secret_tree := SecretTree.new_tree 2 [Byte.x03; Byte.x04] |};
  signature_public_keys := [] |}.

Definition first_message : AuthenticatedContent := {|
  wire_format := WirePrivateMessage;
  content := {| fc_group_id := [Byte.x07]; fc_epoch := 0; fc_sender := Member 0; fc_authenticated_data := [];
    fc_content := ApplicationContent [Byte.x68; Byte.x69] |};
  auth := {| auth_signature := [Byte.x01]; confirmation_tag := None |} |}.

Lemma first_epoch_inv :
  SecretTree.tree_inv toy_csp 1 [Byte.x03; Byte.x04] (SecretTree.new_tree 2 [Byte.x03; Byte.x04]) (λ _ _, (0, ∅)) ∅.
Proof. assert (0 ≤ 1 ≤ 31) as H by lia. exact (SecretTree.new_tree_inv toy_csp 1 H [Byte.x03; Byte.x04]). Qed.

Lemma open_seal_witness :
  ∃ msg sS' sR', seal toy_csp (first_epoch 0) first_message StepFunction [Byte.x01] = (Ok msg, sS') ∧
    open toy_csp (first_epoch 1) msg = (Ok first_message, sR').
Proof.
  destruct (private_content_encode {| pmc_content := fc_content (content first_message); pmc_auth := auth first_message |})
    as [e| | |] eqn:E; try (vm_compute in E; discriminate E).
  destruct (open_seal toy_csp 1 [Byte.x03; Byte.x04] (first_epoch 0) (first_epoch 1) first_message
    (λ _ _, (0, ∅)) (λ _ _, (0, ∅)) ∅ ∅ StepFunction [Byte.x01] e) as (msg & sS' & sR' & H1 & H2 & _).
  - exact toy_kdf.
  - exact toy_aead.
  - exact toy_aead_seals.
  - exact toy_random.
  - by vm_compute.
  - lia.
  - split; cbn -[SecretTree.new_tree]; try exact first_epoch_inv; try lia; try done; try set_solver.
  - split; try exact E; try done.
    + split; [intros [x Hx]; discriminate Hx|intros Hx; discriminate Hx].
    + vm_compute in E. injection E as <-. by vm_compute.
  - exists msg, sS', sR'. split; [exact H1|exact H2].
Defined.

(** Padding: the padded size is larger than the content's by at least one byte
    and by at most a quarter (32 bytes for short messages); it is a multiple of a
    power of two not below 32, so that no more than the two bits below the leading
    one are visible: between two powers of two only four sizes occur. *)
Theorem padding_bounds n :
  0 ≤ n →
  n < padded_size StepFunction n ≤ n + Z.max 32 (n / 4) ∧
  ∃ k, 5 ≤ k ∧ (2 ^ k | padded_size StepFunction n) ∧ (256 ≤ n → n < 2 ^ (k + 3)).
Proof.
  intros Hn. pose proof (padded_size_le StepFunction n Hn). destruct (step_function n Hn) as (k & Hk & Hcase & Hlt & Hp).
  pose proof (Z.pow_pos_nonneg 2 k ltac:(lia) ltac:(lia)). pose proof (Z.div_mod n (2 ^ k) ltac:(lia)).
  pose proof (Z.mod_pos_bound n (2 ^ k) ltac:(lia)). rewrite Hp in *. split; [lia|].
  exists k. split_and!; [done|by exists (n / 2 ^ k + 1)|done].
Qed.

Lemma padding_bounds_witness : 1000 < padded_size StepFunction 1000 ≤ 1250.
Proof. destruct (padding_bounds 1000) as [H _]; [lia|]. exact H. Defined.

(** The reuse guard: applying it twice gives the nonce back, and as long as the
    nonce has the guard's four bytes two different guards never give the same
    nonce, so that a repeated key is not a repeated nonce. *)
Theorem reuse_guard_separates guard guard' nonce :
  length guard = REUSE_GUARD_SIZE → length guard' = REUSE_GUARD_SIZE → (REUSE_GUARD_SIZE ≤ length nonce)%nat →
  length (guard_apply guard nonce) = length nonce ∧ guard_apply guard (guard_apply guard nonce) = nonce ∧
  (guard_apply guard nonce = guard_apply guard' nonce → guard = guard').
Proof.
  intros H1 H2 Hn. split_and!.
  - unfold guard_apply. rewrite length_app, length_zip_with, length_drop. lia.
  - apply guard_apply_twice. lia.
  - intros H. apply (guard_apply_inj guard guard' nonce); [lia|lia|done].
Qed.

Lemma reuse_guard_separates_witness :
  guard_apply [Byte.x01; Byte.x02; Byte.x03; Byte.x04] [Byte.x05; Byte.x06; Byte.x07; Byte.x08; Byte.x09] ≠
  guard_apply [Byte.x01; Byte.x02; Byte.x03; Byte.x05] [Byte.x05; Byte.x06; Byte.x07; Byte.x08; Byte.x09].
Proof.
  intros H. apply (reuse_guard_separates [Byte.x01; Byte.x02; Byte.x03; Byte.x04] [Byte.x01; Byte.x02; Byte.x03; Byte.x05]) in H;
    [discriminate H|reflexivity|reflexivity|unfold REUSE_GUARD_SIZE; cbn; lia].
Defined.
