(* ===== verification/Hpke.v ===== *)
(** * Hybrid public key encryption (mls-rs-crypto-hpke, mls-rs-crypto-traits)

    The construction that turns a key encapsulation, a key derivation and an AEAD
    into the encryption the crypto providers offer.  The traits [KdfType],
    [AeadType], [DhType] and [KemType] are records of operations; the Diffie-Hellman
    KEM is an implementation of [KemType], [Hpke] a client of the three, proved
    against the class [KemLaws].

    The theorems: receiver and sender of a context agree on every message and every
    exported secret; no context returns two ciphertexts under one nonce; the
    derivation of a key pair tries exactly the candidates of the standard. *)
From Stdlib Require Import Strings.String.
From S2P Require Import Prelude Codec Types Crypto Labels PrivateMessage.

Module Hpke.
(** ** The traits: aead.rs, kdf.rs, dh.rs, kem.rs of mls-rs-crypto-traits

    Errors are boxed by every caller, so the operations return [AnyError].  The
    operations that draw randomness take it as an argument. *)
Record AeadType := {
  aead_id : Z;
  aead_seal : bytes → bytes → option bytes → bytes → Result AnyError bytes;
  aead_open : bytes → bytes → option bytes → bytes → Result AnyError bytes;
  aead_key_size : Z;
  aead_nonce_size : Z;
}.

Record KdfType := {
  kdf_id : Z;
  kdf_expand : bytes → bytes → Z → Result AnyError bytes;
  kdf_extract : bytes → bytes → Result AnyError bytes;
  kdf_extract_size : Z;
}.

Record DhType := {
  dh : bytes → bytes → Result AnyError bytes;
  dh_generate : bytes → Result AnyError (bytes * bytes);
  to_public : bytes → Result AnyError bytes;
  bitmask_for_rejection_sampling : option Z;
  secret_key_size : Z;
  dh_public_key_validate : bytes → Result AnyError unit;
}.

Record KemResult := { shared_secret : bytes; enc : bytes }.

Record KemType := {
  kem_id : Z;
  kem_derive : bytes → Result AnyError (bytes * bytes);
  kem_generate : bytes → Result AnyError (bytes * bytes);
  kem_public_key_validate : bytes → Result AnyError unit;
  kem_encap : bytes → bytes → Result AnyError KemResult;
  kem_decap : bytes → bytes → bytes → Result AnyError bytes;
}.

Definition AEAD_ID_EXPORT_ONLY : Z := 65535.

(** ** Labelled derivation: kdf.rs *)
Record HpkeKdf := { suite_id : bytes; kdf : KdfType }.

Definition extract_size (k : HpkeKdf) : Z := kdf_extract_size (kdf k).

Definition labeled_extract (k : HpkeKdf) (salt label ikm : bytes) : Result AnyError bytes :=
  kdf_extract (kdf k) salt (ascii "HPKE-v1" ++ suite_id k ++ label ++ ikm).

Definition labeled_expand (k : HpkeKdf) (key label info : bytes) (n : Z) : Result AnyError bytes :=
  let labeled_info := to_be_bytes 2 n ++ ascii "HPKE-v1" ++ suite_id k ++ label ++ info in
  kdf_expand (kdf k) key labeled_info n.

Definition labeled_extract_then_expand (k : HpkeKdf) (ikm ctx : bytes) (n : Z) : Result AnyError bytes :=
  eae_prk ← labeled_extract k [] (ascii "eae_prk") ikm;
  labeled_expand k eae_prk (ascii "shared_secret") ctx n.

(** ** The Diffie-Hellman KEM: dhkem.rs *)
Inductive DhKemError := DhKdfError (e : AnyError) | DhError (e : AnyError) | KeyDerivationError.

Record DhKem := { dhk_dh : DhType; dhk_kdf : HpkeKdf; dhk_kem_id : Z; n_secret : Z }.

Definition dh_kem_new (d : DhType) (k : KdfType) (kem_id n_secret : Z) : DhKem :=
  let suite_id := ascii "KEM" ++ to_be_bytes 2 kem_id in
  {| dhk_dh := d; dhk_kdf := {| suite_id := suite_id; kdf := k |}; dhk_kem_id := kem_id; n_secret := n_secret |}.

(** [secret_key[0] &= bitmask]; a panic when there is no byte. *)
Definition mask_first {E} (bitmask : Z) (sk : bytes) : Result E bytes :=
  match sk with
  | [] => Panic
  | b :: sk => Ok (byte.of_Z (Z.land (byte.unsigned b) bitmask) :: sk)
  end.

Definition candidate (k : DhKem) (dkp_prk : bytes) (bitmask i : Z) : Result DhKemError bytes :=
  secret_key ← map_err DhKdfError
    (labeled_expand (dhk_kdf k) dkp_prk (ascii "candidate") [byte.of_Z i] (secret_key_size (dhk_dh k)));
  mask_first bitmask secret_key.

(** The loop over [i] in [0u8..255]: [rounds] are left. *)
Fixpoint sample_from (k : DhKem) (dkp_prk : bytes) (bitmask i : Z) (rounds : nat) : Result DhKemError (bytes * bytes) :=
  match rounds with
  | O => Err KeyDerivationError
  | S rounds =>
      secret_key ← candidate k dkp_prk bitmask i;
      match to_public (dhk_dh k) secret_key with
      | Ok pk => Ok (secret_key, pk)
      | Err _ => sample_from k dkp_prk bitmask (i + 1) rounds
      | Panic => Panic
      | Diverge => Diverge
      end
  end.

Definition derive_with_rejection_sampling (k : DhKem) (dkp_prk : bytes) (bitmask : Z) : Result DhKemError (bytes * bytes) :=
  sample_from k dkp_prk bitmask 0 255.

Definition derive_without_rejection_sampling (k : DhKem) (dkp_prk : bytes) : Result DhKemError (bytes * bytes) :=
  sk ← map_err DhKdfError (labeled_expand (dhk_kdf k) dkp_prk (ascii "sk") [] (secret_key_size (dhk_dh k)));
  pk ← map_err DhError (to_public (dhk_dh k) sk);
  Ok (sk, pk).

Definition dh_kem_derive (k : DhKem) (ikm : bytes) : Result DhKemError (bytes * bytes) :=
  dkp_prk ← map_err DhKdfError (labeled_extract (dhk_kdf k) [] (ascii "dkp_prk") ikm);
  match bitmask_for_rejection_sampling (dhk_dh k) with
  | Some bitmask => derive_with_rejection_sampling k dkp_prk bitmask
  | None => derive_without_rejection_sampling k dkp_prk
  end.

Definition dh_kem_generate (k : DhKem) (seed : bytes) : Result DhKemError (bytes * bytes) :=
  map_err DhError (dh_generate (dhk_dh k) seed).

Definition dh_kem_encap (k : DhKem) (seed remote_pk : bytes) : Result DhKemError KemResult :=
  '(ephemeral_sk, ephemeral_pk) ← dh_kem_generate k seed;
  ecdh_ss ← map_err DhError (dh (dhk_dh k) ephemeral_sk remote_pk);
  let kem_context := ephemeral_pk ++ remote_pk in
  shared_secret ← map_err DhKdfError (labeled_extract_then_expand (dhk_kdf k) ecdh_ss kem_context (n_secret k));
  Ok {| shared_secret := shared_secret; enc := ephemeral_pk |}.

Definition dh_kem_decap (k : DhKem) (enc secret_key public_key : bytes) : Result DhKemError bytes :=
  ecdh_ss ← map_err DhError (dh (dhk_dh k) secret_key enc);
  let kem_context := enc ++ public_key in
  map_err DhKdfError (labeled_extract_then_expand (dhk_kdf k) ecdh_ss kem_context (n_secret k)).

(** [impl KemType for DhKem]; [box] is the boxing of its errors. *)
Definition dh_kem (box : DhKemError → AnyError) (k : DhKem) : KemType := {|
  kem_id := dhk_kem_id k;
  kem_derive ikm := map_err box (dh_kem_derive k ikm);
  kem_generate seed := map_err box (dh_kem_generate k seed);
  kem_public_key_validate pk := map_err box (map_err DhError (dh_public_key_validate (dhk_dh k) pk));
  kem_encap seed pk := map_err box (dh_kem_encap k seed pk);
  kem_decap enc sk pk := map_err box (dh_kem_decap k enc sk pk);
|}.

(** ** Contexts: context.rs *)
Inductive HpkeError :=
  | KemError (e : AnyError)
  | KdfError (e : AnyError)
  | AeadError (e : AnyError)
  | InsufficientPskLength
  | IncorrectNonceLen (actual expected : Z)
  | IncorrectKeyLen (actual expected : Z)
  | ExportOnlyMode
  | SequenceNumberOverflow.

Record EncryptionContext := { base_nonce : bytes; seq_number : Z; ec_aead : AeadType; aead_key : bytes }.

Definition set_seq_number (c : EncryptionContext) (n : Z) : EncryptionContext :=
  {| base_nonce := base_nonce c; seq_number := n; ec_aead := ec_aead c; aead_key := aead_key c |}.

Definition encryption_context_new (base_nonce : bytes) (aead : AeadType) (aead_key : bytes) : Result HpkeError EncryptionContext :=
  guard_or (len base_nonce =? aead_nonce_size aead) (IncorrectNonceLen (len base_nonce) (aead_nonce_size aead));;
  guard_or (len aead_key =? aead_key_size aead) (IncorrectKeyLen (len aead_key) (aead_key_size aead));;
  Ok {| base_nonce := base_nonce; seq_number := 0; ec_aead := aead; aead_key := aead_key |}.

(** [u64::to_le_bytes]. *)
Definition to_le_bytes (n : nat) (z : Z) : bytes := reverse (to_be_bytes n z).

(** The bytes of the nonce from the last one on are zipped with those of the
    sequence number, as those of a message's nonce are with its reuse guard. *)
Definition compute_nonce (c : EncryptionContext) : bytes :=
  reverse (guard_apply (to_le_bytes 8 (seq_number c)) (reverse (base_nonce c))).

Definition increment_seq (c : EncryptionContext) : Result HpkeError unit * EncryptionContext :=
  if seq_number c + 1 <? 2 ^ 64 then (Ok tt, set_seq_number c (seq_number c + 1)) else (Err SequenceNumberOverflow, c).

Definition ec_seal (c : EncryptionContext) (aad : option bytes) (pt : bytes) : Result HpkeError bytes * EncryptionContext :=
  try ct, c ← st_lift (map_err AeadError (aead_seal (ec_aead c) (aead_key c) pt aad (compute_nonce c))) c;
  try _, c ← increment_seq c;
  (Ok ct, c).

Definition ec_open (c : EncryptionContext) (aad : option bytes) (ct : bytes) : Result HpkeError bytes * EncryptionContext :=
  try pt, c ← st_lift (map_err AeadError (aead_open (ec_aead c) (aead_key c) ct aad (compute_nonce c))) c;
  try _, c ← increment_seq c;
  (Ok pt, c).

Record Context := { exporter_secret : bytes; encryption_context : option EncryptionContext; ctx_kdf : HpkeKdf }.

Definition set_encryption_context (c : Context) (e : EncryptionContext) : Context :=
  {| exporter_secret := exporter_secret c; encryption_context := Some e; ctx_kdf := ctx_kdf c |}.

(** [Context::seal] and [Context::open], which [ContextS] and [ContextR] wrap. *)
Definition context_seal (c : Context) (aad : option bytes) (data : bytes) : Result HpkeError bytes * Context :=
  match encryption_context c with
  | None => (Err ExportOnlyMode, c)
  | Some e => let '(r, e) := ec_seal e aad data in (r, set_encryption_context c e)
  end.

Definition context_open (c : Context) (aad : option bytes) (ct : bytes) : Result HpkeError bytes * Context :=
  match encryption_context c with
  | None => (Err ExportOnlyMode, c)
  | Some e => let '(r, e) := ec_open e aad ct in (r, set_encryption_context c e)
  end.

Definition context_export (c : Context) (exporter_context : bytes) (n : Z) : Result HpkeError bytes :=
  map_err KdfError (labeled_expand (ctx_kdf c) (exporter_secret c) (ascii "sec") exporter_context n).

(** ** The construction: hpke.rs *)
Record Hpke := { kem : KemType; hpke_kdf : HpkeKdf; aead : option AeadType }.

Record Psk := { psk_id : bytes; psk_value : bytes }.

Inductive HpkeModeId := Base | PskMode | Auth | AuthPsk.

Definition mode_byte (m : HpkeModeId) : Z := match m with Base => 0 | PskMode => 1 | Auth => 2 | AuthPsk => 3 end.

Definition hpke_new (kem : KemType) (kdf : KdfType) (aead : option AeadType) : Hpke :=
  let id := match aead with Some a => aead_id a | None => AEAD_ID_EXPORT_ONLY end in
  let suite_id := ascii "HPKE" ++ to_be_bytes 2 (kem_id kem) ++ to_be_bytes 2 (kdf_id kdf) ++ to_be_bytes 2 id in
  {| kem := kem; hpke_kdf := {| suite_id := suite_id; kdf := kdf |}; aead := aead |}.

Definition check_psk (psk : option Psk) : Result HpkeError unit :=
  match psk with
  | Some psk => if len (psk_value psk) <? 32 then Err InsufficientPskLength else Ok tt
  | None => Ok tt
  end.

Definition base_mode (psk : option Psk) : HpkeModeId := match psk with Some _ => PskMode | None => Base end.

Definition new_encryption (h : Hpke) (secret key_schedule_context : bytes) : Result HpkeError (option EncryptionContext) :=
  match aead h with
  | Some aead =>
      key ← map_err KdfError (labeled_expand (hpke_kdf h) secret (ascii "key") key_schedule_context (aead_key_size aead));
      base_nonce ← map_err KdfError
        (labeled_expand (hpke_kdf h) secret (ascii "base_nonce") key_schedule_context (aead_nonce_size aead));
      e ← encryption_context_new base_nonce aead key;
      Ok (Some e)
  | None => Ok None
  end.

Definition key_schedule (h : Hpke) (mode : HpkeModeId) (shared_secret info : bytes) (psk : option Psk) : Result HpkeError Context :=
  check_psk psk;;
  let psk := match psk with Some p => p | None => {| psk_id := []; psk_value := [] |} end in
  psk_id_hash ← map_err KdfError (labeled_extract (hpke_kdf h) [] (ascii "psk_id_hash") (psk_id psk));
  info_hash ← map_err KdfError (labeled_extract (hpke_kdf h) [] (ascii "info_hash") info);
  secret ← map_err KdfError (labeled_extract (hpke_kdf h) shared_secret (ascii "secret") (psk_value psk));
  let key_schedule_context := to_be_bytes 1 (mode_byte mode) ++ psk_id_hash ++ info_hash in
  encryption_context ← new_encryption h secret key_schedule_context;
  exporter_secret ← map_err KdfError
    (labeled_expand (hpke_kdf h) secret (ascii "exp") key_schedule_context (extract_size (hpke_kdf h)));
  Ok {| exporter_secret := exporter_secret; encryption_context := encryption_context; ctx_kdf := hpke_kdf h |}.

Definition setup_sender (h : Hpke) (seed remote_key info : bytes) (psk : option Psk) : Result HpkeError (bytes * Context) :=
  kem_res ← map_err KemError (kem_encap (kem h) seed remote_key);
  ctx ← key_schedule h (base_mode psk) (shared_secret kem_res) info psk;
  Ok (enc kem_res, ctx).

Definition setup_receiver (h : Hpke) (enc local_secret local_public info : bytes) (psk : option Psk) : Result HpkeError Context :=
  shared_secret ← map_err KemError (kem_decap (kem h) enc local_secret local_public);
  key_schedule h (base_mode psk) shared_secret info psk.

Definition seal (h : Hpke) (seed remote_key info : bytes) (psk : option Psk) (aad : option bytes) (pt : bytes)
    : Result HpkeError HpkeCiphertext :=
  '(kem_output, ctx) ← setup_sender h seed remote_key info psk;
  ct ← (context_seal ctx aad pt).1;
  Ok {| kem_output := kem_output; ciphertext := ct |}.

Definition open (h : Hpke) (c : HpkeCiphertext) (local_secret local_public info : bytes) (psk : option Psk) (aad : option bytes)
    : Result HpkeError bytes :=
  ctx ← setup_receiver h (kem_output c) local_secret local_public info psk;
  (context_open ctx aad (ciphertext c)).1.

Definition hpke_derive (h : Hpke) (ikm : bytes) : Result HpkeError (bytes * bytes) := map_err KemError (kem_derive (kem h) ikm).

Definition hpke_generate (h : Hpke) (seed : bytes) : Result HpkeError (bytes * bytes) := map_err KemError (kem_generate (kem h) seed).

Definition hpke_public_key_validate (h : Hpke) (key : bytes) : Result HpkeError unit :=
  map_err KemError (kem_public_key_validate (kem h) key).
(** ** What the traits promise *)
(** Opening inverts sealing. *)
Class AeadLaws (a : AeadType) : Prop :=
  aead_open_seal key pt aad nonce ct : aead_seal a key pt aad nonce = Ok ct → aead_open a key ct aad nonce = Ok pt.

(** RFC 9180, section 4.1: both parties of an exchange compute the same value. *)
Class DhLaws (d : DhType) : Prop := {
  generate_public seed sk pk : dh_generate d seed = Ok (sk, pk) → to_public d sk = Ok pk;
  dh_commutes sk pk sk' pk' s : to_public d sk = Ok pk → to_public d sk' = Ok pk' → dh d sk pk' = Ok s → dh d sk' pk = Ok s;
}.

(** The owner of a key pair recovers what was encapsulated for it. *)
Class KemLaws (k : KemType) (key_pair : bytes → bytes → Prop) : Prop := {
  derive_pair ikm sk pk : kem_derive k ikm = Ok (sk, pk) → key_pair sk pk;
  generate_pair seed sk pk : kem_generate k seed = Ok (sk, pk) → key_pair sk pk;
  decap_encap sk pk seed r : key_pair sk pk → kem_encap k seed pk = Ok r → kem_decap k (enc r) sk pk = Ok (shared_secret r);
}.

(** ** The Diffie-Hellman KEM *)
Lemma sample_exact k prk m n i sk pk :
  sample_from k prk m i n = Ok (sk, pk) ↔
  ∃ j, i ≤ j < i + Z.of_nat n ∧ candidate k prk m j = Ok sk ∧ to_public (dhk_dh k) sk = Ok pk ∧
    ∀ l, i ≤ l < j → ∃ sk' e, candidate k prk m l = Ok sk' ∧ to_public (dhk_dh k) sk' = Err e.
Proof.
  revert i. induction n as [|n IH]; intros i; cbn [sample_from].
  { split; [done|]. intros (j & ? & _). lia. }
  rewrite bind_ok. split.
  - intros (sk0 & Hc & H). destruct (to_public (dhk_dh k) sk0) as [pk0|e| |] eqn:Ep; try done.
    + injection H as -> ->. exists i. split_and!; [lia|lia|done|done|]. intros l ?. lia.
    + apply IH in H as (j & Hj & Hcj & Hpj & Hl). exists j. split_and!; [lia|lia|done|done|]. intros l Hl'.
      destruct (decide (l = i)) as [->|]; [by exists sk0, e|]. apply Hl. lia.
  - intros (j & Hj & Hcj & Hpj & Hl). destruct (decide (j = i)) as [->|]; [exists sk; by rewrite Hpj|].
    destruct (Hl i ltac:(lia)) as (sk0 & e & H0 & E0). exists sk0. rewrite E0. split; [done|]. apply IH.
    exists j. split_and!; [lia|lia|done|done|]. intros l ?. apply Hl. lia.
Qed.

#[export] Instance dh_kem_laws box k `{DhLaws (dhk_dh k)} : KemLaws (dh_kem box k) (λ sk pk, to_public (dhk_dh k) sk = Ok pk).
Proof.
  split; cbn.
  - intros ikm sk pk Hd%map_err_ok. unfold dh_kem_derive in Hd. apply bind_ok in Hd as (prk & _ & Hd).
    destruct (bitmask_for_rejection_sampling _); [by apply sample_exact in Hd as (j & _ & _ & ? & _)|].
    apply bind_ok in Hd as (sk0 & _ & Hd). by apply bind_ok in Hd as (pk0 & Hp%map_err_ok & [= <- <-]).
  - intros seed sk pk Hg%map_err_ok. unfold dh_kem_generate in Hg. apply map_err_ok in Hg. by eapply generate_public.
  - intros sk pk seed r Hp Hr%map_err_ok. apply map_err_ok. unfold dh_kem_encap, dh_kem_generate, dh_kem_decap in *.
    apply bind_ok in Hr as ([esk epk] & He%map_err_ok%generate_public & Hr). apply bind_ok in Hr as (s & Hs%map_err_ok & Hr).
    apply bind_ok in Hr as (ss & Hss & [= <-]). cbn [enc shared_secret]. by rewrite (dh_commutes _ _ _ _ _ He Hp Hs).
Qed.

(** The key pair of a seed, on a curve that needs sampling, is that of the first of
    the 255 candidates of RFC 9180, section 7.1.3, that is a secret key of the curve;
    when none is, the derivation fails with the error for that case. *)
Theorem rejection_sampling_exact k prk m :
  (∀ sk pk, derive_with_rejection_sampling k prk m = Ok (sk, pk) ↔
     ∃ j, 0 ≤ j < 255 ∧ candidate k prk m j = Ok sk ∧ to_public (dhk_dh k) sk = Ok pk ∧
       ∀ l, 0 ≤ l < j → ∃ sk' e, candidate k prk m l = Ok sk' ∧ to_public (dhk_dh k) sk' = Err e) ∧
  (derive_with_rejection_sampling k prk m = Err KeyDerivationError ↔
     ∀ l, 0 ≤ l < 255 → ∃ sk' e, candidate k prk m l = Ok sk' ∧ to_public (dhk_dh k) sk' = Err e).
Proof.
  split; [intros sk pk; apply sample_exact|]. unfold derive_with_rejection_sampling.
  change 255 with (0 + Z.of_nat 255). generalize 255%nat. intros n. generalize 0. induction n as [|n IH]; intros i; cbn [sample_from].
  { split; [|done]. intros _ l ?. lia. }
  split.
  - intros H. destruct (candidate k prk m i) as [sk|e| |] eqn:Ec; cbn in H; try done.
    + destruct (to_public (dhk_dh k) sk) as [|e| |] eqn:Ep; try done. pose proof (proj1 (IH _) H) as Hl. intros l Hl'.
      destruct (decide (l = i)) as [->|]; [by exists sk, e|]. apply Hl. lia.
    + exfalso. unfold candidate in Ec. injection H as ->. destruct (labeled_expand _ _ _ _ _) as [b| | |]; try done. by destruct b.
  - intros H. destruct (H i ltac:(lia)) as (sk & e & -> & E). cbn. rewrite E. apply IH. intros l ?. apply H. lia.
Qed.

(** ** Contexts *)
(** A context at work: the messages of a list in turn, up to the first failure. *)
Fixpoint seals (c : Context) (ms : list (option bytes * bytes)) : Result HpkeError (list bytes) * Context :=
  match ms with
  | [] => (Ok [], c)
  | (aad, pt) :: ms => try ct, c ← context_seal c aad pt; try cts, c ← seals c ms; (Ok (ct :: cts), c)
  end.

Fixpoint opens (c : Context) (ms : list (option bytes * bytes)) : Result HpkeError (list bytes) * Context :=
  match ms with
  | [] => (Ok [], c)
  | (aad, ct) :: ms => try pt, c ← context_open c aad ct; try pts, c ← opens c ms; (Ok (pt :: pts), c)
  end.

(** The AEAD of a context, if it has one, keeps its promise. *)
Definition lawful (c : Context) : Prop := ∀ e, encryption_context c = Some e → AeadLaws (ec_aead e).

Lemma open_sealed c aad pt ct c' : lawful c → context_seal c aad pt = (Ok ct, c') → context_open c aad ct = (Ok pt, c') ∧ lawful c'.
Proof.
  unfold context_seal, context_open, lawful. intros Hlaw. destruct (encryption_context c) as [e|]; [|done].
  specialize (Hlaw e eq_refl). destruct (ec_seal e aad pt) as [r e'] eqn:E. intros [= -> <-]. unfold ec_seal in E.
  apply st_bind_ok in E as (ct' & e1 & [= Hct%map_err_ok <-] & E). apply st_bind_ok in E as ([] & e2 & Hi & [= <- <-]).
  unfold ec_open. rewrite (aead_open_seal _ _ _ _ _ Hct). cbn. rewrite Hi. cbn. split; [done|].
  intros e3 [= <-]. unfold increment_seq in Hi. destruct (_ <? _); [|done]. by injection Hi as <-.
Qed.

Lemma opens_seals c ms cts c' : lawful c → seals c ms = (Ok cts, c') → opens c (zip ms.*1 cts) = (Ok ms.*2, c').
Proof.
  revert c cts. induction ms as [|[aad pt] ms IH]; intros c cts Hc; cbn [seals]; [by intros [= <- <-]|].
  intros (ct & c1 & H1 & H)%st_bind_ok. apply st_bind_ok in H as (cts1 & c2 & H2 & [= <- <-]).
  apply open_sealed in H1 as [H1 Hc1]; [|done]. cbn. rewrite H1. cbn. by rewrite (IH _ _ Hc1 H2).
Qed.

Lemma key_schedule_aead h m ss info psk c e :
  key_schedule h m ss info psk = Ok c → encryption_context c = Some e → aead h = Some (ec_aead e) ∧ seq_number e = 0 ∧
    len (base_nonce e) = aead_nonce_size (ec_aead e) ∧ len (aead_key e) = aead_key_size (ec_aead e).
Proof.
  unfold key_schedule. intros ([] & _ & H)%bind_ok. apply bind_ok in H as (a & _ & H). apply bind_ok in H as (b & _ & H).
  apply bind_ok in H as (s & _ & H). apply bind_ok in H as (o & Ho & H). apply bind_ok in H as (x & _ & [= <-]). cbn. intros ->.
  unfold new_encryption in Ho. destruct (aead h) as [ae|]; [|done]. apply bind_ok in Ho as (k & _ & Ho).
  apply bind_ok in Ho as (n & _ & Ho). apply bind_ok in Ho as (e' & He & [= ->]). unfold encryption_context_new in He.
  apply bind_ok in He as ([] & Hn%guard_or_ok%Z.eqb_eq & He). by apply bind_ok in He as ([] & Hk%guard_or_ok%Z.eqb_eq & [= <-]).
Qed.

Lemma receiver_context h (key_pair : bytes → bytes → Prop) `{KemLaws (kem h) key_pair} sk pk seed info psk out c :
  key_pair sk pk → setup_sender h seed pk info psk = Ok (out, c) → setup_receiver h out sk pk info psk = Ok c.
Proof.
  intros Hp. unfold setup_sender, setup_receiver. intros (r & Hr%map_err_ok & Hs)%bind_ok.
  apply bind_ok in Hs as (c' & Hc & [= <- <-]). by rewrite (decap_encap _ _ _ _ Hp Hr).
Qed.

Lemma setup_lawful h seed pk info psk out c :
  (∀ a, aead h = Some a → AeadLaws a) → setup_sender h seed pk info psk = Ok (out, c) → lawful c.
Proof.
  intros Ha. unfold setup_sender. intros (r & _ & Hs)%bind_ok. apply bind_ok in Hs as (c' & Hc & [= <- <-]). intros e He.
  destruct (key_schedule_aead _ _ _ _ _ _ _ Hc He) as (Hae & _). by apply Ha.
Qed.

Lemma opened_sealed h (key_pair : bytes → bytes → Prop) `{KemLaws (kem h) key_pair} sk pk seed info psk aad pt c :
  (∀ a, aead h = Some a → AeadLaws a) → key_pair sk pk →
  seal h seed pk info psk aad pt = Ok c → open h c sk pk info psk aad = Ok pt.
Proof.
  intros Ha Hp. unfold seal, open. intros ([out ctx] & Hs & Hc)%bind_ok. apply bind_ok in Hc as (ct & Hct & [= <-]). cbn [kem_output ciphertext].
  rewrite (receiver_context _ _ _ _ _ _ _ _ _ Hp Hs). cbn. pose proof (setup_lawful _ _ _ _ _ _ _ Ha Hs) as Hl.
  destruct (context_seal ctx aad pt) as [r c'] eqn:E. cbn in Hct. subst r. by apply open_sealed in E as [-> _].
Qed.

(** C15. The two ends of a channel agree.  Whoever has the secret key of the public key a
    sender used sets up its context without error from the encapsulated key; what the
    sender seals, message after message, it opens in the same order, each under the
    associated data of the message; and any secret that both export is the same. *)
Theorem contexts_agree h (key_pair : bytes → bytes → Prop) sk pk seed info psk out c :
  KemLaws (kem h) key_pair → (∀ a, aead h = Some a → AeadLaws a) → key_pair sk pk → setup_sender h seed pk info psk = Ok (out, c) →
  ∃ r, setup_receiver h out sk pk info psk = Ok r ∧ (∀ x n, context_export r x n = context_export c x n) ∧
    ∀ ms cts c', seals c ms = (Ok cts, c') → ∃ r', opens r (zip ms.*1 cts) = (Ok ms.*2, r').
Proof.
  intros Hk Ha Hp Hs. exists c. split_and!; [by eapply receiver_context|done|]. intros ms cts c' Hm. exists c'.
  apply opens_seals; [|done]. by eapply setup_lawful.
Qed.

(** ** Nonces *)
(** The nonces under which a context returns a ciphertext, over the calls of a list,
    some of which may fail. *)
Fixpoint used_nonces (c : EncryptionContext) (ms : list (option bytes * bytes)) : list bytes :=
  match ms with
  | [] => []
  | (aad, pt) :: ms =>
      let '(r, c') := ec_seal c aad pt in
      (if is_ok r then [compute_nonce c] else []) ++ used_nonces c' ms
  end.

Lemma to_le_inj n a b : 0 ≤ a < 2 ^ (8 * Z.of_nat n) → 0 ≤ b < 2 ^ (8 * Z.of_nat n) → to_le_bytes n a = to_le_bytes n b → a = b.
Proof.
  intros Ha Hb H. apply (f_equal (from_be_bytes ∘ reverse)) in H. unfold to_le_bytes in H. cbn in H.
  by rewrite !reverse_involutive, !from_to_be_bytes_small in H.
Qed.

Lemma nonce_inj c m n : 8 ≤ len (base_nonce c) → is_u64 m → is_u64 n →
  compute_nonce (set_seq_number c m) = compute_nonce (set_seq_number c n) → m = n.
Proof.
  unfold is_u64, compute_nonce, len. cbn [base_nonce seq_number set_seq_number]. intros Hl Hm Hn H.
  apply (f_equal reverse) in H. rewrite !reverse_involutive in H.
  apply guard_apply_inj in H; [by apply (to_le_inj 8)|unfold to_le_bytes; by rewrite !length_reverse, !length_to_be_bytes|].
  unfold to_le_bytes. rewrite !length_reverse, length_to_be_bytes. lia.
Qed.

Lemma seal_seq c aad pt r c' : ec_seal c aad pt = (r, c') →
  c' = c ∧ is_ok r = false ∨ c' = set_seq_number c (seq_number c + 1) ∧ seq_number c + 1 < 2 ^ 64.
Proof.
  unfold ec_seal, increment_seq. destruct (aead_seal _ _ _ _ _); cbn; [|intros [= <- <-]; by left..].
  destruct (Z.ltb_spec (seq_number c + 1) (2 ^ 64)); cbn; intros [= <- <-]; [by right|by left].
Qed.

Lemma nonces_from c ms x : is_u64 (seq_number c) → x ∈ used_nonces c ms →
  ∃ n, seq_number c ≤ n < 2 ^ 64 ∧ x = compute_nonce (set_seq_number c n).
Proof.
  revert c. induction ms as [|[aad pt] ms IH]; intros c Hc; cbn [used_nonces]; [by intros ?%elem_of_nil|].
  destruct (ec_seal c aad pt) as [r c'] eqn:E. rewrite elem_of_app. intros [H|H].
  - destruct (is_ok r); [|by apply elem_of_nil in H]. apply list_elem_of_singleton in H as ->. exists (seq_number c).
    split; [unfold is_u64 in Hc; lia|]. by destruct c.
  - unfold is_u64 in *. destruct (seal_seq _ _ _ _ _ E) as [[-> _]|[-> Hs]]; [by apply IH|].
    apply IH in H as (n & Hn & ->); cbn in *; [|lia]. exists n. split; [lia|done].
Qed.

(** C30. No nonce is used twice.  Whatever a context is asked to seal, and however often
    that fails, no two of the ciphertexts it returns are under the same nonce: the
    sequence number is exclusive-ored in full, and the context refuses to go on
    rather than to let it wrap around. *)
Theorem nonces_never_repeat c ms : 8 ≤ len (base_nonce c) → is_u64 (seq_number c) → NoDup (used_nonces c ms).
Proof.
  revert c. induction ms as [|[aad pt] ms IH]; intros c Hl Hc; cbn [used_nonces]; [constructor|].
  destruct (ec_seal c aad pt) as [r c'] eqn:E. apply seal_seq in E as [[-> ->]|[-> Hs]]; [by apply IH|].
  assert (is_u64 (seq_number c + 1)) as Hc1 by (unfold is_u64 in *; lia).
  assert (NoDup (used_nonces (set_seq_number c (seq_number c + 1)) ms)) as Hn by by apply IH.
  destruct (is_ok r); [|done]. apply NoDup_cons. split; [|done].
  intros (n & Hn' & Hx)%nonces_from; [|done]. cbn [seq_number set_seq_number] in Hn'.
  replace (compute_nonce c) with (compute_nonce (set_seq_number c (seq_number c))) in Hx by by destruct c.
  apply (nonce_inj c) in Hx; [lia|done|done|]. unfold is_u64 in *. lia.
Qed.

(** ** Panics

    What the traits must not do, and that then nothing here panics. *)
Class KdfSettled (k : KdfType) : Prop := {
  ks_expand prk info n : settled (kdf_expand k prk info n);
  ks_length prk info n b : 0 ≤ n → kdf_expand k prk info n = Ok b → len b = n;
  ks_extract salt ikm : settled (kdf_extract k salt ikm);
}.

Class DhSettled (d : DhType) : Prop := {
  ds_dh sk pk : settled (dh d sk pk);
  ds_generate seed : settled (dh_generate d seed);
  ds_public sk : settled (to_public d sk);
  ds_size : 0 < secret_key_size d;
}.

Class AeadSettled (a : AeadType) : Prop :=
  as_nonce key data aad nonce : len nonce = aead_nonce_size a → settled (aead_seal a key data aad nonce) ∧ settled (aead_open a key data aad nonce).

Class KemSettled (k : KemType) : Prop := {
  kms_derive ikm : settled (kem_derive k ikm);
  kms_generate seed : settled (kem_generate k seed);
  kms_encap seed pk : settled (kem_encap k seed pk);
  kms_decap out sk pk : settled (kem_decap k out sk pk);
}.

Lemma settled_map_err {E F A} (f : E → F) (r : Result E A) : settled r → settled (map_err f r).
Proof. by destruct r. Qed.

Lemma settled_guard {E} b (e : E) : settled (guard_or b e).
Proof. by destruct b. Qed.

#[local] Hint Resolve settled_map_err settled_guard ks_expand ks_extract ds_dh ds_generate ds_public : mls.

(** Settled, bind after bind. *)
Ltac settle := repeat (apply settled_bind; [by eauto with mls|intros ? ?]); first [exact I|by eauto with mls|idtac].

Lemma sample_settled k prk m i n : KdfSettled (kdf (dhk_kdf k)) → DhSettled (dhk_dh k) → settled (sample_from k prk m i n).
Proof.
  intros Hk Hd. revert i. induction n as [|n IH]; intros i; cbn [sample_from]; [done|]. apply settled_bind.
  - unfold candidate, labeled_expand. apply settled_bind; [by eauto with mls|]. intros b Hb%map_err_ok.
    apply ks_length in Hb; [|pose proof (ds_size (d := dhk_dh k)); lia]. pose proof (ds_size (d := dhk_dh k)). destruct b; [unfold len in Hb; cbn in Hb; lia|done].
  - intros sk _. pose proof (ds_public (d := dhk_dh k) sk). by destruct (to_public _ sk).
Qed.

#[export] Instance dh_kem_settled box k : KdfSettled (kdf (dhk_kdf k)) → DhSettled (dhk_dh k) → KemSettled (dh_kem box k).
Proof.
  intros Hk Hd. split; intros; apply settled_map_err.
  - unfold dh_kem_derive, labeled_extract. settle. destruct (bitmask_for_rejection_sampling _); [by apply sample_settled|].
    unfold derive_without_rejection_sampling, labeled_expand. settle.
  - by apply settled_map_err, ds_generate.
  - unfold dh_kem_encap, dh_kem_generate. apply settled_bind; [by eauto with mls|]. intros [esk epk] _.
    unfold labeled_extract_then_expand, labeled_extract, labeled_expand. settle.
  - unfold dh_kem_decap, labeled_extract_then_expand, labeled_extract, labeled_expand. settle.
Qed.

Section settled.
Context (h : Hpke) {Hkem : KemSettled (kem h)} {Hkdf : KdfSettled (kdf (hpke_kdf h))}.
Context (Haead : ∀ a, aead h = Some a → AeadSettled a).

Lemma new_encryption_settled secret ctx : settled (new_encryption h secret ctx).
Proof.
  unfold new_encryption, labeled_expand. destruct (aead h); [|done]. settle. apply settled_bind; [|done].
  unfold encryption_context_new. settle.
Qed.

Lemma key_schedule_settled m ss info psk : settled (key_schedule h m ss info psk).
Proof.
  unfold key_schedule. apply settled_bind; [destruct psk as [x|]; [by cbn; destruct (_ <? _)|done]|]. intros [] _.
  unfold labeled_extract, labeled_expand. settle. apply settled_bind; [apply new_encryption_settled|]. intros e _. settle.
Qed.

Lemma compute_nonce_length c : len (compute_nonce c) = len (base_nonce c).
Proof. unfold compute_nonce, guard_apply, len. rewrite length_reverse, length_app, length_zip_with, length_drop, !length_reverse. lia. Qed.

Lemma setup_settled seed out sk pk info psk : settled (setup_sender h seed pk info psk) ∧ settled (setup_receiver h out sk pk info psk).
Proof.
  pose proof (kms_encap (k := kem h)). pose proof (kms_decap (k := kem h)). pose proof key_schedule_settled.
  unfold setup_sender, setup_receiver. split; settle.
Qed.

Lemma context_settled m ss info psk c aad b : key_schedule h m ss info psk = Ok c →
  settled (context_seal c aad b).1 ∧ settled (context_open c aad b).1.
Proof.
  intros Hc. unfold context_seal, context_open. destruct (encryption_context c) as [e|] eqn:He; [|done].
  apply (key_schedule_aead _ _ _ _ _ _ _ Hc) in He as (Ha & _ & Hn & _).
  destruct (Haead _ Ha (aead_key e) b aad (compute_nonce e)) as [Hs Ho]; [by rewrite compute_nonce_length|].
  unfold ec_seal, ec_open, increment_seq.
  split; [destruct (aead_seal _ _ _ _ _)|destruct (aead_open _ _ _ _ _)]; cbn; try done; by destruct (seq_number e + 1 <? _).
Qed.

(** With traits that do not panic, encryption, decryption and export do not. *)
Lemma hpke_settled seed sk pk info psk aad pt c label n :
  settled (seal h seed pk info psk aad pt) ∧ settled (open h c sk pk info psk aad) ∧
  settled ('(out, x) ← setup_sender h seed pk info psk; y ← context_export x label n; Ok (out, y)) ∧
  settled (x ← setup_receiver h pt sk pk info psk; context_export x label n).
Proof.
  destruct (setup_settled seed (kem_output c) sk pk info psk) as [Hs Hr]. destruct (setup_settled seed pt sk pk info psk) as [_ Hr'].
  unfold seal, open, context_export, labeled_expand. split_and!.
  - apply settled_bind; [done|]. intros [out x] Hx. unfold setup_sender in Hx. apply bind_ok in Hx as (r & _ & Hx).
    apply bind_ok in Hx as (x' & Hx & [= <- <-]). apply settled_bind; [|done]. by eapply context_settled.
  - apply settled_bind; [done|]. intros x Hx. unfold setup_receiver in Hx. apply bind_ok in Hx as (r & _ & Hx). by eapply context_settled.
  - apply settled_bind; [done|]. intros [out x] Hx. unfold setup_sender in Hx. apply bind_ok in Hx as (r & _ & Hx).
    apply bind_ok in Hx as (x' & Hx & [= <- <-]). unfold key_schedule in Hx. inv_res. settle.
  - apply settled_bind; [done|]. intros x Hx. unfold setup_receiver, key_schedule in Hx. inv_res. settle.
Qed.
End settled.
End Hpke.
