(* ===== verification/RustCrypto.v ===== *)
(** * The RustCrypto provider (mls-rs-crypto-rustcrypto, mls-rs-crypto-traits)

    The provider of the cipher suites in pure Rust: which algorithm belongs to which
    suite, the checks around each primitive, and the suite that puts them together
    with [Hpke].  The primitives themselves are those of other crates (aes-gcm,
    chacha20poly1305, hkdf, sha2, hmac, x25519-dalek, ed25519-dalek, p256): a record
    [Primitives] of operations, with the documented behaviour the provider relies on
    as the class [PrimitiveLaws].

    The theorem: the provider of a supported suite has what the protocol relies on,
    so the theorems about the groups hold for it. *)
From Stdlib Require Import Strings.String.
From S2P Require Import Prelude Codec Types Crypto Labels PrivateMessage Hpke.

Module RustCrypto.
Import Hpke.

(** ** The algorithms of a cipher suite: mls-rs-core/src/crypto/cipher_suite.rs and
    mls-rs-crypto-traits *)
Definition CURVE25519_AES128 : Z := 1.
Definition P256_AES128 : Z := 2.
Definition CURVE25519_CHACHA : Z := 3.
Definition CURVE448_AES256 : Z := 4.
Definition P521_AES256 : Z := 5.
Definition CURVE448_CHACHA : Z := 6.
Definition P384_AES256 : Z := 7.

Definition suite_in (cs : Z) (l : list Z) : bool := existsb (Z.eqb cs) l.

Inductive AeadId := Aes128Gcm | Aes256Gcm | Chacha20Poly1305.

Definition aead_id_number (a : AeadId) : Z := match a with Aes128Gcm => 1 | Aes256Gcm => 2 | Chacha20Poly1305 => 3 end.

Definition aead_id_new (cs : Z) : option AeadId :=
  if suite_in cs [P256_AES128; CURVE25519_AES128] then Some Aes128Gcm
  else if suite_in cs [CURVE448_AES256; P384_AES256; P521_AES256] then Some Aes256Gcm
  else if suite_in cs [CURVE25519_CHACHA; CURVE448_CHACHA] then Some Chacha20Poly1305
  else None.

Definition key_size (a : AeadId) : Z := match a with Aes128Gcm => 16 | Aes256Gcm => 32 | Chacha20Poly1305 => 32 end.
Definition nonce_size (a : AeadId) : Z := 12.
Definition AES_TAG_LEN : Z := 16.

Inductive KdfId := HkdfSha256 | HkdfSha384 | HkdfSha512.

Definition kdf_id_number (k : KdfId) : Z := match k with HkdfSha256 => 1 | HkdfSha384 => 2 | HkdfSha512 => 3 end.

Definition kdf_id_new (cs : Z) : option KdfId :=
  if suite_in cs [CURVE25519_AES128; P256_AES128; CURVE25519_CHACHA] then Some HkdfSha256
  else if suite_in cs [P384_AES256] then Some HkdfSha384
  else if suite_in cs [CURVE448_CHACHA; CURVE448_AES256; P521_AES256] then Some HkdfSha512
  else None.

Definition kdf_size (k : KdfId) : Z := match k with HkdfSha256 => 32 | HkdfSha384 => 48 | HkdfSha512 => 64 end.

Inductive KemId := DhKemP256Sha256 | DhKemP384Sha384 | DhKemP521Sha512 | DhKemX25519Sha256 | DhKemX448Sha512.

Definition kem_id_number (k : KemId) : Z :=
  match k with
  | DhKemP256Sha256 => 16 | DhKemP384Sha384 => 17 | DhKemP521Sha512 => 18 | DhKemX25519Sha256 => 32 | DhKemX448Sha512 => 33
  end.

Definition kem_id_new (cs : Z) : option KemId :=
  if suite_in cs [CURVE25519_AES128; CURVE25519_CHACHA] then Some DhKemX25519Sha256
  else if suite_in cs [P256_AES128] then Some DhKemP256Sha256
  else if suite_in cs [CURVE448_AES256; CURVE448_CHACHA] then Some DhKemX448Sha512
  else if suite_in cs [P384_AES256] then Some DhKemP384Sha384
  else if suite_in cs [P521_AES256] then Some DhKemP521Sha512
  else None.

Definition kem_n_secret (k : KemId) : Z :=
  match k with
  | DhKemP256Sha256 => 32 | DhKemP384Sha384 => 48 | DhKemP521Sha512 => 64 | DhKemX25519Sha256 => 32 | DhKemX448Sha512 => 64
  end.

Inductive Curve := P256 | P384 | P521 | X25519 | Ed25519 | X448 | Ed448.

Definition curve_secret_key_size (c : Curve) : Z :=
  match c with P256 => 32 | P384 => 48 | P521 => 66 | X25519 => 32 | Ed25519 => 64 | X448 => 56 | Ed448 => 114 end.

Definition from_ciphersuite (cs : Z) (for_sig : bool) : option Curve :=
  if suite_in cs [P256_AES128] then Some P256
  else if suite_in cs [P384_AES256] then Some P384
  else if suite_in cs [P521_AES256] then Some P521
  else if suite_in cs [CURVE25519_AES128; CURVE25519_CHACHA] && for_sig then Some Ed25519
  else if suite_in cs [CURVE25519_AES128; CURVE25519_CHACHA] then Some X25519
  else if suite_in cs [CURVE448_AES256; CURVE448_CHACHA] && for_sig then Some Ed448
  else if suite_in cs [CURVE448_AES256; CURVE448_CHACHA] then Some X448
  else None.

Definition curve_bitmask (c : Curve) : option Z :=
  match c with P256 | P384 => Some 255 | P521 => Some 1 | _ => None end.

Inductive Hash := Sha256 | Sha384 | Sha512.

(** [Hash::new(cs).ok()]. *)
Definition hash_new (cs : Z) : option Hash :=
  if suite_in cs [CURVE25519_AES128; P256_AES128; CURVE25519_CHACHA] then Some Sha256
  else if suite_in cs [P384_AES256] then Some Sha384
  else if suite_in cs [CURVE448_AES256; CURVE448_CHACHA; P521_AES256] then Some Sha512
  else None.

(** ** The primitives of other crates

    Keys have types of their own; an operation that can fail returns an option;
    random generation takes the randomness as an argument. *)
Record Primitives := {
  rc_encrypt : AeadId → bytes → bytes → bytes → bytes → option bytes;
  rc_decrypt : AeadId → bytes → bytes → bytes → bytes → option bytes;
  hkdf_from_prk : KdfId → bytes → bool;
  hkdf_expand : KdfId → bytes → bytes → Z → option bytes;
  hkdf_extract : KdfId → option bytes → bytes → bytes;
  digest : Hash → bytes → bytes;
  hmac : Hash → bytes → bytes → option bytes;
  try_fill_bytes : bytes → Z → option bytes;
  x25519_public : Type;
  x25519_secret : Type;
  x25519_public_from : bytes → x25519_public;
  x25519_public_bytes : x25519_public → bytes;
  x25519_secret_from : bytes → x25519_secret;
  x25519_secret_bytes : x25519_secret → bytes;
  x25519_random : bytes → x25519_secret;
  x25519_public_of : x25519_secret → x25519_public;
  x25519_dh : x25519_secret → x25519_public → bytes;
  ed25519_public : Type;
  ed25519_secret : Type;
  ed25519_public_from : bytes → option ed25519_public;
  ed25519_public_bytes : ed25519_public → bytes;
  ed25519_secret_from : bytes → option ed25519_secret;
  ed25519_secret_bytes : ed25519_secret → bytes;
  ed25519_random : bytes → ed25519_secret;
  ed25519_public_of : ed25519_secret → ed25519_public;
  ed25519_signature : Type;
  ed25519_sign : ed25519_secret → bytes → ed25519_signature;
  ed25519_signature_from : bytes → option ed25519_signature;
  ed25519_signature_bytes : ed25519_signature → bytes;
  ed25519_verify : ed25519_public → bytes → ed25519_signature → bool;
  p256_point : Type;
  p256_public : Type;
  p256_secret : Type;
  p256_point_from : bytes → option p256_point;
  p256_point_bytes : p256_point → bytes;
  p256_public_from : p256_point → option p256_public;
  p256_public_point : p256_public → p256_point;
  p256_secret_from : bytes → option p256_secret;
  p256_secret_bytes : p256_secret → bytes;
  p256_random : bytes → p256_secret;
  p256_public_of : p256_secret → p256_public;
  p256_dh : p256_secret → p256_public → bytes;
  p256_signature : Type;
  p256_sign : p256_secret → bytes → p256_signature;
  p256_signature_from : bytes → option p256_signature;
  p256_signature_bytes : p256_signature → bytes;
  p256_verify : p256_public → bytes → p256_signature → bool;
}.

(** The errors of the modules; [UnsupportedCipherSuite] of [AeadError], [KdfError] and
    [EcdhKemError] is for algorithms added to the traits later and cannot occur. *)
Inductive EcError := P256Error | UnsupportedCurve | EcKeyInvalidKeyData | EcKeyNotSignature | TryFromSliceError | SignatureError
  | RandCoreError | EcdhKeyTypeMismatch | EcKeyNotEcdh.

Inductive RcAeadErr := RcAeadError | InvalidCipherLen (n : Z) | EmptyPlaintext | InvalidKeyLen (n expected : Z).
Inductive RcKdfErr := InvalidPrkLength | InvalidLength | TooShortKey (n expected : Z).
Inductive HashError := InvalidHmacLength | UnsupportedCipherSuite.
Inductive EcdhKemError := EcdhEcError (e : EcError).
Inductive EcSignerError := SignerNotSignature | SignerEcError (e : EcError) | InvalidSignature.

Inductive RustCryptoError :=
  | RustAeadError (e : AnyError)
  | RustHpkeError (e : HpkeError)
  | RustKdfError (e : AnyError)
  | RustHashError (e : HashError)
  | RandError
  | RustEcSignerError (e : EcSignerError).

(** What is boxed by [into_any_error]; [box] is the boxing. *)
Inductive DynError :=
  | DynAead (e : RcAeadErr)
  | DynKdf (e : RcKdfErr)
  | DynEcdh (e : EcdhKemError)
  | DynDhKem (e : DhKemError)
  | DynRust (e : RustCryptoError).

Section provider.
Context (p : Primitives) (box : DynError → AnyError).

(** ** aead.rs *)
(** [GenericArray::from_slice(nonce)] panics for a slice of another length. *)
Definition nonce_array {E} (nonce : bytes) : Result E bytes := if len nonce =? 12 then Ok nonce else Panic.

Definition encrypt_aead_trait (a : AeadId) (key data : bytes) (aad : option bytes) (nonce : bytes) : Result RcAeadErr bytes :=
  nonce ← nonce_array nonce;
  ok_or (rc_encrypt p a key nonce data (default [] aad)) RcAeadError.

Definition decrypt_aead_trait (a : AeadId) (key ct : bytes) (aad : option bytes) (nonce : bytes) : Result RcAeadErr bytes :=
  nonce ← nonce_array nonce;
  ok_or (rc_decrypt p a key nonce ct (default [] aad)) RcAeadError.

Definition rust_seal (a : AeadId) (key data : bytes) (aad : option bytes) (nonce : bytes) : Result RcAeadErr bytes :=
  guard_or (negb (len data =? 0)) EmptyPlaintext;;
  guard_or (len key =? key_size a) (InvalidKeyLen (len key) (key_size a));;
  encrypt_aead_trait a key data aad nonce.

Definition rust_open (a : AeadId) (key ct : bytes) (aad : option bytes) (nonce : bytes) : Result RcAeadErr bytes :=
  guard_or (AES_TAG_LEN <? len ct) (InvalidCipherLen (len ct));;
  guard_or (len key =? key_size a) (InvalidKeyLen (len key) (key_size a));;
  decrypt_aead_trait a key ct aad nonce.

Definition rust_aead (a : AeadId) : AeadType := {|
  aead_id := aead_id_number a;
  aead_seal key data aad nonce := map_err (λ e, box (DynAead e)) (rust_seal a key data aad nonce);
  aead_open key ct aad nonce := map_err (λ e, box (DynAead e)) (rust_open a key ct aad nonce);
  aead_key_size := key_size a;
  aead_nonce_size := nonce_size a;
|}.

(** ** kdf.rs *)
Definition rust_expand (k : KdfId) (prk info : bytes) (n : Z) : Result RcKdfErr bytes :=
  if len prk <? kdf_size k then Err (TooShortKey (len prk) (kdf_size k))
  else
    guard_or (hkdf_from_prk p k prk) InvalidPrkLength;;
    ok_or (hkdf_expand p k prk info n) InvalidLength.

Definition rust_extract (k : KdfId) (salt ikm : bytes) : Result RcKdfErr bytes :=
  if len ikm =? 0 then Err (TooShortKey 0 1)
  else
    let salt := if len salt =? 0 then None else Some salt in
    Ok (hkdf_extract p k salt ikm).

Definition rust_kdf (k : KdfId) : KdfType := {|
  kdf_id := kdf_id_number k;
  kdf_expand prk info n := map_err (λ e, box (DynKdf e)) (rust_expand k prk info n);
  kdf_extract salt ikm := map_err (λ e, box (DynKdf e)) (rust_extract k salt ikm);
  kdf_extract_size := kdf_size k;
|}.

(** ** ec.rs *)
Inductive EcPublicKey := PubX25519 (k : x25519_public p) | PubEd25519 (k : ed25519_public p) | PubP256 (k : p256_public p).
Inductive EcPrivateKey := SecX25519 (k : x25519_secret p) | SecEd25519 (k : ed25519_secret p) | SecP256 (k : p256_secret p).

Definition pub_key_from_uncompressed (b : bytes) (c : Curve) : Result EcError EcPublicKey :=
  match c with
  | P256 =>
      encoded_point ← ok_or (p256_point_from p b) EcKeyInvalidKeyData;
      key ← ok_or (p256_public_from p encoded_point) EcKeyInvalidKeyData;
      Ok (PubP256 key)
  | X25519 => if len b =? 32 then Ok (PubX25519 (x25519_public_from p b)) else Err TryFromSliceError
  | Ed25519 =>
      if len b =? 32 then k ← ok_or (ed25519_public_from p b) SignatureError; Ok (PubEd25519 k) else Err TryFromSliceError
  | _ => Err UnsupportedCurve
  end.

Definition pub_key_to_uncompressed (k : EcPublicKey) : bytes :=
  match k with
  | PubX25519 k => x25519_public_bytes p k
  | PubEd25519 k => ed25519_public_bytes p k
  | PubP256 k => p256_point_bytes p (p256_public_point p k)
  end.

Definition generate_private_key (c : Curve) (seed : bytes) : Result EcError EcPrivateKey :=
  match c with
  | P256 => Ok (SecP256 (p256_random p seed))
  | X25519 => Ok (SecX25519 (x25519_random p seed))
  | Ed25519 => Ok (SecEd25519 (ed25519_random p seed))
  | _ => Err UnsupportedCurve
  end.

Definition private_key_from_bytes (b : bytes) (c : Curve) : Result EcError EcPrivateKey :=
  match c with
  | P256 => k ← ok_or (p256_secret_from p b) EcKeyInvalidKeyData; Ok (SecP256 k)
  | X25519 => if len b =? 32 then Ok (SecX25519 (x25519_secret_from p b)) else Err EcKeyInvalidKeyData
  | Ed25519 =>
      if len b =? 64 then k ← ok_or (ed25519_secret_from p b) SignatureError; Ok (SecEd25519 k) else Err TryFromSliceError
  | _ => Err UnsupportedCurve
  end.

Definition private_key_to_bytes (k : EcPrivateKey) : bytes :=
  match k with
  | SecX25519 k => x25519_secret_bytes p k
  | SecEd25519 k => ed25519_secret_bytes p k
  | SecP256 k => p256_secret_bytes p k
  end.

Definition private_key_to_public (k : EcPrivateKey) : EcPublicKey :=
  match k with
  | SecX25519 k => PubX25519 (x25519_public_of p k)
  | SecEd25519 k => PubEd25519 (ed25519_public_of p k)
  | SecP256 k => PubP256 (p256_public_of p k)
  end.

Definition private_key_ecdh (k : EcPrivateKey) (remote : EcPublicKey) : Result EcError bytes :=
  match k with
  | SecX25519 k => match remote with PubX25519 r => Ok (x25519_dh p k r) | _ => Err EcdhKeyTypeMismatch end
  | SecEd25519 _ => Err EcKeyNotEcdh
  | SecP256 k => match remote with PubP256 r => Ok (p256_dh p k r) | _ => Err EcdhKeyTypeMismatch end
  end.

(** The key pair, secret key first. *)
Definition generate_keypair (c : Curve) (seed : bytes) : Result EcError (bytes * bytes) :=
  secret ← generate_private_key c seed;
  let public := private_key_to_public secret in
  Ok (private_key_to_bytes secret, pub_key_to_uncompressed public).

Definition private_key_bytes_to_public (sk : bytes) (c : Curve) : Result EcError bytes :=
  secret_key ← private_key_from_bytes sk c;
  Ok (pub_key_to_uncompressed (private_key_to_public secret_key)).

(** ** ecdh.rs *)
Definition to_ec_public_key (c : Curve) (pk : bytes) : Result EcdhKemError EcPublicKey := map_err EcdhEcError (pub_key_from_uncompressed pk c).

Definition ecdh_dh (c : Curve) (sk pk : bytes) : Result EcdhKemError bytes :=
  k ← map_err EcdhEcError (private_key_from_bytes sk c);
  r ← to_ec_public_key c pk;
  map_err EcdhEcError (private_key_ecdh k r).

Definition ecdh (c : Curve) : DhType := {|
  dh sk pk := map_err (λ e, box (DynEcdh e)) (ecdh_dh c sk pk);
  dh_generate seed := map_err (λ e, box (DynEcdh e)) (map_err EcdhEcError (generate_keypair c seed));
  to_public sk := map_err (λ e, box (DynEcdh e)) (map_err EcdhEcError (private_key_bytes_to_public sk c));
  bitmask_for_rejection_sampling := curve_bitmask c;
  secret_key_size := curve_secret_key_size c;
  dh_public_key_validate pk := map_err (λ e, box (DynEcdh e)) (_ ← to_ec_public_key c pk; Ok tt);
|}.

(** ** ec_signer.rs *)
Definition signer_sign (c : Curve) (sk data : bytes) : Result EcSignerError bytes :=
  secret_key ← map_err SignerEcError (private_key_from_bytes sk c);
  match secret_key with
  | SecX25519 _ => Err SignerNotSignature
  | SecEd25519 k => Ok (ed25519_signature_bytes p (ed25519_sign p k data))
  | SecP256 k => Ok (p256_signature_bytes p (p256_sign p k data))
  end.

Definition signer_verify (c : Curve) (pk signature data : bytes) : Result EcSignerError unit :=
  public_key ← map_err SignerEcError (pub_key_from_uncompressed pk c);
  ver ← match public_key with
        | PubX25519 _ => Err SignerNotSignature
        | PubEd25519 k =>
            s ← ok_or (ed25519_signature_from p signature) (SignerEcError SignatureError); Ok (ed25519_verify p k data s)
        | PubP256 k =>
            s ← ok_or (p256_signature_from p signature) (SignerEcError SignatureError); Ok (p256_verify p k data s)
        end;
  guard_or ver InvalidSignature.

Definition signature_key_generate (c : Curve) (seed : bytes) : Result EcSignerError (bytes * bytes) :=
  map_err SignerEcError (generate_keypair c seed).

Definition signature_key_derive_public (c : Curve) (sk : bytes) : Result EcSignerError bytes :=
  map_err SignerEcError (private_key_bytes_to_public sk c).

(** ** lib.rs *)
Record RustCryptoCipherSuite := {
  rc_cipher_suite : Z;
  rc_aead : AeadType;
  rc_kdf : KdfType;
  rc_hash : Hash;
  rc_hpke : Hpke;
  ec_signer : Curve;
}.

Definition cipher_suite_new (cs : Z) (kem : KemType) (kdf : KdfType) (aead : AeadType) : option RustCryptoCipherSuite :=
  let hpke := hpke_new kem kdf (Some aead) in
  hash ← hash_new cs;
  signer ← from_ciphersuite cs true;
  Some {| rc_cipher_suite := cs; rc_aead := aead; rc_kdf := kdf; rc_hash := hash; rc_hpke := hpke; ec_signer := signer |}.

Definition all_supported_cipher_suites : list Z := [P256_AES128; CURVE25519_AES128; CURVE25519_CHACHA].

Definition cipher_suite_provider (enabled : list Z) (cs : Z) : option RustCryptoCipherSuite :=
  if negb (suite_in cs enabled) then None
  else
    kdf ← kdf_id_new cs;
    ecdh_curve ← from_ciphersuite cs false;
    kem_id ← kem_id_new cs;
    let kem := dh_kem_new (ecdh ecdh_curve) (rust_kdf kdf) (kem_id_number kem_id) (kem_n_secret kem_id) in
    aead ← aead_id_new cs;
    cipher_suite_new cs (dh_kem (λ e, box (DynDhKem e)) kem) (rust_kdf kdf) (rust_aead aead).

(** The interface of the library has no panics.  [provider_settled] below shows what
    is needed for that: the AEAD panics for a nonce that does not have 12 bytes, and
    the other operations never do. *)
Definition settle {A} (r : Result RustCryptoError A) : AnyError + A :=
  match r with Ok a => inr a | Err e => inl (box (DynRust e)) | _ => inl (box (DynAead RcAeadError)) end.

(** [impl CipherSuiteProvider for RustCryptoCipherSuite]. *)
Definition provider_of (s : RustCryptoCipherSuite) : CipherSuiteProvider :=
  let hpke {A} (r : Result HpkeError A) := settle (map_err RustHpkeError r) in
  {| csp_cipher_suite := rc_cipher_suite s;
     csp_hash b := inr (digest p (rc_hash s) b);
     csp_mac key b := settle (map_err RustHashError (ok_or (hmac p (rc_hash s) key b) InvalidHmacLength));
     csp_aead_seal key data aad nonce := settle (map_err RustAeadError (aead_seal (rc_aead s) key data aad nonce));
     csp_aead_open key ct aad nonce := settle (map_err RustAeadError (aead_open (rc_aead s) key ct aad nonce));
     csp_aead_key_size := aead_key_size (rc_aead s);
     csp_aead_nonce_size := aead_nonce_size (rc_aead s);
     csp_kdf_extract salt ikm := settle (map_err RustKdfError (kdf_extract (rc_kdf s) salt ikm));
     csp_kdf_expand prk info n := settle (map_err RustKdfError (kdf_expand (rc_kdf s) prk info n));
     csp_kdf_extract_size := kdf_extract_size (rc_kdf s);
     csp_hpke_seal seed pk info aad pt := hpke (Hpke.seal (rc_hpke s) seed pk info None aad pt);
     csp_hpke_open c sk pk info aad := hpke (Hpke.open (rc_hpke s) c sk pk info None aad);
     csp_hpke_export_s seed pk label n :=
       hpke ('(out, c) ← setup_sender (rc_hpke s) seed pk [] None; x ← context_export c label n; Ok (out, x));
     csp_hpke_export_r out sk pk label n := hpke (c ← setup_receiver (rc_hpke s) out sk pk [] None; context_export c label n);
     csp_kem_derive ikm := hpke (hpke_derive (rc_hpke s) ikm);
     csp_kem_generate seed := hpke (hpke_generate (rc_hpke s) seed);
     csp_kem_public_key_validate pk := hpke (hpke_public_key_validate (rc_hpke s) pk);
     csp_random_bytes seed n := settle (ok_or (try_fill_bytes p seed n) RandError);
     csp_verify pk signature data := settle (map_err RustEcSignerError (signer_verify (ec_signer s) pk signature data));
     csp_sign sk data := settle (map_err RustEcSignerError (signer_sign (ec_signer s) sk data));
  |}.
End provider.

(** ** What the primitives promise *)
Class PrimitiveLaws (p : Primitives) : Prop := {
  pl_aead a key nonce data aad ct : rc_encrypt p a key nonce data aad = Some ct →
    rc_decrypt p a key nonce ct aad = Some data ∧ len ct = len data + AES_TAG_LEN;
  pl_expand k prk info n b : 0 ≤ n → hkdf_expand p k prk info n = Some b → len b = n;
  pl_x25519_secret k : len (x25519_secret_bytes p k) = 32 ∧ x25519_secret_from p (x25519_secret_bytes p k) = k;
  pl_x25519_public k : len (x25519_public_bytes p k) = 32 ∧ x25519_public_from p (x25519_public_bytes p k) = k;
  pl_x25519_dh k k' : x25519_dh p k (x25519_public_of p k') = x25519_dh p k' (x25519_public_of p k);
  pl_ed25519_secret k : len (ed25519_secret_bytes p k) = 64 ∧ ed25519_secret_from p (ed25519_secret_bytes p k) = Some k;
  pl_ed25519_public k : len (ed25519_public_bytes p k) = 32 ∧ ed25519_public_from p (ed25519_public_bytes p k) = Some k;
  pl_ed25519_signature s : ed25519_signature_from p (ed25519_signature_bytes p s) = Some s;
  pl_ed25519_verify k data : ed25519_verify p (ed25519_public_of p k) data (ed25519_sign p k data) = true;
  pl_p256_secret k : p256_secret_from p (p256_secret_bytes p k) = Some k;
  pl_p256_point q : p256_point_from p (p256_point_bytes p q) = Some q;
  pl_p256_public k : p256_public_from p (p256_public_point p k) = Some k;
  pl_p256_dh k k' : p256_dh p k (p256_public_of p k') = p256_dh p k' (p256_public_of p k);
  pl_p256_signature s : p256_signature_from p (p256_signature_bytes p s) = Some s;
  pl_p256_verify k data : p256_verify p (p256_public_of p k) data (p256_sign p k data) = true;
}.

Section laws.
Context (p : Primitives) (box : DynError → AnyError) `{!PrimitiveLaws p}.

(** ** The traits *)
Lemma ok_or_inv {E A} (o : option A) (e : E) a : ok_or o e = Ok a ↔ o = Some a.
Proof. destruct o; naive_solver. Qed.

#[export] Instance rust_aead_laws a : AeadLaws (rust_aead p box a).
Proof.
  intros key pt aad nonce ct. cbn. rewrite !map_err_ok. unfold rust_seal, rust_open, encrypt_aead_trait, decrypt_aead_trait.
  intros ([] & Hd%guard_or_ok & H)%bind_ok. apply bind_ok in H as ([] & Hk & H). apply bind_ok in H as (n & Hn & H%ok_or_inv).
  apply pl_aead in H as [H Hl]. rewrite Hk, Hn. cbn. rewrite H.
  assert (AES_TAG_LEN <? len ct = true) as ->; [|done]. apply negb_true_iff, Z.eqb_neq in Hd. pose proof (len_nonneg pt). apply Z.ltb_lt. lia.
Qed.

(** Which curve a key is of. *)
Definition of_curve (c : Curve) (k : EcPrivateKey p) : Prop :=
  match k with SecX25519 _ _ => c = X25519 | SecEd25519 _ _ => c = Ed25519 | SecP256 _ _ => c = P256 end.

Lemma private_key_read c b k : private_key_from_bytes p b c = Ok k → of_curve c k.
Proof. destruct c; cbn; try done; [|destruct (_ =? _); [|done]..]; [intros (x & _ & [= <-])%bind_ok|intros [= <-]|intros (x & _ & [= <-])%bind_ok]; done. Qed.

Lemma private_key_roundtrip c k : of_curve c k → private_key_from_bytes p (private_key_to_bytes p k) c = Ok k.
Proof.
  destruct k as [k|k|k]; cbn; intros ->; cbn.
  - destruct (pl_x25519_secret k) as [-> ->]. done.
  - destruct (pl_ed25519_secret k) as [-> ->]. done.
  - by rewrite pl_p256_secret.
Qed.

Lemma public_key_roundtrip c k : of_curve c k →
  pub_key_from_uncompressed p (pub_key_to_uncompressed p (private_key_to_public p k)) c = Ok (private_key_to_public p k).
Proof.
  destruct k as [k|k|k]; cbn; intros ->; cbn.
  - destruct (pl_x25519_public (x25519_public_of p k)) as [-> ->]. done.
  - destruct (pl_ed25519_public (ed25519_public_of p k)) as [-> ->]. done.
  - rewrite pl_p256_point. cbn. by rewrite pl_p256_public.
Qed.

Lemma generated_keypair c seed sk pk : generate_keypair p c seed = Ok (sk, pk) →
  ∃ k, of_curve c k ∧ sk = private_key_to_bytes p k ∧ pk = pub_key_to_uncompressed p (private_key_to_public p k).
Proof. unfold generate_keypair. intros (k & Hk & [= <- <-])%bind_ok. exists k. split; [|done]. destruct c; try discriminate Hk; by injection Hk as <-. Qed.

Lemma ecdh_symmetric c k k' : of_curve c k → of_curve c k' →
  private_key_ecdh p k (private_key_to_public p k') = private_key_ecdh p k' (private_key_to_public p k).
Proof. destruct k, k'; cbn; intros -> H; try done; [by rewrite pl_x25519_dh|by rewrite pl_p256_dh]. Qed.

#[export] Instance ecdh_laws c : DhLaws (ecdh p box c).
Proof.
  split; cbn.
  - intros seed sk pk (k & Hk & -> & ->)%map_err_ok%map_err_ok%generated_keypair. apply map_err_ok, map_err_ok.
    unfold private_key_bytes_to_public. by rewrite private_key_roundtrip.
  - intros sk pk sk' pk' s. rewrite !map_err_ok. unfold private_key_bytes_to_public, ecdh_dh, to_ec_public_key.
    intros (k & Hk & [= <-])%bind_ok (k' & Hk' & [= <-])%bind_ok. rewrite Hk, Hk'. cbn.
    apply private_key_read in Hk, Hk'. rewrite !public_key_roundtrip by done. cbn. by rewrite (ecdh_symmetric c k k').
Qed.

(** ** The provider *)
(** The HPKE of a suite with KDF [k], curve [c], KEM number and secret size [m], and
    AEAD [a]. *)
Definition suite_hpke (k : KdfId) (c : Curve) (m : Z * Z) (a : AeadId) : Hpke :=
  hpke_new (dh_kem (λ e, box (DynDhKem e)) (dh_kem_new (ecdh p box c) (rust_kdf p box k) m.1 m.2)) (rust_kdf p box k)
    (Some (rust_aead p box a)).

#[export] Instance suite_kem_laws k c m a : KemLaws (kem (suite_hpke k c m a)) (λ sk pk, to_public (ecdh p box c) sk = Ok pk).
Proof. exact (dh_kem_laws _ (dh_kem_new (ecdh p box c) (rust_kdf p box k) m.1 m.2)). Qed.

Lemma provider_parts enabled cs s : cipher_suite_provider p box enabled cs = Some s →
  ∃ k c m a, rc_cipher_suite s = cs ∧ rc_aead s = rust_aead p box a ∧ rc_kdf s = rust_kdf p box k ∧
    rc_hpke s = suite_hpke k c m a.
Proof.
  unfold cipher_suite_provider, cipher_suite_new. destruct (negb _); [done|].
  intros (k & _ & (c & _ & (m & _ & (a & _ & (h & _ & (sg & _ & [= <-])%bind_Some)%bind_Some)%bind_Some)%bind_Some)%bind_Some)%bind_Some.
  by exists k, c, (kem_id_number m, kem_n_secret m), a.
Qed.

Lemma settle_ok {A} (r : Result RustCryptoError A) a : settle box r = inr a ↔ r = Ok a.
Proof. destruct r; naive_solver. Qed.

(** The key pairs of a suite's KEM. *)
Definition suite_pair (s : RustCryptoCipherSuite) (sk pk : bytes) : Prop :=
  ∃ c, to_public (ecdh p box c) sk = Ok pk ∧ ∃ k m a, rc_hpke s = suite_hpke k c m a.

Lemma suite_pair_opens s sk pk : suite_pair s sk pk → hpke_pair (provider_of p box s) sk pk ∧ export_pair (provider_of p box s) sk pk.
Proof.
  intros (c & Hp & k & m & a & Hs). split.
  - intros seed info aad pt ct. cbn. rewrite !settle_ok, !map_err_ok, Hs. intros H.
    eapply (opened_sealed _ _ (H := suite_kem_laws k c m a)); [|exact Hp|exact H].
    intros x [= <-]. apply rust_aead_laws.
  - intros seed label n out x. cbn. rewrite !settle_ok, !map_err_ok, Hs. intros ([o ctx] & Hc & H)%bind_ok.
    apply bind_ok in H as (y & Hy & [= <- <-]).
    by rewrite (receiver_context _ _ (H := suite_kem_laws k c m a) _ _ _ _ _ _ _ Hp Hc).
Qed.

(** What a key signs verifies under its public key. *)
Lemma signer_verifies c x data sg : of_curve c x → signer_sign p c (private_key_to_bytes p x) data = Ok sg →
  signer_verify p c (pub_key_to_uncompressed p (private_key_to_public p x)) sg data = Ok tt.
Proof.
  intros Hx. unfold signer_sign, signer_verify. rewrite private_key_roundtrip, public_key_roundtrip by done. cbn.
  destruct x as [x|x|x]; cbn; [done|intros [= <-]; rewrite pl_ed25519_signature; cbn; by rewrite pl_ed25519_verify|].
  intros [= <-]. rewrite pl_p256_signature. cbn. by rewrite pl_p256_verify.
Qed.

(** C14. The provider of a cipher suite, as [CryptoProvider::cipher_suite_provider] hands
    it out, has what the protocol relies on, if the primitives do what their crates
    document: opening inverts sealing; the key pairs it derives and generates open
    what is sealed to their public key and export what its sender exports; and a
    signature verifies under the public key of the generated pair it was made with. *)
Theorem provider_sound enabled cs s :
  cipher_suite_provider p box enabled cs = Some s →
  let csp := provider_of p box s in
  csp_cipher_suite csp = cs ∧ aead_pair csp ∧ kem_derive_pairs csp ∧ kem_generate_pairs csp ∧
  (∀ sk pk, (∃ ikm, csp_kem_derive csp ikm = inr (sk, pk)) ∨ (∃ seed, csp_kem_generate csp seed = inr (sk, pk)) →
     export_pair csp sk pk) ∧
  (∀ seed sk pk, signature_key_generate p (ec_signer s) seed = Ok (sk, pk) → signature_pair csp sk pk).
Proof.
  intros (k & c & m & a & Hcs & Ha & _ & Hh)%provider_parts csp.
  assert (∀ sk pk, (∃ ikm, csp_kem_derive csp ikm = inr (sk, pk)) ∨ (∃ seed, csp_kem_generate csp seed = inr (sk, pk)) → suite_pair s sk pk) as Hpair.
  { intros sk pk Hg. exists c. split; [|by eauto]. pose proof (suite_kem_laws k c m a) as L.
    destruct Hg as [[ikm Hg]|[seed Hg]]; cbn in Hg; rewrite settle_ok, map_err_ok, Hh in Hg;
      unfold hpke_derive, hpke_generate in Hg; apply map_err_ok in Hg; [by apply L in Hg|]. by apply (generate_pair (KemLaws := L)) in Hg. }
  split_and!; [done|..].
  - intros key pt aad nonce ct. cbn. rewrite !settle_ok, !map_err_ok, Ha. apply aead_open_seal.
  - intros ikm sk pk Hd. apply suite_pair_opens, Hpair. by eauto.
  - intros seed sk pk Hd. apply suite_pair_opens, Hpair. by eauto.
  - intros sk pk Hd. by apply suite_pair_opens, Hpair.
  - intros seed sk pk (x & Hx & -> & ->)%map_err_ok%generated_keypair data sg. cbn. rewrite !settle_ok, !map_err_ok. by apply signer_verifies.
Qed.

(** ** Where the primitives succeed

    HKDF extracts to the size of the hash and expands a key of at least that size to at
    most 255 times it; the ciphers take a key and a nonce of their sizes, and data and
    additional data of at most 2^36 bytes. *)
Class PrimitiveTotal : Prop := {
  pt_from_prk k prk : kdf_size k ≤ len prk → hkdf_from_prk p k prk = true;
  pt_expand k prk info n : hkdf_from_prk p k prk = true → 0 ≤ n ≤ 255 * kdf_size k → is_Some (hkdf_expand p k prk info n);
  pt_extract k salt ikm : len (hkdf_extract p k salt ikm) = kdf_size k;
  pt_encrypt a key nonce data aad : len key = key_size a → len nonce = nonce_size a → len data ≤ 2 ^ 36 → len aad ≤ 2 ^ 36 →
    is_Some (rc_encrypt p a key nonce data aad);
}.

Lemma settle_err {A} (e : RustCryptoError) : settle box (A:=A) (Err e) = inl (box (DynRust e)).
Proof. done. Qed.

(** C40. What the group relies on of a provider's key derivation and cipher the provider of
    every cipher suite has, if the primitives succeed where their crates document it:
    extraction from anything but nothing gives a key of the suite's size, and a key of
    that size expands to every length the suite uses; sealing under a key and a nonce
    of the suite's sizes succeeds for data that is not empty.  Outside of that the
    provider always refuses: a key that is too short, no keying material, no data, a
    key for sealing of another length. *)
Theorem provider_derives enabled cs s : PrimitiveTotal →
  cipher_suite_provider p box enabled cs = Some s →
  let csp := provider_of p box s in
  kdf_laws csp ∧ aead_seals csp ∧
  (∀ prk info n, len prk < csp_kdf_extract_size csp → ∃ e, csp_kdf_expand csp prk info n = inl e) ∧
  (∀ salt, ∃ e, csp_kdf_extract csp salt [] = inl e) ∧
  (∀ key data aad nonce, data = [] ∨ len key ≠ csp_aead_key_size csp → ∃ e, csp_aead_seal csp key data aad nonce = inl e).
Proof.
  intros T (k & c & m & a & _ & Ha & Hk & _)%provider_parts csp. subst csp.
  assert (∀ prk info n b, kdf_size k ≤ len prk → hkdf_expand p k prk info n = Some b →
    settle box (map_err RustKdfError (kdf_expand (rust_kdf p box k) prk info n)) = inr b) as Hexp.
  { intros prk info n b Hl Hb. cbn. unfold rust_expand. rewrite (proj2 (Z.ltb_ge _ _)) by done. rewrite pt_from_prk by done. cbn. by rewrite Hb. }
  split_and!.
  - split; cbn [csp_kdf_extract csp_kdf_expand csp_kdf_extract_size csp_aead_key_size csp_aead_nonce_size provider_of]; rewrite ?Hk, ?Ha.
    + intros salt ikm Hi. cbn. unfold rust_extract. destruct (Z.eqb_spec (len ikm) 0) as [Hz|].
      { exfalso. apply Hi. destruct ikm; [done|]. unfold len in Hz. cbn in Hz. lia. }
      cbn. eexists. split; [done|]. apply pt_extract.
    + intros prk info n Hl Hn. cbn [kdf_extract_size rust_kdf aead_key_size aead_nonce_size rust_aead] in Hl, Hn.
      assert (0 ≤ n ≤ 255 * kdf_size k) as Hr.
      { unfold nonce_size in Hn. apply elem_of_cons in Hn as [->|Hn]; [destruct k; cbn; lia|]. apply elem_of_cons in Hn as [->|Hn]; [destruct a, k; cbn; lia|].
        apply elem_of_cons in Hn as [->|Hn]; [destruct k; cbn; lia|]. by apply not_elem_of_nil in Hn. }
      destruct (pt_expand k prk info n) as [b Hb]; [apply pt_from_prk; lia|done|]. exists b.
      split; [apply Hexp; [lia|done]|]. eapply pl_expand; [lia|exact Hb].
  - intros key pt aad nonce Hp Hpl Hal Hkl Hnl. unfold AEAD_MAX in *. revert Hkl Hnl.
    cbn [csp_aead_seal csp_aead_key_size csp_aead_nonce_size provider_of]. rewrite Ha. cbn [aead_key_size aead_nonce_size rust_aead]. intros Hkl Hnl.
    destruct (pt_encrypt a key nonce pt (default [] aad)) as [ct Hct]; [done|done|lia|destruct aad as [x|]; [change (default [] (Some x)) with x; change (from_option len 0 (Some x)) with (len x) in Hal; lia|by vm_compute]|].
    exists ct. cbn. unfold rust_seal, encrypt_aead_trait, nonce_array. unfold nonce_size in Hnl. rewrite Hkl, Hnl, !Z.eqb_refl.
    assert (len pt =? 0 = false) as -> by (apply Z.eqb_neq; intros Hz; apply Hp; destruct pt; [done|unfold len in Hz; cbn in Hz; lia]).
    cbn. by rewrite Hct.
  - intros prk info n. cbn [csp_kdf_expand csp_kdf_extract_size provider_of]. rewrite Hk. cbn. unfold rust_expand. intros Hl.
    rewrite (proj2 (Z.ltb_lt _ _)) by done. by eexists.
  - intros salt. cbn [csp_kdf_extract provider_of]. rewrite Hk. by eexists.
  - intros key data aad nonce. cbn [csp_aead_seal csp_aead_key_size provider_of]. rewrite Ha. cbn [aead_key_size rust_aead]. cbn. unfold rust_seal.
    intros [->|Hkl]; [by eexists|]. destruct (negb (len data =? 0)); [|by eexists]. cbn.
    rewrite (proj2 (Z.eqb_neq _ _)) by done. by eexists.
Qed.

(** ** Panics *)
#[export] Instance rust_kdf_settled k : KdfSettled (rust_kdf p box k).
Proof.
  split; cbn; unfold rust_expand, rust_extract.
  - intros prk info n. destruct (_ <? _); [done|]. destruct (hkdf_from_prk _ _ _), (hkdf_expand _ _ _ _ _); done.
  - intros prk info n b Hn. rewrite map_err_ok. destruct (_ <? _); [done|]. intros ([] & _ & H%ok_or_inv)%bind_ok. by eapply pl_expand.
  - intros salt ikm. by destruct (_ =? _).
Qed.

#[export] Instance ecdh_settled c : DhSettled (ecdh p box c).
Proof.
  assert (∀ b, settled (private_key_from_bytes p b c)) as Hs.
  { intros b. destruct c; try done; cbn; [by destruct (p256_secret_from p b)|by destruct (_ =? _)|].
    destruct (_ =? _); [by destruct (ed25519_secret_from p b)|done]. }
  assert (∀ b, settled (pub_key_from_uncompressed p b c)) as Hp.
  { intros b. destruct c; try done; cbn; [|by destruct (_ =? _)|].
    - destruct (p256_point_from p b) as [q|]; [|done]. cbn. by destruct (p256_public_from p q).
    - destruct (_ =? _); [by destruct (ed25519_public_from p b)|done]. }
  split; cbn; [| | |by destruct c].
  - intros sk pk. apply settled_map_err, settled_bind; [by apply settled_map_err|]. intros k _.
    apply settled_bind; [by apply settled_map_err|]. intros r _. by destruct k, r.
  - intros seed. apply settled_map_err, settled_map_err, settled_bind; [by destruct c|done].
  - intros sk. by apply settled_map_err, settled_map_err, settled_bind.
Qed.

#[export] Instance rust_aead_settled a : AeadSettled (rust_aead p box a).
Proof.
  intros key data aad nonce Hn. cbn in *. unfold rust_seal, rust_open, encrypt_aead_trait, decrypt_aead_trait, nonce_array.
  rewrite Hn. unfold nonce_size. cbn.
  split; apply settled_map_err; repeat (apply settled_bind; [apply settled_guard|intros [] _]); apply settled_ok_or.
Qed.

(** No panics.  Deriving and generating keys, encrypting, decrypting and exporting
    with the provider of a suite always return; the one operation that can panic is
    the AEAD on its own, and it does exactly when plaintext and key are acceptable
    and the nonce does not have 12 bytes. *)
Theorem provider_settled enabled cs s :
  cipher_suite_provider p box enabled cs = Some s →
  (∀ seed sk pk info aad pt c, settled (Hpke.seal (rc_hpke s) seed pk info None aad pt) ∧
     settled (Hpke.open (rc_hpke s) c sk pk info None aad) ∧ settled (setup_sender (rc_hpke s) seed pk info None) ∧
     settled (setup_receiver (rc_hpke s) pt sk pk info None) ∧ settled (hpke_derive (rc_hpke s) pt) ∧ settled (hpke_generate (rc_hpke s) seed)) ∧
  (∀ key data aad nonce, aead_seal (rc_aead s) key data aad nonce = Panic ↔
     data ≠ [] ∧ len key = aead_key_size (rc_aead s) ∧ len nonce ≠ 12).
Proof.
  intros (k & c & m & a & _ & -> & _ & Hh)%provider_parts. rewrite Hh. split.
  - assert (KemSettled (kem (suite_hpke k c m a))) as Hkem.
    { apply (dh_kem_settled (λ e, box (DynDhKem e)) (dh_kem_new (ecdh p box c) (rust_kdf p box k) m.1 m.2)); apply _. }
    assert (KdfSettled (kdf (hpke_kdf (suite_hpke k c m a)))) by apply rust_kdf_settled.
    assert (∀ x, aead (suite_hpke k c m a) = Some x → AeadSettled x) as Hae by (intros x [= <-]; apply rust_aead_settled).
    intros seed sk pk info aad pt ct. destruct (hpke_settled (suite_hpke k c m a) Hae seed sk pk info None aad pt ct [] 0) as (? & ? & _ & _).
    destruct (setup_settled (suite_hpke k c m a) Hae seed pt sk pk info None).
    split_and!; try done; apply settled_map_err; [apply kms_derive|apply kms_generate].
  - intros key data aad nonce. cbn. unfold rust_seal, encrypt_aead_trait, nonce_array.
    destruct data as [|x data]; [naive_solver|]. replace (len (x :: data) =? 0) with false by (symmetry; apply Z.eqb_neq; unfold len; cbn; lia).
    cbn. destruct (Z.eqb_spec (len key) (key_size a)); cbn; [|naive_solver].
    destruct (Z.eqb_spec (len nonce) 12); cbn; [|naive_solver]. destruct (rc_encrypt _ _ _ _ _ _); naive_solver.
Qed.
End laws.

(** ** Primitives to compute with

    Keys are 32 or 64 bytes, the exchanged value of two is their exclusive or, a
    signature is the key and the data, a tag is sixteen zeros. *)
Definition fit (n : nat) (b : bytes) : bytes := take n (b ++ replicate n (byte.of_Z 0)).

Lemma length_fit n b : length (fit n b) = n.
Proof. unfold fit. rewrite length_take, length_app, length_replicate. lia. Qed.

Definition sized (n : nat) : Type := { b : bytes | bool_decide (length b = n) }.

Definition size_of (n : nat) (b : bytes) : sized n := fit n b ↾ bool_decide_pack _ (length_fit n b).

Lemma size_of_id n (k : sized n) : size_of n (`k) = k.
Proof.
  destruct k as [b H]. pose proof (bool_decide_unpack _ H) as Hb. apply (sig_eq_pi (λ b, bool_decide (length b = n))). cbn. unfold fit.
  by rewrite <- Hb, take_app_length.
Qed.

Definition sample_primitives : Primitives := {|
  rc_encrypt _ _ _ data _ := Some (data ++ replicate 16 (byte.of_Z 0));
  rc_decrypt _ _ _ ct _ := Some (take (length ct - 16) ct);
  hkdf_from_prk _ _ := true;
  hkdf_expand _ prk info n := Some (fit (Z.to_nat n) (rev info ++ prk));
  hkdf_extract k salt ikm := fit (Z.to_nat (kdf_size k)) (rev ikm ++ default [] salt);
  digest _ b := fit 32 b;
  hmac _ k b := Some (fit 32 (k ++ b));
  try_fill_bytes seed n := Some (fit (Z.to_nat n) seed);
  x25519_public := sized 32; x25519_secret := sized 32;
  x25519_public_from := size_of 32; x25519_public_bytes k := `k;
  x25519_secret_from := size_of 32; x25519_secret_bytes k := `k;
  x25519_random := size_of 32; x25519_public_of k := k;
  x25519_dh k k' := zip_with byte_xor (`k) (`k');
  ed25519_public := sized 32; ed25519_secret := sized 64;
  ed25519_public_from b := Some (size_of 32 b); ed25519_public_bytes k := `k;
  ed25519_secret_from b := Some (size_of 64 b); ed25519_secret_bytes k := `k;
  ed25519_random := size_of 64; ed25519_public_of k := size_of 32 (`k);
  ed25519_signature := bytes; ed25519_sign k data := take 32 (`k) ++ data;
  ed25519_signature_from := Some; ed25519_signature_bytes s := s;
  ed25519_verify k data s := bool_decide (s = `k ++ data);
  p256_point := bytes; p256_public := bytes; p256_secret := bytes;
  p256_point_from := Some; p256_point_bytes q := q;
  p256_public_from := Some; p256_public_point k := k;
  p256_secret_from := Some; p256_secret_bytes k := k;
  p256_random := fit 32; p256_public_of k := k;
  p256_dh := zip_with byte_xor;
  p256_signature := bytes; p256_sign k data := k ++ data;
  p256_signature_from := Some; p256_signature_bytes s := s;
  p256_verify k data s := bool_decide (s = k ++ data);
|}.

Lemma byte_xor_comm a b : byte_xor a b = byte_xor b a.
Proof. unfold byte_xor. by rewrite Z.lxor_comm. Qed.

Lemma xor_bytes_comm (a b : bytes) : zip_with byte_xor a b = zip_with byte_xor b a.
Proof. revert b. induction a as [|x a IH]; intros [|y b]; cbn; try done. by rewrite IH, byte_xor_comm. Qed.

Lemma sized_len n (k : sized n) : len (`k) = Z.of_nat n.
Proof. destruct k as [b H]. unfold len. cbn. by rewrite (bool_decide_unpack _ H). Qed.

#[export] Instance sample_laws : PrimitiveLaws sample_primitives.
Proof.
  split; cbn -[replicate]; try done; try (intros k; split; [apply sized_len|by rewrite size_of_id]).
  - intros a key nonce data aad ct <-%(inj Some). split.
    + rewrite length_app, length_replicate. replace (length data + 16 - 16)%nat with (length data) by lia. by rewrite take_app_length.
    + unfold len, AES_TAG_LEN. rewrite length_app, length_replicate. lia.
  - intros k prk info n b Hn [= <-]. unfold len. rewrite length_fit. lia.
  - intros k k'. apply xor_bytes_comm.
  - intros k data. apply bool_decide_eq_true_2. f_equal. unfold fit. destruct k as [b Hb]. cbn. apply bool_decide_unpack in Hb.
    rewrite take_app_le; [done|lia].
  - intros k k'. apply xor_bytes_comm.
  - intros k data. by apply bool_decide_eq_true_2.
Qed.

Definition sample_box (e : DynError) : AnyError := ProviderAnyError [].

Definition sample_suite (cs : Z) : option RustCryptoCipherSuite :=
  cipher_suite_provider sample_primitives sample_box all_supported_cipher_suites cs.

(** A key pair derived by a suite, something sealed to it, and what is opened. *)
Definition sample_exchange (s : option RustCryptoCipherSuite) : option (AnyError + bytes) :=
  s ← s;
  let csp := provider_of sample_primitives sample_box s in
  Some match csp_kem_derive csp [byte.of_Z 5] with
  | inl e => inl e
  | inr (sk, pk) =>
      match csp_hpke_seal csp [byte.of_Z 9] pk [byte.of_Z 1] None [byte.of_Z 7; byte.of_Z 8] with
      | inl e => inl e
      | inr c => csp_hpke_open csp c sk pk [byte.of_Z 1] None
      end
  end.

Lemma sample_exchange_works : sample_exchange (sample_suite P256_AES128) = Some (inr [byte.of_Z 7; byte.of_Z 8]) ∧
  sample_exchange (sample_suite CURVE25519_AES128) = Some (inr [byte.of_Z 7; byte.of_Z 8]) ∧
  sample_exchange (sample_suite CURVE25519_CHACHA) = Some (inr [byte.of_Z 7; byte.of_Z 8]).
Proof. split_and!; vm_compute; reflexivity. Qed.

Lemma provider_sound_witness : ∃ s, sample_suite CURVE25519_AES128 = Some s ∧ kem_derive_pairs (provider_of sample_primitives sample_box s).
Proof.
  destruct (sample_suite CURVE25519_AES128) as [s|] eqn:E; [|discriminate E].
  exists s. split; [done|]. by apply (provider_sound sample_primitives sample_box _ _ s E).
Defined.

#[export] Instance sample_total : PrimitiveTotal sample_primitives.
Proof. split; cbn; try done; try (intros; by eexists). intros k salt ikm. unfold len. rewrite length_fit. destruct k; cbn; lia. Qed.

Lemma provider_derives_witness : ∃ s, sample_suite P256_AES128 = Some s ∧ kdf_laws (provider_of sample_primitives sample_box s) ∧
  aead_seals (provider_of sample_primitives sample_box s).
Proof.
  destruct (sample_suite P256_AES128) as [s|] eqn:E; [|discriminate E]. exists s. split; [reflexivity|].
  destruct (provider_derives sample_primitives sample_box _ _ s sample_total E) as (H1 & H2 & _). split; [exact H1|exact H2].
Defined.

Lemma provider_settled_witness : ∃ s, sample_suite P256_AES128 = Some s ∧
  aead_seal (rc_aead s) (replicate 16 (byte.of_Z 0)) [byte.of_Z 1] None [] = Panic.
Proof.
  destruct (sample_suite P256_AES128) as [s|] eqn:E; [|discriminate E]. exists s. split; [done|].
  apply (provider_settled sample_primitives sample_box _ _ s E). split_and!; [done| |done]. injection E as <-. done.
Defined.

(** The HPKE of suite 1, and a key of it. *)
Definition sample_hpke : Hpke := suite_hpke sample_primitives sample_box HkdfSha256 X25519 (32, 32) Aes128Gcm.
Definition sample_key : bytes := replicate 32 (byte.of_Z 3).

Definition sample_sender : Result HpkeError (bytes * Context) := setup_sender sample_hpke [byte.of_Z 9] sample_key [] None.

Lemma contexts_agree_witness : ∃ out c r, sample_sender = Ok (out, c) ∧ setup_receiver sample_hpke out sample_key sample_key [] None = Ok r ∧
  is_ok (seals c [(None, [byte.of_Z 1]); (Some [byte.of_Z 4], [byte.of_Z 2])]).1 = true ∧
  (∀ x n, context_export r x n = context_export c x n).
Proof.
  assert (match sample_sender with Ok (_, c) => is_ok (seals c [(None, [byte.of_Z 1]); (Some [byte.of_Z 4], [byte.of_Z 2])]).1 | _ => false end = true)
    as Hok by (vm_compute; reflexivity).
  destruct sample_sender as [[out c]| | |] eqn:E; [|discriminate Hok..].
  destruct (contexts_agree sample_hpke _ sample_key sample_key [byte.of_Z 9] [] None out c
    (suite_kem_laws sample_primitives sample_box HkdfSha256 X25519 (32, 32) Aes128Gcm)) as (r & Hr & Hx & _).
  - intros x [= <-]. apply rust_aead_laws. apply _.
  - vm_compute. reflexivity.
  - exact E.
  - by exists out, c, r.
Defined.

Lemma nonces_never_repeat_witness :
  NoDup (used_nonces {| base_nonce := replicate 12 (byte.of_Z 1); seq_number := 2 ^ 64 - 3; ec_aead := rust_aead sample_primitives sample_box Aes128Gcm;
    aead_key := replicate 16 (byte.of_Z 0) |} (replicate 4 (None, [byte.of_Z 1]))) ∧
  length (used_nonces {| base_nonce := replicate 12 (byte.of_Z 1); seq_number := 2 ^ 64 - 3; ec_aead := rust_aead sample_primitives sample_box Aes128Gcm;
    aead_key := replicate 16 (byte.of_Z 0) |} (replicate 4 (None, [byte.of_Z 1]))) = 2%nat.
Proof. split; [apply nonces_never_repeat; [done|by split]|vm_compute; reflexivity]. Defined.
End RustCrypto.
