(* ===== verification/X509.v ===== *)
(** * X.509 certificates (mls-rs-crypto-rustcrypto/src/x509, ec_for_x509.rs)

    Reading certificates, validating chains and writing certificate requests.  The
    encoding rules (DER) and the string types are those of the crates der, spki and
    x509-cert: a record [X509Lib] of operations.  The structs of those crates are
    records here with the fields the code reads, the others in one field.

    The theorems: a chain is accepted exactly when it is a path to a trusted root; a
    pinned certificate need not be on that path, and no certificate on it need be
    one of an authority; names and requests read back to what was written. *)
From Stdlib Require Import Strings.String.
From S2P Require Import Prelude Codec Types TreeIndex Identity Crypto Labels PrivateMessage Hpke RustCrypto.

Module X509.
Import Identity RustCrypto.

(** ** The structs of spki and x509-cert *)
Definition Oid : Type := list Z.
Inductive Tag := PrintableTag | Ia5Tag | Utf8Tag | OtherTag (n : Z).

Record Any := { tag : Tag; value : bytes }.
Record AttributeTypeAndValue := { atv_oid : Oid; atv_value : Any }.

(** A set of attributes; a name is a sequence of them. *)
Notation RelativeDistinguishedName := (list AttributeTypeAndValue).
Notation RdnSequence := (list RelativeDistinguishedName).

Record AlgorithmIdentifier := { algorithm_oid : Oid; parameters : option Any }.
Record SubjectPublicKeyInfo := { algorithm : AlgorithmIdentifier; subject_public_key : bytes }.
Record Extension := { extn_id : Oid; critical : bool; extn_value : bytes }.

Record TbsCertificate := {
  issuer : RdnSequence;
  subject : RdnSequence;
  not_before : Z;
  not_after : Z;
  subject_public_key_info : SubjectPublicKeyInfo;
  extensions : option (list Extension);
  tbs_other : bytes;
}.

Record Certificate := { tbs_certificate : TbsCertificate; signature : bytes }.

Inductive GeneralName :=
  | UniformResourceIdentifier (s : bytes)
  | DnsName (s : bytes)
  | RegisteredId (o : Oid)
  | Rfc822Name (s : bytes)
  | IpAddress (octets : bytes)
  | OtherGeneralName (b : bytes).

Record Attribute := { attribute_oid : Oid; attribute_values : list Any }.

Record CertReqInfo := { ri_subject : RdnSequence; ri_public_key : SubjectPublicKeyInfo; ri_attributes : list Attribute }.
Record CertReq := { req_info : CertReqInfo; req_algorithm : AlgorithmIdentifier; req_signature : bytes }.

(** What the crates do; [None] is a failure. *)
Record X509Lib (p : Primitives) := {
  certificate_from_der : bytes → option Certificate;
  tbs_to_der : TbsCertificate → option bytes;
  name_to_der : RdnSequence → option bytes;
  parameters_oid : AlgorithmIdentifier → option Oid;
  p256_from_sec1 : bytes → option (p256_public p);
  p256_to_public_key_der : p256_public p → option bytes;
  spki_to_der : SubjectPublicKeyInfo → option bytes;
  spki_from_der : bytes → option SubjectPublicKeyInfo;
  valid_string : Tag → bytes → bool;
  general_names_from_der : bytes → option (list GeneralName);
  general_names_to_der : list GeneralName → option bytes;
  basic_constraints_to_der : bool → option Z → option bytes;
  key_usage_to_der : list Z → option bytes;
  extension_req_to_der : list Extension → option bytes;
  any_from_der : bytes → option Any;
  req_info_to_der : CertReqInfo → option bytes;
  req_to_der : CertReq → option bytes;
  oid_from_string : bytes → option Oid;
  oid_to_string : Oid → bytes;
  ip_from_string : bytes → option bytes;
  ip_to_string : bytes → bytes;
}.

(** ** Errors: x509.rs, ec_for_x509.rs *)
Inductive EcX509Error := EcxDerError | EcxEcError (e : EcError) | EcxSpkiError | NistSpkiError | UnsupportedPublicKeyAlgorithm (o : Oid).

Inductive X509Error :=
  | X509DerError
  | X509EcError (e : EcError)
  | X509RandError
  | X509EcX509Error (e : EcX509Error)
  | ConstOidError
  | X509EcSignerError (e : EcSignerError)
  | AddrParseError
  | InvalidSigningKey (cs : Z)
  | X509UnsupportedCipherSuite
  | UnsupportedSubjectAltName (n : SubjectAltName)
  | EmptyCertificateChain
  | InvalidCaExtensions
  | InvalidCertificateLifetime
  | CaNotFound
  | PinnedCertNotFound
  | ValidityError (now : Z) (c : Certificate)
  | UnsupportedAlgorithm (o : Oid)
  | X509SpkiError
  | UnsupportedSubjectComponentOid (o : Oid)
  | UnexpectedComponentType (t : Tag)
  | IncorrectIpOctets (n : Z)
  | CannotParseAltName (n : GeneralName)
  | SelfSignedWrongLength (n : Z).

(** ** Object identifiers: ec_for_x509.rs, and the constants of const-oid the code uses *)
Definition X25519_OID : Oid := [1; 3; 101; 110].
Definition ED25519_OID : Oid := [1; 3; 101; 112].
Definition P256_OID : Oid := [1; 2; 840; 10045; 3; 1; 7].
Definition ECDSA_WITH_SHA_256 : Oid := [1; 2; 840; 10045; 4; 3; 2].
Definition SUBJECT_ALT_NAME : Oid := [2; 5; 29; 17].
Definition BASIC_CONSTRAINTS : Oid := [2; 5; 29; 19].
Definition KEY_USAGE : Oid := [2; 5; 29; 15].
Definition EXTENSION_REQ : Oid := [1; 2; 840; 113549; 1; 9; 14].
Definition COMMON_NAME : Oid := [2; 5; 4; 3].
Definition SURNAME : Oid := [2; 5; 4; 4].
Definition SERIAL_NUMBER : Oid := [2; 5; 4; 5].
Definition COUNTRY_NAME : Oid := [2; 5; 4; 6].
Definition LOCALITY_NAME : Oid := [2; 5; 4; 7].
Definition ST : Oid := [2; 5; 4; 8].
Definition STREET : Oid := [2; 5; 4; 9].
Definition ORGANIZATION_NAME : Oid := [2; 5; 4; 10].
Definition ORGANIZATIONAL_UNIT : Oid := [2; 5; 4; 11].
Definition TITLE : Oid := [2; 5; 4; 12].
Definition GIVEN_NAME : Oid := [2; 5; 4; 42].
Definition INITIALS : Oid := [2; 5; 4; 43].
Definition GENERATION_QUALIFIER : Oid := [2; 5; 4; 44].
Definition DISTINGUISHED_NAME : Oid := [2; 5; 4; 49].
Definition PSEUDONYM : Oid := [2; 5; 4; 65].
Definition USER_ID : Oid := [0; 9; 2342; 19200300; 100; 1; 1].
Definition DOMAIN_COMPONENT : Oid := [0; 9; 2342; 19200300; 100; 1; 25].
Definition EMAIL : Oid := [1; 2; 840; 113549; 1; 9; 1].

Section x509.
Context (p : Primitives) (lib : X509Lib p).

(** ** ec_for_x509.rs *)
Definition curve_from_algorithm (a : AlgorithmIdentifier) : Result EcX509Error Curve :=
  if bool_decide (algorithm_oid a = ED25519_OID) then Ok Ed25519
  else if bool_decide (algorithm_oid a = X25519_OID) then Ok X25519
  else if bool_decide (parameters_oid p lib a = Some P256_OID) then Ok P256
  else Err (UnsupportedPublicKeyAlgorithm (algorithm_oid a)).

(** The signer is its curve. *)
Definition signer_from_algorithm (a : AlgorithmIdentifier) : Result EcX509Error Curve :=
  curve ← curve_from_algorithm a;
  match curve with Ed25519 | P256 => Ok curve | _ => Err (UnsupportedPublicKeyAlgorithm (algorithm_oid a)) end.

Definition to_spki (oid : Oid) (key_data : bytes) : Result EcX509Error bytes :=
  ok_or (spki_to_der p lib {| algorithm := {| algorithm_oid := oid; parameters := None |}; subject_public_key := key_data |}) EcxSpkiError.

Definition pub_key_to_spki (k : EcPublicKey p) : Result EcX509Error bytes :=
  match k with
  | PubX25519 _ k => to_spki X25519_OID (x25519_public_bytes p k)
  | PubEd25519 _ k => to_spki ED25519_OID (ed25519_public_bytes p k)
  | PubP256 _ k => ok_or (p256_to_public_key_der p lib k) NistSpkiError
  end.

Definition pub_key_from_spki (s : SubjectPublicKeyInfo) : Result EcX509Error (EcPublicKey p) :=
  curve ← curve_from_algorithm (algorithm s);
  match curve with
  | X25519 => map_err EcxEcError (pub_key_from_uncompressed p (subject_public_key s) X25519)
  | Ed25519 => map_err EcxEcError (pub_key_from_uncompressed p (subject_public_key s) Ed25519)
  | P256 => k ← ok_or (p256_from_sec1 p lib (subject_public_key s)) (EcxEcError P256Error); Ok (PubP256 p k)
  | _ => Err (EcxEcError UnsupportedCurve)
  end.

(** ** validator.rs *)
Record X509Validator := { root_ca_list : gmap bytes bytes; pinned_cert : option bytes; self_signed_allowed : bool }.

Definition from_der (b : bytes) : Result X509Error Certificate := ok_or (certificate_from_der p lib b) X509DerError.

Definition verify_time (c : Certificate) (now : Z) : Result X509Error unit :=
  let t := tbs_certificate c in
  guard_or ((not_before t <=? now) && (now <=? not_after t)) (ValidityError now c).

Definition check_time (c : Certificate) (timestamp : option Z) : Result X509Error unit :=
  match timestamp with Some time => verify_time c time | None => Ok tt end.

Definition verify_cert (verifier verified : Certificate) (timestamp : option Z) : Result X509Error unit :=
  tbs ← ok_or (tbs_to_der p lib (tbs_certificate verified)) X509DerError;
  let info := subject_public_key_info (tbs_certificate verifier) in
  signer ← map_err X509EcX509Error (signer_from_algorithm (algorithm info));
  pub_key ← map_err X509EcX509Error (pub_key_from_spki info);
  map_err X509EcSignerError (signer_verify p signer (pub_key_to_uncompressed p pub_key) (signature verified) tbs);;
  check_time verified timestamp.

(** The key of a certificate, as a signature key. *)
Definition certificate_key (c : Certificate) : Result X509Error bytes :=
  pub_key ← map_err X509EcX509Error (pub_key_from_spki (subject_public_key_info (tbs_certificate c)));
  Ok (pub_key_to_uncompressed p pub_key).

(** One entry of the list of roots; [collect] into the map keeps the last of a subject. *)
Definition new_root (roots : gmap bytes bytes) (cert_data : bytes) : Result X509Error (gmap bytes bytes) :=
  cert ← from_der cert_data;
  verify_cert cert cert None;;
  name ← ok_or (name_to_der p lib (subject (tbs_certificate cert))) X509DerError;
  Ok (<[name := cert_data]> roots).

Definition validator_new (root_ca_list : list bytes) : Result X509Error X509Validator :=
  roots ← foldM new_root ∅ root_ca_list;
  Ok {| root_ca_list := roots; pinned_cert := None; self_signed_allowed := false |}.

Definition set_pinned_cert (v : X509Validator) (c : option bytes) : X509Validator :=
  {| root_ca_list := root_ca_list v; pinned_cert := c; self_signed_allowed := self_signed_allowed v |}.

Definition allow_self_signed (v : X509Validator) (allow : bool) : X509Validator :=
  {| root_ca_list := root_ca_list v; pinned_cert := pinned_cert v; self_signed_allowed := allow |}.

(** The loop over a certificate and the next one, the last one next to itself. *)
Fixpoint check_links (v : X509Validator) (timestamp : option Z) (chain : list Certificate) (links : list (Certificate * Certificate))
    : Result X509Error bytes :=
  match links with
  | [] => Err CaNotFound
  | (cert1, cert2) :: links =>
      name ← ok_or (name_to_der p lib (issuer (tbs_certificate cert1))) X509DerError;
      match root_ca_list v !! name with
      | Some ca =>
          ca ← from_der ca;
          check_time ca timestamp;;
          verify_cert ca cert1 timestamp;;
          leaf_cert ← ok_or (head chain) EmptyCertificateChain;
          certificate_key leaf_cert
      | None =>
          verify_cert cert2 cert1 timestamp;;
          check_links v timestamp chain links
      end
  end.

Definition chain_links (chain : list Certificate) : list (Certificate * Certificate) := zip chain (tail chain ++ option_list (last chain)).

Definition validate_signed_chain (v : X509Validator) (chain : list bytes) (timestamp : option Z) : Result X509Error bytes :=
  guard_or (negb (bool_decide (chain = []))) EmptyCertificateChain;;
  match pinned_cert v with
  | Some pinned => guard_or (bool_decide (pinned ∈ chain)) PinnedCertNotFound
  | None => Ok tt
  end;;
  chain ← mapM_res from_der chain;
  check_links v timestamp chain (chain_links chain).

Definition validate_self_signed (chain : list bytes) (timestamp : option Z) : Result X509Error bytes :=
  match chain with
  | [cert] =>
      cert ← from_der cert;
      verify_cert cert cert timestamp;;
      certificate_key cert
  | _ => Err (SelfSignedWrongLength (len chain))
  end.

Definition validate_chain (v : X509Validator) (chain : list bytes) (timestamp : option Z) : Result X509Error bytes :=
  if negb (self_signed_allowed v) then validate_signed_chain v chain timestamp else validate_self_signed chain timestamp.

(** ** util.rs: names *)
Definition build_component (c : SubjectComponent) : Result X509Error RelativeDistinguishedName :=
  let '(oid, v) := match c with
    | CommonName cn => (COMMON_NAME, cn)
    | Surname s => (SURNAME, s)
    | SerialNumber s => (SERIAL_NUMBER, s)
    | CountryName c => (COUNTRY_NAME, c)
    | Locality l => (LOCALITY_NAME, l)
    | State s => (ST, s)
    | StreetAddress a => (STREET, a)
    | OrganizationName o => (ORGANIZATION_NAME, o)
    | OrganizationalUnit ou => (ORGANIZATIONAL_UNIT, ou)
    | Title t => (TITLE, t)
    | GivenName gn => (GIVEN_NAME, gn)
    | UserId u => (USER_ID, u)
    | DomainComponent dc => (DOMAIN_COMPONENT, dc)
    | Initials i => (INITIALS, i)
    | GenerationQualifier gq => (GENERATION_QUALIFIER, gq)
    | DistinguishedNameQualifier dnq => (DISTINGUISHED_NAME, dnq)
    | EmailAddress e => (EMAIL, e)
    | Pseudonym s => (PSEUDONYM, s)
    end in
  let t := match c with CountryName _ => PrintableTag | DomainComponent _ => Ia5Tag | _ => Utf8Tag end in
  guard_or (valid_string p lib t v) X509DerError;;
  Ok [{| atv_oid := oid; atv_value := {| tag := t; value := v |} |}].

Definition build_x509_name (components : list SubjectComponent) : Result X509Error RdnSequence := mapM_res build_component components.

(** [rdn.0.get(0).unwrap()]: an empty set of attributes panics. *)
Definition parse_component (rdn : RelativeDistinguishedName) : Result X509Error SubjectComponent :=
  type_and_value ← unwrap (head rdn);
  let v := atv_value type_and_value in
  value ← match tag v with
          | OtherTag n => Err (UnexpectedComponentType (OtherTag n))
          | t => guard_or (valid_string p lib t (value v)) X509DerError;; Ok (value v)
          end;
  let o := atv_oid type_and_value in
  if bool_decide (o = COMMON_NAME) then Ok (CommonName value)
  else if bool_decide (o = SURNAME) then Ok (Surname value)
  else if bool_decide (o = COUNTRY_NAME) then Ok (CountryName value)
  else if bool_decide (o = LOCALITY_NAME) then Ok (Locality value)
  else if bool_decide (o = ST) then Ok (State value)
  else if bool_decide (o = STREET) then Ok (StreetAddress value)
  else if bool_decide (o = ORGANIZATION_NAME) then Ok (OrganizationName value)
  else if bool_decide (o = ORGANIZATIONAL_UNIT) then Ok (OrganizationalUnit value)
  else if bool_decide (o = TITLE) then Ok (Title value)
  else if bool_decide (o = GIVEN_NAME) then Ok (GivenName value)
  else if bool_decide (o = USER_ID) then Ok (UserId value)
  else if bool_decide (o = DOMAIN_COMPONENT) then Ok (DomainComponent value)
  else if bool_decide (o = INITIALS) then Ok (Initials value)
  else if bool_decide (o = GENERATION_QUALIFIER) then Ok (GenerationQualifier value)
  else if bool_decide (o = DISTINGUISHED_NAME) then Ok (DistinguishedNameQualifier value)
  else if bool_decide (o = EMAIL) then Ok (EmailAddress value)
  else if bool_decide (o = PSEUDONYM) then Ok (Pseudonym value)
  else if bool_decide (o = SERIAL_NUMBER) then Ok (SerialNumber value)
  else Err (UnsupportedSubjectComponentOid o).

Definition parse_x509_name (rdns : RdnSequence) : Result X509Error (list SubjectComponent) := mapM_res parse_component rdns.

Definition general_name_to_alt_name (n : GeneralName) : Result X509Error SubjectAltName :=
  match n with
  | UniformResourceIdentifier u => Ok (AltUri u)
  | DnsName d => Ok (AltDns d)
  | RegisteredId r => Ok (AltRid (oid_to_string p lib r))
  | Rfc822Name e => Ok (AltEmail e)
  | IpAddress i =>
      if (len i =? 4) || (len i =? 16) then Ok (AltIp (ip_to_string p lib i)) else Err (IncorrectIpOctets (len i))
  | _ => Err (CannotParseAltName n)
  end.

Definition general_names_to_alt_names (names : list GeneralName) : Result X509Error (list SubjectAltName) :=
  mapM_res general_name_to_alt_name names.

(** ** reader.rs *)
Definition reader_subject_bytes (certificate : bytes) : Result X509Error bytes :=
  c ← from_der certificate; ok_or (name_to_der p lib (subject (tbs_certificate c))) X509DerError.

Definition reader_subject_components (certificate : bytes) : Result X509Error (list SubjectComponent) :=
  c ← from_der certificate; parse_x509_name (subject (tbs_certificate c)).

Definition reader_subject_alt_names (certificate : bytes) : Result X509Error (list SubjectAltName) :=
  c ← from_der certificate;
  names ← mapM_res (λ ext, names ← ok_or (general_names_from_der p lib (extn_value ext)) X509DerError; general_names_to_alt_names names)
            (filter (λ ext, extn_id ext = SUBJECT_ALT_NAME) (default [] (extensions (tbs_certificate c))));
  Ok (concat names).

Definition reader_public_key (certificate : bytes) : Result X509Error bytes := c ← from_der certificate; certificate_key c.

Definition x509_reader (box : X509Error → AnyError) : X509CertificateReader := {|
  subject_bytes c := map_err box (reader_subject_bytes c);
  subject_components c := map_err box (reader_subject_components c);
  subject_alt_names c := map_err box (reader_subject_alt_names c);
  public_key c := map_err box (reader_public_key c);
|}.

Definition x509_validator (box : X509Error → AnyError) (v : X509Validator) : X509CredentialValidator := {|
  x509_validate_chain chain time := map_err box (validate_chain v chain time);
|}.

(** ** writer.rs *)
Definition object_id_for_ciphersuite (cs : Z) : Result X509Error Oid :=
  if cs =? P256_AES128 then Ok ECDSA_WITH_SHA_256
  else if suite_in cs [CURVE25519_AES128; CURVE25519_CHACHA] then Ok ED25519_OID
  else Err (InvalidSigningKey cs).

Definition general_name_of (n : SubjectAltName) : Result X509Error GeneralName :=
  match n with
  | AltUri n => guard_or (valid_string p lib Ia5Tag n) X509DerError;; Ok (UniformResourceIdentifier n)
  | AltDns d => guard_or (valid_string p lib Ia5Tag d) X509DerError;; Ok (DnsName d)
  | AltRid r => o ← ok_or (oid_from_string p lib r) ConstOidError; Ok (RegisteredId o)
  | AltEmail e => guard_or (valid_string p lib Ia5Tag e) X509DerError;; Ok (Rfc822Name e)
  | AltIp i => ip ← ok_or (ip_from_string p lib i) AddrParseError; Ok (IpAddress ip)
  end.

Definition subject_alt_name (n : SubjectAltName) : Result X509Error Extension :=
  name ← general_name_of n;
  v ← ok_or (general_names_to_der p lib [name]) X509DerError;
  Ok {| extn_id := SUBJECT_ALT_NAME; critical := false; extn_value := v |}.

Definition basic_constraints (is_ca : bool) : Result X509Error Extension :=
  v ← ok_or (basic_constraints_to_der p lib is_ca None) X509DerError;
  Ok {| extn_id := BASIC_CONSTRAINTS; critical := true; extn_value := v |}.

(** The bits of [KeyUsage]: keyCertSign and cRLSign. *)
Definition ca_key_usage : Result X509Error Extension :=
  v ← ok_or (key_usage_to_der p lib [5; 6]) X509DerError;
  Ok {| extn_id := KEY_USAGE; critical := true; extn_value := v |}.

Definition request_extensions (params : CertificateRequestParameters) : Result X509Error (list Extension) :=
  alt_names ← mapM_res subject_alt_name (req_alt_names params);
  constraints ← basic_constraints (is_ca params);
  if is_ca params then usage ← ca_key_usage; Ok (alt_names ++ [constraints; usage]) else Ok (alt_names ++ [constraints]).

Definition extension_req (exts : list Extension) : Result X509Error Attribute :=
  ext_req ← ok_or (extension_req_to_der p lib exts) X509DerError;
  v ← ok_or (any_from_der p lib ext_req) X509DerError;
  Ok {| attribute_oid := EXTENSION_REQ; attribute_values := [v] |}.

Record CertificateRequestWriter := { cr_cipher_suite : Z; cr_signer : Curve; signing_key : bytes }.

Definition request_writer_new (cs : Z) (signing_key : bytes) : Result X509Error CertificateRequestWriter :=
  signer ← ok_or (from_ciphersuite cs true) X509UnsupportedCipherSuite;
  Ok {| cr_cipher_suite := cs; cr_signer := signer; signing_key := signing_key |}.

Definition new_generate_key (cs : Z) (seed : bytes) : Result X509Error CertificateRequestWriter :=
  signer ← ok_or (from_ciphersuite cs true) X509UnsupportedCipherSuite;
  '(secret, _) ← map_err X509EcSignerError (signature_key_generate p signer seed);
  Ok {| cr_cipher_suite := cs; cr_signer := signer; signing_key := secret |}.

Definition write_request (w : CertificateRequestWriter) (params : CertificateRequestParameters) : Result X509Error bytes :=
  public_key ← map_err X509EcSignerError (signature_key_derive_public p (cr_signer w) (signing_key w));
  ec_public_key ← map_err X509EcError (pub_key_from_uncompressed p public_key (cr_signer w));
  der_public_key ← map_err X509EcX509Error (pub_key_to_spki ec_public_key);
  spki ← ok_or (spki_from_der p lib der_public_key) X509DerError;
  exts ← request_extensions params;
  attributes ← (if bool_decide (exts = []) then Ok [] else attribute ← extension_req exts; Ok [attribute]);
  subject ← build_x509_name (req_subject params);
  let info := {| ri_subject := subject; ri_public_key := spki; ri_attributes := attributes |} in
  oid ← object_id_for_ciphersuite (cr_cipher_suite w);
  to_sign ← ok_or (req_info_to_der p lib info) X509DerError;
  signature ← map_err X509EcSignerError (signer_sign p (cr_signer w) (signing_key w) to_sign);
  ok_or (req_to_der p lib {| req_info := info; req_algorithm := {| algorithm_oid := oid; parameters := None |}; req_signature := signature |})
    X509DerError.
End x509.

(** ** What is accepted *)
Section accepted.
Context (p : Primitives) (lib : X509Lib p).

(** The certificate [c] is signed by the key of [v], and within its time. *)
Definition certified (v c : Certificate) (time : option Z) : Prop :=
  ∃ tbs curve key,
    tbs_to_der p lib (tbs_certificate c) = Some tbs ∧
    signer_from_algorithm p lib (algorithm (subject_public_key_info (tbs_certificate v))) = Ok curve ∧
    pub_key_from_spki p lib (subject_public_key_info (tbs_certificate v)) = Ok key ∧
    signer_verify p curve (pub_key_to_uncompressed p key) (signature c) tbs = Ok tt ∧
    check_time c time = Ok tt.

(** A chain up to the first certificate a trusted root has issued: each is signed by the
    next one, the last one by the root. *)
Inductive trusted (v : X509Validator) (time : option Z) : list Certificate → Prop :=
  | trusted_root c rest name der ca :
      name_to_der p lib (issuer (tbs_certificate c)) = Some name → root_ca_list v !! name = Some der →
      certificate_from_der p lib der = Some ca → check_time ca time = Ok tt → certified ca c time →
      trusted v time (c :: rest)
  | trusted_link c c' rest name :
      name_to_der p lib (issuer (tbs_certificate c)) = Some name → root_ca_list v !! name = None →
      certified c' c time → trusted v time (c' :: rest) →
      trusted v time (c :: c' :: rest).

Lemma certified_ok v c time : verify_cert p lib v c time = Ok tt ↔ certified v c time.
Proof.
  unfold verify_cert, certified. split.
  - intros (tbs & Ht%ok_or_ok & (curve & Hc%map_err_ok & (key & Hk%map_err_ok & ([] & Hv%map_err_ok & Htime)%bind_ok)%bind_ok)%bind_ok)%bind_ok.
    by exists tbs, curve, key.
  - intros (tbs & curve & key & -> & -> & -> & Hv & Htime). cbn. by rewrite Hv.
Qed.

Lemma from_der_ok b c : from_der p lib b = Ok c ↔ certificate_from_der p lib b = Some c.
Proof. apply ok_or_ok. Qed.

Lemma chain_links_cons c c' rest : chain_links (c :: c' :: rest) = (c, c') :: chain_links (c' :: rest).
Proof. unfold chain_links. cbn. by destruct rest. Qed.

(** The loop, whatever chain the leaf is taken from. *)
Lemma check_links_exact v time leaf whole chain k :
  check_links p lib v time (leaf :: whole) (chain_links chain) = Ok k ↔ trusted v time chain ∧ certificate_key p lib leaf = Ok k.
Proof.
  induction chain as [|c [|c' rest] IH].
  - cbn. split; [done|]. intros [H _]. inversion H.
  - change (chain_links [c]) with [(c, c)]. cbn [check_links]. split.
    + intros (name & Hn%ok_or_ok & H)%bind_ok. destruct (root_ca_list v !! name) as [der|] eqn:Er.
      * apply bind_ok in H as (ca & Hca%from_der_ok & ([] & Ht & ([] & Hv%certified_ok & Hk)%bind_ok)%bind_ok).
        split; [by eapply trusted_root|]. exact Hk.
      * by apply bind_ok in H as ([] & _ & H).
    + intros [H Hk]. inversion H as [? ? name der ca Hn Hr Hca Ht Hc|]; subst. rewrite Hn. cbn. rewrite Hr.
      rewrite (proj2 (from_der_ok _ _) Hca). cbn. rewrite Ht. cbn. by rewrite (proj2 (certified_ok _ _ _) Hc).
  - rewrite chain_links_cons. cbn [check_links]. split.
    + intros (name & Hn%ok_or_ok & H)%bind_ok. destruct (root_ca_list v !! name) as [der|] eqn:Er.
      * apply bind_ok in H as (ca & Hca%from_der_ok & ([] & Ht & ([] & Hv%certified_ok & Hk)%bind_ok)%bind_ok).
        split; [by eapply trusted_root|]. exact Hk.
      * apply bind_ok in H as ([] & Hv%certified_ok & [Ht Hk]%IH). split; [|done]. by eapply trusted_link.
    + intros [H Hk]. inversion H as [? ? name der ca Hn Hr Hca Ht Hc|? ? ? name Hn Hr Hc Ht]; subst; rewrite Hn; cbn; rewrite Hr.
      * rewrite (proj2 (from_der_ok _ _) Hca). cbn. rewrite Ht. cbn. by rewrite (proj2 (certified_ok _ _ _) Hc).
      * rewrite (proj2 (certified_ok _ _ _) Hc). apply IH. by split.
Qed.

(** The certificates of a chain. *)
Definition parses (chain : list bytes) (certs : list Certificate) : Prop :=
  Forall2 (λ b c, certificate_from_der p lib b = Some c) chain certs.

Lemma parses_ok chain certs : mapM_res (from_der p lib) chain = Ok certs ↔ parses chain certs.
Proof. rewrite mapM_res_ok. split; intros H; (eapply Forall2_impl; [exact H|]); intros b c; apply from_der_ok. Qed.

Lemma trusted_app v time certs more : trusted v time certs → trusted v time (certs ++ more).
Proof. induction 1; cbn; [by eapply trusted_root|by eapply trusted_link]. Qed.

(** Trust depends on the list of roots only. *)
Lemma trusted_roots v v' time certs : root_ca_list v' = root_ca_list v → trusted v time certs → trusted v' time certs.
Proof. intros E. induction 1; [eapply trusted_root|eapply trusted_link]; rewrite ?E; done. Qed.

Lemma signed_chain_accepted v chain time k : self_signed_allowed v = false →
  validate_chain p lib v chain time = Ok k ↔
  ∃ certs leaf, parses chain certs ∧ head certs = Some leaf ∧ (∀ pin, pinned_cert v = Some pin → pin ∈ chain) ∧
    trusted v time certs ∧ certificate_key p lib leaf = Ok k.
Proof.
  intros Hs. unfold validate_chain, validate_signed_chain. rewrite Hs. cbn [negb]. split.
  - intros ([] & Hne%guard_or_ok & ([] & Hpin & (certs & Hp%parses_ok & H)%bind_ok)%bind_ok)%bind_ok.
    destruct certs as [|leaf certs]; [inversion Hp; subst; done|]. apply check_links_exact in H as [Ht Hk].
    exists (leaf :: certs), leaf. split_and!; try done. intros pin E. rewrite E in Hpin. apply guard_or_ok in Hpin. by apply bool_decide_eq_true in Hpin.
  - intros (certs & leaf & Hp & Hh & Hpin & Ht & Hk). destruct certs as [|leaf' certs]; [done|]. injection Hh as ->.
    destruct chain as [|b chain]; [inversion Hp|]. rewrite bool_decide_eq_false_2 by done. cbn [negb guard_or mbind result_bind].
    assert (match pinned_cert v with Some pinned => guard_or (bool_decide (pinned ∈ b :: chain)) PinnedCertNotFound | None => Ok tt end = Ok tt) as ->.
    { destruct (pinned_cert v) as [pin|]; [|done]. by rewrite bool_decide_eq_true_2 by auto. }
    cbn [mbind result_bind]. rewrite (proj2 (parses_ok _ _) Hp). cbn [mbind result_bind]. by apply check_links_exact.
Qed.

(** A chain of certificates is accepted, with a key, exactly when it parses, contains
    the pinned certificate if there is one, is trusted (each certificate up to the
    first that a trusted root has issued is signed with the key of the next one,
    that one with the key of the root, and all of them and the root are within
    their time), and the key is that of its first certificate. *)
Theorem validate_chain_exact v chain time k : self_signed_allowed v = false →
  validate_chain p lib v chain time = Ok k ↔
  ∃ certs leaf, parses chain certs ∧ head certs = Some leaf ∧ (∀ pin, pinned_cert v = Some pin → pin ∈ chain) ∧
    trusted v time certs ∧ certificate_key p lib leaf = Ok k.
Proof. apply signed_chain_accepted. Qed.

(** C39. Pinning does not hold a chain to the pinned certificate: any chain that is accepted
    without a pin is accepted with one, once the pinned certificate is put after its end. *)
Theorem pinned_certificate_appended v chain time k pin c :
  self_signed_allowed v = false → validate_chain p lib v chain time = Ok k → certificate_from_der p lib pin = Some c →
  validate_chain p lib (set_pinned_cert v (Some pin)) (chain ++ [pin]) time = Ok k.
Proof.
  intros Hs (certs & leaf & Hp & Hh & _ & Ht & Hk)%signed_chain_accepted Hpin; [|done]. apply signed_chain_accepted; [done|].
  exists (certs ++ [c]), leaf. split_and!.
  - apply Forall2_app; [done|by repeat constructor].
  - by destruct certs.
  - intros pin' [= <-]. apply elem_of_app. right. left.
  - by apply (trusted_roots v), trusted_app.
  - done.
Qed.

(** Every certificate of a trusted chain can issue others: what its key signs is accepted in
    front of the chain, whatever its extensions say about authorities and whatever
    name the other one gives as its issuer's, as long as that is no root's. *)
Theorem any_certificate_issues v chain time k forged c k' signer certs name :
  self_signed_allowed v = false → pinned_cert v = None → validate_chain p lib v chain time = Ok k → parses chain (signer :: certs) →
  certificate_from_der p lib forged = Some c → certified signer c time → certificate_key p lib c = Ok k' →
  name_to_der p lib (issuer (tbs_certificate c)) = Some name → root_ca_list v !! name = None →
  validate_chain p lib v (forged :: chain) time = Ok k'.
Proof.
  intros Hs Hpin (certs' & leaf & Hp%parses_ok & Hh & _ & Ht & Hk)%signed_chain_accepted Hp'%parses_ok Hf Hc Hk' Hn Hr; [|done].
  rewrite Hp in Hp'. injection Hp' as ->. apply signed_chain_accepted; [done|]. exists (c :: signer :: certs), c. split_and!; try done.
  - constructor; [done|]. by apply parses_ok.
  - by rewrite Hpin.
  - by eapply trusted_link.
Qed.

(** The roots of a validator: each is a certificate signed with its own key, filed under
    its subject. *)
Lemma roots_self_signed l v : validator_new p lib l = Ok v → ∀ name der, root_ca_list v !! name = Some der →
  der ∈ l ∧ ∃ c, certificate_from_der p lib der = Some c ∧ certified c c None ∧ name_to_der p lib (subject (tbs_certificate c)) = Some name.
Proof.
  unfold validator_new. intros (roots & Hr & [= <-])%bind_ok. cbn [root_ca_list]. revert Hr.
  apply (foldM_invariant _ (λ roots, ∀ name der, roots !! name = Some der → der ∈ l ∧ ∃ c, certificate_from_der p lib der = Some c ∧
    certified c c None ∧ name_to_der p lib (subject (tbs_certificate c)) = Some name)).
  - intros name der H. by rewrite lookup_empty in H.
  - intros m d m' Hd IH (c & Hc%from_der_ok & ([] & Hv%certified_ok & (n & Hn%ok_or_ok & [= <-])%bind_ok)%bind_ok)%bind_ok name der.
    intros [[<- <-]|[_ H]]%lookup_insert_Some; [|by apply IH]. split; [done|]. by exists c.
Qed.
End accepted.

(** ** Names *)
Section names.
Context (p : Primitives) (lib : X509Lib p).

Lemma component_roundtrip c r : build_component p lib c = Ok r → parse_component p lib r = Ok c.
Proof.
  unfold build_component. intros H.
  destruct c; cbn in H; apply bind_ok in H as ([] & Hv%guard_or_ok & [= <-]); unfold parse_component; cbn; rewrite Hv; reflexivity.
Qed.

Lemma names_back l n : build_x509_name p lib l = Ok n → parse_x509_name p lib n = Ok l.
Proof.
  unfold build_x509_name, parse_x509_name. rewrite !mapM_res_ok. intros H. apply Forall2_flip. eapply Forall2_impl; [exact H|].
  intros c r. apply component_roundtrip.
Qed.

(** A name that is built from components parses back to the same components. *)
Theorem name_roundtrip l n : build_x509_name p lib l = Ok n → parse_x509_name p lib n = Ok l.
Proof. apply names_back. Qed.

(** Reading a name panics at a set of attributes that is empty, when the sets before it
    can be read. *)
Lemma empty_set_panics before after l : mapM_res (parse_component p lib) before = Ok l → parse_x509_name p lib (before ++ [] :: after) = Panic.
Proof.
  unfold parse_x509_name. revert l. induction before as [|r before IH]; intros l; cbn [app mapM_res]; [done|].
  intros (c & -> & (l' & H & _)%bind_ok)%bind_ok. cbn. by rewrite (IH l').
Qed.
End names.


(** ** Members with certificates *)

(** What the encoding rules promise: they are unambiguous. *)
Class DerLaws (p : Primitives) (lib : X509Lib p) : Prop := {
  der_name_inj n n' b : name_to_der p lib n = Some b → name_to_der p lib n' = Some b → n = n';
  der_spki s b : spki_to_der p lib s = Some b → spki_from_der p lib b = Some s;
  der_p256 k b : p256_to_public_key_der p lib k = Some b → ∃ s, spki_from_der p lib b = Some s ∧
    curve_from_algorithm p lib (algorithm s) = Ok P256 ∧ p256_from_sec1 p lib (subject_public_key s) = Some k;
}.

Section members.
Context (p : Primitives) (lib : X509Lib p) (box : X509Error → AnyError) `{!DerLaws p lib}.

#[export] Instance x509_reader_laws : ReaderLaws (x509_reader p lib box).
Proof.
  intros c c' b. cbn. rewrite !map_err_ok. unfold reader_subject_bytes, reader_subject_components.
  intros (x & Hx & Hb%ok_or_ok)%bind_ok (x' & Hx' & Hb'%ok_or_ok)%bind_ok. rewrite Hx, Hx'. cbn. by rewrite (der_name_inj _ _ _ Hb Hb').
Qed.

(** The provider of the crate: the subject of the first certificate, and the validator. *)
Definition certificate_provider (ibox : X509IdentityError → AnyError) (v : X509Validator) : X509IdentityProvider := {|
  identity_extractor := subject_identity_extractor ibox {| offset := 0; reader := x509_reader p lib box |};
  validator := x509_validator p lib box v;
|}.

(** What a validator takes for the chain [certs], read from [chain]: a single certificate
    signed with its own key if it allows that, and otherwise a trusted chain that has
    the pinned certificate, if there is a pin. *)
Definition vouched (v : X509Validator) (time : option Z) (chain : list bytes) (certs : list Certificate) (leaf : Certificate) : Prop :=
  if self_signed_allowed v then certs = [leaf] ∧ certified p lib leaf leaf time
  else trusted p lib v time certs ∧ ∀ pin, pinned_cert v = Some pin → pin ∈ chain.

Lemma self_signed_accepted v chain time k : self_signed_allowed v = true →
  validate_chain p lib v chain time = Ok k ↔
  ∃ leaf, parses p lib chain [leaf] ∧ certified p lib leaf leaf time ∧ certificate_key p lib leaf = Ok k.
Proof.
  intros Hs. unfold validate_chain, validate_self_signed. rewrite Hs. cbn [negb]. split.
  - destruct chain as [|b []]; try done. intros (c & Hc%from_der_ok & ([] & Hv%certified_ok & Hk)%bind_ok)%bind_ok.
    exists c. split_and!; try done. by repeat constructor.
  - intros (leaf & Hp & Hc & Hk). inversion Hp as [|b c chain' certs Hb Hrest]; subst. inversion Hrest; subst.
    rewrite (proj2 (from_der_ok _ _ _ _) Hb). cbn. by rewrite (proj2 (certified_ok _ _ _ _ _) Hc).
Qed.

End members.

(** ** Certificate requests *)
Section requests.
Context (p : Primitives) (lib : X509Lib p) `{!PrimitiveLaws p} `{!DerLaws p lib}.

(** The curve a public key is read on. *)
Definition key_curve (k : EcPublicKey p) : Curve := match k with PubX25519 _ _ => X25519 | PubEd25519 _ _ => Ed25519 | PubP256 _ _ => P256 end.

Lemma uncompressed_curve c b k : pub_key_from_uncompressed p b c = Ok k → pub_key_from_uncompressed p b (key_curve k) = Ok k.
Proof.
  intros H. enough (key_curve k = c) as -> by done. destruct c; cbn in H; try done.
  - by apply bind_ok in H as (? & _ & (? & _ & [= <-])%bind_ok).
  - destruct (_ =? _); [|done]. by injection H as <-.
  - destruct (_ =? _); [|done]. by apply bind_ok in H as (? & _ & [= <-]).
Qed.

Lemma spki_roundtrip c k d s : pub_key_from_uncompressed p (pub_key_to_uncompressed p k) c = Ok k →
  pub_key_to_spki p lib k = Ok d → spki_from_der p lib d = Some s → pub_key_from_spki p lib s = Ok k.
Proof.
  intros Hk Hd Hs. unfold pub_key_from_spki. destruct k as [k|k|k]; cbn in Hd; unfold to_spki in Hd; apply ok_or_ok in Hd.
  - apply der_spki in Hd. rewrite Hs in Hd. injection Hd as ->. cbn [algorithm subject_public_key].
    change (curve_from_algorithm _ _ _) with (Ok (E:=EcX509Error) X25519). cbn [mbind result_bind]. apply map_err_ok. by apply (uncompressed_curve c) in Hk.
  - apply der_spki in Hd. rewrite Hs in Hd. injection Hd as ->. cbn [algorithm subject_public_key].
    change (curve_from_algorithm _ _ _) with (Ok (E:=EcX509Error) Ed25519). cbn [mbind result_bind]. apply map_err_ok. by apply (uncompressed_curve c) in Hk.
  - apply der_p256 in Hd as (s' & Hs' & Hc & Hp). rewrite Hs in Hs'. injection Hs' as <-. rewrite Hc. cbn. by rewrite Hp.
Qed.

(** A certificate request that is written names the subject that was asked for, holds
    the public key of the signing key, and is signed with it. *)
Theorem request_sound cs seed w params der : new_generate_key p cs seed = Ok w → write_request p lib w params = Ok der →
  ∃ req to_sign key, req_to_der p lib req = Some der ∧ req_info_to_der p lib (req_info req) = Some to_sign ∧
    parse_x509_name p lib (ri_subject (req_info req)) = Ok (req_subject params) ∧
    pub_key_from_spki p lib (ri_public_key (req_info req)) = Ok key ∧
    signature_key_derive_public p (cr_signer w) (signing_key w) = Ok (pub_key_to_uncompressed p key) ∧
    signer_verify p (cr_signer w) (pub_key_to_uncompressed p key) (req_signature req) to_sign = Ok tt.
Proof.
  unfold new_generate_key. intros (c & Hc & ([sk pk] & (x & Hx & -> & ->)%map_err_ok%map_err_ok%generated_keypair & [= <-])%bind_ok)%bind_ok.
  unfold write_request. cbn [cr_signer signing_key cr_cipher_suite].
  assert (signature_key_derive_public p c (private_key_to_bytes p x) = Ok (pub_key_to_uncompressed p (private_key_to_public p x))) as Hpub.
  { unfold signature_key_derive_public, private_key_bytes_to_public. by rewrite private_key_roundtrip. }
  rewrite Hpub. cbn. intros (k & Hk%map_err_ok & (d & Hd%map_err_ok & (s & Hsp%ok_or_ok & H)%bind_ok)%bind_ok)%bind_ok.
  pose proof (public_key_roundtrip p c x Hx) as Hround. rewrite Hk in Hround. injection Hround as ->.
  apply bind_ok in H as (exts & _ & (attrs & _ & (n & Hn & (oid & _ & H)%bind_ok)%bind_ok)%bind_ok).
  apply bind_ok in H as (to_sign & Ht%ok_or_ok & (sg & Hsg%map_err_ok & Hr%ok_or_ok)%bind_ok).
  do 3 eexists. split; [exact Hr|]. split; [exact Ht|]. cbn. split_and!.
  - by apply names_back.
  - by eapply spki_roundtrip.
  - done.
  - by apply signer_verifies.
Qed.
End requests.

(** ** Examples *)

(** A name is a common name; keys are Ed25519 or X25519 keys, or P-256 ones under a
    parameter; a signature is the first 32 bytes of the key and the data.  A certificate
    is signed over its number. *)
Definition sample_name (n : bytes) : RdnSequence := [[{| atv_oid := COMMON_NAME; atv_value := {| tag := Utf8Tag; value := n |} |}]].

Definition sample_p256 : AlgorithmIdentifier :=
  {| algorithm_oid := [1; 2]; parameters := Some {| tag := OtherTag 6; value := [] |} |}.

Definition sample_cert (subject issuer : bytes) (key signer number : Z) : Certificate := {|
  tbs_certificate := {|
    issuer := sample_name issuer; subject := sample_name subject; not_before := 10; not_after := 20;
    subject_public_key_info := {| algorithm := {| algorithm_oid := ED25519_OID; parameters := None |};
                                  subject_public_key := replicate 32 (byte.of_Z key) |};
    extensions := Some [{| extn_id := BASIC_CONSTRAINTS; critical := true; extn_value := [Byte.x00] |}];
    tbs_other := [byte.of_Z number] |};
  signature := replicate 32 (byte.of_Z signer) ++ [byte.of_Z number];
|}.

(** A root, an end entity certified by it, a certificate made by the end entity in a name of
    its choice, and one of another issuer. *)
Definition sample_certs : list Certificate := [
  sample_cert [Byte.x72] [Byte.x72] 1 1 0;
  sample_cert [Byte.x65] [Byte.x72] 2 1 1;
  sample_cert [Byte.x76] [Byte.x7a] 3 2 2;
  sample_cert [Byte.x70] [Byte.x71] 4 5 3].

Definition sample_spki_from (b : bytes) : option SubjectPublicKeyInfo :=
  match b with
  | Byte.x01 :: k => Some {| algorithm := {| algorithm_oid := ED25519_OID; parameters := None |}; subject_public_key := k |}
  | Byte.x02 :: k => Some {| algorithm := {| algorithm_oid := X25519_OID; parameters := None |}; subject_public_key := k |}
  | Byte.x03 :: k => Some {| algorithm := sample_p256; subject_public_key := k |}
  | _ => None
  end.

Definition sample_spki_to (s : SubjectPublicKeyInfo) : option bytes :=
  match parameters (algorithm s) with
  | Some _ => None
  | None =>
      if bool_decide (algorithm_oid (algorithm s) = ED25519_OID) then Some (Byte.x01 :: subject_public_key s)
      else if bool_decide (algorithm_oid (algorithm s) = X25519_OID) then Some (Byte.x02 :: subject_public_key s)
      else None
  end.

Definition sample_name_to (n : RdnSequence) : option bytes :=
  match n with
  | [] => Some []
  | [[{| atv_oid := o; atv_value := {| tag := Utf8Tag; value := v |} |}]] => if bool_decide (o = COMMON_NAME) then Some (Byte.x01 :: v) else None
  | _ => None
  end.

Definition sample_lib : X509Lib sample_primitives := {|
  certificate_from_der b := match b with [n] => sample_certs !! Z.to_nat (byte.unsigned n) | _ => None end;
  tbs_to_der t := Some (tbs_other t);
  name_to_der := sample_name_to;
  parameters_oid a := match parameters a with Some _ => Some P256_OID | None => None end;
  p256_from_sec1 := (Some : bytes → option (p256_public sample_primitives));
  p256_to_public_key_der := (λ k : bytes, Some (Byte.x03 :: k)) : p256_public sample_primitives → option bytes;
  spki_to_der := sample_spki_to;
  spki_from_der := sample_spki_from;
  valid_string _ _ := true;
  general_names_from_der b := Some [];
  general_names_to_der l := Some [];
  basic_constraints_to_der ca path := Some [];
  key_usage_to_der l := Some [];
  extension_req_to_der l := Some [];
  any_from_der b := Some {| tag := OtherTag 0; value := b |};
  req_info_to_der i := sample_name_to (ri_subject i);
  req_to_der r := Some (req_signature r);
  oid_from_string b := None;
  oid_to_string o := [];
  ip_from_string b := None;
  ip_to_string b := b;
|}.

#[export] Instance sample_der_laws : DerLaws sample_primitives sample_lib.
Proof.
  split.
  - intros n n' b. cbn. unfold sample_name_to. intros H H'. repeat case_match; simplify_eq/=; try done.
    repeat match goal with E : bool_decide _ = true |- _ => apply bool_decide_eq_true in E end. by subst.
  - intros [[o [a|]] k] b; cbn; unfold sample_spki_to; cbn; [done|]. intros H. repeat case_match; simplify_eq/=;
      match goal with E : bool_decide _ = true |- _ => apply bool_decide_eq_true in E end; by subst.
  - intros k b [= <-]. by eexists.
Qed.

Definition sample_validator : Result X509Error X509Validator := validator_new sample_primitives sample_lib [[Byte.x00]].

Definition the_validator : X509Validator := match sample_validator with Ok v => v | _ => {| root_ca_list := ∅; pinned_cert := None; self_signed_allowed := false |} end.

(** The end entity's chain is accepted at time 15 with its key. *)
Lemma validate_chain_exact_witness :
  validate_chain sample_primitives sample_lib the_validator [[Byte.x01]] (Some 15) = Ok (replicate 32 (byte.of_Z 2)) ∧
  ∃ certs, parses sample_primitives sample_lib [[Byte.x01]] certs ∧ trusted sample_primitives sample_lib the_validator (Some 15) certs.
Proof.
  assert (validate_chain sample_primitives sample_lib the_validator [[Byte.x01]] (Some 15) = Ok (replicate 32 (byte.of_Z 2))) as H
    by (vm_compute; reflexivity).
  split; [exact H|]. destruct (proj1 (validate_chain_exact sample_primitives sample_lib the_validator [[Byte.x01]] (Some 15) _ ltac:(vm_compute; reflexivity)) H)
    as (certs & leaf & Hp & _ & _ & Ht & _). exists certs. split; [exact Hp|exact Ht].
Defined.

(** A pin that certifies nothing is satisfied by appending it. *)
Lemma pinned_certificate_appended_witness :
  validate_chain sample_primitives sample_lib (set_pinned_cert the_validator (Some [Byte.x03])) [[Byte.x01]; [Byte.x03]] (Some 15) =
    Ok (replicate 32 (byte.of_Z 2)) ∧
  validate_chain sample_primitives sample_lib (set_pinned_cert the_validator (Some [Byte.x03])) [[Byte.x01]] (Some 15) = Err PinnedCertNotFound.
Proof.
  split; [|vm_compute; reflexivity].
  apply (pinned_certificate_appended sample_primitives sample_lib the_validator [[Byte.x01]] (Some 15) _ [Byte.x03] (sample_cert [Byte.x70] [Byte.x71] 4 5 3));
    vm_compute; reflexivity.
Defined.

(** The end entity, no authority by its extensions, issues a certificate that is accepted. *)
Lemma any_certificate_issues_witness :
  validate_chain sample_primitives sample_lib the_validator [[Byte.x02]; [Byte.x01]] (Some 15) = Ok (replicate 32 (byte.of_Z 3)).
Proof.
  eapply (any_certificate_issues sample_primitives sample_lib the_validator [[Byte.x01]] (Some 15) (replicate 32 (byte.of_Z 2)) [Byte.x02]
    (sample_cert [Byte.x76] [Byte.x7a] 3 2 2) _ (sample_cert [Byte.x65] [Byte.x72] 2 1 1) [] [Byte.x01; Byte.x7a]);
    try (vm_compute; reflexivity).
  - constructor; [vm_compute; reflexivity|constructor].
  - apply certified_ok. vm_compute. reflexivity.
Defined.

Definition sample_x509_box (e : X509Error) : AnyError := ProviderAnyError [].
Definition sample_identity_box (e : X509IdentityError) : AnyError := ProviderAnyError [].


Definition sample_request : CertificateRequestParameters := {| req_subject := [CommonName [Byte.x61]]; req_alt_names := []; is_ca := true |}.

Lemma request_sound_witness :
  ∃ w der req, new_generate_key sample_primitives CURVE25519_AES128 [Byte.x05] = Ok w ∧ write_request sample_primitives sample_lib w sample_request = Ok der ∧
    parse_x509_name sample_primitives sample_lib (ri_subject (req_info req)) = Ok [CommonName [Byte.x61]].
Proof.
  destruct (new_generate_key sample_primitives CURVE25519_AES128 [Byte.x05]) as [w| | |] eqn:Ew; [|vm_compute in Ew; discriminate Ew..].
  destruct (write_request sample_primitives sample_lib w sample_request) as [der| | |] eqn:Ed;
    [|injection Ew as <-; vm_compute in Ed; discriminate Ed..].
  destruct (request_sound sample_primitives sample_lib CURVE25519_AES128 [Byte.x05] w sample_request der Ew Ed) as (req & _ & _ & _ & _ & H & _).
  exists w, der, req. split; [reflexivity|]. split; [exact Ed|exact H].
Defined.
End X509.
