(* ===== verification/OpenSslX509.v ===== *)
(** * The validator of the OpenSSL provider (mls-rs-crypto-openssl/src/x509.rs)

    The library verifies chains of certificates: a record of operations.  The code
    chooses the roots and the parameters, and what it asks of the library is shown not
    to be what its interface documents. *)
From Stdlib Require Import Strings.String.
From S2P Require Import Prelude Codec Types.

Module OpenSsl.
Inductive OpensslX509Error := OsslEmptyChain | ChainValidationFailure | InvalidCertificateData | NonSelfSignedCa | OpensslError.

(** [X509VerifyParam]: a time to check for, the current time if there is none, and the
    flags; [flags] of a parameter is a copy of them, which can be changed. *)
Record VerifyFlags := { NO_CHECK_TIME : bool }.
Record VerifyParam := { vp_time : option Z; flags : VerifyFlags }.
Definition param_new : VerifyParam := {| vp_time := None; flags := {| NO_CHECK_TIME := false |} |}.
Definition set_no_check_time (f : VerifyFlags) (on : bool) : VerifyFlags := {| NO_CHECK_TIME := on |}.

(** [set_time] takes the seconds as an [i64]. *)
Definition set_time (vp : VerifyParam) (t : Z) : VerifyParam :=
  {| vp_time := Some ((t + 2 ^ 63) mod 2 ^ 64 - 2 ^ 63); flags := flags vp |}.

Record Library := {
  cert : Type;
  eckey : Type;
  ossl_from_der : bytes → option cert;
  ossl_self_signed : cert → option bool;
  ossl_verify : list cert → bool → VerifyParam → cert → list cert → option bool;
  ossl_ec_key : cert → option eckey;
  ossl_point : eckey → option bytes;
  ossl_raw_public_key : cert → option bytes;
}.

Section validator.
Context (lib : Library).

Record X509Validator := { root_ca_list : list bytes; use_system_ca : bool }.

Definition check_root (ca : bytes) : Result OpensslX509Error unit :=
  parsed ← ok_or (ossl_from_der lib ca) InvalidCertificateData;
  verified ← ok_or (ossl_self_signed lib parsed) OpensslError;
  guard_or verified NonSelfSignedCa.

Definition validator_new (root_ca_list : list bytes) : Result OpensslX509Error X509Validator :=
  _ ← mapM_res check_root root_ca_list;
  Ok {| root_ca_list := root_ca_list; use_system_ca := false |}.

Definition with_system_ca (v : X509Validator) : X509Validator := {| root_ca_list := root_ca_list v; use_system_ca := true |}.

Record X509Store := { store_roots : list (cert lib); store_system : bool; store_param : VerifyParam }.

(** [params.flags().set(NO_CHECK_TIME, true)] changes the copy, which is dropped. *)
Definition make_store (v : X509Validator) (timestamp : option Z) : Result OpensslX509Error X509Store :=
  roots ← mapM_res (λ c, ok_or (ossl_from_der lib c) OpensslError) (root_ca_list v);
  let params := match timestamp with
                | Some timestamp => set_time param_new timestamp
                | None => let copy := set_no_check_time (flags param_new) true in param_new
                end in
  Ok {| store_roots := roots; store_system := use_system_ca v; store_param := params |}.

Definition pub_key_to_uncompressed (key : cert lib) : Result OpensslX509Error bytes :=
  match ossl_ec_key lib key with
  | Some ec_key => ok_or (ossl_point lib ec_key) OpensslError
  | None => ok_or (ossl_raw_public_key lib key) OpensslError
  end.

Definition validate_chain (v : X509Validator) (chain : list bytes) (timestamp : option Z) : Result OpensslX509Error bytes :=
  store ← make_store v timestamp;
  leaf ← ok_or (head chain) OsslEmptyChain;
  leaf_certificate ← ok_or (ossl_from_der lib leaf) OpensslError;
  cert_chain ← mapM_res (λ c, ok_or (ossl_from_der lib c) OpensslError) chain;
  verify_res ← ok_or (ossl_verify lib (store_roots store) (store_system store) (store_param store) leaf_certificate cert_chain) OpensslError;
  if (verify_res : bool) then pub_key_to_uncompressed leaf_certificate else Err ChainValidationFailure.

(** A validation without a time is to skip the checks of time, but the library is given
    parameters that check for the current time. *)
Theorem no_timestamp_checks_time v store : make_store v None = Ok store → vp_time (store_param store) = None ∧ NO_CHECK_TIME (flags (store_param store)) = false.
Proof. unfold make_store. by intros (r & _ & [= <-])%bind_ok. Qed.
End validator.
End OpenSsl.
