(* ===== verification/GroupState.v ===== *)
(** * The public state of a group (mls-rs/src/group/state.rs, proposal_cache.rs)

    The state every member and every observer of a group holds, with the cache of
    the proposals received in the epoch.  A commit names a cached proposal by its
    reference and carries the others.  The theorem: whoever has the committer's
    proposals in its cache resolves a commit to the committer's bundle. *)
From S2P Require Import Prelude Codec Types Node TreeHash Proposal GroupContext Epoch.

(** ** The proposal cache *)
Record CachedProposal := { cp_proposal : Proposal; cp_sender : Sender }.

#[global] Instance cached_proposal_eq_dec : EqDecision CachedProposal.
Proof. solve_decision. Defined.

Definition cached_proposal_codec : MlsCodec CachedProposal :=
  struct_codec (λ c, (cp_proposal c, cp_sender c)) (λ p, {| cp_proposal := p.1; cp_sender := p.2 |})
    (tuple_codec proposal_codec sender_codec).

Record ProposalCache := {
  pc_protocol_version : Z;
  pc_group_id : bytes;
  cached_proposals : gmap bytes CachedProposal;
}.

Definition cache_new (version : Z) (gid : bytes) : ProposalCache :=
  {| pc_protocol_version := version; pc_group_id := gid; cached_proposals := ∅ |}.

Definition cache_import (version : Z) (gid : bytes) (ps : gmap bytes CachedProposal) : ProposalCache :=
  {| pc_protocol_version := version; pc_group_id := gid; cached_proposals := ps |}.

Definition with_proposals (c : ProposalCache) (ps : gmap bytes CachedProposal) : ProposalCache :=
  {| pc_protocol_version := pc_protocol_version c; pc_group_id := pc_group_id c; cached_proposals := ps |}.

Definition cache_clear (c : ProposalCache) : ProposalCache := with_proposals c ∅.

Definition cache_is_empty (c : ProposalCache) : bool := bool_decide (cached_proposals c = ∅).

Definition cache_insert (c : ProposalCache) (r : bytes) (p : Proposal) (s : Sender) : ProposalCache :=
  with_proposals c (<[r := {| cp_proposal := p; cp_sender := s |}]> (cached_proposals c)).

(** [Extend]. *)
Definition cache_extend (c : ProposalCache) (l : list (bytes * CachedProposal)) : ProposalCache :=
  with_proposals c (foldl (λ m e, <[e.1 := e.2]> m) (cached_proposals c) l).

Definition by_reference (e : bytes * CachedProposal) : Proposal * Sender * ProposalSource :=
  (cp_proposal e.2, cp_sender e.2, ByReference e.1).

Definition prepare_commit {order : MapOrder} (c : ProposalCache) (sender : Sender) (additional : list Proposal)
    : ProposalBundle :=
  bundle_from_iter ((by_reference <$> map_iter (cached_proposals c)) ++ ((λ p, (p, sender, ByValue)) <$> additional)).

Definition resolve_step (c : ProposalCache) (sender : Sender) (b : ProposalBundle) (p : ProposalOrRef)
    : Result MlsError ProposalBundle :=
  match p with
  | ProposalByValue p => Ok (bundle_add b p sender ByValue)
  | Reference r =>
      p ← ok_or (cached_proposals c !! r) ProposalNotFound;
      Ok (bundle_add b (cp_proposal p) (cp_sender p) (ByReference r))
  end.

Definition resolve_for_commit (c : ProposalCache) (sender : Sender) (l : list ProposalOrRef)
    : Result MlsError ProposalBundle :=
  foldM (resolve_step c sender) empty_bundle l.

Definition has_ref (b : ProposalBundle) (r : bytes) : bool :=
  existsb (λ p, bool_decide (source p = ByReference r)) (iter_proposals b).

Definition unused_proposals (all accepted : ProposalBundle) : list (ProposalInfo Proposal) :=
  filter (λ p, match source p with ByReference r => negb (has_ref accepted r) | _ => false end = true) (into_proposals all).

(** ** The state *)
Record GroupState := {
  gs_proposals : ProposalCache;
  gs_context : GroupContext;
  public_tree : TreeKemPublic;
  interim_transcript_hash : bytes;
  pending_reinit : option ReInitProposal;
  gs_confirmation_tag : bytes;
}.

Definition group_state_new (context : GroupContext) (tree : TreeKemPublic) (interim tag : bytes) : GroupState := {|
  gs_proposals := cache_new (protocol_version context) (group_id context);
  gs_context := context; public_tree := tree; interim_transcript_hash := interim;
  pending_reinit := None; gs_confirmation_tag := tag |}.

(** * Resolving a commit *)

(** The proposals of a bundle that are transmitted with or by the commit. *)
Definition is_sent {T} (p : ProposalInfo T) : bool := negb (bool_decide (source p = Local)).
Definition sent_of {T} (l : list (ProposalInfo T)) : list (ProposalInfo T) := filter (λ p, is_sent p = true) l.

Definition sent (b : ProposalBundle) : ProposalBundle := {|
  additions := sent_of (additions b); updates := sent_of (updates b); update_senders := [];
  removals := sent_of (removals b); psks := sent_of (psks b); reinitializations := sent_of (reinitializations b);
  external_initializations := sent_of (external_initializations b);
  group_context_extensions := sent_of (group_context_extensions b); custom_proposals := sent_of (custom_proposals b) |}.

(** What a commit from [sender] may carry: its own proposals by value, and by
    reference the proposals of the cache. *)
Definition known (c : ProposalCache) (sender : Sender) (p : ProposalInfo Proposal) : Prop :=
  match source p with
  | ByValue => info_sender p = sender
  | ByReference r => cached_proposals c !! r = Some {| cp_proposal := proposal p; cp_sender := info_sender p |}
  | Local => True
  end.

Definition to_ref (p : ProposalInfo Proposal) : option ProposalOrRef :=
  match source p with
  | ByValue => Some (ProposalByValue (proposal p))
  | ByReference r => Some (Reference r)
  | Local => None
  end.

Definition add_info (b : ProposalBundle) (p : ProposalInfo Proposal) : ProposalBundle :=
  bundle_add b (proposal p) (info_sender p) (source p).

Lemma resolve_known c sender l b :
  Forall (known c sender) l →
  foldM (resolve_step c sender) b (omap to_ref l) = Ok (foldl add_info b (sent_of l)).
Proof.
  intros Hl. revert b. induction Hl as [|[p s src] l Hp _ IH]; intros b; [done|].
  unfold sent_of. rewrite filter_cons. cbn [omap list_omap to_ref source is_sent]. unfold known in Hp. cbn in Hp.
  destruct src as [|r|]; cbn [foldM resolve_step foldl add_info].
  - rewrite decide_True by done. cbn. subst. apply IH.
  - rewrite decide_True by done. cbn. rewrite Hp. cbn. apply IH.
  - rewrite decide_False by done. apply IH.
Qed.

Lemma sent_of_app {T} (l k : list (ProposalInfo T)) : sent_of (l ++ k) = sent_of l ++ sent_of k.
Proof. apply filter_app. Qed.

Lemma sent_of_map {T U} (f : T → U) (l : list (ProposalInfo T)) : sent_of (info_map f <$> l) = info_map f <$> sent_of l.
Proof.
  induction l as [|p l IH]; [done|]. unfold sent_of in *. cbn [fmap list_fmap]. rewrite !filter_cons, IH.
  change (is_sent (info_map f p)) with (is_sent p). by destruct (decide _).
Qed.

(** The payload of a proposal of one type. *)
Definition pick {T} (f : Proposal → option T) (p : ProposalInfo Proposal) : option (ProposalInfo T) :=
  (λ x, {| proposal := x; info_sender := info_sender p; source := source p |}) <$> f (proposal p).

Lemma pick_same {T} (f : Proposal → option T) (g : T → Proposal) (l : list (ProposalInfo T)) :
  (∀ x, f (g x) = Some x) → omap (pick f) (info_map g <$> l) = l.
Proof. intros H. induction l as [|[x s src] l IH]; [done|]. cbn. unfold pick at 1. cbn. rewrite H. cbn. by rewrite IH. Qed.

Lemma pick_other {T U} (f : Proposal → option T) (g : U → Proposal) (l : list (ProposalInfo U)) :
  (∀ x, f (g x) = None) → omap (pick f) (info_map g <$> l) = [].
Proof. intros H. induction l as [|[x s src] l IH]; [done|]. cbn. unfold pick at 1. cbn. by rewrite H. Qed.

Definition as_add p := match p with Add k => Some k | _ => None end.
Definition as_update p := match p with Update l => Some l | _ => None end.
Definition as_remove p := match p with Remove i => Some i | _ => None end.
Definition as_psk p := match p with Psk i => Some i | _ => None end.
Definition as_reinit p := match p with ReInit r => Some r | _ => None end.
Definition as_external p := match p with ExternalInit k => Some k | _ => None end.
Definition as_extensions p := match p with GroupContextExtensions e => Some e | _ => None end.
Definition as_custom p := match p with Custom c => Some c | _ => None end.

Lemma collect_fields l b :
  foldl add_info b l = {|
    additions := additions b ++ omap (pick as_add) l; updates := updates b ++ omap (pick as_update) l;
    update_senders := update_senders b;
    removals := removals b ++ omap (pick as_remove) l; psks := psks b ++ omap (pick as_psk) l;
    reinitializations := reinitializations b ++ omap (pick as_reinit) l;
    external_initializations := external_initializations b ++ omap (pick as_external) l;
    group_context_extensions := group_context_extensions b ++ omap (pick as_extensions) l;
    custom_proposals := custom_proposals b ++ omap (pick as_custom) l |}.
Proof.
  revert b. induction l as [|[p s src] l IH]; intros b; cbn [foldl omap list_omap]; [by destruct b; cbn; rewrite !app_nil_r|].
  rewrite IH. unfold add_info. destruct p; cbn; rewrite ?app_nil_r, <- ?app_assoc; done.
Qed.

(** Collecting what a bundle lists rebuilds the bundle. *)
Lemma collect_into b : foldl add_info empty_bundle (into_proposals b) = set_updates (updates b) [] b.
Proof.
  rewrite collect_fields. unfold into_proposals, set_updates. cbn [empty_bundle additions updates update_senders removals
    psks reinitializations external_initializations group_context_extensions custom_proposals app].
  f_equal; rewrite !omap_app, ?app_nil_l; repeat (first [rewrite pick_same by done|rewrite pick_other by done]);
    cbn [app]; by rewrite ?app_nil_r.
Qed.

Lemma sent_into b : sent_of (into_proposals b) = into_proposals (sent b).
Proof. unfold into_proposals. rewrite !sent_of_app, !sent_of_map. done. Qed.

Lemma from_iter_infos l :
  bundle_from_iter l = foldl add_info empty_bundle ((λ '(p, s, src), {| proposal := p; info_sender := s; source := src |}) <$> l).
Proof.
  unfold bundle_from_iter. generalize empty_bundle. induction l as [|[[p s] src] l IH]; intros b; [done|]. cbn. apply IH.
Qed.

Lemma resolve_fails c sender l b :
  (∃ r, Reference r ∈ l ∧ cached_proposals c !! r = None) → foldM (resolve_step c sender) b l = Err ProposalNotFound.
Proof.
  intros (r & Hin & Hr). revert b. induction l as [|p l IH]; intros b; [by apply not_elem_of_nil in Hin|].
  apply elem_of_cons in Hin as [<-|Hin]; cbn [foldM resolve_step]; [by rewrite Hr|].
  destruct p as [p|r']; cbn [mbind result_bind]; [by apply IH|].
  cbn. destruct (cached_proposals c !! r'); cbn; [by apply IH|done].
Qed.

Lemma filter_all {T} (l : list (ProposalInfo T)) : Forall (λ p, source p ≠ Local) l → sent_of l = l.
Proof.
  intros H. induction H as [|p l Hp _ IH]; [done|]. unfold sent_of in *. rewrite filter_cons, IH.
  rewrite decide_True; [done|]. unfold is_sent. by rewrite bool_decide_eq_false_2.
Qed.

Lemma set_updates_id b : update_senders b = [] → set_updates (updates b) [] b = b.
Proof. destruct b; cbn. by intros ->. Qed.

Lemma set_updates_sent b : set_updates (updates (sent b)) [] (sent b) = sent b.
Proof. done. Qed.

Lemma sent_all b : update_senders b = [] → Forall (λ p, source p ≠ Local) (into_proposals b) → sent b = b.
Proof.
  intros Hs Hall. rewrite <- (set_updates_id b) at 2 by done. rewrite <- set_updates_sent, <- !collect_into, <- sent_into.
  by rewrite filter_all.
Qed.

Lemma sender_list_add l b : update_senders (foldl add_info b l) = update_senders b.
Proof. by rewrite collect_fields. Qed.

Section prepared.
Context {order : MapOrder}.

Lemma prepare_infos c sender extra p :
  p ∈ into_proposals (prepare_commit c sender extra) →
  known c sender p ∧ source p ≠ Local.
Proof.
  intros Hp. rewrite into_iter_proposals in Hp.
  unfold prepare_commit in Hp. rewrite (proj1 (bundle_from_iter_correct _)) in Hp.
  apply list_elem_of_fmap in Hp as ([[q s] src] & -> & Hq). apply elem_of_app in Hq as [Hq|Hq].
  - apply list_elem_of_fmap in Hq as ([r [q' s']] & [= -> -> ->] & Hq). rewrite map_iter_perm in Hq.
    apply elem_of_map_to_list in Hq. unfold known. cbn. by rewrite Hq.
  - apply list_elem_of_fmap in Hq as (q' & [= -> -> ->] & _). done.
Qed.
End prepared.

(** C32. Sender and receivers of a commit agree on its proposals.  Whatever bundle the
    committer ends up with, the list of proposals and references it writes into
    the commit is resolved, by everyone whose cache knows the references, to the
    same proposals in the same order, less the local ones that are not sent; in
    particular the bundle prepared from the committer's own cache is resolved to
    itself by everyone who holds those proposals.  A commit that refers to an
    unknown proposal is refused, and resolution never panics. *)
Theorem resolve_sent_commit {order : MapOrder} c sender :
  (∀ b, Forall (known c sender) (into_proposals b) →
     resolve_for_commit c sender (into_proposals_or_refs b) = Ok (sent b)) ∧
  (∀ c0 extra, cached_proposals c0 ⊆ cached_proposals c →
     resolve_for_commit c sender (into_proposals_or_refs (prepare_commit c0 sender extra)) =
     Ok (prepare_commit c0 sender extra)) ∧
  (∀ l, (∃ r, Reference r ∈ l ∧ cached_proposals c !! r = None) → resolve_for_commit c sender l = Err ProposalNotFound).
Proof.
  assert (∀ b, Forall (known c sender) (into_proposals b) →
     resolve_for_commit c sender (into_proposals_or_refs b) = Ok (sent b)) as H.
  { intros b Hb. unfold resolve_for_commit, into_proposals_or_refs. etransitivity; [by apply resolve_known|].
    by rewrite sent_into, collect_into, set_updates_sent. }
  split_and!; [done| |intros l; apply resolve_fails].
  intros c0 extra Hsub. rewrite H.
  - f_equal. apply sent_all; [unfold prepare_commit; by rewrite from_iter_infos, sender_list_add|].
    apply Forall_forall. intros p Hp. by apply prepare_infos in Hp as [_ ?].
  - apply Forall_forall. intros p Hp. apply prepare_infos in Hp as [Hk _].
    unfold known in *. destruct (source p); try done. by eapply lookup_weaken.
Qed.

Definition small_cache : ProposalCache := cache_insert (cache_new 1 []) [byte.of_Z 9] (Remove 2) (Member 1).

Lemma resolve_sent_commit_witness :
  resolve_for_commit small_cache (Member 0) [Reference [byte.of_Z 9]; ProposalByValue (Remove 3)] =
    Ok (prepare_commit small_cache (Member 0) [Remove 3]) ∧
  resolve_for_commit small_cache (Member 0) [Reference [byte.of_Z 8]] = Err ProposalNotFound.
Proof.
  destruct (resolve_sent_commit small_cache (Member 0)) as (_ & H & Hf). split.
  - apply (H small_cache [Remove 3]). done.
  - apply Hf. exists [byte.of_Z 8]. split; [apply elem_of_cons; by left|by vm_compute].
Defined.

(** ** Unused proposals *)

(** What a commit leaves out: of the proposals sent by reference, those whose
    reference the accepted bundle does not contain. *)
Lemma unused_spec all accepted p :
  p ∈ unused_proposals all accepted ↔
  p ∈ iter_proposals all ∧ ∃ r, source p = ByReference r ∧ ∀ q, q ∈ iter_proposals accepted → source q ≠ ByReference r.
Proof.
  unfold unused_proposals. rewrite list_elem_of_filter, into_iter_proposals.
  assert (∀ r, negb (has_ref accepted r) = true ↔ ∀ q, q ∈ iter_proposals accepted → source q ≠ ByReference r) as Hr.
  { intros r. rewrite negb_true_iff, <- not_true_iff_false. unfold has_ref. rewrite existsb_exists. split.
    - intros Hn q Hq Hs. apply Hn. exists q. split; [by apply list_elem_of_In|by apply bool_decide_eq_true_2].
    - intros Hn (q & Hq%list_elem_of_In & Hs%bool_decide_eq_true_1). by eapply Hn. }
  split.
  - intros [Hs Hin]. split; [done|]. destruct (source p) as [|r|] eqn:E; try done. exists r. split; [done|]. by apply Hr.
  - intros [Hin (r & E & Hn)]. split; [|done]. rewrite E. by apply Hr.
Qed.
