(* ===== verification/Auth.v ===== *)
(** * Message authentication (mls-rs/src/group/message_signature.rs,
    membership_tag.rs, confirmation_tag.rs, transcript_hash.rs, util.rs,
    message_verifier.rs, proposal_ref.rs, hash_reference.rs)

    Every message is signed; a member's public message also carries a membership
    tag, a MAC under a key of the epoch; a commit also carries a confirmation tag
    over the transcript of all commits.  The theorems: what a member signs and
    tags, every other member accepts; what is accepted was tagged and signed over
    the very same content in the very same context; the transcript hash pins the
    whole history of commits. *)
From Stdlib Require Import Strings.String.
From S2P Require Import Prelude Codec Wire TreeMath Types Node TreeIndex TreeHash Extensions Proposal TreeKem Crypto Labels GroupContext Kem SecretTree Framing Epoch KeySchedule GroupState.
Import LeafCodecs ProposalCodecs FramingLaws.

(** ** References: hash_reference.rs, proposal_ref.rs, key_package/mod.rs *)
Definition ref_hash_input_codec : MlsCodec (bytes * bytes) := tuple_codec byte_vec_codec byte_vec_codec.

Definition hash_reference (csp : CipherSuiteProvider) (value label : bytes) : Result MlsError bytes :=
  input ← from_codec_error (mls_encode_to_vec ref_hash_input_codec (label, value));
  crypto (csp_hash csp input).

Definition proposal_ref_from_content (csp : CipherSuiteProvider) (c : AuthenticatedContent) : Result MlsError bytes :=
  b ← from_codec_error (mls_encode_to_vec authenticated_content_codec c);
  hash_reference csp b (ascii "MLS 1.0 Proposal Reference").

Definition to_reference (csp : CipherSuiteProvider) (k : KeyPackage) : Result MlsError bytes :=
  if negb (csp_cipher_suite csp =? kp_cipher_suite k) then Err CipherSuiteMismatch
  else
    b ← from_codec_error (mls_encode_to_vec key_package_codec k);
    hash_reference csp b (ascii "MLS 1.0 KeyPackage Reference").

(** ** What is signed: message_signature.rs *)
Definition authenticated_content_new (context : GroupContext) (sender : Sender) (c : Content) (authenticated_data : bytes)
    (w : WireFormat) : AuthenticatedContent := {|
  wire_format := w;
  content := {| fc_group_id := group_id context; fc_epoch := epoch context; fc_sender := sender;
    fc_authenticated_data := authenticated_data; fc_content := c |};
  auth := {| auth_signature := []; confirmation_tag := None |} |}.

Record AuthenticatedContentTBS := {
  tbs_protocol_version : Z;
  tbs_wire_format : WireFormat;
  tbs_content : FramedContent;
  tbs_context : option GroupContext;
}.

Definition needs_context (s : Sender) : bool :=
  match s with Member _ | NewMemberCommit => true | External _ | NewMemberProposal => false end.

(** Only the encoder exists in the program: the context is written when there is
    one.  The decoder, which reads it for the senders that have one, shows that
    the encoding is unambiguous. *)
Definition tbs_codec : MlsCodec AuthenticatedContentTBS :=
  struct_codec (λ t, (tbs_protocol_version t, (tbs_wire_format t, (tbs_content t, tbs_context t))))
    (λ '(a, (b, (c, d))), {| tbs_protocol_version := a; tbs_wire_format := b; tbs_content := c; tbs_context := d |})
    (tuple_codec u16_codec (tuple_codec wire_format_codec
      (dep_codec framed_content_codec (λ c, present_codec (needs_context (fc_sender c)) group_context_codec)))).

Definition tbs_from_content (a : AuthenticatedContent) (context : option GroupContext) (version : Z)
    : AuthenticatedContentTBS := {|
  tbs_protocol_version := version; tbs_wire_format := wire_format a; tbs_content := content a;
  tbs_context := if needs_context (fc_sender (content a)) then context else None |}.

Definition content_tbs (a : AuthenticatedContent) (context : GroupContext) : Result Codec.Error bytes :=
  mls_encode_to_vec tbs_codec (tbs_from_content a (Some context) (protocol_version context)).

Definition with_signature (a : AuthenticatedContent) (s : bytes) : AuthenticatedContent := {|
  wire_format := wire_format a; content := content a;
  auth := {| auth_signature := s; confirmation_tag := confirmation_tag (auth a) |} |}.

Definition sign_auth_content (csp : CipherSuiteProvider) (context : GroupContext) (signer : bytes) (a : AuthenticatedContent)
    : Result MlsError AuthenticatedContent :=
  s ← sign csp signer (ascii "FramedContentTBS") (content_tbs a context); Ok (with_signature a s).

Definition new_signed (csp : CipherSuiteProvider) (context : GroupContext) (sender : Sender) (c : Content) (signer : bytes)
    (w : WireFormat) (authenticated_data : bytes) : Result MlsError AuthenticatedContent :=
  sign_auth_content csp context signer (authenticated_content_new context sender c authenticated_data w).

(** ** Membership tags: membership_tag.rs *)
Definition tbm_codec : MlsCodec (AuthenticatedContentTBS * FramedContentAuthData) :=
  dep_codec tbs_codec (λ t, auth_data_codec (content_type (fc_content (tbs_content t)))).

Definition tbm_from_content (a : AuthenticatedContent) (context : GroupContext)
    : AuthenticatedContentTBS * FramedContentAuthData :=
  (tbs_from_content a (Some context) (protocol_version context), auth a).

Definition membership_tag_create (csp : CipherSuiteProvider) (a : AuthenticatedContent) (context : GroupContext)
    (membership_key : bytes) : Result MlsError bytes :=
  tbm ← from_codec_error (mls_encode_to_vec tbm_codec (tbm_from_content a context));
  crypto (csp_mac csp membership_key tbm).

(** [KeySchedule::get_membership_tag]. *)
Definition get_membership_tag (csp : CipherSuiteProvider) (k : KeySchedule) (a : AuthenticatedContent) (context : GroupContext)
    : Result MlsError bytes :=
  membership_tag_create csp a context (membership_key k).

(** [Group::create_plaintext]. *)
Definition create_plaintext (csp : CipherSuiteProvider) (k : KeySchedule) (context : GroupContext) (a : AuthenticatedContent)
    : Result MlsError PublicMessage :=
  tag ← (if is_member (fc_sender (content a)) then t ← get_membership_tag csp k a context; Ok (Some t) else Ok None);
  Ok {| pm_content := content a; pm_auth := auth a; membership_tag := tag |}.

(** ** Confirmation tags and the transcript: confirmation_tag.rs,
    transcript_hash.rs, util.rs *)
Definition confirmation_tag_create (csp : CipherSuiteProvider) (confirmation_key confirmed : bytes) : Result MlsError bytes :=
  crypto (csp_mac csp confirmation_key confirmed).

Definition confirmation_tag_matches (csp : CipherSuiteProvider) (tag confirmation_key confirmed : bytes)
    : Result MlsError bool :=
  t ← confirmation_tag_create csp confirmation_key confirmed; Ok (bool_decide (t = tag)).

Definition confirmed_input_codec : MlsCodec (WireFormat * (FramedContent * bytes)) :=
  tuple_codec wire_format_codec (tuple_codec framed_content_codec byte_vec_codec).

Definition confirmed_input (interim : bytes) (a : AuthenticatedContent) : Result MlsError bytes :=
  i ← from_codec_error (mls_encode_to_vec confirmed_input_codec (wire_format a, (content a, auth_signature (auth a))));
  Ok (interim ++ i).

Definition confirmed_transcript_hash_create (csp : CipherSuiteProvider) (interim : bytes) (a : AuthenticatedContent)
    : Result MlsError bytes :=
  i ← confirmed_input interim a; crypto (csp_hash csp i).

Definition interim_input (confirmed tag : bytes) : Result MlsError bytes :=
  i ← from_codec_error (mls_encode_to_vec byte_vec_codec tag); Ok (confirmed ++ i).

Definition interim_transcript_hash_create (csp : CipherSuiteProvider) (confirmed tag : bytes) : Result MlsError bytes :=
  i ← interim_input confirmed tag; crypto (csp_hash csp i).

(** The pair of interim and confirmed transcript hash. *)
Definition transcript_hashes (csp : CipherSuiteProvider) (prev_interim : bytes) (a : AuthenticatedContent)
    : Result MlsError (bytes * bytes) :=
  confirmed ← confirmed_transcript_hash_create csp prev_interim a;
  tag ← ok_or (confirmation_tag (auth a)) InvalidConfirmationTag;
  interim ← interim_transcript_hash_create csp confirmed tag;
  Ok (interim, confirmed).

(** ** Verification: message_verifier.rs *)
Inductive SignaturePublicKeysContainer :=
  | RatchetTree (t : TreeKemPublic)
  | KeyList (l : list (option bytes)).

Definition external_signers (context : GroupContext) : list SigningIdentity :=
  match get_as (E:=ExternalSendersExt) (gc_extensions context) with
  | Ok (Some e) => allowed_senders e
  | _ => []
  end.

Definition signing_identity_for_member (keys : SignaturePublicKeysContainer) (leaf_index : Z) : Result MlsError bytes :=
  match keys with
  | RatchetTree t => l ← TreeKem.get_leaf_node t leaf_index; Ok (signature_key (signing_identity l))
  | KeyList l => ok_or (mjoin (vec_get l leaf_index)) (LeafNotFound leaf_index)
  end.

Definition signing_identity_for_external (i : Z) (signers : list SigningIdentity) : Result MlsError bytes :=
  ok_or (signature_key <$> vec_get signers i) UnknownSigningIdentityForExternalSender.

Definition signing_identity_for_new_member_commit (c : Content) : Result MlsError bytes :=
  match c with
  | CommitContent c =>
      match commit_path c with
      | Some p => Ok (signature_key (signing_identity (Kem.up_leaf_node p)))
      | None => Err CommitMissingPath
      end
  | _ => Err ExpectedCommitForNewMemberCommit
  end.

Definition signing_identity_for_new_member_proposal (c : Content) : Result MlsError bytes :=
  match c with
  | ProposalContent (Add k) => Ok (signature_key (signing_identity (kp_leaf_node k)))
  | _ => Err ExpectedAddProposalForNewMemberProposal
  end.

Definition signing_identity_for_sender (keys : SignaturePublicKeysContainer) (s : Sender) (c : Content)
    (signers : list SigningIdentity) : Result MlsError bytes :=
  match s with
  | Member i => signing_identity_for_member keys i
  | External i => signing_identity_for_external i signers
  | NewMemberCommit => signing_identity_for_new_member_commit c
  | NewMemberProposal => signing_identity_for_new_member_proposal c
  end.

Definition verify_auth_content_signature (csp : CipherSuiteProvider) (keys : SignaturePublicKeysContainer)
    (context : GroupContext) (a : AuthenticatedContent) (signers : list SigningIdentity) : Result MlsError unit :=
  key ← signing_identity_for_sender keys (fc_sender (content a)) (fc_content (content a)) signers;
  verify csp key (ascii "FramedContentTBS") (content_tbs a context) (auth_signature (auth a)).

Definition verify_membership (csp : CipherSuiteProvider) (a : AuthenticatedContent) (tag : option bytes)
    (key_schedule : option KeySchedule) (self_index : option Z) (context : GroupContext) : Result MlsError unit :=
  match fc_sender (content a) with
  | Member i =>
      match key_schedule with
      | Some k =>
          expected ← get_membership_tag csp k a context;
          tag ← ok_or tag InvalidMembershipTag;
          guard_or (bool_decide (expected = tag)) InvalidMembershipTag
      | None => Ok tt
      end;;
      guard_or (negb (bool_decide (self_index = Some i))) CantProcessMessageFromSelf
  | _ => guard_or (bool_decide (tag = None)) MembershipTagForNonMember
  end.

Definition verify_plaintext_authentication (csp : CipherSuiteProvider) (m : PublicMessage) (key_schedule : option KeySchedule)
    (self_index : option Z) (state : GroupState) : Result MlsError AuthenticatedContent :=
  let a := from_public_message m in
  let context := gs_context state in
  verify_membership csp a (membership_tag m) key_schedule self_index context;;
  verify_auth_content_signature csp (RatchetTree (public_tree state)) context a (external_signers context);;
  Ok a.

(** * What a tag or a signature is about *)
Definition tbs_wf (t : AuthenticatedContentTBS) : Prop :=
  is_u16 (tbs_protocol_version t) ∧ framed_content_wf (tbs_content t) ∧
  match tbs_context t with
  | Some c => needs_context (fc_sender (tbs_content t)) = true ∧ group_context_wf c
  | None => needs_context (fc_sender (tbs_content t)) = false
  end.

#[export] Instance tbs_wire : WireLaws tbs_codec tbs_wf.
Proof.
  eapply wire_iff.
  - apply struct_wire; [by intros []|]. apply tuple_wire; [apply codec_wire; apply u16_laws|].
    apply (tuple_wire wire_format_codec _ (λ _, True)); [apply codec_wire; apply _|].
    apply (dep_wire framed_content_codec _ framed_content_wf); [apply _|]. intros c. apply present_wire.
    apply codec_wire, group_context_laws.
  - intros [v w c x] (Hv & Hc & Hx). cbn in *. by destruct x.
Qed.

Definition tbm_wf (p : AuthenticatedContentTBS * FramedContentAuthData) : Prop :=
  tbs_wf p.1 ∧ auth_data_wf (content_type (fc_content (tbs_content p.1))) p.2.

#[export] Instance tbm_wire : WireLaws tbm_codec tbm_wf.
Proof.
  apply (dep_wire tbs_codec _ tbs_wf (λ t, auth_data_wf (content_type (fc_content (tbs_content t))))); [apply _|].
  intros t. apply auth_data_wire.
Qed.

Lemma tbs_from_wf a context :
  framed_content_wf (content a) → group_context_wf context →
  tbs_wf (tbs_from_content a (Some context) (protocol_version context)).
Proof.
  intros Ha Hc. split_and!; cbn; [by apply Hc|done|]. by destruct (needs_context _).
Qed.

(** The signed bytes determine the message, and the context for the senders
    whose messages are bound to it. *)
Lemma tbs_binding a a' context context' b :
  framed_content_wf (content a) → framed_content_wf (content a') → group_context_wf context → group_context_wf context' →
  content_tbs a context = Ok b → content_tbs a' context' = Ok b →
  wire_format a = wire_format a' ∧ content a = content a' ∧ protocol_version context = protocol_version context' ∧
  (needs_context (fc_sender (content a)) = true → context = context').
Proof.
  intros Ha Ha' Hc Hc' E E'.
  pose proof (wire_inj_nil tbs_codec tbs_wf _ _ b (tbs_from_wf a context Ha Hc) (tbs_from_wf a' context' Ha' Hc') E E') as H.
  unfold tbs_from_content in H. injection H as Hv Hw Hct Hx. split_and!; try done.
  intros Hn. rewrite Hct in Hn. rewrite Hct, Hn in Hx. by injection Hx as ->.
Qed.

Lemma tbm_binding a a' context context' b :
  authenticated_content_wf a → authenticated_content_wf a' → group_context_wf context → group_context_wf context' →
  mls_encode_to_vec tbm_codec (tbm_from_content a context) = Ok b →
  mls_encode_to_vec tbm_codec (tbm_from_content a' context') = Ok b →
  a = a' ∧ (needs_context (fc_sender (content a)) = true → context = context').
Proof.
  intros [Ha1 Ha2] [Hb1 Hb2] Hc Hc' E E'.
  assert (∀ x y, framed_content_wf (content x) → auth_data_wf (content_type (fc_content (content x))) (auth x) →
    group_context_wf y → tbm_wf (tbm_from_content x y)) as Hwf.
  { intros x y Hx1 Hx2 Hy. split; [by apply tbs_from_wf|done]. }
  pose proof (wire_inj_nil tbm_codec tbm_wf _ _ b (Hwf _ _ Ha1 Ha2 Hc) (Hwf _ _ Hb1 Hb2 Hc') E E') as H.
  injection H as Hv Hw Hct Hx Hau. split.
  - destruct a, a'. cbn in *. by subst.
  - intros Hn. rewrite Hct in Hn. rewrite Hct, Hn in Hx. by injection Hx as ->.
Qed.

(** * Acceptance *)

(** Adding the confirmation tag of a commit, after it has been signed. *)
Definition with_confirmation_tag (a : AuthenticatedContent) (t : option bytes) : AuthenticatedContent := {|
  wire_format := wire_format a; content := content a;
  auth := {| auth_signature := auth_signature (auth a); confirmation_tag := t |} |}.

Lemma sign_verifies csp sk pk label tbs s :
  signature_pair csp sk pk → sign csp sk label tbs = Ok s → verify csp pk label tbs s = Ok tt.
Proof.
  intros Hp. unfold sign, verify. intros (c & Hc & H)%bind_ok. rewrite Hc. cbn [mbind result_bind].
  apply bind_ok in H as (i & Hi & H). rewrite Hi. cbn [mbind result_bind].
  destruct (csp_sign csp sk i) as [e|s'] eqn:E; [done|]. cbn in H. injection H as ->. by rewrite (Hp i s E).
Qed.

Lemma new_signed_inv csp context s c sk w data a :
  new_signed csp context s c sk w data = Ok a →
  ∃ sig, a = with_signature (authenticated_content_new context s c data w) sig ∧
    sign csp sk (ascii "FramedContentTBS") (content_tbs a context) = Ok sig.
Proof. unfold new_signed, sign_auth_content. intros (sig & Hs & [= <-])%bind_ok. by exists sig. Qed.

Lemma signed_content_verifies csp context s c sk pk w data a t :
  signature_pair csp sk pk → new_signed csp context s c sk w data = Ok a →
  verify csp pk (ascii "FramedContentTBS") (content_tbs (with_confirmation_tag a t) context)
    (auth_signature (auth (with_confirmation_tag a t))) = Ok tt.
Proof.
  intros Hp (sig & -> & Hs)%new_signed_inv. by apply (sign_verifies csp sk pk).
Qed.

Lemma guard_or_tt {E} b (e : E) : guard_or b e = Ok tt ↔ b = true.
Proof. by destruct b. Qed.

Lemma bind_unit_ok {E B} (m : Result E unit) (k : Result E B) b : (m;; k) = Ok b ↔ m = Ok tt ∧ k = Ok b.
Proof. destruct m as [[]| | |]; cbn; split; try done; by intros []. Qed.

(** Exactly when a message from a member or from outside passes the membership
    check. *)
Lemma verify_membership_ok csp a tag ks self context :
  verify_membership csp a tag ks self context = Ok tt ↔
  match fc_sender (content a) with
  | Member i => self ≠ Some i ∧ ∀ k, ks = Some k → ∃ t, tag = Some t ∧ get_membership_tag csp k a context = Ok t
  | _ => tag = None
  end.
Proof.
  unfold verify_membership. destruct (fc_sender (content a)) as [i|i| |];
    try (rewrite guard_or_tt; apply bool_decide_eq_true).
  rewrite bind_unit_ok, guard_or_tt, negb_true_iff, bool_decide_eq_false. split.
  - intros [H1 H2]. split; [done|]. intros k ->. apply bind_ok in H1 as (e & He & H1).
    apply bind_ok in H1 as (t & Ht & H1). apply guard_or_tt, bool_decide_eq_true in H1 as ->.
    exists t. split; [|done]. destruct tag; cbn in Ht; congruence.
  - intros [H1 H2]. split; [|done]. destruct ks as [k|]; [|done]. destruct (H2 k eq_refl) as (t & -> & ->). cbn.
    by rewrite bool_decide_eq_true_2.
Qed.

Lemma create_plaintext_inv csp k context a m :
  create_plaintext csp k context a = Ok m →
  pm_content m = content a ∧ pm_auth m = auth a ∧
  (if is_member (fc_sender (content a)) then ∃ t, membership_tag m = Some t ∧ get_membership_tag csp k a context = Ok t
   else membership_tag m = None).
Proof.
  unfold create_plaintext. intros (t & Ht & [= <-])%bind_ok. split_and!; [done..|]. cbn.
  destruct (is_member _); [|by injection Ht as <-]. apply bind_ok in Ht as (t' & Ht & [= <-]). by exists t'.
Qed.

(** Public messages authenticate.  A message signed in an epoch's context with a
    key whose public half the receiver associates with the sender (the leaf of a
    member, an external sender of the context's extension, the new leaf of an
    external commit, the key package of a proposed member), completed with any
    confirmation tag and with the membership tag, is accepted, unchanged, by
    everyone who holds that context and membership key, unless it is the
    receiver's own. *)
Theorem public_message_accepted csp context s c sk pk data a tag k m ks self state :
  signature_pair csp sk pk →
  new_signed csp context s c sk WirePublicMessage data = Ok a →
  create_plaintext csp k context (with_confirmation_tag a tag) = Ok m →
  gs_context state = context → ks = None ∨ ks = Some k →
  signing_identity_for_sender (RatchetTree (public_tree state)) s c (external_signers context) = Ok pk →
  (∀ i, s = Member i → self ≠ Some i) →
  verify_plaintext_authentication csp m ks self state = Ok (with_confirmation_tag a tag).
Proof.
  intros Hp Ha Hm <- Hks Hkey Hself. pose proof (signed_content_verifies csp _ s c sk pk _ data a tag Hp Ha) as Hv.
  apply new_signed_inv in Ha as (sig & Ea & _).
  apply create_plaintext_inv in Hm as (Hc & Hau & Ht).
  assert (from_public_message m = with_confirmation_tag a tag) as Em.
  { unfold from_public_message. rewrite Hc, Hau, Ea. done. }
  assert (fc_sender (content a) = s ∧ fc_content (content a) = c) as [Es Ec] by by rewrite Ea.
  unfold verify_plaintext_authentication. rewrite Em. apply bind_unit_ok. split.
  - apply verify_membership_ok. cbn in *. rewrite Es in *. destruct s; cbn in Ht; try done.
    split; [by apply Hself|]. intros k' ->. by destruct Hks as [|[= ->]].
  - apply bind_unit_ok. split; [|done]. unfold verify_auth_content_signature. cbn [content with_confirmation_tag].
    rewrite Es, Ec, Hkey. exact Hv.
Qed.

(** C23. Nothing else is accepted.  A public message passes verification exactly when
    its signature verifies, under the key the tree, the context or the message
    itself gives for the sender, over the content in the receiver's context, and
    when moreover a member's message carries the membership tag of that content
    under the receiver's key and is not the receiver's own, and any other message
    carries none.  For a member, the tagged bytes determine the whole message and
    the context: no other message or context has them. *)
Theorem accepted_iff_authenticated csp m k self state a :
  (verify_plaintext_authentication csp m (Some k) self state = Ok a ↔
   a = from_public_message m ∧
   match fc_sender (content a) with
   | Member i => self ≠ Some i ∧ ∃ t, membership_tag m = Some t ∧ get_membership_tag csp k a (gs_context state) = Ok t
   | _ => membership_tag m = None
   end ∧
   ∃ key tbs input,
     signing_identity_for_sender (RatchetTree (public_tree state)) (fc_sender (content a)) (fc_content (content a))
       (external_signers (gs_context state)) = Ok key ∧
     content_tbs a (gs_context state) = Ok tbs ∧ sign_content (ascii "FramedContentTBS") tbs = Ok input ∧
     csp_verify csp key (auth_signature (auth a)) input = inr tt) ∧
  (∀ a' context' b, authenticated_content_wf a → authenticated_content_wf a' →
     group_context_wf (gs_context state) → group_context_wf context' → needs_context (fc_sender (content a)) = true →
     mls_encode_to_vec tbm_codec (tbm_from_content a (gs_context state)) = Ok b →
     mls_encode_to_vec tbm_codec (tbm_from_content a' context') = Ok b → a = a' ∧ gs_context state = context').
Proof.
  split; [|intros a' context' b Ha Ha' Hc Hc' Hn E E'; destruct (tbm_binding a a' _ context' b Ha Ha' Hc Hc' E E'); auto].
  unfold verify_plaintext_authentication, verify_auth_content_signature, verify.
  rewrite !bind_unit_ok, verify_membership_ok. split.
  - intros (H1 & H2 & [= <-]). split; [done|]. split.
    + destruct (fc_sender _); try done. destruct H1 as [? H1]. split; [done|]. by apply H1.
    + apply bind_ok in H2 as (key & Hkey & H2). apply bind_ok in H2 as (tbs & Ht%from_codec_ok & H2).
      apply bind_ok in H2 as (i & Hi%from_codec_ok & H2). exists key, tbs, i. split_and!; [done..|].
      by destruct (csp_verify _ _ _ _) as [|[]].
  - intros (-> & H1 & key & tbs & i & Hkey & Ht & Hi & Hv). split_and!; [| |done].
    + destruct (fc_sender _); try done. destruct H1 as [? (t & ? & ?)]. split; [done|]. intros ? [= <-]. by exists t.
    + rewrite Hkey, Ht. cbn [from_codec_error map_err mbind result_bind]. rewrite Hi. cbn [from_codec_error map_err mbind result_bind]. by rewrite Hv.
Qed.

(** * The transcript *)

(** The transcript hashes after a list of commits. *)
Definition transcript (csp : CipherSuiteProvider) (start : bytes * bytes) (l : list AuthenticatedContent)
    : Result MlsError (bytes * bytes) :=
  foldM (λ h a, transcript_hashes csp h.1 a) start l.

(** [x] was hashed on the way. *)
Inductive hashed (csp : CipherSuiteProvider) : bytes * bytes → list AuthenticatedContent → bytes → Prop :=
  | hashed_confirmed h a l x : confirmed_input h.1 a = Ok x → hashed csp h (a :: l) x
  | hashed_interim h a l c t x : confirmed_transcript_hash_create csp h.1 a = Ok c → confirmation_tag (auth a) = Some t →
      interim_input c t = Ok x → hashed csp h (a :: l) x
  | hashed_later h h' a l x : transcript_hashes csp h.1 a = Ok h' → hashed csp h' l x → hashed csp h (a :: l) x.

Lemma transcript_hashes_inv csp i a h :
  transcript_hashes csp i a = Ok h →
  ∃ x t y, confirmed_input i a = Ok x ∧ csp_hash csp x = inr h.2 ∧ confirmation_tag (auth a) = Some t ∧
    interim_input h.2 t = Ok y ∧ csp_hash csp y = inr h.1.
Proof.
  unfold transcript_hashes, confirmed_transcript_hash_create, interim_transcript_hash_create.
  intros (c & Hc & H)%bind_ok. apply bind_ok in H as (t & Ht & H). apply bind_ok in H as (j & Hj & [= <-]).
  apply bind_ok in Hc as (x & Hx & Hc). apply bind_ok in Hj as (y & Hy & Hj).
  exists x, t, y. destruct (confirmation_tag (auth a)); [|done]. injection Ht as ->.
  destruct (csp_hash csp x), (csp_hash csp y); try done. cbn in *. by simplify_eq.
Qed.

Lemma confirmed_input_inj i i' a a' x :
  length i = length i' → authenticated_content_wf a → authenticated_content_wf a' →
  confirmed_input i a = Ok x → confirmed_input i' a' = Ok x →
  i = i' ∧ wire_format a = wire_format a' ∧ content a = content a' ∧ auth_signature (auth a) = auth_signature (auth a').
Proof.
  intros Hl [Ha _] [Ha' _]. unfold confirmed_input.
  intros (e & He%from_codec_ok & [= <-])%bind_ok (e' & He'%from_codec_ok & [= E])%bind_ok.
  apply app_inj_1 in E as [-> ->]; [|done]. split; [done|].
  assert (WireLaws confirmed_input_codec (λ p, True ∧ framed_content_wf p.2.1 ∧ True)) as HW.
  { apply (tuple_wire wire_format_codec _ (λ _, True) (λ p, framed_content_wf p.1 ∧ True)); [apply codec_wire; apply _|].
    apply (tuple_wire framed_content_codec byte_vec_codec framed_content_wf (λ _, True)); [apply _|apply codec_wire; apply _]. }
  assert ((wire_format a, (content a, auth_signature (auth a))) = (wire_format a', (content a', auth_signature (auth a')))) as E
    by (eapply (wire_inj_nil confirmed_input_codec); [exact HW|done..|exact He|exact He']).
  by injection E.
Qed.

Lemma interim_input_inj c c' t t' x :
  length c = length c' → interim_input c t = Ok x → interim_input c' t' = Ok x → c = c' ∧ t = t'.
Proof.
  intros Hl. unfold interim_input. intros (e & He%from_codec_ok & [= <-])%bind_ok (e' & He'%from_codec_ok & [= E])%bind_ok.
  apply app_inj_1 in E as [-> ->]; [|done]. split; [done|].
  by eapply (encode_inj byte_vec_codec (λ _, True)).
Qed.

Lemma hashed_mono csp h l k x : hashed csp h l x → hashed csp h (l ++ k) x.
Proof. induction 1; cbn; [by apply hashed_confirmed|by eapply hashed_interim|by eapply hashed_later]. Qed.

Lemma hashed_last csp h l h' a x : transcript csp h l = Ok h' → hashed csp h' [a] x → hashed csp h (l ++ [a]) x.
Proof.
  revert h. induction l as [|b l IH]; intros h; cbn; [by intros [= ->]|].
  intros (h1 & H1 & H)%bind_ok Hx. eapply hashed_later; [done|]. by apply IH.
Qed.

Lemma transcript_snoc csp h l a : transcript csp h (l ++ [a]) = h' ← transcript csp h l; transcript_hashes csp h'.1 a.
Proof.
  revert h. induction l as [|b l IH]; intros h; cbn.
  - by destruct (transcript_hashes csp h.1 a).
  - destruct (transcript_hashes csp h.1 b) as [h1| | |]; try done. apply IH.
Qed.

Lemma transcript_length csp n h l h' :
  (∀ x d, csp_hash csp x = inr d → length d = n) → length h.1 = n → transcript csp h l = Ok h' → length h'.1 = n.
Proof.
  intros Hn. revert h. induction l as [|a l IH]; intros h Hh; cbn; [by intros [= <-]|].
  intros (h1 & H1 & H)%bind_ok. apply (IH h1); [|done].
  apply transcript_hashes_inv in H1 as (x & t & y & _ & _ & _ & _ & Hy). by eapply Hn.
Qed.

(** C24. The transcript hash pins the history.  Two members who, after equally many
    commits, hold the same interim transcript hash, started from the same hash
    and processed the same commits, with the same signatures and confirmation
    tags, in the same order, unless the hash function collides on inputs that
    were really hashed. *)
Theorem transcript_pins_history csp n h h' l l' d d' :
  (∀ x d, csp_hash csp x = inr d → length d = n) → length h.1 = n → length h'.1 = n → length l = length l' →
  Forall authenticated_content_wf l → Forall authenticated_content_wf l' →
  transcript csp h l = Ok d → transcript csp h' l' = Ok d' → d.1 = d'.1 →
  (∀ x y, hashed csp h l x → hashed csp h' l' y → csp_hash csp x = csp_hash csp y → x = y) →
  h.1 = h'.1 ∧ l = l'.
Proof.
  intros Hn Hh Hh' Hlen Hl Hl'. revert l' Hlen Hl' d d'. induction l as [|a l IH] using rev_ind; intros l' Hlen Hl' d d'.
  { destruct l'; [|done]. cbn. by intros [= <-] [= <-]. }
  destruct l' as [|a' l' _] using rev_ind; [rewrite length_app in Hlen; cbn in Hlen; lia|].
  rewrite !length_app in Hlen. cbn in Hlen. apply Forall_app in Hl as [Hl Ha].
  apply Forall_app in Hl' as [Hl' Ha'].
  rewrite Forall_singleton in Ha, Ha'. rewrite !transcript_snoc.
  intros (e & He & Hd)%bind_ok (e' & He' & Hd')%bind_ok Edd Hcol.
  pose proof (transcript_length csp n h l e Hn Hh He) as Hel. pose proof (transcript_length csp n h' l' e' Hn Hh' He') as Hel'.
  apply transcript_hashes_inv in Hd as (x & t & y & Hx & Hxc & Ht & Hy & Hyi).
  apply transcript_hashes_inv in Hd' as (x' & t' & y' & Hx' & Hxc' & Ht' & Hy' & Hyi').
  assert (y = y') as ->.
  { apply Hcol; [apply (hashed_last csp h l e)|apply (hashed_last csp h' l' e')|congruence]; try done.
    - eapply (hashed_interim _ _ _ _ d.2); [|done|done]. unfold confirmed_transcript_hash_create. rewrite Hx. cbn. by rewrite Hxc.
    - eapply (hashed_interim _ _ _ _ d'.2); [|done|done]. unfold confirmed_transcript_hash_create. rewrite Hx'. cbn. by rewrite Hxc'. }
  destruct (interim_input_inj d.2 d'.2 t t' y') as [Ec <-]; [by rewrite (Hn _ _ Hxc), (Hn _ _ Hxc')|done..|].
  assert (x = x') as ->.
  { apply Hcol; [apply (hashed_last csp h l e)|apply (hashed_last csp h' l' e')|congruence]; try done; by apply hashed_confirmed. }
  destruct (confirmed_input_inj e.1 e'.1 a a' x') as (Ee & Ew & Eco & Es); [congruence|done..|].
  destruct (IH Hl l' ltac:(lia) Hl' e e' He He' Ee) as [? ->].
  { intros u v Hu Hv. apply Hcol; by apply hashed_mono. }
  split; [done|]. f_equal. destruct a as [w c [s o]], a' as [w' c' [s' o']]. cbn in *. by simplify_eq.
Qed.

(** * Concrete runs *)
Definition three_context : GroupContext := new_group 1 1 [Byte.x07] [] [].
Definition three_members : GroupState := group_state_new three_context TreeKem.sample_group [] [].
Definition three_keys : KeySchedule := key_schedule_new [Byte.x05].

Lemma public_message_accepted_witness :
  ∃ a m, new_signed toy_csp three_context (Member 2) (ProposalContent (Remove 1)) [] WirePublicMessage [] = Ok a ∧
    create_plaintext toy_csp three_keys three_context a = Ok m ∧
    verify_plaintext_authentication toy_csp m (Some three_keys) (Some 0) three_members = Ok a.
Proof.
  destruct (new_signed toy_csp three_context (Member 2) (ProposalContent (Remove 1)) [] WirePublicMessage []) as [a| | |] eqn:Ea;
    try (vm_compute in Ea; discriminate Ea).
  destruct (create_plaintext toy_csp three_keys three_context (with_confirmation_tag a None)) as [m| | |] eqn:Em;
    try (vm_compute in Ea; injection Ea as <-; vm_compute in Em; discriminate Em).
  assert (with_confirmation_tag a None = a) as E by (vm_compute in Ea; by injection Ea as <-).
  assert (signature_pair toy_csp [] [Byte.x03]) as Hp by done.
  exists a, m. split; [done|]. split; [by rewrite <- E|]. rewrite <- E.
  apply (public_message_accepted toy_csp three_context (Member 2) (ProposalContent (Remove 1)) [] [Byte.x03] [] a None three_keys m
    (Some three_keys) (Some 0) three_members Hp Ea Em eq_refl (or_intror eq_refl)).
  - vm_compute. reflexivity.
  - intros i [= <-]. discriminate.
Defined.

(** A removal in the name of the member at leaf 1, without a tag. *)
Definition untagged : PublicMessage := {|
  pm_content := {| fc_group_id := [Byte.x07]; fc_epoch := 0; fc_sender := Member 1; fc_authenticated_data := [];
                   fc_content := ProposalContent (Remove 2) |};
  pm_auth := {| auth_signature := []; confirmation_tag := None |}; membership_tag := None |}.

Lemma accepted_iff_authenticated_witness :
  verify_plaintext_authentication toy_csp untagged (Some three_keys) (Some 0) three_members ≠ Ok (from_public_message untagged).
Proof.
  intros H. apply (proj1 (accepted_iff_authenticated toy_csp untagged three_keys (Some 0) three_members _)) in H
    as (_ & (_ & t & Ht & _) & _). discriminate Ht.
Defined.

(** A hash that keeps the last four bytes. *)
Definition last_four_csp : CipherSuiteProvider := {|
  csp_cipher_suite := 1; csp_kem_public_key_validate _ := inr tt;
  csp_hash b := inr (take 4 (rev b ++ replicate 4 Byte.x00));
  csp_mac := csp_mac toy_csp; csp_aead_seal := csp_aead_seal toy_csp; csp_aead_open := csp_aead_open toy_csp;
  csp_aead_key_size := 2; csp_aead_nonce_size := 2;
  csp_kdf_extract := csp_kdf_extract toy_csp; csp_kdf_expand := csp_kdf_expand toy_csp;
  csp_kdf_extract_size := 2; csp_hpke_seal := csp_hpke_seal toy_csp; csp_hpke_open := csp_hpke_open toy_csp;
  csp_hpke_export_s := csp_hpke_export_s toy_csp; csp_hpke_export_r := csp_hpke_export_r toy_csp;
  csp_kem_generate := csp_kem_generate toy_csp; csp_random_bytes := csp_random_bytes toy_csp;
  csp_kem_derive := csp_kem_derive toy_csp; csp_verify := csp_verify toy_csp; csp_sign := csp_sign toy_csp |}.

Definition small_commit : AuthenticatedContent := {|
  wire_format := WirePublicMessage;
  content := {| fc_group_id := [Byte.x07]; fc_epoch := 0; fc_sender := Member 0; fc_authenticated_data := [];
    fc_content := CommitContent {| commit_proposals := []; commit_path := None |} |};
  auth := {| auth_signature := [Byte.x01; Byte.x02; Byte.x03; Byte.x04];
             confirmation_tag := Some [Byte.x05; Byte.x06; Byte.x07; Byte.x08] |} |}.

Lemma transcript_pins_history_witness :
  let h := ([Byte.x09; Byte.x09; Byte.x09; Byte.x09], []) in
  is_ok (transcript last_four_csp h [small_commit]) = true ∧ h.1 = h.1 ∧ [small_commit] = [small_commit].
Proof.
  intros h. destruct (transcript last_four_csp h [small_commit]) as [d| | |] eqn:Ed; try (vm_compute in Ed; discriminate Ed).
  split; [done|].
  assert (∀ x, hashed last_four_csp h [small_commit] x →
    confirmed_input h.1 small_commit = Ok x ∨
    ∃ c, confirmed_transcript_hash_create last_four_csp h.1 small_commit = Ok c ∧
      interim_input c [Byte.x05; Byte.x06; Byte.x07; Byte.x08] = Ok x) as Hx.
  { intros x H. inversion H; subst; [by left|right; cbn in *; simplify_eq; by eexists|].
    match goal with H : hashed _ _ [] _ |- _ => inversion H end. }
  apply (transcript_pins_history last_four_csp 4 h h [small_commit] [small_commit] d d);
    [|done|done|done|repeat constructor; intros; done|repeat constructor; intros; done|exact Ed|exact Ed|done|].
  - intros x e [= <-]. rewrite length_take, length_app. cbn [replicate length]. lia.
  - intros x y [E1|(c & Ec & E1)]%Hx [E2|(c' & Ec' & E2)]%Hx Hh; try congruence.
    + vm_compute in E1, Ec'. injection Ec' as <-. vm_compute in E2. injection E1 as <-. injection E2 as <-. vm_compute in Hh. discriminate Hh.
    + vm_compute in E2, Ec. injection Ec as <-. vm_compute in E1. injection E1 as <-. injection E2 as <-. vm_compute in Hh. discriminate Hh.
Defined.
