(* ===== verification/ProposalFilter.v ===== *)
(** * Filtering and applying proposals (mls-rs/src/group/proposal_filter)

    The proposals of a commit are checked against the rules of the protocol and
    applied to a copy of the tree.  The committer filters ([IgnoreByRef]): a bad
    proposal that others sent is left out, its own bad proposal is an error.  The
    receivers check ([IgnoreNone]): any bad proposal is an error. *)
From S2P Require Import Prelude Codec TreeMath Types Node TreeIndex Extensions Crypto Labels TreeHash ParentHash Proposal TreeKem GroupContext Validator Storage.

(** ** Strategies: filtering.rs *)
Inductive FilterStrategy := IgnoreByRef | IgnoreNone.

Definition ignore (s : FilterStrategy) (by_ref : bool) : bool := match s with IgnoreByRef => by_ref | IgnoreNone => false end.
Definition is_ignore (s : FilterStrategy) : bool := match s with IgnoreByRef => true | IgnoreNone => false end.

(** Whether to keep a proposal for which a check gave [r]. *)
Definition apply_strategy (s : FilterStrategy) (by_ref : bool) (r : Result MlsError unit) : Result MlsError bool :=
  match r with
  | Ok _ => Ok true
  | Err e => if ignore s by_ref then Ok false else Err e
  | Panic => Panic
  | Diverge => Diverge
  end.

(** [retain_by_type] and [retain_custom] with a predicate that may fail: the
    first error is the result.  (The predicates have no effects, so that they are
    called on the later elements too cannot be observed.) *)
Fixpoint retain {A} (f : A → Result MlsError bool) (l : list A) : Result MlsError (list A) :=
  match l with
  | [] => Ok []
  | a :: l => k ← f a; rest ← retain f l; Ok (if (k : bool) then a :: rest else rest)
  end.

(** The loops that run over the indices from the last to the first. *)
Fixpoint retain_rev {A} (f : A → Result MlsError bool) (l : list A) : Result MlsError (list A) :=
  match l with
  | [] => Ok []
  | a :: l => rest ← retain_rev f l; k ← f a; Ok (if (k : bool) then a :: rest else rest)
  end.

(** Retain by the strategy's verdict on a check. *)
Definition keep {T} (s : FilterStrategy) (check : ProposalInfo T → Result MlsError unit) (p : ProposalInfo T)
    : Result MlsError bool :=
  apply_strategy s (is_by_reference p) (check p).

(** ** Updates of single fields *)
Definition set_psks (v : list (ProposalInfo PreSharedKeyID)) (b : ProposalBundle) : ProposalBundle := {|
  additions := additions b; updates := updates b; update_senders := update_senders b; removals := removals b;
  psks := v; reinitializations := reinitializations b; external_initializations := external_initializations b;
  group_context_extensions := group_context_extensions b; custom_proposals := custom_proposals b |}.
Definition set_reinits (v : list (ProposalInfo ReInitProposal)) (b : ProposalBundle) : ProposalBundle := {|
  additions := additions b; updates := updates b; update_senders := update_senders b; removals := removals b;
  psks := psks b; reinitializations := v; external_initializations := external_initializations b;
  group_context_extensions := group_context_extensions b; custom_proposals := custom_proposals b |}.
Definition set_external_inits (v : list (ProposalInfo bytes)) (b : ProposalBundle) : ProposalBundle := {|
  additions := additions b; updates := updates b; update_senders := update_senders b; removals := removals b;
  psks := psks b; reinitializations := reinitializations b; external_initializations := v;
  group_context_extensions := group_context_extensions b; custom_proposals := custom_proposals b |}.
Definition set_group_extensions (v : list (ProposalInfo ExtensionList.t)) (b : ProposalBundle) : ProposalBundle := {|
  additions := additions b; updates := updates b; update_senders := update_senders b; removals := removals b;
  psks := psks b; reinitializations := reinitializations b; external_initializations := external_initializations b;
  group_context_extensions := v; custom_proposals := custom_proposals b |}.
Definition set_customs (v : list (ProposalInfo CustomProposal)) (b : ProposalBundle) : ProposalBundle := {|
  additions := additions b; updates := updates b; update_senders := update_senders b; removals := removals b;
  psks := psks b; reinitializations := reinitializations b; external_initializations := external_initializations b;
  group_context_extensions := group_context_extensions b; custom_proposals := v |}.

(** ** Who may propose what *)
Definition can_propose (s : Sender) (ty : Z) (by_ref : bool) : bool :=
  match s, by_ref with
  | Member _, false => bool_decide (ty ∈ [ADD; REMOVE; PSK; RE_INIT; GROUP_CONTEXT_EXTENSIONS])
  | Member _, true => bool_decide (ty ∈ [ADD; UPDATE; REMOVE; PSK; RE_INIT; GROUP_CONTEXT_EXTENSIONS])
  | External _, false => false
  | External _, true => bool_decide (ty ∈ [ADD; REMOVE; RE_INIT; PSK; GROUP_CONTEXT_EXTENSIONS])
  | NewMemberCommit, false => bool_decide (ty ∈ [REMOVE; PSK; EXTERNAL_INIT])
  | NewMemberCommit, true => false
  | NewMemberProposal, false => false
  | NewMemberProposal, true => bool_decide (ty ∈ [ADD])
  end.

Definition proposer_can_propose (s : Sender) (ty : Z) (by_ref : bool) : Result MlsError unit :=
  guard_or (can_propose s ty by_ref) InvalidProposalTypeForSender.

Definition check_proposer {T} (ty : Z) (p : ProposalInfo T) : Result MlsError unit :=
  proposer_can_propose (info_sender p) ty (is_by_reference p).

(** One round of the loop over the updates, which also removes the sender:
    [Vec::remove] panics past the end. *)
Definition invalid_update_step (s : FilterStrategy) (st : list (ProposalInfo LeafNode) * list Z) (i : nat)
    : Result MlsError (list (ProposalInfo LeafNode) * list Z) :=
  let '(us, senders) := st in
  p ← unwrap (us !! i);
  k ← keep s (check_proposer UPDATE) p;
  if (k : bool) then Ok (us, senders)
  else if (i <? length senders)%nat then Ok (vec_remove us i, delete i senders) else Panic.

Definition filter_out_invalid_proposers (s : FilterStrategy) (b : ProposalBundle) : Result MlsError ProposalBundle :=
  adds ← retain_rev (keep s (check_proposer ADD)) (additions b);
  let b := set_additions adds b in
  '(us, senders) ← foldM (invalid_update_step s) (updates b, update_senders b) (rev (seq 0 (length (updates b))));
  let b := set_updates us senders b in
  rs ← retain_rev (keep s (check_proposer REMOVE)) (removals b);
  let b := set_removals rs b in
  ps ← retain_rev (keep s (check_proposer PSK)) (psks b);
  let b := set_psks ps b in
  ris ← retain_rev (keep s (check_proposer RE_INIT)) (reinitializations b);
  let b := set_reinits ris b in
  xs ← retain_rev (keep s (check_proposer EXTERNAL_INIT)) (external_initializations b);
  let b := set_external_inits xs b in
  gs ← retain_rev (keep s (check_proposer GROUP_CONTEXT_EXTENSIONS)) (group_context_extensions b);
  Ok (set_group_extensions gs b).

(** ** The committer's own leaf *)
Definition filter_out_update_for_committer (s : FilterStrategy) (commit_sender : Z) (b : ProposalBundle)
    : Result MlsError ProposalBundle :=
  us ← retain (keep s (λ p, guard_or (negb (bool_decide (info_sender p = Member commit_sender))) InvalidCommitSelfUpdate)) (updates b);
  Ok (set_updates us (update_senders b) b).

Definition filter_out_removal_of_committer (s : FilterStrategy) (commit_sender : Z) (b : ProposalBundle)
    : Result MlsError ProposalBundle :=
  rs ← retain (keep s (λ p, guard_or (negb (proposal p =? commit_sender)) CommitterSelfRemoval)) (removals b);
  Ok (set_removals rs b).

Definition leaf_index_of_update_sender (p : ProposalInfo LeafNode) : Result MlsError Z :=
  match info_sender p with Member i => Ok i | _ => Err InvalidProposalTypeForSender end.

(** ** Pre-shared keys: filtering_common.rs *)
Section psk.
Context {P : Type} `{!PreSharedKeyStorage P} (csp : CipherSuiteProvider) (psk_storage : P).

Definition psk_kind_valid (k : JustPreSharedKeyID) : bool :=
  match k with
  | ExternalPsk _ => true
  | ResumptionPskId r => match usage r with UsageApplication => true | _ => false end
  end.

(** [PreSharedKeyStorage::contains] is [get] with the key dropped. *)
Definition external_id_is_valid (k : JustPreSharedKeyID) : Result MlsError unit :=
  match k with
  | ExternalPsk id =>
      match psk_get psk_storage id with
      | inl e => Err (PskStoreError e)
      | inr (Some _) => Ok tt
      | inr None => Err MissingRequiredPsk
      end
  | ResumptionPskId _ => Ok tt
  end.

Definition check_psk (seen : list PreSharedKeyID) (p : ProposalInfo PreSharedKeyID) : Result MlsError unit :=
  if negb (psk_kind_valid (key_id (proposal p))) then Err InvalidTypeOrUsageInPreSharedKeyProposal
  else if negb (len (psk_nonce (proposal p)) =? csp_kdf_extract_size csp) then Err InvalidPskNonceLength
  else if bool_decide (proposal p ∈ seen) then Err DuplicatePskIds
  else external_id_is_valid (key_id (proposal p)).

(** An identifier counts as seen also when its proposal is left out. *)
Fixpoint retain_psks (s : FilterStrategy) (seen : list PreSharedKeyID) (l : list (ProposalInfo PreSharedKeyID))
    : Result MlsError (list (ProposalInfo PreSharedKeyID)) :=
  match l with
  | [] => Ok []
  | p :: l =>
      k ← keep s (check_psk seen) p;
      rest ← retain_psks s (proposal p :: seen) l;
      Ok (if (k : bool) then p :: rest else rest)
  end.

Definition filter_out_invalid_psks (s : FilterStrategy) (b : ProposalBundle) : Result MlsError ProposalBundle :=
  ps ← retain_psks s [] (psks b); Ok (set_psks ps b).
End psk.

(** ** Group context extensions, reinitialization, external initialization *)
Definition check_group_extensions (ip : IdentityProvider) (commit_time : option Z) (p : ProposalInfo ExtensionList.t)
    : Result MlsError unit :=
  match get_as (E:=ExternalSendersExt) (proposal p) with
  | Ok None => Ok tt
  | Ok (Some e) => provider (verify_all ip commit_time (proposal p) (allowed_senders e))
  | Err e => from_extension_error (Err e)
  | Panic => Panic
  | Diverge => Diverge
  end.

Definition filter_out_invalid_group_extensions (s : FilterStrategy) (ip : IdentityProvider) (commit_time : option Z)
    (b : ProposalBundle) : Result MlsError ProposalBundle :=
  gs ← retain (keep s (check_group_extensions ip commit_time)) (group_context_extensions b);
  Ok (set_group_extensions gs b).

(** The first one is kept. *)
Definition filter_out_extra_group_context_extensions (s : FilterStrategy) (b : ProposalBundle) : Result MlsError ProposalBundle :=
  match group_context_extensions b with
  | [] => Ok b
  | p :: l =>
      l ← retain (keep s (λ _, Err MoreThanOneGroupContextExtensionsProposal)) l;
      Ok (set_group_extensions (p :: l) b)
  end.

Definition filter_out_invalid_reinit (s : FilterStrategy) (version : Z) (b : ProposalBundle) : Result MlsError ProposalBundle :=
  ris ← retain (keep s (λ p, guard_or (version <=? reinit_version (proposal p)) InvalidProtocolVersionInReInit)) (reinitializations b);
  Ok (set_reinits ris b).

Definition filter_out_reinit_if_other_proposals (filter : bool) (b : ProposalBundle) : Result MlsError ProposalBundle :=
  let proposal_count := bundle_length b in
  if non_empty (reinitializations b) && negb (proposal_count =? 1) then
    let any_by_val := existsb is_by_value (reinitializations b) in
    if any_by_val || negb filter then Err OtherProposalWithReInit
    else if proposal_count >? len (reinitializations b) then Ok (set_reinits [] b)
    else Ok (set_reinits (take 1 (reinitializations b)) b)
  else Ok b.

Definition filter_out_external_init (s : FilterStrategy) (b : ProposalBundle) : Result MlsError ProposalBundle :=
  xs ← retain (keep s (λ _, Err InvalidProposalTypeForSender)) (external_initializations b);
  Ok (set_external_inits xs b).

Definition filter_out_unsupported_custom_proposals (s : FilterStrategy) (t : TreeKemPublic) (b : ProposalBundle)
    : Result MlsError ProposalBundle :=
  let supported_types := List.filter (TreeKem.can_support_proposal t) (custom_proposal_types b) in
  cs ← retain (keep s (λ p, guard_or (bool_decide (custom_type (proposal p) ∈ supported_types))
                              (UnsupportedCustomProposal (custom_type (proposal p))))) (custom_proposals b);
  Ok (set_customs cs b).

(** ** [ProposalApplier] *)
Record ProposalApplier (P : Type) := {
  original_tree : TreeKemPublic;
  pa_protocol_version : Z;
  cipher_suite_provider : CipherSuiteProvider;
  original_group_extensions : ExtensionList.t;
  external_leaf : option LeafNode;
  identity_provider : IdentityProvider;
  psk_storage : P;
  pa_group_id : bytes;
}.
Arguments original_tree {P}.
Arguments pa_protocol_version {P}.
Arguments cipher_suite_provider {P}.
Arguments original_group_extensions {P}.
Arguments external_leaf {P}.
Arguments identity_provider {P}.
Arguments psk_storage {P}.
Arguments pa_group_id {P}.

Record ApplyProposalsOutput := {
  new_tree : TreeKemPublic;
  indexes_of_added_kpkgs : list Z;
  external_init_index : option Z;
  applied_proposals : ProposalBundle;
  new_context_extensions : option ExtensionList.t;
}.

(** [ProposalBundle::group_context_extensions_proposal]. *)
Definition group_context_extensions_proposal (b : ProposalBundle) : option (ProposalInfo ExtensionList.t) :=
  head (group_context_extensions b).

(** The positions for which the verdict is to drop, or the first error. *)
Fixpoint bad_positions {A} (f : A → Result MlsError bool) (i : nat) (l : list A) : Result MlsError (list nat) :=
  match l with
  | [] => Ok []
  | a :: l => k ← f a; rest ← bad_positions f (S i) l; Ok (if (k : bool) then rest else i :: rest)
  end.

Section applier.
Context {P : Type} `{!PreSharedKeyStorage P} (a : ProposalApplier P).

Let csp := cipher_suite_provider a.
Let ip := identity_provider a.

Definition validate_new_node (exts : ExtensionList.t) (k : KeyPackage) (commit_time : option Z) : Result MlsError unit :=
  check_if_valid csp ip (Some exts) (kp_leaf_node k) (AddContext commit_time);;
  validate_key_package_properties csp k (pa_protocol_version a).

(** The verdict on an update: that the sender's old leaf is missing is an error in
    either mode. *)
Definition update_verdict (s : FilterStrategy) (exts : ExtensionList.t) (commit_time : option Z)
    (x : ProposalInfo LeafNode * Z) : Result MlsError bool :=
  let '(p, sender_index) := x in
  let leaf := proposal p in
  let res := check_if_valid csp ip (Some exts) leaf (UpdateContext (pa_group_id a) sender_index commit_time) in
  old_leaf ← TreeKem.get_leaf_node (original_tree a) sender_index;
  let valid_successor :=
    v ← provider (ip_valid_successor ip (signing_identity old_leaf) (signing_identity leaf) exts);
    guard_or v InvalidSuccessor in
  apply_strategy s (is_by_reference p) (res;; valid_successor).

Definition remove_updates (b : ProposalBundle) (bad : list nat) : ProposalBundle :=
  foldl (λ b i, set_updates (vec_remove (updates b) i) (vec_remove (update_senders b) i) b) b (rev bad).

Definition validate_new_nodes (s : FilterStrategy) (b : ProposalBundle) (exts : ExtensionList.t) (commit_time : option Z)
    : Result MlsError ProposalBundle :=
  bad ← bad_positions (update_verdict s exts commit_time) 0 (zip (updates b) (update_senders b));
  let b := remove_updates b bad in
  adds ← retain (keep s (λ p, validate_new_node exts (proposal p) commit_time)) (additions b);
  Ok (set_additions adds b).

Definition apply_tree_changes (s : FilterStrategy) (b : ProposalBundle) (exts : ExtensionList.t) (commit_time : option Z)
    : Result MlsError ApplyProposalsOutput :=
  b ← validate_new_nodes s b exts commit_time;
  '(t, b, added) ← TreeKem.batch_edit ip exts csp (is_ignore s) (original_tree a) b;
  Ok {| new_tree := t; indexes_of_added_kpkgs := added; external_init_index := None; applied_proposals := b;
        new_context_extensions := proposal <$> group_context_extensions_proposal b |}.

Fixpoint all_support (exts : ExtensionList.t) (l : list (Z * LeafNode)) : Result MlsError unit :=
  match l with
  | [] => Ok tt
  | (_, leaf) :: l =>
      validate_required_capabilities (Some exts) leaf;;
      validate_external_senders_ext_credentials (Some exts) leaf;;
      all_support exts l
  end.

(** The first extension that is not built in and that some member does not
    support. *)
Definition extensions_supported (exts : ExtensionList.t) (ls : list (Z * LeafNode)) : Result MlsError unit :=
  match List.find (λ ty, negb (forallb (λ '(_, l), bool_decide (ty ∈ cap_extensions (capabilities l))) ls))
          (List.filter (λ ty, negb (is_default ty)) (extension_type <$> exts)) with
  | Some ty => Err (UnsupportedGroupExtension ty)
  | None => Ok tt
  end.

Definition apply_proposals_with_new_capabilities (s : FilterStrategy) (b : ProposalBundle)
    (gce : ProposalInfo ExtensionList.t) (commit_time : option Z) : Result MlsError ApplyProposalsOutput :=
  output ← apply_tree_changes s b (proposal gce) commit_time;
  let must_check := ExtensionList.has_extension (proposal gce) REQUIRED_CAPABILITIES
                    || ExtensionList.has_extension (proposal gce) EXTERNAL_SENDERS in
  let leaves := Node.non_empty_leaves (nodes (new_tree output)) in
  let new_capabilities_supported := if must_check then all_support (proposal gce) leaves else Ok tt in
  let new_extensions_supported := extensions_supported (proposal gce) leaves in
  match new_capabilities_supported;; new_extensions_supported with
  | Ok _ => Ok output
  | Err e =>
      if ignore s (is_by_reference gce) then
        apply_tree_changes s (set_group_extensions [] b) (original_group_extensions a) commit_time
      else Err e
  | Panic => Panic
  | Diverge => Diverge
  end.

Definition apply_proposal_changes (s : FilterStrategy) (b : ProposalBundle) (commit_time : option Z)
    : Result MlsError ApplyProposalsOutput :=
  match group_context_extensions_proposal b with
  | Some p => apply_proposals_with_new_capabilities s b p commit_time
  | None => apply_tree_changes s b (original_group_extensions a) commit_time
  end.

(** The checks of the bundle before the tree is touched. *)
Definition check_member_proposals (s : FilterStrategy) (commit_sender : Z) (b : ProposalBundle) (commit_time : option Z)
    : Result MlsError ProposalBundle :=
  b ← filter_out_invalid_proposers s b;
  b ← filter_out_update_for_committer s commit_sender b;
  senders ← mapM_res leaf_index_of_update_sender (updates b);
  let b := set_updates (updates b) senders b in
  b ← filter_out_removal_of_committer s commit_sender b;
  b ← filter_out_invalid_psks csp (psk_storage a) s b;
  b ← filter_out_invalid_group_extensions s ip commit_time b;
  b ← filter_out_extra_group_context_extensions s b;
  b ← filter_out_invalid_reinit s (pa_protocol_version a) b;
  b ← filter_out_reinit_if_other_proposals (is_ignore s) b;
  filter_out_external_init s b.

Definition apply_proposals_from_member (s : FilterStrategy) (commit_sender : Z) (b : ProposalBundle)
    (commit_time : option Z) : Result MlsError ApplyProposalsOutput :=
  b ← check_member_proposals s commit_sender b commit_time;
  apply_proposal_changes s b commit_time.

(** ** External commits *)
Definition ensure_exactly_one_external_init (b : ProposalBundle) : Result MlsError unit :=
  guard_or (len (external_initializations b) =? 1) ExternalCommitMustHaveExactlyOneExternalInit.

Definition ensure_removal_is_for_self (removal : Z) (leaf : LeafNode) : Result MlsError unit :=
  existing ← TreeKem.get_leaf_node (original_tree a) removal;
  v ← provider (ip_valid_successor ip (signing_identity existing) (signing_identity leaf) (original_group_extensions a));
  guard_or v ExternalCommitRemovesOtherIdentity.

Definition ensure_at_most_one_removal_for_self (b : ProposalBundle) (leaf : LeafNode) : Result MlsError unit :=
  match removals b with
  | [removal] => ensure_removal_is_for_self (proposal removal) leaf
  | _ :: _ :: _ => Err ExternalCommitWithMoreThanOneRemove
  | [] => Ok tt
  end.

(** [ProposalType::DEFAULT]. *)
Definition DEFAULT : list Z := [ADD; UPDATE; REMOVE; PSK; RE_INIT; EXTERNAL_INIT; GROUP_CONTEXT_EXTENSIONS].

Definition ensure_proposals_in_external_commit_are_allowed (b : ProposalBundle) : Result MlsError unit :=
  match List.find (λ ty, negb (bool_decide (ty ∈ [EXTERNAL_INIT; REMOVE; PSK])) && bool_decide (ty ∈ DEFAULT)) (proposal_types b) with
  | Some kind => Err (InvalidProposalTypeInExternalCommit kind)
  | None => Ok tt
  end.

Definition ensure_no_proposal_by_ref (b : ProposalBundle) : Result MlsError unit :=
  guard_or (forallb (λ p, negb (bool_decide (proposal_type (proposal p) ∈ DEFAULT)) || is_by_value p) (iter_proposals b))
    OnlyMembersCanCommitProposalsByRef.

Definition insert_external_leaf (t : TreeKemPublic) (leaf : LeafNode) : Result MlsError (Z * TreeKemPublic) :=
  let '(r, t) := TreeKem.add_leaf ip (original_group_extensions a) t leaf None in i ← r; Ok (i, t).

Definition check_new_member_proposals (b : ProposalBundle) (leaf : LeafNode) : Result MlsError ProposalBundle :=
  ensure_exactly_one_external_init b;;
  ensure_at_most_one_removal_for_self b leaf;;
  ensure_proposals_in_external_commit_are_allowed b;;
  ensure_no_proposal_by_ref b;;
  b ← filter_out_invalid_proposers IgnoreNone b;
  filter_out_invalid_psks csp (psk_storage a) IgnoreNone b.

Definition apply_proposals_from_new_member (b : ProposalBundle) (commit_time : option Z) : Result MlsError ApplyProposalsOutput :=
  leaf ← ok_or (external_leaf a) ExternalCommitMustHaveNewLeaf;
  b ← check_new_member_proposals b leaf;
  output ← apply_proposal_changes IgnoreNone b commit_time;
  '(i, t) ← insert_external_leaf (new_tree output) leaf;
  Ok {| new_tree := t; indexes_of_added_kpkgs := indexes_of_added_kpkgs output; external_init_index := Some i;
        applied_proposals := applied_proposals output; new_context_extensions := new_context_extensions output |}.

Definition apply_proposals (s : FilterStrategy) (commit_sender : Sender) (b : ProposalBundle) (commit_time : option Z)
    : Result MlsError ApplyProposalsOutput :=
  output ← (match commit_sender with
            | Member i => apply_proposals_from_member s i b commit_time
            | NewMemberCommit => apply_proposals_from_new_member b commit_time
            | External _ | NewMemberProposal => Err ExternalSenderCannotCommit
            end);
  b ← filter_out_unsupported_custom_proposals s (new_tree output) (applied_proposals output);
  Ok {| new_tree := new_tree output; indexes_of_added_kpkgs := indexes_of_added_kpkgs output;
        external_init_index := external_init_index output; applied_proposals := b;
        new_context_extensions := new_context_extensions output |}.
End applier.

(** ** Trimming
    What a filter may do to a list of proposals: leave some out, never one that
    the committer sent by value, and none at all in the strict mode. *)
Lemma sublist_Forall {A} (P : A → Prop) (l l' : list A) : l' `sublist_of` l → Forall P l → Forall P l'.
Proof.
  rewrite !Forall_forall. intros Hl H x Hx. apply H. by eapply elem_of_submseteq, sublist_submseteq.
Qed.

Record trimmed {T} (s : FilterStrategy) (l l' : list (ProposalInfo T)) : Prop := {
  tr_sublist : l' `sublist_of` l;
  tr_values : List.filter is_by_value l' = List.filter is_by_value l;
  tr_strict : s = IgnoreNone → l' = l;
}.

#[global] Instance trimmed_preorder {T} s : PreOrder (@trimmed T s).
Proof.
  split; [by intros l; split|]. intros l1 l2 l3 [H1 H2 H3] [K1 K2 K3].
  split; [by etrans|congruence|]. intros Hs. rewrite K3, H3; done.
Qed.

Lemma trimmed_cons {T} s (p : ProposalInfo T) l l' : trimmed s l l' → trimmed s (p :: l) (p :: l').
Proof.
  intros [H1 H2 H3]. split; [by apply sublist_skip|cbn; by rewrite H2|]. intros Hs. by rewrite H3.
Qed.

Lemma trimmed_drop {T} (p : ProposalInfo T) l l' :
  is_by_reference p = true → trimmed IgnoreByRef l l' → trimmed IgnoreByRef (p :: l) l'.
Proof.
  unfold is_by_reference. intros Hp [H1 H2 H3]. split; [by apply sublist_cons| |done].
  cbn. destruct (is_by_value p); done.
Qed.

Lemma trimmed_app {T} s (l1 l2 k : list (ProposalInfo T)) : trimmed s l1 l2 → trimmed s (l1 ++ k) (l2 ++ k).
Proof.
  intros [H1 H2 H3]. split; [by apply sublist_app| |intros Hs; by rewrite H3]. by rewrite !List.filter_app, H2.
Qed.

Lemma keep_ok {T} s chk (p : ProposalInfo T) k :
  keep s chk p = Ok k → if k then chk p = Ok tt else s = IgnoreByRef ∧ is_by_reference p = true.
Proof.
  unfold keep, apply_strategy. destruct (chk p) as [[]|e| |] eqn:E; [intros [= <-]; done| |done|done].
  destruct s; cbn; destruct (is_by_reference p); intros [= <-]; done.
Qed.

Lemma keep_good {T} s chk (p : ProposalInfo T) : chk p = Ok tt → keep s chk p = Ok true.
Proof. unfold keep. by intros ->. Qed.

(** What the filters establish: a trimmed list whose elements pass the check. *)
Definition passes {T} (chk : ProposalInfo T → Result MlsError unit) (l : list (ProposalInfo T)) : Prop :=
  Forall (λ p, chk p = Ok tt) l.

Lemma passes_trimmed {T} s chk (l l' : list (ProposalInfo T)) : trimmed s l l' → passes chk l → passes chk l'.
Proof. intros [H _ _]. by apply sublist_Forall. Qed.

Lemma retain_trims {T} s chk (l l' : list (ProposalInfo T)) :
  retain (keep s chk) l = Ok l' → trimmed s l l' ∧ passes chk l'.
Proof.
  revert l'. induction l as [|p l IH]; intros l'; cbn; [intros [= <-]; split; [done|constructor]|].
  intros H. inv_res. destruct (IH _ ltac:(done)) as [Ht Hp]. apply keep_ok in Ha. destruct a; simplify_eq.
  - split; [by apply trimmed_cons|by constructor].
  - destruct Ha as [-> ?]. split; [by apply trimmed_drop|done].
Qed.

Lemma retain_good {T} s chk (l : list (ProposalInfo T)) : passes chk l → retain (keep s chk) l = Ok l.
Proof. induction 1 as [|p l Hp _ IH]; [done|]. cbn. by rewrite (keep_good _ _ _ Hp), IH. Qed.

Lemma retain_rev_trims {T} s chk (l l' : list (ProposalInfo T)) :
  retain_rev (keep s chk) l = Ok l' → trimmed s l l' ∧ passes chk l'.
Proof.
  revert l'. induction l as [|p l IH]; intros l'; cbn; [intros [= <-]; split; [done|constructor]|].
  intros H. inv_res. destruct (IH _ ltac:(done)) as [Ht Hp]. apply keep_ok in Ha0. destruct a0; simplify_eq.
  - split; [by apply trimmed_cons|by constructor].
  - destruct Ha0 as [-> ?]. split; [by apply trimmed_drop|done].
Qed.

Lemma retain_rev_good {T} s chk (l : list (ProposalInfo T)) : passes chk l → retain_rev (keep s chk) l = Ok l.
Proof. induction 1 as [|p l Hp _ IH]; [done|]. cbn. by rewrite IH, (keep_good _ _ _ Hp). Qed.

Lemma invalid_update_step_at s us (p : ProposalInfo LeafNode) suf senders :
  invalid_update_step s (us ++ p :: suf, senders) (length us) =
    (k ← keep s (check_proposer UPDATE) p;
     if (k : bool) then Ok (us ++ p :: suf, senders)
     else if (length us <? length senders)%nat then Ok (us ++ suf, delete (length us) senders) else Panic).
Proof.
  unfold invalid_update_step, vec_remove. rewrite (lookup_app_r us) by done. rewrite Nat.sub_diag, delete_middle. done.
Qed.

Lemma seq_rev_snoc {A} (l : list A) a : rev (seq 0 (length (l ++ [a]))) = length l :: rev (seq 0 (length l)).
Proof. by rewrite length_app, Nat.add_1_r, seq_S, rev_app_distr. Qed.

Lemma invalid_updates_trims s us suf senders us' senders' :
  foldM (invalid_update_step s) (us ++ suf, senders) (rev (seq 0 (length us))) = Ok (us', senders') →
  passes (check_proposer UPDATE) suf →
  trimmed s (us ++ suf) us' ∧ passes (check_proposer UPDATE) us'.
Proof.
  revert suf senders. induction us as [|p us IH] using rev_ind; intros suf senders; [by intros [= <- <-]|].
  rewrite seq_rev_snoc, <- (app_assoc us). cbn [foldM app]. rewrite invalid_update_step_at, bind_assoc.
  intros H Hsuf. apply bind_ok in H as (k & Hk & H). apply keep_ok in Hk. destruct k; cbn [mbind result_bind] in H.
  { eapply IH; [done|by constructor]. }
  destruct Hk as [-> Hp]. destruct (_ <? _)%nat; [|done]. destruct (IH _ _ H Hsuf) as [Ht ?]. split; [|done].
  etrans; [|exact Ht]. split; [by apply sublist_app, sublist_cons| |done].
  rewrite !List.filter_app. cbn. unfold is_by_reference in Hp. by destruct (is_by_value p).
Qed.

Lemma invalid_updates_all s us senders us' senders' :
  foldM (invalid_update_step s) (us, senders) (rev (seq 0 (length us))) = Ok (us', senders') →
  trimmed s us us' ∧ passes (check_proposer UPDATE) us'.
Proof.
  intros H. rewrite <- (app_nil_r us) in H at 1.
  destruct (invalid_updates_trims _ _ _ _ _ _ H (Forall_nil_2 _)) as [Ht ?]. by rewrite app_nil_r in Ht.
Qed.

Lemma invalid_updates_good s us suf senders :
  passes (check_proposer UPDATE) us →
  foldM (invalid_update_step s) (us ++ suf, senders) (rev (seq 0 (length us))) = Ok (us ++ suf, senders).
Proof.
  revert suf. induction us as [|p us IH] using rev_ind; intros suf; [done|]. intros H.
  apply Forall_app in H as [H Hp]. rewrite Forall_singleton in Hp.
  rewrite seq_rev_snoc, <- (app_assoc us). cbn [foldM app].
  rewrite invalid_update_step_at, (keep_good _ _ _ Hp). by apply IH.
Qed.

(** While no sender of an update is recorded, leaving an update out panics. *)
Lemma invalid_updates_panic us suf :
  Forall (λ p, is_by_reference p = true) us → ¬ passes (check_proposer UPDATE) us →
  foldM (invalid_update_step IgnoreByRef) (us ++ suf, []) (rev (seq 0 (length us))) = Panic.
Proof.
  revert suf. induction us as [|p us IH] using rev_ind; intros suf; [intros _ []; constructor|]. intros Href H.
  apply Forall_app in Href as [Href Hp]. rewrite Forall_singleton in Hp.
  rewrite seq_rev_snoc, <- (app_assoc us). cbn [foldM app]. rewrite invalid_update_step_at.
  assert (check_proposer UPDATE p = guard_or (can_propose (info_sender p) UPDATE (is_by_reference p)) InvalidProposalTypeForSender)
    as Hk by done.
  destruct (can_propose _ _ _); cbn in Hk.
  - rewrite (keep_good _ _ _ Hk). cbn. apply IH; [done|]. intros Hus. apply H, Forall_app. by split; [|constructor].
  - unfold keep. by rewrite Hk, Hp.
Qed.

(** ** Trimmed bundles, and the rules for the commit of a member *)
Record bundle_trimmed (s : FilterStrategy) (b b' : ProposalBundle) : Prop := {
  bt_additions : trimmed s (additions b) (additions b');
  bt_updates : trimmed s (updates b) (updates b');
  bt_removals : trimmed s (removals b) (removals b');
  bt_psks : trimmed s (psks b) (psks b');
  bt_reinits : trimmed s (reinitializations b) (reinitializations b');
  bt_external_inits : trimmed s (external_initializations b) (external_initializations b');
  bt_group_extensions : trimmed s (group_context_extensions b) (group_context_extensions b');
  bt_customs : trimmed s (custom_proposals b) (custom_proposals b');
}.

#[global] Instance bundle_trimmed_preorder s : PreOrder (bundle_trimmed s).
Proof.
  split; [by intros b; split|]. intros b1 b2 b3 [] []. by split; etrans.
Qed.

Record proposers_ok (b : ProposalBundle) : Prop := {
  po_additions : passes (check_proposer ADD) (additions b);
  po_updates : passes (check_proposer UPDATE) (updates b);
  po_removals : passes (check_proposer REMOVE) (removals b);
  po_psks : passes (check_proposer PSK) (psks b);
  po_reinits : passes (check_proposer RE_INIT) (reinitializations b);
  po_external_inits : passes (check_proposer EXTERNAL_INIT) (external_initializations b);
  po_group_extensions : passes (check_proposer GROUP_CONTEXT_EXTENSIONS) (group_context_extensions b);
}.

(** The leaf indices of the members that propose the updates. *)
Definition sender_member {T} (p : ProposalInfo T) : option Z :=
  match info_sender p with Member i => Some i | _ => None end.
Definition with_senders (b : ProposalBundle) : ProposalBundle := set_updates (updates b) (omap sender_member (updates b)) b.

Record psks_ok {P : Type} `{!PreSharedKeyStorage P} (csp : CipherSuiteProvider) (store : P) (b : ProposalBundle) : Prop := {
  pk_kind : Forall (λ p, psk_kind_valid (key_id (proposal p)) = true) (psks b);
  pk_nonce : Forall (λ p, len (psk_nonce (proposal p)) = csp_kdf_extract_size csp) (psks b);
  pk_known : Forall (λ p, external_id_is_valid store (key_id (proposal p)) = Ok tt) (psks b);
  pk_distinct : NoDup (proposal <$> psks b);
}.

(** RFC 9420, 12.2, for a commit by the member at leaf [i]. *)
Record member_rules {P : Type} `{!PreSharedKeyStorage P} (a : ProposalApplier P) (i : Z) (commit_time : option Z)
    (b : ProposalBundle) : Prop := {
  mr_proposers : proposers_ok b;
  mr_update : Forall (λ p, info_sender p ≠ Member i) (updates b);
  mr_removal : Forall (λ p, proposal p ≠ i) (removals b);
  mr_psks : psks_ok (cipher_suite_provider a) (psk_storage a) b;
  mr_extensions : passes (check_group_extensions (identity_provider a) commit_time) (group_context_extensions b);
  mr_one_extensions : (length (group_context_extensions b) ≤ 1)%nat;
  mr_version : Forall (λ p, pa_protocol_version a ≤ reinit_version (proposal p)) (reinitializations b);
  mr_reinit_alone : reinitializations b = [] ∨ bundle_length b = 1;
  mr_external_init : external_initializations b = [];
}.

(** Closes the goals about the fields that a step leaves as they are. *)
Ltac fields := split; cbn in *; first [assumption | reflexivity | done].

Lemma sublist_nil_inv {A} (l : list A) : l `sublist_of` [] → l = [].
Proof. apply sublist_nil_r. Qed.

Lemma bundle_trimmed_length s b b' : bundle_trimmed s b b' → bundle_length b' ≤ bundle_length b.
Proof.
  intros []. unfold bundle_length, len.
  repeat match goal with H : trimmed _ _ _ |- _ => apply tr_sublist, sublist_length in H end. lia.
Qed.

Lemma reinits_counted b : len (reinitializations b) ≤ bundle_length b.
Proof. unfold bundle_length, len. lia. Qed.

Lemma proposers_ok_trimmed s b b' : bundle_trimmed s b b' → proposers_ok b → proposers_ok b'.
Proof. intros [] []. split; by eapply passes_trimmed. Qed.

Lemma psks_ok_trimmed {P} `{!PreSharedKeyStorage P} csp (store : P) s b b' :
  bundle_trimmed s b b' → psks_ok csp store b → psks_ok csp store b'.
Proof.
  intros Hb []. pose proof (tr_sublist _ _ _ (bt_psks _ _ _ Hb)) as Hs.
  split; try by eapply sublist_Forall. eapply sublist_NoDup; [done|]. by apply fmap_sublist.
Qed.

Lemma reinit_alone_trimmed s b b' : bundle_trimmed s b b' →
  reinitializations b = [] ∨ bundle_length b = 1 → reinitializations b' = [] ∨ bundle_length b' = 1.
Proof.
  intros Hb [H|H].
  - left. apply sublist_nil_inv. rewrite <- H. apply tr_sublist with (1 := bt_reinits _ _ _ Hb).
  - pose proof (bundle_trimmed_length _ _ _ Hb). pose proof (reinits_counted b').
    destruct (reinitializations b'); [by left|right]. unfold len in *. cbn in *. lia.
Qed.

Section steps.
Context {P : Type} `{!PreSharedKeyStorage P} (a : ProposalApplier P) (s : FilterStrategy).

Lemma invalid_proposers_trims b b' :
  filter_out_invalid_proposers s b = Ok b' → bundle_trimmed s b b' ∧ proposers_ok b'.
Proof.
  unfold filter_out_invalid_proposers. intros H. inv_res.
  repeat match goal with
  | H : retain_rev (keep _ _) _ = Ok _ |- _ => apply retain_rev_trims in H as [? ?]
  | H : foldM (invalid_update_step _) _ _ = Ok _ |- _ => apply invalid_updates_all in H as [? ?]
  end.
  split; fields.
Qed.

Lemma invalid_proposers_good b : proposers_ok b → filter_out_invalid_proposers s b = Ok b.
Proof.
  intros []. unfold filter_out_invalid_proposers. rewrite retain_rev_good by done. cbn.
  pose proof (invalid_updates_good s (updates b) [] (update_senders b) ltac:(done)) as E. rewrite app_nil_r in E. rewrite E. cbn.
  repeat (rewrite retain_rev_good by done; cbn). by destruct b.
Qed.

Lemma update_for_committer_trims i b b' :
  filter_out_update_for_committer s i b = Ok b' →
  bundle_trimmed s b b' ∧ Forall (λ p, info_sender p ≠ Member i) (updates b').
Proof.
  unfold filter_out_update_for_committer. intros H. inv_res. apply retain_trims in Ha as [? Hp]. split; [fields|].
  eapply Forall_impl; [exact Hp|]. cbn. intros p Hq. rewrite guard_or_ok, negb_true_iff, bool_decide_eq_false in Hq. done.
Qed.

Lemma update_for_committer_good i b :
  Forall (λ p, info_sender p ≠ Member i) (updates b) → filter_out_update_for_committer s i b = Ok b.
Proof.
  intros H. unfold filter_out_update_for_committer. rewrite retain_good; [by destruct b|].
  eapply Forall_impl; [exact H|]. cbn. intros p Hq. by rewrite bool_decide_false.
Qed.

Lemma removal_of_committer_trims i b b' :
  filter_out_removal_of_committer s i b = Ok b' →
  bundle_trimmed s b b' ∧ Forall (λ p, proposal p ≠ i) (removals b').
Proof.
  unfold filter_out_removal_of_committer. intros H. inv_res. apply retain_trims in Ha as [? Hp]. split; [fields|].
  eapply Forall_impl; [exact Hp|]. cbn. intros p Hq. rewrite guard_or_ok, negb_true_iff in Hq. lia.
Qed.

Lemma removal_of_committer_good i b :
  Forall (λ p, proposal p ≠ i) (removals b) → filter_out_removal_of_committer s i b = Ok b.
Proof.
  intros H. unfold filter_out_removal_of_committer. rewrite retain_good; [by destruct b|].
  eapply Forall_impl; [exact H|]. cbn. intros p Hq. by rewrite (proj2 (Z.eqb_neq _ _) Hq).
Qed.

Lemma check_psk_ok csp (store : P) seen p :
  check_psk csp store seen p = Ok tt ↔
    psk_kind_valid (key_id (proposal p)) = true ∧ len (psk_nonce (proposal p)) = csp_kdf_extract_size csp ∧
    external_id_is_valid store (key_id (proposal p)) = Ok tt ∧ proposal p ∉ seen.
Proof.
  unfold check_psk. destruct (psk_kind_valid _); cbn; [|naive_solver].
  destruct (Z.eqb_spec (len (psk_nonce (proposal p))) (csp_kdf_extract_size csp)); cbn; [|naive_solver].
  case_bool_decide; naive_solver.
Qed.

Lemma retain_psks_trims csp (store : P) seen l l' :
  retain_psks csp store s seen l = Ok l' →
  trimmed s l l' ∧ NoDup (proposal <$> l') ∧ Forall (λ p, check_psk csp store seen p = Ok tt) l'.
Proof.
  revert seen l'. induction l as [|p l IH]; intros seen l'; cbn [retain_psks].
  { intros [= <-]. split_and!; [done|constructor|constructor]. }
  intros H. inv_res. apply IH in Ha0 as (Ht & Hn & Hp). apply keep_ok in Ha.
  assert (Forall (λ q, proposal q ≠ proposal p ∧ check_psk csp store seen q = Ok tt) a1) as Hq.
  { eapply Forall_impl; [exact Hp|]. cbn. intros q. rewrite !check_psk_ok, not_elem_of_cons. naive_solver. }
  apply Forall_and in Hq as [Hne Hq]. destruct a0; simplify_eq.
  - split_and!; [by apply trimmed_cons| |by constructor]. rewrite fmap_cons. apply NoDup_cons; split; [|done].
    rewrite list_elem_of_fmap. intros (q & Heq & Hin). rewrite Forall_forall in Hne. by apply (Hne q).
  - destruct Ha as [-> ?]. split_and!; [by apply trimmed_drop|done|done].
Qed.

Lemma invalid_psks_trims csp (store : P) b b' :
  filter_out_invalid_psks csp store s b = Ok b' → bundle_trimmed s b b' ∧ psks_ok csp store b'.
Proof.
  unfold filter_out_invalid_psks. intros H. inv_res. apply retain_psks_trims in Ha as (? & Hn & Hp). split; [fields|].
  split; [..|done]; (eapply Forall_impl; [exact Hp|]); cbn; intros p; rewrite check_psk_ok; naive_solver.
Qed.

Lemma invalid_psks_good csp (store : P) b : psks_ok csp store b → filter_out_invalid_psks csp store s b = Ok b.
Proof.
  intros []. unfold filter_out_invalid_psks.
  enough (∀ seen l, Forall (λ p, check_psk csp store [] p = Ok tt) l → NoDup (proposal <$> l) →
            (∀ p, p ∈ l → proposal p ∉ seen) → retain_psks csp store s seen l = Ok l) as E.
  { rewrite E; [by destruct b| |done|intros; apply not_elem_of_nil].
    rewrite Forall_forall in *. intros p Hp. rewrite check_psk_ok. split_and!; [naive_solver..|apply not_elem_of_nil]. }
  intros seen l. revert seen. induction l as [|p l IH]; intros seen Hl Hn Hs; [done|]. cbn [retain_psks].
  apply Forall_cons in Hl as [Hp Hl]. rewrite fmap_cons in Hn. apply NoDup_cons in Hn as [Hnp Hn].
  rewrite keep_good.
  - cbn. rewrite IH; [done..|]. intros q Hq. rewrite not_elem_of_cons. split; [|apply Hs; by right].
    intros Heq. apply Hnp. rewrite <- Heq. by apply list_elem_of_fmap_2.
  - rewrite check_psk_ok in *. split_and!; [naive_solver..|]. apply Hs. by left.
Qed.

Lemma group_extensions_trims ip time b b' :
  filter_out_invalid_group_extensions s ip time b = Ok b' →
  bundle_trimmed s b b' ∧ passes (check_group_extensions ip time) (group_context_extensions b').
Proof.
  unfold filter_out_invalid_group_extensions. intros H. inv_res. apply retain_trims in Ha as [? Hp]. by split; [fields|].
Qed.

Lemma group_extensions_good ip time b :
  passes (check_group_extensions ip time) (group_context_extensions b) →
  filter_out_invalid_group_extensions s ip time b = Ok b.
Proof. intros H. unfold filter_out_invalid_group_extensions. rewrite retain_good by done. by destruct b. Qed.

(** A check that nothing passes leaves nothing. *)
Lemma retain_none {T} e (l l' : list (ProposalInfo T)) :
  retain (keep s (λ _, Err e)) l = Ok l' → trimmed s l l' ∧ l' = [].
Proof.
  intros H. apply retain_trims in H as [Ht Hp]. split; [done|]. destruct l' as [|p l']; [done|].
  apply Forall_cons in Hp as [Hp _]. done.
Qed.

Lemma extra_extensions_trims b b' :
  filter_out_extra_group_context_extensions s b = Ok b' →
  bundle_trimmed s b b' ∧ (length (group_context_extensions b') ≤ 1)%nat.
Proof.
  unfold filter_out_extra_group_context_extensions. destruct (group_context_extensions b) as [|p l] eqn:E.
  { intros [= <-]. rewrite E. split; [done|cbn; lia]. }
  intros H. inv_res. apply retain_none in Ha as [Ht ->]. split; [|cbn; lia].
  split; cbn; try done. rewrite E. by apply trimmed_cons.
Qed.

Lemma extra_extensions_good b :
  (length (group_context_extensions b) ≤ 1)%nat → filter_out_extra_group_context_extensions s b = Ok b.
Proof.
  unfold filter_out_extra_group_context_extensions. destruct b as [? ? ? ? ? ? ? [|p [|q l]] ?]; cbn; [done..|lia].
Qed.

Lemma invalid_reinit_trims v b b' :
  filter_out_invalid_reinit s v b = Ok b' →
  bundle_trimmed s b b' ∧ Forall (λ p, v ≤ reinit_version (proposal p)) (reinitializations b').
Proof.
  unfold filter_out_invalid_reinit. intros H. inv_res. apply retain_trims in Ha as [? Hp]. split; [fields|].
  eapply Forall_impl; [exact Hp|]. cbn. intros p Hq. rewrite guard_or_ok in Hq. lia.
Qed.

Lemma invalid_reinit_good v b :
  Forall (λ p, v ≤ reinit_version (proposal p)) (reinitializations b) → filter_out_invalid_reinit s v b = Ok b.
Proof.
  intros H. unfold filter_out_invalid_reinit. rewrite retain_good; [by destruct b|].
  eapply Forall_impl; [exact H|]. cbn. intros p Hq. by rewrite (proj2 (Z.leb_le _ _) Hq).
Qed.

Lemma trimmed_by_reference {T} (l l' : list (ProposalInfo T)) :
  existsb is_by_value l = false → l' `sublist_of` l → trimmed IgnoreByRef l l'.
Proof.
  intros H Hl. split; [done| |done].
  assert (∀ k : list (ProposalInfo T), Forall (λ p, is_by_value p = false) k → List.filter is_by_value k = []) as E.
  { induction 1 as [|p k Hp _ IH]; [done|]. cbn. by rewrite Hp. }
  assert (Forall (λ p, is_by_value p = false) l) as Hf.
  { rewrite Forall_forall. intros p Hp. apply not_true_iff_false. intros Hv. apply not_true_iff_false in H. apply H.
    apply existsb_exists. exists p. by rewrite <- list_elem_of_In. }
  rewrite (E l Hf), E; [done|]. by eapply sublist_Forall.
Qed.

Lemma reinit_alone_trims b b' :
  filter_out_reinit_if_other_proposals (is_ignore s) b = Ok b' →
  bundle_trimmed s b b' ∧ (reinitializations b' = [] ∨ bundle_length b' = 1).
Proof.
  unfold filter_out_reinit_if_other_proposals. destruct (reinitializations b) as [|p l] eqn:E.
  { intros [= <-]. rewrite E. split; [done|by left]. }
  cbn [non_empty andb]. destruct (Z.eqb_spec (bundle_length b) 1) as [E1|E1]; cbn [negb].
  { intros [= <-]. split; [done|by right]. }
  destruct (existsb _ _) eqn:Hv; [done|]. destruct s; [|done]. cbn [is_ignore negb orb].
  assert (∀ k, k `sublist_of` p :: l → bundle_trimmed IgnoreByRef b (set_reinits k b)) as Hk.
  { intros k Hk. split; cbn; try done. rewrite E. by apply trimmed_by_reference. }
  destruct (Z.gtb_spec (bundle_length b) (len (p :: l))) as [Hlt|Hge]; intros [= <-].
  { split; [apply Hk, sublist_nil_l|by left]. }
  split; [apply Hk; cbn; apply sublist_skip, sublist_nil_l|right].
  revert Hge E1. unfold bundle_length. rewrite E. unfold len. rewrite length_cons. cbn [set_reinits additions updates removals
    psks reinitializations external_initializations group_context_extensions custom_proposals length]. rewrite take_0. cbn [length]. lia.
Qed.

Lemma reinit_alone_good filter b :
  reinitializations b = [] ∨ bundle_length b = 1 → filter_out_reinit_if_other_proposals filter b = Ok b.
Proof.
  unfold filter_out_reinit_if_other_proposals. intros [-> | ->]; [done|]. cbn. by rewrite andb_false_r.
Qed.

Lemma external_init_trims b b' :
  filter_out_external_init s b = Ok b' → bundle_trimmed s b b' ∧ external_initializations b' = [].
Proof. unfold filter_out_external_init. intros H. inv_res. apply retain_none in Ha as [? ->]. by split; [fields|]. Qed.

Lemma external_init_good b : external_initializations b = [] → filter_out_external_init s b = Ok b.
Proof. unfold filter_out_external_init. intros H. rewrite H. cbn. rewrite <- H. by destruct b. Qed.

(** A member sends every update that a member may send. *)
Lemma update_senders_known us :
  passes (check_proposer UPDATE) us → mapM_res leaf_index_of_update_sender us = Ok (omap sender_member us).
Proof.
  induction 1 as [|p us Hp _ IH]; [done|]. cbn. rewrite IH. revert Hp.
  unfold check_proposer, proposer_can_propose, leaf_index_of_update_sender, sender_member.
  destruct (info_sender p), (is_by_reference p); try done.
Qed.
End steps.

(** ** The checks of a member's commit *)
Section member.
Context {P : Type} `{!PreSharedKeyStorage P} (a : ProposalApplier P) (i : Z) (commit_time : option Z).

Lemma with_senders_trimmed s b : bundle_trimmed s b (with_senders b).
Proof. by split. Qed.

(** The checks after the senders of the updates are recorded do not touch the
    updates. *)
Lemma later_checks_updates s b b' :
  (b ← filter_out_removal_of_committer s i b;
   b ← filter_out_invalid_psks (cipher_suite_provider a) (psk_storage a) s b;
   b ← filter_out_invalid_group_extensions s (identity_provider a) commit_time b;
   b ← filter_out_extra_group_context_extensions s b;
   b ← filter_out_invalid_reinit s (pa_protocol_version a) b;
   b ← filter_out_reinit_if_other_proposals (is_ignore s) b;
   filter_out_external_init s b) = Ok b' →
  updates b' = updates b ∧ update_senders b' = update_senders b.
Proof.
  unfold filter_out_removal_of_committer, filter_out_invalid_psks, filter_out_invalid_group_extensions,
    filter_out_extra_group_context_extensions, filter_out_invalid_reinit, filter_out_reinit_if_other_proposals,
    filter_out_external_init.
  intros H. inv_res.
  repeat match goal with
  | H : match ?x with _ => _ end = Ok _ |- _ => destruct x; inv_res
  | H : (if ?x then _ else _) = Ok _ |- _ => destruct x; inv_res
  end; done.
Qed.

Lemma member_checks_sound s b b' :
  check_member_proposals a s i b commit_time = Ok b' →
  member_rules a i commit_time b' ∧ bundle_trimmed s b b' ∧ update_senders b' = omap sender_member (updates b').
Proof.
  unfold check_member_proposals. intros H.
  apply bind_ok in H as (b1 & H1 & H). apply invalid_proposers_trims in H1 as [T1 R1].
  apply bind_ok in H as (b2 & H2 & H). apply update_for_committer_trims in H2 as [T2 R2].
  rewrite (update_senders_known (updates b2)) in H by apply (proposers_ok_trimmed _ _ _ T2 R1). cbn [mbind result_bind] in H.
  change (set_updates (updates b2) _ b2) with (with_senders b2) in H.
  pose proof (with_senders_trimmed s b2) as T3.
  destruct (later_checks_updates _ _ _ H) as [Hu Hs].
  apply bind_ok in H as (b4 & H4 & H). apply removal_of_committer_trims in H4 as [T4 R4].
  apply bind_ok in H as (b5 & H5 & H). apply invalid_psks_trims in H5 as [T5 R5].
  apply bind_ok in H as (b6 & H6 & H). apply group_extensions_trims in H6 as [T6 R6].
  apply bind_ok in H as (b7 & H7 & H). apply extra_extensions_trims in H7 as [T7 R7].
  apply bind_ok in H as (b8 & H8 & H). apply invalid_reinit_trims in H8 as [T8 R8].
  apply bind_ok in H as (b9 & H9 & H). apply reinit_alone_trims in H9 as [T9 R9].
  apply external_init_trims in H as [T10 R10].
  pose proof (transitivity T9 T10) as T9'. pose proof (transitivity T8 T9') as T8'. pose proof (transitivity T7 T8') as T7'.
  pose proof (transitivity T6 T7') as T6'. pose proof (transitivity T5 T6') as T5'. pose proof (transitivity T4 T5') as T4'.
  pose proof (transitivity T3 T4') as T3'. pose proof (transitivity T2 T3') as T2'. pose proof (transitivity T1 T2') as T1'.
  split_and!; [|done|by rewrite Hs, Hu].
  split; [apply (proposers_ok_trimmed _ _ _ T2' R1)|by rewrite Hu| |apply (psks_ok_trimmed _ _ _ _ _ T6' R5)| | | |
    apply (reinit_alone_trimmed _ _ _ T10 R9)|done].
  - eapply sublist_Forall; [apply (tr_sublist _ _ _ (bt_removals _ _ _ T5'))|done].
  - eapply passes_trimmed; [apply (bt_group_extensions _ _ _ T7')|done].
  - etrans; [apply sublist_length, (tr_sublist _ _ _ (bt_group_extensions _ _ _ T8'))|done].
  - eapply sublist_Forall; [apply (tr_sublist _ _ _ (bt_reinits _ _ _ T9'))|done].
Qed.

Lemma member_checks_complete s b :
  member_rules a i commit_time b → check_member_proposals a s i b commit_time = Ok (with_senders b).
Proof.
  intros []. unfold check_member_proposals. rewrite invalid_proposers_good by done. cbn [mbind result_bind].
  rewrite update_for_committer_good by done. cbn [mbind result_bind].
  rewrite update_senders_known by by apply po_updates. cbn [mbind result_bind].
  change (set_updates (updates b) _ b) with (with_senders b).
  rewrite removal_of_committer_good by done. cbn [mbind result_bind].
  rewrite invalid_psks_good by by destruct mr_psks0; split. cbn [mbind result_bind].
  rewrite group_extensions_good by done. cbn [mbind result_bind].
  rewrite extra_extensions_good by done. cbn [mbind result_bind].
  rewrite invalid_reinit_good by done. cbn [mbind result_bind].
  rewrite reinit_alone_good by done. cbn [mbind result_bind].
  by rewrite external_init_good.
Qed.

Lemma bundle_trimmed_strict b b' :
  bundle_trimmed IgnoreNone b b' → b' = set_updates (updates b) (update_senders b') b.
Proof.
  intros []. destruct b, b'; unfold set_updates; cbn in *.
  repeat match goal with H : trimmed IgnoreNone _ _ |- _ => apply tr_strict in H; [|done] end. by subst.
Qed.

(** C20. The receiver's check of a member's commit is exact: it accepts a bundle
    exactly when the rules of the protocol hold of it (who may send which
    proposal, no update or removal of the committer, known and distinct
    pre-shared keys with nonces of the right length, one proposal of group
    extensions with valid external senders, a reinitialization only alone and not
    to an older version, no external initialization), and then changes nothing but
    the list of the senders of the updates, which it fills in. *)
Theorem strict_check_exact b b' :
  check_member_proposals a IgnoreNone i b commit_time = Ok b' ↔
  member_rules a i commit_time b ∧ b' = with_senders b.
Proof.
  split.
  - intros H. apply member_checks_sound in H as (Hr & Ht & Hs). pose proof (bundle_trimmed_strict _ _ Ht) as E.
    rewrite E in Hr, Hs |- *. cbn in Hs. split; [|unfold with_senders; by rewrite Hs].
    destruct Hr as [[] ? ? [] ? ? ? ? ?]. by repeat split.
  - intros [Hr ->]. by apply member_checks_complete.
Qed.

(** C21. What the committer's filter lets through, the receivers accept as it is:
    the filtered bundle obeys the rules of the protocol, the strict check passes
    and leaves it unchanged, and the filter left out none of the proposals that
    the committer sends by value. *)
Theorem filtered_bundle_accepted b b' :
  check_member_proposals a IgnoreByRef i b commit_time = Ok b' →
  check_member_proposals a IgnoreNone i b' commit_time = Ok b' ∧
  member_rules a i commit_time b' ∧ bundle_trimmed IgnoreByRef b b'.
Proof.
  intros H. apply member_checks_sound in H as (Hr & Ht & Hs). split_and!; [|done|done].
  rewrite member_checks_complete by done. unfold with_senders. rewrite <- Hs. by destruct b'.
Qed.

(** A cached update that a sender other than a member signed (an external
    sender, or a client that proposes itself) makes the committer panic: the
    filter means to leave it out, but removes an element of the list of update
    senders before that list is filled in. *)
Theorem foreign_update_panics b :
  update_senders b = [] → Forall (λ p, is_by_reference p = true) (updates b) →
  Exists (λ p, sender_member p = None) (updates b) → passes (check_proposer ADD) (additions b) →
  apply_proposals a IgnoreByRef (Member i) b commit_time = Panic.
Proof.
  intros Hs Href Hex Hadd. unfold apply_proposals, apply_proposals_from_member, check_member_proposals, filter_out_invalid_proposers.
  rewrite retain_rev_good by done. cbn [mbind result_bind].
  pose proof (invalid_updates_panic (updates b) [] Href) as E. rewrite app_nil_r in E.
  cbn [set_additions updates update_senders]. rewrite Hs, E; [done|]. clear E. unfold passes. apply Exists_not_Forall.
  eapply Exists_impl; [exact Hex|]. cbn. intros p. unfold check_proposer, proposer_can_propose, sender_member.
  destruct (info_sender p), (is_by_reference p); done.
Qed.
End member.

(** ** Samples *)
Definition sample_applier : ProposalApplier InMemory.InMemoryPreSharedKeyStorage := {|
  original_tree := TreeKem.sample_group; pa_protocol_version := 1; cipher_suite_provider := toy_csp;
  original_group_extensions := []; external_leaf := None; identity_provider := TreeKem.sample_ip;
  psk_storage := {| InMemory.psk_map := ∅ |}; pa_group_id := [] |}.

(** Leaf 0 commits a removal of its own and two that others proposed: one of them
    would remove the committer. *)
Definition sample_filter_bundle : ProposalBundle := set_removals
  [ {| proposal := 1; info_sender := Member 0; source := ByValue |};
    {| proposal := 0; info_sender := Member 2; source := ByReference [] |};
    {| proposal := 2; info_sender := External 0; source := ByReference [] |} ] empty_bundle.

Lemma filtered_bundle_accepted_witness :
  ∃ b', length (removals b') = 2%nat ∧
    check_member_proposals sample_applier IgnoreByRef 0 sample_filter_bundle None = Ok b' ∧
    check_member_proposals sample_applier IgnoreNone 0 b' None = Ok b'.
Proof.
  destruct (check_member_proposals sample_applier IgnoreByRef 0 sample_filter_bundle None) as [b'| | |] eqn:E;
    [|by vm_compute in E..].
  exists b'. split; [vm_compute in E; by injection E as <-|]. split; [done|].
  by apply (filtered_bundle_accepted sample_applier 0 None sample_filter_bundle b').
Defined.

Lemma foreign_update_panics_witness :
  apply_proposals sample_applier IgnoreByRef (Member 0)
    (set_updates [ {| proposal := TreeKem.member 9 9 9; info_sender := External 0; source := ByReference [] |} ] [] empty_bundle) None = Panic.
Proof.
  apply (foreign_update_panics sample_applier 0 None); [reflexivity|by constructor|by constructor|constructor].
Defined.
