(* ===== verification/Psk.v ===== *)
(** * Pre-shared keys (mls-rs/src/psk/secret.rs, psk/resolver.rs)

    The secret that the pre-shared keys of a commit contribute to the next epoch,
    and where a member finds the keys: external ones in the application's store,
    resumption keys in the current epoch or in the repository of past ones. *)
From Stdlib Require Import Strings.String.
From S2P Require Import Prelude Codec Types Proposal Crypto Labels GroupContext Epoch Storage StateRepo.

Import ProposalCodecs.

(** ** psk/secret.rs *)
Record PskSecretInput := { input_id : PreSharedKeyID; input_psk : bytes }.

(** [PSKLabel]: the identifier, its position and the number of keys. *)
Definition psk_label_codec : MlsCodec (PreSharedKeyID * (Z * Z)) :=
  tuple_codec psk_id_codec (tuple_codec u16_codec u16_codec).

Definition psk_label (id : PreSharedKeyID) (index count : Z) : Result Codec.Error bytes :=
  mls_encode_to_vec psk_label_codec (id, (index, count)).

(** [vec![0; kdf_extract_size]]. *)
Definition zeros (csp : CipherSuiteProvider) : bytes := replicate (Z.to_nat (csp_kdf_extract_size csp)) (byte.of_Z 0).

Definition psk_secret_new (csp : CipherSuiteProvider) : bytes := zeros csp.

Definition psk_secret_step (csp : CipherSuiteProvider) (count : Z) (psk_secret : bytes) (x : Z * PskSecretInput)
    : Result MlsError bytes :=
  let '(index, i) := x in
  psk_extracted ← crypto (csp_kdf_extract csp (zeros csp) (input_psk i));
  label ← from_codec_error (psk_label (input_id i) (wrap 16 index) count);
  psk_input ← kdf_expand_with_label csp psk_extracted (ascii "derived psk") label None;
  crypto (csp_kdf_extract csp psk_input psk_secret).

(** [iter().enumerate()]. *)
Definition enumerate {A} (l : list A) : list (Z * A) := imap (λ i a, (Z.of_nat i, a)) l.

Definition psk_secret_calculate (csp : CipherSuiteProvider) (input : list PskSecretInput) : Result MlsError bytes :=
  if 2 ^ 16 <=? len input then Err TooManyPskIds
  else foldM (psk_secret_step csp (len input)) (psk_secret_new csp) (enumerate input).

(** ** psk/resolver.rs *)
Record PskResolver (S K P : Type) := {
  group_context : option GroupContext;
  current_epoch : option EpochSecrets;
  prior_epochs : option (GroupStateRepository S K);
  psk_store : P;
}.
Arguments group_context {S K P}.
Arguments current_epoch {S K P}.
Arguments prior_epochs {S K P}.
Arguments psk_store {S K P}.

Section resolver.
Context {order : MapOrder} {S K P : Type} `{!GroupStateStorage S} `{!KeyPackageStorage K} `{!PreSharedKeyStorage P}.

Definition is_current (c : GroupContext) (p : ResumptionPsk) : bool :=
  (epoch c =? psk_epoch p) && bool_decide (group_id c = psk_group_id p).

Definition resolve_resumption (r : PskResolver S K P) (p : ResumptionPsk) : Result MlsError bytes :=
  if from_option (λ c, is_current c p) false (group_context r) then
    e ← ok_or (current_epoch r) OldGroupStateNotFound; Ok (resumption_secret e)
  else
    found ← from_option (λ eps, repo_resumption_secret eps p) (Ok None) (prior_epochs r);
    ok_or found OldGroupStateNotFound.

Definition resolve_external (r : PskResolver S K P) (id : bytes) : Result MlsError bytes :=
  match psk_get (psk_store r) id with
  | inl e => Err (PskStoreError e)
  | inr found => ok_or found MissingRequiredPsk
  end.

Definition resolve_one (r : PskResolver S K P) (id : PreSharedKeyID) : Result MlsError PskSecretInput :=
  psk ← (match key_id id with
         | ExternalPsk external => resolve_external r external
         | ResumptionPskId resumption => resolve_resumption r resumption
         end);
  Ok {| input_id := id; input_psk := psk |}.

Definition resolve (r : PskResolver S K P) (ids : list PreSharedKeyID) : Result MlsError (list PskSecretInput) :=
  mapM_res (resolve_one r) ids.

Definition resolve_to_secret (csp : CipherSuiteProvider) (r : PskResolver S K P) (ids : list PreSharedKeyID)
    : Result MlsError bytes :=
  psk ← resolve r ids; psk_secret_calculate csp psk.
End resolver.

(** ** What the secret determines
    The calls of the key derivation function that computing the secret of [input]
    makes: one extraction of each key, one expansion per key, and one extraction
    that mixes the result into the secret so far. *)
Inductive kdf_call := ExtractCall (salt ikm : bytes) | ExpandCall (prk info : bytes).

Definition call_output (csp : CipherSuiteProvider) (c : kdf_call) : AnyError + bytes :=
  match c with
  | ExtractCall salt ikm => csp_kdf_extract csp salt ikm
  | ExpandCall prk info => csp_kdf_expand csp prk info (csp_kdf_extract_size csp)
  end.

Definition same_kind (c c' : kdf_call) : Prop :=
  match c, c' with ExtractCall _ _, ExtractCall _ _ | ExpandCall _ _, ExpandCall _ _ => True | _, _ => False end.

Definition secret_after (csp : CipherSuiteProvider) (input : list PskSecretInput) (n : nat) : Result MlsError bytes :=
  foldM (psk_secret_step csp (len input)) (psk_secret_new csp) (take n (enumerate input)).

(** The values of the round for the key at position [n]. *)
Record psk_round (csp : CipherSuiteProvider) (input : list PskSecretInput) (n : nat) (x : PskSecretInput)
    (prev prk label info psk_input : bytes) : Prop := {
  pr_key : input !! n = Some x;
  pr_prev : secret_after csp input n = Ok prev;
  pr_prk : csp_kdf_extract csp (zeros csp) (input_psk x) = inr prk;
  pr_label : psk_label (input_id x) (wrap 16 (Z.of_nat n)) (len input) = Ok label;
  pr_info : kdf_label (csp_kdf_extract_size csp) (ascii "derived psk") label = Ok info;
  pr_input : csp_kdf_expand csp prk info (csp_kdf_extract_size csp) = inr psk_input;
}.

Definition round_calls (csp : CipherSuiteProvider) (x : PskSecretInput) (prev prk info psk_input : bytes) : list kdf_call :=
  [ExtractCall (zeros csp) (input_psk x); ExpandCall prk info; ExtractCall psk_input prev].

Definition psk_called (csp : CipherSuiteProvider) (input : list PskSecretInput) (c : kdf_call) : Prop :=
  ∃ n x prev prk label info psk_input,
    psk_round csp input n x prev prk label info psk_input ∧ c ∈ round_calls csp x prev prk info psk_input.

#[export] Instance psk_label_laws : CodecLaws psk_label_codec (λ p, psk_id_wf p.1 ∧ is_u16 p.2.1 ∧ is_u16 p.2.2).
Proof. exact (tuple_laws _ _ _ _ psk_id_laws (tuple_laws _ _ _ _ u16_laws u16_laws)). Qed.

Lemma wrap_u16 z : is_u16 (wrap 16 z).
Proof. apply Z.mod_pos_bound. lia. Qed.

Lemma crypto_ok {A} (r : AnyError + A) a : crypto r = Ok a ↔ r = inr a.
Proof. destruct r; cbn; naive_solver. Qed.

Lemma from_codec_inv {A} (r : Result Codec.Error A) a : from_codec_error r = Ok a → r = Ok a.
Proof. destruct r; cbn; naive_solver. Qed.

Lemma enumerate_lookup {A} (l : list A) n : enumerate l !! n = (λ a, (Z.of_nat n, a)) <$> l !! n.
Proof. unfold enumerate. by rewrite list_lookup_imap. Qed.

Lemma secret_after_S csp input n x s :
  input !! n = Some x → secret_after csp input (Datatypes.S n) = Ok s →
  ∃ prev prk label info psk_input,
    psk_round csp input n x prev prk label info psk_input ∧ csp_kdf_extract csp psk_input prev = inr s.
Proof.
  intros Hx. unfold secret_after. rewrite (take_S_r _ n (Z.of_nat n, x)) by (by rewrite enumerate_lookup, Hx).
  rewrite foldM_app. intros (prev & Hprev & H)%bind_ok. cbn [foldM] in H. apply bind_ok in H as (s' & H & [= ->]).
  unfold psk_secret_step in H. apply bind_ok in H as (prk & Hprk%crypto_ok & H).
  apply bind_ok in H as (label & Hlabel%from_codec_inv & H). apply bind_ok in H as (psk_input & Hin & H%crypto_ok).
  unfold kdf_expand_with_label in Hin. apply bind_ok in Hin as (info & Hinfo%from_codec_inv & Hin%crypto_ok).
  by exists prev, prk, label, info, psk_input.
Qed.

Lemma round_called csp input n x prev prk label info psk_input c :
  psk_round csp input n x prev prk label info psk_input → c ∈ round_calls csp x prev prk info psk_input →
  psk_called csp input c.
Proof. intros H Hc. by exists n, x, prev, prk, label, info, psk_input. Qed.

Definition collision_free (csp : CipherSuiteProvider) (input input' : list PskSecretInput) : Prop :=
  ∀ c c', psk_called csp input c → psk_called csp input' c' → same_kind c c' →
    call_output csp c = call_output csp c' → c = c'.

Section binding.
Context (csp : CipherSuiteProvider) (input input' : list PskSecretInput).
Hypothesis Hwf : Forall (λ x, psk_id_wf (input_id x)) input.
Hypothesis Hwf' : Forall (λ x, psk_id_wf (input_id x)) input'.
Hypothesis Hlen : len input < 2 ^ 16.
Hypothesis Hlen' : len input' < 2 ^ 16.
Hypothesis Hcol : collision_free csp input input'.

(** Equal secrets after a step each: the steps mixed in the same key under the
    same label, into equal secrets. *)
Lemma last_key_agrees n n' x x' s :
  input !! n = Some x → input' !! n' = Some x' →
  secret_after csp input (Datatypes.S n) = Ok s → secret_after csp input' (Datatypes.S n') = Ok s →
  x = x' ∧ n = n' ∧ len input = len input' ∧
  ∃ prev, secret_after csp input n = Ok prev ∧ secret_after csp input' n' = Ok prev.
Proof.
  intros Hx Hx' Hs Hs'.
  destruct (secret_after_S _ _ _ _ _ Hx Hs) as (prev & prk & label & info & pin & R & Hmix).
  destruct (secret_after_S _ _ _ _ _ Hx' Hs') as (prev' & prk' & label' & info' & pin' & R' & Hmix').
  assert (∀ c c', c ∈ round_calls csp x prev prk info pin → c' ∈ round_calls csp x' prev' prk' info' pin' → same_kind c c' →
    call_output csp c = call_output csp c' → c = c') as Hc by (intros c c' ? ?; by apply Hcol; eapply round_called).
  destruct R as [_ Hprev Hprk Hlab Hinfo Hin], R' as [_ Hprev' Hprk' Hlab' Hinfo' Hin'].
  pose proof (Hc (ExtractCall pin prev) (ExtractCall pin' prev') ltac:(set_solver) ltac:(set_solver) I ltac:(cbn; congruence)) as [= -> ->].
  pose proof (Hc (ExpandCall prk info) (ExpandCall prk' info') ltac:(set_solver) ltac:(set_solver) I ltac:(cbn; congruence)) as [= -> ->].
  pose proof (Hc (ExtractCall (zeros csp) (input_psk x)) (ExtractCall (zeros csp) (input_psk x')) ltac:(set_solver) ltac:(set_solver) I ltac:(cbn; congruence)) as [= Ekey].
  destruct (kdf_label_inj _ _ _ _ _ _ Hinfo Hinfo') as [_ ->].
  assert (∀ (l : list PskSecretInput) (k : nat) y, len l < 2 ^ 16 → l !! k = Some y → wrap 16 (Z.of_nat k) = Z.of_nat k) as Hsmall.
  { intros l k y Hl Hk. apply Z.mod_small. apply lookup_lt_Some in Hk. unfold len in Hl. lia. }
  assert ((input_id x, (wrap 16 (Z.of_nat n), len input)) = (input_id x', (wrap 16 (Z.of_nat n'), len input'))) as [= Eid En El].
  { apply (encode_inj psk_label_codec (λ p, psk_id_wf p.1 ∧ is_u16 p.2.1 ∧ is_u16 p.2.2) _ _ label'); try done;
      (split_and!; [|apply wrap_u16|unfold is_u16; cbn; pose proof (len_nonneg input); pose proof (len_nonneg input'); lia]); cbn.
    - rewrite Forall_lookup in Hwf. by apply (Hwf n).
    - rewrite Forall_lookup in Hwf'. by apply (Hwf' n'). }
  rewrite (Hsmall input n x), (Hsmall input' n' x') in En by done.
  split_and!; [destruct x, x'; cbn in *; by subst|lia|done|by exists prev'].
Qed.

Lemma prefixes_agree n : (n ≤ length input)%nat → (n ≤ length input')%nat → ∀ s,
  secret_after csp input n = Ok s → secret_after csp input' n = Ok s → take n input = take n input'.
Proof.
  induction n as [|n IH]; intros Hn Hn' s Hs Hs'; [done|].
  destruct (lookup_lt_is_Some_2 input n) as [x Hx]; [lia|]. destruct (lookup_lt_is_Some_2 input' n) as [x' Hx']; [lia|].
  destruct (last_key_agrees n n x x' s) as (-> & _ & _ & prev & Hp & Hp'); [done..|].
  rewrite (take_S_r input n x'), (take_S_r input' n x') by done. f_equal. apply (IH ltac:(lia) ltac:(lia) prev Hp Hp').
Qed.
End binding.

Lemma calculate_after csp input s :
  psk_secret_calculate csp input = Ok s → len input < 2 ^ 16 ∧ secret_after csp input (length input) = Ok s.
Proof.
  unfold psk_secret_calculate. destruct (Z.leb_spec (2 ^ 16) (len input)); [done|]. intros Hs. split; [done|].
  unfold secret_after. rewrite take_ge; [done|]. unfold enumerate. by rewrite length_imap.
Qed.

(** C29. The secret of a commit's pre-shared keys pins the keys: if two non-empty
    lists give the same secret, then they are the same keys under the same
    identifiers in the same order, unless two of the calls of the key derivation
    function that were made collide.  The position and the number of the keys are
    part of each label, so neither a reordering nor a shorter list goes unnoticed. *)
Theorem psk_secret_pins_keys csp input input' s :
  psk_secret_calculate csp input = Ok s → psk_secret_calculate csp input' = Ok s → input ≠ [] → input' ≠ [] →
  Forall (λ x, psk_id_wf (input_id x)) input → Forall (λ x, psk_id_wf (input_id x)) input' →
  collision_free csp input input' → input = input'.
Proof.
  intros [Hl Hs]%calculate_after [Hl' Hs']%calculate_after Hne Hne' Hwf Hwf' Hcol.
  destruct (length input) as [|n] eqn:En; [by apply length_zero_iff_nil in En|].
  destruct (length input') as [|n'] eqn:En'; [by apply length_zero_iff_nil in En'|].
  destruct (lookup_lt_is_Some_2 input n) as [x Hx]; [lia|]. destruct (lookup_lt_is_Some_2 input' n') as [x' Hx']; [lia|].
  destruct (last_key_agrees csp input input' Hwf Hwf' Hl Hl' Hcol n n' x x' s) as (_ & -> & _); [done..|].
  pose proof (prefixes_agree csp input input' Hwf Hwf' Hl Hl' Hcol (Datatypes.S n') ltac:(lia) ltac:(lia) s Hs Hs') as E.
  rewrite <- En in E at 1. rewrite <- En', !firstn_all in E. done.
Qed.

(** A provider whose key derivation keeps everything it is given. *)
Definition keeping_csp : CipherSuiteProvider := {|
  csp_cipher_suite := 1; csp_hash := csp_hash toy_csp; csp_mac := csp_mac toy_csp;
  csp_aead_seal := csp_aead_seal toy_csp; csp_aead_open := csp_aead_open toy_csp;
  csp_aead_key_size := 2; csp_aead_nonce_size := 2;
  csp_kdf_extract salt ikm := inr (salt ++ ikm);
  csp_kdf_expand prk info _ := inr (prk ++ info);
  csp_kdf_extract_size := 2;
  csp_hpke_seal := csp_hpke_seal toy_csp; csp_hpke_open := csp_hpke_open toy_csp;
  csp_hpke_export_s := csp_hpke_export_s toy_csp; csp_hpke_export_r := csp_hpke_export_r toy_csp;
  csp_kem_derive := csp_kem_derive toy_csp; csp_kem_generate := csp_kem_generate toy_csp;
  csp_kem_public_key_validate := csp_kem_public_key_validate toy_csp; csp_random_bytes := csp_random_bytes toy_csp;
  csp_verify := csp_verify toy_csp; csp_sign := csp_sign toy_csp |}.

Definition one_psk : list PskSecretInput :=
  [ {| input_id := {| key_id := ExternalPsk [Byte.x01]; psk_nonce := [Byte.x02] |}; input_psk := [Byte.x03] |} ].

Definition one_psk_calls : list kdf_call :=
  let x := {| input_id := {| key_id := ExternalPsk [Byte.x01]; psk_nonce := [Byte.x02] |}; input_psk := [Byte.x03] |} in
  let info := from_option id [] (result_ok (label ← psk_label (input_id x) 0 1; kdf_label 2 (ascii "derived psk") label)) in
  let prk := [Byte.x00; Byte.x00; Byte.x03] in
  round_calls keeping_csp x [Byte.x00; Byte.x00] prk info (prk ++ info).

Lemma one_psk_called c : psk_called keeping_csp one_psk c → c ∈ one_psk_calls.
Proof.
  intros (n & x & prev & prk & label & info & pin & [Hx Hprev Hprk Hlab Hinfo Hin] & Hc).
  destruct n as [|n]; [|by destruct n]. vm_compute in Hx. injection Hx as <-. vm_compute in Hprev. injection Hprev as <-.
  vm_compute in Hprk. injection Hprk as <-. vm_compute in Hlab. injection Hlab as <-. vm_compute in Hinfo. injection Hinfo as <-.
  vm_compute in Hin. injection Hin as <-. exact Hc.
Qed.

Lemma psk_secret_pins_keys_witness :
  ∃ s, psk_secret_calculate keeping_csp one_psk = Ok s ∧ one_psk = one_psk.
Proof.
  destruct (psk_secret_calculate keeping_csp one_psk) as [s| | |] eqn:E; try (vm_compute in E; discriminate E).
  exists s. split; [done|]. apply (psk_secret_pins_keys keeping_csp one_psk one_psk s E E); try done; try by repeat constructor.
  intros c c' Hc%one_psk_called Hc'%one_psk_called. clear E. revert c c' Hc Hc'.
  assert (Forall (λ c, Forall (λ c', same_kind c c' → call_output keeping_csp c = call_output keeping_csp c' → c = c') one_psk_calls) one_psk_calls) as H.
  { repeat constructor; intros Hk Ho; first [reflexivity | by destruct Hk | by vm_compute in Ho]. }
  intros c c' Hc Hc'. rewrite Forall_forall in H. specialize (H c Hc). rewrite Forall_forall in H. by apply H.
Defined.
