(* ===== verification/Rules.v ===== *)
(** * The roster and the rules of the application
    (mls-rs/src/group/roster.rs, mls_rules.rs, mls-rs-core/src/group/roster.rs)

    What the application sees of the members of a group, and the callbacks by
    which it customizes commits and encryption: a class, with the default rules as
    an instance. *)
From stdpp Require Import sorting.
From S2P Require Import Prelude Codec Types Node TreeIndex TreeHash Proposal TreeKem PrivateMessage Framing.

(** ** Members *)
Record RosterMember := {
  member_index : Z;
  member_signing_identity : SigningIdentity;
  member_capabilities : Capabilities;
  member_extensions : ExtensionList.t;
}.

(** Without the [grease] feature there is nothing to take out. *)
Definition ungreased_capabilities (l : LeafNode) : Capabilities := capabilities l.
Definition ungreased_extensions (l : LeafNode) : ExtensionList.t := leaf_extensions l.

Definition member_from_leaf_node (l : LeafNode) (leaf_index : Z) : RosterMember := {|
  member_index := leaf_index; member_signing_identity := signing_identity l;
  member_capabilities := ungreased_capabilities l; member_extensions := ungreased_extensions l |}.

Definition member_from_key_package (k : KeyPackage) (i : Z) : RosterMember := member_from_leaf_node (kp_leaf_node k) i.

Record MemberUpdate := { prior : RosterMember; updated_to : RosterMember }.

Definition update_index (u : MemberUpdate) : Z := member_index (updated_to u).

(** [slice::sort_by_key], which is stable: an element goes in front of the first
    that is not smaller. *)
Fixpoint insert_by_key {A} (key : A → Z) (a : A) (l : list A) : list A :=
  match l with
  | [] => [a]
  | b :: l => if key a <=? key b then a :: b :: l else b :: insert_by_key key a l
  end.
Definition sort_by_key {A} (key : A → Z) (l : list A) : list A := foldr (insert_by_key key) [] l.

Record RosterUpdate := { added : list RosterMember; removed : list RosterMember; updated : list MemberUpdate }.

Definition roster_update_new (a r : list RosterMember) (u : list MemberUpdate) : RosterUpdate := {|
  added := sort_by_key member_index a; removed := sort_by_key member_index r; updated := sort_by_key update_index u |}.

(** ** [Roster]: a view of a public tree *)
Record Roster := { roster_tree : TreeKemPublic }.

Definition roster_of (t : TreeKemPublic) : Roster := {| roster_tree := t |}.

Definition members (r : Roster) : list RosterMember :=
  (λ '(i, l), member_from_leaf_node l i) <$> Node.non_empty_leaves (nodes (roster_tree r)).

Definition member_with_index (r : Roster) (i : Z) : Result MlsError RosterMember :=
  l ← TreeKem.get_leaf_node (roster_tree r) i; Ok (member_from_leaf_node l i).

Definition member_identities (r : Roster) : list SigningIdentity :=
  (λ '(_, l), signing_identity l) <$> Node.non_empty_leaves (nodes (roster_tree r)).

(** ** mls_rules.rs *)
Inductive CommitDirection := Send | Receive.
Inductive CommitOrigin := ExistingMember (m : RosterMember) | NewMember (s : SigningIdentity).

Record CommitOptions := {
  path_required : bool;
  ratchet_tree_extension : bool;
  single_welcome_message : bool;
  allow_external_commit : bool;
}.

Definition commit_options_default : CommitOptions := {|
  path_required := false; ratchet_tree_extension := true; single_welcome_message := true; allow_external_commit := false |}.

Definition with_path_required (b : bool) (o : CommitOptions) : CommitOptions := {|
  path_required := b; ratchet_tree_extension := ratchet_tree_extension o;
  single_welcome_message := single_welcome_message o; allow_external_commit := allow_external_commit o |}.
Definition with_ratchet_tree_extension (b : bool) (o : CommitOptions) : CommitOptions := {|
  path_required := path_required o; ratchet_tree_extension := b;
  single_welcome_message := single_welcome_message o; allow_external_commit := allow_external_commit o |}.
Definition with_single_welcome_message (b : bool) (o : CommitOptions) : CommitOptions := {|
  path_required := path_required o; ratchet_tree_extension := ratchet_tree_extension o;
  single_welcome_message := b; allow_external_commit := allow_external_commit o |}.
Definition with_allow_external_commit (b : bool) (o : CommitOptions) : CommitOptions := {|
  path_required := path_required o; ratchet_tree_extension := ratchet_tree_extension o;
  single_welcome_message := single_welcome_message o; allow_external_commit := b |}.

Record EncryptionOptions := { encrypt_control_messages : bool; padding_mode : PaddingMode }.

Definition control_wire_format (o : EncryptionOptions) (s : Sender) : WireFormat :=
  match s with
  | Member _ => if encrypt_control_messages o then WirePrivateMessage else WirePublicMessage
  | _ => WirePublicMessage
  end.

(** The trait [MlsRules]. *)
Class MlsRules (R : Type) := {
  filter_proposals : R → CommitDirection → CommitOrigin → Roster → ExtensionList.t → ProposalBundle → AnyError + ProposalBundle;
  commit_options : R → Roster → ExtensionList.t → ProposalBundle → AnyError + CommitOptions;
  encryption_options : R → Roster → ExtensionList.t → AnyError + EncryptionOptions;
}.

(** [.map_err(|e| MlsError::MlsRulesError(e.into_any_error()))]. *)
Definition rules {A} (r : AnyError + A) : Result MlsError A :=
  match r with inl e => Err (MlsRulesError e) | inr a => Ok a end.

Record DefaultMlsRules := { default_commit_options : CommitOptions; default_encryption_options : EncryptionOptions }.

Definition with_commit_options (r : DefaultMlsRules) (o : CommitOptions) : DefaultMlsRules :=
  {| default_commit_options := o; default_encryption_options := default_encryption_options r |}.
Definition with_encryption_options (r : DefaultMlsRules) (o : EncryptionOptions) : DefaultMlsRules :=
  {| default_commit_options := default_commit_options r; default_encryption_options := o |}.

#[export] Instance default_rules : MlsRules DefaultMlsRules := {|
  filter_proposals _ _ _ _ _ b := inr b;
  commit_options r _ _ _ := inr (default_commit_options r);
  encryption_options r _ _ := inr (default_encryption_options r) |}.

(** ** Facts *)
Section sort.
Context {A : Type} (key : A → Z).

Let le (a b : A) : Prop := key a ≤ key b.

Lemma insert_by_key_perm a l : insert_by_key key a l ≡ₚ a :: l.
Proof.
  induction l as [|b l IH]; [done|]. cbn. destruct (key a <=? key b); [done|]. rewrite IH. apply Permutation_swap.
Qed.

Lemma sort_by_key_perm l : sort_by_key key l ≡ₚ l.
Proof. induction l as [|a l IH]; [done|]. cbn. by rewrite insert_by_key_perm, IH. Qed.

Lemma insert_by_key_hd a b l : HdRel le b l → le b a → HdRel le b (insert_by_key key a l).
Proof. intros Hb Hab. destruct l as [|c l]; cbn; [by constructor|]. destruct (key a <=? key c); [by constructor|]. by inversion Hb; constructor. Qed.

Lemma insert_by_key_sorted a l : Sorted le l → Sorted le (insert_by_key key a l).
Proof.
  induction 1 as [|b l Hs IH Hb]; cbn; [by repeat constructor|]. destruct (Z.leb_spec (key a) (key b)).
  - constructor; [by constructor|by constructor].
  - constructor; [done|]. apply insert_by_key_hd; [done|]. unfold le. lia.
Qed.

Lemma sort_by_key_sorted l : Sorted le (sort_by_key key l).
Proof. induction l as [|a l IH]; cbn; [constructor|]. by apply insert_by_key_sorted. Qed.
End sort.
