(* ===== verification/Provisional.v ===== *)
(** * The provisional state of a commit
    (mls-rs/src/group/proposal_cache.rs, message_processor.rs, util.rs,
    tree_kem/update_path.rs)

    From the state of a group and the proposals of a commit to the state the commit
    would lead to, before its path is applied: the same function for the committer,
    which filters, and for the receivers, which check. *)
From S2P Require Import Prelude Codec TreeMath Types Node TreeIndex Extensions Crypto TreeHash Proposal TreeKem GroupContext Validator Kem Epoch Storage GroupState ProposalFilter Rules.

Record ProvisionalState := {
  ps_tree : TreeKemPublic;
  ps_applied : ProposalBundle;
  ps_context : GroupContext;
  ps_external_init_index : option Z;
  ps_added : list Z;
  ps_unused : list (ProposalInfo Proposal);
}.

(** Replacing fields of a context and of a provisional state. *)
Definition with_epoch_and_extensions (c : GroupContext) (n : Z) (e : ExtensionList.t) : GroupContext := {|
  protocol_version := protocol_version c; gc_cipher_suite := gc_cipher_suite c; group_id := group_id c;
  epoch := n; tree_hash := tree_hash c; confirmed_transcript_hash := confirmed_transcript_hash c; gc_extensions := e |}.
Definition with_transcript_hash (c : GroupContext) (h : bytes) : GroupContext := {|
  protocol_version := protocol_version c; gc_cipher_suite := gc_cipher_suite c; group_id := group_id c;
  epoch := epoch c; tree_hash := tree_hash c; confirmed_transcript_hash := h; gc_extensions := gc_extensions c |}.
Definition set_tree (p : ProvisionalState) (t : TreeKemPublic) : ProvisionalState := {|
  ps_tree := t; ps_applied := ps_applied p; ps_context := ps_context p;
  ps_external_init_index := ps_external_init_index p; ps_added := ps_added p; ps_unused := ps_unused p |}.
Definition set_context (p : ProvisionalState) (c : GroupContext) : ProvisionalState := {|
  ps_tree := ps_tree p; ps_applied := ps_applied p; ps_context := c;
  ps_external_init_index := ps_external_init_index p; ps_added := ps_added p; ps_unused := ps_unused p |}.

(** [path_update_required]. *)
Definition path_update_required (b : ProposalBundle) : bool :=
  bool_decide (is_Some (head (external_initializations b))) || non_empty (updates b) || (bundle_length b =? 0) ||
  bool_decide (is_Some (group_context_extensions_proposal b)) || non_empty (removals b).

(** [commit_sender]. *)
Definition commit_sender (s : Sender) (p : ProvisionalState) : Result MlsError Z :=
  match s with
  | Member i => Ok i
  | External _ => Err ExternalSenderCannotCommit
  | NewMemberProposal => Err ExpectedAddProposalForNewMemberProposal
  | NewMemberCommit => ok_or (ps_external_init_index p) ExternalCommitMissingExternalInit
  end.

(** ** [GroupState::apply_resolved] *)
Section apply.
Context {order : MapOrder} {P R : Type} `{!PreSharedKeyStorage P} `{!MlsRules R}.
Context (ip : IdentityProvider) (csp : CipherSuiteProvider) (store : P) (user_rules : R).

Definition commit_origin (state : GroupState) (sender : Sender) (leaf : option LeafNode) : Result MlsError CommitOrigin :=
  match sender with
  | Member i => m ← member_with_index (roster_of (public_tree state)) i; Ok (ExistingMember m)
  | NewMemberProposal | External _ => Err InvalidSender
  | NewMemberCommit => s ← ok_or (signing_identity <$> leaf) ExternalCommitMustHaveNewLeaf; Ok (NewMember s)
  end.

Definition applier (state : GroupState) (leaf : option LeafNode) : ProposalApplier P := {|
  original_tree := public_tree state;
  pa_protocol_version := protocol_version (gs_context state);
  cipher_suite_provider := csp;
  original_group_extensions := gc_extensions (gs_context state);
  external_leaf := leaf;
  identity_provider := ip;
  psk_storage := store;
  pa_group_id := group_id (gs_context state) |}.

Definition strategy_of (d : CommitDirection) : FilterStrategy := match d with Send => IgnoreByRef | Receive => IgnoreNone end.

(** The proposals among which the unused ones are looked for. *)
Definition candidates (state : GroupState) (d : CommitDirection) (all : ProposalBundle) : ProposalBundle :=
  match d with
  | Send => all
  | Receive => bundle_from_iter (by_reference <$> map_iter (cached_proposals (gs_proposals state)))
  end.

Definition apply_resolved (state : GroupState) (sender : Sender) (b : ProposalBundle) (leaf : option LeafNode)
    (commit_time : option Z) (d : CommitDirection) : Result MlsError ProvisionalState :=
  origin ← commit_origin state sender leaf;
  b' ← rules (filter_proposals user_rules d origin (roster_of (public_tree state)) (gc_extensions (gs_context state)) b);
  output ← apply_proposals (applier state leaf) (strategy_of d) sender b' commit_time;
  let context := gs_context state in
  Ok {| ps_tree := new_tree output;
        ps_applied := applied_proposals output;
        ps_context := with_epoch_and_extensions context (wrap 64 (epoch context + 1))
                        (default (gc_extensions context) (new_context_extensions output));
        ps_external_init_index := external_init_index output;
        ps_added := indexes_of_added_kpkgs output;
        ps_unused := unused_proposals (candidates state d b) (applied_proposals output) |}.
End apply.

(** ** [validate_update_path] *)
Definition check_successor (ip : IdentityProvider) (exts : ExtensionList.t) (t : TreeKemPublic) (sender : Z) (leaf : LeafNode)
    : Result MlsError unit :=
  existing_leaf ← Node.borrow_as_leaf (nodes t) sender;
  v ← provider (ip_valid_successor ip (signing_identity existing_leaf) (signing_identity leaf) exts);
  guard_or v InvalidSuccessor;;
  guard_or (negb (bool_decide (leaf_public_key existing_leaf = leaf_public_key leaf))) (SameHpkeKey sender).

Definition validate_update_path (ip : IdentityProvider) (csp : CipherSuiteProvider) (path : Kem.UpdatePath)
    (state : ProvisionalState) (sender : Z) (commit_time : option Z) : Result MlsError Kem.ValidatedUpdatePath :=
  let exts := gc_extensions (ps_context state) in
  let leaf := Kem.up_leaf_node path in
  check_if_valid csp ip (Some exts) leaf (CommitContext (group_id (ps_context state)) sender commit_time);;
  (if non_empty (external_initializations (ps_applied state)) then Ok tt
   else check_successor ip exts (ps_tree state) sender leaf);;
  filtered ← Node.filtered (nodes (ps_tree state)) sender;
  unfiltered ← Kem.unfilter filtered (Kem.up_nodes path);
  Ok {| Kem.v_leaf_node := leaf; Kem.v_nodes := unfiltered |}.
