(* ===== verification/MessageProcessor.v ===== *)
(** * Processing messages (mls-rs/src/group/message_processor.rs, util.rs)

    What a member and an observer do with an incoming message.  The trait
    [MessageProcessor] is the class of that name: its required methods are the
    fields, its provided methods the definitions over them.  A processor [G] holds
    the public state of the group; what a failing method has changed before the
    error stays changed. *)
From Stdlib Require Import Strings.String.
From S2P Require Import Prelude Codec TreeMath Types Node TreeIndex Extensions Crypto Labels TreeHash Proposal TreeKem GroupContext Validator Kem Framing Epoch Storage GroupState Auth ProposalFilter Rules Provisional.

Import Node.

(** ** What is reported to the application *)
Record StateUpdate := {
  roster_update : RosterUpdate;
  added_psks : list bytes;
  su_pending_reinit : option Z;
  active : bool;
  su_epoch : Z;
  su_custom_proposals : list (ProposalInfo CustomProposal);
  su_unused_proposals : list (ProposalInfo Proposal);
}.

Definition deactivate (u : StateUpdate) : StateUpdate := {|
  roster_update := roster_update u; added_psks := added_psks u; su_pending_reinit := su_pending_reinit u;
  active := false; su_epoch := su_epoch u; su_custom_proposals := su_custom_proposals u;
  su_unused_proposals := su_unused_proposals u |}.

Definition is_pending_reinit (u : StateUpdate) : bool := bool_decide (is_Some (su_pending_reinit u)).

Record ApplicationMessageDescription := { sender_index : Z; am_data : bytes; am_authenticated_data : bytes }.

Record CommitMessageDescription := {
  is_external : bool;
  committer : Z;
  state_update : StateUpdate;
  cm_authenticated_data : bytes;
}.

Inductive ProposalSender := ProposalMember (i : Z) | ProposalExternal (i : Z) | ProposalNewMember.

(** [TryFrom<Sender>]. *)
Definition proposal_sender (s : Sender) : Result MlsError ProposalSender :=
  match s with
  | Member i => Ok (ProposalMember i)
  | External i => Ok (ProposalExternal i)
  | NewMemberProposal => Ok ProposalNewMember
  | NewMemberCommit => Err InvalidSender
  end.

Record ProposalMessageDescription := {
  pd_sender : ProposalSender;
  pd_proposal : Proposal;
  pd_authenticated_data : bytes;
  pd_proposal_ref : bytes;
}.

(** The cached proposal an application may keep for an observer, and its format. *)
Record ReceivedProposal := { rp_proposal : Proposal; rp_proposal_ref : bytes; rp_sender : Sender }.

Definition received_proposal_codec : MlsCodec ReceivedProposal :=
  struct_codec (λ p, (rp_proposal p, (rp_proposal_ref p, rp_sender p)))
    (λ '(a, (b, c)), {| rp_proposal := a; rp_proposal_ref := b; rp_sender := c |})
    (tuple_codec proposal_codec (tuple_codec byte_vec_codec sender_codec)).

Definition received_from_bytes (b : bytes) : Result MlsError ReceivedProposal :=
  '(p, _) ← from_codec_error (mls_decode received_proposal_codec b); Ok p.
Definition received_to_bytes (p : ReceivedProposal) : Result MlsError bytes :=
  from_codec_error (mls_encode_to_vec received_proposal_codec p).

Definition cached_proposal (d : ProposalMessageDescription) : ReceivedProposal := {|
  rp_proposal := pd_proposal d; rp_proposal_ref := pd_proposal_ref d;
  rp_sender := match pd_sender d with
               | ProposalMember i => Member i
               | ProposalExternal i => External i
               | ProposalNewMember => NewMemberProposal
               end |}.

Inductive ReceivedMessage :=
  | ApplicationMessage (d : ApplicationMessageDescription)
  | CommitMessage (d : CommitMessageDescription)
  | ProposalMessage (d : ProposalMessageDescription)
  | GroupInfoMessage (g : GroupInfo)
  | WelcomeMessage
  | KeyPackageMessage (k : KeyPackage).

Inductive EventOrContent (E : Type) := Event (e : E) | AuthContent (a : AuthenticatedContent).
Arguments Event {E} e.
Arguments AuthContent {E} a.

(** The conversions the trait asks of its [OutputType]. *)
Class OutputType (E : Type) := {
  out_application : ApplicationMessageDescription → Result MlsError E;
  out_commit : CommitMessageDescription → E;
  out_proposal : ProposalMessageDescription → E;
  out_group_info : GroupInfo → E;
  out_welcome : Welcome → E;
  out_key_package : KeyPackage → E;
}.

#[export] Instance received_message_output : OutputType ReceivedMessage := {|
  out_application d := Ok (ApplicationMessage d); out_commit := CommitMessage; out_proposal := ProposalMessage;
  out_group_info := GroupInfoMessage; out_welcome _ := WelcomeMessage; out_key_package := KeyPackageMessage |}.

(** ** Equality as the code compares: extension lists without order *)
Definition node_eqb (a b : Node) : bool :=
  match a, b with
  | Leaf l, Leaf k => leaf_node_eqb l k
  | ParentNode p, ParentNode q => bool_decide (p = q)
  | _, _ => false
  end.

Definition option_eqb {A} (eqb : A → A → bool) (a b : option A) : bool :=
  match a, b with Some a, Some b => eqb a b | None, None => true | _, _ => false end.

Fixpoint list_eqb {A} (eqb : A → A → bool) (l k : list A) : bool :=
  match l, k with
  | [], [] => true
  | a :: l, b :: k => eqb a b && list_eqb eqb l k
  | _, _ => false
  end.

Definition node_vec_eqb : NodeVec → NodeVec → bool := list_eqb (option_eqb node_eqb).

Definition group_context_eqb (c d : GroupContext) : bool :=
  (protocol_version c =? protocol_version d) && (gc_cipher_suite c =? gc_cipher_suite d) &&
  bool_decide (group_id c = group_id d) && (epoch c =? epoch d) && bool_decide (tree_hash c = tree_hash d) &&
  bool_decide (confirmed_transcript_hash c = confirmed_transcript_hash d) &&
  ExtensionList.eqb (gc_extensions c) (gc_extensions d).

(** ** Group information: util.rs *)
Definition verify_group_info (csp : CipherSuiteProvider) (key : bytes) (g : GroupInfo) : Result MlsError unit :=
  verify csp key (ascii "GroupInfoTBS") (group_info_tbs g) (gi_signature g).

Definition validate_group_info_common (msg_version : Z) (g : GroupInfo) (t : TreeKemPublic) (csp : CipherSuiteProvider)
    : Result MlsError unit :=
  if negb (msg_version =? protocol_version (gi_group_context g)) then Err ProtocolVersionMismatch
  else if negb (gc_cipher_suite (gi_group_context g) =? csp_cipher_suite csp) then Err CipherSuiteMismatch
  else
    sender_leaf ← TreeKem.get_leaf_node t (gi_signer g);
    verify_group_info csp (signature_key (signing_identity sender_leaf)) g.

Definition validate_group_info_member (state : GroupState) (msg_version : Z) (g : GroupInfo) (csp : CipherSuiteProvider)
    : Result MlsError unit :=
  validate_group_info_common msg_version g (public_tree state) csp;;
  tree ← from_extension_error (get_as (E:=RatchetTreeExt) (gi_extensions g));
  match tree with
  | Some tree => guard_or (node_vec_eqb (tree_data tree) (nodes (public_tree state))) InvalidGroupInfo
  | None => Ok tt
  end;;
  guard_or (group_context_eqb (gi_group_context g) (gs_context state) &&
            bool_decide (gi_confirmation_tag g = gs_confirmation_tag state)) InvalidGroupInfo.

Definition validate_group_info_joiner (msg_version : Z) (g : GroupInfo) (tree : option NodeVec) (ip : IdentityProvider)
    (csp : CipherSuiteProvider) : Result MlsError TreeKemPublic :=
  ext ← from_extension_error (get_as (E:=RatchetTreeExt) (gi_extensions g));
  ns ← (match ext with Some e => Ok (tree_data e) | None => ok_or tree RatchetTreeNotFound end);
  let context := gi_group_context g in
  t ← TreeKem.import_node_data ip (gc_extensions context) ns;
  t ← validate_tree csp ip context t;
  senders ← from_extension_error (get_as (E:=ExternalSendersExt) (gc_extensions context));
  match senders with
  | Some e => provider (verify_all ip None (gc_extensions context) (allowed_senders e))
  | None => Ok tt
  end;;
  validate_group_info_common msg_version g t csp;;
  Ok t.

(** Writing a field of the public state. *)
Definition with_cache (s : GroupState) (c : ProposalCache) : GroupState := {|
  gs_proposals := c; gs_context := gs_context s; public_tree := public_tree s;
  interim_transcript_hash := interim_transcript_hash s; pending_reinit := pending_reinit s;
  gs_confirmation_tag := gs_confirmation_tag s |}.
Definition with_pending_reinit (s : GroupState) (r : ReInitProposal) : GroupState := {|
  gs_proposals := gs_proposals s; gs_context := gs_context s; public_tree := public_tree s;
  interim_transcript_hash := interim_transcript_hash s; pending_reinit := Some r;
  gs_confirmation_tag := gs_confirmation_tag s |}.

(** [Vec::pop]. *)
Definition pop {A} (l : list A) : option A * list A := (last l, removelast l).

(** The private tree and the commit secret that an update path brings. *)
Notation CommitSecrets := (Kem.TreeKemPrivate * bytes)%type.

(** ** The trait *)
Class MessageProcessor (G E R P : Type) `{!OutputType E} `{!MlsRules R} `{!PreSharedKeyStorage P} := {
  group_state : G → GroupState;
  set_group_state : G → GroupState → G;
  mls_rules : G → R;
  mp_identity_provider : G → IdentityProvider;
  mp_cipher_suite_provider : G → CipherSuiteProvider;
  mp_psk_storage : G → P;
  can_continue_processing : G → ProvisionalState → bool;
  min_epoch_available : G → option Z;
  process_ciphertext : G → PrivateMessage → Result MlsError (EventOrContent E) * G;
  verify_plaintext : G → PublicMessage → Result MlsError (EventOrContent E);
  mp_apply_update_path : G → Z → Kem.ValidatedUpdatePath → ProvisionalState →
    Result MlsError (option CommitSecrets * ProvisionalState) * G;
  update_key_schedule : G → option CommitSecrets → bytes → bytes → ProvisionalState → Result MlsError unit * G;
}.

(** The provided [apply_update_path], which an observer uses. *)
Definition path_keys (v : Kem.ValidatedUpdatePath) : list (option bytes) :=
  fmap (M:=list) (fmap (M:=option) Kem.up_public_key) (Kem.v_nodes v).

Definition public_apply_update_path (ip : IdentityProvider) (csp : CipherSuiteProvider) (sender : Z)
    (path : Kem.ValidatedUpdatePath) (p : ProvisionalState) : Result MlsError ProvisionalState :=
  t ← TreeKem.apply_update_path ip (gc_extensions (ps_context p)) csp (ps_tree p) sender (Kem.v_leaf_node path) (path_keys path);
  Ok (set_tree p t).

Section processor.
Context {order : MapOrder} {G E R P : Type} `{!OutputType E} `{!MlsRules R} `{!PreSharedKeyStorage P} `{!MessageProcessor G E R P}.

(** ** Messages that are not for this epoch or this group *)
Definition check_epoch (g : G) (t : ContentType) (n : Z) : Result MlsError unit :=
  match t with
  | CommitType | ProposalType => if negb (epoch (gs_context (group_state g)) =? n) then Err InvalidEpoch else Ok tt
  | ApplicationType =>
      match min_epoch_available g with
      | Some m => if n <? m then Err InvalidEpoch else Ok tt
      | None => Ok tt
      end
  end.

(** The metadata of a message that carries content. *)
Definition metadata (m : MlsMessage) : option (bytes * Z * ContentType) :=
  match payload m with
  | Plain p => Some (fc_group_id (pm_content p), fc_epoch (pm_content p), content_type (fc_content (pm_content p)))
  | Cipher c => Some (pr_group_id c, pr_epoch c, pr_content_type c)
  | _ => None
  end.

Definition is_cipher (m : MlsMessage) : bool := match payload m with Cipher _ => true | _ => false end.

Definition check_metadata (g : G) (m : MlsMessage) : Result MlsError unit :=
  let context := gs_context (group_state g) in
  if negb (msg_version m =? protocol_version context) then Err ProtocolVersionMismatch
  else
    match metadata m with
    | Some (gid, n, t) =>
        if negb (bool_decide (gid = group_id context)) then Err GroupIdMismatch
        else
          check_epoch g t n;;
          if (bool_decide (t = CommitType) || bool_decide (t = ProposalType)) && negb (n =? epoch context) then Err InvalidEpoch
          else if negb (is_cipher m) && bool_decide (t = ApplicationType) then Err UnencryptedApplicationMessage
          else Ok tt
    | None => Ok tt
    end.

Definition validate_welcome (g : G) (w : Welcome) (version : Z) : Result MlsError unit :=
  let context := gs_context (group_state g) in
  guard_or ((w_cipher_suite w =? gc_cipher_suite context) && (version =? protocol_version context)) InvalidWelcomeMessage.

(** [get_event_from_incoming_message], at the time [now]. *)
Definition get_event_from_incoming_message (g : G) (now : Z) (m : MlsMessage) : Result MlsError (EventOrContent E) * G :=
  try _, g ← st_lift (check_metadata g m) g;
  match payload m with
  | Plain p => st_lift (verify_plaintext g p) g
  | Cipher c => process_ciphertext g c
  | GroupInfoPayload i =>
      try _, g ← st_lift (validate_group_info_member (group_state g) (msg_version m) i (mp_cipher_suite_provider g)) g;
      (Ok (Event (out_group_info i)), g)
  | WelcomePayload w =>
      try _, g ← st_lift (validate_welcome g w (msg_version m)) g;
      (Ok (Event (out_welcome w)), g)
  | KeyPackagePayload k =>
      try _, g ← st_lift (validate_key_package (mp_cipher_suite_provider g) (mp_identity_provider g) now k (msg_version m)) g;
      (Ok (Event (out_key_package k)), g)
  end.

(** ** Application messages and proposals *)
Definition process_application_message (data : bytes) (sender : Sender) (authenticated_data : bytes)
    : Result MlsError ApplicationMessageDescription :=
  match sender with
  | Member i => Ok {| sender_index := i; am_data := data; am_authenticated_data := authenticated_data |}
  | _ => Err InvalidSender
  end.

Definition process_proposal (g : G) (a : AuthenticatedContent) (p : Proposal) (cache_proposal : bool)
    : Result MlsError ProposalMessageDescription * G :=
  try r, g ← st_lift (proposal_ref_from_content (mp_cipher_suite_provider g) a) g;
  let g := if cache_proposal
           then let s := group_state g in
                set_group_state g (with_cache s (cache_insert (gs_proposals s) r p (fc_sender (content a))))
           else g in
  try sender, g ← st_lift (proposal_sender (fc_sender (content a))) g;
  (Ok {| pd_sender := sender; pd_proposal := p; pd_authenticated_data := fc_authenticated_data (content a);
         pd_proposal_ref := r |}, g).

(** ** Commits *)
Definition removed_members (t : TreeKemPublic) (b : ProposalBundle) : Result MlsError (list RosterMember) :=
  mapM_res (λ p, l ← borrow_as_leaf (nodes t) (proposal p); Ok (member_from_leaf_node l (proposal p))) (removals b).

Definition updated_members (old new : TreeKemPublic) (b : ProposalBundle) : Result MlsError (list MemberUpdate) :=
  mapM_res (λ i,
    l ← TreeKem.get_leaf_node old i;
    k ← TreeKem.get_leaf_node new i;
    Ok {| prior := member_from_leaf_node l i; updated_to := member_from_leaf_node k i |}) (update_senders b).

Definition external_psk_id (p : PreSharedKeyID) : option bytes :=
  match key_id p with ExternalPsk id => Some id | _ => None end.

Definition make_state_update (g : G) (p : ProvisionalState) (path : option Kem.UpdatePath) (sender : Z)
    : Result MlsError StateUpdate :=
  let b := ps_applied p in
  let old_tree := public_tree (group_state g) in
  let added := zip_with (λ k i, member_from_key_package (proposal k) i) (additions b) (ps_added p) in
  removed ← removed_members old_tree b;
  updated ← updated_members old_tree (ps_tree p) b;
  '(added, updated) ← (match path with
    | Some path =>
        let new := member_from_leaf_node (Kem.up_leaf_node path) sender in
        if non_empty (external_initializations b) then Ok (added ++ [new], updated)
        else
          l ← TreeKem.get_leaf_node old_tree sender;
          Ok (added, updated ++ [{| prior := member_from_leaf_node l sender; updated_to := new |}])
    | None => Ok (added, updated)
    end);
  Ok {| roster_update := roster_update_new added removed updated;
        added_psks := omap (λ q, external_psk_id (proposal q)) (Proposal.psks b);
        su_pending_reinit := (λ r, reinit_cipher_suite (proposal r)) <$> head (reinitializations b);
        active := true;
        su_epoch := epoch (ps_context p);
        su_custom_proposals := custom_proposals b;
        su_unused_proposals := ps_unused p |}.

Definition describe (a : AuthenticatedContent) (sender : Z) (u : StateUpdate) : CommitMessageDescription := {|
  is_external := bool_decide (fc_sender (content a) = NewMemberCommit);
  committer := sender; state_update := u; cm_authenticated_data := fc_authenticated_data (content a) |}.

Definition set_applied (p : ProvisionalState) (b : ProposalBundle) : ProvisionalState := {|
  ps_tree := ps_tree p; ps_applied := b; ps_context := ps_context p;
  ps_external_init_index := ps_external_init_index p; ps_added := ps_added p; ps_unused := ps_unused p |}.

(** From the commit to the provisional state, before anything is changed. *)
Definition provisional_of_commit (g : G) (a : AuthenticatedContent) (commit : Commit) (time_sent : option Z)
    : Result MlsError ProvisionalState :=
  let state := group_state g in
  b ← resolve_for_commit (gs_proposals state) (fc_sender (content a)) (commit_proposals commit);
  apply_resolved (mp_identity_provider g) (mp_cipher_suite_provider g) (mp_psk_storage g) (mls_rules g) state
    (fc_sender (content a)) b (Kem.up_leaf_node <$> commit_path commit) time_sent Receive.

(** The hashes of the new context, once the path is applied. *)
Definition finish_context (csp : CipherSuiteProvider) (p : ProvisionalState) (confirmed : bytes) (sender : Z)
    : Result MlsError ProvisionalState :=
  let p := set_context p (with_transcript_hash (ps_context p) confirmed) in
  t ← TreeHash.update_hashes csp (ps_tree p) [sender];
  '(h, t) ← TreeHash.root_hash csp t;
  Ok (set_context (set_tree p t) (with_tree_hash (ps_context p) h)).

(** The pending reinitialization is recorded before the confirmation tag is
    checked. *)
Definition take_reinit (g : G) (p : ProvisionalState) (u : StateUpdate) : G * ProvisionalState * StateUpdate :=
  match pop (reinitializations (ps_applied p)) with
  | (Some r, rest) =>
      (set_group_state g (with_pending_reinit (group_state g) (proposal r)),
       set_applied p (set_reinits rest (ps_applied p)), deactivate u)
  | (None, _) => (g, p, u)
  end.

(** The path of the commit, if it has one. *)
Definition process_path (g : G) (p : ProvisionalState) (path : option Kem.UpdatePath) (sender : Z) (time_sent : option Z)
    : Result MlsError (option CommitSecrets * ProvisionalState) * G :=
  match path with
  | Some path =>
      try v, g ← st_lift (validate_update_path (mp_identity_provider g) (mp_cipher_suite_provider g) path p sender time_sent) g;
      mp_apply_update_path g sender v p
  | None => (Ok (None, p), g)
  end.

Definition process_commit (g : G) (a : AuthenticatedContent) (time_sent : option Z)
    : Result MlsError CommitMessageDescription * G :=
  if bool_decide (is_Some (pending_reinit (group_state g))) then (Err GroupUsedAfterReInit, g)
  else
    let csp := mp_cipher_suite_provider g in
    try (interim, confirmed), g ← st_lift (transcript_hashes csp (interim_transcript_hash (group_state g)) a) g;
    try commit, g ← st_lift (match fc_content (content a) with CommitContent c => Ok c | _ => Err UnexpectedMessageType end) g;
    try p, g ← st_lift (provisional_of_commit g a commit time_sent) g;
    try sender, g ← st_lift (commit_sender (fc_sender (content a)) p) g;
    try u, g ← st_lift (make_state_update g p (commit_path commit) sender) g;
    if path_update_required (ps_applied p) && bool_decide (commit_path commit = None) then (Err CommitMissingPath, g)
    else if negb (can_continue_processing g p) then (Ok (describe a sender (deactivate u)), g)
    else
      try (secrets, p), g ← process_path g p (commit_path commit) sender time_sent;
      try p, g ← st_lift (finish_context csp p confirmed sender) g;
      let '(g, p, u) := take_reinit g p u in
      match confirmation_tag (auth a) with
      | Some tag =>
          try _, g ← update_key_schedule g secrets interim tag p;
          (Ok (describe a sender u), g)
      | None => (Err InvalidConfirmationTag, g)
      end.

(** ** Every message *)
Definition process_auth_content (g : G) (a : AuthenticatedContent) (cache_proposal : bool) (time_sent : option Z)
    : Result MlsError E * G :=
  match fc_content (content a) with
  | ApplicationContent data =>
      st_lift (d ← process_application_message data (fc_sender (content a)) (fc_authenticated_data (content a)); out_application d) g
  | CommitContent _ => try d, g ← process_commit g a time_sent; (Ok (out_commit d), g)
  | ProposalContent p => try d, g ← process_proposal g a p cache_proposal; (Ok (out_proposal d), g)
  end.

Definition process_event_or_content (g : G) (e : EventOrContent E) (cache_proposal : bool) (time_sent : option Z)
    : Result MlsError E * G :=
  match e with
  | Event e => (Ok e, g)
  | AuthContent a => process_auth_content g a cache_proposal time_sent
  end.

Definition process_incoming_message_with_time (g : G) (now : Z) (m : MlsMessage) (cache_proposal : bool) (time_sent : option Z)
    : Result MlsError E * G :=
  try e, g ← get_event_from_incoming_message g now m;
  process_event_or_content g e cache_proposal time_sent.

Definition process_incoming_message (g : G) (now : Z) (m : MlsMessage) (cache_proposal : bool) : Result MlsError E * G :=
  process_incoming_message_with_time g now m cache_proposal None.
End processor.
