(* ===== verification/ProcessorLaws.v ===== *)
(** * What processing a message does to the public state
    (mls-rs/src/group/message_processor.rs)

    [MessageProcessorLaws] is what the provided methods of the trait rely on in the
    required ones.  Against it, every message takes the public state of a group one
    step of an abstract machine: the state stays, a proposal is cached, the cache is
    cleared, a commit starts the next epoch, or a reinitialization becomes pending.  From the steps
    follow the invariants of a whole run. *)
From S2P Require Import Prelude Codec Types Node TreeIndex Extensions Crypto TreeHash Proposal GroupContext Validator Kem Framing Epoch Storage GroupState Auth ProposalFilter Rules Provisional MessageProcessor.

(** The state a commit leads to. *)
Definition next_state (s : GroupState) (p : ProvisionalState) (interim tag : bytes) : GroupState := {|
  gs_proposals := cache_clear (gs_proposals s); gs_context := ps_context p; public_tree := ps_tree p;
  interim_transcript_hash := interim; pending_reinit := pending_reinit s; gs_confirmation_tag := tag |}.

Class MessageProcessorLaws (G E R P : Type) `{!OutputType E} `{!MlsRules R} `{!PreSharedKeyStorage P}
    `{!MessageProcessor G E R P} : Prop := {
  mp_set_state (g : G) s : group_state (set_group_state g s) = s;
  mp_set_csp (g : G) s : mp_cipher_suite_provider (set_group_state g s) = mp_cipher_suite_provider g;
  mp_cipher_state (g : G) m : group_state (process_ciphertext g m).2 = group_state g;
  mp_cipher_csp (g : G) m : mp_cipher_suite_provider (process_ciphertext g m).2 = mp_cipher_suite_provider g;
  mp_path_state (g : G) i v p : group_state (mp_apply_update_path g i v p).2 = group_state g;
  mp_path_csp (g : G) i v p : mp_cipher_suite_provider (mp_apply_update_path g i v p).2 = mp_cipher_suite_provider g;
  mp_path_result (g : G) i v p x p' : (mp_apply_update_path g i v p).1 = Ok (x, p') →
    ps_applied p' = ps_applied p ∧ with_tree_hash (ps_context p) (tree_hash (ps_context p')) = ps_context p';
  mp_schedule_csp (g : G) x i t p : mp_cipher_suite_provider (update_key_schedule g x i t p).2 = mp_cipher_suite_provider g;
  mp_schedule_state (g : G) x i t p : group_state (update_key_schedule g x i t p).2 =
    match (update_key_schedule g x i t p).1 with Ok _ => next_state (group_state g) p i t | _ => group_state g end;
}.

(** ** The abstract machine *)

(** [s'] is the state after commit [a]. *)
Record accepted_commit (csp : CipherSuiteProvider) (s : GroupState) (a : AuthenticatedContent) (s' : GroupState) : Prop := {
  ac_pending : pending_reinit s = None;
  ac_hashes : transcript_hashes csp (interim_transcript_hash s) a =
    Ok (interim_transcript_hash s', confirmed_transcript_hash (gs_context s'));
  ac_tag : confirmation_tag (auth a) = Some (gs_confirmation_tag s');
  ac_tree : ∃ t, TreeHash.root_hash csp t = Ok (tree_hash (gs_context s'), public_tree s');
  ac_epoch : epoch (gs_context s') = wrap 64 (epoch (gs_context s) + 1);
  ac_version : protocol_version (gs_context s') = protocol_version (gs_context s);
  ac_suite : gc_cipher_suite (gs_context s') = gc_cipher_suite (gs_context s);
  ac_group : group_id (gs_context s') = group_id (gs_context s);
  ac_cache : gs_proposals s' = cache_clear (gs_proposals s);
}.

Inductive public_step (csp : CipherSuiteProvider) : GroupState → option AuthenticatedContent → GroupState → Prop :=
  | StepNone s : public_step csp s None s
  | StepCache s r p sender : public_step csp s None (with_cache s (cache_insert (gs_proposals s) r p sender))
  | StepClear s : public_step csp s None (with_cache s (cache_clear (gs_proposals s)))
  | StepReInit s r : pending_reinit s = None → public_step csp s None (with_pending_reinit s r)
  | StepCommit s a s' : accepted_commit csp s a s' → public_step csp s (Some a) s'.

(** A property of the result of a method and of the state it leaves. *)
Lemma lift_cases {E A B G} (Q : Result E B → G → Prop) (r : Result E A) (g : G) (k : A → G → Result E B * G) :
  (∀ x, r = Ok x → Q (k x g).1 (k x g).2) → (∀ e : Result E B, is_ok e = false → Q e g) →
  Q (st_bind (st_lift r g) k).1 (st_bind (st_lift r g) k).2.
Proof. intros Hok Herr. destruct r; cbn; [by apply Hok|by apply Herr..]. Qed.

Lemma method_cases {E A B G} (Q : Result E B → G → Prop) (m : Result E A * G) (k : A → G → Result E B * G) :
  (∀ x, m.1 = Ok x → Q (k x m.2).1 (k x m.2).2) → (∀ e : Result E B, is_ok e = false → is_ok m.1 = false → Q e m.2) →
  Q (st_bind m k).1 (st_bind m k).2.
Proof. intros Hok Herr. destruct m as [[] g]; cbn; [by apply Hok|by apply Herr..]. Qed.

Lemma apply_resolved_context {order : MapOrder} {P R} `{!PreSharedKeyStorage P} `{!MlsRules R} ip csp (store : P) (user_rules : R)
    state sender b leaf time d p :
  apply_resolved ip csp store user_rules state sender b leaf time d = Ok p →
  ∃ exts, ps_context p = with_epoch_and_extensions (gs_context state) (wrap 64 (epoch (gs_context state) + 1)) exts.
Proof.
  intros (o & _ & H)%bind_ok. apply bind_ok in H as (b' & _ & H). apply bind_ok in H as (out & _ & [= <-]). by eexists.
Qed.

Lemma finish_context_inv csp p confirmed sender p' :
  finish_context csp p confirmed sender = Ok p' →
  ∃ t h tree, TreeHash.root_hash csp t = Ok (h, tree) ∧ ps_tree p' = tree ∧ ps_applied p' = ps_applied p ∧
    ps_context p' = with_tree_hash (with_transcript_hash (ps_context p) confirmed) h.
Proof.
  unfold finish_context. intros (t & _ & H)%bind_ok. apply bind_ok in H as ([h tree] & Hh & [= <-]). by exists t, h, tree.
Qed.

(** The state built from the pieces that [process_commit] has computed. *)
Lemma next_state_accepted csp s s2 a p2 p3 exts interim confirmed h tag :
  pending_reinit s = None → transcript_hashes csp (interim_transcript_hash s) a = Ok (interim, confirmed) →
  confirmation_tag (auth a) = Some tag → (∃ t, TreeHash.root_hash csp t = Ok (h, ps_tree p3)) →
  ps_context p2 = with_tree_hash (with_epoch_and_extensions (gs_context s) (wrap 64 (epoch (gs_context s) + 1)) exts) (tree_hash (ps_context p2)) →
  ps_context p3 = with_tree_hash (with_transcript_hash (ps_context p2) confirmed) h →
  gs_proposals s2 = gs_proposals s →
  accepted_commit csp s a (next_state s2 p3 interim tag).
Proof.
  intros Hpend Hh Htag Ht H2 H3 Hcache.
  split; cbn [next_state gs_context gs_proposals public_tree interim_transcript_hash pending_reinit gs_confirmation_tag];
    rewrite ?H3, ?Hcache; try done; by rewrite H2.
Qed.

Section laws.
Context {order : MapOrder} {G E R P : Type} `{!OutputType E} `{!MlsRules R} `{!PreSharedKeyStorage P}
  `{!MessageProcessor G E R P} `{!MessageProcessorLaws G E R P}.
Implicit Types (g : G).

Lemma process_path_state g p path sender time :
  group_state (process_path g p path sender time).2 = group_state g ∧
  mp_cipher_suite_provider (process_path g p path sender time).2 = mp_cipher_suite_provider g ∧
  (∀ x p', (process_path g p path sender time).1 = Ok (x, p') →
     ps_applied p' = ps_applied p ∧ with_tree_hash (ps_context p) (tree_hash (ps_context p')) = ps_context p').
Proof.
  destruct path as [path|]; cbn [process_path].
  - unfold st_lift. destruct (validate_update_path _ _ _ _ _ _) as [v| | |]; cbn [st_bind fst snd]; try by split_and!.
    split_and!; [apply mp_path_state|apply mp_path_csp|]. intros x p' Hx. by eapply mp_path_result.
  - split_and!; [done|done|]. intros x p' [= <- <-]. split; [done|]. by destruct (ps_context p).
Qed.

(** The state in which [process_commit] asks for the new key schedule: the path has
    been applied and a reinitialization recorded. *)
Definition prepared g g2 : Prop :=
  ∃ p path sender time, let g1 := (process_path g p path sender time).2 in
    g2 = g1 ∨ pending_reinit (group_state g) = None ∧ ∃ r, g2 = set_group_state g1 (with_pending_reinit (group_state g1) r).

(** What processing the commit [a] has computed when it comes to the question whether
    the receiver goes on; nothing is changed before. *)
Record commit_read g (a : AuthenticatedContent) (time : option Z) (c : Commit) (interim confirmed : bytes)
    (p : ProvisionalState) (sender : Z) (u : StateUpdate) : Prop := {
  cr_pending : pending_reinit (group_state g) = None;
  cr_hashes : transcript_hashes (mp_cipher_suite_provider g) (interim_transcript_hash (group_state g)) a = Ok (interim, confirmed);
  cr_content : fc_content (content a) = CommitContent c;
  cr_provisional : provisional_of_commit g a c time = Ok p;
  cr_sender : commit_sender (fc_sender (content a)) p = Ok sender;
  cr_update : make_state_update g p (commit_path c) sender = Ok u;
  cr_path : path_update_required (ps_applied p) && bool_decide (commit_path c = None) = false;
}.

(** From the update path on. *)
Definition rest_of_commit g (a : AuthenticatedContent) (time : option Z) (c : Commit) (interim confirmed : bytes)
    (p : ProvisionalState) (sender : Z) (u : StateUpdate) : Result MlsError CommitMessageDescription * G :=
  let csp := mp_cipher_suite_provider g in
  try (secrets, p), g ← process_path g p (commit_path c) sender time;
  try p, g ← st_lift (finish_context csp p confirmed sender) g;
  let '(g, p, u) := take_reinit g p u in
  match confirmation_tag (auth a) with
  | Some tag =>
      try _, g ← update_key_schedule g secrets interim tag p;
      (Ok (describe a sender u), g)
  | None => (Err InvalidConfirmationTag, g)
  end.

Lemma commit_read_runs g a time c interim confirmed p sender u :
  commit_read g a time c interim confirmed p sender u →
  process_commit g a time =
    if can_continue_processing g p then rest_of_commit g a time c interim confirmed p sender u
    else (Ok (describe a sender (deactivate u)), g).
Proof.
  intros [Hp Hh Hc Hv Hs Hu Hpath]. unfold process_commit, st_lift. rewrite Hp, Hh, Hc. cbn [st_bind].
  rewrite bool_decide_eq_false_2 by (by intros [? [=]]). rewrite Hv. cbn [st_bind]. rewrite Hs. cbn [st_bind].
  rewrite Hu. cbn [st_bind]. rewrite Hpath. by destruct (can_continue_processing g p).
Qed.

(** A commit that is not read this far is refused and changes nothing. *)
Lemma commit_read_or g a time :
  (∃ c interim confirmed p sender u, commit_read g a time c interim confirmed p sender u) ∨
  is_ok (process_commit g a time).1 = false ∧ (process_commit g a time).2 = g.
Proof.
  unfold process_commit, st_lift. case_bool_decide as Hpend; [by right|]. apply eq_None_not_Some in Hpend.
  destruct (transcript_hashes _ _ _) as [[interim confirmed]| | |] eqn:Hh; cbn [st_bind]; try by right.
  destruct (fc_content (content a)) as [?|?|c] eqn:Hc; cbn [st_bind]; try by right.
  destruct (provisional_of_commit g a c time) as [p| | |] eqn:Hp; cbn [st_bind]; try by right.
  destruct (commit_sender _ _) as [sender| | |] eqn:Hs; cbn [st_bind]; try by right.
  destruct (make_state_update _ _ _ _) as [u| | |] eqn:Hu; cbn [st_bind]; try by right.
  destruct (_ && _) eqn:Hpath; [by right|]. left. by exists c, interim, confirmed, p, sender, u.
Qed.

(** The receiver stops at the question, with the state as it was; or it goes on. *)
Definition stops (a : AuthenticatedContent) (time : option Z) g (d : CommitMessageDescription) g' : Prop :=
  ∃ c interim confirmed p sender u, commit_read g a time c interim confirmed p sender u ∧
    can_continue_processing g p = false ∧ d = describe a sender (deactivate u) ∧ g' = g.

Definition goes_on (a : AuthenticatedContent) (time : option Z) g : Prop :=
  ∃ c interim confirmed p sender u, commit_read g a time c interim confirmed p sender u ∧ can_continue_processing g p = true.

Lemma stops_inactive a time g d g' : stops a time g d g' → g' = g ∧ active (state_update d) = false.
Proof. by intros (c & i & cf & p & s & u & _ & _ & -> & ->). Qed.

(** What [process_commit] returns and leaves behind. *)
Definition commit_outcome (a : AuthenticatedContent) (time : option Z) g (r : Result MlsError CommitMessageDescription) g' : Prop :=
  match r with
  | Ok d => stops a time g d g' ∨
            (goes_on a time g ∧ accepted_commit (mp_cipher_suite_provider g) (group_state g) a (group_state g') ∧
             ∃ g2 x i t p, prepared g g2 ∧ update_key_schedule g2 x i t p = (Ok tt, g'))
  | _ => g' = g ∨ prepared g g' ∨
         ∃ g2 x i t p, prepared g g2 ∧ g' = (update_key_schedule g2 x i t p).2 ∧ is_ok (update_key_schedule g2 x i t p).1 = false
  end.

Lemma outcome_unchanged a time g r : is_ok r = false → commit_outcome a time g r g.
Proof. intros Hr. destruct r; try done; by left. Qed.

Lemma prepared_state g g2 : prepared g g2 →
  mp_cipher_suite_provider g2 = mp_cipher_suite_provider g ∧
  (group_state g2 = group_state g ∨ pending_reinit (group_state g) = None ∧ ∃ r, group_state g2 = with_pending_reinit (group_state g) r).
Proof.
  intros (p & path & sender & time & H). cbv zeta in H. destruct (process_path_state g p path sender time) as (Hs & Hc & _).
  destruct H as [->|[Hp (r & ->)]]; [auto|]. rewrite mp_set_csp, mp_set_state, Hs. eauto.
Qed.

Lemma rest_outcome g a time c interim confirmed p sender u :
  commit_read g a time c interim confirmed p sender u → can_continue_processing g p = true →
  commit_outcome a time g (rest_of_commit g a time c interim confirmed p sender u).1 (rest_of_commit g a time c interim confirmed p sender u).2.
Proof.
  intros Hread Hcont. pose proof Hread as [Hpend Hh Hc' Hp _ _ _]. unfold rest_of_commit.
  destruct (process_path_state g p (commit_path c) sender time) as (Hs & Hc & Hpath).
  assert (prepared g (process_path g p (commit_path c) sender time).2) as Hprep by (do 4 eexists; by left).
  apply method_cases; [|intros [] ? ?; try done; right; by left]. intros [secrets p1] Hx.
  specialize (Hpath _ _ Hx) as [Happ Hctx].
  apply lift_cases; [|intros [] ?; try done; right; by left]. intros p2 Hp2.
  destruct (take_reinit _ p2 u) as [[g2 p3] u'] eqn:Et.
  assert (prepared g g2 ∧ ps_context p3 = ps_context p2 ∧ ps_tree p3 = ps_tree p2) as (Hprep2 & Hctx3 & Htree3).
  { unfold take_reinit, pop in Et. destruct (last _) as [r|]; injection Et as <- <- <-; split_and!; try done.
    do 4 eexists. right. split; [done|]. by eexists. }
  destruct (prepared_state g g2 Hprep2) as [Hc2 Hs2].
  destruct (confirmation_tag (auth a)) as [tag|] eqn:Etag; [|right; by left].
  pose proof (mp_schedule_state g2 secrets interim tag p3) as Hsch.
  apply method_cases.
  - intros [] Hok. rewrite Hok in Hsch. cbn [fst snd]. right. split_and!.
    + by exists c, interim, confirmed, p, sender, u.
    + rewrite Hsch. apply finish_context_inv in Hp2 as (t & h & tree & Hroot & Htree & Happ2 & Hctx2).
      unfold provisional_of_commit in Hp. apply bind_ok in Hp as (b & _ & Hp).
      apply apply_resolved_context in Hp as (exts & Hctx0). rewrite Hctx0 in Hctx.
      apply (next_state_accepted _ _ _ _ p1 _ exts _ confirmed h); try done; [|congruence|].
      * exists t. by rewrite Hroot, Htree3, Htree.
      * by destruct Hs2 as [->|[_ (r & ->)]].
    + exists g2, secrets, interim, tag, p3. split; [done|]. by destruct (update_key_schedule _ _ _ _ _) as [? ?]; cbn in Hok; subst.
  - intros [] He Hm; try done; right; right; by exists g2, secrets, interim, tag, p3.
Qed.

Lemma process_commit_outcome g a time : commit_outcome a time g (process_commit g a time).1 (process_commit g a time).2.
Proof.
  destruct (commit_read_or g a time) as [(c & interim & confirmed & p & sender & u & Hread)|[He ->]]; [|by apply outcome_unchanged].
  rewrite (commit_read_runs _ _ _ _ _ _ _ _ _ Hread). destruct (can_continue_processing g p) eqn:Hcont.
  - by apply rest_outcome.
  - left. by exists c, interim, confirmed, p, sender, u.
Qed.

(** The public side of it. *)
Lemma process_commit_public g a time :
  mp_cipher_suite_provider (process_commit g a time).2 = mp_cipher_suite_provider g ∧
  ∃ o, public_step (mp_cipher_suite_provider g) (group_state g) o (group_state (process_commit g a time).2).
Proof.
  assert (∀ g', g' = g ∨ prepared g g' → mp_cipher_suite_provider g' = mp_cipher_suite_provider g ∧
    ∃ o, public_step (mp_cipher_suite_provider g) (group_state g) o (group_state g')) as H1.
  { intros g' [->|Hp]; [split; [done|]; exists None; constructor|]. apply prepared_state in Hp as [Hc Hs]. split; [done|].
    exists None. destruct Hs as [->|[Hp (r & ->)]]; by constructor. }
  assert (∀ g2 x i t p, prepared g g2 → is_ok (update_key_schedule g2 x i t p).1 = false →
    group_state (update_key_schedule g2 x i t p).2 = group_state g2 ∧
    mp_cipher_suite_provider (update_key_schedule g2 x i t p).2 = mp_cipher_suite_provider g2) as H2.
  { intros g2 x i t p Hp Hk. split; [|apply mp_schedule_csp]. rewrite mp_schedule_state. by destruct (update_key_schedule _ _ _ _ _).1. }
  pose proof (process_commit_outcome g a time) as H. destruct (process_commit g a time) as [[d|e| |] g']; cbn [fst snd] in *.
  1:{ destruct H as [[-> _]%stops_inactive|(_ & Ha & g2 & x & i & t & p & Hp & Hk)]; [apply H1; by left|].
      split; [|exists (Some a); by constructor]. apply prepared_state in Hp as [Hc _].
      pose proof (mp_schedule_csp g2 x i t p) as H. rewrite Hk in H. cbn in H. congruence. }
  all: destruct H as [->|[Hp|(g2 & x & i & t & p & Hp & -> & Hk)]]; [apply H1; by left|apply H1; by right|].
  all: destruct (H2 g2 x i t p Hp Hk) as [-> ->]; apply H1; by right.
Qed.

(** ** Every message is a step *)
Definition steps g g' : Prop :=
  mp_cipher_suite_provider g' = mp_cipher_suite_provider g ∧
  ∃ o, public_step (mp_cipher_suite_provider g) (group_state g) o (group_state g').

Lemma steps_none g g' :
  group_state g' = group_state g → mp_cipher_suite_provider g' = mp_cipher_suite_provider g → steps g g'.
Proof. intros Hs Hc. split; [done|]. exists None. rewrite Hs. constructor. Qed.

Lemma steps_from g g1 g2 :
  group_state g1 = group_state g → mp_cipher_suite_provider g1 = mp_cipher_suite_provider g → steps g1 g2 → steps g g2.
Proof. intros Hs Hc [Hc2 (o & Ho)]. split; [congruence|]. exists o. by rewrite <- Hs, <- Hc. Qed.

Lemma process_commit_steps g a time : steps g (process_commit g a time).2.
Proof. apply process_commit_public. Qed.

Lemma process_proposal_steps g a p cache : steps g (process_proposal g a p cache).2.
Proof.
  unfold process_proposal, st_lift. destruct (proposal_ref_from_content _ _) as [r| | |]; cbn [st_bind snd]; try by apply steps_none.
  assert (∀ g', steps g g' → steps g (try s, g' ← (proposal_sender (fc_sender (content a)), g');
    (Ok {| pd_sender := s; pd_proposal := p; pd_authenticated_data := fc_authenticated_data (content a); pd_proposal_ref := r |}, g')).2) as H.
  { intros g' Hg. by destruct (proposal_sender _). }
  apply H. destruct cache; [|by apply steps_none]. split; [apply mp_set_csp|]. exists None. rewrite mp_set_state. constructor.
Qed.

Lemma process_content_steps g e cache time : steps g (process_event_or_content g e cache time).2.
Proof.
  destruct e as [e|a]; [by apply steps_none|]. cbn [process_event_or_content]. unfold process_auth_content.
  destruct (fc_content (content a)) as [d|p|c].
  - by apply steps_none.
  - pose proof (process_proposal_steps g a p cache) as H. by destruct (process_proposal _ _ _ _) as [[] ?].
  - pose proof (process_commit_steps g a time) as H. by destruct (process_commit _ _ _) as [[] ?].
Qed.

Lemma get_event_state g now m :
  group_state (get_event_from_incoming_message g now m).2 = group_state g ∧
  mp_cipher_suite_provider (get_event_from_incoming_message g now m).2 = mp_cipher_suite_provider g.
Proof.
  unfold get_event_from_incoming_message, st_lift. destruct (check_metadata g m); cbn [st_bind snd]; try done.
  destruct (payload m); cbn [st_bind snd].
  - done.
  - split; [apply mp_cipher_state|apply mp_cipher_csp].
  - by destruct (validate_welcome _ _ _).
  - by destruct (validate_group_info_member _ _ _ _).
  - by destruct (validate_key_package _ _ _ _ _).
Qed.

Lemma process_message_steps g now m cache time : steps g (process_incoming_message_with_time g now m cache time).2.
Proof.
  destruct (get_event_state g now m) as [Hs Hc]. unfold process_incoming_message_with_time.
  destruct (get_event_from_incoming_message g now m) as [[e| | |] g1]; cbn [st_bind snd] in *; try by apply steps_none.
  by apply (steps_from g g1), process_content_steps.
Qed.

End laws.

(** ** Runs *)
Inductive public_run (csp : CipherSuiteProvider) : GroupState → list AuthenticatedContent → GroupState → Prop :=
  | RunNil s : public_run csp s [] s
  | RunStep s o s1 l s2 : public_step csp s o s1 → public_run csp s1 l s2 → public_run csp s (option_list o ++ l) s2.

(** What a run leads to. *)
Record run_facts (csp : CipherSuiteProvider) (s : GroupState) (l : list AuthenticatedContent) (s' : GroupState) : Prop := {
  rf_transcript : transcript csp (interim_transcript_hash s, confirmed_transcript_hash (gs_context s)) l =
    Ok (interim_transcript_hash s', confirmed_transcript_hash (gs_context s'));
  rf_epoch : wrap 64 (epoch (gs_context s')) = wrap 64 (epoch (gs_context s) + len l);
  rf_version : protocol_version (gs_context s') = protocol_version (gs_context s);
  rf_suite : gc_cipher_suite (gs_context s') = gc_cipher_suite (gs_context s);
  rf_group : group_id (gs_context s') = group_id (gs_context s);
  rf_reinit : pending_reinit s ≠ None → l = [] ∧ pending_reinit s' = pending_reinit s;
  rf_frozen : l = [] → gs_context s' = gs_context s ∧ public_tree s' = public_tree s;
}.

Lemma step_facts csp s o s' : public_step csp s o s' → run_facts csp s (option_list o) s'.
Proof.
  intros [s0|s0 r p sender|s0|s0 r Hr|s0 a s1 []].
  - by split; rewrite ?Z.add_0_r.
  - by split; rewrite ?Z.add_0_r.
  - by split; rewrite ?Z.add_0_r.
  - by split; rewrite ?Z.add_0_r.
  - split; cbn; try done.
    + by rewrite ac_hashes0.
    + rewrite ac_epoch0. apply Zmod_mod.
Qed.

Lemma run_facts_trans csp s l s1 k s2 : run_facts csp s l s1 → run_facts csp s1 k s2 → run_facts csp s (l ++ k) s2.
Proof.
  intros [T1 E1 V1 S1 G1 R1 F1] [T2 E2 V2 S2 G2 R2 F2]. split.
  - unfold transcript in *. rewrite foldM_app, T1. cbn. done.
  - rewrite E2, len_app. unfold wrap in *. rewrite <- Zplus_mod_idemp_l, E1, Zplus_mod_idemp_l. f_equal. lia.
  - congruence.
  - congruence.
  - congruence.
  - intros H. destruct (R1 H) as [-> H1]. rewrite <- H1 in H. destruct (R2 H) as [-> H2]. split; [done|congruence].
  - intros [-> ->]%app_nil. destruct (F1 eq_refl), (F2 eq_refl). split; congruence.
Qed.

Lemma public_run_facts csp s l s' : public_run csp s l s' → run_facts csp s l s'.
Proof.
  induction 1 as [s|s o s1 l s2 H _ IH].
  - exact (step_facts csp s None s (StepNone csp s)).
  - eapply run_facts_trans; [by apply step_facts|done].
Qed.

Lemma public_run_app csp s l s1 k s2 : public_run csp s l s1 → public_run csp s1 k s2 → public_run csp s (l ++ k) s2.
Proof. induction 1 as [s|s o s1 l s3 H _ IH]; intros Hk; [done|]. rewrite <- app_assoc. eapply RunStep; [done|]. by apply IH. Qed.

Lemma public_run_one csp s o s' : public_step csp s o s' → public_run csp s (option_list o) s'.
Proof. intros H. rewrite <- (app_nil_r (option_list o)). eapply RunStep; [done|constructor]. Qed.

(** The cache keeps version and identifier of the group. *)
Definition cache_matches (s : GroupState) : Prop :=
  pc_protocol_version (gs_proposals s) = protocol_version (gs_context s) ∧ pc_group_id (gs_proposals s) = group_id (gs_context s).

Lemma step_cache_matches csp s o s' : public_step csp s o s' → cache_matches s → cache_matches s'.
Proof. intros [s0|s0 r p sender|s0|s0 r Hr|s0 a s1 []] [Hv Hg]; try done. split; rewrite ac_cache0; cbn; congruence. Qed.

Lemma run_cache_matches csp s l s' : public_run csp s l s' → cache_matches s → cache_matches s'.
Proof. induction 1; eauto using step_cache_matches. Qed.
