(* ===== verification/Config.v ===== *)
(** * Configuration of a client, leaves and key packages
    (mls-rs/src/client_config.rs, tree_kem/leaf_node.rs, key_package/generator.rs, group/util.rs)

    What an application configures, the leaf node and the key package a client
    makes of it, and how a key package is kept until a welcome message names it. *)
From Stdlib Require Import Strings.String.
From S2P Require Import Prelude Codec Types TreeIndex Crypto Labels Proposal Validator Kem Framing Storage PrivateMessage Auth Rules.

(** ** client_config.rs
    The trait [ClientConfig] by what its methods return.  The crypto provider is
    the map from a cipher suite to its provider. *)
Record ClientConfig (S K P R : Type) := {
  supported_extensions : list Z;
  supported_custom_proposals : list Z;
  supported_protocol_versions : list Z;
  cfg_key_package_repo : K;
  cfg_mls_rules : R;
  secret_store : P;
  group_state_storage : S;
  cfg_identity_provider : IdentityProvider;
  crypto_provider : Z → option CipherSuiteProvider;
  supported_cipher_suites : list Z;
  key_package_extensions : ExtensionList.t;
  leaf_node_extensions : ExtensionList.t;
  cfg_lifetime : Lifetime;
}.
Arguments supported_extensions {S K P R}.
Arguments supported_custom_proposals {S K P R}.
Arguments supported_protocol_versions {S K P R}.
Arguments cfg_key_package_repo {S K P R}.
Arguments cfg_mls_rules {S K P R}.
Arguments secret_store {S K P R}.
Arguments group_state_storage {S K P R}.
Arguments cfg_identity_provider {S K P R}.
Arguments crypto_provider {S K P R}.
Arguments supported_cipher_suites {S K P R}.
Arguments key_package_extensions {S K P R}.
Arguments leaf_node_extensions {S K P R}.
Arguments cfg_lifetime {S K P R}.

Section config.
Context {S K P R : Type}.

Definition supported_credential_types (c : ClientConfig S K P R) : list Z := ip_supported_types (cfg_identity_provider c).

Definition config_capabilities (c : ClientConfig S K P R) : Capabilities := {|
  protocol_versions := supported_protocol_versions c;
  cipher_suites := supported_cipher_suites c;
  cap_extensions := supported_extensions c;
  proposals := supported_custom_proposals c;
  credentials := supported_credential_types c |}.

Definition version_supported (c : ClientConfig S K P R) (version : Z) : bool :=
  bool_decide (version ∈ supported_protocol_versions c).

Definition leaf_properties (c : ClientConfig S K P R) : Kem.ConfigProperties := {|
  Kem.new_capabilities := config_capabilities c; Kem.new_extensions := leaf_node_extensions c |}.

(** [cipher_suite_provider] of group/util.rs. *)
Definition cipher_suite_provider_for (c : ClientConfig S K P R) (cipher_suite : Z) : Result MlsError CipherSuiteProvider :=
  ok_or (crypto_provider c cipher_suite) (UnsupportedCipherSuite cipher_suite).
End config.

(** ** leaf_node.rs, [LeafNode::generate] and [LeafNode::update] *)
Definition leaf_generate (csp : CipherSuiteProvider) (seed : bytes) (props : Kem.ConfigProperties) (s : SigningIdentity)
    (signer : bytes) (l : Lifetime) : Result MlsError (LeafNode * bytes) :=
  '(secret_key, public_key) ← crypto (csp_kem_generate csp seed);
  leaf ← Kem.sign_leaf csp signer {| ctx_group_id := None; ctx_leaf_index := None |}
    {| leaf_public_key := public_key; signing_identity := s; capabilities := Kem.new_capabilities props;
       leaf_node_source := KeyPackageSource l; leaf_extensions := Kem.new_extensions props; signature := [] |};
  Ok (leaf, secret_key).

Definition leaf_update (csp : CipherSuiteProvider) (seed gid : bytes) (leaf_index : Z) (props : Kem.ConfigProperties)
    (new_signing_identity : option SigningIdentity) (signer : bytes) (l : LeafNode) : Result MlsError (bytes * LeafNode) :=
  '(secret, public) ← crypto (csp_kem_generate csp seed);
  leaf ← Kem.sign_leaf csp signer {| ctx_group_id := Some gid; ctx_leaf_index := Some leaf_index |}
    {| leaf_public_key := public; signing_identity := default (signing_identity l) new_signing_identity;
       capabilities := Kem.new_capabilities props; leaf_node_source := UpdateSource;
       leaf_extensions := Kem.new_extensions props; signature := signature l |};
  Ok (secret, leaf).

(** ** key_package/generator.rs *)
Record KeyPackageGeneration := {
  reference : bytes;
  kg_key_package : KeyPackage;
  init_secret_key : bytes;
  leaf_node_secret_key : bytes;
}.

Definition to_storage (g : KeyPackageGeneration) : Result MlsError (bytes * KeyPackageData) :=
  b ← from_codec_error (mls_encode_to_vec key_package_codec (kg_key_package g));
  e ← kp_expiration (kg_key_package g);
  Ok (reference g, {| key_package_bytes := b; init_key := init_secret_key g; leaf_node_key := leaf_node_secret_key g;
                      expiration := e |}).

Definition from_storage (id : bytes) (d : KeyPackageData) : Result MlsError KeyPackageGeneration :=
  '(k, _) ← from_codec_error (mls_decode key_package_codec (key_package_bytes d));
  Ok {| reference := id; kg_key_package := k; init_secret_key := init_key d; leaf_node_secret_key := leaf_node_key d |}.

Definition key_package_message (g : KeyPackageGeneration) : MlsMessage :=
  {| msg_version := kp_version (kg_key_package g); payload := KeyPackagePayload (kg_key_package g) |}.

Definition sign_key_package (csp : CipherSuiteProvider) (signer : bytes) (k : KeyPackage) : Result MlsError KeyPackage :=
  s ← sign csp signer (ascii "KeyPackageTBS") (key_package_tbs k);
  Ok {| kp_version := kp_version k; kp_cipher_suite := kp_cipher_suite k; hpke_init_key := hpke_init_key k;
        kp_leaf_node := kp_leaf_node k; kp_extensions := kp_extensions k; kp_signature := s |}.

(** [KeyPackageGenerator]: the randomness is that of the init key and of the
    leaf's key. *)
Record KeyPackageGenerator := {
  gen_protocol_version : Z;
  gen_cipher_suite_provider : CipherSuiteProvider;
  gen_signing_identity : SigningIdentity;
  signing_key : bytes;
}.

Definition generate (g : KeyPackageGenerator) (init_seed leaf_seed : bytes) (lifetime : Lifetime) (cap : Capabilities)
    (key_package_ext leaf_ext : ExtensionList.t) : Result MlsError KeyPackageGeneration :=
  let csp := gen_cipher_suite_provider g in
  '(init_secret, public_init) ← crypto (csp_kem_generate csp init_seed);
  '(leaf, leaf_secret) ← leaf_generate csp leaf_seed {| Kem.new_capabilities := cap; Kem.new_extensions := leaf_ext |}
    (gen_signing_identity g) (signing_key g) lifetime;
  package ← sign_key_package csp (signing_key g)
    {| kp_version := gen_protocol_version g; kp_cipher_suite := csp_cipher_suite csp; hpke_init_key := public_init;
       kp_leaf_node := leaf; kp_extensions := key_package_ext; kp_signature := [] |};
  r ← to_reference csp package;
  Ok {| reference := r; kg_key_package := package; init_secret_key := init_secret; leaf_node_secret_key := leaf_secret |}.

(** ** [find_key_package_generation] of group/util.rs *)
Definition key_package_repo_error {A} (r : AnyError + A) : Result MlsError A :=
  match r with inl e => Err (KeyPackageRepoError e) | inr a => Ok a end.

Fixpoint find_key_package_generation {K} `{!KeyPackageStorage K} (repo : K) (secrets : list EncryptedGroupSecrets)
    : Result MlsError (EncryptedGroupSecrets * KeyPackageGeneration) :=
  match secrets with
  | [] => Err WelcomeKeyPackageNotFound
  | s :: rest =>
      found ← key_package_repo_error (kp_get repo (new_member s));
      match found with
      | Some data => g ← from_storage (new_member s) data; Ok (s, g)
      | None => find_key_package_generation repo rest
      end
  end.

(** ** A configuration to run
    In-memory storage, the default rules, and a provider whose hash, codes and
    derived secrets are short checksums. *)
Definition checksum (n : Z) (b : bytes) : bytes :=
  let h := foldl (λ a x, Z.land (a * 31 + byte.unsigned x + 1) 16777215) 1 b in
  (λ k, byte.of_Z (Z.shiftr h (8 * k))) <$> seqZ 0 n.

Lemma checksum_len n b : 0 ≤ n → len (checksum n b) = n.
Proof. intros Hn. unfold checksum, len. rewrite length_fmap, length_seqZ. lia. Qed.

Definition run_csp : CipherSuiteProvider := {|
  csp_cipher_suite := 1; csp_hash b := inr (checksum 8 b); csp_mac k b := inr (checksum 8 (k ++ b));
  csp_aead_seal := csp_aead_seal toy_csp; csp_aead_open := csp_aead_open toy_csp;
  csp_aead_key_size := 4; csp_aead_nonce_size := 4;
  csp_kdf_extract s i := inr (checksum 8 (s ++ i)); csp_kdf_expand p i n := inr (checksum n (p ++ i)); csp_kdf_extract_size := 8;
  csp_hpke_seal := csp_hpke_seal toy_csp; csp_hpke_open := csp_hpke_open toy_csp;
  csp_hpke_export_s seed pk label n := inr (seed, checksum n (pk ++ seed ++ label));
  csp_hpke_export_r out sk _ label n := inr (checksum n (sk ++ out ++ label));
  csp_kem_derive := csp_kem_derive toy_csp; csp_kem_generate := csp_kem_generate toy_csp;
  csp_kem_public_key_validate := csp_kem_public_key_validate toy_csp; csp_random_bytes := csp_random_bytes toy_csp;
  csp_verify pk s d := if bool_decide (s = checksum 8 (pk ++ d)) then inr tt else inl (ProviderAnyError []);
  csp_sign sk d := inr (checksum 8 (sk ++ d)) |}.

Definition run_rules : DefaultMlsRules := {|
  default_commit_options := commit_options_default;
  default_encryption_options := {| encrypt_control_messages := false; padding_mode := StepFunction |} |}.

Definition RunConfig : Type :=
  ClientConfig InMemory.InMemoryGroupStateStorage InMemory.InMemoryKeyPackageStorage InMemory.InMemoryPreSharedKeyStorage
    DefaultMlsRules.

Definition run_config (ip : IdentityProvider) (packages : gmap bytes KeyPackageData) : RunConfig := {|
  supported_extensions := []; supported_custom_proposals := []; supported_protocol_versions := [1];
  cfg_key_package_repo := {| InMemory.packages := packages |}; cfg_mls_rules := run_rules;
  secret_store := {| InMemory.psk_map := ∅ |}; group_state_storage := InMemory.new; cfg_identity_provider := ip;
  crypto_provider cs := if cs =? 1 then Some run_csp else None; supported_cipher_suites := [1];
  key_package_extensions := []; leaf_node_extensions := []; cfg_lifetime := {| not_before := 0; not_after := 1000 |} |}.
