(* ===== verification/Group.v ===== *)
(** * A group and its members' operations (mls-rs/src/group/mod.rs)

    The state of a member, the messages it sends, and what it does with the
    messages it receives: the instance of [MessageProcessor] for a member.  The
    randomness a method draws is an argument, by use. *)
From Stdlib Require Import Strings.String.
From S2P Require Import Prelude Codec TreeMath Types Node TreeIndex Extensions Crypto Labels TreeHash Proposal TreeKem GroupContext Validator Kem SecretTree Framing Epoch KeySchedule Storage StateRepo PrivateMessage GroupState Auth ProposalFilter Psk Rules Provisional MessageProcessor Config.

Import Node.

(** [CommitGeneration] of commit.rs: a commit of the member's own, not yet
    applied. *)
Record CommitGeneration := {
  pending_content : AuthenticatedContent;
  pending_private_tree : Kem.TreeKemPrivate;
  pending_commit_secret : bytes;
  commit_message_hash : bytes;
}.

Record Group (S K P R : Type) := {
  g_config : ClientConfig S K P R;
  g_csp : CipherSuiteProvider;
  state_repo : GroupStateRepository S K;
  g_state : GroupState;
  g_epoch_secrets : EpochSecrets;
  private_tree : Kem.TreeKemPrivate;
  g_key_schedule : KeySchedule;
  pending_updates : gmap bytes (bytes * option bytes);
  g_pending_commit : option CommitGeneration;
  previous_psk : option PskSecretInput;
  signer : bytes;
}.
Arguments g_config {S K P R}.
Arguments g_csp {S K P R}.
Arguments state_repo {S K P R}.
Arguments g_state {S K P R}.
Arguments g_epoch_secrets {S K P R}.
Arguments private_tree {S K P R}.
Arguments g_key_schedule {S K P R}.
Arguments pending_updates {S K P R}.
Arguments g_pending_commit {S K P R}.
Arguments previous_psk {S K P R}.
Arguments signer {S K P R}.

Section group.
Context {order : MapOrder} {S K P R : Type}.
Context `{!GroupStateStorage S} `{!KeyPackageStorage K} `{!PreSharedKeyStorage P} `{!MlsRules R}.
Notation Group := (Group S K P R).

(** ** Assignments to a field *)
Definition set_state (g : Group) (s : GroupState) : Group := {|
  g_config := g_config g; g_csp := g_csp g; state_repo := state_repo g; g_state := s;
  g_epoch_secrets := g_epoch_secrets g; private_tree := private_tree g; g_key_schedule := g_key_schedule g;
  pending_updates := pending_updates g; g_pending_commit := g_pending_commit g; previous_psk := previous_psk g;
  signer := signer g |}.
Definition set_state_repo (g : Group) (r : GroupStateRepository S K) : Group := {|
  g_config := g_config g; g_csp := g_csp g; state_repo := r; g_state := g_state g;
  g_epoch_secrets := g_epoch_secrets g; private_tree := private_tree g; g_key_schedule := g_key_schedule g;
  pending_updates := pending_updates g; g_pending_commit := g_pending_commit g; previous_psk := previous_psk g;
  signer := signer g |}.
Definition set_epoch_secrets (g : Group) (e : EpochSecrets) : Group := {|
  g_config := g_config g; g_csp := g_csp g; state_repo := state_repo g; g_state := g_state g;
  g_epoch_secrets := e; private_tree := private_tree g; g_key_schedule := g_key_schedule g;
  pending_updates := pending_updates g; g_pending_commit := g_pending_commit g; previous_psk := previous_psk g;
  signer := signer g |}.
Definition set_private_tree (g : Group) (t : Kem.TreeKemPrivate) : Group := {|
  g_config := g_config g; g_csp := g_csp g; state_repo := state_repo g; g_state := g_state g;
  g_epoch_secrets := g_epoch_secrets g; private_tree := t; g_key_schedule := g_key_schedule g;
  pending_updates := pending_updates g; g_pending_commit := g_pending_commit g; previous_psk := previous_psk g;
  signer := signer g |}.
Definition set_pending_updates (g : Group) (u : gmap bytes (bytes * option bytes)) : Group := {|
  g_config := g_config g; g_csp := g_csp g; state_repo := state_repo g; g_state := g_state g;
  g_epoch_secrets := g_epoch_secrets g; private_tree := private_tree g; g_key_schedule := g_key_schedule g;
  pending_updates := u; g_pending_commit := g_pending_commit g; previous_psk := previous_psk g;
  signer := signer g |}.
Definition set_pending_commit (g : Group) (c : option CommitGeneration) : Group := {|
  g_config := g_config g; g_csp := g_csp g; state_repo := state_repo g; g_state := g_state g;
  g_epoch_secrets := g_epoch_secrets g; private_tree := private_tree g; g_key_schedule := g_key_schedule g;
  pending_updates := pending_updates g; g_pending_commit := c; previous_psk := previous_psk g;
  signer := signer g |}.
Definition set_signer (g : Group) (s : bytes) : Group := {|
  g_config := g_config g; g_csp := g_csp g; state_repo := state_repo g; g_state := g_state g;
  g_epoch_secrets := g_epoch_secrets g; private_tree := private_tree g; g_key_schedule := g_key_schedule g;
  pending_updates := pending_updates g; g_pending_commit := g_pending_commit g; previous_psk := previous_psk g;
  signer := s |}.

(** ** Queries *)
Definition group_ctx (g : Group) : GroupContext := gs_context (g_state g).
Definition current_epoch_tree (g : Group) : TreeKemPublic := public_tree (g_state g).
Definition current_member_index (g : Group) : Z := Kem.self_index (private_tree g).
Definition group_roster (g : Group) : Roster := roster_of (public_tree (g_state g)).

Definition current_user_leaf_node (g : Group) : Result MlsError LeafNode :=
  TreeKem.get_leaf_node (current_epoch_tree g) (current_member_index g).

Definition current_member_signing_identity (g : Group) : Result MlsError SigningIdentity :=
  l ← current_user_leaf_node g; Ok (signing_identity l).

Definition member_at_index (g : Group) (i : Z) : option RosterMember :=
  match TreeKem.get_leaf_node (current_epoch_tree g) i with
  | Ok l => Some (member_from_leaf_node l i)
  | _ => None
  end.

Definition member_with_identity (g : Group) (identity : bytes) : Result MlsError RosterMember :=
  i ← ok_or (TreeKem.get_leaf_node_with_identity (current_epoch_tree g) identity) MemberNotFound;
  l ← TreeKem.get_leaf_node (current_epoch_tree g) i;
  Ok (member_from_leaf_node l i).

Definition epoch_authenticator (g : Group) : Result MlsError bytes := Ok (authentication_secret (g_key_schedule g)).

Definition group_export_secret (g : Group) (label context : bytes) (n : Z) : Result MlsError bytes :=
  export_secret (g_csp g) (g_key_schedule g) label context n.

Definition export_tree (g : Group) : NodeVec := nodes (current_epoch_tree g).

Definition group_encryption_options (g : Group) : Result MlsError EncryptionOptions :=
  rules (encryption_options (cfg_mls_rules (g_config g)) (group_roster g) (gc_extensions (group_ctx g))).

Definition has_pending_commit (g : Group) : bool := bool_decide (is_Some (g_pending_commit g)).
Definition clear_pending_commit (g : Group) : Group := set_pending_commit g None.
Definition clear_proposal_cache (g : Group) : Group :=
  set_state g (with_cache (g_state g) (cache_clear (gs_proposals (g_state g)))).

(** ** A new group *)
Definition group_new (config : ClientConfig S K P R) (gid : option bytes) (cipher_suite version : Z)
    (signing_identity : SigningIdentity) (exts : ExtensionList.t) (sk leaf_seed gid_seed epoch_seed : bytes)
    : Result MlsError Group :=
  csp ← cipher_suite_provider_for config cipher_suite;
  '(leaf, leaf_secret) ← leaf_generate csp leaf_seed (leaf_properties config) signing_identity sk (cfg_lifetime config);
  check_if_valid csp (cfg_identity_provider config) (Some exts) leaf (AddContext None);;
  t ← TreeKem.derive (cfg_identity_provider config) exts leaf;
  '(h, t) ← TreeHash.root_hash csp t;
  gid ← (match gid with
         | Some b => Ok b
         | None => crypto (csp_random_bytes csp gid_seed (csp_kdf_extract_size csp))
         end);
  let context := new_group version cipher_suite gid h exts in
  r ← from_random_epoch_secret csp epoch_seed (total_leaf_count (nodes t));
  tag ← confirmation_tag_create csp (confirmation_key r) [];
  interim ← interim_transcript_hash_create csp [] tag;
  Ok {| g_config := config; g_csp := csp;
        state_repo := repo_new gid (group_state_storage config) (cfg_key_package_repo config) None;
        g_state := group_state_new context t interim tag;
        g_epoch_secrets := KeySchedule.epoch_secrets r;
        private_tree := Kem.new_self_leaf 0 leaf_secret;
        g_key_schedule := key_schedule r;
        pending_updates := ∅; g_pending_commit := None; previous_psk := None; signer := sk |}.

(** ** Sending *)
#[export] Instance group_provider : GroupStateProvider Group := {|
  PrivateMessage.gs_context := group_ctx; gs_self_index := current_member_index;
  gs_secrets := g_epoch_secrets; gs_set_secrets := set_epoch_secrets |}.

#[export] Instance group_provider_laws : GroupStateProviderLaws Group.
Proof. split; by intros []. Qed.

Definition create_ciphertext (g : Group) (a : AuthenticatedContent) (seed : bytes) : Result MlsError PrivateMessage * Group :=
  try o, g ← st_lift (group_encryption_options g) g;
  seal (g_csp g) g a (padding_mode o) seed.

Definition format_for_wire (g : Group) (a : AuthenticatedContent) (seed : bytes) : Result MlsError MlsMessage * Group :=
  try p, g ← (if bool_decide (wire_format a = WirePrivateMessage)
              then try c, g ← create_ciphertext g a seed; (Ok (Cipher c), g)
              else try m, g ← st_lift (create_plaintext (g_csp g) (g_key_schedule g) (group_ctx g) a) g; (Ok (Plain m), g));
  (Ok {| msg_version := protocol_version (group_ctx g); payload := p |}, g).

Definition proposal_message (g : Group) (p : Proposal) (authenticated_data seed : bytes) : Result MlsError MlsMessage * Group :=
  let sender := Member (current_member_index g) in
  try o, g ← st_lift (group_encryption_options g) g;
  try a, g ← st_lift (new_signed (g_csp g) (group_ctx g) sender (ProposalContent p) (signer g)
                        (control_wire_format o sender) authenticated_data) g;
  try r, g ← st_lift (proposal_ref_from_content (g_csp g) a) g;
  let s := g_state g in
  let g := set_state g (with_cache s (cache_insert (gs_proposals s) r p (fc_sender (content a)))) in
  format_for_wire g a seed.

(** The proposals a member makes. *)
Definition add_proposal (key_package : MlsMessage) : Result MlsError Proposal :=
  match payload key_package with KeyPackagePayload k => Ok (Add k) | _ => Err UnexpectedMessageType end.

Definition remove_proposal (g : Group) (i : Z) : Result MlsError Proposal :=
  _ ← TreeKem.get_leaf_node (current_epoch_tree g) i; Ok (Remove i).

Definition psk_proposal (g : Group) (id : JustPreSharedKeyID) (seed : bytes) : Result MlsError Proposal :=
  n ← crypto (csp_random_bytes (g_csp g) seed (csp_kdf_extract_size (g_csp g)));
  Ok (Proposal.Psk {| key_id := id; psk_nonce := n |}).

Definition resumption_key_id (g : Group) (n : Z) : JustPreSharedKeyID :=
  ResumptionPskId {| usage := UsageApplication; psk_group_id := group_id (group_ctx g); psk_epoch := n |}.

Definition reinit_proposal (g : Group) (gid : option bytes) (version cipher_suite : Z) (exts : ExtensionList.t) (seed : bytes)
    : Result MlsError Proposal :=
  gid ← (match gid with
         | Some b => Ok b
         | None => crypto (csp_random_bytes (g_csp g) seed (csp_kdf_extract_size (g_csp g)))
         end);
  Ok (ReInit {| reinit_group_id := gid; reinit_version := version; reinit_cipher_suite := cipher_suite;
                reinit_extensions := exts |}).

Definition update_proposal (g : Group) (new_signer : option bytes) (s : option SigningIdentity) (seed : bytes)
    : Result MlsError Proposal * Group :=
  try l, g ← st_lift (current_user_leaf_node g) g;
  try (secret_key, l), g ← st_lift (leaf_update (g_csp g) seed (group_id (group_ctx g)) (current_member_index g)
                                      (leaf_properties (g_config g)) s (default (signer g) new_signer) l) g;
  (Ok (Update l), set_pending_updates g (<[leaf_public_key l := (secret_key, new_signer)]> (pending_updates g))).

Definition propose_add (g : Group) (key_package : MlsMessage) (aad seed : bytes) : Result MlsError MlsMessage * Group :=
  try p, g ← st_lift (add_proposal key_package) g; proposal_message g p aad seed.
Definition propose_update (g : Group) (aad leaf_seed seed : bytes) : Result MlsError MlsMessage * Group :=
  try p, g ← update_proposal g None None leaf_seed; proposal_message g p aad seed.
Definition propose_update_with_identity (g : Group) (sk : bytes) (s : SigningIdentity) (aad leaf_seed seed : bytes)
    : Result MlsError MlsMessage * Group :=
  try p, g ← update_proposal g (Some sk) (Some s) leaf_seed; proposal_message g p aad seed.
Definition propose_remove (g : Group) (i : Z) (aad seed : bytes) : Result MlsError MlsMessage * Group :=
  try p, g ← st_lift (remove_proposal g i) g; proposal_message g p aad seed.
Definition propose_external_psk (g : Group) (id aad nonce_seed seed : bytes) : Result MlsError MlsMessage * Group :=
  try p, g ← st_lift (psk_proposal g (ExternalPsk id) nonce_seed) g; proposal_message g p aad seed.
Definition propose_resumption_psk (g : Group) (n : Z) (aad nonce_seed seed : bytes) : Result MlsError MlsMessage * Group :=
  try p, g ← st_lift (psk_proposal g (resumption_key_id g n) nonce_seed) g; proposal_message g p aad seed.
Definition propose_reinit (g : Group) (gid : option bytes) (version cipher_suite : Z) (exts : ExtensionList.t)
    (aad gid_seed seed : bytes) : Result MlsError MlsMessage * Group :=
  try p, g ← st_lift (reinit_proposal g gid version cipher_suite exts gid_seed) g; proposal_message g p aad seed.
Definition propose_group_context_extensions (g : Group) (exts : ExtensionList.t) (aad seed : bytes)
    : Result MlsError MlsMessage * Group :=
  proposal_message g (GroupContextExtensions exts) aad seed.
Definition propose_custom (g : Group) (p : CustomProposal) (aad seed : bytes) : Result MlsError MlsMessage * Group :=
  proposal_message g (Custom p) aad seed.

Definition encrypt_application_message (g : Group) (message authenticated_data seed : bytes)
    : Result MlsError MlsMessage * Group :=
  if negb (cache_is_empty (gs_proposals (g_state g))) then (Err CommitRequired, g)
  else
    try a, g ← st_lift (new_signed (g_csp g) (group_ctx g) (Member (current_member_index g)) (ApplicationContent message)
                          (signer g) WirePrivateMessage authenticated_data) g;
    format_for_wire g a seed.

(** The keys of the secret tree for applications that encrypt themselves. *)
Definition group_next_encryption_key (g : Group) : Result MlsError SecretTree.MessageKeyData * Group :=
  next_encryption_key (g_csp g) g SecretTree.Application.
Definition derive_decryption_key (g : Group) (sender generation : Z) : Result MlsError SecretTree.MessageKeyData * Group :=
  decryption_key (g_csp g) g sender SecretTree.Application generation.

(** ** Group information *)
Definition sign_group_info (csp : CipherSuiteProvider) (sk : bytes) (i : GroupInfo) : Result MlsError GroupInfo :=
  s ← sign csp sk (ascii "GroupInfoTBS") (group_info_tbs i);
  Ok {| gi_group_context := gi_group_context i; gi_extensions := gi_extensions i;
        gi_confirmation_tag := gi_confirmation_tag i; gi_signer := gi_signer i; gi_signature := s |}.

Definition group_info_message_internal (g : Group) (exts : ExtensionList.t) (with_tree : bool) : Result MlsError MlsMessage :=
  exts ← (if with_tree then from_extension_error (set_from exts {| tree_data := export_tree g |}) else Ok exts);
  i ← sign_group_info (g_csp g) (signer g)
    {| gi_group_context := group_ctx g; gi_extensions := exts; gi_confirmation_tag := gs_confirmation_tag (g_state g);
       gi_signer := current_member_index g; gi_signature := [] |};
  Ok {| msg_version := protocol_version (group_ctx g); payload := GroupInfoPayload i |}.

Definition group_info_message (g : Group) (with_tree : bool) : Result MlsError MlsMessage :=
  group_info_message_internal g [] with_tree.

Definition group_info_message_allowing_ext_commit (g : Group) (with_tree : bool) : Result MlsError MlsMessage :=
  k ← get_external_key_pair_ext (g_csp g) (g_key_schedule g);
  exts ← from_extension_error (set_from [] {| external_pub := k |});
  group_info_message_internal g exts with_tree.

(** ** Receiving *)
Definition decrypt_incoming_ciphertext (g : Group) (m : PrivateMessage) : Result MlsError AuthenticatedContent * Group :=
  if pr_epoch m =? epoch (group_ctx g) then
    try c, g ← open (g_csp g) g m;
    try _, g ← st_lift (verify_auth_content_signature (g_csp g) (RatchetTree (public_tree (g_state g))) (group_ctx g) c []) g;
    (Ok c, g)
  else
    let '(found, repo) := get_epoch_mut (state_repo g) (pr_epoch m) in
    try found, g ← (found, set_state_repo g repo);
    match found with
    | Some x =>
        match deref repo x with
        | Some e =>
            let '(c, e') := open (g_csp g) e m in
            try c, g ← (c, set_state_repo g (store repo x e'));
            try _, g ← st_lift (verify_auth_content_signature (g_csp g) (KeyList (signature_public_keys e')) (context e') c []) g;
            (Ok c, g)
        | None => (Panic, g)
        end
    | None => (Err EpochNotFound, g)
    end.

(** *** The member's side of a commit *)
Definition blank_keys (ns : NodeVec) (self : Z) (keys : list (option bytes)) : Result MlsError (list (option bytes)) :=
  let path := direct_copath ns self in
  foldM (λ keys '(i, n), blank ← is_blank ns (TreeMath.path n);
                         if (blank : bool) then vec_store keys (Z.of_nat i + 1) None else Ok keys)
    (vec_resize keys (len path + 1) None) (imap pair path).

Definition provisional_private_tree (g : Group) (p : ProvisionalState)
    : Result MlsError (Kem.TreeKemPrivate * option bytes) :=
  let self := current_member_index g in
  keys ← blank_keys (nodes (ps_tree p)) self (Kem.secret_keys (private_tree g));
  let t := {| Kem.self_index := self; Kem.secret_keys := keys |} in
  match find (λ u, bool_decide (info_sender u = Member self)) (Proposal.updates (ps_applied p)) with
  | Some u =>
      let new_leaf := pending_updates g !! leaf_public_key (proposal u) in
      sk ← ok_or (fst <$> new_leaf) UpdateErrorNoSecretKey;
      t ← Kem.update_leaf t sk;
      Ok (t, new_leaf ≫= snd)
  | None => Ok (t, None)
  end.

Definition group_apply_update_path (g : Group) (sender : Z) (path : Kem.ValidatedUpdatePath) (p : ProvisionalState)
    : Result MlsError (option CommitSecrets * ProvisionalState) * Group :=
  let csp := g_csp g in
  try (t, new_signer), g ← st_lift (provisional_private_tree g p) g;
  let g := match new_signer with Some s => set_signer g s | None => g end in
  try p, g ← st_lift (public_apply_update_path (cfg_identity_provider (g_config g)) csp sender path p) g;
  if sender =? current_member_index g then
    try pending, g ← st_lift (ok_or (g_pending_commit g) CantProcessMessageFromSelf) g;
    (Ok (Some (pending_private_tree pending, pending_commit_secret pending), p), g)
  else
    st_lift
      ('(h, tree) ← TreeHash.root_hash csp (ps_tree p);
       let p := set_context (set_tree p tree) (with_tree_hash (ps_context p) h) in
       context_bytes ← from_codec_error (mls_encode_to_vec group_context_codec (ps_context p));
       '(root_secret, t) ← Kem.decap csp (ps_tree p) t sender path (ps_added p) context_bytes;
       Ok (Some (t, root_secret), p)) g.

Definition psk_resolver (g : Group) : PskResolver S K P := {|
  group_context := Some (group_ctx g); current_epoch := Some (g_epoch_secrets g); prior_epochs := Some (state_repo g);
  psk_store := secret_store (g_config g) |}.

Definition get_psk (g : Group) (l : list (ProposalInfo PreSharedKeyID)) : Result MlsError (bytes * list PreSharedKeyID) :=
  match previous_psk g with
  | Some psk => s ← psk_secret_calculate (g_csp g) [psk]; Ok (s, [input_id psk])
  | None =>
      let ids := proposal <$> l in
      s ← resolve_to_secret (g_csp g) (psk_resolver g) ids; Ok (s, ids)
  end.

(** The epoch that ends. *)
Definition past_epoch (g : Group) : PriorEpoch := {|
  context := group_ctx g; self_index := current_member_index g; Epoch.epoch_secrets := g_epoch_secrets g;
  signature_public_keys := fmap (M:=list) (fmap (M:=option) (λ l, signature_key (signing_identity l)))
                             (leaves (nodes (public_tree (g_state g)))) |}.

(** The assignments at the end of [update_key_schedule]. *)
Definition enter_epoch (g : Group) (r : KeyScheduleDerivationResult) (p : ProvisionalState) (interim tag : bytes) : Group := {|
  g_config := g_config g; g_csp := g_csp g; state_repo := state_repo g;
  g_state := {| gs_proposals := cache_clear (gs_proposals (g_state g)); gs_context := ps_context p;
                public_tree := ps_tree p; interim_transcript_hash := interim;
                pending_reinit := pending_reinit (g_state g); gs_confirmation_tag := tag |};
  g_epoch_secrets := KeySchedule.epoch_secrets r; private_tree := private_tree g; g_key_schedule := key_schedule r;
  pending_updates := ∅; g_pending_commit := None; previous_psk := previous_psk g; signer := signer g |}.

Definition commit_key_schedule (g : Group) (p : ProvisionalState) : Result MlsError KeySchedule :=
  match head (external_initializations (ps_applied p)), g_pending_commit g with
  | Some ext_init, None => derive_for_external (g_csp g) (g_key_schedule g) (proposal ext_init)
  | _, _ => Ok (g_key_schedule g)
  end.

Definition group_update_key_schedule (g : Group) (secrets : option CommitSecrets) (interim tag : bytes) (p : ProvisionalState)
    : Result MlsError unit * Group :=
  let csp := g_csp g in
  let '(g, commit_secret) := match secrets with
    | Some (t, s) => (set_private_tree g t, s)
    | None => (g, Kem.path_secret_empty csp)
    end in
  try k, g ← st_lift (commit_key_schedule g p) g;
  try (psk, _), g ← st_lift (get_psk g (Proposal.psks (ps_applied p))) g;
  try r, g ← st_lift (from_key_schedule csp k commit_secret (ps_context p) (total_leaf_count (nodes (ps_tree p))) psk) g;
  try new_tag, g ← st_lift (confirmation_tag_create csp (confirmation_key r) (confirmed_transcript_hash (ps_context p))) g;
  if negb (bool_decide (new_tag = tag)) then (Err InvalidConfirmationTag, g)
  else
    let '(inserted, repo) := repo_insert (state_repo g) (past_epoch g) in
    try _, g ← (inserted, set_state_repo g repo);
    (Ok tt, enter_epoch g r p interim new_tag).

Definition removes_self (g : Group) (p : ProvisionalState) : bool :=
  existsb (λ r, proposal r =? current_member_index g) (removals (ps_applied p)).

#[export] Instance group_processor : MessageProcessor Group ReceivedMessage R P := {|
  group_state := g_state;
  set_group_state := set_state;
  mls_rules g := cfg_mls_rules (g_config g);
  mp_identity_provider g := cfg_identity_provider (g_config g);
  mp_cipher_suite_provider := g_csp;
  mp_psk_storage g := secret_store (g_config g);
  can_continue_processing g p := negb (removes_self g p && bool_decide (g_pending_commit g = None));
  min_epoch_available _ := None;
  process_ciphertext g m := try c, g ← decrypt_incoming_ciphertext g m; (Ok (AuthContent c), g);
  verify_plaintext g m :=
    a ← verify_plaintext_authentication (g_csp g) m (Some (g_key_schedule g)) (Some (current_member_index g)) (g_state g);
    Ok (AuthContent a);
  mp_apply_update_path := group_apply_update_path;
  update_key_schedule := group_update_key_schedule |}.

Definition apply_pending_commit (g : Group) : Result MlsError CommitMessageDescription * Group :=
  try pending, g ← st_lift (ok_or (g_pending_commit g) PendingCommitNotFound) g;
  process_commit g (pending_content pending) None.

(** [CommitHash::compute] of commit.rs. *)
Definition commit_hash (csp : CipherSuiteProvider) (m : MlsMessage) : Result MlsError bytes :=
  b ← from_codec_error (mls_encode_to_vec mls_message_codec m); crypto (csp_hash csp b).

Definition group_process_incoming_message (g : Group) (now : Z) (m : MlsMessage) : Result MlsError ReceivedMessage * Group :=
  match g_pending_commit g with
  | Some pending =>
      try h, g ← st_lift (commit_hash (g_csp g) m) g;
      if bool_decide (h = commit_message_hash pending)
      then try d, g ← apply_pending_commit g; (Ok (CommitMessage d), g)
      else process_incoming_message g now m true
  | None => process_incoming_message g now m true
  end.

Definition group_process_incoming_message_with_time (g : Group) (now : Z) (m : MlsMessage) (time : Z)
    : Result MlsError ReceivedMessage * Group :=
  process_incoming_message_with_time g now m true (Some time).
End group.
