(* ===== verification/GroupLaws.v ===== *)
(** * A member follows the protocol (mls-rs/src/group/mod.rs)

    A group satisfies the laws of a message processor, so every run of it is a run
    of the abstract machine.  What a failing commit may change, when a commit is
    accepted, and who has signed what is accepted. *)
From S2P Require Import Prelude Codec Types Node TreeIndex Crypto TreeHash Proposal GroupContext Kem SecretTree Framing Epoch KeySchedule Storage StateRepo PrivateMessage GroupState Auth Psk Rules Provisional MessageProcessor ProcessorLaws Config Group.

Section laws.
Context {order : MapOrder} {S K P R : Type}.
Context `{!GroupStateStorage S} `{!KeyPackageStorage K} `{!PreSharedKeyStorage P} `{!MlsRules R}.
Notation Group := (Group S K P R).
Implicit Types (g : Group).

(** Everything but the secrets of the epoch and the repository is as it was. *)
Record same_core g g' : Prop := {
  sc_config : g_config g' = g_config g;
  sc_csp : g_csp g' = g_csp g;
  sc_state : g_state g' = g_state g;
  sc_private : private_tree g' = private_tree g;
  sc_schedule : g_key_schedule g' = g_key_schedule g;
  sc_updates : pending_updates g' = pending_updates g;
  sc_commit : g_pending_commit g' = g_pending_commit g;
  sc_psk : previous_psk g' = previous_psk g;
  sc_signer : signer g' = signer g;
}.

#[global] Instance same_core_refl : Reflexive same_core.
Proof. by intros []. Qed.
#[global] Instance same_core_trans : Transitive same_core.
Proof. intros g1 g2 g3 [] []. split; congruence. Qed.

Lemma set_epoch_secrets_core g e : same_core g (set_epoch_secrets g e).
Proof. done. Qed.
Lemma set_state_repo_core g r : same_core g (set_state_repo g r).
Proof. done. Qed.

(** Steps through a method, keeping a property of the state. *)
Ltac through := repeat (first [apply st_bind_state; [|intros ? ?]|case_match]); cbn [fst snd st_lift].

(** Sealing and opening change the secrets of the epoch only. *)
Definition only_secrets g g' : Prop := ∃ e, g' = set_epoch_secrets g e.

Lemma only_secrets_refl g : only_secrets g g.
Proof. exists (g_epoch_secrets g). by destruct g. Qed.

Lemma decryption_key_secrets csp g i kt n : only_secrets g (decryption_key csp g i kt n).2.
Proof. unfold decryption_key. destruct (SecretTree.tree_message_key_generation _ _ _ _ _). by eexists. Qed.

Lemma next_encryption_key_secrets csp g kt : only_secrets g (PrivateMessage.next_encryption_key csp g kt).2.
Proof. unfold PrivateMessage.next_encryption_key. destruct (SecretTree.tree_next_message_key _ _ _ _). by eexists. Qed.

Lemma open_secrets csp g m : only_secrets g (open csp g m).2.
Proof. unfold open. through; first [apply only_secrets_refl|apply decryption_key_secrets]. Qed.

Lemma seal_secrets csp g a padding seed : only_secrets g (seal csp g a padding seed).2.
Proof. unfold seal. through; first [apply only_secrets_refl|apply next_encryption_key_secrets]. Qed.

Lemma open_core csp g m : same_core g (open csp g m).2.
Proof. by destruct (open_secrets csp g m) as (e & ->). Qed.

Lemma decrypt_core g m : same_core g (decrypt_incoming_ciphertext g m).2.
Proof.
  unfold decrypt_incoming_ciphertext. destruct (_ =? _).
  - through; apply open_core.
  - destruct (get_epoch_mut _ _) as [found repo]. by through.
Qed.

(** Applying a path changes the signer at most. *)
Lemma apply_path_core g i v p : ∃ s, (group_apply_update_path g i v p).2 = set_signer g s.
Proof.
  unfold group_apply_update_path. apply (st_bind_state (λ h, ∃ s, h = set_signer g s)); [exists (signer g); by destruct g|].
  intros [t o] _. cbn [st_lift snd].
  assert (∃ s, match o with Some s => set_signer g s | None => g end = set_signer g s) as (s & ->).
  { destruct o as [s|]; [by exists s|]. exists (signer g). by destruct g. }
  apply (st_bind_state (λ h, ∃ s, h = set_signer g s)); [by exists s|]. intros p' _. destruct (_ =? _); [|by exists s].
  apply (st_bind_state (λ h, ∃ s, h = set_signer g s)); [by exists s|]. intros c _. by exists s.
Qed.

Lemma public_path_result ip csp sender path p p' :
  public_apply_update_path ip csp sender path p = Ok p' → ps_applied p' = ps_applied p ∧ ps_context p' = ps_context p ∧
    ps_added p' = ps_added p.
Proof. unfold public_apply_update_path. by intros (t & _ & [= <-])%bind_ok. Qed.

Lemma apply_path_result g i v p x p' :
  (group_apply_update_path g i v p).1 = Ok (x, p') →
  ps_applied p' = ps_applied p ∧ with_tree_hash (ps_context p) (tree_hash (ps_context p')) = ps_context p'.
Proof.
  destruct (group_apply_update_path g i v p) as [r g'] eqn:E. cbn [fst]. intros ->. unfold group_apply_update_path in E.
  apply st_bind_ok in E as ([t o] & g1 & _ & E). apply st_bind_ok in E as (p1 & g2 & [= Hp _] & E).
  apply public_path_result in Hp as (Ha & Hc & _). destruct (_ =? _).
  - apply st_bind_ok in E as (c & g3 & _ & [= _ <- _]). split; [done|]. rewrite Hc. by destruct (ps_context p).
  - injection E as E _. apply bind_ok in E as ([h tree] & _ & E). apply bind_ok in E as (b & _ & E).
    apply bind_ok in E as ([root t'] & _ & [= _ <-]). cbn. by rewrite Hc.
Qed.

Lemma repo_insert_refused (r : GroupStateRepository S K) e x r' : repo_insert r e = (x, r') → x ≠ Ok tt → r' = r.
Proof.
  unfold repo_insert, st_lift. case_bool_decide; [by intros [= <- <-]|].
  destruct (find_max_id r) as [[id|]| | |]; cbn [st_bind]; [destruct (_ =? _)|..]; by intros [= <- <-].
Qed.

(** [update_key_schedule], with the keys of the path already in place. *)
Definition with_path_keys g (secrets : option CommitSecrets) : Group :=
  match secrets with Some (t, _) => set_private_tree g t | None => g end.

Lemma update_key_schedule_result g secrets interim tag p :
  let g1 := with_path_keys g secrets in
  match group_update_key_schedule g secrets interim tag p with
  | (Ok _, g') => ∃ r repo, g' = enter_epoch (set_state_repo g1 repo) r p interim tag ∧
      repo_insert (state_repo g) (past_epoch g1) = (Ok tt, repo) ∧
      confirmation_tag_create (g_csp g) (confirmation_key r) (confirmed_transcript_hash (ps_context p)) = Ok tag ∧
      ∃ last commit_secret psk,
        from_key_schedule (g_csp g) last commit_secret (ps_context p) (Node.total_leaf_count (nodes (ps_tree p))) psk = Ok r
  | (_, g') => g' = g1
  end.
Proof.
  intros g1. unfold group_update_key_schedule.
  assert (match secrets with Some (t, s) => (set_private_tree g t, s) | None => (g, Kem.path_secret_empty (g_csp g)) end =
    (g1, match secrets with Some (_, s) => s | None => Kem.path_secret_empty (g_csp g) end)) as -> by (by destruct secrets as [[]|]).
  assert (g_csp g1 = g_csp g ∧ state_repo g1 = state_repo g) as [Hcsp Hrepo] by (unfold g1; by destruct secrets as [[]|]).
  unfold st_lift. destruct (commit_key_schedule g1 p) as [k| | |]; cbn [st_bind]; try done.
  destruct (get_psk g1 _) as [[psk ids]| | |]; cbn [st_bind]; try done.
  destruct (from_key_schedule _ _ _ _ _ _) as [r| | |] eqn:Ek; cbn [st_bind]; try done.
  destruct (confirmation_tag_create _ _ _) as [new| | |] eqn:Et; cbn [st_bind]; try done.
  case_bool_decide as Htag; cbn [negb]; [subst new|done]. rewrite Hrepo.
  destruct (repo_insert _ _) as [[[]| | |] repo] eqn:Er; cbn [st_bind]; [exists r, repo; split_and!; eauto|..].
  all: apply repo_insert_refused in Er as ->; [|done]; rewrite <- Hrepo; by destruct g1.
Qed.

Lemma decrypt_repo g m : repo_group_id (state_repo (decrypt_incoming_ciphertext g m).2) = repo_group_id (state_repo g).
Proof.
  unfold decrypt_incoming_ciphertext. destruct (_ =? _).
  - apply (st_bind_state (λ h, repo_group_id (state_repo h) = repo_group_id (state_repo g))).
    { by destruct (open_secrets (g_csp g) g m) as (e & ->). }
    intros c _. destruct (open_secrets (g_csp g) g m) as (e & ->). by apply (st_bind_state (λ h, repo_group_id (state_repo h) = repo_group_id (state_repo g))).
  - pose proof (get_epoch_mut_group (state_repo g) (pr_epoch m)) as Hr. destruct (get_epoch_mut _ _) as [found repo]. cbn [snd] in Hr.
    apply (st_bind_state (λ h, repo_group_id (state_repo h) = repo_group_id (state_repo g))); [done|]. intros [x|] _; [|done].
    destruct (deref repo x) as [e|]; [|done]. destruct (open _ e m) as [c e'].
    apply (st_bind_state (λ h, repo_group_id (state_repo h) = repo_group_id (state_repo g))); [done|]. intros c' _.
    by apply (st_bind_state (λ h, repo_group_id (state_repo h) = repo_group_id (state_repo g))).
Qed.

#[export] Instance group_laws : MessageProcessorLaws Group ReceivedMessage R P.
Proof.
  split; cbn [group_state set_group_state mp_cipher_suite_provider process_ciphertext mp_apply_update_path update_key_schedule group_processor].
  - done.
  - done.
  - intros g m. pose proof (decrypt_core g m) as H. destruct (decrypt_incoming_ciphertext g m) as [[] g']; apply H.
  - intros g m. pose proof (decrypt_core g m) as H. destruct (decrypt_incoming_ciphertext g m) as [[] g']; apply H.
  - intros g i v p. by destruct (apply_path_core g i v p) as (s & ->).
  - intros g i v p. by destruct (apply_path_core g i v p) as (s & ->).
  - apply apply_path_result.
  - intros g x i t p. pose proof (update_key_schedule_result g x i t p) as H. cbv zeta in H.
    destruct (group_update_key_schedule g x i t p) as [[[]| | |] g']; cbn [snd].
    1: destruct H as (r & repo & -> & _). 2-4: subst g'. all: by destruct x as [[]|].
  - intros g x i t p. pose proof (update_key_schedule_result g x i t p) as H. cbv zeta in H.
    destruct (group_update_key_schedule g x i t p) as [[[]| | |] g']; cbn [fst snd].
    1: destruct H as (r & repo & -> & _). 2-4: subst g'. all: by destruct x as [[]|].
Qed.

(** ** Commits *)

(** [g'] is [g] except for what processing a commit assigns before the commit is
    known to be right. *)
Record refused g g' : Prop := {
  rf_config : g_config g' = g_config g;
  rf_csp : g_csp g' = g_csp g;
  rf_repo : state_repo g' = state_repo g;
  rf_state : g_state g' = g_state g ∨ pending_reinit (g_state g) = None ∧ ∃ r, g_state g' = with_pending_reinit (g_state g) r;
  rf_secrets : g_epoch_secrets g' = g_epoch_secrets g;
  rf_schedule : g_key_schedule g' = g_key_schedule g;
  rf_updates : pending_updates g' = pending_updates g;
  rf_commit : g_pending_commit g' = g_pending_commit g;
  rf_psk : previous_psk g' = previous_psk g;
}.

Lemma refused_refl g : refused g g.
Proof. split; auto. Qed.

Lemma refused_set_signer g s : refused g (set_signer g s).
Proof. split; auto. Qed.

Lemma process_path_refused g p path sender time :
  ∃ s, (process_path g p path sender time).2 = set_signer g s.
Proof.
  destruct path as [path|]; cbn [process_path]; [|exists (signer g); by destruct g].
  unfold st_lift. destruct (validate_update_path _ _ _ _ _ _); cbn [st_bind snd]; try (exists (signer g); by destruct g).
  apply apply_path_core.
Qed.

(** What a commit that is accepted has been checked against, and the group after it. *)
Record entered g (a : AuthenticatedContent) g' : Prop := {
  en_public : accepted_commit (g_csp g) (g_state g) a (g_state g');
  en_confirmed : ∃ k last commit_secret psk,
    from_key_schedule (g_csp g) last commit_secret (group_ctx g') (Node.total_leaf_count (nodes (public_tree (g_state g')))) psk = Ok k ∧
    g_key_schedule g' = key_schedule k ∧ g_epoch_secrets g' = KeySchedule.epoch_secrets k ∧
    confirmation_tag_create (g_csp g) (confirmation_key k) (confirmed_transcript_hash (group_ctx g')) =
      Ok (gs_confirmation_tag (g_state g'));
  en_past : ∃ e, repo_insert (state_repo g) e = (Ok tt, state_repo g') ∧ context e = group_ctx g ∧
    Epoch.epoch_secrets e = g_epoch_secrets g;
  en_config : g_config g' = g_config g;
  en_csp : g_csp g' = g_csp g;
  en_cleared : g_pending_commit g' = None ∧ pending_updates g' = ∅;
}.

Lemma prepared_refused g g2 : prepared g g2 → refused g g2.
Proof.
  intros (p & path & sender & time & H). cbv zeta in H. destruct (process_path_refused g p path sender time) as (s & Hs).
  rewrite Hs in H. destruct H as [->|[Hp (r & ->)]]; [apply refused_set_signer|]. split; try done. right. split; [done|]. by exists r.
Qed.

Lemma with_path_keys_refused g g2 x : refused g g2 → refused g (with_path_keys g2 x).
Proof. intros []. by destruct x as [[]|]; split. Qed.

(** A commit, accepted or not, is processed under the same configuration and leaves
    the repository the group's. *)
Lemma repo_insert_group (r : GroupStateRepository S K) e : repo_group_id (repo_insert r e).2 = repo_group_id r.
Proof.
  unfold repo_insert, st_lift. case_bool_decide; [done|].
  destruct (find_max_id r) as [[id|]| | |]; cbn [st_bind]; [destruct (_ =? _)|..]; done.
Qed.

Lemma commit_keeps g a time :
  g_config (process_commit g a time).2 = g_config g ∧
  repo_group_id (state_repo (process_commit g a time).2) = repo_group_id (state_repo g).
Proof.
  assert (∀ g2 x i t p, prepared g g2 → g_config (group_update_key_schedule g2 x i t p).2 = g_config g ∧
    repo_group_id (state_repo (group_update_key_schedule g2 x i t p).2) = repo_group_id (state_repo g)) as H1.
  { intros g2 x i t p Hp. apply prepared_refused, (with_path_keys_refused _ _ x) in Hp as [].
    pose proof (update_key_schedule_result g2 x i t p) as H. cbv zeta in H.
    destruct (group_update_key_schedule g2 x i t p) as [[]]; cbn [snd]; [|subst; split; congruence..].
    destruct H as (r & repo & -> & Hins & _). assert (state_repo g2 = state_repo g) as E by (by destruct x as [[]|]).
    split; [done|]. cbn. pose proof (repo_insert_group (state_repo g2) (past_epoch (with_path_keys g2 x))) as H.
    rewrite Hins in H. cbn in H. congruence. }
  pose proof (process_commit_outcome g a time) as H. destruct (process_commit g a time) as [[d|e| |] g']; cbn [fst snd] in *.
  1:{ destruct H as [[-> _]%stops_inactive|(_ & Ha & g2 & x & i & t & p & Hp & Hk)]; [done|]. specialize (H1 g2 x i t p Hp). cbn in Hk. by rewrite Hk in H1. }
  all: destruct H as [->|[Hp|(g2 & x & i & t & p & Hp & -> & Hk)]]; [done|apply prepared_refused in Hp as []; split; congruence|by apply H1].
Qed.

(** What becomes of the group. *)
Definition outcome_of g (a : AuthenticatedContent) (time : option Z) (r : Result MlsError CommitMessageDescription * Group) : Prop :=
  match r with
  | (Ok d, g') => stops a time g d g' ∨ goes_on a time g ∧ entered g a g'
  | (_, g') => refused g g'
  end.

Lemma commit_outcome g a time : outcome_of g a time (process_commit g a time).
Proof.
  assert (∀ g2 x i t p, prepared g g2 → is_ok (group_update_key_schedule g2 x i t p).1 = false →
    refused g (group_update_key_schedule g2 x i t p).2) as Hfail.
  { intros g2 x i t p Hp Hk. pose proof (update_key_schedule_result g2 x i t p) as H. cbv zeta in H.
    destruct (group_update_key_schedule g2 x i t p) as [[]]; try done; cbn [snd]; subst; by apply with_path_keys_refused, prepared_refused. }
  pose proof (process_commit_outcome g a time) as H. destruct (process_commit g a time) as [[d|e| |] g']; cbn [fst snd] in H.
  2-4: destruct H as [->|[Hp|(g2 & x & i & t & p & Hp & -> & Hk)]]; [apply refused_refl|by apply prepared_refused|by apply Hfail].
  destruct H as [H|(Hon & Ha & g2 & x & i & t & p & Hp & Hk)]; [by left|right; split; [done|]].
  apply prepared_refused, (with_path_keys_refused _ _ x) in Hp as [Hconf Hcsp Hrepo Hst Hsec Hks Hup Hpc Hpsk].
  pose proof (update_key_schedule_result g2 x i t p) as Hr. cbv zeta in Hr. cbn in Hk. rewrite Hk in Hr.
  destruct Hr as (k & repo & -> & Hins & Htag & last & cs & psk & Hfk).
  assert (state_repo g2 = state_repo g ∧ g_csp g2 = g_csp g) as [Hrepo2 Hcsp2] by (by destruct x as [[]|]).
  split; try done.
  - exists k, last, cs, psk. rewrite <- Hcsp2. by split_and!.
  - exists (past_epoch (with_path_keys g2 x)). rewrite <- Hrepo2. split_and!; [exact Hins| |exact Hsec].
    cbn. unfold group_ctx. by destruct Hst as [->|[_ (r & ->)]].
Qed.

(** Whether a commit that was read removes the member, by the proposals it applies. *)
Definition removes_member g (p : ProvisionalState) : Prop := ∃ r, r ∈ removals (ps_applied p) ∧ proposal r = current_member_index g.

Lemma removes_self_spec g p : removes_self g p = true ↔ removes_member g p.
Proof.
  unfold removes_self, removes_member. rewrite existsb_exists. setoid_rewrite list_elem_of_In. by setoid_rewrite Z.eqb_eq.
Qed.

Lemma continues_spec g p : can_continue_processing g p = false ↔ removes_member g p ∧ g_pending_commit g = None.
Proof.
  cbn [can_continue_processing group_processor]. rewrite negb_false_iff, andb_true_iff, removes_self_spec. by rewrite bool_decide_eq_true.
Qed.

(** The member is told that the commit removes it: one of the removals that the commit
    applies is of its leaf, it has no commit of its own pending, the description says
    who removed it and that it is no longer active, and its group stays as it was. *)
Definition told_removed g (a : AuthenticatedContent) (time : option Z) (d : CommitMessageDescription) g' : Prop :=
  ∃ c interim confirmed p sender u, commit_read g a time c interim confirmed p sender u ∧
    removes_member g p ∧ g_pending_commit g = None ∧ g' = g ∧ committer d = sender ∧ active (state_update d) = false.

(** The commit does not remove the member, unless it has a commit of its own pending. *)
Definition kept g (a : AuthenticatedContent) (time : option Z) : Prop :=
  ∃ c interim confirmed p sender u, commit_read g a time c interim confirmed p sender u ∧
    (removes_member g p → g_pending_commit g ≠ None).

(** C3. What a member does with a commit.  Either the commit applies a removal of the
    member's own leaf, the member has no commit of its own pending, and it is told so
    while nothing changes; or the commit does not remove it (or it has a commit pending)
    and is accepted, and then its confirmation tag is the
    one of the secrets of the new epoch over the transcript, those are the secrets the
    member goes on with, the old epoch is kept, and the pending commit and the
    pending updates are gone; or the commit is refused, and then the epoch, its
    secrets, the past epochs and everything pending are as they were (what may change
    in spite of the error is the private tree, the signer and the pending
    reinitialization). *)
Theorem commit_accepted_or_refused g a time :
  match process_commit g a time with
  | (Ok d, g') => told_removed g a time d g' ∨ kept g a time ∧ entered g a g'
  | (_, g') => refused g g'
  end.
Proof.
  pose proof (commit_outcome g a time) as H. unfold outcome_of in H. destruct (process_commit g a time) as [[d|e| |] g']; [|exact H..].
  destruct H as [(c & i & cf & p & s & u & Hr & [Hm Hp]%continues_spec & -> & ->)|[(c & i & cf & p & s & u & Hr & Hc) He]].
  - left. by exists c, i, cf, p, s, u.
  - right. split; [|done]. exists c, i, cf, p, s, u. split; [done|]. intros Hm Hn.
    rewrite (proj2 (continues_spec g p) (conj Hm Hn)) in Hc. done.
Qed.
End laws.

(** What every group has: the provider of its cipher suite, the repository of its
    identifier, and a cache that carries version and identifier of the context. *)
Record group_consistent {S K P R} (g : Group S K P R) : Prop := {
  gc_provider : crypto_provider (g_config g) (gc_cipher_suite (group_ctx g)) = Some (g_csp g);
  gc_repo : repo_group_id (state_repo g) = group_id (group_ctx g);
  gc_cache : cache_matches (g_state g);
}.
