(* ===== verification/Faults.v ===== *)
(** * Where processing goes wrong (mls-rs/src/group/message_processor.rs, group/mod.rs, tree_kem/kem.rs)

    Two faults of the code that processes commits, for every group and every commit
    that meets their conditions: what a commit with a wrong confirmation tag leaves
    behind, and the panic of a member that is removed while it has a commit of its own
    pending.  Runs in which the conditions are met are in [Scenario]. *)
From S2P Require Import Prelude Codec Types Node TreeMath TreeIndex Crypto TreeHash Proposal TreeKem GroupContext Kem SecretTree Framing Epoch KeySchedule Storage StateRepo PrivateMessage GroupState Auth Psk Rules Provisional MessageProcessor ProcessorLaws Config Group GroupLaws.
Import Node TreeHash.

Section faults.
Context {order : MapOrder} {S K P R : Type}.
Context `{!GroupStateStorage S} `{!KeyPackageStorage K} `{!PreSharedKeyStorage P} `{!MlsRules R}.
Notation Group := (Group S K P R).
Implicit Types (g : Group).

(** ** A wrong confirmation tag *)

(** The tag is hashed into the interim transcript only. *)
Lemma retagged_transcript csp s a tag interim confirmed x :
  transcript_hashes csp s a = Ok (interim, confirmed) → transcript_hashes csp s (with_confirmation_tag a (Some tag)) = Ok x →
  ∃ i, transcript_hashes csp s (with_confirmation_tag a (Some tag)) = Ok (i, confirmed).
Proof.
  unfold transcript_hashes. intros (c & Hc & H)%bind_ok.
  assert (confirmed_transcript_hash_create csp s (with_confirmation_tag a (Some tag)) = Ok c) as -> by exact Hc.
  apply bind_ok in H as (t & _ & H). apply bind_ok in H as (i & _ & [= <- <-]). cbn [mbind result_bind with_confirmation_tag auth confirmation_tag ok_or].
  intros (j & -> & _)%bind_ok. by exists j.
Qed.

(** A commit that is read is read the same under another tag. *)
Lemma commit_read_retagged g a time c interim confirmed p sender u tag x :
  commit_read g a time c interim confirmed p sender u →
  transcript_hashes (g_csp g) (interim_transcript_hash (g_state g)) (with_confirmation_tag a (Some tag)) = Ok x →
  ∃ i, commit_read g (with_confirmation_tag a (Some tag)) time c i confirmed p sender u.
Proof.
  intros [Hp Hh Hc Hv Hs Hu Hpath] Hx. destruct (retagged_transcript _ _ _ _ _ _ _ Hh Hx) as (i & Hi). exists i.
  by split.
Qed.

(** What the key schedule that fails at the tag leaves, against the one that succeeds. *)
Lemma schedule_retagged g secrets interim interim' tag tag' p g' :
  group_update_key_schedule g secrets interim tag p = (Ok tt, g') → tag' ≠ tag →
  group_update_key_schedule g secrets interim' tag' p = (Err InvalidConfirmationTag, with_path_keys g secrets) ∧
  private_tree g' = private_tree (with_path_keys g secrets) ∧ signer g' = signer g ∧
  pending_reinit (g_state g') = pending_reinit (g_state g).
Proof.
  intros H Hne. unfold group_update_key_schedule in *. set (g1 := with_path_keys g secrets) in *.
  assert (match secrets with Some (t, s) => (set_private_tree g t, s) | None => (g, Kem.path_secret_empty (g_csp g)) end =
    (g1, match secrets with Some (_, s) => s | None => Kem.path_secret_empty (g_csp g) end)) as Heq by (by destruct secrets as [[]|]).
  rewrite Heq in *. unfold st_lift in *. apply st_bind_ok in H as (k & g2 & [= Hk <-] & H). apply st_bind_ok in H as ([psk ids] & g2 & [= Hp <-] & H).
  apply st_bind_ok in H as (r & g2 & [= Hr <-] & H). apply st_bind_ok in H as (t & g2 & [= Ht <-] & H).
  rewrite Hk. cbn [st_bind]. rewrite Hp. cbn [st_bind]. rewrite Hr. cbn [st_bind]. rewrite Ht. cbn [st_bind].
  case_bool_decide as Htag; [|done]. subst t. rewrite bool_decide_eq_false_2 by congruence. cbn [negb] in *.
  destruct (repo_insert _ _) as [ins repo]. apply st_bind_ok in H as ([] & g2 & [= _ <-] & [= <-]). unfold g1. by destruct secrets as [[]|].
Qed.

(** C37. A commit with a wrong confirmation tag leaves its keys behind.  Take a commit
    that a member processes and goes on with (it does not stop there because it is
    removed), and the same commit under any other confirmation tag, whose transcript
    hash can be computed.  The second is refused with InvalidConfirmationTag and the
    epoch, its secrets and everything pending stay; but the private tree is the one
    that the first commit leaves, with the keys of the new epoch in place of those of
    the epoch that goes on, the signer has been replaced if the commit replaces it,
    and if the commit is of a reinitialization, that is pending: the member refuses
    every commit after it, the right one included. *)
Theorem refused_commit_replaces_private_keys g a time tag d g1 x :
  process_commit g a time = (Ok d, g1) → goes_on a time g → confirmation_tag (auth a) ≠ Some tag →
  transcript_hashes (g_csp g) (interim_transcript_hash (g_state g)) (with_confirmation_tag a (Some tag)) = Ok x →
  ∃ g2, process_commit g (with_confirmation_tag a (Some tag)) time = (Err InvalidConfirmationTag, g2) ∧ refused g g2 ∧
    private_tree g2 = private_tree g1 ∧ signer g2 = signer g1 ∧
    pending_reinit (g_state g2) = pending_reinit (g_state g1) ∧
    (pending_reinit (g_state g1) ≠ None → ∀ b t, process_commit g2 b t = (Err GroupUsedAfterReInit, g2)).
Proof.
  intros H (c & interim & confirmed & p & sender & u & Hread & Hgo) Hne Hx.
  destruct (commit_read_retagged _ _ _ _ _ _ _ _ _ _ _ Hread Hx) as (i & Hread').
  rewrite (commit_read_runs _ _ _ _ _ _ _ _ _ Hread), Hgo in H.
  pose proof (commit_outcome g (with_confirmation_tag a (Some tag)) time) as Hout.
  rewrite (commit_read_runs _ _ _ _ _ _ _ _ _ Hread'), Hgo in Hout |- *. clear Hread Hread' Hgo Hx.
  unfold rest_of_commit in *. apply st_bind_ok in H as ([secrets p1] & h1 & Hpath & H). rewrite Hpath in Hout |- *. cbn [st_bind] in Hout |- *.
  apply st_bind_ok in H as (p2 & h2 & Hp2 & H). unfold st_lift in Hp2. injection Hp2 as Hp2 <-. unfold st_lift in Hout |- *. cbn [mp_cipher_suite_provider group_processor] in Hout, Hp2 |- *. rewrite Hp2 in Hout |- *. cbn [st_bind] in Hout |- *.
  destruct (take_reinit h1 p2 u) as [[h2 p3] u']. destruct (confirmation_tag (auth a)) as [tag0|]; [|done].
  cbn [with_confirmation_tag auth confirmation_tag] in *. apply st_bind_ok in H as ([] & h3 & Hk & [= _ <-]).
  cbn [update_key_schedule group_processor] in *.
  apply (schedule_retagged _ _ _ i _ tag) in Hk as (Hbad & Hpriv & Hsig & Hre); [|congruence]. rewrite Hbad in *. cbn [st_bind outcome_of] in *.
  exists (with_path_keys h2 secrets).
  assert (signer (with_path_keys h2 secrets) = signer h2 ∧ g_state (with_path_keys h2 secrets) = g_state h2) as [E1 E2] by (by destruct secrets as [[]|]).
  split_and!; try done; [congruence|congruence|]. intros Hsome b t. unfold process_commit. cbn [group_state group_processor].
  rewrite bool_decide_eq_true_2; [done|]. rewrite E2, <- Hre. by apply not_eq_None_Some.
Qed.

(** ** A member that is removed while it has a commit pending *)

(** What removal leaves of a member in a tree: its leaf and the nodes above it, up to
    where its path meets the committer's, are blank. *)
Record blank_below (ns : NodeVec) (self sender : Z) : Prop := {
  bb_fits : fits ns;
  bb_ends : ends_in_leaf ns;
  bb_self : 0 ≤ self < 2 ^ depth ns;
  bb_sender : 0 ≤ sender < 2 ^ depth ns;
  bb_other : self ≠ sender;
  bb_blank : ∀ k : nat, Z.of_nat k ≤ Kem.lca_index self sender → node_at ns (TreeMath.node (Z.of_nat k) (self / 2 ^ Z.of_nat k)) = None;
}.

Lemma blank_path_panics ns self (q : nat) :
  fits ns → ends_in_leaf ns → 1 ≤ len ns → 0 ≤ self < 2 ^ depth ns → Z.of_nat q ≤ depth ns →
  (∀ k : nat, (k ≤ q)%nat → node_at ns (TreeMath.node (Z.of_nat k) (self / 2 ^ Z.of_nat k)) = None) →
  Kem.non_blank_pos ns (Kem.own_path ns self) q = Panic.
Proof.
  intros Hf He Hl Hs. induction q as [|q IH]; intros Hq Hb.
  all: destruct (Kem.own_path_lookup ns self _ Hf Hs Hq) as (c & Hc & Hpc).
  all: cbn [Kem.non_blank_pos]; rewrite Hc; cbn [unwrap mbind result_bind]; unfold is_blank; rewrite Hpc, Kem.borrow_node_in_tree by
      (try done; apply TreeMath.in_tree_up; lia); cbn [mbind result_bind]; rewrite Hb by lia; rewrite bool_decide_eq_true_2 by done.
  - done.
  - apply IH; [lia|]. intros k Hk. apply Hb. lia.
Qed.

(** Opening a path from a blank leaf walks below the leaf. *)
Lemma decap_blank_panics csp t k sender v added context :
  1 ≤ len (nodes t) → blank_below (nodes t) (Kem.self_index k) sender → Kem.decap csp t k sender v added context = Panic.
Proof.
  intros Hl [Hf He Hs Hse Hne Hb]. destruct (depth_spec (nodes t) Hf) as (Hd & _ & _).
  destruct (Kem.lca_spec (nodes t) (Kem.self_index k) sender) as (q & Hq & Hqd & _); try done.
  unfold Kem.decap, Kem.find_resolved_pos. rewrite Hq, Kem.length_own_path by done.
  rewrite (proj2 (Z.ltb_lt _ _)) by lia. rewrite Nat2Z.id, blank_path_panics; try done; [lia|]. intros i Hi. apply Hb. lia.
Qed.

Lemma provisional_private_self g p t s : provisional_private_tree g p = Ok (t, s) → Kem.self_index t = current_member_index g.
Proof.
  unfold provisional_private_tree. intros (keys & _ & H)%bind_ok. destruct (find _ _) as [u|]; [|by injection H as <- _].
  apply bind_ok in H as (sk & _ & H). apply bind_ok in H as (t' & Ht & [= <- _]). unfold Kem.update_leaf in Ht.
  by apply bind_ok in Ht as (? & _ & [= <-]).
Qed.

(** A path that is good up to the decryption of its secret: it is valid, it goes into
    the tree, and [t] is the tree with it. *)
Record path_in_place g (p : ProvisionalState) (path : Kem.UpdatePath) (sender : Z) (time : option Z) (t : TreeKemPublic) : Prop := {
  pp_applied : ∃ v keys p1 h b,
    validate_update_path (cfg_identity_provider (g_config g)) (g_csp g) path p sender time = Ok v ∧
    provisional_private_tree g p = Ok keys ∧
    public_apply_update_path (cfg_identity_provider (g_config g)) (g_csp g) sender v p = Ok p1 ∧
    root_hash (g_csp g) (ps_tree p1) = Ok (h, t) ∧
    mls_encode_to_vec group_context_codec (with_tree_hash (ps_context p1) h) = Ok b;
  pp_leaf : 1 ≤ len (nodes t);
}.

Lemma blank_path_step g p path sender time t :
  path_in_place g p path sender time t → blank_below (nodes t) (current_member_index g) sender →
  (process_path g p (Some path) sender time).1 = Panic.
Proof.
  intros [(v & [k o] & p1 & h & b & Hv & Hk & Hp1 & Hh & Hb) Hl] Hbl. cbn [process_path]. unfold st_lift. cbn [mp_identity_provider mp_cipher_suite_provider group_processor].
  rewrite Hv. cbn [st_bind mp_apply_update_path group_processor]. unfold group_apply_update_path, st_lift. rewrite Hk. cbn [st_bind].
  assert (∀ h, (match o with Some s => set_signer g s | None => g end) = h → g_csp h = g_csp g ∧ g_config h = g_config g ∧ current_member_index h = current_member_index g)
    as Hg by (by intros h' <-; destruct o).
  destruct (Hg _ eq_refl) as (E1 & E2 & E3). set (g1 := match o with Some s => set_signer g s | None => g end) in *.
  rewrite E2, Hp1. cbn [st_bind]. rewrite E3. rewrite (proj2 (Z.eqb_neq _ _)) by (apply not_eq_sym, (bb_other _ _ _ Hbl)).
  rewrite Hh. cbn [mbind result_bind ps_context set_context set_tree]. rewrite Hb. cbn [mbind result_bind]. unfold from_codec_error. cbn.
  rewrite decap_blank_panics; [done|exact Hl|]. by rewrite (provisional_private_self _ _ _ _ Hk).
Qed.

(** C36. A member that is removed while it has a commit of its own pending panics.  Take
    a commit of another member that removes this one, with an update path that is valid
    and goes into the tree, in which nobody has taken the leaf of the removed member:
    its leaf and the nodes above, below the common ancestor with the committer, are
    blank.  Without a commit pending (so also once it is cleared) the member is told
    that it is removed, and its group stays as it was; with one pending, processing the
    same commit goes on to the path, walks down from the common ancestor to the
    member's own leaf for a node that is not blank, finds none, and panics. *)
Theorem removed_with_pending_commit_panics g a time c interim confirmed p sender u path t :
  commit_read g a time c interim confirmed p sender u → commit_path c = Some path → removes_member g p →
  path_in_place g p path sender time t → blank_below (nodes t) (current_member_index g) sender →
  process_commit (clear_pending_commit g) a time = (Ok (describe a sender (deactivate u)), clear_pending_commit g) ∧
  (g_pending_commit g ≠ None → (process_commit g a time).1 = Panic).
Proof.
  intros Hread Hpath Hrem Hp Hb. split.
  - assert (commit_read (clear_pending_commit g) a time c interim confirmed p sender u) as Hread'.
    { by destruct Hread; split. }
    rewrite (commit_read_runs _ _ _ _ _ _ _ _ _ Hread'), (proj2 (continues_spec (clear_pending_commit g) p)); [done|]. by split.
  - intros Hpend. rewrite (commit_read_runs _ _ _ _ _ _ _ _ _ Hread).
    destruct (can_continue_processing g p) eqn:Hc; [|by apply continues_spec in Hc as [_ ?]].
    unfold rest_of_commit. rewrite Hpath. pose proof (blank_path_step _ _ _ _ _ _ Hp Hb) as H.
    destruct (process_path g p (Some path) sender time) as [[] g1]; cbn [fst] in H; done.
Qed.
End faults.
