(* ===== verification/Delivery.v ===== *)
(** * From one member to another (mls-rs/src/group/mod.rs)

    What a member accepts was signed by its sender; and an application message that
    one member encrypts reaches the others with its data, whatever else is going on. *)
From Stdlib Require Import Strings.String.
From S2P Require Import Prelude Codec Types Node TreeIndex Extensions Crypto Labels TreeHash Proposal TreeKem GroupContext Kem SecretTree Framing Epoch KeySchedule Storage StateRepo PrivateMessage GroupState Auth Psk Rules Provisional MessageProcessor Config Group GroupLaws.
Import FramingLaws.

(** Opening a message of a past epoch changes the secrets of that epoch only. *)
Lemma open_epoch csp (e : PriorEpoch) m :
  ∃ s, (open csp e m).2 = with_secrets e s.
Proof.
  assert (∃ s, e = with_secrets e s) as Hrefl by (exists (Epoch.epoch_secrets e); by destruct e).
  unfold open, st_lift. destruct (sender_data_key _ _ _); cbn [st_bind snd]; try done.
  destruct (sender_data_open _ _ _ _) as [d| | |]; cbn [st_bind snd]; try done. case_bool_decide; [done|].
  unfold decryption_key. destruct (SecretTree.tree_message_key_generation _ _ _ _ _) as [k t].
  apply (st_bind_state (λ h, ∃ s, h = with_secrets e s)); [by eexists|]. intros key _. cbn [snd].
  repeat case_match; by eexists.
Qed.

(** The frame of an opened message is that of the message. *)
Lemma open_frame {GS} `{!GroupStateProvider GS} csp (s s' : GS) m c :
  open csp s m = (Ok c, s') →
  fc_group_id (content c) = pr_group_id m ∧ fc_epoch (content c) = pr_epoch m ∧
  content_type (fc_content (content c)) = pr_content_type m ∧ ∃ i, fc_sender (content c) = Member i.
Proof.
  unfold open. intros (k & s1 & _ & H)%st_bind_ok. apply st_bind_ok in H as (d & s2 & _ & H). case_bool_decide; [done|].
  apply st_bind_ok in H as (key & s3 & _ & H). apply st_bind_ok in H as (aad & s4 & _ & H).
  apply st_bind_ok in H as (b & s5 & _ & H). apply st_bind_ok in H as (p & s6 & [= Hp%from_codec_ok <-] & [= <- _]).
  split_and!; try done; [|by eexists]. cbn. unfold private_content_decode in Hp. apply bind_ok in Hp as ([x r] & Hx & Hp).
  apply bind_ok in Hp as ([y r'] & _ & Hp). destruct (existsb _ _); [done|]. injection Hp as <-. cbn.
  destruct (pr_content_type m); cbn in Hx; apply bind_ok in Hx as ([z r1] & _ & [= <- <-]); done.
Qed.

Section delivery.
Context {order : MapOrder} {S K P R : Type}.
Context `{!GroupStateStorage S} `{!KeyPackageStorage K} `{!PreSharedKeyStorage P} `{!MlsRules R}.
Notation Group := (Group S K P R).
Implicit Types (g : Group).

(** The key that content of a sender must be signed with, in the current epoch: of a
    member, the signature key of the leaf at its index in the tree (of the 32 bits of
    an index the code keeps the lower 31 when it looks for the leaf); of an external
    sender, the key at its index of the ExternalSenders extension of the group; of a
    new member that commits, the key of the leaf in the path of its commit; of a new
    member that proposes itself, the key of the leaf in the key package it proposes. *)
Inductive sender_key g : Sender → Content → bytes → Prop :=
  | key_of_member i c l :
      Node.leaf_at (TreeHash.nodes (public_tree (g_state g))) (i mod 2 ^ 31) = Some l →
      sender_key g (Member i) c (signature_key (signing_identity l))
  | key_of_external i c e s :
      get_as (E:=ExternalSendersExt) (gc_extensions (group_ctx g)) = Ok (Some e) → 0 ≤ i →
      allowed_senders e !! Z.to_nat i = Some s → sender_key g (External i) c (signature_key s)
  | key_of_committer c path :
      commit_path c = Some path →
      sender_key g NewMemberCommit (CommitContent c) (signature_key (signing_identity (Kem.up_leaf_node path)))
  | key_of_proposer k :
      sender_key g NewMemberProposal (ProposalContent (Add k)) (signature_key (signing_identity (kp_leaf_node k))).

(** The signature of [a] verifies under [key], over the content in [context]. *)
Definition signed_by csp (key : bytes) (context : GroupContext) (a : AuthenticatedContent) : Prop :=
  ∃ tbs input, content_tbs a context = Ok tbs ∧ sign_content (ascii "FramedContentTBS") tbs = Ok input ∧
    csp_verify csp key (auth_signature (auth a)) input = inr tt.

(** The signature of [a] is that of its sender: by the sender's key in the current
    epoch, or, for application data, by the key that a past epoch which the member
    still has lists for the leaf of the sender. *)
Inductive authentic g (a : AuthenticatedContent) : Prop :=
  | authentic_now key :
      fc_epoch (content a) = epoch (group_ctx g) →
      sender_key g (fc_sender (content a)) (fc_content (content a)) key →
      signed_by (g_csp g) key (group_ctx g) a → authentic g a
  | authentic_past x repo e i key :
      content_type (fc_content (content a)) = ApplicationType → fc_epoch (content a) ≠ epoch (group_ctx g) →
      get_epoch_mut (state_repo g) (fc_epoch (content a)) = (Ok (Some x), repo) → deref repo x = Some e →
      fc_sender (content a) = Member i → 0 ≤ i → signature_public_keys e !! Z.to_nat i = Some (Some key) →
      signed_by (g_csp g) key (context e) a → authentic g a.

Lemma verify_signed csp key context a :
  verify csp key (ascii "FramedContentTBS") (content_tbs a context) (auth_signature (auth a)) = Ok tt → signed_by csp key context a.
Proof.
  unfold verify. intros (tbs & Ht & H)%bind_ok. apply bind_ok in H as (input & Hi & H). exists tbs, input.
  apply from_codec_inv in Ht, Hi. split_and!; [done|done|]. by destruct (csp_verify _ _ _ _) as [|[]].
Qed.

Lemma leaf_key_of_index ns i l : Node.borrow_as_leaf ns i = Ok l → Node.leaf_at ns (i mod 2 ^ 31) = Some l.
Proof.
  unfold Node.borrow_as_leaf. intros (n & Hn & H)%bind_ok. unfold Node.borrow_node, Node.validate_index in Hn.
  destruct (_ >=? _); [done|]. cbn in Hn. injection Hn as <-. unfold Node.leaf_at, Node.node_at.
  replace (2 * (i mod 2 ^ 31)) with (Node.node_index i).
  - by destruct (vec_get ns (Node.node_index i)) as [[[]|]|]; cbn in *; simplify_eq.
  - unfold Node.node_index, u32, wrap. change (2 ^ 32) with (2 ^ 31 * 2). rewrite Z.mul_mod_distr_r by lia. lia.
Qed.

(** The code looks for exactly this key. *)
Lemma verified_now g a signers :
  signers = external_signers (group_ctx g) ∨ signers = [] →
  verify_auth_content_signature (g_csp g) (RatchetTree (public_tree (g_state g))) (group_ctx g) a signers = Ok tt →
  ∃ key, sender_key g (fc_sender (content a)) (fc_content (content a)) key ∧ signed_by (g_csp g) key (group_ctx g) a.
Proof.
  unfold verify_auth_content_signature. intros Hs (key & Hk & Hv%verify_signed)%bind_ok. exists key. split; [|done]. clear Hv.
  unfold signing_identity_for_sender in Hk. destruct (fc_sender (content a)) as [i|i| |].
  - cbn in Hk. apply bind_ok in Hk as (l & Hl%leaf_key_of_index & [= <-]). by constructor.
  - unfold signing_identity_for_external, vec_get in Hk. destruct (Z.ltb_spec i 0); [done|].
    destruct (signers !! Z.to_nat i) as [s|] eqn:E; [|done]. injection Hk as <-. destruct Hs as [->| ->]; [|done].
    unfold external_signers in E. destruct (get_as (gc_extensions (group_ctx g))) as [[e|]| | |] eqn:Ee; try done. by econstructor.
  - destruct (fc_content (content a)) as [|[]|c]; cbn in Hk; try done; injection Hk as <-. constructor.
  - destruct (fc_content (content a)) as [|?|c]; cbn in Hk; try done. destruct (commit_path c) eqn:E; [|done]. injection Hk as <-. by constructor.
Qed.

Lemma verified_past csp (e : PriorEpoch) i a :
  fc_sender (content a) = Member i → verify_auth_content_signature csp (KeyList (signature_public_keys e)) (context e) a [] = Ok tt →
  ∃ key, 0 ≤ i ∧ signature_public_keys e !! Z.to_nat i = Some (Some key) ∧ signed_by csp key (context e) a.
Proof.
  intros Hs. unfold verify_auth_content_signature. rewrite Hs. cbn. unfold vec_get. destruct (Z.ltb_spec i 0); [done|].
  destruct (signature_public_keys e !! Z.to_nat i) as [[key|]|]; cbn; try done. intros Hv%verify_signed. by exists key.
Qed.

Lemma decrypt_authentic g m a g' :
  decrypt_incoming_ciphertext g m = (Ok a, g') →
  fc_group_id (content a) = pr_group_id m ∧ fc_epoch (content a) = pr_epoch m ∧
  content_type (fc_content (content a)) = pr_content_type m ∧
  (pr_epoch m ≠ epoch (group_ctx g) → pr_content_type m = ApplicationType → authentic g a) ∧
  (pr_epoch m = epoch (group_ctx g) → authentic g a).
Proof.
  unfold decrypt_incoming_ciphertext. destruct (Z.eqb_spec (pr_epoch m) (epoch (group_ctx g))) as [He|He].
  - intros (c & g1 & Ho & H)%st_bind_ok. pose proof (open_frame _ _ _ _ _ Ho) as (Hg & Hep & Ht & _).
    pose proof (open_core (g_csp g) g m) as Hcore. rewrite Ho in Hcore. destruct Hcore as [_ Hcsp Hst _ _ _ _ _ _]. cbn in Hcsp, Hst.
    apply st_bind_ok in H as ([] & g2 & [= Hv <-] & [= <- <-]). split_and!; try done. intros _.
    unfold group_ctx in Hv. rewrite Hst, Hcsp in Hv. destruct (verified_now g c [] (or_intror eq_refl) Hv) as (key & Hk & Hsig).
    apply (authentic_now _ _ key); [congruence|done|done].
  - destruct (get_epoch_mut _ _) as [found repo] eqn:Eg. intros (o & g1 & [= -> <-] & H)%st_bind_ok.
    destruct o as [x|]; [|done]. destruct (deref repo x) as [e|] eqn:Ed; [|done].
    destruct (open_epoch (g_csp g) e m) as (s & Hs). cbn [g_csp set_state_repo] in H.
    destruct (open (g_csp g) e m) as [c e'] eqn:Eo. cbn in Hs. subst e'.
    apply st_bind_ok in H as (c' & g2 & [= -> <-] & H). pose proof (open_frame _ _ _ _ _ Eo) as (Hg & Hep & Ht & i & Hi).
    apply st_bind_ok in H as ([] & g3 & [= Hv <-] & [= <- <-]). split_and!; try done. intros _ Hty.
    destruct (verified_past _ e i c' Hi Hv) as (key & Hi0 & Hk & Hsig).
    eapply authentic_past; [congruence|congruence|by rewrite Hep|done|exact Hi|exact Hi0|exact Hk|exact Hsig].
Qed.

(** C13. A member acts on nothing that its sender has not signed.  Whatever content a
    member takes from a message, it is of the member's group and of the message's
    protocol version; proposals and commits are of the current epoch; application data
    is never taken from a public message; and the signature verifies over the content
    in the context of its epoch under the key of the sender: for content of the current
    epoch, the key of the member's leaf in the tree, of the external sender at its
    index in the group's ExternalSenders extension, or of the leaf that a new member
    brings in its commit or its key package; for application data of a past epoch, the
    key which that epoch lists for the leaf of the sender. *)
Theorem accepted_content_authentic g now m a g' :
  get_event_from_incoming_message g now m = (Ok (AuthContent a), g') →
  msg_version m = protocol_version (group_ctx g) ∧ fc_group_id (content a) = group_id (group_ctx g) ∧
  (content_type (fc_content (content a)) ≠ ApplicationType → fc_epoch (content a) = epoch (group_ctx g)) ∧
  (content_type (fc_content (content a)) = ApplicationType → is_cipher m = true) ∧
  authentic g a.
Proof.
  unfold get_event_from_incoming_message. intros ([] & g1 & [= Hm <-] & H)%st_bind_ok. unfold check_metadata, check_epoch in Hm.
  destruct (Z.eqb_spec (msg_version m) (protocol_version (gs_context (group_state g)))) as [Hv|]; [|done]. cbn [negb] in Hm.
  unfold metadata in Hm. unfold is_cipher in *. split; [done|]. destruct (payload m) as [p|c|w|i|k]; cbn [group_state group_processor] in *.
  - injection H as H <-. apply bind_ok in H as (a' & Ha & [= ->]). unfold verify_plaintext_authentication in Ha.
    apply bind_unit_ok in Ha as [_ Ha]. apply bind_unit_ok in Ha as [Hs [= <-]].
    case_bool_decide as Hg; [|done]. cbn in Hm, Hg. cbn [from_public_message content].
    assert (fc_epoch (pm_content p) = epoch (group_ctx g) ∧ content_type (fc_content (pm_content p)) ≠ ApplicationType) as [He Ht].
    { unfold group_ctx. destruct (content_type (fc_content (pm_content p))); cbn in Hm; [done| |];
        destruct (Z.eqb_spec (epoch (gs_context (g_state g))) (fc_epoch (pm_content p))); try done; by split. }
    split_and!; [done|done|done|]. destruct (verified_now g _ _ (or_introl eq_refl) Hs) as (key & Hk & Hsig). by apply (authentic_now _ _ key).
  - apply st_bind_ok in H as (a' & g2 & Ha & [= <- <-]). apply decrypt_authentic in Ha as (Hg & He & Ht & Hpast & Hnow).
    case_bool_decide as Hgid; [|done]. cbn in Hm, Hgid. rewrite Hg, He, Ht.
    assert (pr_content_type c ≠ ApplicationType → pr_epoch c = epoch (group_ctx g)) as Hep.
    { intros Hn. unfold group_ctx. destruct (pr_content_type c); [done|..]; cbn in Hm;
        destruct (Z.eqb_spec (epoch (gs_context (g_state g))) (pr_epoch c)); done. }
    split_and!; [done|done|done|]. destruct (decide (pr_epoch c = epoch (group_ctx g))) as [E|E]; [by apply Hnow|].
    apply Hpast; [done|]. destruct (decide (pr_content_type c = ApplicationType)); [done|]. by exfalso; apply E, Hep.
  - by apply st_bind_ok in H as ([] & g2 & _ & H).
  - by apply st_bind_ok in H as ([] & g2 & _ & H).
  - by apply st_bind_ok in H as ([] & g2 & _ & H).
Qed.

(** ** Application messages *)
Lemma seal_frame {GS} `{!GroupStateProvider GS} `{!GroupStateProviderLaws GS} csp (s s' : GS) a padding seed m :
  seal csp s a padding seed = (Ok m, s') →
  pr_group_id m = group_id (PrivateMessage.gs_context s) ∧ pr_epoch m = epoch (PrivateMessage.gs_context s) ∧
  pr_content_type m = content_type (fc_content (content a)).
Proof.
  unfold seal. case_bool_decide as Hsender; [done|]. intros (guard & s1 & [= _ <-] & H)%st_bind_ok.
  apply st_bind_ok in H as (b & s2 & [= _ <-] & H). apply st_bind_ok in H as (key & s3 & Hk & H).
  assert (PrivateMessage.gs_context s3 = PrivateMessage.gs_context s) as Hc.
  { unfold PrivateMessage.next_encryption_key in Hk. destruct (SecretTree.tree_next_message_key _ _ _ _). injection Hk as _ <-.
    unfold set_secret_tree. by rewrite gs_set_context. }
  apply st_bind_ok in H as (aad & s4 & [= _ <-] & H). apply st_bind_ok in H as (ct & s5 & [= _ <-] & H).
  apply st_bind_ok in H as (k & s6 & [= _ <-] & H). apply st_bind_ok in H as (e & s7 & [= _ <-] & [= <- <-]). cbn. by rewrite Hc.
Qed.

(** Two members of an epoch, and a message that the first can send to the second: the
    provider does what its interface documents, the secrets of the epoch are of the
    KDF's size, both have the sender's ratchet, the generation of the message is new to
    the receiver and at most 1024 ahead of it, below the last of the 32 bits, the
    receiver has the key of the sender's signer in its tree and no commit pending, the
    sender has no proposals to commit and can sign and encode the message, and the
    identifier of the group and the authenticated data can be encoded. *)
Record deliverable (gS gR : Group) (d : Z) (root : bytes) (aS aR : Z → SecretTree.KeyType → Z * gset Z) (lostS lostR : gset Z)
    (data aad : bytes) (o : EncryptionOptions) (a : AuthenticatedContent) (encoded : bytes) (leaf : LeafNode) : Prop := {
  de_provider : g_csp gR = g_csp gS;
  de_kdf : kdf_laws (g_csp gS);
  de_aead : aead_pair (g_csp gS) ∧ aead_seals (g_csp gS);
  de_random : random_total (g_csp gS) ∧ csp_kdf_extract_size (g_csp gS) ≤ 2 ^ 16;
  de_depth : 0 ≤ d ≤ 31;
  de_exchange : can_exchange (g_csp gS) d root gS gR a aS aR lostS lostR;
  de_cache : cache_is_empty (gs_proposals (g_state gS)) = true;
  de_options : group_encryption_options gS = Ok o;
  de_signed : new_signed (g_csp gS) (group_ctx gS) (Member (current_member_index gS)) (ApplicationContent data) (signer gS)
    WirePrivateMessage aad = Ok a;
  de_encoded : private_content_encode {| pmc_content := fc_content (content a); pmc_auth := auth a |} = Ok encoded;
  de_lengths : len (group_id (group_ctx gS)) ≤ VarInt.MAX ∧ len aad ≤ VarInt.MAX;
  de_leaf : TreeKem.get_leaf_node (public_tree (g_state gR)) (current_member_index gS) = Ok leaf;
  de_key : signature_pair (g_csp gS) (signer gS) (signature_key (signing_identity leaf));
  de_pending : g_pending_commit gR = None;
}.

(** C7. Application messages arrive.  Let the provider derive keys, seal and sign as its
    interface documents; let a member that has no proposals to commit sign and encode a
    message, and let another member of the epoch, with no commit of its own pending and
    with the sender's key in its tree, have the sender's ratchet, with the message's
    generation unused and at most 1024 ahead of it (and the 32 bits not left).  Then what
    the first encrypts the second processes to the same data and authenticated data,
    from the same sender; neither call fails.  The receiver's group
    state stays what it was, and both have spent the key, so that the next message is
    under the next one. *)
Theorem application_message_delivered gS gR d root aS aR lostS lostR data aad o a encoded leaf seed now :
  deliverable gS gR d root aS aR lostS lostR data aad o a encoded leaf →
  let i := current_member_index gS in
  let n := (aS i SecretTree.Application).1 in
  ∃ m gS' gR', encrypt_application_message gS data aad seed = (Ok m, gS') ∧
    group_process_incoming_message gR now m =
      (Ok (ApplicationMessage {| sender_index := i; am_data := data; am_authenticated_data := aad |}), gR') ∧
    g_state gR' = g_state gR ∧
    SecretTree.tree_inv (g_csp gS) d root (secret_tree (g_epoch_secrets gS'))
      (SecretTree.update aS i SecretTree.Application (n + 1, (aS i SecretTree.Application).2 ∪ {[n]})) lostS ∧
    SecretTree.tree_inv (g_csp gS) d root (secret_tree (g_epoch_secrets gR'))
      (SecretTree.update aR i SecretTree.Application (Z.max (aR i SecretTree.Application).1 (n + 1), (aR i SecretTree.Application).2 ∪ {[n]})) lostR.
Proof.
  intros [Hcsp Hkdf [Haead Hseal] [Hrnd Hsize] Hd Hex Hcache Hopt Hsig Henc [Hl1 Hl2] Hleaf Hkey Hpend] i n.
  pose proof Hsig as (sig & Ea & _)%new_signed_inv.
  assert (content a = {| fc_group_id := group_id (group_ctx gS); fc_epoch := epoch (group_ctx gS); fc_sender := Member i;
    fc_authenticated_data := aad; fc_content := ApplicationContent data |} ∧ wire_format a = WirePrivateMessage ∧
    confirmation_tag (auth a) = None) as (Hc & Hw & Htag) by by rewrite Ea.
  assert (sendable gS a encoded) as Hsend.
  { split; [by rewrite Hc|by rewrite Hc|by rewrite Hc|done|by rewrite Hc| |done|done|by rewrite Hc|].
    - rewrite Hc. unfold auth_data_wf. rewrite Htag. cbn. by split; [intros []|].
    - rewrite Hc in Henc. destruct (auth a) as [s t]. cbn in Htag, Henc. subst t. by apply application_content_bound in Henc. }
  destruct (open_seal_spec (g_csp gS) Hkdf Haead Hseal Hrnd Hsize d Hd root gS gR a aS aR lostS lostR (padding_mode o) seed encoded Hex Hsend)
    as (msg & gS' & gR' & Hs & Ho & HiS & HiR).
  pose proof (seal_frame _ _ _ _ _ _ _ Hs) as (Hfg & Hfe & Hft). pose proof (ce_context _ _ _ _ _ _ _ _ _ _ Hex) as Hctx.
  pose proof (open_core (g_csp gS) gR msg) as Hcore. rewrite Ho in Hcore. cbn [snd] in Hcore.
  destruct Hcore as [_ Hcsp' Hst' _ _ _ _ _ _]. rewrite Hc in Hft, HiS, HiR. cbn in Hfg, Hfe, Hft, Hctx, HiS, HiR.
  eexists {| msg_version := protocol_version (group_ctx gS'); payload := Cipher msg |}, gS', gR'. split_and!; try done.
  - unfold encrypt_application_message. rewrite Hcache. cbn [negb]. unfold st_lift. rewrite Hsig. cbn [st_bind].
    unfold format_for_wire. rewrite Hw, bool_decide_eq_true_2 by done. unfold create_ciphertext, st_lift. rewrite Hopt. cbn [st_bind].
    rewrite Hs. done.
  - assert (group_ctx gS' = group_ctx gS) as Hctx'.
    { destruct (seal_secrets (g_csp gS) gS a (padding_mode o) seed) as (e & He). rewrite Hs in He. cbn in He. by subst gS'. }
    unfold group_process_incoming_message. rewrite Hpend. unfold process_incoming_message, process_incoming_message_with_time.
    unfold get_event_from_incoming_message, check_metadata, check_epoch, metadata, is_cipher, st_lift.
    cbn [msg_version payload group_state group_processor]. fold (group_ctx gR). rewrite Hctx, Hctx', Z.eqb_refl. cbn [negb].
    rewrite Hfg, Hft, bool_decide_eq_true_2 by done. cbn [negb min_epoch_available group_processor mbind result_bind].
    rewrite !bool_decide_eq_false_2 by done. cbn [orb andb negb st_bind process_ciphertext group_processor].
    unfold decrypt_incoming_ciphertext. rewrite Hctx, Hfe, Z.eqb_refl, Hcsp, Ho. cbn [st_bind]. unfold st_lift.
    assert (verify_auth_content_signature (g_csp gS) (RatchetTree (public_tree (g_state gR))) (group_ctx gS) a [] = Ok tt) as Hver.
    { unfold verify_auth_content_signature, signing_identity_for_sender, signing_identity_for_member. rewrite Hc. cbn [fc_sender fc_content].
      fold i in Hleaf. rewrite Hleaf. cbn [mbind result_bind]. rewrite <- (signed_content_verifies _ _ _ _ _ _ _ _ _ None Hkey Hsig).
      assert (with_confirmation_tag a None = a) as -> by (destruct a as [? ? []]; cbn in *; by subst). done. }
    unfold group_ctx in Hver, Hctx |- *. rewrite Hst', Hctx, Hcsp', Hcsp, Hver. cbn [st_bind process_event_or_content].
    unfold process_auth_content, st_lift. rewrite Hc. done.
Qed.
End delivery.
