(* ===== verification/Commit.v ===== *)
(** * Making a commit (mls-rs/src/group/commit.rs, mod.rs)

    [commit_internal] and what it is made of, with the builder that collects
    proposals for it.  The commit is only prepared: the group enters the next epoch
    when it applies the pending commit, or processes the message. *)
From Stdlib Require Import Strings.String.
From S2P Require Import Prelude Codec TreeMath Types Node TreeIndex Extensions Crypto Labels TreeHash Proposal TreeKem GroupContext Kem Framing Epoch KeySchedule Storage GroupState Auth Rules Provisional MessageProcessor Config Group.

Import Node.

Record CommitOutput := {
  commit_message : MlsMessage;
  welcome_messages : list MlsMessage;
  ratchet_tree : option NodeVec;
  external_commit_group_info : option MlsMessage;
  co_unused_proposals : list (ProposalInfo Proposal);
}.

(** The randomness of a commit: of its path, of the group secrets by recipient,
    and of the encryption of the message. *)
Record CommitRandomness := { r_encap : Kem.EncapRandomness; r_secrets : Z → bytes; r_message : bytes }.

Section commit.
Context {order : MapOrder} {S K P R : Type}.
Context `{!GroupStateStorage S} `{!KeyPackageStorage K} `{!PreSharedKeyStorage P} `{!MlsRules R}.
Notation Group := (Group S K P R).

(** ** What a new member is sent *)

(** [leaf_lca_level(..) as usize - 1]. *)
Definition common_secret (path_secrets : list (option bytes)) (self leaf : Z) : Result MlsError bytes :=
  ok_or (mjoin (vec_get path_secrets (wrap 64 (TreeMath.leaf_lca_level self leaf - 1)))) InvalidTreeKemPrivateKey.

Definition encrypt_group_secrets (g : Group) (k : KeyPackage) (leaf_index : Z) (joiner : bytes)
    (path_secrets : option (list (option bytes))) (ids : list PreSharedKeyID) (encrypted_info seed : bytes)
    : Result MlsError EncryptedGroupSecrets :=
  path_secret ← (match path_secrets with
                 | Some l => s ← common_secret l (current_member_index g) leaf_index; Ok (Some s)
                 | None => Ok None
                 end);
  content ← from_codec_error (mls_encode_to_vec group_secrets_codec
    {| Framing.joiner_secret := joiner; path_secret := path_secret; psks := ids |});
  c ← encrypt (g_csp g) (ascii "Welcome") seed (hpke_init_key k) encrypted_info content;
  r ← to_reference (g_csp g) k;
  Ok {| new_member := r; encrypted_group_secrets := c |}.

Definition make_group_info (g : Group) (context : GroupContext) (exts : ExtensionList.t) (tag sk : bytes)
    : Result MlsError GroupInfo :=
  sign_group_info (g_csp g) sk
    {| gi_group_context := context; gi_extensions := exts; gi_confirmation_tag := tag;
       gi_signer := current_member_index g; gi_signature := [] |}.

Definition make_welcome_message (g : Group) (secrets : list EncryptedGroupSecrets) (encrypted_info : bytes) : MlsMessage := {|
  msg_version := protocol_version (group_ctx g);
  payload := WelcomePayload {| w_cipher_suite := gc_cipher_suite (group_ctx g); w_secrets := secrets;
                               encrypted_group_info := encrypted_info |} |}.

Definition welcome_messages_of (g : Group) (single : bool) (secrets : list EncryptedGroupSecrets) (encrypted_info : bytes)
    : list MlsMessage :=
  if single && non_empty secrets then [make_welcome_message g secrets encrypted_info]
  else (λ s, make_welcome_message g [s] encrypted_info) <$> secrets.

(** The group information for external commits, when the options ask for it. *)
Definition external_group_info (g : Group) (allow : bool) (r : KeyScheduleDerivationResult) (context : GroupContext)
    (tree : option RatchetTreeExt) (tag sk : bytes) : Result MlsError (option MlsMessage) :=
  if allow then
    k ← get_external_key_pair_ext (g_csp g) (key_schedule r);
    exts ← from_extension_error (set_from [] {| external_pub := k |});
    exts ← (match tree with Some t => from_extension_error (set_from exts t) | None => Ok exts end);
    i ← make_group_info g context exts tag sk;
    Ok (Some {| msg_version := protocol_version (group_ctx g); payload := GroupInfoPayload i |})
  else Ok None.

(** The welcome messages: the group information encrypted to the new epoch, and
    the secrets of that epoch to each new member. *)
Definition make_welcomes (g : Group) (o : CommitOptions) (r : KeyScheduleDerivationResult) (context : GroupContext)
    (exts : ExtensionList.t) (tree : option RatchetTreeExt) (tag sk psk_secret : bytes) (ids : list PreSharedKeyID)
    (added : list (KeyPackage * Z)) (path_secrets : option (list (option bytes))) (seeds : Z → bytes)
    : Result MlsError (list MlsMessage) :=
  exts ← (match tree with Some t => from_extension_error (set_from exts t) | None => Ok exts end);
  i ← make_group_info g context exts tag sk;
  w ← from_joiner_secret (g_csp g) (KeySchedule.joiner_secret r) psk_secret;
  b ← from_codec_error (mls_encode_to_vec group_info_codec i);
  encrypted_info ← welcome_encrypt (g_csp g) w b;
  secrets ← mapM_res (λ '(k, i), encrypt_group_secrets g k i (KeySchedule.joiner_secret r) path_secrets ids encrypted_info
                                   (seeds i)) added;
  Ok (welcome_messages_of g (single_welcome_message o) secrets encrypted_info).

(** ** The path *)
Record PathOutput := {
  po_tree : TreeKemPublic;
  po_private_tree : Kem.TreeKemPrivate;
  po_context : GroupContext;
  po_path : option Kem.UpdatePath;
  po_path_secrets : option (list (option bytes));
  po_commit_secret : bytes;
}.

Definition make_path (g : Group) (r : Kem.EncapRandomness) (perform : bool) (p : ProvisionalState) (t : Kem.TreeKemPrivate)
    (sk : bytes) (s : option SigningIdentity) : Result MlsError PathOutput :=
  let csp := g_csp g in
  if perform then
    '(tree, t, context, e) ← Kem.encap csp r (ps_tree p) t (ps_context p) (ps_added p) sk (leaf_properties (g_config g)) s;
    Ok {| po_tree := tree; po_private_tree := t; po_context := context; po_path := Some (Kem.update_path e);
          po_path_secrets := Some (Kem.path_secrets e); po_commit_secret := Kem.commit_secret e |}
  else
    tree ← TreeHash.update_hashes csp (ps_tree p) [Kem.self_index t];
    '(h, tree) ← TreeHash.root_hash csp tree;
    Ok {| po_tree := tree; po_private_tree := t; po_context := with_tree_hash (ps_context p) h; po_path := None;
          po_path_secrets := None; po_commit_secret := Kem.path_secret_empty csp |}.

(** ** [commit_internal] *)

(** The index of an external committer, which it takes on at once. *)
Definition take_external_index (g : Group) (external : bool) (p : ProvisionalState) (t : Kem.TreeKemPrivate)
    : Result MlsError Kem.TreeKemPrivate * Group :=
  if external then
    try i, g ← st_lift (ok_or (ps_external_init_index p) ExternalCommitMissingExternalInit) g;
    (Ok {| Kem.self_index := i; Kem.secret_keys := Kem.secret_keys t |},
     set_private_tree g {| Kem.self_index := i; Kem.secret_keys := Kem.secret_keys (private_tree g) |})
  else (Ok t, g).

(** The signed commit with its confirmation tag, the context of the new epoch and
    its secrets. *)
Definition finish_commit (g : Group) (sender : Sender) (o : PathOutput) (p : ProvisionalState) (psk_secret aad : bytes)
    : Result MlsError (AuthenticatedContent * GroupContext * KeyScheduleDerivationResult * bytes) :=
  let csp := g_csp g in
  eo ← group_encryption_options g;
  a ← new_signed csp (group_ctx g) sender
    (CommitContent {| commit_proposals := into_proposals_or_refs (ps_applied p); commit_path := po_path o |})
    (signer g) (control_wire_format eo sender) aad;
  confirmed ← confirmed_transcript_hash_create csp (interim_transcript_hash (g_state g)) a;
  let context := with_transcript_hash (po_context o) confirmed in
  r ← from_key_schedule csp (g_key_schedule g) (po_commit_secret o) context
    (total_leaf_count (nodes (public_tree (g_state g)))) psk_secret;
  tag ← confirmation_tag_create csp (confirmation_key r) confirmed;
  Ok (with_confirmation_tag a (Some tag), context, r, tag).

Definition commit_internal (g : Group) (rnd : CommitRandomness) (now : Z) (ps : list Proposal) (external_leaf : option LeafNode)
    (aad : bytes) (exts : ExtensionList.t) (new_signer : option bytes) (s : option SigningIdentity)
    : Result MlsError CommitOutput * Group :=
  if has_pending_commit g then (Err ExistingPendingCommit, g)
  else if bool_decide (is_Some (pending_reinit (g_state g))) then (Err GroupUsedAfterReInit, g)
  else
    let r := cfg_mls_rules (g_config g) in
    let external := bool_decide (is_Some external_leaf) in
    let sender := if external then NewMemberCommit else Member (current_member_index g) in
    let sk := default (signer g) new_signer in
    let b := prepare_commit (gs_proposals (g_state g)) sender ps in
    try p, g ← st_lift (apply_resolved (cfg_identity_provider (g_config g)) (g_csp g) (secret_store (g_config g)) r
                          (g_state g) sender b external_leaf (Some now) Send) g;
    try (t, _), g ← st_lift (provisional_private_tree g p) g;
    try t, g ← take_external_index g external p t;
    try o, g ← st_lift (rules (commit_options r (roster_of (ps_tree p)) (gc_extensions (ps_context p)) (ps_applied p))) g;
    try po, g ← st_lift (make_path g (r_encap rnd) (path_required o || path_update_required (ps_applied p)) p t sk s) g;
    try (psk_secret, ids), g ← st_lift (get_psk g (Proposal.psks (ps_applied p))) g;
    try (a, context, ks, tag), g ← st_lift (finish_commit g sender po p psk_secret aad) g;
    let tree := if ratchet_tree_extension o then Some {| tree_data := nodes (po_tree po) |} else None in
    try info, g ← st_lift (external_group_info g (allow_external_commit o) ks context tree tag sk) g;
    try welcomes, g ← st_lift (make_welcomes g o ks context exts tree tag sk psk_secret ids
                                 (zip (proposal <$> additions (ps_applied p)) (ps_added p)) (po_path_secrets po)
                                 (r_secrets rnd)) g;
    try m, g ← format_for_wire g a (r_message rnd);
    try h, g ← st_lift (commit_hash (g_csp g) m) g;
    let g := set_pending_commit g (Some {| pending_content := a; pending_private_tree := po_private_tree po;
                                           pending_commit_secret := po_commit_secret po; commit_message_hash := h |}) in
    let g := match new_signer with Some sk => set_signer g sk | None => g end in
    (Ok {| commit_message := m; welcome_messages := welcomes;
           ratchet_tree := if ratchet_tree_extension o then None else Some (nodes (po_tree po));
           external_commit_group_info := info; co_unused_proposals := ps_unused p |}, g).

Definition commit (g : Group) (rnd : CommitRandomness) (now : Z) (aad : bytes) : Result MlsError CommitOutput * Group :=
  commit_internal g rnd now [] None aad [] None None.

(** ** [CommitBuilder] *)
Record CommitBuilder := {
  cb_proposals : list Proposal;
  cb_authenticated_data : bytes;
  group_info_extensions : ExtensionList.t;
  cb_new_signer : option bytes;
  cb_new_signing_identity : option SigningIdentity;
}.

Definition commit_builder : CommitBuilder := {|
  cb_proposals := []; cb_authenticated_data := []; group_info_extensions := []; cb_new_signer := None;
  cb_new_signing_identity := None |}.

Definition raw_proposals (b : CommitBuilder) (l : list Proposal) : CommitBuilder := {|
  cb_proposals := cb_proposals b ++ l; cb_authenticated_data := cb_authenticated_data b;
  group_info_extensions := group_info_extensions b; cb_new_signer := cb_new_signer b;
  cb_new_signing_identity := cb_new_signing_identity b |}.
Definition raw_proposal (b : CommitBuilder) (p : Proposal) : CommitBuilder := raw_proposals b [p].

Definition add_member (b : CommitBuilder) (key_package : MlsMessage) : Result MlsError CommitBuilder :=
  p ← add_proposal key_package; Ok (raw_proposal b p).
Definition remove_member (g : Group) (b : CommitBuilder) (i : Z) : Result MlsError CommitBuilder :=
  p ← remove_proposal g i; Ok (raw_proposal b p).
Definition set_group_context_ext (b : CommitBuilder) (e : ExtensionList.t) : Result MlsError CommitBuilder :=
  Ok (raw_proposal b (GroupContextExtensions e)).
Definition add_external_psk (g : Group) (b : CommitBuilder) (id seed : bytes) : Result MlsError CommitBuilder :=
  p ← psk_proposal g (ExternalPsk id) seed; Ok (raw_proposal b p).
Definition add_resumption_psk (g : Group) (b : CommitBuilder) (n : Z) (seed : bytes) : Result MlsError CommitBuilder :=
  p ← psk_proposal g (resumption_key_id g n) seed; Ok (raw_proposal b p).
Definition reinit (g : Group) (b : CommitBuilder) (gid : option bytes) (version cipher_suite : Z) (e : ExtensionList.t)
    (seed : bytes) : Result MlsError CommitBuilder :=
  p ← reinit_proposal g gid version cipher_suite e seed; Ok (raw_proposal b p).
Definition custom_proposal (b : CommitBuilder) (p : CustomProposal) : CommitBuilder := raw_proposal b (Custom p).

Definition set_group_info_ext (b : CommitBuilder) (e : ExtensionList.t) : CommitBuilder := {|
  cb_proposals := cb_proposals b; cb_authenticated_data := cb_authenticated_data b; group_info_extensions := e;
  cb_new_signer := cb_new_signer b; cb_new_signing_identity := cb_new_signing_identity b |}.
Definition set_authenticated_data (b : CommitBuilder) (d : bytes) : CommitBuilder := {|
  cb_proposals := cb_proposals b; cb_authenticated_data := d; group_info_extensions := group_info_extensions b;
  cb_new_signer := cb_new_signer b; cb_new_signing_identity := cb_new_signing_identity b |}.
Definition set_new_signing_identity (b : CommitBuilder) (sk : bytes) (s : SigningIdentity) : CommitBuilder := {|
  cb_proposals := cb_proposals b; cb_authenticated_data := cb_authenticated_data b;
  group_info_extensions := group_info_extensions b; cb_new_signer := Some sk; cb_new_signing_identity := Some s |}.

Definition build (g : Group) (b : CommitBuilder) (rnd : CommitRandomness) (now : Z) : Result MlsError CommitOutput * Group :=
  commit_internal g rnd now (cb_proposals b) None (cb_authenticated_data b) (group_info_extensions b) (cb_new_signer b)
    (cb_new_signing_identity b).
End commit.
