(* ===== verification/Join.v ===== *)
(** * Joining a group (mls-rs/src/group/mod.rs, group/external_commit.rs)

    A new member enters by a welcome message, with the secrets of a key package it
    published, or by an external commit of its own, with a signed description of
    the group. *)
From Stdlib Require Import Strings.String.
From S2P Require Import Prelude Codec Types Node TreeIndex Extensions Crypto Labels TreeHash Proposal TreeKem GroupContext Kem SecretTree Framing Epoch KeySchedule Storage StateRepo GroupState Auth Psk Rules MessageProcessor Config Group Commit.

Section join.
Context {order : MapOrder} {S K P R : Type}.
Context `{!GroupStateStorage S} `{!KeyPackageStorage K} `{!PreSharedKeyStorage P} `{!MlsRules R}.
Notation Group := (Group S K P R).
Notation ClientConfig := (ClientConfig S K P R).

(** [NewMemberInfo] is the extensions of the group information. *)
Definition join_with (config : ClientConfig) (i : GroupInfo) (t : TreeKemPublic) (k : KeySchedule) (e : EpochSecrets)
    (p : Kem.TreeKemPrivate) (used_key_package : option bytes) (sk : bytes) : Result MlsError (Group * ExtensionList.t) :=
  let context := gi_group_context i in
  csp ← cipher_suite_provider_for config (gc_cipher_suite context);
  interim ← interim_transcript_hash_create csp (confirmed_transcript_hash context) (gi_confirmation_tag i);
  Ok ({| g_config := config; g_csp := csp;
         state_repo := repo_new (group_id context) (group_state_storage config) (cfg_key_package_repo config) used_key_package;
         g_state := group_state_new context t interim (gi_confirmation_tag i);
         g_epoch_secrets := e; private_tree := p; g_key_schedule := k; pending_updates := ∅; g_pending_commit := None;
         previous_psk := None; signer := sk |}, gi_extensions i).

(** ** By a welcome message *)
Definition decrypt_group_secrets (csp : CipherSuiteProvider) (k : KeyPackageGeneration) (w : Welcome)
    (s : EncryptedGroupSecrets) : Result MlsError GroupSecrets :=
  b ← decrypt csp (ascii "Welcome") (init_secret_key k) (hpke_init_key (kg_key_package k)) (encrypted_group_info w)
    (encrypted_group_secrets s);
  '(s, _) ← from_codec_error (mls_decode group_secrets_codec b);
  Ok s.

(** With [additional_psk] the key that the reinitialized or branched group starts
    from; its nonce is the one that the welcome message names. *)
Definition welcome_psk_secret (config : ClientConfig) (csp : CipherSuiteProvider) (ids : list PreSharedKeyID)
    (additional_psk : option PskSecretInput) : Result MlsError bytes :=
  match additional_psk with
  | Some psk =>
      id ← ok_or (head ids) UnexpectedPskId;
      guard_or (match key_id id with ResumptionPskId r => negb (bool_decide (usage r = UsageApplication)) | _ => false end)
        UnexpectedPskId;;
      psk_secret_calculate csp
        [{| input_id := {| key_id := key_id (input_id psk); psk_nonce := psk_nonce id |}; input_psk := input_psk psk |}]
  | None =>
      resolve_to_secret (S:=S) (K:=K) csp {| group_context := None; current_epoch := None;
        prior_epochs := None; psk_store := secret_store config |} ids
  end.

Definition decode_group_info (b : bytes) : Result MlsError GroupInfo :=
  '(i, _) ← from_codec_error (mls_decode group_info_codec b); Ok i.

Definition joiner_private_tree (csp : CipherSuiteProvider) (self : Z) (leaf_secret : bytes) (committer : Z)
    (path_secret : option bytes) (t : TreeKemPublic) : Result MlsError Kem.TreeKemPrivate :=
  let p := Kem.new_self_leaf self leaf_secret in
  match path_secret with
  | Some s => Kem.update_secrets csp p committer s t
  | None => Ok p
  end.

Definition from_welcome_message (welcome : MlsMessage) (tree : option Node.NodeVec) (config : ClientConfig) (sk : bytes)
    (additional_psk : option PskSecretInput) : Result MlsError (Group * ExtensionList.t) :=
  let version := msg_version welcome in
  guard_or (version_supported config version) (UnsupportedProtocolVersion version);;
  w ← (match payload welcome with WelcomePayload w => Ok w | _ => Err UnexpectedMessageType end);
  csp ← cipher_suite_provider_for config (w_cipher_suite w);
  '(encrypted, k) ← find_key_package_generation (cfg_key_package_repo config) (w_secrets w);
  guard_or (kp_version (kg_key_package k) =? version) ProtocolVersionMismatch;;
  s ← decrypt_group_secrets csp k w encrypted;
  psk_secret ← welcome_psk_secret config csp (Framing.psks s) additional_psk;
  ws ← from_joiner_secret csp (Framing.joiner_secret s) psk_secret;
  b ← welcome_decrypt csp ws (encrypted_group_info w);
  i ← decode_group_info b;
  t ← validate_group_info_joiner version i tree (cfg_identity_provider config) csp;
  self ← ok_or (TreeKem.find_leaf_node t (kp_leaf_node (kg_key_package k))) WelcomeKeyPackageNotFound;
  p ← joiner_private_tree csp self (leaf_node_secret_key k) (gi_signer i) (path_secret s) t;
  r ← from_joiner csp (Framing.joiner_secret s) (gi_group_context i) (Node.total_leaf_count (nodes t)) psk_secret;
  ok ← confirmation_tag_matches csp (gi_confirmation_tag i) (confirmation_key r)
    (confirmed_transcript_hash (gi_group_context i));
  guard_or ok InvalidConfirmationTag;;
  join_with config i t (key_schedule r) (KeySchedule.epoch_secrets r) p (Some (reference k)) sk.

Definition join (welcome : MlsMessage) (tree : option Node.NodeVec) (config : ClientConfig) (sk : bytes)
    : Result MlsError (Group * ExtensionList.t) :=
  from_welcome_message welcome tree config sk None.

(** What a welcome message gives its receiver: the provider of its cipher suite, and
    the group secrets that are encrypted to the receiver's key package. *)
Definition opened_welcome (welcome : MlsMessage) (config : ClientConfig) : Result MlsError (CipherSuiteProvider * GroupSecrets) :=
  w ← (match payload welcome with WelcomePayload w => Ok w | _ => Err UnexpectedMessageType end);
  csp ← cipher_suite_provider_for config (w_cipher_suite w);
  '(encrypted, k) ← find_key_package_generation (cfg_key_package_repo config) (w_secrets w);
  s ← decrypt_group_secrets csp k w encrypted;
  Ok (csp, s).

Lemma opened_provider welcome config csp s : opened_welcome welcome config = Ok (csp, s) →
  ∃ w, payload welcome = WelcomePayload w ∧ cipher_suite_provider_for config (w_cipher_suite w) = Ok csp.
Proof.
  unfold opened_welcome. intros (w & Hw & H)%bind_ok. apply bind_ok in H as (c & Hc & H). apply bind_ok in H as ([enc k] & _ & H).
  apply bind_ok in H as (x & _ & [= -> _]). exists w. split; [|done]. destruct (payload welcome); try discriminate Hw. by injection Hw as ->.
Qed.

(** A group that was entered by a welcome message: its secrets are those of its
    context, of the joiner secret in the message and of [psk_secret], and the
    confirmation tag it has is the one of these secrets. *)
Record entered_by_welcome (welcome : MlsMessage) (config : ClientConfig) (csp : CipherSuiteProvider) (s : GroupSecrets)
    (psk_secret : bytes) (g : Group) : Prop := {
  ew_opened : opened_welcome welcome config = Ok (csp, s);
  ew_secrets : ∃ r, from_joiner csp (Framing.joiner_secret s) (group_ctx g)
      (Node.total_leaf_count (nodes (public_tree (g_state g)))) psk_secret = Ok r ∧
    g_key_schedule g = key_schedule r ∧ g_epoch_secrets g = KeySchedule.epoch_secrets r ∧
    csp_mac csp (confirmation_key r) (confirmed_transcript_hash (group_ctx g)) = inr (gs_confirmation_tag (g_state g));
}.

Lemma welcome_enters welcome tree config sk additional_psk g e :
  from_welcome_message welcome tree config sk additional_psk = Ok (g, e) →
  ∃ csp s psk_secret, entered_by_welcome welcome config csp s psk_secret g ∧
    welcome_psk_secret config csp (Framing.psks s) additional_psk = Ok psk_secret.
Proof.
  unfold from_welcome_message. intros [_ H]%bind_unit_ok. apply bind_ok in H as (w & Hw & H). apply bind_ok in H as (csp & Hc & H).
  apply bind_ok in H as ([enc k] & Hk & H). apply bind_unit_ok in H as [_ H]. apply bind_ok in H as (s & Hs & H).
  apply bind_ok in H as (secret & Hp & H). do 2 apply bind_ok in H as (? & _ & H). apply bind_ok in H as (i & _ & H).
  apply bind_ok in H as (t & _ & H). apply bind_ok in H as (self & _ & H). apply bind_ok in H as (p & _ & H).
  apply bind_ok in H as (r & Hr & H). apply bind_ok in H as (ok & Htag & H). apply bind_unit_ok in H as [Hok H].
  apply guard_or_tt in Hok as ->. unfold join_with in H. apply bind_ok in H as (csp' & _ & H). apply bind_ok in H as (y & _ & [= <- _]).
  exists csp, s, secret. split; [|done]. split.
  - unfold opened_welcome. rewrite Hw. cbn [mbind result_bind]. rewrite Hc. cbn [mbind result_bind]. rewrite Hk. cbn [mbind result_bind].
    by rewrite Hs.
  - exists r. split_and!; [done..|]. unfold confirmation_tag_matches in Htag. apply bind_ok in Htag as (tag & Ht%crypto_ok & [= Htag]).
    by apply bool_decide_eq_true_1 in Htag as ->.
Qed.

(** ** By an external commit *)
Record ExternalCommitBuilder := {
  eb_signer : bytes;
  eb_signing_identity : SigningIdentity;
  eb_config : ClientConfig;
  eb_tree_data : option Node.NodeVec;
  eb_to_remove : option Z;
  external_psks : list bytes;
  eb_authenticated_data : bytes;
  eb_custom_proposals : list Proposal;
  received_custom_proposals : list MlsMessage;
}.

Definition external_commit_builder (sk : bytes) (s : SigningIdentity) (config : ClientConfig) : ExternalCommitBuilder := {|
  eb_signer := sk; eb_signing_identity := s; eb_config := config; eb_tree_data := None; eb_to_remove := None;
  external_psks := []; eb_authenticated_data := []; eb_custom_proposals := []; received_custom_proposals := [] |}.
Definition with_tree_data (b : ExternalCommitBuilder) (t : Node.NodeVec) : ExternalCommitBuilder := {|
  eb_signer := eb_signer b; eb_signing_identity := eb_signing_identity b; eb_config := eb_config b; eb_tree_data := Some t;
  eb_to_remove := eb_to_remove b; external_psks := external_psks b; eb_authenticated_data := eb_authenticated_data b;
  eb_custom_proposals := eb_custom_proposals b; received_custom_proposals := received_custom_proposals b |}.
Definition with_removal (b : ExternalCommitBuilder) (i : Z) : ExternalCommitBuilder := {|
  eb_signer := eb_signer b; eb_signing_identity := eb_signing_identity b; eb_config := eb_config b;
  eb_tree_data := eb_tree_data b; eb_to_remove := Some i; external_psks := external_psks b;
  eb_authenticated_data := eb_authenticated_data b; eb_custom_proposals := eb_custom_proposals b;
  received_custom_proposals := received_custom_proposals b |}.
Definition with_authenticated_data (b : ExternalCommitBuilder) (d : bytes) : ExternalCommitBuilder := {|
  eb_signer := eb_signer b; eb_signing_identity := eb_signing_identity b; eb_config := eb_config b;
  eb_tree_data := eb_tree_data b; eb_to_remove := eb_to_remove b; external_psks := external_psks b;
  eb_authenticated_data := d; eb_custom_proposals := eb_custom_proposals b;
  received_custom_proposals := received_custom_proposals b |}.
Definition with_external_psk (b : ExternalCommitBuilder) (id : bytes) : ExternalCommitBuilder := {|
  eb_signer := eb_signer b; eb_signing_identity := eb_signing_identity b; eb_config := eb_config b;
  eb_tree_data := eb_tree_data b; eb_to_remove := eb_to_remove b; external_psks := external_psks b ++ [id];
  eb_authenticated_data := eb_authenticated_data b; eb_custom_proposals := eb_custom_proposals b;
  received_custom_proposals := received_custom_proposals b |}.
Definition with_custom_proposal (b : ExternalCommitBuilder) (p : CustomProposal) : ExternalCommitBuilder := {|
  eb_signer := eb_signer b; eb_signing_identity := eb_signing_identity b; eb_config := eb_config b;
  eb_tree_data := eb_tree_data b; eb_to_remove := eb_to_remove b; external_psks := external_psks b;
  eb_authenticated_data := eb_authenticated_data b; eb_custom_proposals := eb_custom_proposals b ++ [Custom p];
  received_custom_proposals := received_custom_proposals b |}.
Definition with_received_custom_proposal (b : ExternalCommitBuilder) (m : MlsMessage) : ExternalCommitBuilder := {|
  eb_signer := eb_signer b; eb_signing_identity := eb_signing_identity b; eb_config := eb_config b;
  eb_tree_data := eb_tree_data b; eb_to_remove := eb_to_remove b; external_psks := external_psks b;
  eb_authenticated_data := eb_authenticated_data b; eb_custom_proposals := eb_custom_proposals b;
  received_custom_proposals := received_custom_proposals b ++ [m] |}.

(** The secrets of a member that is not one yet. *)
Definition no_epoch_secrets : EpochSecrets := {|
  resumption_secret := []; sender_data_secret := []; secret_tree := SecretTree.empty_tree |}.

(** A proposal of a member, checked as an observer checks it. *)
Definition receive_custom_proposal (csp : CipherSuiteProvider) (g : Group) (m : MlsMessage) : Result MlsError Group :=
  match payload m with
  | Plain p =>
      verify_plaintext_authentication csp p None None (g_state g);;
      let '(r, g) := process_event_or_content g (AuthContent (from_public_message p) : EventOrContent ReceivedMessage) true None in
      _ ← r; Ok g
  | _ => Err UnexpectedMessageType
  end.

(** The randomness of an external commit: of the leaf's key, of the KEM output, of
    each pre-shared key's nonce, and of the commit itself. *)
Record ExternalRandomness := { r_leaf_node : bytes; r_init : bytes; r_nonce : bytes → bytes; r_commit : CommitRandomness }.

Definition external_psk_proposals (csp : CipherSuiteProvider) (ids : list bytes) (seeds : bytes → bytes)
    : Result MlsError (list Proposal) :=
  mapM_res (λ id, n ← crypto (csp_random_bytes csp (seeds id) (csp_kdf_extract_size csp));
                  Ok (Proposal.Psk {| key_id := ExternalPsk id; psk_nonce := n |})) ids.

Definition external_build (b : ExternalCommitBuilder) (rnd : ExternalRandomness) (now : Z) (m : MlsMessage)
    : Result MlsError (Group * MlsMessage) :=
  let config := eb_config b in
  let version := msg_version m in
  guard_or (version_supported config version) (UnsupportedProtocolVersion version);;
  i ← (match payload m with GroupInfoPayload i => Ok i | _ => Err UnexpectedMessageType end);
  csp ← cipher_suite_provider_for config (gc_cipher_suite (gi_group_context i));
  ext ← from_extension_error (get_as (E:=ExternalPubExt) (gi_extensions i));
  ext ← ok_or ext MissingExternalPubExtension;
  t ← validate_group_info_joiner version i (eb_tree_data b) (cfg_identity_provider config) csp;
  '(leaf, _) ← leaf_generate csp (r_leaf_node rnd) (leaf_properties config) (eb_signing_identity b) (eb_signer b) (cfg_lifetime config);
  '(init, kem_output) ← encode_for_external csp (r_init rnd) (external_pub ext);
  '(g, _) ← join_with config i t (key_schedule_new init) no_epoch_secrets Kem.new_for_external None (eb_signer b);
  psks ← external_psk_proposals csp (external_psks b) (r_nonce rnd);
  g ← foldM (receive_custom_proposal csp) g (received_custom_proposals b);
  let proposals := ExternalInit kem_output :: psks ++ eb_custom_proposals b ++
    match eb_to_remove b with Some r => [Remove r] | None => [] end in
  let '(o, g) := commit_internal g (r_commit rnd) now proposals (Some leaf) (eb_authenticated_data b) [] None None in
  o ← o;
  let '(d, g) := apply_pending_commit g in
  _ ← d;
  Ok (g, commit_message o).
End join.
