(* ===== verification/Snapshot.v ===== *)
(** * The stored form of a group (mls-rs/src/group/snapshot.rs)

    What [write_to_storage] keeps of a group and what [from_snapshot] makes of it.
    The theorem: a group that was written and is loaded is the group it was, with an
    empty repository in front of the storage that has its epochs. *)
From S2P Require Import Prelude Codec Wire Types Node TreeIndex Crypto TreeHash Proposal TreeKem GroupContext Kem SecretTree Framing Epoch KeySchedule Storage StateRepo GroupState Psk Rules ProcessorLaws Config Group GroupLaws.
Import LeafCodecs Node ProposalCodecs FramingLaws.

(** ** Formats *)
Section formats.
Context {order : MapOrder}.

Definition type_counter_codec : MlsCodec TreeIndex.TypeCounter :=
  struct_codec (λ c, (TreeIndex.supported c, TreeIndex.used c)) (λ p, {| TreeIndex.supported := p.1; TreeIndex.used := p.2 |})
    (tuple_codec u32_codec u32_codec).

Definition tree_index_codec : MlsCodec TreeIndex.t :=
  struct_codec (λ t, (TreeIndex.credential_signature_key t, (TreeIndex.hpke_key t, (TreeIndex.identities t,
      (TreeIndex.credential_type_counters t, TreeIndex.proposal_type_counter t)))))
    (λ '(a, (b, (c, (d, e)))), {| TreeIndex.credential_signature_key := a; TreeIndex.hpke_key := b;
      TreeIndex.identities := c; TreeIndex.credential_type_counters := d; TreeIndex.proposal_type_counter := e |})
    (tuple_codec (hash_map_codec byte_vec_codec u32_codec) (tuple_codec (hash_map_codec byte_vec_codec u32_codec)
      (tuple_codec (hash_map_codec byte_vec_codec u32_codec) (tuple_codec (hash_map_codec u16_codec type_counter_codec)
        (hash_map_codec u16_codec u32_codec))))).

Definition tree_kem_public_codec : MlsCodec TreeKemPublic :=
  struct_codec (λ t, (index t, (nodes t, tree_hashes t))) (λ '(a, (b, c)), {| index := a; nodes := b; tree_hashes := c |})
    (tuple_codec tree_index_codec (tuple_codec Node.node_vec_codec (vec_codec byte_vec_codec))).

Definition tree_kem_private_codec : MlsCodec Kem.TreeKemPrivate :=
  struct_codec (λ t, (Kem.self_index t, Kem.secret_keys t)) (λ p, {| Kem.self_index := p.1; Kem.secret_keys := p.2 |})
    (tuple_codec u32_codec (vec_codec (option_codec byte_vec_codec))).

Definition commit_generation_codec : MlsCodec CommitGeneration :=
  struct_codec (λ c, (pending_content c, (pending_private_tree c, (pending_commit_secret c, commit_message_hash c))))
    (λ '(a, (b, (c, d))), {| pending_content := a; pending_private_tree := b; pending_commit_secret := c;
                             commit_message_hash := d |})
    (tuple_codec authenticated_content_codec (tuple_codec tree_kem_private_codec (tuple_codec byte_vec_codec byte_vec_codec))).

Record RawGroupState := {
  raw_context : GroupContext;
  raw_proposals : gmap bytes CachedProposal;
  raw_public_tree : TreeKemPublic;
  raw_interim_transcript_hash : bytes;
  raw_pending_reinit : option ReInitProposal;
  raw_confirmation_tag : bytes;
}.

Definition raw_group_state_codec : MlsCodec RawGroupState :=
  struct_codec (λ s, (raw_context s, (raw_proposals s, (raw_public_tree s, (raw_interim_transcript_hash s,
      (raw_pending_reinit s, raw_confirmation_tag s))))))
    (λ '(a, (b, (c, (d, (e, f))))), {| raw_context := a; raw_proposals := b; raw_public_tree := c;
      raw_interim_transcript_hash := d; raw_pending_reinit := e; raw_confirmation_tag := f |})
    (tuple_codec group_context_codec (tuple_codec (hash_map_codec byte_vec_codec cached_proposal_codec)
      (tuple_codec tree_kem_public_codec (tuple_codec byte_vec_codec (tuple_codec (option_codec reinit_codec) byte_vec_codec))))).

Record Snapshot := {
  snap_version : Z;
  snap_state : RawGroupState;
  snap_private_tree : Kem.TreeKemPrivate;
  snap_epoch_secrets : EpochSecrets;
  snap_key_schedule : KeySchedule;
  snap_pending_updates : gmap bytes (bytes * option bytes);
  snap_pending_commit : option CommitGeneration;
  snap_signer : bytes;
}.

Definition snapshot_codec : MlsCodec Snapshot :=
  struct_codec (λ s, (snap_version s, (snap_state s, (snap_private_tree s, (snap_epoch_secrets s, (snap_key_schedule s,
      (snap_pending_updates s, (snap_pending_commit s, snap_signer s))))))))
    (λ '(a, (b, (c, (d, (e, (f, (g, h))))))), {| snap_version := a; snap_state := b; snap_private_tree := c;
      snap_epoch_secrets := d; snap_key_schedule := e; snap_pending_updates := f; snap_pending_commit := g; snap_signer := h |})
    (tuple_codec u16_codec (tuple_codec raw_group_state_codec (tuple_codec tree_kem_private_codec
      (tuple_codec epoch_secrets_codec (tuple_codec key_schedule_codec
        (tuple_codec (hash_map_codec byte_vec_codec (tuple_codec byte_vec_codec (option_codec byte_vec_codec)))
          (tuple_codec (option_codec commit_generation_codec) byte_vec_codec))))))).
End formats.

(** ** Writing and loading *)
Definition raw_export (s : GroupState) : RawGroupState := {|
  raw_context := gs_context s; raw_proposals := cached_proposals (gs_proposals s); raw_public_tree := public_tree s;
  raw_interim_transcript_hash := interim_transcript_hash s; raw_pending_reinit := pending_reinit s;
  raw_confirmation_tag := gs_confirmation_tag s |}.

Definition raw_import (ip : IdentityProvider) (s : RawGroupState) : Result MlsError GroupState :=
  let c := raw_context s in
  t ← TreeKem.initialize_index_if_necessary ip (gc_extensions c) (raw_public_tree s);
  Ok {| gs_proposals := cache_import (protocol_version c) (group_id c) (raw_proposals s); gs_context := c; public_tree := t;
        interim_transcript_hash := raw_interim_transcript_hash s; pending_reinit := raw_pending_reinit s;
        gs_confirmation_tag := raw_confirmation_tag s |}.

Section snapshot.
Context {order : MapOrder} {S K P R : Type}.
Context `{!GroupStateStorage S} `{!KeyPackageStorage K} `{!PreSharedKeyStorage P} `{!MlsRules R}.
Notation Group := (Group S K P R).

Definition group_snapshot (g : Group) : Snapshot := {|
  snap_version := 1; snap_state := raw_export (g_state g); snap_private_tree := private_tree g;
  snap_epoch_secrets := g_epoch_secrets g; snap_key_schedule := g_key_schedule g;
  snap_pending_updates := pending_updates g; snap_pending_commit := g_pending_commit g; snap_signer := signer g |}.

Definition group_write_to_storage (g : Group) : Result MlsError unit * Group :=
  let s := group_snapshot g in
  let '(r, repo) := write_to_storage (state_repo g) (mls_encode_to_vec snapshot_codec s) (group_id (raw_context (snap_state s))) in
  (r, set_state_repo g repo).

Definition from_snapshot (config : ClientConfig S K P R) (s : Snapshot) : Result MlsError Group :=
  let context := raw_context (snap_state s) in
  csp ← cipher_suite_provider_for config (gc_cipher_suite context);
  state ← raw_import (cfg_identity_provider config) (snap_state s);
  Ok {| g_config := config; g_csp := csp;
        state_repo := repo_new (group_id context) (group_state_storage config) (cfg_key_package_repo config) None;
        g_state := state; g_epoch_secrets := snap_epoch_secrets s; private_tree := snap_private_tree s;
        g_key_schedule := snap_key_schedule s; pending_updates := snap_pending_updates s;
        g_pending_commit := snap_pending_commit s; previous_psk := None; signer := snap_signer s |}.

(** [Client::load_group]. *)
Definition load_group (config : ClientConfig S K P R) (gid : bytes) : Result MlsError Group :=
  found ← group_storage (storage_state (group_state_storage config) gid);
  b ← ok_or found GroupNotFound;
  '(s, _) ← from_codec_error (mls_decode snapshot_codec b);
  from_snapshot config s.
End snapshot.

(** ** Well-formed snapshots *)
Definition type_counter_wf (c : TreeIndex.TypeCounter) : Prop := is_u32 (TreeIndex.supported c) ∧ is_u32 (TreeIndex.used c).

Record tree_index_wf (t : TreeIndex.t) : Prop := {
  iw_signature : map_Forall (λ _ i, is_u32 i) (TreeIndex.credential_signature_key t);
  iw_hpke : map_Forall (λ _ i, is_u32 i) (TreeIndex.hpke_key t);
  iw_identity : map_Forall (λ _ i, is_u32 i) (TreeIndex.identities t);
  iw_credential : map_Forall (λ k c, is_u16 k ∧ type_counter_wf c) (TreeIndex.credential_type_counters t);
  iw_proposal : map_Forall (λ k n, is_u16 k ∧ is_u32 n) (TreeIndex.proposal_type_counter t);
}.

Definition tree_kem_public_wf (t : TreeKemPublic) : Prop :=
  tree_index_wf (index t) ∧ Forall (λ o, from_option Node.node_wf True o) (nodes t).
Definition tree_kem_private_wf (t : Kem.TreeKemPrivate) : Prop := is_u32 (Kem.self_index t).
Definition cached_proposal_wf (c : CachedProposal) : Prop := proposal_wf (cp_proposal c) ∧ sender_wf (cp_sender c).
Definition commit_generation_wf (c : CommitGeneration) : Prop :=
  authenticated_content_wf (pending_content c) ∧ tree_kem_private_wf (pending_private_tree c).

Record raw_group_state_wf (s : RawGroupState) : Prop := {
  rw_context : group_context_wf (raw_context s);
  rw_proposals : map_Forall (λ _ c, cached_proposal_wf c) (raw_proposals s);
  rw_tree : tree_kem_public_wf (raw_public_tree s);
  rw_reinit : from_option reinit_wf True (raw_pending_reinit s);
}.

Record snapshot_wf (s : Snapshot) : Prop := {
  sw_version : is_u16 (snap_version s);
  sw_state : raw_group_state_wf (snap_state s);
  sw_private : tree_kem_private_wf (snap_private_tree s);
  sw_secrets : epoch_secrets_wf (snap_epoch_secrets s);
  sw_commit : from_option commit_generation_wf True (snap_pending_commit s);
}.

(** What is well formed is decidable. *)
Section decidable.
#[export] Instance is_u16_dec z : Decision (is_u16 z) := and_dec _ _.
#[export] Instance is_u32_dec z : Decision (is_u32 z) := and_dec _ _.
#[export] Instance is_u64_dec z : Decision (is_u64 z) := and_dec _ _.
#[export] Instance from_option_dec {A} (P : A → Prop) `{!∀ a, Decision (P a)} o : Decision (from_option P True o).
Proof. destruct o; cbn; apply _. Defined.

#[export] Instance ext_list_wf_dec l : Decision (ext_list_wf l).
Proof. unfold ext_list_wf, ExtensionListFacts.wf, extension_wf. apply _. Defined.
#[export] Instance leaf_node_wf_dec l : Decision (leaf_node_wf l).
Proof.
  unfold leaf_node_wf, signing_identity_wf, capabilities_wf, credential_wf, leaf_node_source_wf, lifetime_wf.
  destruct (credential _), (leaf_node_source _); apply _.
Defined.
#[export] Instance node_wf_dec n : Decision (Node.node_wf n).
Proof. unfold Node.node_wf, Node.parent_wf. destruct n; apply _. Defined.
#[export] Instance group_context_wf_dec c : Decision (group_context_wf c).
Proof. unfold group_context_wf. apply _. Defined.
#[export] Instance reinit_wf_dec r : Decision (reinit_wf r).
Proof. unfold reinit_wf. apply _. Defined.
#[export] Instance proposal_wf_dec p : Decision (proposal_wf p).
Proof.
  destruct p; cbn; unfold key_package_wf, psk_id_wf, just_psk_id_wf, resumption_psk_wf; try apply _.
  destruct (key_id _); apply _.
Defined.
#[export] Instance sender_wf_dec s : Decision (sender_wf s).
Proof. destruct s; cbn; apply _. Defined.
#[export] Instance content_wf_dec c : Decision (content_wf c).
Proof.
  assert (∀ p, Decision (proposal_or_ref_wf p)) by (intros []; cbn; apply _).
  destruct c; cbn; unfold commit_wf, update_path_wf; apply _.
Defined.
#[export] Instance content_type_eq_dec : EqDecision ContentType.
Proof. solve_decision. Defined.
#[export] Instance authenticated_content_wf_dec a : Decision (authenticated_content_wf a).
Proof. unfold authenticated_content_wf, framed_content_wf, auth_data_wf. apply _. Defined.
#[export] Instance secret_node_wf_dec n : Decision (secret_node_wf n).
Proof. destruct n; cbn; unfold ratchets_wf, ratchet_wf; apply _. Defined.
#[export] Instance epoch_secrets_wf_dec e : Decision (epoch_secrets_wf e).
Proof. unfold epoch_secrets_wf, secret_tree_wf. apply _. Defined.

#[export] Instance tree_index_wf_dec t : Decision (tree_index_wf t).
Proof.
  assert (∀ c, Decision (type_counter_wf c)) by (unfold type_counter_wf; apply _).
  refine (cast_if_and5 (decide (map_Forall (λ _ i, is_u32 i) (TreeIndex.credential_signature_key t)))
    (decide (map_Forall (λ _ i, is_u32 i) (TreeIndex.hpke_key t))) (decide (map_Forall (λ _ i, is_u32 i) (TreeIndex.identities t)))
    (decide (map_Forall (λ k c, is_u16 k ∧ type_counter_wf c) (TreeIndex.credential_type_counters t)))
    (decide (map_Forall (λ k n, is_u16 k ∧ is_u32 n) (TreeIndex.proposal_type_counter t)))); first [by split|by intros []].
Defined.
#[export] Instance raw_group_state_wf_dec s : Decision (raw_group_state_wf s).
Proof.
  assert (∀ c, Decision (cached_proposal_wf c)) by (unfold cached_proposal_wf; apply _).
  assert (∀ t, Decision (tree_kem_public_wf t)) by (unfold tree_kem_public_wf; apply _).
  refine (cast_if_and4 (decide (group_context_wf (raw_context s))) (decide (map_Forall (λ _ c, cached_proposal_wf c) (raw_proposals s)))
    (decide (tree_kem_public_wf (raw_public_tree s))) (decide (from_option reinit_wf True (raw_pending_reinit s)))); first [by split|by intros []].
Defined.
#[export] Instance snapshot_wf_dec s : Decision (snapshot_wf s).
Proof.
  assert (∀ c, Decision (tree_kem_private_wf c)) by (unfold tree_kem_private_wf; apply _).
  assert (∀ c, Decision (commit_generation_wf c)) by (unfold commit_generation_wf; apply _).
  refine (cast_if_and5 (decide (is_u16 (snap_version s))) (decide (raw_group_state_wf (snap_state s)))
    (decide (tree_kem_private_wf (snap_private_tree s))) (decide (epoch_secrets_wf (snap_epoch_secrets s)))
    (decide (from_option commit_generation_wf True (snap_pending_commit s)))); first [by split|by intros []].
Defined.
End decidable.

Section laws.
Context {order : MapOrder}.

Let byte_vec_wire : WireLaws byte_vec_codec (λ _, True) := codec_wire _ _ byte_vec_laws.
Let u32_wire : WireLaws u32_codec is_u32 := codec_wire _ _ u32_laws.
Let u16_wire : WireLaws u16_codec is_u16 := codec_wire _ _ u16_laws.
Let keys_wire : WireLaws (hash_map_codec byte_vec_codec u32_codec) (map_Forall (λ _ i, True ∧ is_u32 i)) :=
  hash_map_wire _ _ _ _ byte_vec_wire (codec_nonempty _ _ byte_vec_laws _) u32_wire.

#[export] Instance type_counter_wire : WireLaws type_counter_codec type_counter_wf.
Proof. eapply wire_iff; [apply struct_wire; [by intros []|apply (tuple_wire _ _ _ _ u32_wire u32_wire)]|]. by intros []. Qed.

#[export] Instance tree_index_wire : WireLaws tree_index_codec tree_index_wf.
Proof.
  pose proof (hash_map_wire u16_codec type_counter_codec _ _ u16_wire (codec_nonempty _ _ u16_laws _) _) as Hc.
  pose proof (hash_map_wire u16_codec u32_codec _ _ u16_wire (codec_nonempty _ _ u16_laws _) u32_wire) as Hp.
  eapply wire_iff; [apply struct_wire; [by intros []|]|].
  - repeat (apply tuple_wire; [eassumption|]). eassumption.
  - intros t [H1 H2 H3 H4 H5]. cbn. split_and!; try done; intros k v Hk; split; try done; eauto.
Qed.

#[export] Instance tree_kem_public_wire : WireLaws tree_kem_public_codec tree_kem_public_wf.
Proof.
  eapply wire_iff; [apply struct_wire; [by intros []|]|].
  - apply tuple_wire; [apply _|]. apply tuple_wire; [apply codec_wire, vec_laws; apply _|]. apply vec_wire; [apply byte_vec_wire|].
    exact (codec_nonempty _ _ byte_vec_laws _).
  - intros t [Hi Hn]. split_and!; try done. by apply Forall_true.
Qed.

#[export] Instance tree_kem_private_wire : WireLaws tree_kem_private_codec tree_kem_private_wf.
Proof.
  eapply wire_iff; [apply struct_wire; [by intros []|]|].
  - apply tuple_wire; [apply u32_wire|]. apply codec_wire. typeclasses eauto.
  - intros t Ht. split; [done|]. apply Forall_true. by intros [].
Qed.

#[export] Instance cached_proposal_wire : WireLaws cached_proposal_codec cached_proposal_wf.
Proof.
  eapply wire_iff; [apply struct_wire; [by intros []|]|].
  - apply tuple_wire; [apply proposal_wire|apply codec_wire, sender_laws].
  - done.
Qed.

#[export] Instance commit_generation_wire : WireLaws commit_generation_codec commit_generation_wf.
Proof.
  eapply wire_iff; [apply struct_wire; [by intros []|]|].
  - apply tuple_wire; [apply _|]. apply tuple_wire; [apply _|]. apply tuple_wire; apply byte_vec_wire.
  - intros c [Hc Hp]. by split_and!.
Qed.

#[export] Instance raw_group_state_wire : WireLaws raw_group_state_codec raw_group_state_wf.
Proof.
  pose proof (hash_map_wire byte_vec_codec cached_proposal_codec _ _ byte_vec_wire (codec_nonempty _ _ byte_vec_laws _) _) as Hp.
  eapply wire_iff; [apply struct_wire; [by intros []|]|].
  - apply tuple_wire; [apply codec_wire, group_context_laws|]. apply tuple_wire; [apply Hp|]. apply tuple_wire; [apply _|].
    apply tuple_wire; [apply byte_vec_wire|]. apply tuple_wire; [apply option_wire, codec_wire, reinit_laws|apply byte_vec_wire].
  - intros s [H1 H2 H3 H4]. split_and!; try done. intros k c Hk. split; [done|]. by apply (H2 k).
Qed.

#[export] Instance snapshot_wire : WireLaws snapshot_codec snapshot_wf.
Proof.
  pose proof (tuple_wire _ _ _ _ byte_vec_wire (option_wire _ _ byte_vec_wire)) as Hu.
  pose proof (hash_map_wire byte_vec_codec _ _ _ byte_vec_wire (codec_nonempty _ _ byte_vec_laws _) Hu) as Hp.
  eapply wire_iff; [apply struct_wire; [by intros []|]|].
  - apply tuple_wire; [apply u16_wire|]. do 3 (apply tuple_wire; [apply _|]).
    apply tuple_wire; [apply codec_wire, key_schedule_laws|]. apply tuple_wire; [apply Hp|].
    apply tuple_wire; [apply option_wire, _|apply byte_vec_wire].
  - intros s [H1 H2 H3 H4 H5]. split_and!; try done. intros k [sk [o|]] _; done.
Qed.
End laws.

(** ** Loading what was written *)

(** The configuration over the storages of a repository. *)
Definition reopened {S K P R} (c : ClientConfig S K P R) (r : GroupStateRepository S K) : ClientConfig S K P R := {|
  supported_extensions := supported_extensions c; supported_custom_proposals := supported_custom_proposals c;
  supported_protocol_versions := supported_protocol_versions c; cfg_key_package_repo := key_package_repo r;
  cfg_mls_rules := cfg_mls_rules c; secret_store := secret_store c; group_state_storage := storage r;
  cfg_identity_provider := cfg_identity_provider c; crypto_provider := crypto_provider c;
  supported_cipher_suites := supported_cipher_suites c; key_package_extensions := key_package_extensions c;
  leaf_node_extensions := leaf_node_extensions c; cfg_lifetime := cfg_lifetime c |}.

(** [g'] is [g] as it was written: only what is not stored differs. *)
Record restored {S K P R} (g g' : Group S K P R) : Prop := {
  re_csp : g_csp g' = g_csp g;
  re_state : g_state g' = g_state g;
  re_secrets : g_epoch_secrets g' = g_epoch_secrets g;
  re_private : private_tree g' = private_tree g;
  re_schedule : g_key_schedule g' = g_key_schedule g;
  re_updates : pending_updates g' = pending_updates g;
  re_commit : g_pending_commit g' = g_pending_commit g;
  re_signer : signer g' = signer g;
  re_psk : previous_psk g' = None;
}.

Section restore.
Context {order : MapOrder} {S K P R : Type}.
Context `{!GroupStateStorage S} `{!GroupStateStorageLaws S} `{!KeyPackageStorage K} `{!PreSharedKeyStorage P} `{!MlsRules R}.

Lemma raw_import_export ip (s : GroupState) :
  pc_protocol_version (gs_proposals s) = protocol_version (gs_context s) →
  pc_group_id (gs_proposals s) = group_id (gs_context s) → TreeIndex.is_initialized (index (public_tree s)) = true →
  raw_import ip (raw_export s) = Ok s.
Proof.
  destruct s as [[v i ps] c t h r tag]. cbn. intros -> -> Hi. unfold raw_import, TreeKem.initialize_index_if_necessary. cbn.
  by rewrite Hi.
Qed.

Lemma from_snapshot_restores (g : Group S K P R) (r : GroupStateRepository S K) :
  group_consistent g → TreeIndex.is_initialized (index (public_tree (g_state g))) = true →
  ∃ g', from_snapshot (reopened (g_config g) r) (group_snapshot g) = Ok g' ∧ restored g g' ∧
    state_repo g' = repo_new (group_id (group_ctx g)) (storage r) (key_package_repo r) None.
Proof.
  intros [Hp Hr [Hv Hc]] Hi. unfold from_snapshot, cipher_suite_provider_for. cbn. fold (group_ctx g). rewrite Hp. cbn.
  rewrite (raw_import_export _ (g_state g)) by done. cbn. eexists. split; [done|]. by split.
Qed.

(** C12. A group that was written to storage is read back.  When [write_to_storage]
    succeeds, [load_group] over the storages as the write left them returns a group
    with the same public state, secrets, keys, pending updates, pending commit and
    signer; its repository stands for the past epochs the storage retained, the
    latest of those the group had. *)
Theorem stored_group_restored (g g' : Group S K P R) past :
  group_consistent g → TreeIndex.is_initialized (index (public_tree (g_state g))) = true →
  snapshot_wf (group_snapshot g) → repo_inv (state_repo g) past →
  group_write_to_storage g = (Ok tt, g') →
  ∃ k g'', load_group (reopened (g_config g) (state_repo g')) (group_id (group_ctx g)) = Ok g'' ∧ restored g g'' ∧
    repo_inv (state_repo g'') (drop k (epochs (state_repo g) past)) ∧
    epochs (state_repo g'') (drop k (epochs (state_repo g) past)) = drop k (epochs (state_repo g) past).
Proof.
  intros Hg Hi Hwf Hinv Hw. unfold group_write_to_storage in Hw.
  destruct (write_to_storage _ _ _) as [res repo] eqn:E. injection Hw as -> <-.
  apply write_ok_inv in E as (b & ins & ups & s' & kr & Hb & Hins & Hups & Hsw & ->).
  change (group_id (raw_context (snap_state (group_snapshot g)))) with (group_id (group_ctx g)) in Hsw.
  rewrite <- (gc_repo g Hg) in Hsw.
  destruct (written_inv _ _ _ _ _ _ kr Hinv Hins Hups Hsw) as (k & Hk & Hep & Hst). exists k.
  destruct (from_snapshot_restores g {| pending_commit := {| inserts := []; updates := [] |};
    pending_key_package_removal := pending_key_package_removal (state_repo g); repo_group_id := repo_group_id (state_repo g);
    storage := s'; key_package_repo := kr |} Hg Hi) as (g'' & Hload & Hre & Hrepo).
  exists g''. split_and!; [|done| |].
  - unfold load_group. cbn [reopened group_state_storage state_repo set_state_repo storage]. rewrite <- (gc_repo g Hg), Hst.
    cbn [group_storage ok_or mbind result_bind].
    assert (mls_decode snapshot_codec b = Ok (group_snapshot g, [])) as ->; [|exact Hload].
    rewrite <- (app_nil_r b). by apply wire_decode.
  - rewrite Hrepo. destruct Hk as [H1 H2 H3 H4 H5]. cbn in *. rewrite <- (gc_repo g Hg). by split.
  - rewrite Hrepo. cbn in Hep |- *. exact Hep.
Qed.
End restore.
