(* ===== verification/External.v ===== *)
(** * Observers (mls-rs/src/external_client.rs, external_client/group.rs, external_client/config.rs)

    A party that is not a member but follows the public state of a group, and may
    propose changes when the group lists it as an external sender.  It is the second
    implementation of [MessageProcessor]: it has no secrets, so it cannot check
    confirmation tags, and takes every pre-shared key to be known. *)
From S2P Require Import Prelude Codec Wire Types Node TreeIndex Extensions Crypto TreeHash ParentHash Proposal TreeKem GroupContext Validator Kem Framing Epoch KeySchedule Storage GroupState Auth ProposalFilter Psk Rules Provisional MessageProcessor ProcessorLaws Config Group Snapshot.

(** ** psk.rs, [AlwaysFoundPskStorage] *)
Inductive AlwaysFoundPskStorage := AlwaysFound.
#[export] Instance always_found : PreSharedKeyStorage AlwaysFoundPskStorage := {| psk_get _ _ := inr (Some []) |}.

(** ** config.rs *)
Record ExternalClientConfig (R : Type) := {
  ex_supported_extensions : list Z;
  ex_supported_custom_proposals : list Z;
  ex_supported_protocol_versions : list Z;
  ex_identity_provider : IdentityProvider;
  ex_crypto_provider : Z → option CipherSuiteProvider;
  ex_mls_rules : R;
  ex_cache_proposals : bool;
  max_epoch_jitter : option Z;
}.
Arguments ex_supported_extensions {R}.
Arguments ex_supported_custom_proposals {R}.
Arguments ex_supported_protocol_versions {R}.
Arguments ex_identity_provider {R}.
Arguments ex_crypto_provider {R}.
Arguments ex_mls_rules {R}.
Arguments ex_cache_proposals {R}.
Arguments max_epoch_jitter {R}.

Definition ex_version_supported {R} (c : ExternalClientConfig R) (v : Z) : bool :=
  bool_decide (v ∈ ex_supported_protocol_versions c).
Definition ex_cipher_suite_provider {R} (c : ExternalClientConfig R) (cs : Z) : Result MlsError CipherSuiteProvider :=
  ok_or (ex_crypto_provider c cs) (UnsupportedCipherSuite cs).

(** ** group.rs *)
Inductive ExternalReceivedMessage :=
  | ExternalCommit (d : CommitMessageDescription)
  | ExternalProposal (d : ProposalMessageDescription)
  | ExternalCiphertext (t : ContentType)
  | ExternalGroupInfo (g : GroupInfo)
  | ExternalWelcome
  | ExternalKeyPackage (k : KeyPackage).

#[export] Instance external_output : OutputType ExternalReceivedMessage := {|
  out_application _ := Err UnencryptedApplicationMessage;
  out_commit := ExternalCommit; out_proposal := ExternalProposal; out_group_info := ExternalGroupInfo;
  out_welcome _ := ExternalWelcome; out_key_package := ExternalKeyPackage |}.

Record ExternalGroup (R : Type) := {
  eg_config : ExternalClientConfig R;
  eg_csp : CipherSuiteProvider;
  eg_state : GroupState;
  signing_data : option (bytes * SigningIdentity);
}.
Arguments eg_config {R}.
Arguments eg_csp {R}.
Arguments eg_state {R}.
Arguments signing_data {R}.

Section external.
Context {order : MapOrder} {R : Type} `{!MlsRules R}.
Notation ExternalGroup := (ExternalGroup R).
Notation ExternalClientConfig := (ExternalClientConfig R).
Implicit Types (x : ExternalGroup).

Definition eg_set_state x (s : GroupState) : ExternalGroup := {|
  eg_config := eg_config x; eg_csp := eg_csp x; eg_state := s; signing_data := signing_data x |}.

Definition external_join (config : ExternalClientConfig) (s : option (bytes * SigningIdentity)) (m : MlsMessage)
    (tree : option Node.NodeVec) : Result MlsError ExternalGroup :=
  let version := msg_version m in
  guard_or (ex_version_supported config version) (UnsupportedProtocolVersion version);;
  i ← (match payload m with GroupInfoPayload i => Ok i | _ => Err UnexpectedMessageType end);
  csp ← ex_cipher_suite_provider config (gc_cipher_suite (gi_group_context i));
  t ← validate_group_info_joiner version i tree (ex_identity_provider config) csp;
  interim ← interim_transcript_hash_create csp (confirmed_transcript_hash (gi_group_context i)) (gi_confirmation_tag i);
  Ok {| eg_config := config; eg_csp := csp; signing_data := s;
        eg_state := group_state_new (gi_group_context i) t interim (gi_confirmation_tag i) |}.

(** *** The processor *)

(** [self.state.context.epoch - j], a subtraction of [u64]. *)
Definition ex_min_epoch_available x : option Z :=
  (λ j, wrap 64 (epoch (gs_context (eg_state x)) - j)) <$> max_epoch_jitter (eg_config x).

Definition external_update_key_schedule x (secrets : option CommitSecrets) (interim tag : bytes) (p : ProvisionalState)
    : Result MlsError unit * ExternalGroup :=
  (Ok tt, eg_set_state x {|
     gs_proposals := cache_clear (gs_proposals (eg_state x)); gs_context := ps_context p; public_tree := ps_tree p;
     interim_transcript_hash := interim; pending_reinit := pending_reinit (eg_state x); gs_confirmation_tag := tag |}).

#[export] Instance external_processor : MessageProcessor ExternalGroup ExternalReceivedMessage R AlwaysFoundPskStorage := {|
  group_state := eg_state;
  set_group_state := eg_set_state;
  mls_rules x := ex_mls_rules (eg_config x);
  mp_identity_provider x := ex_identity_provider (eg_config x);
  mp_cipher_suite_provider := eg_csp;
  mp_psk_storage _ := AlwaysFound;
  can_continue_processing _ _ := true;
  min_epoch_available := ex_min_epoch_available;
  process_ciphertext x m := (Ok (Event (ExternalCiphertext (pr_content_type m))), x);
  verify_plaintext x m := a ← verify_plaintext_authentication (eg_csp x) m None None (eg_state x); Ok (AuthContent a);
  mp_apply_update_path x sender v p :=
    try p, x ← st_lift (public_apply_update_path (ex_identity_provider (eg_config x)) (eg_csp x) sender v p) x;
    (Ok (None, p), x);
  update_key_schedule := external_update_key_schedule |}.

Definition external_process_incoming_message x (now : Z) (m : MlsMessage) : Result MlsError ExternalReceivedMessage * ExternalGroup :=
  process_incoming_message x now m (ex_cache_proposals (eg_config x)).

(** *** Proposals *)
Definition insert_proposal x (p : ReceivedProposal) : ExternalGroup :=
  eg_set_state x (with_cache (eg_state x) (cache_insert (gs_proposals (eg_state x)) (rp_proposal_ref p) (rp_proposal p) (rp_sender p))).

Definition insert_proposal_from_message x (m : MlsMessage) : Result MlsError unit * ExternalGroup :=
  try p, x ← st_lift (match payload m with Plain p => Ok p | _ => Err UnexpectedMessageType end) x;
  let a := from_public_message p in
  try r, x ← st_lift (proposal_ref_from_content (eg_csp x) a) x;
  try p, x ← st_lift (match fc_content (content a) with ProposalContent p => Ok p | _ => Err UnexpectedMessageType end) x;
  (Ok tt, insert_proposal x {| rp_proposal := p; rp_proposal_ref := r; rp_sender := fc_sender (content a) |}).

Definition external_clear_proposal_cache x : ExternalGroup :=
  eg_set_state x (with_cache (eg_state x) (cache_clear (gs_proposals (eg_state x)))).

(** [iter().position(..)]. *)
Fixpoint position {A} (f : A → bool) (l : list A) : option Z :=
  match l with [] => None | a :: l => if f a then Some 0 else Z.succ <$> position f l end.

Definition external_propose x (p : Proposal) (aad : bytes) : Result MlsError MlsMessage * ExternalGroup :=
  let context := gs_context (eg_state x) in
  try (sk, s), x ← st_lift (ok_or (signing_data x) SignerNotFound) x;
  try e, x ← st_lift (e ← from_extension_error (get_as (E:=ExternalSendersExt) (gc_extensions context));
                      ok_or e ExternalProposalsDisabled) x;
  try i, x ← st_lift (ok_or (position (λ a, bool_decide (s = a)) (allowed_senders e)) InvalidExternalSigningIdentity) x;
  let sender := External (u32 i) in
  try a, x ← st_lift (new_signed (eg_csp x) context sender (ProposalContent p) sk WirePublicMessage aad) x;
  try r, x ← st_lift (proposal_ref_from_content (eg_csp x) a) x;
  (Ok {| msg_version := protocol_version context;
         payload := Plain {| pm_content := content a; pm_auth := auth a; membership_tag := None |} |},
   insert_proposal x {| rp_proposal := p; rp_proposal_ref := r; rp_sender := sender |}).

Definition external_psk_proposal x (id : JustPreSharedKeyID) (seed : bytes) : Result MlsError Proposal :=
  n ← crypto (csp_random_bytes (eg_csp x) seed (csp_kdf_extract_size (eg_csp x)));
  Ok (Proposal.Psk {| key_id := id; psk_nonce := n |}).

Definition external_propose_add x (key_package : MlsMessage) (aad : bytes) : Result MlsError MlsMessage * ExternalGroup :=
  try p, x ← st_lift (add_proposal key_package) x; external_propose x p aad.
Definition external_propose_remove x (i : Z) (aad : bytes) : Result MlsError MlsMessage * ExternalGroup :=
  try _, x ← st_lift (TreeKem.get_leaf_node (public_tree (eg_state x)) i) x; external_propose x (Remove i) aad.
Definition external_propose_external_psk x (id aad seed : bytes) : Result MlsError MlsMessage * ExternalGroup :=
  try p, x ← st_lift (external_psk_proposal x (ExternalPsk id) seed) x; external_propose x p aad.
Definition external_propose_resumption_psk x (n : Z) (aad seed : bytes) : Result MlsError MlsMessage * ExternalGroup :=
  try p, x ← st_lift (external_psk_proposal x (ResumptionPskId {| usage := UsageApplication;
                        psk_group_id := group_id (gs_context (eg_state x)); psk_epoch := n |}) seed) x;
  external_propose x p aad.
Definition external_propose_group_context_extensions x (e : ExtensionList.t) (aad : bytes) : Result MlsError MlsMessage * ExternalGroup :=
  external_propose x (GroupContextExtensions e) aad.
Definition external_propose_reinit x (gid : option bytes) (version cipher_suite : Z) (e : ExtensionList.t) (aad seed : bytes)
    : Result MlsError MlsMessage * ExternalGroup :=
  try gid, x ← st_lift (match gid with
                        | Some b => Ok b
                        | None => crypto (csp_random_bytes (eg_csp x) seed (csp_kdf_extract_size (eg_csp x)))
                        end) x;
  external_propose x (ReInit {| reinit_group_id := gid; reinit_version := version; reinit_cipher_suite := cipher_suite;
                                reinit_extensions := e |}) aad.
Definition external_propose_custom x (p : CustomProposal) (aad : bytes) : Result MlsError MlsMessage * ExternalGroup :=
  external_propose x (Custom p) aad.

(** *** Queries *)
Definition external_export_tree x : Result MlsError bytes :=
  from_codec_error (mls_encode_to_vec Node.node_vec_codec (nodes (public_tree (eg_state x)))).
Definition external_roster x : Roster := roster_of (public_tree (eg_state x)).
Definition get_member_with_identity x (s : SigningIdentity) : Result MlsError RosterMember :=
  id ← provider (ip_identity (ex_identity_provider (eg_config x)) s (gc_extensions (gs_context (eg_state x))));
  i ← ok_or (TreeKem.get_leaf_node_with_identity (public_tree (eg_state x)) id) MemberNotFound;
  l ← TreeKem.get_leaf_node (public_tree (eg_state x)) i;
  Ok (member_from_leaf_node l i).

(** *** Snapshots *)
Record ExternalSnapshot := {
  es_version : Z;
  es_state : RawGroupState;
  es_signing_data : option (bytes * SigningIdentity);
}.

Definition external_snapshot_codec : MlsCodec ExternalSnapshot :=
  struct_codec (λ s, (es_version s, (es_state s, es_signing_data s)))
    (λ p, {| es_version := p.1; es_state := p.2.1; es_signing_data := p.2.2 |})
    (tuple_codec u16_codec (tuple_codec raw_group_state_codec (option_codec (tuple_codec byte_vec_codec signing_identity_codec)))).

Definition external_snapshot x : ExternalSnapshot := {|
  es_version := 1; es_state := raw_export (eg_state x); es_signing_data := signing_data x |}.
Definition external_to_bytes (s : ExternalSnapshot) : Result MlsError bytes :=
  from_codec_error (mls_encode_to_vec external_snapshot_codec s).
Definition external_from_bytes (b : bytes) : Result MlsError ExternalSnapshot :=
  '(s, _) ← from_codec_error (mls_decode external_snapshot_codec b); Ok s.

Definition external_from_snapshot (config : ExternalClientConfig) (s : ExternalSnapshot) : Result MlsError ExternalGroup :=
  csp ← ex_cipher_suite_provider config (gc_cipher_suite (raw_context (es_state s)));
  state ← raw_import (ex_identity_provider config) (es_state s);
  Ok {| eg_config := config; eg_csp := csp; signing_data := es_signing_data s; eg_state := state |}.

(** ** external_client.rs *)
Record ExternalClient := { xc_config : ExternalClientConfig; xc_signing_data : option (bytes * SigningIdentity) }.

Definition observe_group (c : ExternalClient) (info : MlsMessage) (tree : option Node.NodeVec) : Result MlsError ExternalGroup :=
  external_join (xc_config c) (xc_signing_data c) info tree.
Definition external_load_group (c : ExternalClient) (s : ExternalSnapshot) : Result MlsError ExternalGroup :=
  external_from_snapshot (xc_config c) s.
Definition external_validate_key_package (c : ExternalClient) (now : Z) (m : MlsMessage) : Result MlsError KeyPackage :=
  k ← (match payload m with KeyPackagePayload k => Ok k | _ => Err UnexpectedMessageType end);
  csp ← ex_cipher_suite_provider (xc_config c) (kp_cipher_suite k);
  validate_key_package csp (ex_identity_provider (xc_config c)) now k (msg_version m);;
  Ok k.

(** ** The laws of a processor *)
#[export] Instance external_laws : MessageProcessorLaws ExternalGroup ExternalReceivedMessage R AlwaysFoundPskStorage.
Proof.
  split; cbn [group_state set_group_state mp_cipher_suite_provider process_ciphertext mp_apply_update_path update_key_schedule external_processor]; try done.
  - intros x i v p. by destruct (public_apply_update_path _ _ _ _ _).
  - intros x i v p. by destruct (public_apply_update_path _ _ _ _ _).
  - intros x i v p y p'. unfold st_lift. destruct (public_apply_update_path _ _ _ _ _) as [q| | |] eqn:E; cbn; try done.
    intros [= _ <-]. unfold public_apply_update_path in E. apply bind_ok in E as (t & _ & [= <-]). cbn. by destruct (ps_context p).
Qed.

(** The first epochs of an observer that bounds the age of application messages.
    The oldest epoch it accepts is the current one less the bound, a subtraction of
    unsigned numbers that wraps around: as long as the epoch is smaller than the
    bound, every application message of the current epoch is refused; from then on
    each is passed through. *)
Theorem jitter_refuses_early_epochs x now m c j :
  payload m = Cipher c → msg_version m = protocol_version (gs_context (eg_state x)) →
  pr_group_id c = group_id (gs_context (eg_state x)) → pr_epoch c = epoch (gs_context (eg_state x)) →
  pr_content_type c = ApplicationType → max_epoch_jitter (eg_config x) = Some j → is_u64 j → is_u64 (pr_epoch c) →
  external_process_incoming_message x now m =
    (if pr_epoch c <? j then Err InvalidEpoch else Ok (ExternalCiphertext ApplicationType), x).
Proof.
  intros Hp Hv Hg He Ht Hj Hj64 He64. unfold external_process_incoming_message, process_incoming_message, process_incoming_message_with_time.
  unfold get_event_from_incoming_message, check_metadata, check_epoch, metadata, is_cipher. rewrite Hp.
  cbn [group_state min_epoch_available process_ciphertext external_processor]. unfold ex_min_epoch_available. rewrite Hv, Z.eqb_refl, Hj, Hg, Ht.
  cbn [negb fmap option_fmap option_map]. rewrite bool_decide_eq_true_2 by done. cbn [negb].
  assert (pr_epoch c <? wrap 64 (epoch (gs_context (eg_state x)) - j) = (pr_epoch c <? j)) as ->.
  { rewrite He in *. unfold is_u64, wrap in *. destruct (Z.ltb_spec (epoch (gs_context (eg_state x))) j).
    - rewrite <- (Z_mod_plus_full _ 1), Z.mod_small by lia. apply Z.ltb_lt. lia.
    - rewrite Z.mod_small by lia. apply Z.ltb_ge. lia. }
  by destruct (pr_epoch c <? j).
Qed.
End external.
