(* ===== verification/Client.v ===== *)
(** * The client (mls-rs/src/client.rs)

    What an application holds: its configuration, its signing identity with the
    secret key, and the protocol version it prefers.  It publishes key packages,
    founds, joins and loads groups, and proposes itself to groups it is not in.
    The storages are shared by all clones of a configuration, so a call that writes
    to one of them returns the client with that storage. *)
From Stdlib Require Import Strings.String.
From S2P Require Import Prelude Codec Wire Types Node TreeIndex Crypto Labels TreeHash Proposal TreeKem GroupContext Validator Kem Framing Epoch KeySchedule Storage StateRepo GroupState Auth Psk Rules MessageProcessor Config Group Commit Join Snapshot.
Import LeafCodecs ProposalCodecs.

Record Client (S K P R : Type) := {
  cl_config : ClientConfig S K P R;
  cl_signing_identity : option (SigningIdentity * Z);
  cl_signer : option bytes;
  cl_version : Z;
}.
Arguments cl_config {S K P R}.
Arguments cl_signing_identity {S K P R}.
Arguments cl_signer {S K P R}.
Arguments cl_version {S K P R}.

Section client.
Context {order : MapOrder} {S K P R : Type}.
Context `{!GroupStateStorage S} `{!KeyPackageStorage K} `{!PreSharedKeyStorage P} `{!MlsRules R}.
Notation ClientConfig := (ClientConfig S K P R).
Notation Client := (Client S K P R).
Notation Group := (Group S K P R).
Implicit Types (c : Client).

Definition client_new (config : ClientConfig) (sk : option bytes) (s : option (SigningIdentity * Z)) (version : Z) : Client := {|
  cl_config := config; cl_signing_identity := s; cl_signer := sk; cl_version := version |}.

Definition client_signer c : Result MlsError bytes := ok_or (cl_signer c) SignerNotFound.
Definition client_signing_identity c : Result MlsError (SigningIdentity * Z) := ok_or (cl_signing_identity c) SignerNotFound.

Definition set_key_package_repo c (k : K) : Client := {|
  cl_config := {|
    supported_extensions := supported_extensions (cl_config c);
    supported_custom_proposals := supported_custom_proposals (cl_config c);
    supported_protocol_versions := supported_protocol_versions (cl_config c); cfg_key_package_repo := k;
    cfg_mls_rules := cfg_mls_rules (cl_config c); secret_store := secret_store (cl_config c);
    group_state_storage := group_state_storage (cl_config c);
    cfg_identity_provider := cfg_identity_provider (cl_config c); crypto_provider := crypto_provider (cl_config c);
    supported_cipher_suites := supported_cipher_suites (cl_config c);
    key_package_extensions := key_package_extensions (cl_config c);
    leaf_node_extensions := leaf_node_extensions (cl_config c); cfg_lifetime := cfg_lifetime (cl_config c) |};
  cl_signing_identity := cl_signing_identity c; cl_signer := cl_signer c; cl_version := cl_version c |}.

(** ** Key packages *)
Definition generate_key_package c (init_seed leaf_seed : bytes) : Result MlsError KeyPackageGeneration * Client :=
  let config := cl_config c in
  try x, c ← st_lift (client_signing_identity c) c;
  let '(s, cipher_suite) := x in
  try csp, c ← st_lift (cipher_suite_provider_for config cipher_suite) c;
  try sk, c ← st_lift (client_signer c) c;
  try k, c ← st_lift (generate {| gen_protocol_version := cl_version c; gen_cipher_suite_provider := csp;
                                  gen_signing_identity := s; signing_key := sk |} init_seed leaf_seed
                        (cfg_lifetime config) (config_capabilities config) (key_package_extensions config)
                        (leaf_node_extensions config)) c;
  try x, c ← st_lift (to_storage k) c;
  let '(id, data) := x in
  let '(r, repo) := kp_insert (cfg_key_package_repo config) id data in
  try _, c ← st_lift (key_package_repo_error r) (set_key_package_repo c repo);
  (Ok k, c).

Definition generate_key_package_message c (init_seed leaf_seed : bytes) : Result MlsError MlsMessage * Client :=
  try k, c ← generate_key_package c init_seed leaf_seed;
  (Ok (key_package_message k), c).

(** ** Groups *)
Definition create_group_with_id c (gid : bytes) (exts : ExtensionList.t) (leaf_seed epoch_seed : bytes) : Result MlsError Group :=
  '(s, cipher_suite) ← client_signing_identity c;
  sk ← client_signer c;
  group_new (cl_config c) (Some gid) cipher_suite (cl_version c) s exts sk leaf_seed [] epoch_seed.

Definition create_group c (exts : ExtensionList.t) (leaf_seed gid_seed epoch_seed : bytes) : Result MlsError Group :=
  '(s, cipher_suite) ← client_signing_identity c;
  sk ← client_signer c;
  group_new (cl_config c) None cipher_suite (cl_version c) s exts sk leaf_seed gid_seed epoch_seed.

Definition join_group c (tree : option Node.NodeVec) (welcome : MlsMessage) : Result MlsError (Group * ExtensionList.t) :=
  sk ← client_signer c;
  join welcome tree (cl_config c) sk.

Definition client_external_commit_builder c : Result MlsError (ExternalCommitBuilder (S:=S) (K:=K) (P:=P) (R:=R)) :=
  sk ← client_signer c;
  '(s, _) ← client_signing_identity c;
  Ok (external_commit_builder sk s (cl_config c)).

Definition commit_external c (rnd : ExternalRandomness) (now : Z) (info : MlsMessage) : Result MlsError (Group * MlsMessage) :=
  b ← client_external_commit_builder c;
  external_build b rnd now info.

Definition client_load_group c (gid : bytes) : Result MlsError Group := load_group (cl_config c) gid.

(** ** [external_add_proposal] *)
Definition external_add_proposal c (info : MlsMessage) (tree : option Node.NodeVec) (aad init_seed leaf_seed : bytes)
    : Result MlsError MlsMessage * Client :=
  let config := cl_config c in
  let version := msg_version info in
  if negb (version_supported config version) && (version =? cl_version c) then (Err (UnsupportedProtocolVersion version), c)
  else
  try i, c ← st_lift (match payload info with GroupInfoPayload i => Ok i | _ => Err UnexpectedMessageType end) c;
  let cipher_suite := gc_cipher_suite (gi_group_context i) in
  try csp, c ← st_lift (cipher_suite_provider_for config cipher_suite) c;
  try _, c ← st_lift (validate_group_info_joiner version i tree (cfg_identity_provider config) csp) c;
  try k, c ← generate_key_package c init_seed leaf_seed;
  let package := kg_key_package k in
  try _, c ← st_lift (guard_or (kp_cipher_suite package =? cipher_suite) (UnsupportedCipherSuite cipher_suite)) c;
  try sk, c ← st_lift (client_signer c) c;
  try a, c ← st_lift (new_signed csp (gi_group_context i) NewMemberProposal (ProposalContent (Add package)) sk
                        WirePublicMessage aad) c;
  (Ok {| msg_version := version;
         payload := Plain {| pm_content := content a; pm_auth := auth a; membership_tag := None |} |}, c).
End client.

(** ** Published key packages can be used *)

(** What a storage of key packages promises. *)
Class KeyPackageStorageLaws (K : Type) `{!KeyPackageStorage K} : Prop := {
  kp_insert_get (k k' : K) id data : kp_insert k id data = (inr tt, k') → kp_get k' id = inr (Some data);
  kp_insert_other (k k' : K) id id' data : kp_insert k id data = (inr tt, k') → id' ≠ id → kp_get k' id' = kp_get k id';
}.

#[export] Instance in_memory_key_package_laws : KeyPackageStorageLaws InMemory.InMemoryKeyPackageStorage.
Proof.
  split; intros k k' id; [intros data [= <-]; cbn; by rewrite lookup_insert_eq|].
  intros id' data [= <-] Hne. cbn. by rewrite lookup_insert_ne.
Qed.

Section packages.
Context {order : MapOrder} {S K P R : Type}.
Context `{!GroupStateStorage S} `{!KeyPackageStorage K} `{!KeyPackageStorageLaws K} `{!PreSharedKeyStorage P} `{!MlsRules R}.
Notation Client := (Client S K P R).
Implicit Types (c : Client).

(** A client that is set up: its values have the widths of their formats, it has a
    key for its identity, which the identity provider accepts at the time [now]
    within the configured lifetime, and it claims the extensions its leaf has. *)
Record set_up c (s : SigningIdentity) (csp : CipherSuiteProvider) (sk : bytes) (now : Z) : Prop := {
  su_identity : ∃ cs, cl_signing_identity c = Some (s, cs) ∧ crypto_provider (cl_config c) cs = Some csp;
  su_signer : cl_signer c = Some sk;
  su_pair : signature_pair csp sk (signature_key s);
  su_kem : ∀ seed x y, csp_kem_generate csp seed = inr (x, y) → csp_kem_public_key_validate csp y = inr tt;
  su_widths : is_u16 (cl_version c) ∧ is_u16 (csp_cipher_suite csp) ∧ signing_identity_wf s;
  su_capabilities : capabilities_wf (config_capabilities (cl_config c));
  su_lifetime : lifetime_wf (cfg_lifetime (cl_config c)) ∧ within_lifetime (cfg_lifetime (cl_config c)) now = true;
  su_extensions : ext_list_wf (key_package_extensions (cl_config c)) ∧ ext_list_wf (leaf_node_extensions (cl_config c));
  su_claimed : ∀ e, e ∈ leaf_node_extensions (cl_config c) → extension_type e ∈ supported_extensions (cl_config c);
  su_valid : ∃ u, ip_validate_member (cfg_identity_provider (cl_config c)) s (Some now) None = inr u;
}.

Lemma generate_inv g s1 s2 l cap ext leaf_ext k :
  generate g s1 s2 l cap ext leaf_ext = Ok k →
  let csp := gen_cipher_suite_provider g in
  let p := kg_key_package k in
  (∃ x, csp_kem_generate csp s1 = inr (x, hpke_init_key p)) ∧
  kp_version p = gen_protocol_version g ∧ kp_cipher_suite p = csp_cipher_suite csp ∧ kp_extensions p = ext ∧
  signing_identity (kp_leaf_node p) = gen_signing_identity g ∧ capabilities (kp_leaf_node p) = cap ∧
  leaf_node_source (kp_leaf_node p) = KeyPackageSource l ∧ leaf_extensions (kp_leaf_node p) = leaf_ext ∧
  sign csp (signing_key g) (ascii "KeyPackageTBS") (key_package_tbs p) = Ok (kp_signature p) ∧
  sign csp (signing_key g) (ascii "LeafNodeTBS")
    (signable_content (kp_leaf_node p) {| ctx_group_id := None; ctx_leaf_index := None |}) = Ok (signature (kp_leaf_node p)).
Proof.
  unfold generate. intros ([x y] & Hx & H)%bind_ok. apply crypto_ok in Hx. apply bind_ok in H as ([leaf z] & Hl & H).
  apply bind_ok in H as (p & Hp & H). apply bind_ok in H as (r & _ & [= <-]). cbv zeta. cbn [kg_key_package].
  unfold leaf_generate in Hl. apply bind_ok in Hl as ([x' y'] & _ & Hl). apply bind_ok in Hl as (leaf' & Hs & [= -> _]).
  unfold Kem.sign_leaf in Hs. apply bind_ok in Hs as (sig & Hsig & [= <-]).
  unfold sign_key_package in Hp. apply bind_ok in Hp as (sig' & Hsig' & [= <-]). cbn in *. split_and!; eauto.
Qed.

Lemma package_valid c s csp sk now k s1 s2 :
  set_up c s csp sk now →
  generate {| gen_protocol_version := cl_version c; gen_cipher_suite_provider := csp; gen_signing_identity := s; signing_key := sk |}
    s1 s2 (cfg_lifetime (cl_config c)) (config_capabilities (cl_config c)) (key_package_extensions (cl_config c))
    (leaf_node_extensions (cl_config c)) = Ok k →
  hpke_init_key (kg_key_package k) ≠ leaf_public_key (kp_leaf_node (kg_key_package k)) →
  key_package_wf (kg_key_package k) ∧
  validate_key_package csp (cfg_identity_provider (cl_config c)) now (kg_key_package k) (cl_version c) = Ok tt.
Proof.
  intros [_ _ Hpair Hkem (Hw1 & Hw2 & Hw3) Hcap [Hl Hnow] [He1 He2] Hclaim [u Hu]] Hg Hne. apply generate_inv in Hg.
  cbv zeta in Hg. cbn [gen_protocol_version gen_cipher_suite_provider gen_signing_identity signing_key] in Hg.
  destruct Hg as ([x Hx] & E1 & E2 & E3 & E4 & E5 & E6 & E7 & S1 & S2). split.
  - unfold key_package_wf, leaf_node_wf. rewrite E1, E2, E3, E4, E5, E6, E7. by split_and!.
  - unfold validate_key_package, check_if_valid, check_context, validate_key_package_properties. rewrite E6, Hnow. cbn [negb].
    cbn [mbind result_bind]. rewrite E4. cbn [generation_time signing_context]. rewrite Hu. cbn [provider mbind result_bind].
    rewrite (sign_verifies csp sk _ _ _ _ Hpair S2). cbn [mbind result_bind validate_required_capabilities group_extension].
    assert (require_all (cap_extensions (capabilities (kp_leaf_node (kg_key_package k)))) ExtensionNotInCapabilities
      (extension_type <$> leaf_extensions (kp_leaf_node (kg_key_package k))) = Ok tt) as ->.
    { apply require_all_ok. intros t (e & -> & He)%list_elem_of_fmap. rewrite E5, E7 in *. by apply Hclaim. }
    cbn [mbind result_bind default fmap list_fmap List.filter require_all]. unfold validate_external_senders_ext_credentials.
    cbn [group_extension mbind result_bind]. rewrite (sign_verifies csp sk _ _ _ _ Hpair S1). cbn [mbind result_bind].
    rewrite E1, E2, !Z.eqb_refl. cbn [negb]. rewrite (Hkem _ _ _ Hx). cbn [mbind result_bind]. by rewrite bool_decide_eq_false_2.
Qed.

Lemma storage_roundtrip k id data :
  key_package_wf (kg_key_package k) → to_storage k = Ok (id, data) → id = reference k ∧ from_storage id data = Ok k.
Proof.
  intros Hwf. unfold to_storage. intros (b & Hb%from_codec_ok & H)%bind_ok. apply bind_ok in H as (e & _ & [= <- <-]).
  split; [done|]. unfold from_storage. cbn [key_package_bytes]. rewrite (decode_nil_rest _ _ _ _ Hwf Hb). by destruct k.
Qed.

Lemma find_skips (repo : K) others x rest :
  Forall (λ o, kp_get repo (new_member o) = inr None) others →
  find_key_package_generation repo (others ++ x :: rest) = find_key_package_generation repo (x :: rest).
Proof. induction 1 as [|o others Ho _ IH]; [done|]. cbn [app find_key_package_generation]. rewrite Ho. exact IH. Qed.

(** C27. A key package that a client publishes can be used.  While the client's lifetime
    lasts, everybody with the same identity provider accepts it as a key package of
    the client's version and cipher suite, when the two keys that were drawn for it
    differ; and when a welcome message names it, after other key packages that the
    client does not have, the client finds it again with its secret keys. *)
Theorem published_package_usable c c' s csp sk now s1 s2 k others x rest :
  set_up c s csp sk now → generate_key_package c s1 s2 = (Ok k, c') →
  hpke_init_key (kg_key_package k) ≠ leaf_public_key (kp_leaf_node (kg_key_package k)) →
  new_member x = reference k →
  Forall (λ o, kp_get (cfg_key_package_repo (cl_config c')) (new_member o) = inr None) others →
  validate_key_package csp (cfg_identity_provider (cl_config c)) now (kg_key_package k) (cl_version c) = Ok tt ∧
  find_key_package_generation (cfg_key_package_repo (cl_config c')) (others ++ x :: rest) = Ok (x, k).
Proof.
  intros Hc H Hne Hx Ho. destruct (su_identity _ _ _ _ _ Hc) as (cs & Hid & Hcsp). pose proof (su_signer _ _ _ _ _ Hc) as Hsk.
  unfold generate_key_package, client_signing_identity, client_signer, cipher_suite_provider_for, st_lift in H.
  apply st_bind_ok in H as ([s' cs'] & c1 & [= Hs' <-] & H). rewrite Hid in Hs'. injection Hs' as <- <-.
  apply st_bind_ok in H as (csp' & c1 & [= Hcsp' <-] & H). rewrite Hcsp in Hcsp'. injection Hcsp' as <-.
  apply st_bind_ok in H as (sk' & c1 & [= Hsk' <-] & H). rewrite Hsk in Hsk'. injection Hsk' as <-.
  apply st_bind_ok in H as (k' & c1 & [= Hk <-] & H).
  apply st_bind_ok in H as ([id data] & c1 & [= Ht <-] & H). destruct (kp_insert _ _ _) as [r repo] eqn:Ei.
  apply st_bind_ok in H as ([] & c2 & [= Hr <-] & [= <- <-]).
  destruct (package_valid _ _ _ _ _ _ _ _ Hc Hk Hne) as [Hwf Hv]. split; [exact Hv|].
  destruct (storage_roundtrip _ _ _ Hwf Ht) as [-> Hf]. destruct r as [e|[]]; [done|].
  rewrite find_skips by done. cbn [find_key_package_generation]. cbn [set_key_package_repo cl_config cfg_key_package_repo].
  rewrite Hx, (kp_insert_get _ _ _ _ Ei). cbn [key_package_repo_error mbind result_bind]. rewrite Hf. done.
Qed.
End packages.
