(* ===== verification/Sqlite.v ===== *)
(** * The SQLite storage (mls-rs-provider-sqlite)

    The storages over a database.  The tables are maps from their primary keys; each
    SQL statement of the source is a function on the database with the documented
    behaviour of the statement: constraints, cascades, the conversion of parameters to
    64-bit signed integers, and the rollback of a transaction that is dropped.  The
    engine's own failures (disk, locks) are outside the model.

    The theorems: the group state storage keeps the contract [GroupStateStorageLaws]
    that the repository of past epochs is proved against, and the key package storage
    that of [KeyPackageStorageLaws]; a write is atomic and keeps exactly the latest
    epochs; the search by prefix is exact for prefixes without an escape character and
    up to the case of letters, and wrong otherwise. *)
From stdpp Require Import sorting.
From S2P Require Import Prelude Codec Types Crypto SecretTree Epoch Storage StateRepo Config Client.

Module Sqlite.
(** ** The database: lib.rs, [create_tables_v1] *)

(** Text is a sequence of code points, none of them NUL. *)
Notation text := (list Z).

Record Database := {
  mls_group : gmap bytes bytes;
  epoch : gmap bytes (gmap Z bytes);
  key_package : gmap bytes (Z * bytes);
  psk : gmap bytes bytes;
  kvs : gmap text bytes;
}.

Definition create_tables_v1 : Database := {| mls_group := ∅; epoch := ∅; key_package := ∅; psk := ∅; kvs := ∅ |}.

(** Whether foreign keys are enforced is a setting of the connection, whose default is
    one of the build of SQLite. *)
Record Connection := { db : Database; foreign_keys : bool }.

(** What a statement fails with. *)
Inductive SqlError := ConstraintViolation | ToSqlConversionFailure.

Inductive SqLiteDataStorageError :=
  | SqlEngineError (e : SqlError)
  | DataConversionError (e : Codec.Error).

(** A [u64] as a parameter: [i64::try_from]. *)
Definition to_sql (z : Z) : Result SqlError Z := if (0 <=? z) && (z <? 2 ^ 63) then Ok z else Err ToSqlConversionFailure.

(** ** Statements on groups and epochs *)
Definition set_groups (d : Database) (m : gmap bytes bytes) : Database :=
  {| mls_group := m; epoch := epoch d; key_package := key_package d; psk := psk d; kvs := kvs d |}.
Definition set_epochs (d : Database) (m : gmap bytes (gmap Z bytes)) : Database :=
  {| mls_group := mls_group d; epoch := m; key_package := key_package d; psk := psk d; kvs := kvs d |}.

Definition rows (d : Database) (g : bytes) : gmap Z bytes := default ∅ (epoch d !! g).

(** INSERT INTO mls_group ... ON CONFLICT(group_id) DO UPDATE. *)
Definition upsert_group (d : Database) (g snapshot : bytes) : Database := set_groups d (<[g := snapshot]> (mls_group d)).

(** INSERT INTO epoch (group_id, epoch_id, epoch_data). *)
Definition insert_epoch (fk : bool) (g : bytes) (d : Database) (e : EpochRecord) : Result SqlError Database :=
  n ← to_sql (record_id e);
  if fk && bool_decide (mls_group d !! g = None) then Err ConstraintViolation
  else if bool_decide (is_Some (rows d g !! n)) then Err ConstraintViolation
  else Ok (set_epochs d (<[g := <[n := record_data e]> (rows d g)]> (epoch d))).

(** UPDATE epoch SET epoch_data = ? WHERE group_id = ? AND epoch_id = ?. *)
Definition update_epoch (g : bytes) (d : Database) (e : EpochRecord) : Result SqlError Database :=
  n ← to_sql (record_id e);
  Ok (set_epochs d (<[g := alter (λ _, record_data e) n (rows d g)]> (epoch d))).

(** DELETE FROM epoch WHERE group_id = ? AND epoch_id <= ?. *)
Definition delete_epochs (g : bytes) (d : Database) (delete_under : Z) : Result SqlError Database :=
  n ← to_sql delete_under;
  Ok (set_epochs d (<[g := filter (λ p, ¬ p.1 ≤ n) (rows d g)]> (epoch d))).

(** DELETE FROM mls_group WHERE group_id = ?, with its cascade. *)
Definition delete_group_row (fk : bool) (d : Database) (g : bytes) : Database :=
  let d := set_groups d (delete g (mls_group d)) in
  if fk then set_epochs d (delete g (epoch d)) else d.

(** ** Group states: group_state.rs *)
Definition DEFAULT_EPOCH_RETENTION_LIMIT : Z := 3.

Record SqLiteGroupStateStorage := { connection : Connection; max_epoch_retention : Z }.

Definition set_db (s : SqLiteGroupStateStorage) (d : Database) : SqLiteGroupStateStorage :=
  {| connection := {| db := d; foreign_keys := foreign_keys (connection s) |}; max_epoch_retention := max_epoch_retention s |}.

Definition group_state_storage_new (c : Connection) : SqLiteGroupStateStorage :=
  {| connection := c; max_epoch_retention := DEFAULT_EPOCH_RETENTION_LIMIT |}.

Definition with_max_epoch_retention (s : SqLiteGroupStateStorage) (n : Z) : SqLiteGroupStateStorage :=
  {| connection := connection s; max_epoch_retention := n |}.

Definition group_ids (s : SqLiteGroupStateStorage) : list bytes := (map_to_list (mls_group (db (connection s)))).*1.

Definition delete_group (s : SqLiteGroupStateStorage) (g : bytes) : SqLiteGroupStateStorage :=
  set_db s (delete_group_row (foreign_keys (connection s)) (db (connection s)) g).

Definition get_snapshot_data (s : SqLiteGroupStateStorage) (g : bytes) : option bytes := mls_group (db (connection s)) !! g.

Definition get_epoch_data (s : SqLiteGroupStateStorage) (g : bytes) (n : Z) : Result SqlError (option bytes) :=
  n ← to_sql n; Ok (rows (db (connection s)) g !! n).

(** SELECT MAX(epoch_id): NULL when there is no row. *)
Definition max_id (m : gmap Z bytes) : option Z :=
  map_fold (λ n _ acc, Some (match acc with Some k => Z.max n k | None => n end)) None m.

Definition max_epoch_id (s : SqLiteGroupStateStorage) (g : bytes) : option Z := max_id (rows (db (connection s)) g).

(** The statements of the transaction. *)
Definition write_transaction (s : SqLiteGroupStateStorage) (g snapshot : bytes) (inserts updates : list EpochRecord)
    : Result SqlError Database :=
  let d := upsert_group (db (connection s)) g snapshot in
  d ← foldM (insert_epoch (foreign_keys (connection s)) g) d inserts;
  d ← foldM (update_epoch g) d updates;
  match last (record_id <$> inserts) with
  | Some max_epoch_id =>
      if max_epoch_retention s <=? max_epoch_id then delete_epochs g d (max_epoch_id - max_epoch_retention s) else Ok d
  | None => Ok d
  end.

(** A transaction that is dropped before [commit] is rolled back. *)
Definition update_group_state (s : SqLiteGroupStateStorage) (g snapshot : bytes) (inserts updates : list EpochRecord)
    : Result SqLiteDataStorageError unit * SqLiteGroupStateStorage :=
  match map_err SqlEngineError (write_transaction s g snapshot inserts updates) with
  | Ok d => (Ok tt, set_db s d)
  | Err e => (Err e, s)
  | Panic => (Panic, s)
  | Diverge => (Diverge, s)
  end.

(** ** Key packages: key_package.rs *)
Definition stored_package_codec : MlsCodec KeyPackageData :=
  struct_codec (λ k, (key_package_bytes k, (init_key k, (leaf_node_key k, expiration k))))
    (λ p, {| key_package_bytes := p.1; init_key := p.2.1; leaf_node_key := p.2.2.1; expiration := p.2.2.2 |})
    (tuple_codec byte_vec_codec (tuple_codec byte_vec_codec (tuple_codec byte_vec_codec u64_codec))).

Record SqLiteKeyPackageStorage := { kp_db : Database }.

Definition set_packages (s : SqLiteKeyPackageStorage) (m : gmap bytes (Z * bytes)) : SqLiteKeyPackageStorage :=
  let d := kp_db s in
  {| kp_db := {| mls_group := mls_group d; epoch := epoch d; key_package := m; psk := psk d; kvs := kvs d |} |}.

(** The parameters are converted before the statement runs, the encoding first. *)
Definition insert_package (s : SqLiteKeyPackageStorage) (id : bytes) (k : KeyPackageData)
    : Result SqLiteDataStorageError unit * SqLiteKeyPackageStorage :=
  try data, s ← st_lift (map_err DataConversionError (mls_encode_to_vec stored_package_codec k)) s;
  try n, s ← st_lift (map_err SqlEngineError (to_sql (expiration k))) s;
  if bool_decide (is_Some (key_package (kp_db s) !! id)) then (Err (SqlEngineError ConstraintViolation), s)
  else (Ok tt, set_packages s (<[id := (n, data)]> (key_package (kp_db s)))).

(** The stored data is decoded with [unwrap]. *)
Definition get_package (s : SqLiteKeyPackageStorage) (id : bytes) : Result SqLiteDataStorageError (option KeyPackageData) :=
  match key_package (kp_db s) !! id with
  | Some (_, data) =>
      match mls_decode stored_package_codec data with
      | Ok (k, _) => Ok (Some k)
      | _ => Panic
      end
  | None => Ok None
  end.

Definition delete_package (s : SqLiteKeyPackageStorage) (id : bytes) : SqLiteKeyPackageStorage :=
  set_packages s (delete id (key_package (kp_db s))).

(** DELETE FROM key_package WHERE expiration < ?. *)
Definition delete_expired_by_time (s : SqLiteKeyPackageStorage) (time : Z)
    : Result SqLiteDataStorageError unit * SqLiteKeyPackageStorage :=
  try t, s ← st_lift (map_err SqlEngineError (to_sql time)) s;
  (Ok tt, set_packages s (filter (λ p, ¬ p.2.1 < t) (key_package (kp_db s)))).

Definition delete_expired (s : SqLiteKeyPackageStorage) (now : Z) := delete_expired_by_time s now.

(** ** Pre-shared keys: psk.rs *)
Record SqLitePreSharedKeyStorage := { psk_db : Database }.

Definition set_psks (s : SqLitePreSharedKeyStorage) (m : gmap bytes bytes) : SqLitePreSharedKeyStorage :=
  let d := psk_db s in
  {| psk_db := {| mls_group := mls_group d; epoch := epoch d; key_package := key_package d; psk := m; kvs := kvs d |} |}.

Definition insert_psk (s : SqLitePreSharedKeyStorage) (id value : bytes) : SqLitePreSharedKeyStorage := set_psks s (<[id := value]> (psk (psk_db s))).
Definition get_psk (s : SqLitePreSharedKeyStorage) (id : bytes) : option bytes := psk (psk_db s) !! id.
Definition delete_psk (s : SqLitePreSharedKeyStorage) (id : bytes) : SqLitePreSharedKeyStorage := set_psks s (delete id (psk (psk_db s))).

(** ** Application data: application.rs *)
Record SqLiteApplicationStorage := { app_db : Database }.

Definition set_kvs (s : SqLiteApplicationStorage) (m : gmap text bytes) : SqLiteApplicationStorage :=
  let d := app_db s in
  {| app_db := {| mls_group := mls_group d; epoch := epoch d; key_package := key_package d; psk := psk d; kvs := m |} |}.

Definition app_insert (s : SqLiteApplicationStorage) (key : text) (value : bytes) : SqLiteApplicationStorage :=
  set_kvs s (<[key := value]> (kvs (app_db s))).
Definition transact_insert (s : SqLiteApplicationStorage) (items : list (text * bytes)) : SqLiteApplicationStorage :=
  foldl (λ s i, app_insert s i.1 i.2) s items.
Definition app_get (s : SqLiteApplicationStorage) (key : text) : option bytes := kvs (app_db s) !! key.
Definition app_delete (s : SqLiteApplicationStorage) (key : text) : SqLiteApplicationStorage :=
  set_kvs s (delete key (kvs (app_db s))).

Definition UNDERSCORE : Z := 95.
Definition PERCENT : Z := 37.
Definition DOLLAR : Z := 36.

(** [str::replace] of a character by two. *)
Definition replace_char (c : Z) (by_ : text) (s : text) : text := concat ((λ x, if x =? c then by_ else [x]) <$> s).

Definition sanitize (s : text) : text :=
  replace_char PERCENT [DOLLAR; PERCENT] (replace_char UNDERSCORE [DOLLAR; UNDERSCORE] s).

(** [LIKE ? ESCAPE '$']: [%] stands for any text, [_] for any character, the
    character after the escape for itself; letters of ASCII match in either case. *)
Definition fold_case (c : Z) : Z := if (65 <=? c) && (c <=? 90) then c + 32 else c.

Fixpoint like (pattern : text) : text → bool :=
  match pattern with
  | [] => λ s, match s with [] => true | _ => false end
  | c :: pattern =>
      if c =? PERCENT then
        fix any (s : text) : bool := like pattern s || match s with [] => false | _ :: s => any s end
      else if c =? DOLLAR then
        λ s, match pattern, s with
             | c :: pattern, x :: s => (fold_case c =? fold_case x) && like pattern s
             | _, _ => false
             end
      else
        λ s, match s with
             | [] => false
             | x :: s => ((c =? UNDERSCORE) || (fold_case c =? fold_case x)) && like pattern s
             end
  end.

Definition prefix_pattern (key_prefix : text) : text := sanitize key_prefix ++ [PERCENT].

Definition get_by_prefix (s : SqLiteApplicationStorage) (key_prefix : text) : list (text * bytes) :=
  filter (λ i, like (prefix_pattern key_prefix) i.1 = true) (map_to_list (kvs (app_db s))).

Definition delete_by_prefix (s : SqLiteApplicationStorage) (key_prefix : text) : SqLiteApplicationStorage :=
  set_kvs s (filter (λ i, ¬ like (prefix_pattern key_prefix) i.1 = true) (kvs (app_db s))).

(** ** The epochs of a group in order *)
Definition id_le (a b : EpochRecord) : Prop := record_id a ≤ record_id b.
Definition id_lt (a b : EpochRecord) : Prop := record_id a < record_id b.

#[global] Instance id_le_dec : RelDecision id_le := λ a b, Z.le_dec (record_id a) (record_id b).
#[global] Instance id_le_trans : Transitive id_le.
Proof. unfold id_le. intros a b c. lia. Qed.
#[global] Instance id_le_total : Total id_le.
Proof. unfold id_le. intros a b. lia. Qed.
#[global] Instance id_lt_antisymm : AntiSymm (=) id_lt.
Proof. unfold id_lt. intros a b. lia. Qed.

Definition row_record (p : Z * bytes) : EpochRecord := {| record_id := p.1; record_data := p.2 |}.
Definition sorted_rows (m : gmap Z bytes) : list EpochRecord := merge_sort id_le (row_record <$> map_to_list m).

(** A list lists the rows of a table in the order of their numbers. *)
Record lists (m : gmap Z bytes) (l : list EpochRecord) : Prop := {
  lists_sorted : StronglySorted id_lt l;
  lists_rows a : a ∈ l ↔ m !! record_id a = Some (record_data a);
}.

Lemma sorted_strict l : StronglySorted id_le l → NoDup (record_id <$> l) → StronglySorted id_lt l.
Proof.
  induction 1 as [|a l Hs IH Ha]; cbn; [constructor|]. intros [Hn Hnd]%NoDup_cons. constructor; [auto|].
  apply Forall_forall. intros b Hb. rewrite Forall_forall in Ha. pose proof (Ha b Hb) as Hle. unfold id_le, id_lt in *.
  enough (record_id a ≠ record_id b) by lia. intros E. apply Hn. rewrite E. by apply list_elem_of_fmap_2.
Qed.

Lemma strict_NoDup l : StronglySorted id_lt l → NoDup l.
Proof.
  induction 1 as [|a l _ IH Ha]; constructor; [|done]. intros Hin. rewrite Forall_forall in Ha. pose proof (Ha a Hin). unfold id_lt in *. lia.
Qed.

Lemma lists_sorted_rows m : lists m (sorted_rows m).
Proof.
  assert (record_id <$> (row_record <$> map_to_list m) = (map_to_list m).*1) as Eids
    by (by rewrite <- list_fmap_compose).
  split.
  - apply sorted_strict; [apply StronglySorted_merge_sort; apply _|]. unfold sorted_rows. rewrite merge_sort_Permutation, Eids.
    apply NoDup_fst_map_to_list.
  - intros a. unfold sorted_rows. rewrite merge_sort_Permutation, list_elem_of_fmap. split.
    + intros ([n d] & -> & H). by apply elem_of_map_to_list in H.
    + intros H. exists (record_id a, record_data a). split; [by destruct a|by apply elem_of_map_to_list].
Qed.

Lemma lists_unique m l : lists m l → sorted_rows m = l.
Proof.
  intros [Hs Hr]. destruct (lists_sorted_rows m) as [Hs' Hr']. apply (StronglySorted_unique id_lt); [done..|].
  apply NoDup_Permutation; [by apply strict_NoDup..|]. intros a. by rewrite Hr, Hr'.
Qed.

Lemma consecutive_sorted l : consecutive record_id l → StronglySorted id_lt l.
Proof.
  induction l as [|a l IH]; intros Hc; constructor.
  - apply IH. by apply (consecutive_app_r _ [a]).
  - apply Forall_forall. intros b [j Hj]%list_elem_of_lookup. pose proof (Hc 0%nat (S j) a b eq_refl Hj). unfold id_lt. lia.
Qed.

Lemma sorted_find_unique l a : StronglySorted id_lt l → a ∈ l → find_id record_id (record_id a) l = Some a.
Proof.
  intros Hs [i Hi]%list_elem_of_lookup. apply (find_id_unique_nodup _ _ _ i); [|done|done].
  clear Hi. induction Hs as [|b l _ IH Hb]; cbn; constructor; [|done]. intros (c & Hc & Hin)%list_elem_of_fmap.
  rewrite Forall_forall in Hb. pose proof (Hb _ Hin). unfold id_lt in *. lia.
Qed.

(** *** What the statements do to the list *)
Lemma lists_find m l n : lists m l → m !! n = record_data <$> find_id record_id n l.
Proof.
  intros [Hs Hr]. destruct (m !! n) as [d|] eqn:E.
  - pose proof (sorted_find_unique l {| record_id := n; record_data := d |} Hs) as Hf. cbn in Hf. rewrite Hf; [done|]. by apply Hr.
  - destruct (find_id record_id n l) as [a|] eqn:Ef; [|done]. apply find_id_Some in Ef as (<- & i & Hi%list_elem_of_lookup_2).
    apply Hr in Hi. congruence.
Qed.

Lemma lists_snoc m l e :
  lists m l → Forall (λ a, id_lt a e) l → lists (<[record_id e := record_data e]> m) (l ++ [e]).
Proof.
  intros [Hs Hr] Hlt. split.
  - clear Hr. induction Hs as [|a l Hs IH Ha]; cbn; [repeat constructor|]. apply Forall_cons in Hlt as [Ha' Hlt]. constructor; [auto|].
    apply Forall_app. auto.
  - intros a. rewrite elem_of_app, list_elem_of_singleton. rewrite Forall_forall in Hlt. destruct (decide (record_id a = record_id e)) as [E|E].
    + rewrite E, lookup_insert_eq. split.
      * intros [H| ->]; [|done]. apply Hlt in H. unfold id_lt in H. lia.
      * intros [= H]. right. destruct a, e; cbn in *; congruence.
    + rewrite lookup_insert_ne by done. rewrite <- Hr. naive_solver.
Qed.

Lemma sorted_ids l k : record_id <$> l = record_id <$> k → StronglySorted id_lt l → StronglySorted id_lt k.
Proof.
  revert k. induction l as [|a l IH]; intros [|b k] E Hs; try discriminate E; [constructor|]. injection E as E1 E2. change (record_id <$> l = record_id <$> k) in E2. apply StronglySorted_inv in Hs as [Hs Ha].
  constructor; [by apply IH|]. rewrite Forall_forall in *. intros c Hc. assert (record_id c ∈ record_id <$> l) as Hin
    by (rewrite E2; by apply list_elem_of_fmap_2). apply list_elem_of_fmap in Hin as (x & Hx & Hin). apply Ha in Hin.
  unfold id_lt in *. lia.
Qed.

Lemma lists_update m l e :
  lists m l → lists (alter (λ _, record_data e) (record_id e) m) (update_id record_id l e).
Proof.
  intros [Hs Hr]. split; [by apply (sorted_ids l); [rewrite update_id_ids|]|].
  intros a. unfold update_id. rewrite list_elem_of_fmap. destruct (decide (record_id a = record_id e)) as [E|E].
  - rewrite E, lookup_alter_eq. split.
    + intros (b & -> & Hb). case_decide as Hd; [|by rewrite <- E in Hd]. apply Hr in Hb. by rewrite <- Hd, Hb.
    + intros (d & Hd & Ha)%fmap_Some. exists {| record_id := record_id e; record_data := d |}. cbn. rewrite decide_True by done.
      split; [destruct a, e; cbn in *; congruence|]. by apply Hr.
  - rewrite lookup_alter_ne by done. rewrite <- Hr. split.
    + intros (b & -> & Hb). by case_decide.
    + intros Ha. exists a. by rewrite decide_False.
Qed.

Lemma lists_filter m l n :
  lists m l → lists (filter (λ p, ¬ p.1 ≤ n) m) (filter (λ a, ¬ record_id a ≤ n) l).
Proof.
  intros [Hs Hr]. split.
  - clear Hr. induction Hs as [|a l Hs IH Ha]; [constructor|]. rewrite filter_cons. case_decide; [|done]. constructor; [done|].
    rewrite Forall_forall in *. intros b [_ Hb]%list_elem_of_filter. auto.
  - intros a. rewrite list_elem_of_filter, map_lookup_filter_Some, Hr. cbn. tauto.
Qed.

Lemma max_id_spec m :
  match max_id m with
  | Some k => is_Some (m !! k) ∧ ∀ n, is_Some (m !! n) → n ≤ k
  | None => m = ∅
  end.
Proof.
  unfold max_id. apply (map_fold_weak_ind (λ r m, match r with
    | Some k => is_Some (m !! k) ∧ ∀ n, is_Some (m !! n) → n ≤ k | None => m = ∅ end)); [done|].
  intros i d m' r Hi Hr. destruct r as [k|].
  - destruct Hr as [Hk Hmax]. split.
    + destruct (Z.max_spec i k) as [[_ ->]|[_ ->]]; [|by rewrite lookup_insert_eq]. by rewrite lookup_insert_is_Some'; right.
    + intros n [<-|Hn]%lookup_insert_is_Some'; [|apply Hmax in Hn]; lia.
  - subst. split; [by rewrite lookup_insert_eq|]. intros n [<-|[? Hn]]%lookup_insert_is_Some'; [lia|by rewrite lookup_empty in Hn].
Qed.

Lemma sorted_last l a b : StronglySorted id_lt l → last l = Some a → b ∈ l → record_id b ≤ record_id a.
Proof.
  induction 1 as [|c l Hs IH Hc]; [done|]. intros Hl [->|Hb]%elem_of_cons.
  - destruct l as [|d l]; [by injection Hl as ->|]. apply last_Some_elem_of in Hl. rewrite Forall_forall in Hc.
    apply elem_of_cons in Hl as [->|Hl]; [done|]. apply Hc in Hl. unfold id_lt in Hl. lia.
  - destruct l as [|d l]; [by apply elem_of_nil in Hb|]. by apply IH.
Qed.

Lemma lists_max m l : lists m l → max_id m = record_id <$> last l.
Proof.
  intros [Hs Hr]. pose proof (max_id_spec m) as Hm. destruct (last l) as [a|] eqn:El; cbn.
  - pose proof El as Ha%last_Some_elem_of. apply Hr in Ha. destruct (max_id m) as [k|]; [|by subst; rewrite lookup_empty in Ha].
    destruct Hm as [[d Hd] Hmax]. f_equal. pose proof (Hmax (record_id a) ltac:(eauto)) as H1.
    pose proof (sorted_last l a {| record_id := k; record_data := d |} Hs El) as H2. cbn in H2. rewrite Hr in H2. specialize (H2 Hd). lia.
  - apply last_None in El as ->. destruct (max_id m) as [k|]; [|done]. destruct Hm as [[d Hd] _].
    specialize (Hr {| record_id := k; record_data := d |}). cbn in Hr. apply Hr, elem_of_nil in Hd. done.
Qed.

Lemma filter_keeps_all {A} (P : A → Prop) `{!∀ x, Decision (P x)} l : Forall P l → filter P l = l.
Proof. induction 1 as [|a l Ha _ IH]; [done|]. by rewrite filter_cons_True, IH. Qed.

(** Deleting by number keeps as many of the latest as trimming by length. *)
Lemma filter_trim l mx r :
  consecutive record_id l → last (record_id <$> l) = Some mx →
  filter (λ a, ¬ record_id a ≤ mx - r) l = InMemory.trim l r.
Proof.
  induction l as [|a l IH]; [done|]. intros Hc Hl.
  assert (consecutive record_id l) as Hc' by (by apply (consecutive_app_r _ [a])).
  assert (record_id a = mx - len l) as Ha.
  { rewrite fmap_last in Hl. apply fmap_Some in Hl as (b & Hl & ->). rewrite last_lookup in Hl.
    change (pred (length (a :: l))) with (length l) in Hl. pose proof (Hc 0%nat _ a b eq_refl Hl). unfold len. lia. }
  cbn [InMemory.trim]. rewrite filter_cons, Z.gtb_ltb. destruct (Z.ltb_spec r (len (a :: l))) as [Hlt|Hge]; unfold len in *; cbn [length] in *.
  - rewrite decide_False by lia. destruct l as [|b l]; [done|]. apply IH; [done|]. exact Hl.
  - rewrite decide_True by lia. f_equal. apply filter_keeps_all, Forall_forall. intros b [j Hj]%list_elem_of_lookup. pose proof (Hc 0%nat (S j) a b eq_refl Hj). lia.
Qed.

(** ** A write *)
Lemma to_sql_ok z n : to_sql z = Ok n ↔ n = z ∧ 0 ≤ z < 2 ^ 63.
Proof. unfold to_sql. destruct (Z.leb_spec 0 z), (Z.ltb_spec z (2 ^ 63)); cbn [andb]; split; try intros [= <-]; try done; try lia. intros [-> _]. done. Qed.

(** Statements on one group's epochs leave the other tables and groups alone. *)
Definition only_epochs_of (g : bytes) (d d' : Database) : Prop :=
  mls_group d' = mls_group d ∧ (∀ g', g' ≠ g → rows d' g' = rows d g') ∧
  key_package d' = key_package d ∧ psk d' = psk d ∧ kvs d' = kvs d.

#[global] Instance only_epochs_of_preorder g : PreOrder (only_epochs_of g).
Proof.
  split; [by intros d|]. intros d d' d'' (?&Ha&?&?&?) (?&Hb&?&?&?). split_and!; try congruence.
  intros g' Hne. by rewrite Hb, Ha.
Qed.

Lemma set_epochs_rows d g m : rows (set_epochs d (<[g := m]> (epoch d))) g = m.
Proof. unfold rows. cbn. by rewrite lookup_insert_eq. Qed.

Lemma set_epochs_only d g m : only_epochs_of g d (set_epochs d (<[g := m]> (epoch d))).
Proof. split_and!; try done. intros g' Hne. unfold rows. cbn. by rewrite lookup_insert_ne. Qed.

Lemma insert_epoch_spec fk g d e l :
  (fk = true → is_Some (mls_group d !! g)) → lists (rows d g) l → Forall (λ a, id_lt a e) l → 0 ≤ record_id e < 2 ^ 63 →
  ∃ d', insert_epoch fk g d e = Ok d' ∧ lists (rows d' g) (l ++ [e]) ∧ only_epochs_of g d d'.
Proof.
  intros Hfk Hl Hlt Hid. unfold insert_epoch. rewrite (proj2 (to_sql_ok _ _) (conj eq_refl Hid)). cbn.
  rewrite (bool_decide_eq_false_2 (is_Some (rows d g !! record_id e))).
  - assert (fk && bool_decide (mls_group d !! g = None) = false) as ->.
    { destruct fk; [|done]. apply bool_decide_eq_false_2. destruct (Hfk eq_refl) as [? ->]. done. }
    eexists. split; [done|]. rewrite set_epochs_rows. split; [by apply lists_snoc|apply set_epochs_only].
  - intros [dt H]. apply (lists_rows _ _ Hl {| record_id := record_id e; record_data := dt |}) in H.
    rewrite Forall_forall in Hlt. apply Hlt in H. unfold id_lt in H. cbn in H. lia.
Qed.

Lemma inserts_listed fk g es d l :
  (fk = true → is_Some (mls_group d !! g)) → lists (rows d g) l → consecutive record_id (l ++ es) →
  Forall (λ e, 0 ≤ record_id e < 2 ^ 63) es →
  ∃ d', foldM (insert_epoch fk g) d es = Ok d' ∧ lists (rows d' g) (l ++ es) ∧ only_epochs_of g d d'.
Proof.
  revert d l. induction es as [|e es IH]; intros d l Hfk Hl Hc Hids; cbn [foldM].
  - exists d. by rewrite app_nil_r.
  - apply Forall_cons in Hids as [He Hids]. destruct (insert_epoch_spec fk g d e l) as (d1 & -> & Hl1 & H1); [done..| |done|].
    { apply consecutive_sorted in Hc. apply Forall_forall. intros a Ha. clear -Ha Hc. induction l as [|b l IHl]; [by apply elem_of_nil in Ha|].
      apply StronglySorted_inv in Hc as [Hc Hb]. apply elem_of_cons in Ha as [->|Ha]; [|by apply IHl].
      rewrite Forall_forall in Hb. apply Hb, elem_of_app. right. left. }
    cbn. destruct (IH d1 (l ++ [e])) as (d2 & -> & Hl2 & H2); [|done|by rewrite <- app_assoc|done|].
    + by rewrite (proj1 H1).
    + exists d2. rewrite <- app_assoc in Hl2. split_and!; [done|done|]. by transitivity d1.
Qed.

Lemma updates_listed g es d l :
  lists (rows d g) l → Forall (λ e, 0 ≤ record_id e < 2 ^ 63) es →
  ∃ d', foldM (update_epoch g) d es = Ok d' ∧ lists (rows d' g) (foldl (update_id record_id) l es) ∧ only_epochs_of g d d'.
Proof.
  revert d l. induction es as [|e es IH]; intros d l Hl Hids; cbn [foldM foldl]; [by exists d|].
  apply Forall_cons in Hids as [He Hids].
  assert (update_epoch g d e = Ok (set_epochs d (<[g := alter (λ _, record_data e) (record_id e) (rows d g)]> (epoch d)))) as ->
    by (unfold update_epoch; by rewrite (proj2 (to_sql_ok _ _) (conj eq_refl He))).
  cbn. destruct (IH (set_epochs d (<[g := alter (λ _, record_data e) (record_id e) (rows d g)]> (epoch d))) (update_id record_id l e))
    as (d2 & -> & Hl2 & H2); [|done|].
  - rewrite set_epochs_rows. by apply lists_update.
  - exists d2. split_and!; [done|done|]. etransitivity; [apply set_epochs_only|done].
Qed.

(** A conversion that fails is the only reason not to accept records of a group that exists. *)
Lemma statements_convert {A} (f : Database → A → Result SqlError Database) (id : A → Z) d l d' :
  (∀ d a d', f d a = Ok d' → 0 ≤ id a < 2 ^ 63) → foldM f d l = Ok d' → Forall (λ a, 0 ≤ id a < 2 ^ 63) l.
Proof.
  intros Hf. revert d. induction l as [|a l IH]; intros d H; cbn [foldM] in H; constructor.
  - apply bind_ok in H as (d1 & H & _). by eapply Hf.
  - apply bind_ok in H as (d1 & _ & H). by eapply IH.
Qed.

Lemma delete_epochs_ok g d n d' l :
  delete_epochs g d n = Ok d' → lists (rows d g) l →
  lists (rows d' g) (filter (λ a, ¬ record_id a ≤ n) l) ∧ only_epochs_of g d d'.
Proof.
  intros (n' & [-> _]%to_sql_ok & [= <-])%bind_ok Hl. rewrite set_epochs_rows. split; [by apply lists_filter|apply set_epochs_only].
Qed.

Definition stored_rows (s : SqLiteGroupStateStorage) (g : bytes) : list EpochRecord := sorted_rows (rows (db (connection s)) g).

(** What a write has done before it deletes old epochs. *)
Lemma write_transaction_spec s g snapshot ins ups :
  consecutive record_id (stored_rows s g ++ ins) → Forall (λ e, 0 ≤ record_id e < 2 ^ 63) (ins ++ ups) →
  ∃ d, lists (rows d g) (foldl (update_id record_id) (stored_rows s g ++ ins) ups) ∧
    only_epochs_of g (upsert_group (db (connection s)) g snapshot) d ∧
    write_transaction s g snapshot ins ups =
      match last (record_id <$> ins) with
      | Some mx => if max_epoch_retention s <=? mx then delete_epochs g d (mx - max_epoch_retention s) else Ok d
      | None => Ok d
      end.
Proof.
  intros Hc [Hi Hu]%Forall_app. unfold write_transaction. cbv zeta.
  destruct (inserts_listed (foreign_keys (connection s)) g ins (upsert_group (db (connection s)) g snapshot) (stored_rows s g))
    as (d1 & -> & Hl1 & H1); [|apply lists_sorted_rows|done|done|].
  { intros _. cbn. by rewrite lookup_insert_eq. }
  destruct (updates_listed g ups d1 _ Hl1 Hu) as (d2 & E2 & Hl2 & H2). exists d2. split_and!; [done|by transitivity d1|].
  cbn. by rewrite E2.
Qed.

Lemma updates_consecutive l ups : consecutive record_id l → consecutive record_id (foldl (update_id record_id) l ups).
Proof.
  revert l. induction ups as [|u ups IH]; intros l Hc; [done|]. apply IH. eapply consecutive_ids; [|exact Hc]. by rewrite update_id_ids.
Qed.

Lemma last_app_some {A} (l k : list A) x : last k = Some x → last (l ++ k) = Some x.
Proof. intros H. by rewrite last_app, H. Qed.

(** The epochs after a write that succeeded. *)
Lemma write_transaction_ok s g snapshot ins ups d' :
  consecutive record_id (stored_rows s g ++ ins) → write_transaction s g snapshot ins ups = Ok d' →
  let l := foldl (update_id record_id) (stored_rows s g ++ ins) ups in
  sorted_rows (rows d' g) =
    match last (record_id <$> ins) with
    | Some mx => if max_epoch_retention s <=? mx then InMemory.trim l (max_epoch_retention s) else l
    | None => l
    end ∧
  only_epochs_of g (upsert_group (db (connection s)) g snapshot) d'.
Proof.
  intros Hc Hw l. assert (Forall (λ e, 0 ≤ record_id e < 2 ^ 63) (ins ++ ups)) as Hids.
  { unfold write_transaction in Hw. cbv zeta in Hw. apply bind_ok in Hw as (d1 & H1 & (d2 & H2 & _)%bind_ok). apply Forall_app. split.
    - eapply statements_convert; [|exact H1]. intros d a dd. by intros (n & [_ ?]%to_sql_ok & _)%bind_ok.
    - eapply statements_convert; [|exact H2]. intros d a dd. by intros (n & [_ ?]%to_sql_ok & _)%bind_ok. }
  destruct (write_transaction_spec s g snapshot ins ups Hc Hids) as (d & Hl & Ho & E). rewrite E in Hw. clear E.
  assert (consecutive record_id l) as Hcl by (by apply updates_consecutive).
  assert (∀ mx, last (record_id <$> ins) = Some mx → last (record_id <$> l) = Some mx) as Hlast.
  { intros mx Hmx. unfold l. rewrite updates_ids, fmap_app. by apply last_app_some. }
  change (lists (rows d g) l) in Hl. clearbody l.
  destruct (last (record_id <$> ins)) as [mx|] eqn:Emx; [|injection Hw as <-; split; [by apply lists_unique|done]].
  destruct (_ <=? mx); [|injection Hw as <-; split; [by apply lists_unique|done]].
  destruct (delete_epochs_ok _ _ _ _ l Hw Hl) as [Hf Ho']. split; [|by etransitivity].
  rewrite (filter_trim l mx) in Hf by auto. by apply lists_unique.
Qed.

(** *** The contract of group state storages *)
Section laws.
Context (box : SqLiteDataStorageError → AnyError).

(** The errors of the storage, as the group sees them. *)
Definition boxed {A} (r : Result SqlError A) : AnyError + A :=
  match r with Ok a => inr a | Err e => inl (box (SqlEngineError e)) | _ => inl (box (SqlEngineError ConstraintViolation)) end.

Definition sqlite_write (s : SqLiteGroupStateStorage) (st : StoredState) (ins ups : list EpochRecord)
    : (AnyError + unit) * SqLiteGroupStateStorage :=
  match update_group_state s (stored_id st) (stored_data st) ins ups with
  | (Ok _, s') => (inr tt, s')
  | (Err e, s') => (inl (box e), s')
  | (_, s') => (inl (box (SqlEngineError ConstraintViolation)), s')
  end.

#[local] Instance group_state_storage : GroupStateStorage SqLiteGroupStateStorage := {|
  storage_state s g := inr (get_snapshot_data s g);
  storage_epoch s g n := boxed (get_epoch_data s g n);
  storage_write := sqlite_write;
  storage_max_epoch_id s g := inr (max_epoch_id s g) |}.

Lemma sqlite_write_ok s st ins ups s' :
  sqlite_write s st ins ups = (inr tt, s') →
  ∃ d, write_transaction s (stored_id st) (stored_data st) ins ups = Ok d ∧ s' = set_db s d.
Proof.
  unfold sqlite_write, update_group_state. destruct (write_transaction _ _ _ _ _) as [d| | |]; cbn; try done.
  intros [= <-]. by exists d.
Qed.

Lemma foldM_only {A} (f : Database → A → Result SqlError Database) g l d d' :
  (∀ d a d', f d a = Ok d' → only_epochs_of g d d') → foldM f d l = Ok d' → only_epochs_of g d d'.
Proof.
  intros Hf. revert d. induction l as [|a l IH]; intros d H; cbn [foldM] in H; [by injection H as <-|].
  apply bind_ok in H as (d1 & H1 & H). etransitivity; [by eapply Hf|by apply IH].
Qed.

Lemma write_transaction_only s g snapshot ins ups d :
  write_transaction s g snapshot ins ups = Ok d → only_epochs_of g (upsert_group (db (connection s)) g snapshot) d.
Proof.
  unfold write_transaction. cbv zeta. intros (d1 & H1 & (d2 & H2 & H)%bind_ok)%bind_ok. transitivity d1; [|transitivity d2].
  - eapply foldM_only; [|exact H1]. intros d0 a d' (n & _ & Hi)%bind_ok. repeat case_match; try done; injection Hi as <-; apply set_epochs_only.
  - eapply foldM_only; [|exact H2]. intros d0 a d' (n & _ & [= <-])%bind_ok. apply set_epochs_only.
  - repeat case_match; try by injection H as <-. apply bind_ok in H as (n & _ & [= <-]). apply set_epochs_only.
Qed.

(** The contract the group's repository is proved against. *)
#[local] Instance sqlite_laws : GroupStateStorageLaws SqLiteGroupStateStorage.
Proof.
  refine {| stored := stored_rows; readable _ n := 0 ≤ n < 2 ^ 63 |}.
  - intros s g n Hn _. cbn. unfold get_epoch_data. rewrite (proj2 (to_sql_ok n n) (conj eq_refl Hn)). cbn. f_equal.
    apply lists_find, lists_sorted_rows.
  - intros s g. cbn. f_equal. apply lists_max, lists_sorted_rows.
  - intros s st ins ups s' Hc (d & Hw & ->)%sqlite_write_ok. split.
    + destruct (write_transaction_ok s _ _ _ _ d Hc Hw) as [E _]. unfold stored_rows at 1. cbn [set_db connection db]. rewrite E.
      repeat case_match; [apply InMemory.trim_drop|by exists 0%nat..].
    + cbn. unfold get_snapshot_data. cbn. apply write_transaction_only in Hw as [-> _]. cbn. by rewrite lookup_insert_eq.
  - intros s st ins ups s' g (d & Hw & ->)%sqlite_write_ok Hne. apply write_transaction_only in Hw as (Hg & Hr & _). split.
    + unfold stored_rows. cbn [set_db connection db]. by rewrite Hr.
    + cbn. unfold get_snapshot_data. cbn. rewrite Hg. cbn. by rewrite lookup_insert_ne.
Defined.

(** The repository of past epochs over this storage finds every epoch it lists. *)
Lemma sqlite_repository {order : MapOrder} {K} `{!KeyPackageStorage K} (r : GroupStateRepository SqLiteGroupStateStorage K) past n :
  0 ≤ n < 2 ^ 63 → repo_inv r past →
  ∃ x r', get_epoch_mut r n = (Ok x, r') ∧ repo_inv r' past ∧ epochs r' past = epochs r past ∧
    (x ≫= deref r') = find_id epoch_id n (epochs r past).
Proof.
  intros Hn H. destruct (get_epoch_mut_spec r past n) as (x & r' & Hg & Hinv & Heq & Hx); [exact Hn|exact H|]. exists x, r'. split_and!; try done.
  destruct x as [x|]; [|by rewrite Hx]. by destruct Hx as (e0 & Hd & -> & _).
Qed.
End laws.

(** ** SQLite and memory are interchangeable *)

(** The operations that change a group state storage. *)
Inductive operation :=
  | WriteGroup (st : StoredState) (ins ups : list EpochRecord)
  | DeleteGroup (g : bytes).

Definition sql_step (s : SqLiteGroupStateStorage) (o : operation) : Result SqLiteDataStorageError SqLiteGroupStateStorage :=
  match o with
  | WriteGroup st ins ups =>
      let '(r, s') := update_group_state s (stored_id st) (stored_data st) ins ups in _ ← r; Ok s'
  | DeleteGroup g => Ok (delete_group s g)
  end.

Definition memory_step (m : InMemory.InMemoryGroupStateStorage) (o : operation) : InMemory.InMemoryGroupStateStorage :=
  match o with
  | WriteGroup st ins ups => InMemory.write m st ins ups
  | DeleteGroup g => InMemory.delete_group m g
  end.

(** New epochs follow the ones that are kept, and numbers fit a signed 64-bit column. *)
Definition allowed (m : InMemory.InMemoryGroupStateStorage) (o : operation) : Prop :=
  match o with
  | WriteGroup st ins ups =>
      consecutive record_id (InMemory.records m (stored_id st) ++ ins) ∧ Forall (λ e, 0 ≤ record_id e < 2 ^ 63) (ins ++ ups)
  | DeleteGroup _ => True
  end.

Fixpoint allowed_run (m : InMemory.InMemoryGroupStateStorage) (ops : list operation) : Prop :=
  match ops with
  | [] => True
  | o :: ops => allowed m o ∧ allowed_run (memory_step m o) ops
  end.

Record same_contents (s : SqLiteGroupStateStorage) (m : InMemory.InMemoryGroupStateStorage) : Prop := {
  same_foreign_keys : foreign_keys (connection s) = true;
  same_retention : max_epoch_retention s = InMemory.max_epoch_retention m;
  same_positive : 0 ≤ InMemory.max_epoch_retention m;
  same_epochs g : stored_rows s g = InMemory.records m g;
  same_state g : get_snapshot_data s g = InMemory.state m g;
  same_consecutive g : consecutive record_id (InMemory.records m g);
  same_trimmed g : len (InMemory.records m g) ≤ InMemory.max_epoch_retention m;
  same_ids g : Forall (λ e, 0 ≤ record_id e) (InMemory.records m g);
}.

Lemma trim_short l n : len l ≤ n → InMemory.trim l n = l.
Proof. destruct l as [|a l]; [done|]. intros H. cbn [InMemory.trim]. rewrite Z.gtb_ltb. by destruct (Z.ltb_spec n (len (a :: l))); [lia|]. Qed.

Lemma ids_transfer (P : Z → Prop) l k : record_id <$> l = record_id <$> k → Forall (λ e, P (record_id e)) l → Forall (λ e, P (record_id e)) k.
Proof. intros E H. apply (Forall_fmap record_id P). rewrite <- E. by apply (Forall_fmap record_id P). Qed.

(** From number zero on, fewer numbers than are retained need no trimming. *)
Lemma young_trim l mx r :
  consecutive record_id l → last (record_id <$> l) = Some mx → Forall (λ e, 0 ≤ record_id e) l → mx < r → InMemory.trim l r = l.
Proof.
  intros Hc Hl Hp Hr. apply trim_short. rewrite fmap_last in Hl. apply fmap_Some in Hl as (b & Hl & ->).
  destruct l as [|a l]; [done|]. apply Forall_cons in Hp as [Ha _]. rewrite last_lookup in Hl.
  change (pred (length (a :: l))) with (length l) in Hl. pose proof (Hc 0%nat _ a b eq_refl Hl). unfold len. cbn [length]. lia.
Qed.

Lemma memory_write_other m st ins ups g : g ≠ stored_id st →
  InMemory.records (InMemory.write m st ins ups) g = InMemory.records m g ∧ InMemory.state (InMemory.write m st ins ups) g = InMemory.state m g.
Proof. intros Hne. unfold InMemory.records, InMemory.state, InMemory.write. cbn. by rewrite lookup_insert_ne. Qed.

Lemma memory_write_state m st ins ups :
  consecutive record_id (InMemory.records m (stored_id st) ++ ins) →
  InMemory.state (InMemory.write m st ins ups) (stored_id st) = Some (stored_data st).
Proof. intros Hc. destruct (@stored_write _ _ InMemory.storage_laws m st ins ups _ Hc eq_refl) as [_ H]. by injection H. Qed.

(** The epochs the two keep after a write. *)
Lemma trims_agree m g ins ups :
  consecutive record_id (InMemory.records m g ++ ins) → Forall (λ e, 0 ≤ record_id e) (InMemory.records m g ++ ins) →
  len (InMemory.records m g) ≤ InMemory.max_epoch_retention m →
  let l := foldl (update_id record_id) (InMemory.records m g ++ ins) ups in
  match last (record_id <$> ins) with
  | Some mx => if InMemory.max_epoch_retention m <=? mx then InMemory.trim l (InMemory.max_epoch_retention m) else l
  | None => l
  end = InMemory.trim l (InMemory.max_epoch_retention m).
Proof.
  intros Hc Hp Hlen l. destruct (last (record_id <$> ins)) as [mx|] eqn:E.
  - destruct (Z.leb_spec (InMemory.max_epoch_retention m) mx); [done|]. symmetry. apply (young_trim _ mx); [by apply updates_consecutive|..|done].
    + unfold l. rewrite updates_ids, fmap_app. by apply last_app_some.
    + eapply (ids_transfer (λ z, 0 ≤ z)); [|exact Hp]. symmetry. apply updates_ids.
  - symmetry. apply trim_short. assert (length l = length (InMemory.records m g ++ ins)) as El.
    { rewrite <- (length_fmap record_id l). unfold l. by rewrite updates_ids, length_fmap. }
    rewrite fmap_last in E. destruct (last ins) eqn:E'; [done|]. apply last_None in E' as ->. unfold len in *. rewrite El, app_nil_r. lia.
Qed.

Lemma trim_suffix (P : EpochRecord → Prop) l n : Forall P l → Forall P (InMemory.trim l n).
Proof. intros H. destruct (InMemory.trim_drop l n) as [k ->]. by apply Forall_drop. Qed.

(** One step of each. *)
Lemma write_simulates s m st ins ups :
  same_contents s m → allowed m (WriteGroup st ins ups) →
  ∃ s', sql_step s (WriteGroup st ins ups) = Ok s' ∧ same_contents s' (InMemory.write m st ins ups).
Proof.
  intros H [Hc Hids]. set (g := stored_id st) in *. pose proof (same_epochs _ _ H g) as Eg. rewrite <- Eg in Hc.
  destruct (write_transaction_spec s g (stored_data st) ins ups Hc Hids) as (d & _ & _ & Ed).
  assert (∃ d', write_transaction s g (stored_data st) ins ups = Ok d') as [d' Hw].
  { rewrite Ed. destruct (last (record_id <$> ins)) as [mx|] eqn:Emx; [|by eexists]. destruct (Z.leb_spec (max_epoch_retention s) mx); [|by eexists].
    unfold delete_epochs. apply last_Some_elem_of, list_elem_of_fmap in Emx as (e & -> & He). apply Forall_app in Hids as [Hi _].
    rewrite Forall_forall in Hi. apply Hi in He. pose proof (same_positive _ _ H) as Hp. rewrite <- (same_retention _ _ H) in Hp.
    eexists. erewrite (proj2 (to_sql_ok _ _)); [done|]. split; [done|lia]. }
  exists (set_db s d'). split; [unfold sql_step, update_group_state; fold g; by rewrite Hw|].
  destruct (write_transaction_ok s g (stored_data st) ins ups d' Hc Hw) as [El (Hg & Hr & _)].
  assert (Forall (λ e, 0 ≤ record_id e) (InMemory.records m g ++ ins)) as Hp.
  { apply Forall_app. split; [apply (same_ids _ _ H)|]. apply Forall_app in Hids as [Hi _]. eapply Forall_impl; [exact Hi|]. cbn. lia. }
  rewrite Eg in Hc. rewrite Eg, (same_retention _ _ H), (trims_agree m g ins ups Hc Hp (same_trimmed _ _ H g)) in El.
  assert (∀ g', g' = g ∨ g' ≠ g) as Hd by (intros g'; destruct (decide (g' = g)); auto).
  pose proof (InMemory.write_records m st ins ups Hc) as Em. fold g in Em.
  split; try exact (same_foreign_keys _ _ H); try exact (same_retention _ _ H); try exact (same_positive _ _ H); intros g'.
  - destruct (Hd g') as [->|Hne]; [by rewrite Em|]. unfold stored_rows. cbn [set_db connection db].
    rewrite Hr, (proj1 (memory_write_other m st ins ups g' Hne)) by done. apply (same_epochs _ _ H).
  - unfold get_snapshot_data. cbn [set_db connection db]. rewrite Hg. cbn. destruct (Hd g') as [->|Hne].
    + rewrite lookup_insert_eq. symmetry. by apply memory_write_state.
    + rewrite lookup_insert_ne, (proj2 (memory_write_other m st ins ups g' Hne)) by done. apply (same_state _ _ H).
  - destruct (Hd g') as [->|Hne]; [|rewrite (proj1 (memory_write_other m st ins ups g' Hne)); apply (same_consecutive _ _ H)].
    rewrite Em. destruct (InMemory.trim_drop (foldl (update_id record_id) (InMemory.records m g ++ ins) ups) (InMemory.max_epoch_retention m)) as [k ->].
    by apply consecutive_drop, updates_consecutive.
  - destruct (Hd g') as [->|Hne]; [|rewrite (proj1 (memory_write_other m st ins ups g' Hne)); apply (same_trimmed _ _ H)].
    rewrite Em. apply InMemory.length_trim, (same_positive _ _ H).
  - destruct (Hd g') as [->|Hne]; [|rewrite (proj1 (memory_write_other m st ins ups g' Hne)); apply (same_ids _ _ H)].
    rewrite Em. apply trim_suffix. eapply (ids_transfer (λ z, 0 ≤ z)); [|exact Hp]. symmetry. apply updates_ids.
Qed.

Lemma sorted_rows_empty : sorted_rows ∅ = [].
Proof. apply lists_unique. split; [constructor|]. intros a. by rewrite elem_of_nil, lookup_empty. Qed.

Lemma delete_simulates s m g : same_contents s m → same_contents (delete_group s g) (InMemory.delete_group m g).
Proof.
  intros H. assert (∀ g', InMemory.records (InMemory.delete_group m g) g' = if decide (g' = g) then [] else InMemory.records m g') as Er.
  { intros g'. unfold InMemory.records. cbn. case_decide; [subst; by rewrite lookup_delete_eq|by rewrite lookup_delete_ne]. }
  split; try exact (same_foreign_keys _ _ H); try exact (same_retention _ _ H); try exact (same_positive _ _ H); intros g'; rewrite ?Er.
  - unfold stored_rows, delete_group, delete_group_row, rows. cbn. rewrite (same_foreign_keys _ _ H). cbn. case_decide; [subst|].
    + rewrite lookup_delete_eq. apply sorted_rows_empty.
    + rewrite lookup_delete_ne by done. apply (same_epochs _ _ H).
  - unfold get_snapshot_data, InMemory.state, delete_group, delete_group_row. rewrite (same_foreign_keys _ _ H). cbn.
    destruct (decide (g' = g)) as [->|]; [by rewrite !lookup_delete_eq|]. rewrite !lookup_delete_ne by done. apply (same_state _ _ H).
  - case_decide; [by intros ???|]. apply (same_consecutive _ _ H).
  - case_decide; [apply (same_positive _ _ H)|]. apply (same_trimmed _ _ H).
  - case_decide; [constructor|]. apply (same_ids _ _ H).
Qed.

Lemma step_simulates s m o : same_contents s m → allowed m o → ∃ s', sql_step s o = Ok s' ∧ same_contents s' (memory_step m o).
Proof. destruct o; [apply write_simulates|]. intros H _. eexists. split; [done|by apply delete_simulates]. Qed.

Lemma run_simulates ops s m :
  same_contents s m → allowed_run m ops → ∃ s', foldM sql_step s ops = Ok s' ∧ same_contents s' (foldl memory_step m ops).
Proof.
  revert s m. induction ops as [|o ops IH]; intros s m H Ho; cbn [foldM foldl]; [by exists s|]. destruct Ho as [Ho Hs].
  destruct (step_simulates s m o H Ho) as (s1 & -> & H1). cbn. by apply IH.
Qed.

Definition empty_sqlite (retention : Z) : SqLiteGroupStateStorage :=
  with_max_epoch_retention (group_state_storage_new {| db := create_tables_v1; foreign_keys := true |}) retention.
Definition empty_memory (retention : Z) : InMemory.InMemoryGroupStateStorage :=
  {| InMemory.inner := ∅; InMemory.max_epoch_retention := retention |}.

Lemma empty_same r : 0 ≤ r → same_contents (empty_sqlite r) (empty_memory r).
Proof.
  intros Hr. by split.
Qed.

Lemma same_reads s m : same_contents s m → ∀ g n,
  get_snapshot_data s g = InMemory.state m g ∧ max_epoch_id s g = InMemory.max_epoch_id m g ∧
  (0 ≤ n < 2 ^ 63 → get_epoch_data s g n = Ok (InMemory.epoch m g n)).
Proof.
  intros H g n. split; [apply (same_state _ _ H)|]. split.
  - unfold max_epoch_id. rewrite (lists_max _ _ (lists_sorted_rows _)). fold (stored_rows s g). rewrite (same_epochs _ _ H).
    pose proof (@stored_max _ _ InMemory.storage_laws m g) as [= E]. by rewrite E.
  - intros Hn. unfold get_epoch_data. rewrite (proj2 (to_sql_ok n n) (conj eq_refl Hn)). cbn. f_equal.
    rewrite (lists_find _ _ n (lists_sorted_rows _)). fold (stored_rows s g). rewrite (same_epochs _ _ H).
    pose proof (@stored_epoch _ _ InMemory.storage_laws m g n I (same_consecutive _ _ H g)) as [= E]. by rewrite E.
Qed.

(** C16. A history of writes and deletions, each adding epochs that follow the
    ones kept, succeeds on an empty database that enforces foreign keys, and
    every read of it answers what the in-memory storage answers after the same
    history: the state, the latest epoch, and each epoch; the epochs kept are
    the same, and no more than the limit. *)
Theorem sqlite_refines_memory (retention : Z) (ops : list operation) :
  0 ≤ retention → allowed_run (empty_memory retention) ops →
  let m := foldl memory_step (empty_memory retention) ops in
  ∃ s, foldM sql_step (empty_sqlite retention) ops = Ok s ∧
  ∀ g n, get_snapshot_data s g = InMemory.state m g ∧ max_epoch_id s g = InMemory.max_epoch_id m g ∧
    (0 ≤ n < 2 ^ 63 → get_epoch_data s g n = Ok (InMemory.epoch m g n)) ∧
    stored_rows s g = InMemory.records m g ∧ len (stored_rows s g) ≤ retention.
Proof.
  intros Hr Ho m. destruct (run_simulates ops _ _ (empty_same retention Hr) Ho) as (s & Hs & H). exists s. split; [done|]. intros g n.
  destruct (same_reads s m H g n) as (H1 & H2 & H3). split_and!; [done..| |]; rewrite (same_epochs _ _ H); [done|].
  pose proof (same_trimmed _ _ H g) as Ht. enough (InMemory.max_epoch_retention (foldl memory_step (empty_memory retention) ops) = retention) as E
    by (by rewrite E in Ht).
  clear. change retention with (InMemory.max_epoch_retention (empty_memory retention)) at 2. generalize (empty_memory retention).
  induction ops as [|o ops IH]; intros m; [done|]. cbn [foldl]. rewrite IH. by destruct o.
Qed.

(** Without foreign keys, which a build of SQLite may leave off, deleting a group
    leaves its epochs, and the group's identifier cannot be used again from an epoch
    it had. *)
Theorem delete_group_leaves_epochs g snapshot (e : EpochRecord) :
  0 ≤ record_id e < 2 ^ 63 →
  let s0 := group_state_storage_new {| db := create_tables_v1; foreign_keys := false |} in
  ∃ s1, update_group_state s0 g snapshot [e] [] = (Ok tt, s1) ∧
    let s2 := delete_group s1 g in
    get_snapshot_data s2 g = None ∧ get_epoch_data s2 g (record_id e) = Ok (Some (record_data e)) ∧
    update_group_state s2 g snapshot [e] [] = (Err (SqlEngineError ConstraintViolation), s2).
Proof.
  intros He s0. pose proof (proj2 (to_sql_ok _ _) (conj eq_refl He)) as Hsql.
  assert (∃ s1, update_group_state s0 g snapshot [e] [] = (Ok tt, s1) ∧ foreign_keys (connection s1) = false ∧
    rows (db (connection s1)) g !! record_id e = Some (record_data e)) as (s1 & Hw & Hfk & Hrow).
  { unfold update_group_state, write_transaction. cbn [foldM fmap list_fmap last max_epoch_retention s0 group_state_storage_new connection db foreign_keys].
    unfold insert_epoch. rewrite Hsql. cbn [mbind result_bind andb].
    rewrite bool_decide_eq_false_2 by (unfold rows; cbn; rewrite lookup_empty; cbn; rewrite lookup_empty; by intros [? ?]).
    cbn. destruct (Z.leb_spec DEFAULT_EPOCH_RETENTION_LIMIT (record_id e)) as [Hl|Hl].
    - unfold delete_epochs. unfold DEFAULT_EPOCH_RETENTION_LIMIT in *. erewrite (proj2 (to_sql_ok _ _)) by (split; [done|lia]). cbn. eexists. split_and!; [done..|].
      unfold rows. cbn. rewrite lookup_insert_eq. cbn. rewrite map_lookup_filter_Some, lookup_insert_eq. cbn. split; [|lia].
      by rewrite lookup_insert_eq.
    - eexists. split_and!; [done..|]. unfold rows. cbn. rewrite lookup_insert_eq. cbn. by rewrite lookup_insert_eq. }
  exists s1. split; [done|]. intros s2. assert (rows (db (connection s2)) g = rows (db (connection s1)) g) as Er
    by (unfold s2, delete_group, delete_group_row; by rewrite Hfk).
  split_and!.
  - unfold s2, delete_group, delete_group_row, get_snapshot_data. rewrite Hfk. cbn. by rewrite lookup_delete_eq.
  - unfold get_epoch_data. rewrite Hsql. cbn [mbind result_bind]. by rewrite Er, Hrow.
  - unfold update_group_state, write_transaction. cbn [foldM]. unfold insert_epoch. rewrite Hsql. cbn [mbind result_bind andb].
    assert (foreign_keys (connection s2) = false) as -> by exact Hfk. cbn [andb].
    rewrite bool_decide_eq_true_2; [done|]. change (is_Some (rows (db (connection s2)) g !! record_id e)). rewrite Er, Hrow. by eexists.
Qed.

(** ** Key packages *)
Section packages.
Context (box : SqLiteDataStorageError → AnyError).

Definition unit_boxed {A S} (r : Result SqLiteDataStorageError A * S) : (AnyError + A) * S :=
  match r with
  | (Ok a, s) => (inr a, s)
  | (Err e, s) => (inl (box e), s)
  | (_, s) => (inl (box (SqlEngineError ConstraintViolation)), s)
  end.

#[local] Instance sqlite_key_packages : KeyPackageStorage SqLiteKeyPackageStorage := {|
  kp_delete s id := (inr tt, delete_package s id);
  kp_insert s id k := unit_boxed (insert_package s id k);
  kp_get s id := (unit_boxed (get_package s id, s)).1 |}.

(** What is stored decodes to what was stored. *)
Lemma insert_package_ok s id k s' :
  insert_package s id k = (Ok tt, s') →
  ∃ data, mls_encode_to_vec stored_package_codec k = Ok data ∧ 0 ≤ expiration k < 2 ^ 63 ∧ key_package (kp_db s) !! id = None ∧
    s' = set_packages s (<[id := (expiration k, data)]> (key_package (kp_db s))).
Proof.
  unfold insert_package, st_lift. intros (data & s1 & [= Hd%map_err_ok <-] & (n & s2 & [= [-> Hn]%map_err_ok%to_sql_ok <-] & H)%st_bind_ok)%st_bind_ok.
  case_bool_decide as Hk; [done|]. injection H as <-. exists data. split_and!; try done; try lia. by apply eq_None_not_Some.
Qed.

Lemma package_codec_laws : CodecLaws stored_package_codec (λ k, True ∧ True ∧ True ∧ is_u64 (expiration k)).
Proof.
  unfold stored_package_codec.
  refine (struct_laws _ _ _ (λ p : bytes * (bytes * (bytes * Z)), True ∧ True ∧ True ∧ is_u64 p.2.2.2) _ _ _);
    [by intros []|by intros (? & ? & ? & ?)|].
  apply (tuple_laws _ _ (λ _, True) (λ p, True ∧ True ∧ is_u64 p.2.2)); [apply _|].
  apply (tuple_laws _ _ (λ _, True) (λ p, True ∧ is_u64 p.2)); [apply _|]. apply (tuple_laws _ _ (λ _, True) is_u64); apply _.
Qed.

Lemma kp_insert_inv s id k s' : unit_boxed (insert_package s id k) = (inr tt, s') → insert_package s id k = (Ok tt, s').
Proof. destruct (insert_package s id k) as [[[]| | |] ?]; cbn; congruence. Qed.

#[local] Instance sqlite_package_laws : KeyPackageStorageLaws SqLiteKeyPackageStorage.
Proof.
  split.
  - intros s s' id k (data & Hd & He & _ & ->)%kp_insert_inv%insert_package_ok. cbn [kp_get sqlite_key_packages].
    unfold get_package. cbn [set_packages kp_db key_package]. rewrite lookup_insert_eq.
    rewrite (@decode_nil_rest _ _ _ package_codec_laws k data); [done| |done].
    split_and!; try done. unfold is_u64. lia.
  - intros s s' id id' k (data & _ & _ & _ & ->)%kp_insert_inv%insert_package_ok Hne. cbn [kp_get sqlite_key_packages].
    unfold get_package. cbn [set_packages kp_db key_package]. rewrite lookup_insert_ne by done.
    by destruct (key_package (kp_db s) !! id') as [[]|]; repeat case_match.
Qed.
End packages.

(** The databases the key package storage can be in. *)
Inductive packages_reachable : SqLiteKeyPackageStorage → Prop :=
  | reach_created : packages_reachable {| kp_db := create_tables_v1 |}
  | reach_insert s id k r s' : packages_reachable s → insert_package s id k = (r, s') → packages_reachable s'
  | reach_delete s id : packages_reachable s → packages_reachable (delete_package s id)
  | reach_expire s t r s' : packages_reachable s → delete_expired_by_time s t = (r, s') → packages_reachable s'.

(** Each row holds the encoding of a package with the expiration of its column. *)
Definition rows_decode (m : gmap bytes (Z * bytes)) : Prop :=
  map_Forall (λ _ p, ∃ k, mls_decode stored_package_codec p.2 = Ok (k, []) ∧ expiration k = p.1) m.

Lemma insert_package_cases s id k r s' :
  insert_package s id k = (r, s') →
  (r ≠ Ok tt ∧ s' = s) ∨ (r = Ok tt ∧ insert_package s id k = (Ok tt, s')).
Proof.
  unfold insert_package, st_lift. destruct (mls_encode_to_vec _ k); cbn; try by intros [= <- <-]; left.
  destruct (to_sql (expiration k)); cbn; try by intros [= <- <-]; left.
  case_bool_decide; intros [= <- <-]; [by left|by right].
Qed.

Lemma packages_invariant s : packages_reachable s → rows_decode (key_package (kp_db s)).
Proof.
  induction 1 as [|s id k r s' _ IH Hi|s id _ IH|s t r s' _ IH Ht].
  - apply map_Forall_empty.
  - apply insert_package_cases in Hi as [[_ ->]|[_ (data & Hd & He & _ & ->)%insert_package_ok]]; [done|].
    cbn [set_packages kp_db key_package]. apply map_Forall_insert_2; [|done]. exists k. split; [|done].
    apply (@decode_nil_rest _ _ _ package_codec_laws); [|done]. split_and!; try done. unfold is_u64. lia.
  - cbn [delete_package set_packages kp_db key_package]. by apply map_Forall_delete.
  - unfold delete_expired_by_time, st_lift in Ht. destruct (to_sql t) as [n| | |]; cbn [map_err st_bind] in Ht; injection Ht as _ <-; try done.
    cbn [set_packages kp_db key_package]. intros id p [Hp _]%map_lookup_filter_Some. by eapply IH.
Qed.

(** Whatever is done to the storage of key packages, reading never panics on what
    it holds; a refused insertion changes nothing; an accepted one is read back
    and leaves the other packages; and removing the expired ones keeps exactly
    the packages whose expiration is not in the past. *)
Theorem package_storage_sound s : packages_reachable s →
  (∀ id, ∃ found, get_package s id = Ok found) ∧
  (∀ id k r s', insert_package s id k = (r, s') →
     (r ≠ Ok tt ∧ s' = s) ∨
     (r = Ok tt ∧ get_package s id = Ok None ∧ get_package s' id = Ok (Some k) ∧ ∀ id', id' ≠ id → get_package s' id' = get_package s id')) ∧
  (∀ t, 0 ≤ t < 2 ^ 63 → ∃ s', delete_expired_by_time s t = (Ok tt, s') ∧
     ∀ id, get_package s' id = (found ← get_package s id; Ok (k ← found; if decide (t ≤ expiration k) then Some k else None))).
Proof.
  intros Hs%packages_invariant.
  assert (∀ id, get_package s id = Ok (p ← key_package (kp_db s) !! id;
    match mls_decode stored_package_codec p.2 with Ok (k, _) => Some k | _ => None end)) as Hget.
  { intros id. unfold get_package. destruct (key_package (kp_db s) !! id) as [[n data]|] eqn:E; [|done].
    destruct (Hs _ _ E) as (k & Hk & _). cbn [snd fst mbind option_bind] in *. by rewrite Hk. }
  split_and!.
  - intros id. rewrite Hget. by eexists.
  - intros id k r s' Hi. destruct (insert_package_cases _ _ _ _ _ Hi) as [?|[-> Hok]]; [by left|right].
    pose proof (insert_package_ok _ _ _ _ Hok) as (data & _ & _ & Hnone & _). split; [done|].
    pose proof (sqlite_package_laws (λ _, ProviderAnyError [])) as [Hsame Hother]. split; [|split].
    + by rewrite Hget, Hnone.
    + specialize (Hsame s s' id k). cbn [kp_insert kp_get sqlite_key_packages] in Hsame. rewrite Hok in Hsame. specialize (Hsame eq_refl).
      destruct (get_package s' id) as [found| | |]; try discriminate Hsame. by injection Hsame as ->.
    + intros id' Hne. apply insert_package_ok in Hok as (data' & _ & _ & _ & ->).
      unfold get_package. cbn [set_packages kp_db key_package]. by rewrite lookup_insert_ne.
  - intros t Ht. unfold delete_expired_by_time, st_lift. rewrite (proj2 (to_sql_ok t t) (conj eq_refl Ht)). cbn [map_err st_bind].
    eexists. split; [done|]. intros id. rewrite Hget. unfold get_package. cbn [set_packages kp_db key_package].
    destruct (key_package (kp_db s) !! id) as [[n data]|] eqn:E.
    + destruct (Hs _ _ E) as (k & Hk & He). cbn [fst snd mbind option_bind result_bind] in *. rewrite Hk. subst n. cbn [mbind option_bind].
      destruct (decide (t ≤ expiration k)) as [Hd|Hd].
      * by rewrite (map_lookup_filter_Some_2 _ _ _ _ E) by (cbn; lia); rewrite Hk.
      * rewrite (map_lookup_filter_None_2 _ _ id); [done|]. right. intros x Hx. rewrite E in Hx. injection Hx as <-. cbn. lia.
    + by rewrite (map_lookup_filter_None_2 _ _ id) by (by left).
Qed.

(** ** Search by prefix *)
Definition sanitize_char (c : Z) : text :=
  if c =? UNDERSCORE then [DOLLAR; UNDERSCORE] else if c =? PERCENT then [DOLLAR; PERCENT] else [c].

Lemma sanitize_cons c p : sanitize (c :: p) = sanitize_char c ++ sanitize p.
Proof.
  unfold sanitize, sanitize_char, replace_char. cbn. rewrite fmap_app, concat_app. f_equal.
  destruct (Z.eqb_spec c UNDERSCORE) as [->|]; [done|]. cbn. rewrite app_nil_r. by destruct (c =? PERCENT).
Qed.

Lemma like_anything k : like [PERCENT] k = true.
Proof. induction k as [|x k IH]; [done|]. exact IH. Qed.

(** A sanitized character matches itself, letters in either case. *)
Lemma like_char c pattern k :
  c ≠ DOLLAR → like (sanitize_char c ++ pattern) k =
    match k with x :: k => (fold_case c =? fold_case x) && like pattern k | [] => false end.
Proof.
  intros Hc. unfold sanitize_char. destruct (Z.eqb_spec c UNDERSCORE) as [->|Hu]; [done|].
  destruct (Z.eqb_spec c PERCENT) as [->|Hp]; [done|]. cbn [app like].
  rewrite (proj2 (Z.eqb_neq c PERCENT) Hp), (proj2 (Z.eqb_neq c DOLLAR) Hc), (proj2 (Z.eqb_neq c UNDERSCORE) Hu). done.
Qed.

(** Starting with a text, up to the case of ASCII letters. *)
Definition starts_with (prefix k : text) : Prop := ∃ q rest, k = q ++ rest ∧ fold_case <$> q = fold_case <$> prefix.

Lemma like_prefix p k : DOLLAR ∉ p → like (prefix_pattern p) k = true ↔ starts_with p k.
Proof.
  unfold prefix_pattern. revert k. induction p as [|c p IH]; intros k Hp.
  - cbn [app]. change (sanitize []) with (@nil Z). cbn [app]. rewrite like_anything. split; [|done]. intros _. by exists [], k.
  - apply not_elem_of_cons in Hp as [Hc Hp]. rewrite sanitize_cons, <- app_assoc, like_char by done. destruct k as [|x k].
    + split; [done|]. intros (q & rest & E & Hq). destruct q; [by cbn in Hq|done].
    + rewrite andb_true_iff, Z.eqb_eq, IH by done. split.
      * intros [Hx (q & rest & -> & Hq)]. exists (x :: q), rest. cbn. split; [done|]. by rewrite Hx, Hq.
      * intros ([|y q] & rest & E & Hq); [by cbn in Hq|]. cbn in E, Hq. injection E as -> ->. injection Hq as Hx Hq.
        split; [done|]. by exists q, rest.
Qed.

(** For a prefix without the escape character, the search by prefix returns exactly
    the entries whose key starts with it, up to the case of ASCII letters, and
    deletion by prefix removes exactly those; wildcards in the prefix stand for
    themselves. *)
Theorem prefix_search s p : DOLLAR ∉ p →
  (∀ k v, (k, v) ∈ get_by_prefix s p ↔ app_get s k = Some v ∧ starts_with p k) ∧
  (∀ k v, app_get (delete_by_prefix s p) k = Some v ↔ app_get s k = Some v ∧ ¬ starts_with p k).
Proof.
  intros Hp. split; intros k v.
  - unfold get_by_prefix. rewrite list_elem_of_filter, elem_of_map_to_list, (like_prefix p k Hp). unfold app_get. tauto.
  - unfold delete_by_prefix, app_get. cbn. rewrite map_lookup_filter_Some. cbn. by rewrite (like_prefix p k Hp).
Qed.

(** A key is found under the prefixes of itself, and one that differs is not. *)
Lemma prefix_search_witness :
  let s := transact_insert {| app_db := create_tables_v1 |} [([97; 95; 98], [Byte.x01]); ([97; 99; 98], [Byte.x02])] in
  DOLLAR ∉ [97; 95] ∧ ([97; 95; 98], [Byte.x01]) ∈ get_by_prefix s [97; 95] ∧ app_get (delete_by_prefix s [97; 95]) [97; 99; 98] = Some [Byte.x02].
Proof.
  intros s. assert (DOLLAR ∉ [97; 95]) as H by (apply (bool_decide_unpack _); vm_compute; exact I).
  destruct (prefix_search s [97; 95] H) as [H1 H2]. split; [exact H|]. split.
  - apply H1. split; [reflexivity|]. exists [97; 95], [98]. split; reflexivity.
  - apply H2. split; [reflexivity|]. intros ([|x [|y q]] & rest & E & Hq); cbn in Hq; try discriminate Hq.
    injection E as <- <- _. vm_compute in Hq. discriminate Hq.
Defined.

(** The escape character is not escaped: the entries under a prefix that contains it
    are missed, and entries under other prefixes are found and deleted. *)
Theorem escape_not_escaped :
  let s := transact_insert {| app_db := create_tables_v1 |} [([97; DOLLAR; 98], [Byte.x01]); ([DOLLAR; 120; 121], [Byte.x02])] in
  get_by_prefix s [97; DOLLAR] = [] ∧ app_get (delete_by_prefix s [97; DOLLAR]) [97; DOLLAR; 98] = Some [Byte.x01] ∧
  get_by_prefix s [DOLLAR; UNDERSCORE] = [([DOLLAR; 120; 121], [Byte.x02])] ∧
  app_get (delete_by_prefix s [DOLLAR; UNDERSCORE]) [DOLLAR; 120; 121] = None.
Proof. vm_compute. split_and!; reflexivity. Qed.

(** ** Examples *)
Definition example_record (n : Z) : EpochRecord := {| record_id := n; record_data := [Byte.x05] |}.
Definition example_state : StoredState := {| stored_id := [Byte.x01]; stored_data := [Byte.x02] |}.

(** Four epochs with a limit of two, an update, a second group and its deletion. *)
Definition example_history : list operation := [
  WriteGroup example_state [example_record 0; example_record 1] [];
  WriteGroup example_state [example_record 2] [{| record_id := 1; record_data := [Byte.x06] |}];
  WriteGroup {| stored_id := [Byte.x07]; stored_data := [] |} [] [];
  DeleteGroup [Byte.x07];
  WriteGroup example_state [example_record 3] []].

Lemma consecutive_numbers l : Forall2 (λ e n, record_id e = n) l (seqZ (default 0 (record_id <$> head l)) (len l)) → consecutive record_id l.
Proof.
  intros H i j a b Hi Hj.
  assert (∀ i a, l !! i = Some a → record_id a = default 0 (record_id <$> head l) + Z.of_nat i) as Hn.
  { intros i' a' Hi'. destruct (Forall2_lookup_l _ _ _ _ _ H Hi') as (n & Hn & ->). apply lookup_seqZ in Hn. lia. }
  rewrite (Hn _ _ Hi), (Hn _ _ Hj). lia.
Qed.

Lemma sqlite_refines_memory_witness :
  ∃ s, foldM sql_step (empty_sqlite 2) example_history = Ok s ∧ max_epoch_id s [Byte.x01] = Some 3 ∧
    get_epoch_data s [Byte.x01] 1 = Ok None ∧ get_epoch_data s [Byte.x01] 2 = Ok (Some [Byte.x05]) ∧ get_snapshot_data s [Byte.x07] = None.
Proof.
  destruct (sqlite_refines_memory 2 example_history) as (s & Hs & H).
  - lia.
  - cbn [allowed_run example_history]. repeat split; try exact I;
      first [apply consecutive_numbers|idtac]; apply (bool_decide_unpack _); vm_compute; exact I.
  - exists s. split; [exact Hs|]. destruct (H [Byte.x01] 1) as (_ & H1 & H2 & _). destruct (H [Byte.x01] 2) as (_ & _ & H3 & _).
    destruct (H [Byte.x07] 1) as (H4 & _). split; [rewrite H1; reflexivity|]. split; [rewrite H2 by lia; reflexivity|].
    split; [rewrite H3 by lia; reflexivity|]. rewrite H4. reflexivity.
Defined.

Definition example_package : KeyPackageData :=
  {| key_package_bytes := [Byte.x01]; init_key := [Byte.x02]; leaf_node_key := [Byte.x03]; expiration := 10 |}.

Lemma package_storage_sound_witness :
  let s := (insert_package {| kp_db := create_tables_v1 |} [Byte.x09] example_package).2 in
  get_package s [Byte.x09] = Ok (Some example_package) ∧
  ∃ s', delete_expired_by_time s 11 = (Ok tt, s') ∧ get_package s' [Byte.x09] = Ok None.
Proof.
  intros s. destruct (package_storage_sound {| kp_db := create_tables_v1 |} reach_created) as (_ & H & _).
  destruct (H [Byte.x09] example_package (insert_package {| kp_db := create_tables_v1 |} [Byte.x09] example_package).1 s) as [[E _]|(_ & _ & Hget & _)].
  - apply surjective_pairing.
  - exfalso. apply E. reflexivity.
  - split; [exact Hget|]. destruct (package_storage_sound s) as (_ & _ & H2).
    + apply (reach_insert _ [Byte.x09] example_package (insert_package {| kp_db := create_tables_v1 |} [Byte.x09] example_package).1 _ reach_created).
      apply surjective_pairing.
    + destruct (H2 11) as (s' & Hd & Hs'); [lia|]. exists s'. split; [exact Hd|]. rewrite Hs', Hget. reflexivity.
Defined.
End Sqlite.
