(* ===== verification/Resumption.v ===== *)
(** * Successors of a group (mls-rs/src/group/resumption.rs)

    A subgroup of a group, and the group that takes the place of one that was
    reinitialized.  The first commit of the new group injects the resumption secret
    of the old one, so that only its members can join. *)
From S2P Require Import Prelude Codec Types Node TreeIndex Crypto TreeHash Proposal TreeKem GroupContext Kem Framing Epoch KeySchedule Storage StateRepo GroupState Auth Psk Rules MessageProcessor Config Group Commit Join Snapshot Client.

Record ResumptionGroupParameters := {
  rp_group_id : bytes;
  rp_cipher_suite : Z;
  rp_version : Z;
  rp_extensions : ExtensionList.t;
}.

Record ReinitClient (S K P R : Type) := {
  rc_client : Client S K P R;
  rc_reinit : ReInitProposal;
  rc_psk_input : PskSecretInput;
}.
Arguments rc_client {S K P R}.
Arguments rc_reinit {S K P R}.
Arguments rc_psk_input {S K P R}.

(** The randomness of a new group: of the founder's leaf, of the epoch that precedes
    the first commit, and of that commit. *)
Record FoundingRandomness := { fr_leaf : bytes; fr_epoch : bytes; fr_commit : CommitRandomness }.

Section resumption.
Context {order : MapOrder} {S K P R : Type}.
Context `{!GroupStateStorage S} `{!KeyPackageStorage K} `{!PreSharedKeyStorage P} `{!MlsRules R}.
Notation ClientConfig := (ClientConfig S K P R).
Notation ReinitClient := (ReinitClient S K P R).
Notation Group := (Group S K P R).
Implicit Types (g : Group).

Definition set_previous_psk g (p : option PskSecretInput) : Group := {|
  g_config := g_config g; g_csp := g_csp g; state_repo := state_repo g; g_state := g_state g;
  g_epoch_secrets := g_epoch_secrets g; private_tree := private_tree g; g_key_schedule := g_key_schedule g;
  pending_updates := pending_updates g; g_pending_commit := g_pending_commit g; previous_psk := p; signer := signer g |}.

Definition resumption_psk_input g (u : ResumptionPSKUsage) (nonce_seed : bytes) : Result MlsError PskSecretInput :=
  n ← crypto (csp_random_bytes (g_csp g) nonce_seed (csp_kdf_extract_size (g_csp g)));
  Ok {| input_id := {| key_id := ResumptionPskId {| usage := u; psk_group_id := group_id (group_ctx g);
                                                   psk_epoch := epoch (group_ctx g) |};
                       psk_nonce := n |};
        input_psk := resumption_secret (g_epoch_secrets g) |}.

(** A failure discards the new group, so only the value is returned. *)
Definition resumption_create_group (config : ClientConfig) (packages : list MlsMessage) (p : ResumptionGroupParameters)
    (s : SigningIdentity) (sk : bytes) (psk : PskSecretInput) (rnd : FoundingRandomness) (now : Z)
    : Result MlsError (Group * list MlsMessage) :=
  g ← group_new config (Some (rp_group_id p)) (rp_cipher_suite p) (rp_version p) s (rp_extensions p) sk (fr_leaf rnd) []
    (fr_epoch rnd);
  let g := set_previous_psk g (Some psk) in
  b ← foldM add_member commit_builder packages;
  let '(o, g) := build g b (fr_commit rnd) now in
  o ← o;
  let '(d, g) := apply_pending_commit g in
  _ ← d;
  Ok (set_previous_psk g None, welcome_messages o).

Definition resumption_join_group (config : ClientConfig) (sk : bytes) (welcome : MlsMessage) (tree : option Node.NodeVec)
    (p : ResumptionGroupParameters) (verify_group_id : bool) (psk : PskSecretInput)
    : Result MlsError (Group * ExtensionList.t) :=
  '(g, e) ← from_welcome_message welcome tree config sk (Some psk);
  let c := group_ctx g in
  if negb (protocol_version c =? rp_version p) then Err ProtocolVersionMismatch
  else if negb (gc_cipher_suite c =? rp_cipher_suite p) then Err CipherSuiteMismatch
  else if verify_group_id && negb (bool_decide (group_id c = rp_group_id p)) then Err GroupIdMismatch
  else if negb (bool_decide (gc_extensions c = rp_extensions p)) then Err ReInitExtensionsMismatch
  else Ok (g, e).

(** ** Subgroups *)
Definition branch_parameters g (gid : bytes) : ResumptionGroupParameters := {|
  rp_group_id := gid; rp_cipher_suite := gc_cipher_suite (group_ctx g); rp_version := protocol_version (group_ctx g);
  rp_extensions := gc_extensions (group_ctx g) |}.

Definition branch g (sub_group_id : bytes) (packages : list MlsMessage) (nonce_seed : bytes) (rnd : FoundingRandomness) (now : Z)
    : Result MlsError (Group * list MlsMessage) :=
  s ← current_member_signing_identity g;
  psk ← resumption_psk_input g UsageBranch nonce_seed;
  resumption_create_group (g_config g) packages (branch_parameters g sub_group_id) s (signer g) psk rnd now.

Definition join_subgroup g (welcome : MlsMessage) (tree : option Node.NodeVec) (nonce_seed : bytes)
    : Result MlsError (Group * ExtensionList.t) :=
  psk ← resumption_psk_input g UsageBranch nonce_seed;
  resumption_join_group (g_config g) (signer g) welcome tree (branch_parameters g []) false psk.

(** ** Reinitialized groups *)
Definition reinit_parameters (r : ReInitProposal) : ResumptionGroupParameters := {|
  rp_group_id := reinit_group_id r; rp_cipher_suite := reinit_cipher_suite r; rp_version := reinit_version r;
  rp_extensions := reinit_extensions r |}.

Definition get_reinit_client g (new_signer : option bytes) (new_identity : option SigningIdentity) (nonce_seed : bytes)
    : Result MlsError ReinitClient :=
  psk ← resumption_psk_input g UsageReinit nonce_seed;
  s ← (match new_identity with Some s => Ok s | None => current_member_signing_identity g end);
  r ← ok_or (pending_reinit (g_state g)) PendingReInitNotFound;
  Ok {| rc_client := client_new (g_config g) (Some (default (signer g) new_signer)) (Some (s, reinit_cipher_suite r))
                       (reinit_version r);
        rc_reinit := r; rc_psk_input := psk |}.

Definition reinit_generate_key_package (c : ReinitClient) (init_seed leaf_seed : bytes) : Result MlsError MlsMessage * ReinitClient :=
  let '(m, client) := generate_key_package_message (rc_client c) init_seed leaf_seed in
  (m, {| rc_client := client; rc_reinit := rc_reinit c; rc_psk_input := rc_psk_input c |}).

(** [ReinitClient::commit]: the [unwrap]s are of fields that [get_reinit_client] sets. *)
Definition reinit_commit (c : ReinitClient) (packages : list MlsMessage) (rnd : FoundingRandomness) (now : Z)
    : Result MlsError (Group * list MlsMessage) :=
  x ← unwrap (cl_signing_identity (rc_client c));
  sk ← unwrap (cl_signer (rc_client c));
  resumption_create_group (cl_config (rc_client c)) packages (reinit_parameters (rc_reinit c)) x.1 sk (rc_psk_input c) rnd now.

Definition reinit_join (c : ReinitClient) (welcome : MlsMessage) (tree : option Node.NodeVec)
    : Result MlsError (Group * ExtensionList.t) :=
  sk ← unwrap (cl_signer (rc_client c));
  resumption_join_group (cl_config (rc_client c)) sk welcome tree (reinit_parameters (rc_reinit c)) true (rc_psk_input c).

(** ** Who can join *)

(** The resumption key of the member's own epoch, for a use, under a nonce. *)
Definition resumption_key g (u : ResumptionPSKUsage) (nonce : bytes) : PskSecretInput := {|
  input_id := {| key_id := ResumptionPskId {| usage := u; psk_group_id := group_id (group_ctx g); psk_epoch := epoch (group_ctx g) |};
                 psk_nonce := nonce |};
  input_psk := resumption_secret (g_epoch_secrets g) |}.

(** [h] was entered by the welcome message, and the secret of its pre-shared keys is
    that of the resumption key of [g] alone, under the nonce that the message names:
    with it and the joiner secret of the message its secrets were derived, and they
    have the confirmation tag of the message. *)
Definition joined_with_resumption g (u : ResumptionPSKUsage) (welcome : MlsMessage) h : Prop :=
  ∃ csp s id secret, entered_by_welcome welcome (g_config g) csp s secret h ∧ head (Framing.psks s) = Some id ∧
    psk_secret_calculate csp [resumption_key g u (psk_nonce id)] = Ok secret.

(** What is known of a successor that was joined. *)
Record successor (p : ResumptionGroupParameters) (verify_group_id : bool) (h : Group) : Prop := {
  sr_version : protocol_version (group_ctx h) = rp_version p;
  sr_cipher_suite : gc_cipher_suite (group_ctx h) = rp_cipher_suite p;
  sr_group_id : verify_group_id = true → group_id (group_ctx h) = rp_group_id p;
  sr_extensions : gc_extensions (group_ctx h) = rp_extensions p;
}.

Lemma join_group_successor config sk welcome tree p b psk h e :
  resumption_join_group config sk welcome tree p b psk = Ok (h, e) →
  successor p b h ∧ from_welcome_message welcome tree config sk (Some psk) = Ok (h, e).
Proof.
  unfold resumption_join_group. intros ([g' e'] & Hw & H)%bind_ok. cbv zeta in H.
  destruct (Z.eqb_spec (protocol_version (group_ctx g')) (rp_version p)) as [Hv|]; [|done]. cbn [negb] in H.
  destruct (Z.eqb_spec (gc_cipher_suite (group_ctx g')) (rp_cipher_suite p)) as [Hc|]; [|done]. cbn [negb] in H.
  destruct (b && _) eqn:Eb; [done|]. case_bool_decide as He; [|done]. injection H as <- <-. split; [split|]; try done.
  intros ->. cbn [andb] in Eb. apply negb_false_iff in Eb. by apply bool_decide_eq_true_1 in Eb.
Qed.

Lemma psk_input_key g u seed psk : resumption_psk_input g u seed = Ok psk → ∃ n, psk = resumption_key g u n.
Proof. unfold resumption_psk_input. intros (n & _ & [= <-])%bind_ok. by exists n. Qed.

Lemma welcome_resumption g u n welcome tree sk h e :
  from_welcome_message welcome tree (g_config g) sk (Some (resumption_key g u n)) = Ok (h, e) → joined_with_resumption g u welcome h.
Proof.
  intros (csp & s & secret & He & Hs)%welcome_enters. unfold welcome_psk_secret in Hs. apply bind_ok in Hs as (id & Hid%ok_or_ok & Hs).
  apply bind_unit_ok in Hs as [_ Hs]. by exists csp, s, id, secret.
Qed.

End resumption.
