(* ===== verification/Member.v ===== *)
(** * Every operation of a member (mls-rs/src/group/mod.rs, commit.rs)

    A member of a group proposes, commits, encrypts, receives and applies in any
    order.  [MemberOp] is the interface; whatever is called, and whether the calls
    succeed or fail, the member's public state is that of a run of the protocol's
    machine, and the group stays consistent with its configuration. *)
From S2P Require Import Prelude Codec Types TreeIndex Crypto Proposal GroupContext Kem Framing Epoch KeySchedule Storage StateRepo PrivateMessage GroupState Auth Psk Rules Provisional MessageProcessor ProcessorLaws Config Group GroupLaws Commit Join Snapshot Client Resumption.

Inductive MemberOp :=
  | Receive (now : Z) (m : MlsMessage)
  | ReceiveWithTime (now : Z) (m : MlsMessage) (time : Z)
  | ApplyPendingCommit
  | ClearPendingCommit
  | ClearProposalCache
  | ProposeAdd (key_package : MlsMessage) (aad seed : bytes)
  | ProposeUpdate (aad leaf_seed seed : bytes)
  | ProposeUpdateWithIdentity (sk : bytes) (s : SigningIdentity) (aad leaf_seed seed : bytes)
  | ProposeRemove (i : Z) (aad seed : bytes)
  | ProposeExternalPsk (id aad nonce_seed seed : bytes)
  | ProposeResumptionPsk (n : Z) (aad nonce_seed seed : bytes)
  | ProposeReInit (gid : option bytes) (version cipher_suite : Z) (exts : ExtensionList.t) (aad gid_seed seed : bytes)
  | ProposeExtensions (exts : ExtensionList.t) (aad seed : bytes)
  | ProposeCustom (p : CustomProposal) (aad seed : bytes)
  | Encrypt (message aad seed : bytes)
  | NextEncryptionKey
  | DeriveDecryptionKey (sender generation : Z)
  | WriteToStorage
  | BuildCommit (b : CommitBuilder) (rnd : CommitRandomness) (now : Z).

Section member.
Context {order : MapOrder} {S K P R : Type}.
Context `{!GroupStateStorage S} `{!KeyPackageStorage K} `{!PreSharedKeyStorage P} `{!MlsRules R}.
Notation Group := (Group S K P R).
Implicit Types (g : Group).

Definition apply_op g (op : MemberOp) : Group :=
  match op with
  | Receive now m => (group_process_incoming_message g now m).2
  | ReceiveWithTime now m time => (group_process_incoming_message_with_time g now m time).2
  | ApplyPendingCommit => (apply_pending_commit g).2
  | ClearPendingCommit => clear_pending_commit g
  | ClearProposalCache => clear_proposal_cache g
  | ProposeAdd k aad seed => (propose_add g k aad seed).2
  | ProposeUpdate aad leaf_seed seed => (propose_update g aad leaf_seed seed).2
  | ProposeUpdateWithIdentity sk s aad leaf_seed seed => (propose_update_with_identity g sk s aad leaf_seed seed).2
  | ProposeRemove i aad seed => (propose_remove g i aad seed).2
  | ProposeExternalPsk id aad nonce_seed seed => (propose_external_psk g id aad nonce_seed seed).2
  | ProposeResumptionPsk n aad nonce_seed seed => (propose_resumption_psk g n aad nonce_seed seed).2
  | ProposeReInit gid v cs exts aad gid_seed seed => (propose_reinit g gid v cs exts aad gid_seed seed).2
  | ProposeExtensions exts aad seed => (propose_group_context_extensions g exts aad seed).2
  | ProposeCustom p aad seed => (propose_custom g p aad seed).2
  | Encrypt message aad seed => (encrypt_application_message g message aad seed).2
  | NextEncryptionKey => (group_next_encryption_key g).2
  | DeriveDecryptionKey sender generation => (derive_decryption_key g sender generation).2
  | WriteToStorage => (group_write_to_storage g).2
  | BuildCommit b rnd now => (build g b rnd now).2
  end.

(** ** What every operation keeps *)
Record moves g g' : Prop := {
  mv_config : g_config g' = g_config g;
  mv_csp : g_csp g' = g_csp g;
  mv_repo : repo_group_id (state_repo g') = repo_group_id (state_repo g);
  mv_run : ∃ l, public_run (g_csp g) (g_state g) l (g_state g');
}.

#[global] Instance moves_refl : Reflexive moves.
Proof. intros g. split; try done. exists []. constructor. Qed.
#[global] Instance moves_trans : Transitive moves.
Proof.
  intros g1 g2 g3 [H1 H2 H3 (l & H4)] [H5 H6 H7 (k & H8)]. split; [congruence..|]. rewrite H2 in H8.
  exists (l ++ k). by eapply public_run_app.
Qed.

Lemma moves_same g g' :
  g_config g' = g_config g → g_csp g' = g_csp g → repo_group_id (state_repo g') = repo_group_id (state_repo g) →
  g_state g' = g_state g → moves g g'.
Proof. intros H1 H2 H3 H4. split; try done. exists []. rewrite H4. constructor. Qed.

(** A chain of calls moves when each of them does. *)
Lemma moves_bind {A B} (m : Result MlsError A * Group) (k : A → Group → Result MlsError B * Group) g :
  moves g m.2 → (∀ a h, moves h (k a h).2) → moves g (st_bind m k).2.
Proof. intros Hm Hk. destruct m as [[a| | |] h]; cbn in *; try done. by transitivity h. Qed.

Lemma moves_lift {A B} (r : Result MlsError A) (k : A → Group → Result MlsError B * Group) g :
  (∀ a, moves g (k a g).2) → moves g (st_bind (st_lift r g) k).2.
Proof. intros Hk. by destruct r; cbn. Qed.

(** ** Sending *)
Lemma seal_moves csp g a padding seed : moves g (seal csp g a padding seed).2.
Proof. destruct (seal_secrets csp g a padding seed) as (e & ->). by apply moves_same. Qed.

Lemma format_moves g a seed : moves g (format_for_wire g a seed).2.
Proof.
  unfold format_for_wire. apply moves_bind; [|done]. case_bool_decide.
  - apply moves_bind; [|done]. apply moves_lift. intros o. apply seal_moves.
  - by apply moves_lift.
Qed.

Lemma proposal_message_moves g p aad seed : moves g (proposal_message g p aad seed).2.
Proof.
  unfold proposal_message. do 3 (apply moves_lift; intros ?). etransitivity; [|apply format_moves]. split; try done.
  eexists. apply public_run_one. constructor.
Qed.

Lemma update_proposal_moves g sk s seed : moves g (update_proposal g sk s seed).2.
Proof. unfold update_proposal. do 2 (apply moves_lift; intros ?). case_match. by apply moves_same. Qed.

Lemma commit_internal_moves g rnd now ps leaf aad exts sk s : moves g (commit_internal g rnd now ps leaf aad exts sk s).2.
Proof.
  unfold commit_internal. destruct (has_pending_commit g); [done|]. case_bool_decide; [done|].
  apply moves_lift. intros p. apply moves_lift. intros [t ?].
  apply moves_bind. { unfold take_external_index. case_match; [|done]. apply moves_lift. intros i. by apply moves_same. }
  intros t1 g1. do 2 (apply moves_lift; intros ?). apply moves_lift. intros [psk ids].
  apply moves_lift. intros [[[content context] ks] tag]. do 2 (apply moves_lift; intros ?).
  apply moves_bind; [apply format_moves|]. intros m g2. apply moves_lift. intros h.
  destruct sk; by apply moves_same.
Qed.

(** ** Receiving *)
Lemma process_commit_moves g a time : moves g (process_commit g a time).2.
Proof.
  destruct (process_commit_public g a time) as [Hc (o & Ho)]. pose proof (commit_keeps g a time) as [Hconf Hrepo].
  split; [done|done|done|]. eexists. by apply public_run_one.
Qed.

Lemma process_content_moves g (e : EventOrContent ReceivedMessage) cache time :
  moves g (process_event_or_content g e cache time).2.
Proof.
  destruct e as [e|a]; [done|]. cbn [process_event_or_content]. unfold process_auth_content.
  destruct (fc_content (content a)) as [d|p|c].
  - done.
  - apply moves_bind; [|done]. unfold process_proposal. apply moves_lift. intros r.
    destruct cache; [|by apply moves_lift]. etransitivity; [|by apply moves_lift]. split; try done.
    eexists. apply public_run_one. constructor.
  - apply moves_bind; [apply process_commit_moves|done].
Qed.

Lemma process_message_moves g now m cache time : moves g (process_incoming_message_with_time g now m cache time).2.
Proof.
  unfold process_incoming_message_with_time. apply moves_bind; [|intros e h; apply process_content_moves].
  unfold get_event_from_incoming_message. apply moves_lift. intros _. destruct (payload m); try by apply moves_lift.
  - done.
  - cbn. apply moves_bind; [|done]. destruct (decrypt_core g m0). apply moves_same; try done. apply decrypt_repo.
Qed.

Lemma apply_pending_moves g : moves g (apply_pending_commit g).2.
Proof. unfold apply_pending_commit. apply moves_lift. intros c. apply process_commit_moves. Qed.

Lemma receive_moves g now m : moves g (group_process_incoming_message g now m).2.
Proof.
  unfold group_process_incoming_message. destruct (g_pending_commit g) as [c|]; [|apply process_message_moves].
  apply moves_lift. intros h. case_bool_decide; [|apply process_message_moves]. apply moves_bind; [apply apply_pending_moves|done].
Qed.

Lemma write_group (r : GroupStateRepository S K) data gid : repo_group_id (write_to_storage r data gid).2 = repo_group_id r.
Proof.
  unfold write_to_storage, st_lift. destruct (mapM_res _ _); cbn; [|done..]. destruct (mapM_res _ _); cbn; [|done..].
  destruct (from_codec_error data); cbn; [|done..]. destruct (storage_write _ _ _ _) as [w s]. destruct (group_storage w); cbn; [|done..].
  destruct (pending_key_package_removal r) as [id|]; cbn; [|done]. by destruct (kp_delete _ _) as [[] ?].
Qed.

Lemma op_moves g op : moves g (apply_op g op).
Proof.
  destruct op; cbn [apply_op].
  - apply receive_moves.
  - apply process_message_moves.
  - apply apply_pending_moves.
  - by apply moves_same.
  - split; try done. eexists. apply public_run_one. constructor.
  - apply moves_lift. intros p. apply proposal_message_moves.
  - apply moves_bind; [apply update_proposal_moves|]. intros p h. apply proposal_message_moves.
  - apply moves_bind; [apply update_proposal_moves|]. intros p h. apply proposal_message_moves.
  - apply moves_lift. intros p. apply proposal_message_moves.
  - apply moves_lift. intros p. apply proposal_message_moves.
  - apply moves_lift. intros p. apply proposal_message_moves.
  - apply moves_lift. intros p. apply proposal_message_moves.
  - apply proposal_message_moves.
  - apply proposal_message_moves.
  - unfold encrypt_application_message. case_match; [done|]. apply moves_lift. intros a. apply format_moves.
  - unfold group_next_encryption_key, next_encryption_key. case_match. by apply moves_same.
  - unfold derive_decryption_key, decryption_key. case_match. by apply moves_same.
  - unfold group_write_to_storage. pose proof (write_group (state_repo g) (mls_encode_to_vec snapshot_codec (group_snapshot g))
      (group_id (raw_context (snap_state (group_snapshot g))))) as H. destruct (write_to_storage _ _ _). by apply moves_same.
  - apply commit_internal_moves.
Qed.

Lemma moves_consistent g g' : moves g g' → group_consistent g → group_consistent g'.
Proof.
  intros [Hconf Hcsp Hrepo (l & Hl)] [Hp Hr Hc]. pose proof (public_run_facts _ _ _ _ Hl) as [_ _ _ Hs Hg _ _].
  unfold group_ctx in *. split; unfold group_ctx; [congruence|congruence|]. by eapply run_cache_matches.
Qed.

(** C8. Whatever a member does and whatever messages it is given, in any order and
    whether the calls succeed or fail, its public state is that of a run of the
    protocol's machine: there are commits such that the epoch has advanced by their
    number, both transcript hashes are those of these commits, and version, cipher
    suite and group identifier are what they were; between commits neither the context
    nor the tree changes; once a reinitialization is pending no commit is accepted any
    more.  And the group stays consistent: the provider is that of the group's cipher
    suite, the repository and the proposal cache are the group's. *)
Theorem member_follows_machine g ops :
  let g' := foldl apply_op g ops in
  (∃ l, public_run (g_csp g) (g_state g) l (g_state g') ∧ run_facts (g_csp g) (g_state g) l (g_state g')) ∧
  (group_consistent g → group_consistent g').
Proof.
  intros g'. assert (moves g g') as H.
  { subst g'. revert g. induction ops as [|op ops IH]; intros g; [done|]. cbn [foldl]. etransitivity; [apply op_moves|apply IH]. }
  split; [|by apply moves_consistent]. destruct (mv_run _ _ H) as (l & Hl). exists l. split; [done|]. by apply public_run_facts.
Qed.

(** ** Becoming a member *)

(** The groups a client can have: it founded them, joined them by a welcome message
    or by an external commit, created them as subgroup or successor of another, loaded
    them from storage, or went on with them. *)
Inductive reachable : Group → Prop :=
  | reach_new config gid cs v s exts sk s1 s2 s3 g : group_new config gid cs v s exts sk s1 s2 s3 = Ok g → reachable g
  | reach_welcome m tree config sk psk g exts : from_welcome_message m tree config sk psk = Ok (g, exts) → reachable g
  | reach_external b rnd now info g m : external_build b rnd now info = Ok (g, m) → reachable g
  | reach_successor config packages p s sk psk rnd now g ms :
      resumption_create_group config packages p s sk psk rnd now = Ok (g, ms) → reachable g
  | reach_loaded config gid g : load_group config gid = Ok g → reachable g
  | reach_op g op : reachable g → reachable (apply_op g op).

Lemma provider_for_ok (c : ClientConfig S K P R) n csp : cipher_suite_provider_for c n = Ok csp → crypto_provider c n = Some csp.
Proof. unfold cipher_suite_provider_for, ok_or. by destruct (crypto_provider c n); intros [= ->]. Qed.

Lemma new_consistent c gid n v s exts sk s1 s2 s3 g :
  group_new c gid n v s exts sk s1 s2 s3 = Ok g → group_consistent g ∧ g_config g = c.
Proof.
  unfold group_new. intros (csp & Hcsp%provider_for_ok & H)%bind_ok.
  apply bind_ok in H as ([leaf secret] & _ & H). apply bind_unit_ok in H as [_ H]. apply bind_ok in H as (t & _ & H).
  apply bind_ok in H as ([h t'] & _ & H). apply bind_ok in H as (gid' & _ & H). apply bind_ok in H as (r & _ & H).
  apply bind_ok in H as (tag & _ & H). apply bind_ok in H as (i & _ & [= <-]). split; [|done]. by split.
Qed.

Lemma join_with_consistent c i t k e p used sk g exts :
  join_with c i t k e p used sk = Ok (g, exts) → group_consistent g ∧ g_config g = c.
Proof.
  unfold join_with. intros (csp & Hcsp%provider_for_ok & H)%bind_ok. apply bind_ok in H as (h & _ & [= <- _]).
  split; [|done]. by split.
Qed.

Lemma welcome_consistent m tree c sk psk g exts :
  from_welcome_message m tree c sk psk = Ok (g, exts) → group_consistent g ∧ g_config g = c.
Proof.
  unfold from_welcome_message. intros [_ H]%bind_unit_ok. do 2 apply bind_ok in H as (? & _ & H).
  apply bind_ok in H as ([? k] & _ & H). apply bind_unit_ok in H as [_ H]. do 9 apply bind_ok in H as (? & _ & H).
  apply bind_ok in H as (ok & _ & H). apply bind_unit_ok in H as [_ H]. by apply join_with_consistent in H.
Qed.

Lemma receive_custom_moves csp g m g' : receive_custom_proposal csp g m = Ok g' → moves g g'.
Proof.
  unfold receive_custom_proposal. destruct (payload m) as [p| | | |]; try done. intros (x & _ & H)%bind_ok.
  pose proof (process_content_moves g (AuthContent (from_public_message p)) true None) as M.
  destruct (process_event_or_content _ _ _ _) as [r h]. by apply bind_ok in H as (d & _ & [= <-]).
Qed.

Lemma external_consistent b rnd now info g m : external_build b rnd now info = Ok (g, m) → group_consistent g.
Proof.
  unfold external_build. intros [_ H]%bind_unit_ok. do 5 apply bind_ok in H as (? & _ & H).
  do 2 apply bind_ok in H as ([? ?] & _ & H). apply bind_ok in H as ([g0 e] & Hj & H). apply join_with_consistent in Hj as [Hc _].
  apply bind_ok in H as (psks & _ & H). apply bind_ok in H as (g1 & Hf & H).
  assert (group_consistent g1) as Hc1.
  { revert Hf. apply foldM_invariant; [done|]. intros s a s' _ Hs Hr%receive_custom_moves. by eapply moves_consistent. }
  cbv zeta in H. destruct (commit_internal _ _ _ _ _ _ _ _ _) as [o g2] eqn:Eo. apply bind_ok in H as (o' & _ & H).
  destruct (apply_pending_commit g2) as [d g3] eqn:Ed. apply bind_ok in H as (d' & _ & [= <- _]).
  apply (moves_consistent g2); [|apply (moves_consistent g1); [|done]].
  - pose proof (apply_pending_moves g2) as M. by rewrite Ed in M.
  - match type of Eo with commit_internal ?a ?b ?c ?d ?e ?f ?g ?h ?i = _ => pose proof (commit_internal_moves a b c d e f g h i) as M end.
    by rewrite Eo in M.
Qed.

Lemma psk_consistent g psk : group_consistent g → group_consistent (set_previous_psk g psk).
Proof. intros [Hp Hr Hc]. by split. Qed.

Lemma successor_consistent c packages p s sk psk rnd now g ms :
  resumption_create_group c packages p s sk psk rnd now = Ok (g, ms) → group_consistent g.
Proof.
  unfold resumption_create_group. intros (g0 & H0 & H)%bind_ok. apply new_consistent in H0 as [Hc _].
  apply bind_ok in H as (b & _ & H). destruct (build _ _ _ _) as [o g1] eqn:Eb. apply bind_ok in H as (o' & _ & H).
  destruct (apply_pending_commit g1) as [d g2] eqn:Ed. apply bind_ok in H as (d' & _ & [= <- _]). apply psk_consistent.
  apply (moves_consistent g1); [pose proof (apply_pending_moves g1) as M; by rewrite Ed in M|].
  apply (moves_consistent (set_previous_psk g0 (Some psk))); [|by apply psk_consistent].
  assert (moves (set_previous_psk g0 (Some psk)) (build (set_previous_psk g0 (Some psk)) b (fr_commit rnd) now).2) as M
    by apply commit_internal_moves. by rewrite Eb in M.
Qed.

Lemma loaded_consistent c gid g : load_group c gid = Ok g → group_consistent g.
Proof.
  unfold load_group. intros (o & _ & H)%bind_ok. apply bind_ok in H as (b & _ & H). apply bind_ok in H as ([s rest] & _ & H).
  unfold from_snapshot in H. apply bind_ok in H as (csp & Hcsp%provider_for_ok & H). apply bind_ok in H as (st & Hst & [= <-]).
  unfold raw_import in Hst. apply bind_ok in Hst as (t & _ & [= <-]). by split.
Qed.

(** C22. However a client came to have a group, by founding it, by a welcome message, by
    an external commit, as a subgroup or successor of another group, from storage, or by any operations on such a group, whether
    they succeeded or failed: its provider is the one its configuration has for the
    group's cipher suite, its repository keeps the epochs of this group, and its
    proposal cache is for this group and protocol version. *)
Theorem reachable_consistent g : reachable g → group_consistent g.
Proof.
  induction 1 as [c gid n v s exts sk s1 s2 s3 g H|m tree c sk psk g exts H|b rnd now info g m H|c packages p s sk psk rnd now g ms H|c gid g H|g op _ IH].
  - by apply new_consistent in H as [].
  - by apply welcome_consistent in H as [].
  - by eapply external_consistent.
  - by eapply successor_consistent.
  - by eapply loaded_consistent.
  - eapply moves_consistent; [apply op_moves|done].
Qed.
End member.
