(* ===== verification/Agreement.v ===== *)
(** * Agreement of the members of an epoch (mls-rs/src/group/mod.rs, key_schedule.rs,
    confirmation_tag.rs)

    A member enters an epoch by processing a commit, its own or another's, or by a
    welcome message; either way it compares the confirmation tag it was given with
    the one of the secrets it derived.  The theorem: whoever enters an epoch under
    the same tag is in the same epoch, whatever state it came from and whichever way
    it entered: same group context, same secrets; unless two of the calls that were
    made to get to the tags collide. *)
From Stdlib Require Import Strings.String.
From S2P Require Import Prelude Codec Types Node TreeIndex Crypto Labels TreeHash Proposal GroupContext Kem SecretTree Framing Epoch KeySchedule Storage StateRepo GroupState Auth Psk Rules Provisional MessageProcessor ProcessorLaws Config Group GroupLaws Commit Join.

(** ** The calls of the key schedule *)
Inductive key_call := ExpandOf (prk info : bytes) | MacOf (key data : bytes).

#[global] Instance key_call_eq_dec : EqDecision key_call.
Proof. solve_decision. Defined.

Definition key_call_output (csp : CipherSuiteProvider) (c : key_call) : AnyError + bytes :=
  match c with ExpandOf prk info => csp_kdf_expand csp prk info (csp_kdf_extract_size csp) | MacOf key data => csp_mac csp key data end.

Definition same_function (c c' : key_call) : Prop :=
  match c, c' with ExpandOf _ _, ExpandOf _ _ | MacOf _ _, MacOf _ _ => True | _, _ => False end.

(** From a joiner secret, the secret of the pre-shared keys and a group context to the
    confirmation tag: the epoch secret, the confirmation key, the tag. *)
Definition confirmation_calls (csp : CipherSuiteProvider) (joiner psk : bytes) (c : GroupContext) : list key_call :=
  let size := csp_kdf_extract_size csp in
  default [] (result_ok (
    seed ← crypto (csp_kdf_extract csp joiner psk);
    encoded ← from_codec_error (mls_encode_to_vec group_context_codec c);
    info ← from_codec_error (kdf_label size (ascii "epoch") encoded);
    epoch_secret ← crypto (csp_kdf_expand csp seed info size);
    confirm ← from_codec_error (kdf_label size (ascii "confirm") []);
    key ← crypto (csp_kdf_expand csp epoch_secret confirm size);
    Ok [MacOf key (confirmed_transcript_hash c); ExpandOf epoch_secret confirm; ExpandOf seed info])).

(** Two different calls of one function among those made, with the same output. *)
Definition key_collision (csp : CipherSuiteProvider) (l l' : list key_call) : Prop :=
  ∃ c c' b, c ∈ l ∧ c' ∈ l' ∧ same_function c c' ∧ c ≠ c' ∧ key_call_output csp c = inr b ∧ key_call_output csp c' = inr b.

(** ** The key schedule *)
Lemma epoch_secret_shared csp s n n' r r' :
  from_epoch_secret csp s n = Ok r → from_epoch_secret csp s n' = Ok r' →
  key_schedule r = key_schedule r' ∧ resumption_secret (KeySchedule.epoch_secrets r) = resumption_secret (KeySchedule.epoch_secrets r') ∧
  sender_data_secret (KeySchedule.epoch_secrets r) = sender_data_secret (KeySchedule.epoch_secrets r') ∧
  (n = n' → KeySchedule.epoch_secrets r = KeySchedule.epoch_secrets r').
Proof.
  intros H H'. unfold from_epoch_secret in H, H'.
  do 9 (let x := fresh in let E := fresh in apply bind_ok in H as (x & E & H); rewrite E in H'; cbn [mbind result_bind] in H'). injection H as <-. injection H' as <-.
  cbn. split_and!; try done. by intros ->.
Qed.

(** What a derivation that succeeds has computed. *)
Lemma joiner_calls csp j c n psk r : from_joiner csp j c n psk = Ok r →
  ∃ seed encoded info s i, mls_encode_to_vec group_context_codec c = Ok encoded ∧
    kdf_label (csp_kdf_extract_size csp) (ascii "epoch") encoded = Ok info ∧
    csp_kdf_expand csp seed info (csp_kdf_extract_size csp) = inr s ∧
    csp_kdf_expand csp s i (csp_kdf_extract_size csp) = inr (confirmation_key r) ∧ from_epoch_secret csp s n = Ok r ∧
    confirmation_calls csp j psk c = [MacOf (confirmation_key r) (confirmed_transcript_hash c); ExpandOf s i; ExpandOf seed info].
Proof.
  unfold from_joiner, get_pre_epoch_secret, confirmation_calls. intros (seed & Hseed & H)%bind_ok. rewrite Hseed. cbn [mbind result_bind].
  apply bind_ok in H as (b & Hb & H). rewrite Hb. cbn [mbind result_bind]. apply bind_ok in H as (s & Hs & Hr).
  apply bind_ok in Hs as (info & Hinfo & Hs). cbn [default] in Hinfo, Hs. rewrite Hinfo. cbn [mbind result_bind]. rewrite Hs. cbn [mbind result_bind].
  assert (produce csp s (ascii "confirm") = Ok (confirmation_key r)) as Hc.
  { clear -Hr. unfold from_epoch_secret in Hr. do 9 (apply bind_ok in Hr as (? & ? & Hr)). by injection Hr as <-. }
  apply bind_ok in Hc as (i & Hi & Hc). cbn [default] in Hi, Hc. rewrite Hi. cbn [mbind result_bind]. rewrite Hc. cbn [mbind result_bind result_ok default].
  exists seed, b, info, s, i. apply from_codec_inv in Hb, Hinfo. apply crypto_ok in Hs, Hc. by split_and!.
Qed.

(** Two key schedules whose confirmation tags agree are the same, of the same group
    context, or the derivations collide. *)
Lemma confirmation_tag_pins csp j j' c c' n n' psk psk' r r' tag :
  group_context_wf c → group_context_wf c' →
  from_joiner csp j c n psk = Ok r → from_joiner csp j' c' n' psk' = Ok r' →
  csp_mac csp (confirmation_key r) (confirmed_transcript_hash c) = inr tag →
  csp_mac csp (confirmation_key r') (confirmed_transcript_hash c') = inr tag →
  (c = c' ∧ key_schedule r = key_schedule r' ∧
   resumption_secret (KeySchedule.epoch_secrets r) = resumption_secret (KeySchedule.epoch_secrets r') ∧
   sender_data_secret (KeySchedule.epoch_secrets r) = sender_data_secret (KeySchedule.epoch_secrets r') ∧
   (n = n' → KeySchedule.epoch_secrets r = KeySchedule.epoch_secrets r')) ∨
  key_collision csp (confirmation_calls csp j psk c) (confirmation_calls csp j' psk' c').
Proof.
  intros Hc Hc' (seed & b & info & s & i & Hb & Hinfo & Hs & Hk & Hr & ->)%joiner_calls
    (seed' & b' & info' & s' & i' & Hb' & Hinfo' & Hs' & Hk' & Hr' & ->)%joiner_calls Ht Ht'.
  destruct (decide (MacOf (confirmation_key r) (confirmed_transcript_hash c) = MacOf (confirmation_key r') (confirmed_transcript_hash c'))) as [[= Ek _]|Hne].
  2:{ right. do 2 eexists. exists tag. split_and!; [by left|by left|done|done|done|done]. }
  destruct (decide (ExpandOf s i = ExpandOf s' i')) as [[= -> ->]|Hne].
  2:{ right. do 2 eexists. exists (confirmation_key r). split_and!; [by right; left|by right; left|done|done|done|]. cbn. by rewrite Ek. }
  destruct (decide (ExpandOf seed info = ExpandOf seed' info')) as [[= -> ->]|Hne].
  2:{ right. do 2 eexists. exists s'. split_and!; [by right; right; left|by right; right; left|done|done|done|done]. }
  left. destruct (kdf_label_inj _ _ _ _ _ _ Hinfo Hinfo') as [_ ->].
  split; [by eapply (encode_inj group_context_codec group_context_wf)|]. by eapply epoch_secret_shared.
Qed.

(** ** Entering an epoch *)
Section agreement.
Context {order : MapOrder} {S K P R : Type}.
Context `{!GroupStateStorage S} `{!KeyPackageStorage K} `{!PreSharedKeyStorage P} `{!MlsRules R}.
Notation Group := (Group S K P R).
Implicit Types (g h : Group).

(** The joiner secret and the secret of the pre-shared keys that processing a commit
    computes: the steps of [process_commit] up to the key schedule. *)
Definition commit_joiner g (a : AuthenticatedContent) (time : option Z) : Result MlsError (bytes * bytes) :=
  let csp := g_csp g in
  '(_, confirmed) ← transcript_hashes csp (interim_transcript_hash (g_state g)) a;
  c ← (match fc_content (content a) with CommitContent c => Ok c | _ => Err UnexpectedMessageType end);
  p ← provisional_of_commit g a c time;
  sender ← commit_sender (fc_sender (content a)) p;
  u ← make_state_update g p (commit_path c) sender;
  let '(x, g1) := process_path g p (commit_path c) sender time in
  '(secrets, p1) ← x;
  p2 ← finish_context csp p1 confirmed sender;
  let '(g2, p3, _) := take_reinit g1 p2 u in
  let g3 := with_path_keys g2 secrets in
  let commit_secret := match secrets with Some (_, s) => s | None => Kem.path_secret_empty csp end in
  k ← commit_key_schedule g3 p3;
  '(psk, _) ← get_psk g3 (Proposal.psks (ps_applied p3));
  r ← from_key_schedule csp k commit_secret (ps_context p3) (Node.total_leaf_count (TreeHash.nodes (ps_tree p3))) psk;
  Ok (joiner_secret r, psk).

(** The ways into an epoch in which a confirmation tag is compared, with the joiner
    secret and the secret of the pre-shared keys: a commit that is accepted (with which
    an external commit also ends), and a welcome message. *)
Inductive enters_with (csp : CipherSuiteProvider) : Group → bytes → bytes → Prop :=
  | by_commit g a time d h joiner psk : g_csp g = csp → process_commit g a time = (Ok d, h) → goes_on a time g →
      commit_joiner g a time = Ok (joiner, psk) → enters_with csp h joiner psk
  | by_welcome m tree config sk additional h e s psk : from_welcome_message m tree config sk additional = Ok (h, e) →
      opened_welcome m config = Ok (csp, s) → welcome_psk_secret config csp (Framing.psks s) additional = Ok psk →
      enters_with csp h (Framing.joiner_secret s) psk.

Definition tree_size h : Z := Node.total_leaf_count (TreeHash.nodes (public_tree (g_state h))).

(** The secrets of [h] are those of its context, a joiner secret and a secret of
    pre-shared keys, and have the confirmation tag of [h]. *)
Definition confirmed (csp : CipherSuiteProvider) h (joiner psk : bytes) : Prop :=
  ∃ r, from_joiner csp joiner (group_ctx h) (tree_size h) psk = Ok r ∧ g_key_schedule h = key_schedule r ∧
    g_epoch_secrets h = KeySchedule.epoch_secrets r ∧
    csp_mac csp (confirmation_key r) (confirmed_transcript_hash (group_ctx h)) = inr (gs_confirmation_tag (g_state h)).

(** The key schedule of a commit starts from the values of [commit_joiner]. *)
Lemma schedule_confirmed g secrets interim tag p g' :
  group_update_key_schedule g secrets interim tag p = (Ok tt, g') →
  ∃ k psk ids r, commit_key_schedule (with_path_keys g secrets) p = Ok k ∧
    get_psk (with_path_keys g secrets) (Proposal.psks (ps_applied p)) = Ok (psk, ids) ∧
    from_key_schedule (g_csp g) k (match secrets with Some (_, s) => s | None => Kem.path_secret_empty (g_csp g) end)
      (ps_context p) (Node.total_leaf_count (TreeHash.nodes (ps_tree p))) psk = Ok r ∧ confirmed (g_csp g) g' (joiner_secret r) psk.
Proof.
  unfold group_update_key_schedule. set (g1 := with_path_keys g secrets).
  assert (match secrets with Some (t, s) => (set_private_tree g t, s) | None => (g, Kem.path_secret_empty (g_csp g)) end =
    (g1, match secrets with Some (_, s) => s | None => Kem.path_secret_empty (g_csp g) end)) as -> by (by destruct secrets as [[]|]).
  unfold st_lift. intros (k & g2 & [= Hk <-] & H)%st_bind_ok. apply st_bind_ok in H as ([psk ids] & g2 & [= Hp <-] & H).
  apply st_bind_ok in H as (r & g2 & [= Hr <-] & H). apply st_bind_ok in H as (t & g2 & [= Ht <-] & H).
  case_bool_decide as Htag; [|done]. cbn [negb] in H. destruct (repo_insert _ _) as [ins repo].
  apply st_bind_ok in H as ([] & g2 & [= _ <-] & [= <-]). exists k, psk, ids, r. split_and!; [done..|].
  unfold from_key_schedule in Hr. apply bind_ok in Hr as (x & _ & Hr). apply bind_ok in Hr as (b & _ & Hr).
  apply bind_ok in Hr as (j & _ & Hr). apply bind_ok in Hr as (r' & Hr' & [= <-]). exists r'. split_and!; try done. by apply crypto_ok.
Qed.

Lemma commit_confirmed g a time d h :
  process_commit g a time = (Ok d, h) → goes_on a time g →
  ∃ joiner psk, commit_joiner g a time = Ok (joiner, psk) ∧ confirmed (g_csp g) h joiner psk.
Proof.
  intros Hc (c & interim & cf & p & sender & u & Hread & Hgo). rewrite (commit_read_runs _ _ _ _ _ _ _ _ _ Hread), Hgo in Hc.
  destruct Hread as [_ Hh Hcc Hp Hs Hu _]. unfold rest_of_commit, commit_joiner in *. cbn [mp_cipher_suite_provider group_state group_processor] in *.
  rewrite Hh, Hcc. cbn [mbind result_bind]. rewrite Hp. cbn [mbind result_bind]. rewrite Hs. cbn [mbind result_bind]. rewrite Hu. cbn [mbind result_bind].
  apply st_bind_ok in Hc as ([secrets p1] & g1 & Hpath & Hc). pose proof (process_path_state g p (commit_path c) sender time) as (_ & Hcsp & _).
  rewrite Hpath in Hcsp |- *. cbn [mbind result_bind snd mp_cipher_suite_provider group_processor] in *.
  apply st_bind_ok in Hc as (p2 & g2 & [= Hp2 <-] & Hc). rewrite Hp2. cbn [mbind result_bind].
  assert (g_csp (take_reinit g1 p2 u).1.1 = g_csp g) as Hcsp2 by (unfold take_reinit; destruct (pop _) as [[]]; done).
  destruct (take_reinit g1 p2 u) as [[g2 p3] u']. cbn [fst] in Hcsp2. destruct (confirmation_tag (auth a)) as [tag|]; [|done].
  apply st_bind_ok in Hc as ([] & g3 & Hk & [= _ <-]). apply schedule_confirmed in Hk as (k & psk & ids & r & Hk & Hq & Hr & Hconf).
  rewrite Hcsp2 in *. rewrite Hk. cbn [mbind result_bind]. rewrite Hq. cbn [mbind result_bind]. rewrite Hr. cbn [mbind result_bind].
  by exists (joiner_secret r), psk.
Qed.

Lemma enters_confirmed csp h joiner psk : enters_with csp h joiner psk → confirmed csp h joiner psk.
Proof.
  intros [g a time d h' j q <- Hp Hg Hj|m tree config sk additional h' e s q Hw Ho Hq].
  - destruct (commit_confirmed _ _ _ _ _ Hp Hg) as (j' & q' & Hj' & Hc). rewrite Hj in Hj'. by injection Hj' as <- <-.
  - apply welcome_enters in Hw as (csp' & s' & q' & [Ho' (r & Hr & Hk & He & Ht)] & Hq'). rewrite Ho in Ho'. injection Ho' as <- <-.
    rewrite Hq in Hq'. injection Hq' as <-. by exists r.
Qed.

(** C4. Agreement.  Take two members that entered an epoch under the same confirmation tag,
    by whatever commits or welcome messages and from whatever states, with group
    contexts whose numbers are within their widths.  They have the same
    group context (version, suite, group, epoch, tree hash, transcript, extensions)
    and the same secrets: those for exporting, for authentication, for external
    commits, for membership tags, for the next epoch, for resumption and for sender
    data; and, their trees being of one size, the same secret tree.  Or else the
    derivations of the two, from the joiner secret and the pre-shared keys that each
    entered with, met a collision: among the three calls that led each of them to its
    tag (of the key derivation for the epoch secret and the confirmation key, and of
    the MAC) are two different ones of the same function with the same output. *)
Theorem same_tag_same_epoch csp h1 h2 joiner1 joiner2 psk1 psk2 :
  enters_with csp h1 joiner1 psk1 → enters_with csp h2 joiner2 psk2 →
  group_context_wf (group_ctx h1) → group_context_wf (group_ctx h2) →
  gs_confirmation_tag (g_state h1) = gs_confirmation_tag (g_state h2) →
  (group_ctx h1 = group_ctx h2 ∧ g_key_schedule h1 = g_key_schedule h2 ∧
   resumption_secret (g_epoch_secrets h1) = resumption_secret (g_epoch_secrets h2) ∧
   sender_data_secret (g_epoch_secrets h1) = sender_data_secret (g_epoch_secrets h2) ∧
   (tree_size h1 = tree_size h2 → g_epoch_secrets h1 = g_epoch_secrets h2)) ∨
  key_collision csp (confirmation_calls csp joiner1 psk1 (group_ctx h1)) (confirmation_calls csp joiner2 psk2 (group_ctx h2)).
Proof.
  intros (r & Hr & -> & -> & Ht)%enters_confirmed (r' & Hr' & -> & -> & Ht')%enters_confirmed Hw Hw' Htag.
  rewrite <- Htag in Ht'. by apply (confirmation_tag_pins csp _ _ _ _ _ _ _ _ _ _ _ Hw Hw' Hr Hr' Ht Ht').
Qed.
End agreement.
