(* ===== verification/Observer.v ===== *)
(** * Observers follow members (mls-rs/src/external_client/group.rs, group/message_processor.rs)

    The theorem: an observer that is given the public messages a member processes
    has, after each of them, the public state of the member. *)
From S2P Require Import Prelude Codec Types Node TreeIndex Crypto TreeHash ParentHash Proposal TreeKem GroupContext Validator Kem Framing Epoch KeySchedule Storage StateRepo PrivateMessage GroupState Auth ProposalFilter Psk Rules Provisional MessageProcessor ProcessorLaws Config Group GroupLaws Snapshot External Member.
Import Node TreeHash ParentHash.

(** ** Pre-shared keys *)

(** What passes the checks with one storage of keys passes them with one that finds
    every key. *)
Lemma retain_psks_found {P P'} `{!PreSharedKeyStorage P} `{!PreSharedKeyStorage P'} csp (store : P) (store' : P') seen l r :
  (∀ id, ∃ k, psk_get store' id = inr (Some k)) →
  retain_psks csp store IgnoreNone seen l = Ok r → retain_psks csp store' IgnoreNone seen l = Ok r.
Proof.
  intros Hf. revert seen r. induction l as [|p l IH]; intros seen r; [done|]. cbn [retain_psks].
  intros (k & Hk & H)%bind_ok. apply bind_ok in H as (rest & Hrest & [= <-]). rewrite (IH _ _ Hrest).
  enough (keep IgnoreNone (check_psk csp store' seen) p = Ok k) as -> by done. revert Hk. unfold keep, check_psk.
  destruct (negb (psk_kind_valid _)); [done|]. destruct (negb (_ =? _)); [done|]. case_bool_decide; [done|].
  unfold external_id_is_valid. destruct (key_id (proposal p)) as [id|]; [|done]. destruct (Hf id) as [x ->].
  by destruct (psk_get store id) as [|[]].
Qed.

Lemma invalid_psks_found {P P'} `{!PreSharedKeyStorage P} `{!PreSharedKeyStorage P'} csp (store : P) (store' : P') b b' :
  (∀ id, ∃ k, psk_get store' id = inr (Some k)) →
  filter_out_invalid_psks csp store IgnoreNone b = Ok b' → filter_out_invalid_psks csp store' IgnoreNone b = Ok b'.
Proof.
  intros Hf. unfold filter_out_invalid_psks. intros (ps & Hps & [= <-])%bind_ok. by rewrite (retain_psks_found _ _ _ _ _ _ Hf Hps).
Qed.

Lemma apply_resolved_found {order : MapOrder} {P P' R} `{!PreSharedKeyStorage P} `{!PreSharedKeyStorage P'} `{!MlsRules R}
    ip csp (store : P) (store' : P') (user_rules : R) state sender b leaf time p :
  (∀ id, ∃ k, psk_get store' id = inr (Some k)) →
  apply_resolved ip csp store user_rules state sender b leaf time Rules.Receive = Ok p →
  apply_resolved ip csp store' user_rules state sender b leaf time Rules.Receive = Ok p.
Proof.
  intros Hf. unfold apply_resolved. intros (o & Ho & H)%bind_ok. rewrite Ho. cbn [mbind result_bind].
  apply bind_ok in H as (b' & Hb & H). rewrite Hb. cbn [mbind result_bind]. apply bind_ok in H as (out & Hout & H).
  enough (apply_proposals (applier ip csp store' state leaf) (strategy_of Rules.Receive) sender b' time = Ok out) as -> by exact H.
  clear H. revert Hout. unfold apply_proposals. intros (x & Hx & H)%bind_ok.
  enough (match sender with
          | Member i => apply_proposals_from_member (applier ip csp store' state leaf) (strategy_of Rules.Receive) i b' time
          | NewMemberCommit => apply_proposals_from_new_member (applier ip csp store' state leaf) b' time
          | _ => Err ExternalSenderCannotCommit
          end = Ok x) as -> by exact H.
  clear H. cbn [strategy_of] in *. destruct sender as [i| | |]; try done.
  - unfold apply_proposals_from_member, check_member_proposals in *. apply bind_ok in Hx as (c & Hc & Hx).
    apply bind_ok in Hc as (b1 & H1 & Hc). apply bind_ok in Hc as (b2 & H2 & Hc). apply bind_ok in Hc as (l & H3 & Hc). cbv zeta in Hc.
    apply bind_ok in Hc as (b3 & H4 & Hc). apply bind_ok in Hc as (b4 & H5 & Hc). apply (invalid_psks_found _ _ _ _ _ Hf) in H5.
    rewrite H1. cbn [mbind result_bind]. rewrite H2. cbn [mbind result_bind]. rewrite H3. cbn [mbind result_bind].
    rewrite H4. cbn [mbind result_bind]. cbn [cipher_suite_provider psk_storage applier] in *. rewrite H5. cbn [mbind result_bind].
    cbn [identity_provider pa_protocol_version applier] in *. rewrite Hc. cbn [mbind result_bind]. exact Hx.
  - unfold apply_proposals_from_new_member, check_new_member_proposals in *. cbn [external_leaf applier] in *.
    apply bind_ok in Hx as (lf & Hl & Hx). rewrite Hl. cbn [mbind result_bind]. apply bind_ok in Hx as (c & Hc & Hx).
    apply bind_unit_ok in Hc as [H1 Hc]. apply bind_unit_ok in Hc as [H2 Hc]. apply bind_unit_ok in Hc as [H3 Hc].
    apply bind_unit_ok in Hc as [H4 Hc]. apply bind_ok in Hc as (b5 & H5 & Hc). apply (invalid_psks_found _ _ _ _ _ Hf) in Hc.
    rewrite H1. cbn [mbind result_bind]. unfold ensure_at_most_one_removal_for_self, ensure_removal_is_for_self in *.
    cbn [identity_provider original_tree original_group_extensions applier] in *. rewrite H2. cbn [mbind result_bind].
    rewrite H3. cbn [mbind result_bind]. rewrite H4. cbn [mbind result_bind]. rewrite H5. cbn [mbind result_bind].
    cbn [cipher_suite_provider psk_storage applier] in *. rewrite Hc. cbn [mbind result_bind]. exact Hx.
Qed.

(** ** The hashes of the tree *)
Lemma vec_store_len {E} (l l' : list bytes) i b : vec_store (E:=E) l i b = Ok l' → len l' = len l.
Proof. unfold vec_store. destruct (_ && _); [|done]. intros [= <-]. apply len_vec_set. Qed.

Lemma hash_leaf_len csp nodes f n hs q l hs' q' :
  hash_leaf_step csp nodes f n (hs, q) l = Ok (hs', q') → len hs' = len hs.
Proof. intros (h & _ & H)%bind_ok. by apply bind_ok in H as (hs1 & Hs%vec_store_len & [= <- _]). Qed.

Lemma hash_queue_len fuel csp nodes f n hs q hs' : hash_queue fuel csp nodes f n hs q = Ok hs' → len hs' = len hs.
Proof.
  revert hs q. induction fuel as [|fuel IH]; intros hs [|x q]; cbn [hash_queue]; try by intros [= <-].
  intros (a & _ & H)%bind_ok. apply bind_ok in H as (b & _ & H). apply bind_ok in H as (h & _ & H).
  apply bind_ok in H as (hs1 & Hs%vec_store_len & H). apply IH in H. congruence.
Qed.

Lemma tree_hash_len csp hs nodes L f n hs' : tree_hash csp hs nodes L f n = Ok hs' → len hs' = len (vec_resize hs (n * 2 - 1) []).
Proof.
  unfold tree_hash. intros ([hs1 q] & Hf & H%hash_queue_len)%bind_ok. rewrite H.
  revert Hf. apply (foldM_invariant _ (λ s, len s.1 = len (vec_resize hs (n * 2 - 1) []))); [done|].
  intros [a b] l [c d] _ Ha Hl%hash_leaf_len. cbn in *. congruence.
Qed.

Lemma update_hashes_filled csp t L t' : update_hashes csp t L = Ok t' → tree_hashes t' ≠ [].
Proof.
  unfold update_hashes. intros (hs & Hl%tree_hash_len & [= <-])%bind_ok. cbn. intros ->. revert Hl.
  unfold total_leaf_count, next_power_of_two, vec_resize, len. rewrite length_resize. cbn.
  pose proof (Z.pow_pos_nonneg 2 (Z.log2_up (u32 (Z.of_nat (length (nodes t))) / 2 + 1)) ltac:(lia) (Z.log2_up_nonneg _)). lia.
Qed.

Lemma root_hash_filled csp t h t' : tree_hashes t ≠ [] → root_hash csp t = Ok (h, t') → t' = t.
Proof.
  intros Ht. unfold root_hash, initialize_hashes. rewrite bool_decide_eq_false_2 by done. cbn [mbind result_bind].
  by intros (x & _ & [= _ <-])%bind_ok.
Qed.

Lemma public_path_filled ip csp sender v p p' : public_apply_update_path ip csp sender v p = Ok p' → tree_hashes (ps_tree p') ≠ [].
Proof.
  unfold public_apply_update_path. intros (t & Ht & [= <-])%bind_ok. cbn. unfold TreeKem.apply_update_path in Ht.
  do 5 apply bind_ok in Ht as (? & _ & Ht). cbv zeta in Ht. destruct (TreeIndex.index_insert _ _ _ _ _) as [r ti].
  apply bind_ok in Ht as (? & _ & Ht). unfold update_parent_hashes in Ht. apply bind_ok in Ht as (? & _ & Ht).
  apply bind_ok in Ht as ([? ?] & _ & Ht). do 4 apply bind_ok in Ht as (? & _ & Ht). by apply update_hashes_filled in Ht.
Qed.

Section observer.
Context {order : MapOrder} {S K P R : Type}.
Context `{!GroupStateStorage S} `{!KeyPackageStorage K} `{!PreSharedKeyStorage P} `{!MlsRules R}.
Notation Group := (Group S K P R).
Notation ExternalGroup := (ExternalGroup R).
Implicit Types (g : Group) (x : ExternalGroup).

(** An observer with the public state of a member, the same providers and the same
    rules. *)
Record watches g x : Prop := {
  w_state : eg_state x = g_state g;
  w_csp : eg_csp x = g_csp g;
  w_identity : ex_identity_provider (eg_config x) = cfg_identity_provider (g_config g);
  w_rules : ex_mls_rules (eg_config x) = cfg_mls_rules (g_config g);
}.

Lemma member_path g sender v p secrets p' g1 :
  group_apply_update_path g sender v p = (Ok (secrets, p'), g1) →
  ∃ p0 h, public_apply_update_path (cfg_identity_provider (g_config g)) (g_csp g) sender v p = Ok p0 ∧
    p' = set_context p0 (with_tree_hash (ps_context p0) h).
Proof.
  unfold group_apply_update_path. intros ([t s] & g2 & [= _ <-] & H)%st_bind_ok.
  set (g2 := match s with Some _ => _ | None => g end) in H.
  assert (g_config g2 = g_config g) as Hc by (by subst g2; destruct s). apply st_bind_ok in H as (p0 & g3 & [= Hp <-] & H).
  rewrite Hc in Hp. exists p0. destruct (sender =? _).
  - apply st_bind_ok in H as (pending & g4 & _ & [= _ <- _]). exists (GroupContext.tree_hash (ps_context p0)). split; [done|].
    by destruct p0 as [? ? [] ? ? ?].
  - injection H as H _. apply bind_ok in H as ([h t'] & Ht & H). apply bind_ok in H as (b & _ & H).
    apply bind_ok in H as ([r t2] & _ & [= _ <-]). exists h. split; [done|].
    apply root_hash_filled in Ht as ->; [|by eapply public_path_filled]. by destruct p0.
Qed.

Lemma finish_hash csp p h confirmed sender :
  finish_context csp (set_context p (with_tree_hash (ps_context p) h)) confirmed sender = finish_context csp p confirmed sender.
Proof. done. Qed.

Lemma observer_path g x p path sender time secrets p' g1 confirmed :
  watches g x → process_path g p path sender time = (Ok (secrets, p'), g1) →
  ∃ p1, process_path x p path sender time = (Ok (None, p1), x) ∧
    finish_context (g_csp g) p1 confirmed sender = finish_context (g_csp g) p' confirmed sender ∧
    g_state g1 = g_state g ∧ g_csp g1 = g_csp g.
Proof.
  intros [Hs Hcsp Hip _] H. pose proof (process_path_state g p path sender time) as (H1 & H2 & _). rewrite H in H1, H2.
  cbn in H1, H2. destruct path as [path|]; cbn [process_path] in *.
  - cbn [mp_identity_provider mp_cipher_suite_provider external_processor group_processor] in *. rewrite Hip, Hcsp.
    apply st_bind_ok in H as (v & g2 & [= Hv <-] & H). unfold st_lift. rewrite Hv. cbn [st_bind]. cbn [mp_apply_update_path external_processor group_processor] in *.
    apply member_path in H as (p0 & h & Hp & ->). exists p0. unfold st_lift. rewrite Hip, Hcsp, Hp. by split_and!.
  - injection H as <- <- <-. by exists p.
Qed.

Lemma observer_provisional g x a commit time p :
  watches g x → provisional_of_commit g a commit time = Ok p → provisional_of_commit x a commit time = Ok p.
Proof.
  intros [Hs Hcsp Hip Hr]. unfold provisional_of_commit.
  cbn [group_state mls_rules mp_identity_provider mp_cipher_suite_provider mp_psk_storage external_processor group_processor].
  rewrite Hs, Hcsp, Hip, Hr. intros (b & Hb & H)%bind_ok. rewrite Hb. cbn [mbind result_bind].
  revert H. apply apply_resolved_found. intros id. by eexists.
Qed.

Lemma observer_update g x p path sender u :
  watches g x → make_state_update g p path sender = Ok u → make_state_update x p path sender = Ok u.
Proof. intros [Hs _ _ _]. unfold make_state_update. cbn [group_state external_processor group_processor]. by rewrite Hs. Qed.

(** The reinitialization is recorded alike. *)
Lemma observer_reinit g x p u g1 p1 u1 :
  eg_state x = g_state g → take_reinit g p u = (g1, p1, u1) →
  ∃ x1, take_reinit x p u = (x1, p1, u1) ∧ eg_state x1 = g_state g1 ∧ eg_config x1 = eg_config x ∧ eg_csp x1 = eg_csp x.
Proof.
  intros Hs. unfold take_reinit. destruct (pop _) as [[r|] rest]; intros [= <- <- <-]; eexists; (split; [reflexivity|]); cbn; [|done].
  by rewrite Hs.
Qed.

Lemma observer_reads g x a time c interim confirmed p sender u :
  watches g x → commit_read g a time c interim confirmed p sender u → commit_read x a time c interim confirmed p sender u.
Proof.
  intros Hw [Hp Hh Hc Hv Hs Hu Hpath]. pose proof Hw as [Es Ec _ _].
  cbn [group_state mp_cipher_suite_provider group_processor] in *.
  split; cbn [group_state mp_cipher_suite_provider external_processor]; rewrite ?Es, ?Ec; try done.
  - by eapply observer_provisional.
  - by eapply observer_update.
Qed.

(** A commit that the member goes on with. *)
Lemma observer_commit g x a time d g' :
  watches g x → process_commit g a time = (Ok d, g') → kept g a time →
  ∃ x', process_commit x a time = (Ok d, x') ∧ eg_state x' = g_state g' ∧ eg_config x' = eg_config x ∧ eg_csp x' = eg_csp x.
Proof.
  intros Hw H (c & interim & confirmed & p & sender & u & Hread & Hkept). pose proof Hw as [Hs Hcsp _ _].
  assert (can_continue_processing g p = true) as Hgo.
  { destruct (can_continue_processing g p) eqn:E; [done|]. apply continues_spec in E as [Hr Hn]. by destruct (Hkept Hr). }
  rewrite (commit_read_runs _ _ _ _ _ _ _ _ _ Hread), Hgo in H.
  rewrite (commit_read_runs _ _ _ _ _ _ _ _ _ (observer_reads _ _ _ _ _ _ _ _ _ _ Hw Hread)).
  cbn [can_continue_processing external_processor]. unfold rest_of_commit in *.
  cbn [mp_cipher_suite_provider external_processor group_processor] in *. rewrite Hcsp.
  apply st_bind_ok in H as ([secrets p1] & g1 & Hpath & H).
  destruct (observer_path _ _ _ _ _ _ _ _ _ confirmed Hw Hpath) as (p1' & -> & Hfin & Hs1 & Hc1). cbn [st_bind].
  unfold st_lift in *. apply st_bind_ok in H as (p2 & g2 & [= Hp2 <-] & H). rewrite Hfin, Hp2. cbn [st_bind].
  destruct (take_reinit g1 p2 u) as [[g3 p3] u3] eqn:Er.
  destruct (observer_reinit g1 x p2 u g3 p3 u3 (eq_trans Hs (eq_sym Hs1)) Er) as (x3 & -> & Hx3 & Hcfg & Hcs).
  destruct (confirmation_tag (auth a)) as [tag|]; [|done]. apply st_bind_ok in H as ([] & g4 & Hk & [= <- <-]).
  pose proof (mp_schedule_state g3 secrets interim tag p3) as Hst. rewrite Hk in Hst. cbn in Hst.
  eexists. split; [reflexivity|]. cbn. rewrite Hst, Hx3, Hcfg, Hcs. by split_and!.
Qed.

Lemma observer_verifies g x m a :
  watches g x → verify_plaintext g m = Ok (AuthContent a) → verify_plaintext x m = Ok (AuthContent a).
Proof.
  intros [Hs Hcsp _ _]. cbn [verify_plaintext external_processor group_processor]. rewrite Hs, Hcsp.
  intros (a' & Ha & [= <-])%bind_ok. enough (verify_plaintext_authentication (g_csp g) m None None (g_state g) = Ok a') as -> by done.
  revert Ha. unfold verify_plaintext_authentication. intros [Hm H]%bind_unit_ok. rewrite H.
  enough (verify_membership (g_csp g) (from_public_message m) (membership_tag m) None None (gs_context (g_state g)) = Ok tt) as -> by done.
  revert Hm. rewrite !verify_membership_ok. destruct (fc_sender _); naive_solver.
Qed.

(** A public message of this epoch is one for both. *)
Lemma observer_metadata g x m p :
  watches g x → payload m = Plain p → check_metadata g m = Ok tt →
  check_metadata x m = Ok tt ∧ content_type (fc_content (pm_content p)) ≠ ApplicationType.
Proof.
  intros [Hs _ _ _] Hp. unfold check_metadata, check_epoch, metadata, is_cipher. rewrite Hp.
  cbn [group_state min_epoch_available external_processor group_processor]. rewrite Hs.
  destruct (negb (_ =? _)); [done|]. destruct (negb (bool_decide _)); [done|].
  by destruct (content_type _); cbn; intros H; split.
Qed.

(** The message is not the commit that the member has pending. *)
Definition from_another g (m : MlsMessage) : Prop :=
  ∀ pending h, g_pending_commit g = Some pending → commit_hash (g_csp g) m = Ok h → h ≠ commit_message_hash pending.

(** What a member does with a public message of another. *)
Lemma member_takes_plain g now m p r g' :
  payload m = Plain p → from_another g m → group_process_incoming_message g now m = (Ok r, g') →
  check_metadata g m = Ok tt ∧ verify_plaintext g p = Ok (AuthContent (from_public_message p)) ∧
  process_auth_content g (from_public_message p) true None = (Ok r, g').
Proof.
  intros Hp Hother H.
  assert (process_incoming_message g now m true = (Ok r, g')) as H1.
  { unfold group_process_incoming_message in H. destruct (g_pending_commit g) as [pending|] eqn:E; [|done].
    apply st_bind_ok in H as (h & g1 & [= Hh <-] & H). rewrite bool_decide_eq_false_2 in H by (by apply (Hother pending h)). done. }
  unfold process_incoming_message, process_incoming_message_with_time in H1. apply st_bind_ok in H1 as (e & g1 & He & H1).
  unfold get_event_from_incoming_message in He. rewrite Hp in He. apply st_bind_ok in He as ([] & g2 & [= Hm <-] & He).
  injection He as Hv <-. pose proof Hv as Hv'. cbn [verify_plaintext group_processor] in Hv'. apply bind_ok in Hv' as (a & Ha & [= <-]).
  assert (a = from_public_message p) as ->.
  { unfold verify_plaintext_authentication in Ha. apply bind_unit_ok in Ha as [_ Ha]. by apply bind_unit_ok in Ha as [_ [= <-]]. }
  by split_and!.
Qed.

(** A member that is told that it is still active has not been removed. *)
Lemma active_kept g now m p d g' :
  payload m = Plain p → from_another g m → group_process_incoming_message g now m = (Ok (CommitMessage d), g') →
  active (state_update d) = true → kept g (from_public_message p) None.
Proof.
  intros Hp Hother H Ha. destruct (member_takes_plain _ _ _ _ _ _ Hp Hother H) as (_ & _ & Hc). unfold process_auth_content in Hc.
  destruct (fc_content _); [unfold st_lift in Hc; injection Hc as Hc _; by apply bind_ok in Hc as (? & _ & [=])|by apply st_bind_ok in Hc as (? & ? & _ & [=])|].
  apply st_bind_ok in Hc as (d' & g1 & Hc & [= <- <-]). pose proof (commit_outcome g (from_public_message p) None) as Ho. rewrite Hc in Ho.
  destruct Ho as [[_ Hn]%stops_inactive|[(k & i & cf & q & s & u & Hr & Hgo) _]]; [congruence|].
  exists k, i, cf, q, s, u. split; [done|]. intros Hrem Hn. by rewrite (proj2 (continues_spec g q) (conj Hrem Hn)) in Hgo.
Qed.

Lemma observer_message g x now m p r g' :
  watches g x → ex_cache_proposals (eg_config x) = true → from_another g m → payload m = Plain p →
  group_process_incoming_message g now m = (Ok r, g') → (∀ d, r = CommitMessage d → kept g (from_public_message p) None) →
  ∃ r' x', external_process_incoming_message x now m = (Ok r', x') ∧ watches g' x' ∧ eg_config x' = eg_config x.
Proof.
  intros Hw Hcache Hother Hp H Hstay. pose proof (receive_moves g now m) as [Mc Mp _ _]. rewrite H in Mc, Mp. cbn in Mc, Mp.
  pose proof Hw as [Hs Hcsp Hip Hr]. destruct (member_takes_plain _ _ _ _ _ _ Hp Hother H) as (Hm & Hv & Hc). clear H.
  unfold external_process_incoming_message. rewrite Hcache. unfold process_incoming_message, process_incoming_message_with_time, get_event_from_incoming_message.
  rewrite Hp. destruct (observer_metadata _ _ _ _ Hw Hp Hm) as [Hmx Ht].
  unfold st_lift. rewrite Hmx. cbn [st_bind]. rewrite (observer_verifies _ _ _ _ Hw Hv). cbn [st_bind process_event_or_content].
  unfold process_auth_content in *. cbn [from_public_message content] in *. destruct (fc_content (pm_content p)) as [d|q|c] eqn:Ec.
  - by destruct Ht.
  - apply st_bind_ok in Hc as (d & g2 & Hd & [= <- <-]). unfold process_proposal in *.
    cbn [mp_cipher_suite_provider group_state set_group_state external_processor group_processor] in *. rewrite Hcsp.
    apply st_bind_ok in Hd as (ref & g3 & [= Href <-] & Hd). apply st_bind_ok in Hd as (sender & g4 & [= Hsend <-] & [= <- <-]).
    unfold st_lift. rewrite Href. cbn [st_bind]. rewrite Hs. cbn [from_public_message content]. rewrite Hsend. cbn [st_bind]. eexists _, _. split; [reflexivity|]. by repeat split.
  - apply st_bind_ok in Hc as (d & g2 & Hd & [= <- <-]).
    destruct (observer_commit _ _ _ _ _ _ Hw Hd) as (x' & -> & Hx & Hxc & Hxp); [by eapply Hstay|]. cbn [st_bind].
    eexists _, x'. split; [reflexivity|]. split; [|done]. split; congruence.
Qed.

(** ** Runs *)

(** A member that processes public messages of others, proposals and commits; the
    commits do not remove it. *)
Inductive member_run (now : Z) : Group → list MlsMessage → Group → Prop :=
  | member_done g : member_run now g [] g
  | member_takes g m p r g1 ms g' :
      payload m = Plain p → from_another g m → group_process_incoming_message g now m = (Ok r, g1) →
      (∀ d, r = CommitMessage d → kept g (from_public_message p) None) → member_run now g1 ms g' → member_run now g (m :: ms) g'.

Inductive observer_run (now : Z) : ExternalGroup → list MlsMessage → ExternalGroup → Prop :=
  | observer_done x : observer_run now x [] x
  | observer_takes x m r x1 ms x' :
      external_process_incoming_message x now m = (Ok r, x1) → observer_run now x1 ms x' → observer_run now x (m :: ms) x'.

(** C5. Observers keep up with members.  Take an observer that has the public state of a
    member, the same providers and rules, and caches proposals, and public messages
    of others (proposals and commits, but not the commit that the member has pending
    itself) that the member processes without an error, and none of them a commit that
    removes the member (after such a one the member's state stays where it is).  The
    observer that is given the same messages processes every one of them without an
    error, although it checks neither membership nor confirmation tags and has no
    pre-shared keys; and at the end it has exactly the public state of the member:
    context, tree, transcript hashes, cached proposals and pending reinitialization. *)
Theorem observer_in_step now g ms g' x :
  watches g x → ex_cache_proposals (eg_config x) = true → member_run now g ms g' →
  ∃ x', observer_run now x ms x' ∧ watches g' x'.
Proof.
  intros Hw Hc Hrun. revert x Hw Hc. induction Hrun as [g|g m p r g1 ms g' Hp Hother H Hstay _ IH]; intros x Hw Hc.
  - exists x. by split; [constructor|].
  - destruct (observer_message _ _ _ _ _ _ _ Hw Hc Hother Hp H Hstay) as (r' & x1 & Hx & Hw1 & Hc1).
    destruct (IH x1 Hw1) as (x' & Hr & Hw'); [by rewrite Hc1|]. exists x'. split; [|done]. by econstructor.
Qed.
End observer.
