(* ===== verification/Scenario.v ===== *)
(** * Runs of whole groups (mls-rs/src/group/mod.rs, commit.rs, external_commit.rs)

    Members that found a group, join it by welcome messages and by external
    commits, and process each other's commits, with the in-memory storage and the
    provider of [Config].  They show that the definitions compose as the code does,
    and where the code does not do what it means to: what a pending commit changes
    for the processing of other commits, and what a refused commit leaves behind. *)
From S2P Require Import Prelude Codec Types Node TreeMath TreeIndex Crypto TreeHash Proposal TreeKem GroupContext Kem SecretTree Framing Epoch KeySchedule Storage StateRepo PrivateMessage GroupState Auth Psk Rules Provisional MessageProcessor ProcessorLaws Config Group GroupLaws Faults Delivery Commit Join Snapshot Member.

Import Node TreeHash.

Notation RunGroup := (Group InMemory.InMemoryGroupStateStorage InMemory.InMemoryKeyPackageStorage
  InMemory.InMemoryPreSharedKeyStorage DefaultMlsRules).

Definition person (n : Z) : SigningIdentity := {| credential := Basic [byte.of_Z n]; signature_key := [byte.of_Z n] |}.

Definition founder : Result MlsError RunGroup :=
  group_new (run_config TreeKem.sample_ip ∅) (Some [byte.of_Z 7]) 1 1 (person 1) [] [byte.of_Z 1] [byte.of_Z 10] []
    [byte.of_Z 11].

Definition package (n : Z) : Result MlsError KeyPackageGeneration :=
  generate {| gen_protocol_version := 1; gen_cipher_suite_provider := run_csp; gen_signing_identity := person n;
              signing_key := [byte.of_Z n] |} [byte.of_Z (20 + n)] [byte.of_Z (40 + n)]
    {| not_before := 0; not_after := 1000 |} (config_capabilities (run_config TreeKem.sample_ip ∅)) [] [].

Definition randomness (n : Z) : CommitRandomness := {|
  r_encap := {| Kem.r_path := byte.of_Z <$> [n; n + 1; 0; 0; 0; 0; 0; 0]; Kem.r_leaf := [byte.of_Z (n + 2)];
                Kem.r_seal _ i := [byte.of_Z i] |};
  r_secrets _ := [byte.of_Z (n + 3)]; r_message := byte.of_Z <$> [n + 4; 1; 2; 3] |}.

(** A method that changes the group, run to its value or error. *)
Definition after {A} (m : Result MlsError A * RunGroup) : Result MlsError (A * RunGroup) := a ← m.1; Ok (a, m.2).

(** A member commits and applies the commit; the message is what others receive. *)
Definition commits (g : RunGroup) (b : CommitBuilder) (n : Z) : Result MlsError (CommitOutput * RunGroup) :=
  '(o, g) ← after (build g b (randomness n) 5);
  '(_, g) ← after (apply_pending_commit g);
  Ok (o, g).

Definition receives (g : RunGroup) (m : MlsMessage) : Result MlsError (ReceivedMessage * RunGroup) :=
  after (group_process_incoming_message g 6 m).

Definition enters (n : Z) (k : KeyPackageGeneration) (o : CommitOutput) : Result MlsError RunGroup :=
  w ← unwrap (head (welcome_messages o));
  '(id, data) ← to_storage k;
  '(g, _) ← join w None (run_config TreeKem.sample_ip {[id := data]}) [byte.of_Z n];
  Ok g.

(** Member 0 founds the group and adds one or two others. *)
Definition two_members : Result MlsError (RunGroup * RunGroup) :=
  g ← founder;
  k ← package 2;
  b ← add_member commit_builder (key_package_message k);
  '(o, g) ← commits g b 60;
  h ← enters 2 k o;
  Ok (g, h).

Definition three_members : Result MlsError (RunGroup * RunGroup * RunGroup) :=
  g ← founder;
  k ← package 2;
  l ← package 3;
  b ← add_member commit_builder (key_package_message k);
  b ← add_member b (key_package_message l);
  '(o, g) ← commits g b 60;
  h ← enters 2 k o;
  i ← enters 3 l o;
  Ok (g, h, i).

Definition same_secrets (g h : RunGroup) : bool :=
  bool_decide (group_ctx g = group_ctx h) && bool_decide (g_key_schedule g = g_key_schedule h).

(** The members agree on the epoch after a welcome, after a commit with a path, and
    after an external commit. *)
Definition agreeing_run : Result MlsError (list bool) :=
  '(g, h, i) ← three_members;
  '(o, h1) ← commits h commit_builder 80;
  '(_, g1) ← receives g (commit_message o);
  '(_, i1) ← receives i (commit_message o);
  info ← group_info_message_allowing_ext_commit g1 true;
  '(j, m) ← external_build (external_commit_builder [byte.of_Z 4] (person 4) (run_config TreeKem.sample_ip ∅))
    {| r_leaf_node := [byte.of_Z 110]; r_init := [byte.of_Z 111]; r_nonce _ := []; r_commit := randomness 112 |} 6 info;
  '(_, g2) ← receives g1 m;
  '(_, h2) ← receives h1 m;
  '(_, i2) ← receives i1 m;
  Ok [same_secrets g h; same_secrets g i; same_secrets g1 h1; same_secrets g1 i1; same_secrets g2 h2; same_secrets g2 i2;
      same_secrets g2 j; negb (same_secrets g1 g2)].

Example run_agrees : agreeing_run = Ok (replicate 8 true).
Proof. vm_compute. reflexivity. Qed.

(** ** What a pending commit changes *)

(** Whether the value was obtained, with the error that was returned instead. *)
Definition outcome {A} (r : Result MlsError A) : Result MlsError unit := _ ← r; Ok tt.

(** Member 1 removes member 0, which has a commit of its own pending or not. *)
Definition removal_run (pending : bool) : Result MlsError (ReceivedMessage * RunGroup) :=
  '(g, h) ← two_members;
  b ← remove_member h commit_builder 0;
  '(o, _) ← after (build h b (randomness 80) 5);
  receives (if pending then (commit g (randomness 90) 5 []).2 else g) (commit_message o).

Definition still_active (r : Result MlsError (ReceivedMessage * RunGroup)) : option bool :=
  match r with Ok (CommitMessage d, _) => Some (active (state_update d)) | _ => None end.

(** With no commit pending the member learns that it is removed, with one it panics. *)
Theorem removal_run_panics :
  still_active (removal_run false) = Some false ∧ removal_run true = Panic.
Proof. split; vm_compute; reflexivity. Qed.

(** An external commit by a fourth person, for a member that has a commit of its own
    pending, or had one and cleared it. *)
Definition external_run (pending clear : bool) : Result MlsError (RunGroup * RunGroup) :=
  '(g, h) ← two_members;
  info ← group_info_message_allowing_ext_commit h true;
  '(j, m) ← external_build (external_commit_builder [byte.of_Z 4] (person 4) (run_config TreeKem.sample_ip ∅))
    {| r_leaf_node := [byte.of_Z 110]; r_init := [byte.of_Z 111]; r_nonce _ := []; r_commit := randomness 112 |} 6 info;
  let g := if pending then (commit g (randomness 90) 5 []).2 else g in
  '(_, g) ← receives (if clear then clear_pending_commit g else g) m;
  Ok (g, j).

Definition agrees (r : Result MlsError (RunGroup * RunGroup)) : Result MlsError bool :=
  '(g, h) ← r; Ok (same_secrets g h).

(** A member processes an external commit to the epoch of the new member.  While a
    commit of its own is pending it refuses the same message, since it then keeps the
    old init secret in place of the one of the external commit: the pending commit is
    not cleared by the commit that replaces it. *)
Theorem external_commit_with_pending_refused :
  agrees (external_run false false) = Ok true ∧ agrees (external_run true true) = Ok true ∧
  external_run true false = Err InvalidConfirmationTag.
Proof. split_and!; vm_compute; reflexivity. Qed.

(** Member 0 prepares a commit, perhaps one that changes its signature key; member
    1's commit comes first; member 0 goes on with a proposal. *)
Definition race_run (new_key : bool) : Result MlsError (ReceivedMessage * RunGroup) :=
  '(g, h, _) ← three_members;
  '(o, h) ← commits h commit_builder 80;
  let b := if new_key
           then set_new_signing_identity commit_builder [byte.of_Z 51]
                  {| credential := Basic [byte.of_Z 1]; signature_key := [byte.of_Z 51] |}
           else commit_builder in
  '(_, g) ← after (build g b (randomness 90) 5);
  '(_, g) ← receives g (commit_message o);
  '(m, _) ← after (propose_remove g 2 [] []);
  receives h m.

(** A commit that is prepared and then overtaken has no effect on what the member
    sends next, unless it was to change the member's signature key: the signer has
    already been replaced when the commit was prepared, so everything the member
    sends afterwards is signed with a key the group does not know. *)
Theorem overtaken_commit_keeps_new_signer :
  outcome (race_run false) = Ok tt ∧ race_run true = Err InvalidSignature.
Proof. split; vm_compute; reflexivity. Qed.

(** ** What a refused commit leaves behind *)

(** A commit of member [g] under another confirmation tag. *)
Definition retagged (g : RunGroup) (m : MlsMessage) (tag : bytes) : Result MlsError MlsMessage :=
  match payload m with
  | Plain p =>
      p ← create_plaintext (g_csp g) (g_key_schedule g) (group_ctx g) (with_confirmation_tag (from_public_message p) (Some tag));
      Ok {| msg_version := msg_version m; payload := Plain p |}
  | _ => Err UnexpectedMessageType
  end.

(** Member 1 sends a commit with a wrong confirmation tag to member 0, or does not;
    then member 2 commits. *)
Definition wrong_tag_run (wrong : bool) : Result MlsError (Result MlsError unit * Result MlsError unit) :=
  '(g, h, i) ← three_members;
  '(o, h) ← commits h commit_builder 80;
  '(_, g) ← receives g (commit_message o);
  '(_, i) ← receives i (commit_message o);
  '(o, _) ← after (build h commit_builder (randomness 90) 5);
  m ← retagged h (commit_message o) [];
  let '(r, g) := if wrong then group_process_incoming_message g 6 m else (Ok WelcomeMessage, g) in
  '(o, _) ← commits i commit_builder 100;
  Ok (outcome r, outcome (receives g (commit_message o))).

(** The commit with the wrong tag is refused, and the next commit, which is right and
    which the member would have processed, cannot be decrypted. *)
Theorem wrong_tag_run_locks_out :
  wrong_tag_run false = Ok (Ok tt, Ok tt) ∧
  wrong_tag_run true = Ok (Err InvalidConfirmationTag, Err (CryptoProviderError (ProviderAnyError []))).
Proof. split; vm_compute; reflexivity. Qed.

(** Member 1 reinitializes the group; member 0 is given the commit with a wrong
    confirmation tag first, or is not. *)
Definition reinit_run (wrong : bool) : Result MlsError (Result MlsError unit * Result MlsError unit) :=
  '(g, h) ← two_members;
  b ← reinit h commit_builder None 1 1 [] [byte.of_Z 33];
  '(o, _) ← after (build h b (randomness 80) 5);
  m ← retagged h (commit_message o) [];
  let '(r, g) := if wrong then group_process_incoming_message g 6 m else (Ok WelcomeMessage, g) in
  Ok (outcome r, outcome (receives g (commit_message o))).

(** A commit of a reinitialization with a wrong confirmation tag is refused, but it
    leaves the group marked as reinitialized: the genuine commit is refused after it,
    and so is every other. *)
Theorem refused_reinit_closes_group :
  reinit_run false = Ok (Ok tt, Ok tt) ∧
  reinit_run true = Ok (Err InvalidConfirmationTag, Err GroupUsedAfterReInit).
Proof. split; vm_compute; reflexivity. Qed.

(** ** The laws of groups at work on the runs *)

Lemma after_ok {A} (m : Result MlsError A * RunGroup) a g : after m = Ok (a, g) → m = (Ok a, g).
Proof. unfold after. intros (x & Hx & [= <- <-])%bind_ok. destruct m. cbn in *. by subst. Qed.

(** The commit of [removal_run], read by the member it removes, which has a commit of
    its own pending, and everything [process_path] computes before it panics. *)
Definition removal_read : Result MlsError (RunGroup * AuthenticatedContent * Commit * bytes * bytes * ProvisionalState * Z *
    StateUpdate * Kem.UpdatePath * TreeKemPublic) :=
  '(g, h) ← two_members;
  b ← remove_member h commit_builder 0;
  '(o, _) ← after (build h b (randomness 80) 5);
  '(_, g) ← after (commit g (randomness 90) 5 []);
  a ← (match payload (commit_message o) with Plain p => Ok (from_public_message p) | _ => Err UnexpectedMessageType end);
  '(interim, confirmed) ← transcript_hashes (g_csp g) (interim_transcript_hash (g_state g)) a;
  c ← (match fc_content (content a) with CommitContent c => Ok c | _ => Err UnexpectedMessageType end);
  p ← provisional_of_commit g a c None;
  sender ← commit_sender (fc_sender (content a)) p;
  u ← make_state_update g p (commit_path c) sender;
  path ← ok_or (commit_path c) CommitMissingPath;
  v ← validate_update_path (cfg_identity_provider (g_config g)) (g_csp g) path p sender None;
  keys ← provisional_private_tree g p;
  p1 ← public_apply_update_path (cfg_identity_provider (g_config g)) (g_csp g) sender v p;
  '(h, t) ← root_hash (g_csp g) (ps_tree p1);
  encoded ← from_codec_error (mls_encode_to_vec group_context_codec (with_tree_hash (ps_context p1) h));
  guard_or (bool_decide (is_Some (g_pending_commit g)) && bool_decide (pending_reinit (g_state g) = None) && removes_self g p) UnexpectedMessageType;;
  Ok (g, a, c, interim, confirmed, p, sender, u, path, t).

Lemma removal_read_facts :
  match removal_read with
  | Ok (g, a, c, interim, confirmed, p, sender, u, path, t) =>
      len (nodes t) = 3 ∧ current_member_index g = 0 ∧ sender = 1 ∧ head (nodes t) = Some None
  | _ => False
  end.
Proof. vm_compute. by split_and!. Qed.

Lemma removed_with_pending_commit_panics_witness :
  ∃ (g : RunGroup) a d, g_pending_commit g ≠ None ∧
    process_commit (clear_pending_commit g) a None = (Ok d, clear_pending_commit g) ∧ active (state_update d) = false ∧
    (process_commit g a None).1 = Panic.
Proof.
  pose proof removal_read_facts as F. destruct removal_read as [[[[[[[[[[g a] c] interim] confirmed] p] sender] u] path] t]| | |] eqn:E; [|destruct F..].
  destruct F as (F1 & F2 & F3 & F4). unfold removal_read in E.
  apply bind_ok in E as ([g0 h] & _ & E). apply bind_ok in E as (b & _ & E). apply bind_ok in E as ([o h'] & _ & E).
  apply bind_ok in E as ([o2 g2] & _ & E). apply bind_ok in E as (a' & _ & E). apply bind_ok in E as ([i cf] & E1 & E). apply bind_ok in E as (c' & E2 & E).
  apply bind_ok in E as (p' & E3 & E). apply bind_ok in E as (s' & E4 & E). apply bind_ok in E as (u' & E5 & E).
  apply bind_ok in E as (path' & E6 & E). apply bind_ok in E as (v & E7 & E). apply bind_ok in E as (keys & E8 & E).
  apply bind_ok in E as (p1 & E9 & E). apply bind_ok in E as ([hash t'] & E10 & E). apply bind_ok in E as (e & E11 & E).
  apply bind_unit_ok in E as [E12 [= -> -> -> -> -> -> -> -> -> ->]].
  apply guard_or_tt, andb_true_iff in E12 as [[E12 E13]%andb_true_iff E14]. apply bool_decide_eq_true_1 in E12, E13.
  destruct (fc_content (content a)) as [?|?|c'] eqn:Ec; try discriminate E2. injection E2 as ->.
  destruct (commit_path c) as [path'|] eqn:Ep; [|discriminate E6]. injection E6 as ->.
  destruct (removed_with_pending_commit_panics g a None c interim confirmed p sender u path t) as [H1 H2].
  - split; try done; [by rewrite Ep|]. by rewrite Ep, bool_decide_eq_false_2, andb_false_r by done.
  - exact Ep.
  - by apply removes_self_spec.
  - split; [|lia]. exists v, keys, p1, hash, e. split_and!; try done. by apply from_codec_inv.
  - rewrite F2, F3. assert (depth (nodes t) = 1) as Hd by (unfold depth, total_leaf_count; by rewrite F1).
    split; unfold fits; rewrite ?Hd, ?F1; try lia; [right; by rewrite F1|].
    change (Kem.lca_index 0 1) with 0. intros k Hk. assert (k = O) as -> by lia. unfold node_at. cbn.
    by destruct (nodes t) as [|[] ?]; cbn in F4 |- *; simplify_eq.
  - exists g, a, (describe a sender (deactivate u)). split_and!; [by apply not_eq_None_Some|exact H1|done|]. apply H2. by apply not_eq_None_Some.
Defined.

(** A commit that a member takes, and its transcript under another tag. *)
Definition tag_run : Result MlsError (RunGroup * AuthenticatedContent * CommitMessageDescription * RunGroup * (bytes * bytes)) :=
  '(g, h) ← two_members;
  '(o, _) ← after (build h commit_builder (randomness 80) 5);
  a ← (match payload (commit_message o) with Plain p => Ok (from_public_message p) | _ => Err UnexpectedMessageType end);
  '(d, g1) ← after (process_commit g a None);
  x ← transcript_hashes (g_csp g) (interim_transcript_hash (g_state g)) (with_confirmation_tag a (Some []));
  guard_or (active (state_update d) && negb (bool_decide (confirmation_tag (auth a) = Some [])) &&
            negb (bool_decide (Kem.secret_keys (private_tree g1) = Kem.secret_keys (private_tree g)))) UnexpectedMessageType;;
  Ok (g, a, d, g1, x).

Lemma refused_commit_replaces_private_keys_witness :
  ∃ (g g2 : RunGroup) a, process_commit g a None = (Err InvalidConfirmationTag, g2) ∧ private_tree g2 ≠ private_tree g ∧
    group_ctx g2 = group_ctx g.
Proof.
  assert (outcome tag_run = Ok tt) as Hok by (vm_compute; reflexivity).
  destruct tag_run as [[[[[g a] d] g1] x]| | |] eqn:E; [|discriminate Hok..]. unfold tag_run in E.
  apply bind_ok in E as ([g0 h] & _ & E). apply bind_ok in E as ([o h'] & _ & E). apply bind_ok in E as (a' & _ & E).
  apply bind_ok in E as ([d' g1'] & Hp%after_ok & E). apply bind_ok in E as (x' & Hx & E).
  apply bind_unit_ok in E as [[[Ha Ht]%andb_true_iff Hk]%guard_or_tt%andb_true_iff [= -> -> -> -> ->]].
  apply negb_true_iff, bool_decide_eq_false_1 in Ht, Hk.
  destruct (refused_commit_replaces_private_keys g a None [] d g1 x) as (g2 & H1 & H2 & H3 & _); [exact Hp| |exact Ht|exact Hx|].
  - pose proof (commit_outcome g a None) as Ho. rewrite Hp in Ho. destruct Ho as [[_ Hn]%stops_inactive|[Hg _]]; [congruence|exact Hg].
  - exists g, g2, (with_confirmation_tag a (Some [])). split_and!; [exact H1|congruence|]. destruct H2 as [_ _ _ Hs _ _ _ _ _].
    unfold group_ctx. by destruct Hs as [->|[_ (r & ->)]].
Defined.

Lemma commits_moves g b n o g' : commits g b n = Ok (o, g') → moves g g'.
Proof.
  unfold commits. intros ([o1 g1] & H1%after_ok & H)%bind_ok. apply bind_ok in H as ([d g2] & H2%after_ok & [= <- <-]).
  assert (moves g (build g b (randomness n) 5).2) as M1 by apply commit_internal_moves. rewrite H1 in M1.
  pose proof (apply_pending_moves g1) as M2. rewrite H2 in M2. by transitivity g1.
Qed.

Lemma run_provider ip packages (g : RunGroup) : group_consistent g → g_config g = run_config ip packages → g_csp g = run_csp.
Proof. intros [H _ _] E. rewrite E in H. unfold run_config in H. cbn in H. repeat case_match; congruence. Qed.

Lemma two_members_provider g h : two_members = Ok (g, h) → g_csp g = run_csp ∧ g_csp h = run_csp.
Proof.
  unfold two_members. intros (g0 & H0 & H)%bind_ok. apply bind_ok in H as (k & _ & H). apply bind_ok in H as (b & _ & H).
  apply bind_ok in H as ([o g1] & Hm%commits_moves & H). apply bind_ok in H as (h1 & Hh & [= <- <-]). split.
  - rewrite (mv_csp _ _ Hm). apply new_consistent in H0 as [Hc Hg]. by eapply run_provider.
  - unfold enters in Hh. apply bind_ok in Hh as (w & _ & H). apply bind_ok in H as ([id data] & _ & H).
    apply bind_ok in H as ([h2 e] & H & [= <-]). apply welcome_consistent in H as [Hc Hg]. by eapply run_provider.
Qed.

Lemma two_members_config g h : two_members = Ok (g, h) → g_config g = run_config TreeKem.sample_ip ∅.
Proof.
  unfold two_members. intros (g0 & H0 & H)%bind_ok. apply bind_ok in H as (k & _ & H). apply bind_ok in H as (b & _ & H).
  apply bind_ok in H as ([o g1] & Hm%commits_moves & H). apply bind_ok in H as (h1 & _ & [= <- _]).
  rewrite (mv_config _ _ Hm). by apply new_consistent in H0 as [_ ?].
Qed.

Lemma reachable_consistent_witness : ∃ g : RunGroup, founder = Ok g ∧ group_consistent g.
Proof.
  assert (outcome founder = Ok tt) as H by (vm_compute; reflexivity).
  destruct founder as [g| | |] eqn:E; [|discriminate H..]. exists g. split; [reflexivity|].
  apply reachable_consistent. unfold founder in E. eapply reach_new, E.
Defined.

(** The proposal of member 1 as member 0 takes it. *)
Definition event_run : Result MlsError (RunGroup * MlsMessage * AuthenticatedContent * RunGroup) :=
  '(g, h) ← two_members;
  '(m, _) ← after (propose_remove h 0 [] []);
  '(e, g') ← after (get_event_from_incoming_message g 6 m);
  match e with AuthContent a => Ok (g, m, a, g') | _ => Err UnexpectedMessageType end.

Lemma accepted_content_authentic_witness :
  ∃ (g g' : RunGroup) m a, get_event_from_incoming_message g 6 m = (Ok (AuthContent a), g') ∧ authentic g a.
Proof.
  assert (outcome event_run = Ok tt) as Hok by (vm_compute; reflexivity).
  destruct event_run as [[[[g m] a] g']| | |] eqn:E; [|discriminate Hok..].
  unfold event_run in E. apply bind_ok in E as ([g0 h] & _ & E). apply bind_ok in E as ([m0 h'] & _ & E).
  apply bind_ok in E as ([e g1] & He%after_ok & E). destruct e; try discriminate E. injection E as -> -> -> ->.
  exists g, g', m, a. split; [exact He|]. apply (accepted_content_authentic g 6 m a g' He).
Defined.

(** What member 0 is about to send, and the root of the epoch's secret tree. *)
Definition delivery_run
    : Result MlsError (RunGroup * RunGroup * bytes * EncryptionOptions * AuthenticatedContent * bytes * LeafNode) :=
  '(g, h) ← two_members;
  o ← group_encryption_options g;
  a ← new_signed (g_csp g) (group_ctx g) (Member (current_member_index g)) (ApplicationContent [byte.of_Z 104; byte.of_Z 105])
    (signer g) WirePrivateMessage [];
  encoded ← from_codec_error (private_content_encode {| pmc_content := fc_content (content a); pmc_auth := auth a |});
  leaf ← TreeKem.get_leaf_node (public_tree (g_state h)) (current_member_index g);
  root ← (match SecretTree.known_secrets (secret_tree (g_epoch_secrets g)) !! 1 with
          | Some (SecretTree.Secret s) => Ok s
          | _ => Err UnexpectedMessageType
          end);
  Ok (g, h, root, o, a, encoded, leaf).

Lemma delivery_run_facts :
  match delivery_run with
  | Ok (g, h, root, o, a, encoded, leaf) =>
      secret_tree (g_epoch_secrets g) = SecretTree.new_tree 2 root ∧ secret_tree (g_epoch_secrets h) = SecretTree.new_tree 2 root ∧
      sender_data_secret (g_epoch_secrets h) = sender_data_secret (g_epoch_secrets g) ∧ group_ctx h = group_ctx g ∧
      current_member_index g = 0 ∧ current_member_index h = 1 ∧ cache_is_empty (gs_proposals (g_state g)) = true ∧
      g_pending_commit h = None ∧ signer g = signature_key (signing_identity leaf) ∧ group_id (group_ctx g) = [byte.of_Z 7] ∧
      private_content_encode {| pmc_content := fc_content (content a); pmc_auth := auth a |} = Ok encoded ∧
      content_type (fc_content (content a)) = ApplicationType ∧ len root = 8 ∧ len (sender_data_secret (g_epoch_secrets g)) = 8
  | _ => False
  end.
Proof. vm_compute. by split_and!. Qed.

Lemma run_kdf : kdf_laws run_csp.
Proof.
  split.
  - intros salt ikm _. eexists. split; [done|]. apply checksum_len. by vm_compute.
  - intros prk info n _ Hn. eexists. split; [done|]. apply checksum_len. revert n Hn. apply Forall_forall. repeat constructor; by vm_compute.
Qed.
Lemma run_signatures sk : signature_pair run_csp sk sk.
Proof. intros data s [= <-]. cbn. by rewrite bool_decide_eq_true_2. Qed.

Lemma application_message_delivered_witness :
  ∃ (gS gR gS' gR' : RunGroup) m, encrypt_application_message gS [byte.of_Z 104; byte.of_Z 105] [] [] = (Ok m, gS') ∧
    group_process_incoming_message gR 6 m = (Ok (ApplicationMessage {| sender_index := 0;
      am_data := [byte.of_Z 104; byte.of_Z 105]; am_authenticated_data := [] |}), gR').
Proof.
  pose proof delivery_run_facts as F. destruct delivery_run as [[[[[[[g h] root] o] a] e] leaf]| | |] eqn:E; [|destruct F..].
  destruct F as (F1 & F2 & F3 & F4 & F5 & F6 & F7 & F8 & F9 & F10 & F11 & F12 & F13 & F14).
  unfold delivery_run in E. apply bind_ok in E as ([g0 h0] & E0%two_members_provider & E). apply bind_ok in E as (o' & Eo & E).
  apply bind_ok in E as (a' & Ea & E). apply bind_ok in E as (e' & Ee & E).
  apply bind_ok in E as (l' & El & E). apply bind_ok in E as (r' & _ & [= -> -> -> -> -> -> ->]). destruct E0 as [Hg Hh].
  pose proof (SecretTree.new_tree_inv run_csp 1 ltac:(lia) root) as Ht.
  destruct (application_message_delivered g h 1 root (λ _ _, (0, ∅)) (λ _ _, (0, ∅)) ∅ ∅ [byte.of_Z 104; byte.of_Z 105] [] o a e leaf [] 6)
    as (m & g' & h' & H1 & H2 & _).
  - split; rewrite ?Hg, ?Hh; try done.
    + exact run_kdf.
    + split; [exact toy_aead|]. intros key pt data nonce _ _ _ _ _. by eexists.
    + split; [exact toy_random|by vm_compute].
    + split; cbn [gs_self_index gs_secrets group_provider PrivateMessage.gs_context]; rewrite ?F1, ?F2, ?F5, ?F6, ?F12;
        try done; try set_solver. all: cbn; unfold SecretTree.MAX_RATCHET_BACK_HISTORY; lia.
    + by rewrite <- Hg.
    + rewrite F10. by vm_compute.
    + rewrite F9. apply run_signatures.
  - rewrite F5 in H2. exists g, h, g', h', m. by split.
Defined.

(** The founder's group is written. *)
Definition founder_stored : Result MlsError unit :=
  g ← founder;
  guard_or (bool_decide (snapshot_wf (group_snapshot g))) UnexpectedMessageType;;
  guard_or (TreeIndex.is_initialized (index (public_tree (g_state g)))) UnexpectedMessageType;;
  (group_write_to_storage g).1.

Lemma founder_repo :
  match founder with
  | Ok g => group_id (group_ctx g) = [byte.of_Z 7] ∧
      state_repo g = repo_new [byte.of_Z 7] InMemory.new {| InMemory.packages := ∅ |} None
  | _ => False
  end.
Proof. vm_compute. by split. Qed.

Lemma repo_new_inv (gid : bytes) (s : InMemory.InMemoryGroupStateStorage) (k : InMemory.InMemoryKeyPackageStorage) used :
  stored s gid = [] → repo_inv (repo_new gid s k used) [].
Proof.
  intros H. split; [change (Forall2 represents (stored s gid) []); rewrite H|cbn..]; try constructor. all: by intros [].
Qed.

Lemma stored_group_restored_witness :
  ∃ (g g' g'' : RunGroup), group_write_to_storage g = (Ok tt, g') ∧
    load_group (reopened (g_config g) (state_repo g')) [byte.of_Z 7] = Ok g'' ∧ restored g g''.
Proof.
  assert (founder_stored = Ok tt) as E by (vm_compute; reflexivity). pose proof founder_repo as F.
  unfold founder_stored in E. apply bind_ok in E as (g & Hg & E). rewrite Hg in F. destruct F as [Hid Hrepo].
  apply new_consistent in Hg as [Hc _]. apply bind_unit_ok in E as [Hwf E]. apply bind_unit_ok in E as [Hi Hw].
  apply guard_or_tt, bool_decide_eq_true_1 in Hwf. apply guard_or_tt in Hi.
  destruct (group_write_to_storage g) as [r g'] eqn:Ew. cbn in Hw. subst r.
  destruct (stored_group_restored g g' [] Hc Hi Hwf) as (k & g'' & Hl & Hr & _).
  - rewrite Hrepo. by apply repo_new_inv.
  - exact Ew.
  - exists g, g', g''. rewrite Hid in Hl. split_and!; done.
Defined.
