(* ===== verification/Lifecycle.v ===== *)
(** * Runs of clients (mls-rs/src/client.rs, group/resumption.rs)

    Clients that publish key packages, branch off subgroups, reinitialize groups and
    propose themselves to groups they are not in; and an observer of a group. *)
From S2P Require Import Prelude Codec Types TreeIndex Crypto TreeHash Proposal TreeKem GroupContext Kem Framing Epoch KeySchedule Storage GroupState Auth Psk Rules MessageProcessor ProcessorLaws Validator Config Group GroupLaws Commit Join Snapshot External Client Resumption Member Agreement Observer Scenario.

Notation RunClient := (Client InMemory.InMemoryGroupStateStorage InMemory.InMemoryKeyPackageStorage
  InMemory.InMemoryPreSharedKeyStorage DefaultMlsRules).

Definition client_of (n : Z) : RunClient :=
  client_new (run_config TreeKem.sample_ip ∅) (Some [byte.of_Z n]) (Some (person n, 1)) 1.

Definition publishes (c : RunClient) (n : Z) : Result MlsError (MlsMessage * RunClient) :=
  let '(m, c) := generate_key_package_message c [byte.of_Z (20 + n)] [byte.of_Z (40 + n)] in m ← m; Ok (m, c).

(** A member's group over the storages that it shares with the client. *)
Definition share (g : RunGroup) (c : RunClient) : RunGroup := {|
  g_config := cl_config c; g_csp := g_csp g; state_repo := state_repo g; g_state := g_state g;
  g_epoch_secrets := g_epoch_secrets g; private_tree := private_tree g; g_key_schedule := g_key_schedule g;
  pending_updates := pending_updates g; g_pending_commit := g_pending_commit g; previous_psk := previous_psk g;
  signer := signer g |}.

Definition founding (n : Z) : FoundingRandomness := {|
  fr_leaf := [byte.of_Z n]; fr_epoch := [byte.of_Z (n + 1)]; fr_commit := randomness (n + 2) |}.

(** Member 0 branches off a subgroup with member 1; somebody else has its welcome
    message and the key package's secrets. *)
Definition branch_run : Result MlsError (bool * Result MlsError unit) :=
  '(g, h) ← two_members;
  '(m, c) ← publishes (client_of 2) 50;
  '(sub, ws) ← branch g [byte.of_Z 9] [m] [byte.of_Z 30] (founding 130) 5;
  w ← unwrap (head ws);
  '(h, _) ← join_subgroup (share h c) w None [byte.of_Z 31];
  Ok (same_secrets sub h, outcome (join_group c None w)).

(** Both members of a group move to its successor. *)
Definition successor_run : Result MlsError bool :=
  '(g, h) ← two_members;
  b ← reinit h commit_builder (Some [byte.of_Z 70]) 1 1 [] [];
  '(o, h) ← commits h b 80;
  '(_, g) ← receives g (commit_message o);
  c ← get_reinit_client g None None [byte.of_Z 30];
  d ← get_reinit_client h None None [byte.of_Z 31];
  let '(m, d) := reinit_generate_key_package d [byte.of_Z 32] [byte.of_Z 33] in
  m ← m;
  '(g, ws) ← reinit_commit c [m] (founding 130) 5;
  w ← unwrap (head ws);
  '(h, _) ← reinit_join d w None;
  Ok (same_secrets g h).

(** The members of a subgroup and of a reinitialized group agree on its secrets, and
    the subgroup's welcome message is of no use to who has the key package but not
    the resumption secret of the group that was branched. *)
Theorem successors_agree : branch_run = Ok (true, Err OldGroupStateNotFound) ∧ successor_run = Ok true.
Proof. split; vm_compute; reflexivity. Qed.

(** A member and what it enters by the welcome message of a subgroup. *)
Definition branched : Result MlsError (RunGroup * MlsMessage * (RunGroup * ExtensionList.t)) :=
  '(g, h) ← two_members;
  '(m, c) ← publishes (client_of 2) 50;
  '(_, ws) ← branch g [byte.of_Z 9] [m] [byte.of_Z 30] (founding 130) 5;
  w ← unwrap (head ws);
  x ← join_subgroup (share h c) w None [byte.of_Z 31];
  Ok (share h c, w, x).


(** A member of a reinitialized group of two founds the successor alone. *)
Definition lone_successor_run : Result MlsError (nat * nat) :=
  '(g, h) ← two_members;
  b ← reinit h commit_builder (Some [byte.of_Z 70]) 1 1 [] [];
  '(o, h) ← commits h b 80;
  '(_, g) ← receives g (commit_message o);
  c ← get_reinit_client g None None [byte.of_Z 30];
  '(g', _) ← reinit_commit c [] (founding 130) 5;
  Ok (length (members (group_roster g)), length (members (group_roster g'))).

(** The successor of a reinitialized group may be founded with fewer members than
    the group had: their number is not compared. *)
Theorem successor_membership_unchecked : lone_successor_run = Ok (2%nat, 1%nat).
Proof. vm_compute. reflexivity. Qed.

(** Somebody asks to be added to a group of a version that the client does not
    support; [own] is whether it is the version the client prefers. *)
Definition external_add_run (own : bool) : Result MlsError (Z * list Z) :=
  g ← group_new (run_config TreeKem.sample_ip ∅) (Some [byte.of_Z 7]) 1 2 (person 1) [] [byte.of_Z 1] [byte.of_Z 10] []
    [byte.of_Z 11];
  info ← group_info_message g true;
  let c : RunClient := client_new (run_config TreeKem.sample_ip ∅) (Some [byte.of_Z 2]) (Some (person 2, 1)) (if own then 2 else 1) in
  m ← (external_add_proposal c info None [] [byte.of_Z 32] [byte.of_Z 33]).1;
  Ok (msg_version m, supported_protocol_versions (cl_config c)).

(** A client refuses to propose itself to a group of a version that it does not
    support only when it is the version it prefers; for any other unsupported version
    it signs and returns the proposal. *)
Theorem external_add_unsupported_version :
  external_add_run true = Err (UnsupportedProtocolVersion 2) ∧ external_add_run false = Ok (2, [1]).
Proof. split; vm_compute; reflexivity. Qed.

(** ** A published key package *)
Lemma client_set_up : set_up (client_of 2) (person 2) run_csp [byte.of_Z 2] 5.
Proof.
  split; try done.
  - exists 1. by split.
  - apply run_signatures.
  - by repeat constructor.
  - split; split; constructor.
  - intros e He. by apply elem_of_nil in He.
  - by eexists.
Qed.

Definition published : Result MlsError (KeyPackageGeneration * RunClient) :=
  let '(k, c) := generate_key_package (client_of 2) [byte.of_Z 22] [byte.of_Z 42] in k ← k; Ok (k, c).

Lemma published_package_usable_witness :
  ∃ k (c : RunClient) x, generate_key_package (client_of 2) [byte.of_Z 22] [byte.of_Z 42] = (Ok k, c) ∧
    validate_key_package run_csp TreeKem.sample_ip 5 (kg_key_package k) 1 = Ok tt ∧
    find_key_package_generation (cfg_key_package_repo (cl_config c)) [x] = Ok (x, k).
Proof.
  assert (match published with
          | Ok (k, _) => negb (bool_decide (hpke_init_key (kg_key_package k) = leaf_public_key (kp_leaf_node (kg_key_package k))))
          | _ => false end = true) as Hok by (vm_compute; reflexivity).
  unfold published in Hok. destruct (generate_key_package (client_of 2) _ _) as [[k| | |] c] eqn:E; try discriminate Hok.
  apply negb_true_iff, bool_decide_eq_false_1 in Hok.
  set (x := {| new_member := reference k; encrypted_group_secrets := {| kem_output := []; ciphertext := [] |} |}).
  exists k, c, x. split; [reflexivity|].
  exact (published_package_usable (client_of 2) c (person 2) run_csp [byte.of_Z 2] 5 _ _ k [] x [] client_set_up E Hok eq_refl
    (Forall_nil_2 _)).
Defined.

(** ** An observer *)
Definition observer_config (jitter : option Z) : ExternalClientConfig DefaultMlsRules := {|
  ex_supported_extensions := []; ex_supported_custom_proposals := []; ex_supported_protocol_versions := [1];
  ex_identity_provider := TreeKem.sample_ip; ex_crypto_provider cs := if cs =? 1 then Some run_csp else None;
  ex_mls_rules := run_rules; ex_cache_proposals := true; max_epoch_jitter := jitter |}.

(** An observer takes up the state from member 0, which is then given a proposal of
    member 1 and the commit of it. *)
Definition observing : Result MlsError (ExternalGroup DefaultMlsRules * RunGroup * (MlsMessage * ReceivedMessage * RunGroup) *
    (MlsMessage * ReceivedMessage * RunGroup)) :=
  '(g, h) ← two_members;
  info ← group_info_message_allowing_ext_commit g true;
  x ← external_join (observer_config None) None info None;
  '(m1, h) ← after (propose_group_context_extensions h [] [] []);
  '(r1, g1) ← receives g m1;
  '(o, _) ← commits h commit_builder 80;
  '(r2, g2) ← receives g1 (commit_message o);
  Ok (x, g, (m1, r1, g1), (commit_message o, r2, g2)).

Definition plain (m : MlsMessage) : bool := match payload m with Plain _ => true | _ => false end.
Lemma plain_payload m : plain m = true → ∃ p, payload m = Plain p.
Proof. unfold plain. destruct (payload m); try discriminate. by eexists. Qed.

Lemma observing_facts :
  match observing with
  | Ok (x, g, (m1, r1, g1), (m2, r2, g2)) =>
      eg_state x = g_state g ∧ g_pending_commit g = None ∧ g_pending_commit g1 = None ∧ plain m1 = true ∧ plain m2 = true ∧
      match r1 with CommitMessage _ => false | _ => true end = true ∧
      match r2 with CommitMessage d => active (state_update d) | _ => false end = true ∧
      epoch (group_ctx g1) = 1 ∧ epoch (group_ctx g2) = 2
  | _ => False
  end.
Proof. vm_compute. by split_and!. Qed.

Lemma observer_in_step_witness :
  ∃ (g g' : RunGroup) x x' m1 m2, member_run 6 g [m1; m2] g' ∧ observer_run 6 x [m1; m2] x' ∧
    epoch (group_ctx g') = 2 ∧ watches g' x'.
Proof.
  pose proof observing_facts as F. destruct observing as [[[[x g] [[m1 r1] g1]] [[m2 r2] g2]]| | |] eqn:E; [|destruct F..].
  destruct F as (F1 & F2 & F3 & [p1 F4]%plain_payload & [p2 F5]%plain_payload & F6 & F9 & F7 & F8). unfold observing in E.
  apply bind_ok in E as ([g0 h] & E0 & E). pose proof (two_members_config _ _ E0) as Hcfg. apply two_members_provider in E0 as [E0 _].
  apply bind_ok in E as (info & _ & E). apply bind_ok in E as (x0 & Hx & E). apply bind_ok in E as ([m h1] & _ & E).
  apply bind_ok in E as ([r1' g1'] & H1%after_ok & E). apply bind_ok in E as ([o h2] & _ & E).
  apply bind_ok in E as ([r2' g2'] & H2%after_ok & [= -> -> -> -> -> <- -> ->]).
  assert (watches g x) as Hw.
  { unfold external_join in Hx. apply bind_unit_ok in Hx as [_ Hx]. apply bind_ok in Hx as (i & _ & Hx).
    apply bind_ok in Hx as (csp & Hcsp & Hx). apply bind_ok in Hx as (t & _ & Hx). apply bind_ok in Hx as (y & _ & Hx).
    injection Hx as <-. split; cbn; [exact F1| |by rewrite Hcfg..]. rewrite E0. unfold ex_cipher_suite_provider in Hcsp.
    cbn in Hcsp. destruct (_ =? 1); cbn in Hcsp; congruence. }
  assert (member_run 6 g [m1; commit_message o] g2) as Hm.
  { assert (∀ (h : RunGroup) m, g_pending_commit h = None → from_another h m) as Hnone by (intros h' m' Hn pending hash; by rewrite Hn).
    econstructor; [exact F4|by apply Hnone|exact H1|intros d ->; discriminate F6|].
    econstructor; [exact F5|by apply Hnone|exact H2| |constructor]. intros d ->. apply (active_kept g1 6 (commit_message o) p2 d g2); try done. by apply Hnone. }
  assert (ex_cache_proposals (eg_config x) = true) as Hc.
  { unfold external_join in Hx. apply bind_unit_ok in Hx as [_ Hx]. do 4 apply bind_ok in Hx as (? & _ & Hx). by injection Hx as <-. }
  destruct (observer_in_step 6 g _ g2 x Hw Hc Hm) as (x' & Hr & Hw').
  exists g, g2, x, x', m1, (commit_message o). by split_and!.
Defined.

(** A private message that an observer with a bound of ten epochs is given in epoch 1. *)
Lemma jitter_refuses_early_epochs_witness :
  ∃ (x : ExternalGroup DefaultMlsRules) m, epoch (gs_context (eg_state x)) = 0 ∧
    external_process_incoming_message x 6 m = (Err InvalidEpoch, x).
Proof.
  set (c := new_group 1 1 [byte.of_Z 7] [] []).
  set (x := {| eg_config := observer_config (Some 10); eg_csp := run_csp; signing_data := None;
               eg_state := group_state_new c {| index := TreeIndex.new; nodes := []; tree_hashes := [] |} [] [] |}
            : ExternalGroup DefaultMlsRules).
  set (m := {| msg_version := 1; payload := Cipher {| pr_group_id := [byte.of_Z 7]; pr_epoch := 0; pr_content_type := ApplicationType;
                 pr_authenticated_data := []; encrypted_sender_data := []; pr_ciphertext := [] |} |}).
  exists x, m. split; [reflexivity|].
  assert (is_u64 10 ∧ is_u64 0) as [H1 H2] by (unfold is_u64; lia).
  exact (jitter_refuses_early_epochs x 6 m _ 10 eq_refl eq_refl eq_refl eq_refl eq_refl eq_refl H1 H2).
Defined.

(** ** Agreement under a provider that does not collide *)

(** Two byte strings as one, from which both can be read back. *)
Definition pair_bytes (a b : bytes) : bytes := concat ((λ x, [byte.of_Z 1; x]) <$> a) ++ byte.of_Z 0 :: b.

Lemma pair_bytes_inj a b a' b' : pair_bytes a b = pair_bytes a' b' → a = a' ∧ b = b'.
Proof.
  unfold pair_bytes. revert a'. induction a as [|x a IH]; intros [|y a']; cbn; intros H; try discriminate H.
  - by injection H as ->.
  - injection H as -> [-> ->]%IH. done.
Qed.

(** The provider of the other runs, with a MAC and a key derivation that keep what
    they are given. *)
Definition pinning_csp : CipherSuiteProvider := {|
  csp_cipher_suite := 1; csp_hash := csp_hash run_csp; csp_mac k b := inr (pair_bytes k b);
  csp_aead_seal := csp_aead_seal run_csp; csp_aead_open := csp_aead_open run_csp;
  csp_aead_key_size := csp_aead_key_size run_csp; csp_aead_nonce_size := csp_aead_nonce_size run_csp;
  csp_kdf_extract := csp_kdf_extract run_csp;
  csp_kdf_expand p i n := if n =? 8 then inr (pair_bytes p i) else csp_kdf_expand run_csp p i n; csp_kdf_extract_size := 8;
  csp_hpke_seal := csp_hpke_seal run_csp; csp_hpke_open := csp_hpke_open run_csp;
  csp_hpke_export_s := csp_hpke_export_s run_csp; csp_hpke_export_r := csp_hpke_export_r run_csp;
  csp_kem_derive := csp_kem_derive run_csp; csp_kem_generate := csp_kem_generate run_csp;
  csp_kem_public_key_validate := csp_kem_public_key_validate run_csp; csp_random_bytes := csp_random_bytes run_csp;
  csp_verify := csp_verify run_csp; csp_sign := csp_sign run_csp |}.

Lemma pinning_no_collision l l' : ¬ key_collision pinning_csp l l'.
Proof.
  intros (c & c' & b & _ & _ & Hs & Hne & Ho & Ho'). apply Hne.
  destruct c, c'; try done; cbn in Ho, Ho'; injection Ho as <-; injection Ho' as H; by apply pair_bytes_inj in H as [-> ->].
Qed.

Definition pinning_config (packages : gmap bytes KeyPackageData) : RunConfig :=
  let c := run_config TreeKem.sample_ip packages in {|
  supported_extensions := supported_extensions c; supported_custom_proposals := supported_custom_proposals c;
  supported_protocol_versions := supported_protocol_versions c; cfg_key_package_repo := cfg_key_package_repo c;
  cfg_mls_rules := cfg_mls_rules c; secret_store := secret_store c; group_state_storage := group_state_storage c;
  cfg_identity_provider := cfg_identity_provider c; crypto_provider cs := if cs =? 1 then Some pinning_csp else None;
  supported_cipher_suites := supported_cipher_suites c; key_package_extensions := key_package_extensions c;
  leaf_node_extensions := leaf_node_extensions c; cfg_lifetime := cfg_lifetime c |}.

(** The founder adds a member: the founder before and after the commit, the welcome
    message, and the new member with the configuration it joined with. *)
Definition pinning_run : Result MlsError (RunGroup * CommitMessageDescription * RunGroup * MlsMessage * RunConfig * RunGroup) :=
  g ← group_new (pinning_config ∅) (Some [byte.of_Z 7]) 1 1 (person 1) [] [byte.of_Z 1] [byte.of_Z 10] [] [byte.of_Z 11];
  k ← generate {| gen_protocol_version := 1; gen_cipher_suite_provider := pinning_csp; gen_signing_identity := person 2;
                  signing_key := [byte.of_Z 2] |} [byte.of_Z 22] [byte.of_Z 42]
        {| not_before := 0; not_after := 1000 |} (config_capabilities (pinning_config ∅)) [] [];
  b ← add_member commit_builder (key_package_message k);
  '(o, g) ← after (build g b (randomness 60) 5);
  '(d, g1) ← after (apply_pending_commit g);
  w ← unwrap (head (welcome_messages o));
  '(id, data) ← to_storage k;
  '(h, _) ← join w None (pinning_config {[id := data]}) [byte.of_Z 2];
  Ok (g, d, g1, w, pinning_config {[id := data]}, h).

Lemma pinning_facts :
  match pinning_run with
  | Ok (g, d, g1, w, c, h) => csp_cipher_suite (g_csp g) = 1 ∧ active (state_update d) = true ∧
      match payload w with WelcomePayload x => w_cipher_suite x = 1 | _ => False end ∧
      bool_decide (group_context_wf (group_ctx g1)) = true ∧ bool_decide (group_context_wf (group_ctx h)) = true ∧
      bool_decide (gs_confirmation_tag (g_state g1) = gs_confirmation_tag (g_state h)) = true ∧
      (tree_size g1 =? tree_size h) = true
  | _ => False
  end.
Proof. vm_compute. by split_and!. Qed.

Lemma same_tag_same_epoch_witness :
  ∃ g d g1 w c (h : RunGroup), pinning_run = Ok (g, d, g1, w, c, h) ∧ group_ctx g1 = group_ctx h ∧ g_epoch_secrets g1 = g_epoch_secrets h.
Proof.
  pose proof pinning_facts as F. destruct pinning_run as [[[[[[g d] g1] w] c] h]| | |] eqn:E; [|destruct F..].
  destruct F as (_ & F1 & F2 & F3%bool_decide_eq_true_1 & F4%bool_decide_eq_true_1 & F5%bool_decide_eq_true_1 & F6%Z.eqb_eq).
  exists g, d, g1, w, c, h. split; [reflexivity|]. unfold pinning_run in E. apply bind_ok in E as (g0 & E0 & E).
  apply bind_ok in E as (k & _ & E). apply bind_ok in E as (b & _ & E). apply bind_ok in E as ([o g'] & Eb%after_ok & E).
  apply bind_ok in E as ([d' g1'] & Ec%after_ok & E). apply bind_ok in E as (w' & _ & E). apply bind_ok in E as ([id data] & _ & E).
  apply bind_ok in E as ([h' e] & Ej & [= <- <- <- <- <- <-]).
  assert (g_csp g' = pinning_csp) as Hcsp.
  { apply new_consistent in E0 as [Hc Hcfg].
    assert (moves g0 (build g0 b (randomness 60) 5).2) as M by apply commit_internal_moves. rewrite Eb in M. cbn in M.
    apply moves_consistent in M as Hc'; [|done]. destruct Hc' as [Hp _ _]. rewrite (mv_config _ _ M), Hcfg in Hp.
    cbn in Hp. destruct (_ =? 1); congruence. }
  assert (∃ j q, enters_with pinning_csp g1' j q) as (j1 & q1 & H1).
  { unfold apply_pending_commit, st_lift in Ec. destruct (g_pending_commit g') as [p|]; cbn [ok_or st_bind] in Ec; [|discriminate Ec].
    assert (goes_on (pending_content p) None g') as Hgo.
    { pose proof (commit_outcome g' (pending_content p) None) as H. rewrite Ec in H. destruct H as [[_ H]%stops_inactive|[H _]]; [congruence|exact H]. }
    destruct (commit_confirmed _ _ _ _ _ Ec Hgo) as (j & q & Hj & _). exists j, q. by eapply by_commit. }
  assert (∃ j q, enters_with pinning_csp h' j q) as (j2 & q2 & H2).
  { pose proof Ej as (csp & s & q & [Ho _] & Hq)%welcome_enters. exists (Framing.joiner_secret s), q.
    assert (csp = pinning_csp) as ->.
    { apply opened_provider in Ho as (x & Hx & Hc). rewrite Hx in F2. rewrite F2 in Hc. by injection Hc as <-. }
    by eapply by_welcome. }
  destruct (same_tag_same_epoch pinning_csp g1' h' j1 j2 q1 q2 H1 H2 F3 F4 F5) as [(Hctx & _ & _ & _ & Hs)|Hcol].
  - split; [exact Hctx|exact (Hs F6)].
  - exact (False_ind _ (pinning_no_collision _ _ Hcol)).
Defined.
