(* ===== verification/Lite.v ===== *)
(** * The build without proposals by reference
    (mls-rs/src/group/proposal_filter/filtering_lite.rs, filtering_common.rs,
    TreeKemPublic::batch_edit_lite, group/state_repo_light.rs)

    With the feature [by_ref_proposal] off nothing is ever filtered: the checks of
    a commit only accept or refuse, and the edit of the tree has no error to
    recover from.  With [prior_epoch] off the repository of epochs keeps none.
    These are separate implementations of what ProposalFilter.v, TreeKem.v and
    StateRepo.v model.  [batch_edit_lite_exact] and [lite_check_exact] show that
    they accept the same commits with the same outcome, where the proposals a
    member may send are the same; [lite_takes_external_init] is the difference.

    The bundle of this build has no updates: it is a [ProposalBundle] whose
    updates are empty ([by_value_bundle]). *)
From Stdlib Require Import Strings.String.
From S2P Require Import Prelude Codec TreeMath Types Node TreeIndex Extensions Crypto Labels TreeHash ParentHash Proposal TreeKem GroupContext Validator Storage ProposalFilter.
Import Node ParentHash TreeKem.

(** ** [batch_edit_lite] *)
Section batch.
Context (ip : IdentityProvider) (ext : ExtensionList.t).

Definition remove_lite (t : TreeKemPublic) (p : ProposalInfo Z) : Result MlsError TreeKemPublic :=
  let i := proposal p in
  let '(res, ns) := blank_leaf_node (nodes t) i in
  old_leaf ← res;
  id ← identity (signing_identity old_leaf) ip ext;
  let t := with_index (with_nodes t ns) (TreeIndex.remove (index t) old_leaf id) in
  ns ← blank_direct_path (nodes t) i;
  Ok (with_nodes t ns).

Definition add_lite (s : TreeKemPublic * Z * list Z) (p : ProposalInfo KeyPackage)
    : Result MlsError (TreeKemPublic * Z * list Z) :=
  let '(t, start, added) := s in
  let '(r, t) := TreeKem.add_leaf ip ext t (kp_leaf_node (proposal p)) (Some start) in
  i ← r; Ok (t, i, added ++ [i]).

Definition batch_edit_lite (csp : CipherSuiteProvider) (t : TreeKemPublic) (b : ProposalBundle)
    : Result MlsError (TreeKemPublic * list Z) :=
  t ← foldM remove_lite t (removals b);
  '(t, _, added) ← foldM add_lite (t, 0, []) (additions b);
  let t := with_nodes t (trim (nodes t)) in
  t ← TreeHash.update_hashes csp t ((proposal <$> removals b) ++ added);
  Ok (t, added).

(** The two loops over the adds are the same. *)
Lemma add_step_lite l i p t start added bad :
  l !! i = Some p →
  TreeKem.add_step ip ext false l (t, start, added, bad) i =
    ('(t, i, added) ← add_lite (t, start, added) p; Ok (t, i, added, bad)).
Proof.
  intros Hp. unfold TreeKem.add_step, add_lite. rewrite Hp. cbn [unwrap mbind result_bind].
  destruct (TreeKem.add_leaf _ _ _ _ _) as [[j|e| |] t']; cbn [mbind result_bind]; by rewrite ?orb_true_r.
Qed.

Lemma adds_lite post : ∀ pre t start added bad,
  foldM (TreeKem.add_step ip ext false (pre ++ post)) (t, start, added, bad) (seq (length pre) (length post)) =
    ('(t, i, added) ← foldM add_lite (t, start, added) post; Ok (t, i, added, bad)).
Proof.
  induction post as [|p post IH]; intros pre t start added bad; [done|]. cbn [length seq foldM].
  rewrite (add_step_lite _ _ p) by by apply list_lookup_middle. rewrite !bind_assoc. apply bind_ext.
  intros [[t' j] added'] _. cbn [mbind result_bind]. replace (pre ++ p :: post) with ((pre ++ [p]) ++ post) by by rewrite <- app_assoc.
  replace (S (length pre)) with (length (pre ++ [p])) by (rewrite length_app; cbn; lia). apply IH.
Qed.

(** A step of the two loops over the removals has the same outcome. *)
Lemma remove_step_lite t b i p t' b' :
  removals b !! i = Some p →
  TreeKem.remove_step ip ext false (t, b) i = Ok (t', b') ↔ b' = b ∧ remove_lite t p = Ok t'.
Proof.
  intros Hp. unfold TreeKem.remove_step, remove_lite. rewrite Hp. cbn [unwrap mbind result_bind].
  destruct (blank_leaf_node _ _) as [[l|e| |] ns]; cbn [is_ok mbind result_bind];
    [|rewrite orb_true_r; cbn; naive_solver..].
  destruct (identity _ _ _) as [id|e| |]; cbn [mbind result_bind].
  2-4: split; [|naive_solver]; destruct (blank_direct_path _ _); done.
  change (nodes (with_index _ _)) with ns. destruct (blank_direct_path _ _) as [ns'| | |]; cbn [mbind result_bind];
    rewrite ?orb_true_r; cbn; [|naive_solver..]. split; [intros [= <- <-]|intros [-> [= <-]]]; done.
Qed.

Lemma removes_lite_rev b n : ∀ t t' b', (n ≤ length (removals b))%nat →
  foldM (TreeKem.remove_step ip ext false) (t, b) (rev (seq 0 n)) = Ok (t', b') ↔
  b' = b ∧ foldM remove_lite t (rev (take n (removals b))) = Ok t'.
Proof.
  induction n as [|n IH]; intros t t' b' Hn; [cbn; naive_solver|].
  destruct (lookup_lt_is_Some_2 (removals b) n) as [p Hp]; [lia|].
  rewrite (take_S_r _ _ _ Hp), rev_app_distr, seq_S, rev_app_distr. cbn [rev app foldM Nat.add].
  rewrite !bind_ok. split.
  - intros ([t1 b1] & [-> H1]%(remove_step_lite _ _ _ p) & H2); [|done]. apply IH in H2 as [-> H2]; [|lia]. eauto.
  - intros [-> (t1 & H1 & H2)]. exists (t1, b). split; [by apply (remove_step_lite _ _ _ p)|]. apply IH; [lia|done].
Qed.

(** ** The order of the removals *)
Lemma nodes_ext (a b : NodeVec) : len a = len b → a ≈ b → a = b.
Proof.
  unfold len. intros Hl H. apply list_eq. intros i. destruct (decide (i < length a)%nat) as [Hi|Hi].
  - destruct (lookup_lt_is_Some_2 a i) as [x Hx]; [lia|]. destruct (lookup_lt_is_Some_2 b i) as [y Hy]; [lia|].
    specialize (H (Z.of_nat i)). unfold node_at, vec_get in H. rewrite (proj2 (Z.ltb_ge _ _)) in H by lia.
    rewrite Nat2Z.id, Hx, Hy in H. cbn in H. congruence.
  - by rewrite !lookup_ge_None_2 by lia.
Qed.

Lemma alter_here {V} (f : V → V) (m : gmap Z V) k k' :
  alter f k m !! k' = if decide (k' = k) then f <$> m !! k' else m !! k'.
Proof. rewrite TreeIndex.alter_at. by case_decide; subst. Qed.

(** Taking two members with different identities out of the index. *)
Lemma index_remove_comm ti l k id jd :
  id ≠ jd → is_Some (TreeIndex.identities ti !! id) → is_Some (TreeIndex.identities ti !! jd) →
  TreeIndex.remove (TreeIndex.remove ti l id) k jd = TreeIndex.remove (TreeIndex.remove ti k jd) l id.
Proof.
  intros Hne Hi Hj. unfold TreeIndex.remove. rewrite !(bool_decide_eq_true_2 (is_Some (TreeIndex.identities ti !! _))) by done.
  cbn [negb TreeIndex.identities TreeIndex.credential_signature_key TreeIndex.hpke_key TreeIndex.credential_type_counters
    TreeIndex.proposal_type_counter]. rewrite !lookup_delete_ne, !bool_decide_eq_true_2 by done. cbn [negb]. f_equal.
  - apply delete_delete.
  - apply delete_delete.
  - apply delete_delete.
  - apply map_eq. intros ty. unfold TreeIndex.sub_supported, TreeIndex.sub_used.
    rewrite !TreeIndex.foldl_alter, !alter_here, !TreeIndex.foldl_alter, !alter_here.
    destruct (TreeIndex.credential_type_counters ti !! ty); by repeat case_decide.
  - apply map_eq. intros ty. unfold TreeIndex.sub_proposal. rewrite !TreeIndex.foldl_alter. by repeat case_decide.
Qed.

(** The nodes a removal blanks. *)
Definition on_path (leaf i : Z) : Prop := i = 2 * leaf ∨ ancestor leaf i.

Lemma on_path_em leaf i : 0 ≤ leaf → on_path leaf i ∨ ¬ on_path leaf i.
Proof. intros H. unfold on_path. destruct (ancestor_em leaf i H), (decide (i = 2 * leaf)); tauto. Qed.

(** Removing a member: the leaf and its ancestors are blanked, the rest stays. *)
Lemma remove_lite_inv t R p t' :
  inv ip ext t R → populated (nodes t) → 0 ≤ proposal p < 2 ^ 31 → remove_lite t p = Ok t' →
  ∃ l id, R !! proposal p = Some l ∧ identity (signing_identity l) ip ext = Ok id ∧
    index t' = TreeIndex.remove (index t) l id ∧ tree_hashes t' = tree_hashes t ∧
    len (nodes t') = len (nodes t) ∧ inv ip ext t' (delete (proposal p) R) ∧ populated (nodes t') ∧
    ∀ i, (on_path (proposal p) i → node_at (nodes t') i = None) ∧
         (¬ on_path (proposal p) i → node_at (nodes t') i = node_at (nodes t) i).
Proof.
  intros Hinv Hpop Hx H. pose proof (remove_step_strict ip ext t R (set_removals [p] empty_bundle) 0 p Hinv Hpop eq_refl Hx) as Hs.
  rewrite (proj2 (remove_step_lite t (set_removals [p] empty_bundle) 0 p t' _ eq_refl) (conj eq_refl H)) in Hs. cbn in Hs.
  destruct Hs as (_ & _ & Hpop' & (Hinv' & _ & Hh & Hl') & _). revert H. unfold remove_lite.
  destruct (blank_leaf_node _ _) as [[l| | |] ns] eqn:Eb; try done. cbn [mbind result_bind].
  destruct (identity _ _ _) as [id| | |] eqn:Hid; try done. cbn [mbind result_bind nodes with_index with_nodes].
  apply blank_leaf_node_ok in Eb as (Hat & Hlen & Hns); [|done]. pose proof (node_at_range _ _ _ Hat) as Hrg.
  destruct (blank_direct_path_spec ns (proposal p)) as (ns' & -> & Hlen' & Hns').
  { pose proof (inv_fits _ _ _ _ Hinv). unfold fits in *. lia. }
  { split; [lia|]. apply leaf_in_tree; [by pose proof (inv_fits _ _ _ _ Hinv); unfold fits in *; lia|lia|lia]. }
  intros [= <-]. exists l, id. cbn in Hh, Hl' |- *. split_and!; try done.
  { rewrite <- (inv_roster _ _ _ _ Hinv) by lia. apply leaf_at_node; [by eapply inv_parity|done]. }
  intros i. destruct (Hns' i) as [H1 H2]. split.
  - intros [->|Ha]; [|by apply H1]. destruct (ancestor_em (proposal p) (2 * proposal p)) as [Ha|Hn]; [lia|by apply H1|].
    by rewrite H2, Hns, Z.eqb_refl.
  - intros Hn. unfold on_path in Hn. rewrite H2, Hns, (proj2 (Z.eqb_neq _ _)); tauto.
Qed.

Lemma remove_lite_total t R p l id :
  inv ip ext t R → 0 ≤ proposal p < 2 ^ 31 → R !! proposal p = Some l → identity (signing_identity l) ip ext = Ok id →
  is_Some (result_ok (remove_lite t p)).
Proof.
  intros Hinv Hx HR Hid. pose proof (inv_fits _ _ _ _ Hinv) as Hf.
  rewrite <- (inv_roster _ _ _ _ Hinv) in HR by lia. apply leaf_at_node in HR; [|by eapply inv_parity].
  pose proof (node_at_range _ _ _ HR) as Hrg. unfold remove_lite. rewrite (blank_leaf_node_total _ _ l) by done.
  cbn [mbind result_bind]. rewrite Hid. cbn [mbind result_bind nodes with_index with_nodes].
  assert (fits (vec_set (nodes t) (2 * proposal p) None)) as Hf' by (unfold fits in *; by rewrite len_vec_set).
  destruct (blank_direct_path_spec (vec_set (nodes t) (2 * proposal p) None) (proposal p)) as (ns' & -> & _ & _); [done| |by eexists].
  split; [lia|]. apply leaf_in_tree; [done|lia|rewrite len_vec_set; lia].
Qed.

Lemma index_knows t R i l id :
  inv ip ext t R → R !! i = Some l → identity (signing_identity l) ip ext = Ok id →
  TreeIndex.identities (index t) !! id = Some i.
Proof.
  intros Hinv Hi Hid%identity_ok. apply (TreeIndex.rep_identities _ _ _ (inv_index _ _ _ _ Hinv)). by exists l.
Qed.

(** Two removals can be swapped. *)
Lemma remove_lite_comm t R p q t1 t2 :
  inv ip ext t R → populated (nodes t) → 0 ≤ proposal p < 2 ^ 31 → 0 ≤ proposal q < 2 ^ 31 →
  remove_lite t p = Ok t1 → remove_lite t1 q = Ok t2 → ∃ t1', remove_lite t q = Ok t1' ∧ remove_lite t1' p = Ok t2.
Proof.
  intros Hinv Hpop Hp Hq H1 H2.
  destruct (remove_lite_inv t R p t1) as (l & id & HRp & Hid & Hi1 & Hh1 & Hl1 & Hinv1 & Hpop1 & Hn1); [done..|].
  destruct (remove_lite_inv t1 _ q t2 Hinv1) as (k & jd & HRq & Hjd & Hi2 & Hh2 & Hl2 & _ & _ & Hn2); [done..|].
  apply lookup_delete_Some in HRq as [Hne HRq].
  destruct (remove_lite_total t R q k jd) as [t1' H1']; [done..|].
  assert (remove_lite t q = Ok t1') as Hq1 by (destruct (remove_lite t q); by simplify_eq/=).
  destruct (remove_lite_inv t R q t1') as (k' & jd' & HRq' & Hjd' & Hi1' & Hh1' & Hl1' & Hinv1' & Hpop1' & Hn1'); [done..|].
  assert (delete (proposal q) R !! proposal p = Some l) as HRp' by by rewrite lookup_delete_ne.
  destruct (remove_lite_total t1' _ p l id Hinv1') as [t2' H2']; [done..|].
  assert (remove_lite t1' p = Ok t2') as Hp2 by (destruct (remove_lite t1' p); by simplify_eq/=).
  destruct (remove_lite_inv t1' _ p t2' Hinv1') as (l' & id' & HRp2 & Hid2 & Hi2' & Hh2' & Hl2' & _ & _ & Hn2'); [done..|].
  exists t1'. split; [done|]. rewrite Hp2. f_equal. assert (l' = l ∧ k' = k ∧ id' = id ∧ jd' = jd) as (-> & -> & -> & ->) by (split_and!; congruence).
  assert (index t2' = index t2) as E1.
  { rewrite Hi2', Hi2, Hi1', Hi1. pose proof (index_knows _ _ _ _ _ Hinv HRp Hid) as Ka.
    pose proof (index_knows _ _ _ _ _ Hinv HRq Hjd) as Kb. apply index_remove_comm; [|by eexists..]. intros ->. congruence. }
  assert (nodes t2' = nodes t2) as E2.
  { apply nodes_ext; [congruence|]. intros i. destruct (Hn1 i) as [A1 A2], (Hn2 i) as [B1 B2], (Hn1' i) as [C1 C2], (Hn2' i) as [D1 D2].
    destruct (on_path_em (proposal p) i) as [Hi|Hi], (on_path_em (proposal q) i) as [Hj|Hj]; try lia;
      repeat match goal with H : on_path ?x i → _, H' : on_path ?x i |- _ => specialize (H H')
                           | H : ¬ on_path ?x i → _, H' : ¬ on_path ?x i |- _ => specialize (H H') end; congruence. }
  assert (tree_hashes t2' = tree_hashes t2) as E3 by congruence.
  destruct t2, t2'; cbn in *; congruence.
Qed.

Lemma removes_lite_perm ps qs : ps ≡ₚ qs → ∀ t R t',
  inv ip ext t R → populated (nodes t) → Forall (λ p : ProposalInfo Z, 0 ≤ proposal p < 2 ^ 31) ps →
  foldM remove_lite t ps = Ok t' → foldM remove_lite t qs = Ok t'.
Proof.
  induction 1 as [|p ps qs _ IH|p q ps|ps qs rs H1 IH1 H2 IH2]; intros t R t' Hinv Hpop Hr; cbn; [done| | |].
  - apply Forall_cons in Hr as [Hp Hr]. intros (t1 & H1 & H2)%bind_ok. rewrite H1. cbn.
    destruct (remove_lite_inv t R p t1) as (l & id & _ & _ & _ & _ & _ & Hinv1 & Hpop1 & _); [done..|]. by eapply IH.
  - apply Forall_cons in Hr as [Hq Hr]. apply Forall_cons in Hr as [Hp Hr]. intros (t1 & H1 & (t2 & H2 & H)%bind_ok)%bind_ok.
    destruct (remove_lite_comm t R q p t1 t2) as (t1' & -> & H'); [done..|]. cbn. by rewrite H'.
  - intros H. eapply IH2; [done|done| |by eapply IH1]. by rewrite <- H1.
Qed.

(** The two builds edit the tree in the same way: on a tree in good order, for a
    commit without updates, [batch_edit_lite] succeeds exactly when the full
    [batch_edit] with errors reported does, with the same tree (nodes, index and
    hashes) and the same places of the added members, although they take the
    removed members out in opposite orders. *)
Lemma batch_edit_lite_same csp t R b t' b' added :
  inv ip ext t R → populated (nodes t) → Forall (λ p : ProposalInfo Z, 0 ≤ proposal p < 2 ^ 31) (removals b) →
  updates b = [] → update_senders b = [] →
  TreeKem.batch_edit ip ext csp false t b = Ok (t', b', added) ↔ b' = b ∧ batch_edit_lite csp t b = Ok (t', added).
Proof.
  intros Hinv Hpop Hr Hu Hs. unfold batch_edit_lite, TreeKem.batch_edit, apply_removes.
  assert (∀ t1 b1, foldM (remove_step ip ext false) (t, b) (rev (seq 0 (length (removals b)))) = Ok (t1, b1) ↔
    b1 = b ∧ foldM remove_lite t (removals b) = Ok t1) as Hrem.
  { intros t1 b1. rewrite removes_lite_rev by done. rewrite take_ge by done.
    split; intros [-> H]; (split; [done|]).
    - eapply removes_lite_perm; [|done|done| |exact H]; [by rewrite <- Permutation_rev|by apply Forall_rev].
    - eapply removes_lite_perm; [|done|done|done|exact H]. apply Permutation_rev. }
  assert (∀ t1, (
    '(t2, partial) ← take_old_leaves ip ext false t1 b;
    s ← apply_updates ip ext false (index t2) {| us_tree := t2; removed_leaves := []; updated_indices := []; bad_indices := [] |} partial;
    ns ← foldM blank_direct_path (nodes (us_tree s)) (updated_indices s);
    '(t3, added, b) ← apply_adds ip ext false (with_nodes (us_tree s) ns) (drop_updates b s);
    t4 ← TreeHash.update_hashes csp (with_nodes t3 (trim (nodes t3))) ((proposal <$> removals b) ++ updated_indices s ++ added);
    Ok (t4, b, added)) =
    ('(t3, _, added) ← foldM add_lite (t1, 0, []) (additions b);
     t4 ← TreeHash.update_hashes csp (with_nodes t3 (trim (nodes t3))) ((proposal <$> removals b) ++ added);
     Ok (t4, b, added))) as Hrest.
  { intros t1. unfold take_old_leaves. rewrite Hu. cbn [zip zip_with imap foldM mbind result_bind apply_updates us_tree updated_indices].
    replace (drop_updates b _) with b by (unfold drop_updates, set_updates; cbn; rewrite <- Hu; by destruct b).
    replace (with_nodes t1 (nodes t1)) with t1 by by destruct t1. unfold apply_adds.
    pose proof (adds_lite (additions b) [] t1 0 [] []) as E. cbn [app length] in E. rewrite E, !bind_assoc. apply bind_ext. intros [[t3 i] added'] _. done. }
  split.
  - intros ([t1 b1] & [-> H1]%Hrem & H)%bind_ok. rewrite H1. cbn [mbind result_bind]. rewrite Hrest in H.
    apply bind_ok in H as ([[t3 i] added'] & -> & H). cbn [mbind result_bind]. inv_res. by rewrite Ha.
  - intros [-> (t1 & H1 & H)%bind_ok]. rewrite (proj2 (Hrem t1 b)) by done. cbn [mbind result_bind]. rewrite Hrest.
    apply bind_ok in H as ([[t3 i] added'] & -> & H). cbn [mbind result_bind]. inv_res. by rewrite Ha.
Qed.
End batch.

(** ** Leaf validation without external senders *)
Definition check_if_valid_lite (csp : CipherSuiteProvider) (ip : IdentityProvider) (exts : option ExtensionList.t)
    (l : LeafNode) (c : ValidationContext) : Result MlsError unit :=
  check_context l c;;
  provider (ip_validate_member ip (signing_identity l) (generation_time c) exts);;
  verify csp (signature_key (signing_identity l)) (ascii "LeafNodeTBS") (signable_content l (signing_context c)) (signature l);;
  validate_required_capabilities exts l;;
  require_all (cap_extensions (capabilities l)) ExtensionNotInCapabilities (extension_type <$> leaf_extensions l);;
  require_all (cap_extensions (capabilities l)) UnsupportedGroupExtension
    (List.filter (λ ty, negb (is_default ty)) (extension_type <$> default [] exts)).

(** ** The checks of a bundle *)

(** [try_for_each], and a [for] loop that only checks. *)
Definition for_each {A} (f : A → Result MlsError unit) (l : list A) : Result MlsError unit := foldM (λ _ a, f a) tt l.

Definition removal_of_committer_lite (commit_sender : Z) (b : ProposalBundle) : Result MlsError unit :=
  for_each (λ p, guard_or (negb (proposal p =? commit_sender)) CommitterSelfRemoval) (removals b).

Definition extra_group_context_extensions_lite (b : ProposalBundle) : Result MlsError unit :=
  guard_or (len (group_context_extensions b) <? 2) MoreThanOneGroupContextExtensionsProposal.

Definition invalid_reinit_lite (b : ProposalBundle) (version : Z) : Result MlsError unit :=
  match reinitializations b with
  | p :: _ => guard_or (version <=? reinit_version (proposal p)) InvalidProtocolVersionInReInit
  | [] => Ok tt
  end.

Definition reinit_if_other_proposals_lite (b : ProposalBundle) : Result MlsError unit :=
  guard_or (negb (non_empty (reinitializations b)) || (bundle_length b =? 1)) OtherProposalWithReInit.

Definition unsupported_custom_proposals_lite (b : ProposalBundle) (t : TreeKemPublic) : Result MlsError unit :=
  let supported_types := List.filter (TreeKem.can_support_proposal t) (custom_proposal_types b) in
  for_each (λ p, guard_or (bool_decide (custom_type (proposal p) ∈ supported_types))
                   (UnsupportedCustomProposal (custom_type (proposal p)))) (custom_proposals b).

(** [Sender] of this build: nobody outside the group proposes anything. *)
Inductive SenderLite := MemberLite (i : Z) | NewMemberCommitLite.

Record ApplyProposalsOutputLite := {
  lite_new_tree : TreeKemPublic;
  lite_indexes_of_added_kpkgs : list Z;
  lite_external_init_index : option Z;
  lite_new_context_extensions : option ExtensionList.t;
}.

Section applier.
Context {P : Type} `{!PreSharedKeyStorage P} (a : ProposalApplier P).

Let csp := cipher_suite_provider a.
Let ip := identity_provider a.

(** The loop of [filter_out_invalid_psks] without a strategy. *)
Fixpoint check_psks_lite (seen : list PreSharedKeyID) (l : list (ProposalInfo PreSharedKeyID)) : Result MlsError unit :=
  match l with
  | [] => Ok tt
  | p :: l =>
      if negb (psk_kind_valid (key_id (proposal p))) then Err InvalidTypeOrUsageInPreSharedKeyProposal
      else if negb (len (psk_nonce (proposal p)) =? csp_kdf_extract_size csp) then Err InvalidPskNonceLength
      else if bool_decide (proposal p ∈ seen) then Err DuplicatePskIds
      else external_id_is_valid (psk_storage a) (key_id (proposal p));; check_psks_lite (proposal p :: seen) l
  end.

Definition validate_new_node_lite (exts : ExtensionList.t) (k : KeyPackage) (commit_time : option Z) : Result MlsError unit :=
  check_if_valid_lite csp ip (Some exts) (kp_leaf_node k) (AddContext commit_time);;
  validate_key_package_properties csp k (pa_protocol_version a).

Definition validate_new_nodes_lite (b : ProposalBundle) (exts : ExtensionList.t) (commit_time : option Z) : Result MlsError unit :=
  for_each (λ p, validate_new_node_lite exts (proposal p) commit_time) (additions b).

Definition apply_tree_changes_lite (b : ProposalBundle) (exts : ExtensionList.t) (commit_time : option Z)
    : Result MlsError ApplyProposalsOutputLite :=
  validate_new_nodes_lite b exts commit_time;;
  '(t, added) ← batch_edit_lite ip exts csp (original_tree a) b;
  Ok {| lite_new_tree := t; lite_indexes_of_added_kpkgs := added; lite_external_init_index := None;
        lite_new_context_extensions := proposal <$> head (group_context_extensions b) |}.

Definition apply_proposals_with_new_capabilities_lite (b : ProposalBundle) (gce : ProposalInfo ExtensionList.t)
    (commit_time : option Z) : Result MlsError ApplyProposalsOutputLite :=
  output ← apply_tree_changes_lite b (proposal gce) commit_time;
  let leaves := Node.non_empty_leaves (nodes (lite_new_tree output)) in
  (if ExtensionList.has_extension (proposal gce) REQUIRED_CAPABILITIES
   then for_each (λ '(_, leaf), validate_required_capabilities (Some (proposal gce)) leaf) leaves
   else Ok tt);;
  extensions_supported (proposal gce) leaves;;
  Ok output.

Definition apply_proposal_changes_lite (b : ProposalBundle) (commit_time : option Z) : Result MlsError ApplyProposalsOutputLite :=
  match group_context_extensions_proposal b with
  | Some p => apply_proposals_with_new_capabilities_lite b p commit_time
  | None => apply_tree_changes_lite b (original_group_extensions a) commit_time
  end.

Definition check_member_proposals_lite (commit_sender : Z) (b : ProposalBundle) : Result MlsError unit :=
  removal_of_committer_lite commit_sender b;;
  check_psks_lite [] (psks b);;
  extra_group_context_extensions_lite b;;
  invalid_reinit_lite b (pa_protocol_version a);;
  reinit_if_other_proposals_lite b.

Definition apply_proposals_from_member_lite (commit_sender : Z) (b : ProposalBundle) (commit_time : option Z)
    : Result MlsError ApplyProposalsOutputLite :=
  check_member_proposals_lite commit_sender b;;
  apply_proposal_changes_lite b commit_time.

Definition apply_proposals_from_new_member_lite (b : ProposalBundle) (commit_time : option Z)
    : Result MlsError ApplyProposalsOutputLite :=
  leaf ← ok_or (external_leaf a) ExternalCommitMustHaveNewLeaf;
  ensure_exactly_one_external_init b;;
  ensure_at_most_one_removal_for_self a b leaf;;
  ensure_proposals_in_external_commit_are_allowed b;;
  ensure_no_proposal_by_ref b;;
  check_psks_lite [] (psks b);;
  output ← apply_proposal_changes_lite b commit_time;
  '(i, t) ← insert_external_leaf a (lite_new_tree output) leaf;
  Ok {| lite_new_tree := t; lite_indexes_of_added_kpkgs := lite_indexes_of_added_kpkgs output;
        lite_external_init_index := Some i; lite_new_context_extensions := lite_new_context_extensions output |}.

Definition apply_proposals_lite (commit_sender : SenderLite) (b : ProposalBundle) (commit_time : option Z)
    : Result MlsError ApplyProposalsOutputLite :=
  output ← (match commit_sender with
            | MemberLite i => apply_proposals_from_member_lite i b commit_time
            | NewMemberCommitLite => apply_proposals_from_new_member_lite b commit_time
            end);
  unsupported_custom_proposals_lite b (lite_new_tree output);;
  Ok output.
End applier.

(** ** The two builds agree *)
Lemma for_each_ok {A} (f : A → Result MlsError unit) l : for_each f l = Ok tt ↔ Forall (λ a, f a = Ok tt) l.
Proof.
  unfold for_each. induction l as [|a l IH]; cbn; [split; [constructor|done]|]. rewrite bind_ok, Forall_cons, <- IH.
  split; [by intros ([] & ? & ?)|intros [? ?]; by exists tt].
Qed.

(** Every proposal of the bundle is the committer's own, sent by value; there are
    no updates. *)
Record by_value_bundle (s : Sender) (b : ProposalBundle) : Prop := {
  bv_updates : updates b = [];
  bv_senders : update_senders b = [];
  bv_all : Forall (λ p, info_sender p = s ∧ is_by_value p = true) (iter_proposals b);
}.

(** No extension of the list names external senders. *)
Definition no_external_senders (exts : ExtensionList.t) : Prop := ExtensionList.get exts EXTERNAL_SENDERS = None.

Lemma no_senders_valid exts l : no_external_senders exts → validate_external_senders_ext_credentials (Some exts) l = Ok tt.
Proof. intros H. unfold validate_external_senders_ext_credentials, group_extension, get_as. cbn. by rewrite H. Qed.

Lemma no_senders_absent exts : no_external_senders exts → ExtensionList.has_extension exts EXTERNAL_SENDERS = false.
Proof.
  unfold no_external_senders, ExtensionList.has_extension. induction exts as [|e l IH]; cbn; [done|]. by destruct (_ =? _).
Qed.

Lemma seq_unit (m : Result MlsError unit) : (m;; Ok tt) = m.
Proof. by destruct m as [[]| | |]. Qed.

Lemma check_if_valid_lite_same csp ip exts l c :
  no_external_senders exts → check_if_valid csp ip (Some exts) l c = check_if_valid_lite csp ip (Some exts) l c.
Proof.
  intros H. unfold check_if_valid, check_if_valid_lite. rewrite no_senders_valid by done.
  repeat (apply bind_ext; intros ? _). by rewrite seq_unit.
Qed.

Section agree.
Context {P : Type} `{!PreSharedKeyStorage P} (a : ProposalApplier P) (b : ProposalBundle) (commit_time : option Z).

(** The full build's output for the same bundle. *)
Definition full_output (o : ApplyProposalsOutputLite) : ApplyProposalsOutput := {|
  new_tree := lite_new_tree o; indexes_of_added_kpkgs := lite_indexes_of_added_kpkgs o;
  external_init_index := lite_external_init_index o; applied_proposals := b;
  new_context_extensions := lite_new_context_extensions o |}.

Definition agree (full : Result MlsError ApplyProposalsOutput) (lite : Result MlsError ApplyProposalsOutputLite) : Prop :=
  ∀ o, full = Ok o ↔ ∃ o', o = full_output o' ∧ lite = Ok o'.

Lemma check_psks_same seen l : retain_psks (cipher_suite_provider a) (psk_storage a) IgnoreNone seen l = (check_psks_lite a seen l;; Ok l).
Proof.
  revert seen. induction l as [|p l IH]; intros seen; cbn [retain_psks check_psks_lite]; [done|].
  unfold keep, check_psk, apply_strategy. cbn [ignore]. destruct (psk_kind_valid _); [|done]. cbn [negb].
  destruct (_ =? _); [|done]. cbn [negb]. case_bool_decide; [done|].
  destruct (external_id_is_valid _ _) as [[]| | |]; cbn [mbind result_bind]; [|done..]. rewrite IH.
  by destruct (check_psks_lite a _ l).
Qed.

Lemma psks_lite_ok : check_psks_lite a [] (psks b) = Ok tt ↔ psks_ok (cipher_suite_provider a) (psk_storage a) b.
Proof.
  assert (filter_out_invalid_psks (cipher_suite_provider a) (psk_storage a) IgnoreNone b = (check_psks_lite a [] (psks b);; Ok b)) as E.
  { unfold filter_out_invalid_psks. rewrite check_psks_same, bind_assoc. apply bind_ext. intros ? _. by destruct b. }
  split.
  - intros H. rewrite H in E. by apply invalid_psks_trims in E as [_ ?].
  - intros H. rewrite invalid_psks_good in E by done. by destruct (check_psks_lite a [] (psks b)) as [[]| | |].
Qed.

Lemma retain_strict {T} chk (l : list (ProposalInfo T)) : retain (keep IgnoreNone chk) l = Ok l ↔ for_each chk l = Ok tt.
Proof.
  rewrite for_each_ok. split; [|apply retain_good]. intros H. by apply retain_trims in H as [_ ?].
Qed.

Context (Hv : ∃ s, by_value_bundle s b).

Lemma validate_nodes_same exts b' :
  no_external_senders exts →
  validate_new_nodes a IgnoreNone b exts commit_time = Ok b' ↔ b' = b ∧ validate_new_nodes_lite a b exts commit_time = Ok tt.
Proof.
  intros Hn. destruct Hv as [s [Hu Hs _]]. unfold validate_new_nodes, validate_new_nodes_lite. rewrite Hu. cbn [zip zip_with bad_positions mbind result_bind].
  assert (∀ l, retain (keep IgnoreNone (λ p, validate_new_node a exts (proposal p) commit_time)) l = Ok l ↔
               for_each (λ p, validate_new_node_lite a exts (proposal p) commit_time) l = Ok tt) as E.
  { intros l. rewrite retain_strict, !for_each_ok. apply Forall_proper; [|done]. intros p. unfold validate_new_node, validate_new_node_lite.
    by rewrite check_if_valid_lite_same. }
  change (remove_updates b []) with b. rewrite <- E. split.
  - intros H. inv_res. pose proof (retain_trims _ _ _ _ Ha) as [Ht _]. apply tr_strict in Ht; [|done]. subst.
    split; [by destruct b|done].
  - intros [-> ->]. cbn. by destruct b.
Qed.

Lemma tree_changes_same exts R :
  no_external_senders exts → inv (identity_provider a) exts (original_tree a) R → populated (nodes (original_tree a)) →
  Forall (λ p : ProposalInfo Z, 0 ≤ proposal p < 2 ^ 31) (removals b) →
  agree (apply_tree_changes a IgnoreNone b exts commit_time) (apply_tree_changes_lite a b exts commit_time).
Proof.
  intros Hn Hinv Hpop Hr o. destruct Hv as [s [Hu Hs _]]. unfold apply_tree_changes, apply_tree_changes_lite. rewrite bind_ok. split.
  - intros (b1 & [-> H1]%validate_nodes_same & ([[t b2] added] & [-> H2]%(batch_edit_lite_same _ _ _ _ R) & [= <-])%bind_ok); try done.
    rewrite H1, H2. cbn. eexists. split; [|done]. done.
  - intros (o' & -> & ([] & H1 & ([t added] & H2 & [= <-])%bind_ok)%bind_ok). exists b. split; [by apply validate_nodes_same|].
    rewrite (proj2 (batch_edit_lite_same _ _ _ _ R b t b added Hinv Hpop Hr Hu Hs)) by done. done.
Qed.

(** The extensions of the new epoch, or of the old one when they stay. *)
Definition exts_in_use : ExtensionList.t :=
  match group_context_extensions_proposal b with Some p => proposal p | None => original_group_extensions a end.

Context (R : gmap Z LeafNode) (Hn : no_external_senders exts_in_use)
  (Hinv : inv (identity_provider a) exts_in_use (original_tree a) R) (Hpop : populated (nodes (original_tree a)))
  (Hr : Forall (λ p : ProposalInfo Z, 0 ≤ proposal p < 2 ^ 31) (removals b)).

Lemma all_support_lite exts l : no_external_senders exts →
  all_support exts l = for_each (λ '(_, leaf), validate_required_capabilities (Some exts) leaf) l.
Proof.
  intros H. unfold for_each. induction l as [|[i leaf] l IH]; [done|]. cbn [all_support foldM].
  rewrite no_senders_valid by done. cbn [mbind result_bind]. rewrite IH.
  by destruct (validate_required_capabilities _ _) as [[]| | |].
Qed.

Lemma proposal_changes_same : agree (apply_proposal_changes a IgnoreNone b commit_time) (apply_proposal_changes_lite a b commit_time).
Proof.
  unfold apply_proposal_changes, apply_proposal_changes_lite, exts_in_use in *.
  destruct (group_context_extensions_proposal b) as [p|]; [|by apply (tree_changes_same _ R)].
  intros o. unfold apply_proposals_with_new_capabilities, apply_proposals_with_new_capabilities_lite. rewrite bind_ok.
  pose proof (tree_changes_same _ R Hn Hinv Hpop Hr) as Hsame. rewrite (no_senders_absent _ Hn), orb_false_r.
  assert (∀ ls, (if ExtensionList.has_extension (proposal p) REQUIRED_CAPABILITIES then all_support (proposal p) ls else Ok tt) =
    (if ExtensionList.has_extension (proposal p) REQUIRED_CAPABILITIES
     then for_each (λ '(_, leaf), validate_required_capabilities (Some (proposal p)) leaf) ls else Ok tt)) as E.
  { intros ls. by rewrite all_support_lite. }
  cbn [ignore]. split.
  - intros (o1 & (o' & -> & Ht)%Hsame & H). rewrite E in H. cbn [new_tree full_output] in H. exists o'.
    destruct (if ExtensionList.has_extension _ _ then _ else _) as [[]|e| |] eqn:E1; try done. cbn [mbind result_bind] in H.
    destruct (extensions_supported _ _) as [[]|e| |] eqn:E2; try done. injection H as <-. split; [done|].
    rewrite Ht. cbn [mbind result_bind]. rewrite E1. cbn. by rewrite E2.
  - intros (o' & -> & (o2 & Ht & H)%bind_ok). inv_res. exists (full_output o'). split; [by apply Hsame; exists o'|]. rewrite E.
    cbn [new_tree full_output]. rewrite Ha. cbn [mbind result_bind]. by rewrite Ha0.
Qed.

(** What [by_value_bundle] says of the lists of the bundle. *)
Lemma by_value_lists s : by_value_bundle s b →
  Forall (λ p, info_sender p = s ∧ is_by_value p = true) (additions b) ∧
  Forall (λ p, info_sender p = s ∧ is_by_value p = true) (removals b) ∧
  Forall (λ p, info_sender p = s ∧ is_by_value p = true) (reinitializations b) ∧
  Forall (λ p, info_sender p = s ∧ is_by_value p = true) (psks b) ∧
  Forall (λ p, info_sender p = s ∧ is_by_value p = true) (external_initializations b) ∧
  Forall (λ p, info_sender p = s ∧ is_by_value p = true) (group_context_extensions b).
Proof. intros [_ _ H]. unfold iter_proposals in H. rewrite !Forall_app, !Forall_fmap in H. tauto. Qed.

Lemma may_propose {T} s ty (l : list (ProposalInfo T)) :
  can_propose s ty false = true → Forall (λ p, info_sender p = s ∧ is_by_value p = true) l → passes (check_proposer ty) l.
Proof.
  intros Hc H. eapply Forall_impl; [exact H|]. cbn. intros p [Hs Hp]. unfold check_proposer, proposer_can_propose, is_by_reference.
  rewrite Hs, Hp. cbn [negb]. by rewrite Hc.
Qed.

Lemma with_senders_none b' : updates b' = [] → update_senders b' = [] → with_senders b' = b'.
Proof. destruct b'. cbn. by intros -> ->. Qed.

Lemma customs_same t b' :
  filter_out_unsupported_custom_proposals IgnoreNone t b = Ok b' ↔ b' = b ∧ unsupported_custom_proposals_lite b t = Ok tt.
Proof.
  clear R Hv Hn Hinv Hpop Hr.
  unfold filter_out_unsupported_custom_proposals, unsupported_custom_proposals_lite. rewrite <- retain_strict. split.
  - intros H. inv_res. pose proof (retain_trims _ _ _ _ Ha) as [Ht _]. apply tr_strict in Ht; [|done]. subst. split; [by destruct b|done].
  - intros [-> ->]. cbn. by destruct b.
Qed.

(** The rules for a member's commit are what the checks of this build test. *)
Lemma member_rules_lite i :
  by_value_bundle (Member i) b → external_initializations b = [] →
  check_member_proposals_lite a i b = Ok tt ↔ member_rules a i commit_time b.
Proof.
  intros Hb Hx. pose proof (by_value_lists _ Hb) as (Ha & Hre & Hri & Hps & _ & Hg). destruct Hb as [Hu Hs _].
  unfold check_member_proposals_lite. rewrite !seq_ok, psks_lite_ok. unfold removal_of_committer_lite. rewrite for_each_ok.
  assert (Forall (λ p, guard_or (negb (proposal p =? i)) CommitterSelfRemoval = Ok tt) (removals b) ↔
          Forall (λ p, proposal p ≠ i) (removals b)) as ->.
  { apply Forall_proper; [|done]. intros p. rewrite guard_or_ok, negb_true_iff. apply Z.eqb_neq. }
  unfold extra_group_context_extensions_lite, reinit_if_other_proposals_lite. rewrite !guard_or_ok.
  assert (negb (non_empty (reinitializations b)) || (bundle_length b =? 1) = true ↔ reinitializations b = [] ∨ bundle_length b = 1) as ->.
  { rewrite orb_true_iff, Z.eqb_eq. destruct (reinitializations b); naive_solver. }
  assert (len (group_context_extensions b) <? 2 = true ↔ (length (group_context_extensions b) ≤ 1)%nat) as -> by (unfold len; lia).
  assert (reinitializations b = [] ∨ bundle_length b = 1 →
    invalid_reinit_lite b (pa_protocol_version a) = Ok tt ↔ Forall (λ p, pa_protocol_version a ≤ reinit_version (proposal p)) (reinitializations b)) as Hver.
  { intros Hone. unfold invalid_reinit_lite. pose proof (reinits_counted b) as Hc. destruct (reinitializations b) as [|p [|q l]].
    - split; [constructor|done].
    - rewrite guard_or_ok, Forall_singleton. lia.
    - destruct Hone as [|Hone]; [done|]. rewrite Hone in Hc. unfold len in Hc. cbn in Hc. lia. }
  split.
  - intros (H1 & H2 & H3 & H4 & H5). split; try done.
    + split; rewrite ?Hu, ?Hx; first [constructor | by eapply may_propose; [|eassumption]].
    + rewrite Hu. constructor.
    + unfold passes. revert H3 Hn. unfold exts_in_use, group_context_extensions_proposal.
      destruct (group_context_extensions b) as [|p [|q l]]; cbn; intros H3 Hn'; [constructor| |lia].
      apply Forall_singleton. unfold check_group_extensions, get_as. cbn. by rewrite Hn'.
    + by apply Hver.
  - intros []. split_and!; try done. by apply Hver.
Qed.

(** The strict check of the full build changes nothing in such a bundle. *)
Lemma member_checks_same i b' :
  by_value_bundle (Member i) b → check_member_proposals a IgnoreNone i b commit_time = Ok b' ↔ b' = b ∧ member_rules a i commit_time b.
Proof.
  intros [Hu Hs _]. split.
  - intros H. apply member_checks_sound in H as (Hrl & Ht & Hsd). pose proof (bundle_trimmed_strict _ _ Ht) as E.
    assert (updates b' = []) as Hu' by (rewrite E; done). rewrite Hu' in Hsd. rewrite Hsd in E.
    assert (b' = b) as -> by (rewrite E; clear -Hu Hs; destruct b; cbn in *; by subst). done.
  - intros [-> H]. rewrite (member_checks_complete a i commit_time IgnoreNone b H). f_equal. by apply with_senders_none.
Qed.

Lemma member_agree i : by_value_bundle (Member i) b → external_initializations b = [] →
  agree (apply_proposals_from_member a IgnoreNone i b commit_time) (apply_proposals_from_member_lite a i b commit_time).
Proof.
  intros Hb Hx o. unfold apply_proposals_from_member, apply_proposals_from_member_lite. rewrite bind_ok. split.
  - intros (b1 & [-> H1]%member_checks_same & (o' & -> & H2)%proposal_changes_same); [|done].
    exists o'. split; [done|]. apply member_rules_lite in H1; [|done..]. by rewrite H1.
  - intros (o' & -> & [H1 H2]%seq_ok). exists b. split.
    + apply member_checks_same; [done|]. split; [done|]. by apply member_rules_lite.
    + apply proposal_changes_same. by exists o'.
Qed.

(** An external commit holds nothing but external initializations, removals and
    pre-shared keys. *)
Lemma allowed_external : ensure_proposals_in_external_commit_are_allowed b = Ok tt →
  additions b = [] ∧ reinitializations b = [] ∧ group_context_extensions b = [].
Proof.
  unfold ensure_proposals_in_external_commit_are_allowed. destruct (List.find _ _) eqn:E; [done|]. intros _.
  assert (∀ ty, In ty (proposal_types b) →
    negb (bool_decide (ty ∈ [EXTERNAL_INIT; REMOVE; PSK])) && bool_decide (ty ∈ DEFAULT) = false) as H by by apply find_none.
  unfold proposal_types in H. setoid_rewrite in_app_iff in H. repeat setoid_rewrite in_app_iff in H.
  split_and!.
  - destruct (additions b); [done|]. specialize (H ADD ltac:(cbn; tauto)). by vm_compute in H.
  - destruct (reinitializations b); [done|]. specialize (H RE_INIT ltac:(cbn; tauto)). by vm_compute in H.
  - destruct (group_context_extensions b); [done|]. specialize (H GROUP_CONTEXT_EXTENSIONS ltac:(cbn; tauto)). by vm_compute in H.
Qed.

Lemma new_member_checks_same leaf b' : by_value_bundle NewMemberCommit b →
  check_new_member_proposals a b leaf = Ok b' ↔
    b' = b ∧ ensure_exactly_one_external_init b = Ok tt ∧ ensure_at_most_one_removal_for_self a b leaf = Ok tt ∧
    ensure_proposals_in_external_commit_are_allowed b = Ok tt ∧ ensure_no_proposal_by_ref b = Ok tt ∧
    check_psks_lite a [] (psks b) = Ok tt.
Proof.
  intros Hb. unfold check_new_member_proposals. rewrite !seq_ok.
  assert (ensure_proposals_in_external_commit_are_allowed b = Ok tt → filter_out_invalid_proposers IgnoreNone b = Ok b) as Hp.
  { intros (Ha & Hri & Hg)%allowed_external. pose proof (by_value_lists _ Hb) as (_ & Hre & _ & Hps & Hx & _). destruct Hb as [Hu _ _].
    apply invalid_proposers_good. split; rewrite ?Ha, ?Hri, ?Hg, ?Hu; first [constructor | by eapply may_propose; [|eassumption]]. }
  assert (∀ b1, filter_out_invalid_psks (cipher_suite_provider a) (psk_storage a) IgnoreNone b = Ok b1 ↔
                b1 = b ∧ check_psks_lite a [] (psks b) = Ok tt) as Hk.
  { intros b1. unfold filter_out_invalid_psks. rewrite check_psks_same, bind_assoc.
    destruct (check_psks_lite a [] (psks b)) as [[]| | |]; cbn; [|naive_solver..].
    replace (set_psks (psks b) b) with b by by destruct b. naive_solver. }
  split.
  - intros (H1 & H2 & H3 & H4 & H). rewrite Hp in H by done. cbn [mbind result_bind] in H. apply Hk in H as [-> H]. done.
  - intros (-> & H1 & H2 & H3 & H4 & H5). rewrite Hp by done. cbn [mbind result_bind]. by rewrite (proj2 (Hk b)).
Qed.

Lemma new_member_agree : by_value_bundle NewMemberCommit b →
  agree (apply_proposals_from_new_member a b commit_time) (apply_proposals_from_new_member_lite a b commit_time).
Proof.
  intros Hb o. unfold apply_proposals_from_new_member, apply_proposals_from_new_member_lite.
  destruct (external_leaf a) as [leaf|]; cbn [ok_or mbind result_bind]; [|naive_solver].
  rewrite bind_ok. split.
  - intros (b1 & (-> & H1 & H2 & H3 & H4 & H5)%new_member_checks_same & (o1 & (o' & -> & H6)%proposal_changes_same & H)%bind_ok); [|done].
    cbn [new_tree full_output] in H. apply bind_ok in H as ([i t] & H7 & [= <-]). eexists. split; [|rewrite !seq_ok].
    2: { split_and!; try done. rewrite H6. cbn [mbind result_bind]. rewrite H7. done. }
    done.
  - intros (o' & -> & H). rewrite !seq_ok in H. destruct H as (H1 & H2 & H3 & H4 & H5 & (o1 & H6 & ([i t] & H7 & [= <-])%bind_ok)%bind_ok).
    exists b. split; [by apply new_member_checks_same|].
    rewrite (proj2 (proposal_changes_same (full_output o1))) by by exists o1.
    cbn [new_tree full_output mbind result_bind]. by rewrite H7.
Qed.
End agree.
(** ** The proposals of a commit *)

(** In this build [ProposalOrRef] has proposals only. *)
Definition prepare_commit_lite (sender : Sender) (additional : list Proposal) : ProposalBundle :=
  foldl (λ b p, bundle_add b p sender ByValue) empty_bundle additional.

Definition resolve_for_commit_lite (sender : Sender) (proposal_list : list Proposal) : Result MlsError ProposalBundle :=
  foldM (λ b p, Ok (bundle_add b p sender ByValue)) empty_bundle proposal_list.

(** The committer and the receivers have the same bundle. *)
Lemma resolve_prepared_lite sender l : resolve_for_commit_lite sender l = Ok (prepare_commit_lite sender l).
Proof.
  unfold resolve_for_commit_lite, prepare_commit_lite. generalize empty_bundle. induction l as [|p l IH]; intros b; [done|]. apply IH.
Qed.

(** [Proposal] of this build has no updates. *)
Definition proposal_lite (p : Proposal) : Prop := match p with Update _ => False | _ => True end.

Lemma resolved_by_value sender l : Forall proposal_lite l → by_value_bundle sender (prepare_commit_lite sender l).
Proof.
  unfold prepare_commit_lite. intros Hl.
  enough (∀ b, by_value_bundle sender b → by_value_bundle sender (foldl (λ b p, bundle_add b p sender ByValue) b l)) as H
    by (apply H; split; [done|done|constructor]).
  induction Hl as [|p l Hp _ IH]; intros b [Hu Hs Ha]; [done|]. cbn [foldl]. apply IH. split.
  - by destruct p; cbn in *; rewrite ?Hu.
  - by destruct p; cbn in *.
  - rewrite bundle_add_iter, Forall_app, Forall_singleton. by split.
Qed.

Definition sender_of (s : SenderLite) : Sender :=
  match s with MemberLite i => Member i | NewMemberCommitLite => NewMemberCommit end.

Section exact.
Context {P : Type} `{!PreSharedKeyStorage P} (a : ProposalApplier P).

(** C38. The build without proposals by reference accepts the same commits as the
    full one.  Take the proposals of a commit by a member, or of an external
    commit, none of them an external initialization in the first case, where the
    group has no external senders and the tree is in good order.  Then the checks
    of [filtering_lite.rs] and [batch_edit_lite] succeed exactly when the filters
    of [filtering.rs] in the receiver's mode and [batch_edit] do, and the outcome
    is the same: the tree with its index and hashes, the places of the new
    members, the leaf of the external committer and the extensions of the new
    epoch; the full build applies the whole bundle. *)
Theorem lite_check_exact (s : SenderLite) (proposals : list Proposal) (commit_time : option Z) (R : gmap Z LeafNode) :
  let b := prepare_commit_lite (sender_of s) proposals in
  Forall proposal_lite proposals →
  (∀ i, s = MemberLite i → external_initializations b = []) →
  no_external_senders (exts_in_use a b) →
  inv (identity_provider a) (exts_in_use a b) (original_tree a) R → populated (nodes (original_tree a)) →
  Forall (λ p : ProposalInfo Z, 0 ≤ proposal p < 2 ^ 31) (removals b) →
  ∀ o, apply_proposals a IgnoreNone (sender_of s) b commit_time = Ok o ↔
       ∃ o', o = full_output b o' ∧ apply_proposals_lite a s b commit_time = Ok o'.
Proof.
  intros b Hl Hx Hn Hinv Hpop Hr. assert (by_value_bundle (sender_of s) b) as Hb by by apply resolved_by_value.
  assert (agree b (match sender_of s with
      | Member i => apply_proposals_from_member a IgnoreNone i b commit_time
      | NewMemberCommit => apply_proposals_from_new_member a b commit_time
      | External _ | NewMemberProposal => Err ExternalSenderCannotCommit
      end) (match s with
      | MemberLite i => apply_proposals_from_member_lite a i b commit_time
      | NewMemberCommitLite => apply_proposals_from_new_member_lite a b commit_time
      end)) as Hs.
  { destruct s as [i|]; cbn [sender_of].
    - eapply member_agree; try done; [by eexists|by eapply Hx].
    - eapply new_member_agree; try done. by eexists. }
  intros o. unfold apply_proposals, apply_proposals_lite. rewrite bind_ok. split.
  - intros (o1 & (o' & -> & H1)%Hs & (b1 & [-> H2]%customs_same & [= <-])%bind_ok). exists o'. split; [done|].
    rewrite H1. cbn [mbind result_bind]. cbn in H2. by rewrite H2.
  - intros (o' & -> & (o1 & H1 & [H2 [= <-]]%seq_ok)%bind_ok). exists (full_output b o1). split; [apply Hs; by exists o1|].
    cbn [new_tree applied_proposals full_output]. by rewrite (proj2 (customs_same b _ b)).
Qed.

(** The two builds differ on external initializations: RFC 9420 allows them in
    external commits only, and the full build refuses the commit of a member that
    has one; the other build does not look at them there. *)
Theorem lite_takes_external_init i b commit_time :
  reinitializations b = [] → external_initializations b ≠ [] →
  apply_proposals_lite a (MemberLite i) b commit_time =
    apply_proposals_lite a (MemberLite i) (set_external_inits [] b) commit_time ∧
  ∀ o, apply_proposals a IgnoreNone (Member i) b commit_time ≠ Ok o.
Proof.
  intros Hri Hx. split.
  - unfold apply_proposals_lite, apply_proposals_from_member_lite, check_member_proposals_lite, reinit_if_other_proposals_lite.
    cbn [reinitializations set_external_inits]. by rewrite Hri.
  - intros o. unfold apply_proposals, apply_proposals_from_member. intros (o1 & (b1 & H & _)%bind_ok & _)%bind_ok.
    apply member_checks_sound in H as ([] & Ht & _). pose proof (bundle_trimmed_strict _ _ Ht) as E. rewrite E in mr_external_init. done.
Qed.
End exact.

(** ** Concrete runs *)

(** Three members, and the leaf of a client that wants to join by itself. *)
Definition lite_sample_tree : TreeKemPublic :=
  match apply_adds sample_ip [] false new sample_adds with Ok (t, _, _) => t | _ => new end.

Definition lite_sample_applier : ProposalApplier InMemory.InMemoryPreSharedKeyStorage := {|
  original_tree := lite_sample_tree; pa_protocol_version := 1; cipher_suite_provider := toy_csp;
  original_group_extensions := []; external_leaf := Some (member 4 4 4); identity_provider := sample_ip;
  psk_storage := {| InMemory.psk_map := ∅ |}; pa_group_id := [] |}.

Lemma lite_sample_inv : ∃ R, inv sample_ip [] lite_sample_tree R ∧ populated (nodes lite_sample_tree).
Proof.
  assert (apply_adds sample_ip [] false new sample_adds = Ok (lite_sample_tree, [0; 1; 2], sample_adds)) as E
    by (vm_compute; reflexivity).
  destruct (post_ok _ _ _ (apply_adds_strict sample_ip [] new ∅ sample_adds (new_inv _ _) populated_nil eq_refl) E)
    as (_ & R & _ & Hinv & Hpop & _).
  exists R. split; [exact Hinv|exact Hpop].
Qed.

(** Leaf 0 removes the other two members; the new client joins with an external
    commit. *)
Lemma removals_lite_run : ∃ o,
  apply_proposals_lite lite_sample_applier (MemberLite 0) (prepare_commit_lite (Member 0) [Remove 1; Remove 2]) None = Ok o ∧
  lite_indexes_of_added_kpkgs o = [] ∧ length (nodes (lite_new_tree o)) = 1%nat.
Proof. eexists. split; [vm_compute; reflexivity|split; reflexivity]. Qed.

Lemma external_lite_run : ∃ o,
  apply_proposals_lite lite_sample_applier NewMemberCommitLite (prepare_commit_lite NewMemberCommit [ExternalInit []]) None = Ok o ∧
  lite_external_init_index o = Some 3.
Proof. eexists. split; [vm_compute; reflexivity|reflexivity]. Qed.

Lemma lite_check_exact_witness :
  (∃ o, lite_indexes_of_added_kpkgs o = [] ∧ length (nodes (lite_new_tree o)) = 1%nat ∧
    apply_proposals lite_sample_applier IgnoreNone (Member 0) (prepare_commit_lite (Member 0) [Remove 1; Remove 2]) None =
      Ok (full_output (prepare_commit_lite (Member 0) [Remove 1; Remove 2]) o)) ∧
  (∃ o, lite_external_init_index o = Some 3 ∧
    apply_proposals lite_sample_applier IgnoreNone NewMemberCommit (prepare_commit_lite NewMemberCommit [ExternalInit []]) None =
      Ok (full_output (prepare_commit_lite NewMemberCommit [ExternalInit []]) o)).
Proof.
  destruct lite_sample_inv as (R & Hinv & Hpop). split.
  - destruct removals_lite_run as (o & E & H1 & H2). exists o. split; [exact H1|]. split; [exact H2|].
    apply (lite_check_exact lite_sample_applier (MemberLite 0) [Remove 1; Remove 2] None R).
    + by repeat constructor.
    + reflexivity.
    + reflexivity.
    + exact Hinv.
    + exact Hpop.
    + repeat constructor; cbn; lia.
    + exists o. split; [reflexivity|exact E].
  - destruct external_lite_run as (o & E & H1). exists o. split; [exact H1|].
    apply (lite_check_exact lite_sample_applier NewMemberCommitLite [ExternalInit []] None R).
    + by repeat constructor.
    + discriminate.
    + reflexivity.
    + exact Hinv.
    + exact Hpop.
    + constructor.
    + exists o. split; [reflexivity|exact E].
Defined.

(** A member's commit with an external initialization. *)
Lemma lite_takes_external_init_witness :
  is_ok (apply_proposals_lite lite_sample_applier (MemberLite 0) (prepare_commit_lite (Member 0) [Remove 1; ExternalInit []]) None) = true ∧
  ∀ o, apply_proposals lite_sample_applier IgnoreNone (Member 0) (prepare_commit_lite (Member 0) [Remove 1; ExternalInit []]) None ≠ Ok o.
Proof.
  split; [vm_compute; reflexivity|]. apply (lite_takes_external_init lite_sample_applier 0); [reflexivity|discriminate].
Defined.
