(* ===== verification/Grease.v ===== *)
(** * Values sent to exercise extensibility (mls-rs/src/grease.rs)

    With the feature [grease] on, a client adds to what it publishes one random
    value of each kind that RFC 9420 sets aside for this (section 13.5), so that
    the others' handling of unknown values is exercised, and hides such values
    from the application.  The other files model the build without the feature,
    where these functions do nothing.  The theorems: what is added is hidden again
    ([grease_hidden]), a greased leaf still passes the checks of the validator on
    its own extensions ([greased_leaf_valid]), and no extension that means
    something is touched ([grease_keeps_extensions]). *)
From Stdlib Require Import Strings.String.
From S2P Require Import Prelude Codec TreeMath Types Node TreeIndex Extensions Crypto Labels TreeHash Proposal TreeKem GroupContext Framing Auth Validator Kem Config.

Definition GREASE_VALUES : list Z :=
  [0x0A0A; 0x1A1A; 0x2A2A; 0x3A3A; 0x4A4A; 0x5A5A; 0x6A6A; 0x7A7A; 0x8A8A; 0x9A9A; 0xAAAA;
   0xBABA; 0xCACA; 0xDADA; 0xEAEA].

(** ** The functions of the module
    The random bytes are the provider's for the given seed. *)
Section grease.
Context (csp : CipherSuiteProvider).

Definition random_grease_value (seed : bytes) : Result MlsError Z :=
  bytes ← crypto (csp_random_bytes csp seed 1);
  index ← vec_index bytes 0;
  vec_index GREASE_VALUES (byte.unsigned index mod len GREASE_VALUES).

Definition grease (seed : bytes) (array : list Z) : Result MlsError (list Z) :=
  v ← random_grease_value seed; Ok (array ++ [v]).

Definition grease_extensions (seed : bytes) (extensions : ExtensionList.t) : Result MlsError (list Z * ExtensionList.t) :=
  v ← random_grease_value seed;
  Ok ([v], ExtensionList.set extensions {| extension_type := v; extension_data := [] |}).

Definition ungrease (array : list Z) : list Z :=
  List.filter (λ x, negb (bool_decide (x ∈ GREASE_VALUES))) array.

Definition ungrease_extensions (extensions : ExtensionList.t) : ExtensionList.t :=
  foldl ExtensionList.remove extensions GREASE_VALUES.

(** ** Leaves, key packages and group information *)
Definition ungreased_capabilities (l : LeafNode) : Capabilities :=
  let c := capabilities l in {|
    protocol_versions := protocol_versions c; cipher_suites := ungrease (cipher_suites c);
    cap_extensions := ungrease (cap_extensions c); proposals := ungrease (proposals c);
    credentials := ungrease (credentials c) |}.

Definition ungreased_extensions (l : LeafNode) : ExtensionList.t := ungrease_extensions (leaf_extensions l).

(** Four values are drawn, one after the other. *)
Definition grease_leaf (seed1 seed2 seed3 seed4 : bytes) (l : LeafNode) : Result MlsError LeafNode :=
  let c := capabilities l in
  suites ← grease seed1 (cipher_suites c);
  props ← grease seed2 (proposals c);
  creds ← grease seed3 (credentials c);
  '(new_extensions, exts) ← grease_extensions seed4 (leaf_extensions l);
  Ok {| leaf_public_key := leaf_public_key l; signing_identity := signing_identity l;
        capabilities := {| protocol_versions := protocol_versions c; cipher_suites := suites;
          cap_extensions := cap_extensions c ++ new_extensions; proposals := props; credentials := creds |};
        leaf_node_source := leaf_node_source l; leaf_extensions := exts; signature := signature l |}.

Definition grease_key_package (seed : bytes) (k : KeyPackage) : Result MlsError KeyPackage :=
  '(_, exts) ← grease_extensions seed (kp_extensions k);
  Ok {| kp_version := kp_version k; kp_cipher_suite := kp_cipher_suite k; hpke_init_key := hpke_init_key k;
        kp_leaf_node := kp_leaf_node k; kp_extensions := exts; kp_signature := kp_signature k |}.

Definition ungreased_key_package_extensions (k : KeyPackage) : ExtensionList.t := ungrease_extensions (kp_extensions k).

Definition grease_group_info (seed : bytes) (g : GroupInfo) : Result MlsError GroupInfo :=
  '(_, exts) ← grease_extensions seed (gi_extensions g);
  Ok {| gi_group_context := gi_group_context g; gi_extensions := exts; gi_confirmation_tag := gi_confirmation_tag g;
        gi_signer := gi_signer g; gi_signature := gi_signature g |}.

(** [NewMemberInfo::new]: what a new member is shown of the group information. *)
Definition new_member_info (group_info_extensions : ExtensionList.t) : ExtensionList.t :=
  ungrease_extensions group_info_extensions.

(** ** [LeafNode::generate] and [LeafNode::update] in this build *)
Definition generate_greased (seed seed1 seed2 seed3 seed4 : bytes) (props : Kem.ConfigProperties) (s : SigningIdentity)
    (signer : bytes) (l : Lifetime) : Result MlsError (LeafNode * bytes) :=
  '(secret_key, public_key) ← crypto (csp_kem_generate csp seed);
  leaf ← grease_leaf seed1 seed2 seed3 seed4
    {| leaf_public_key := public_key; signing_identity := s; capabilities := Kem.new_capabilities props;
       leaf_node_source := KeyPackageSource l; leaf_extensions := Kem.new_extensions props; signature := [] |};
  leaf ← Kem.sign_leaf csp signer {| ctx_group_id := None; ctx_leaf_index := None |} leaf;
  Ok (leaf, secret_key).

Definition update_greased (seed seed1 seed2 seed3 seed4 gid : bytes) (leaf_index : Z) (props : Kem.ConfigProperties)
    (new_signing_identity : option SigningIdentity) (signer : bytes) (l : LeafNode) : Result MlsError (bytes * LeafNode) :=
  '(secret, public) ← crypto (csp_kem_generate csp seed);
  leaf ← grease_leaf seed1 seed2 seed3 seed4
    {| leaf_public_key := public; signing_identity := signing_identity l; capabilities := Kem.new_capabilities props;
       leaf_node_source := UpdateSource; leaf_extensions := Kem.new_extensions props; signature := signature l |};
  let leaf := {| leaf_public_key := leaf_public_key leaf; signing_identity := default (signing_identity l) new_signing_identity;
                 capabilities := capabilities leaf; leaf_node_source := leaf_node_source leaf;
                 leaf_extensions := leaf_extensions leaf; signature := signature leaf |} in
  leaf ← Kem.sign_leaf csp signer {| ctx_group_id := Some gid; ctx_leaf_index := Some leaf_index |} leaf;
  Ok (secret, leaf).

(** ** Drawing a value *)
Lemma random_grease_value_in seed v : random_grease_value seed = Ok v → v ∈ GREASE_VALUES.
Proof.
  unfold random_grease_value. intros H. inv_res. unfold vec_index, vec_get in H. apply unwrap_ok in H.
  destruct (_ <? 0); [done|]. by eapply list_elem_of_lookup_2.
Qed.

(** The index is within bounds: no byte the provider draws makes the code panic. *)
Lemma random_grease_value_total seed : random_total csp → ∃ v, random_grease_value seed = Ok v.
Proof.
  intros Hr. unfold random_grease_value. destruct (Hr seed 1) as (bs & -> & Hl); [lia|]. cbn [crypto mbind result_bind].
  destruct bs as [|x bs]; [done|]. cbn [vec_index vec_get unwrap mbind result_bind].
  change (vec_index (x :: bs) 0) with (Ok (E:=MlsError) x). cbn [mbind result_bind].
  assert (0 ≤ byte.unsigned x mod len GREASE_VALUES < 15) as Hi by (apply Z.mod_pos_bound; done).
  unfold vec_index, vec_get. rewrite (proj2 (Z.ltb_ge _ _)) by lia.
  destruct (lookup_lt_is_Some_2 GREASE_VALUES (Z.to_nat (byte.unsigned x mod len GREASE_VALUES))) as [v ->]; [|by exists v].
  change (length GREASE_VALUES) with 15%nat. lia.
Qed.

(** ** Hiding what was added *)
Lemma ungrease_app l k : ungrease (l ++ k) = ungrease l ++ ungrease k.
Proof. apply List.filter_app. Qed.

Lemma ungrease_value v : v ∈ GREASE_VALUES → ungrease [v] = [].
Proof. intros H. unfold ungrease. cbn. by rewrite bool_decide_eq_true_2. Qed.

Lemma ungrease_extensions_filter exts :
  ungrease_extensions exts = List.filter (λ e, negb (bool_decide (extension_type e ∈ GREASE_VALUES))) exts.
Proof.
  unfold ungrease_extensions. generalize GREASE_VALUES. intros vs. revert exts. induction vs as [|v vs IH]; intros exts; cbn [foldl].
  - induction exts as [|e exts IHe]; [done|]. cbn. by rewrite <- IHe.
  - rewrite IH. unfold ExtensionList.remove. clear IH. induction exts as [|e exts IHe]; [done|]. cbn.
    destruct (Z.eqb_spec (extension_type e) v) as [->|Hne]; cbn.
    + rewrite IHe, bool_decide_eq_true_2 by by left. done.
    + rewrite IHe. rewrite (bool_decide_ext (extension_type e ∈ v :: vs) (extension_type e ∈ vs)); [done|].
      rewrite elem_of_cons. naive_solver.
Qed.

Lemma ungrease_set exts e : extension_type e ∈ GREASE_VALUES → ungrease_extensions (ExtensionList.set exts e) = ungrease_extensions exts.
Proof.
  intros He. rewrite !ungrease_extensions_filter. induction exts as [|x exts IH]; cbn.
  - by rewrite bool_decide_eq_true_2.
  - destruct (Z.eqb_spec (extension_type x) (extension_type e)) as [E|E]; cbn.
    + rewrite E. by rewrite bool_decide_eq_true_2.
    + by rewrite IH.
Qed.

(** What the four draws do. *)
Lemma grease_leaf_ok s1 s2 s3 s4 l l' : grease_leaf s1 s2 s3 s4 l = Ok l' →
  ∃ a b c v, a ∈ GREASE_VALUES ∧ b ∈ GREASE_VALUES ∧ c ∈ GREASE_VALUES ∧ v ∈ GREASE_VALUES ∧
    leaf_public_key l' = leaf_public_key l ∧ signing_identity l' = signing_identity l ∧ leaf_node_source l' = leaf_node_source l ∧
    leaf_extensions l' = ExtensionList.set (leaf_extensions l) {| extension_type := v; extension_data := [] |} ∧
    capabilities l' = {| protocol_versions := protocol_versions (capabilities l);
      cipher_suites := cipher_suites (capabilities l) ++ [a]; cap_extensions := cap_extensions (capabilities l) ++ [v];
      proposals := proposals (capabilities l) ++ [b]; credentials := credentials (capabilities l) ++ [c] |}.
Proof.
  unfold grease_leaf, grease, grease_extensions. intros H. inv_res.
  repeat match goal with H : random_grease_value _ = Ok _ |- _ => apply random_grease_value_in in H end.
  do 4 eexists. split_and!; [..|reflexivity]; done.
Qed.
End grease.

(** What is added is hidden again: the application sees of a greased leaf the
    capabilities and extensions it would see without. *)
Theorem grease_hidden csp s1 s2 s3 s4 l l' : grease_leaf csp s1 s2 s3 s4 l = Ok l' →
  ungreased_capabilities l' = ungreased_capabilities l ∧ ungreased_extensions l' = ungreased_extensions l.
Proof.
  intros (a & b & c & v & Ha & Hb & Hc & Hv & _ & _ & _ & He & Hcap)%grease_leaf_ok. split.
  - unfold ungreased_capabilities. rewrite Hcap. cbn [protocol_versions cipher_suites cap_extensions proposals credentials].
    by rewrite !ungrease_app, !ungrease_value, !app_nil_r.
  - unfold ungreased_extensions. by rewrite He, ungrease_set.
Qed.

(** A list of extensions keeps every extension that is not such a value. *)
Theorem grease_keeps_extensions csp seed exts added exts' ty :
  grease_extensions csp seed exts = Ok (added, exts') → ty ∉ GREASE_VALUES → ExtensionList.get exts' ty = ExtensionList.get exts ty.
Proof.
  unfold grease_extensions. intros H Hty. inv_res. apply random_grease_value_in in Ha. rewrite ExtensionListFacts.set_get.
  cbn [extension_type]. destruct (Z.eqb_spec a ty) as [->|]; [done|done].
Qed.

(** A greased leaf that is then signed passes the validator wherever the leaf
    without the values does. *)
Theorem greased_leaf_valid csp ip exts l l1 l2 c s1 s2 s3 s4 sk :
  valid_leaf csp ip exts l c → signature_pair csp sk (signature_key (signing_identity l)) →
  grease_leaf csp s1 s2 s3 s4 l = Ok l1 → Kem.sign_leaf csp sk (signing_context c) l1 = Ok l2 →
  check_if_valid csp ip exts l2 c = Ok tt.
Proof.
  intros [H1 H2 H3 H4 H5 H6 H7 H8] Hp (a & b & d & v & _ & _ & _ & Hv & Hk & Hs & Hsrc & He & Hcap)%grease_leaf_ok Hsign.
  unfold Kem.sign_leaf in Hsign. apply bind_ok in Hsign as (sig & Hsig & [= <-]). apply check_if_valid_ok.
  assert (∀ x, x ∈ cap_extensions (capabilities l) → x ∈ cap_extensions (capabilities l1)) as Kx by (rewrite Hcap; set_solver).
  assert (∀ x, x ∈ proposals (capabilities l) → x ∈ proposals (capabilities l1)) as Kp by (rewrite Hcap; set_solver).
  assert (∀ x, x ∈ credentials (capabilities l) → x ∈ credentials (capabilities l1)) as Kc by (rewrite Hcap; set_solver).
  split; cbn [signing_identity capabilities leaf_node_source leaf_extensions signature].
  - revert H1. unfold fits_context. cbn [leaf_node_source]. by rewrite Hsrc.
  - by rewrite Hs.
  - apply (sign_verifies csp sk); [by rewrite Hs|exact Hsig].
  - done.
  - intros r Hr. destruct (H5 r Hr) as (? & ? & ?). split_and!; eauto.
  - intros e. rewrite He. intros Hin. rewrite Hcap. cbn [cap_extensions]. rewrite elem_of_app.
    assert (extension_type e ∈ extension_type <$> ExtensionList.set (leaf_extensions l) {| extension_type := v; extension_data := [] |}) as Ht
      by (apply list_elem_of_fmap; by exists e).
    rewrite ExtensionListFacts.set_types in Ht. destruct (ExtensionList.has_extension _ _).
    + left. apply list_elem_of_fmap in Ht as (e' & -> & Hin'). by apply H6.
    + apply elem_of_app in Ht as [(e' & -> & Hin')%list_elem_of_fmap|Ht]; [left; by apply H6|by right].
  - intros es e Hes Hin Hlt. apply Kx. by eapply H7.
  - intros x s Hx Hin. apply Kc. by eapply H8.
Qed.
