(* ===== verification/RepoLight.v ===== *)
(** * The repository of a group that keeps no past epochs
    (mls-rs/src/group/state_repo_light.rs)

    With the feature [prior_epoch] off a group writes its state and nothing else.
    [light_repository_refines]: this repository is the one of StateRepo.v with no
    epoch waiting to be written; each write has the same result and leaves both in
    the same state. *)
From S2P Require Import Prelude Codec Types Epoch Storage StateRepo.

Record GroupStateRepositoryLight (S K : Type) := {
  light_pending_key_package_removal : option bytes;
  light_storage : S;
  light_key_package_repo : K;
}.
Arguments light_pending_key_package_removal {S K}.
Arguments light_storage {S K}.
Arguments light_key_package_repo {S K}.

Section light.
Context {order : MapOrder} {S K : Type} `{!GroupStateStorage S} `{!KeyPackageStorage K}.
Notation Light := (GroupStateRepositoryLight S K).

Definition light_new (storage : S) (key_package_repo : K) (key_package_to_remove : option bytes) : Light := {|
  light_pending_key_package_removal := key_package_to_remove; light_storage := storage;
  light_key_package_repo := key_package_repo |}.

(** The snapshot is given by its encoding and its group identifier. *)
Definition light_write_to_storage (r : Light) (snapshot : Result Codec.Error bytes) (snapshot_group_id : bytes)
    : Result MlsError unit * Light :=
  try data, r ← st_lift (from_codec_error snapshot) r;
  let '(written, s) := storage_write (light_storage r) {| stored_id := snapshot_group_id; stored_data := data |} [] [] in
  let r := {| light_pending_key_package_removal := light_pending_key_package_removal r; light_storage := s;
              light_key_package_repo := light_key_package_repo r |} in
  try _, r ← st_lift (group_storage written) r;
  match light_pending_key_package_removal r with
  | Some id =>
      let '(deleted, k) := kp_delete (light_key_package_repo r) id in
      (match deleted with inl e => Err (KeyPackageRepoError e) | inr _ => Ok tt end,
       {| light_pending_key_package_removal := light_pending_key_package_removal r; light_storage := light_storage r;
          light_key_package_repo := k |})
  | None => (Ok tt, r)
  end.

(** The full repository without unwritten epochs. *)
Definition as_full (gid : bytes) (r : Light) : GroupStateRepository S K := {|
  pending_commit := {| inserts := []; updates := [] |};
  pending_key_package_removal := light_pending_key_package_removal r; repo_group_id := gid;
  storage := light_storage r; key_package_repo := light_key_package_repo r |}.

Theorem light_repository_refines (gid : bytes) :
  (∀ s k id, as_full gid (light_new s k id) = repo_new gid s k id) ∧
  (∀ r data g, write_to_storage (as_full gid r) data g =
     ((light_write_to_storage r data g).1, as_full gid (light_write_to_storage r data g).2)).
Proof.
  split; [done|]. intros r data g. unfold write_to_storage, light_write_to_storage, st_lift. cbn [as_full pending_commit inserts updates mapM_res st_bind].
  destruct (from_codec_error data) as [d| | |]; cbn [st_bind]; [|done..]. cbn [as_full storage].
  destruct (storage_write _ _ _ _) as [[e|[]] s']; cbn; [done|].
  destruct (light_pending_key_package_removal r) as [id|]; cbn; [|done].
  by destruct (kp_delete _ id) as [[e|[]] k].
Qed.

(** The key package is deleted at every write, also when it was before; a storage
    that refuses to delete what it does not have makes every later write fail. *)
Lemma light_keeps_removal r data g :
  light_pending_key_package_removal (light_write_to_storage r data g).2 = light_pending_key_package_removal r.
Proof.
  unfold light_write_to_storage, st_lift. destruct (from_codec_error data) as [d| | |]; cbn; [|done..].
  destruct (storage_write _ _ _ _) as [[e|[]] s']; cbn; [done|].
  destruct (light_pending_key_package_removal r) as [id|] eqn:E; cbn; [|done].
  by destruct (kp_delete _ id) as [[e|[]] k].
Qed.
End light.
