(* ===== verification/Builder.v ===== *)
(** * Building a client (mls-rs/src/client_builder.rs)

    The builder is a record whose services may still be missing; its methods
    replace one part each, and [build_config] fills in the protocol versions.  The
    types of the services are parameters, as in the code, so that a method that
    sets one changes the type; [Missing] stands for one that is not set.
    [config_of] is the [ClientConfig] of a built configuration at a time.

    [recreated_config_same]: the builder made of a client builds the same
    configuration again.  [built_leaf_supported]: when the leaf of a key package
    declares the extensions it has.  [appended_twice_unreadable]: extensions given
    twice make a key package that nobody can read. *)
From S2P Require Import Prelude Codec Types TreeMath Node TreeIndex Extensions Crypto Labels Proposal Validator Kem Storage Rules Config Client.
Import LeafCodecs.

(** ** The configuration *)
Record Settings := {
  extension_types : list Z;
  settings_protocol_versions : list Z;
  custom_proposal_types : list Z;
  settings_key_package_extensions : ExtensionList.t;
  settings_leaf_node_extensions : ExtensionList.t;
  lifetime_in_s : Z;
}.

Definition settings_default : Settings := {|
  extension_types := []; settings_protocol_versions := []; settings_key_package_extensions := [];
  settings_leaf_node_extensions := []; lifetime_in_s := 365 * 24 * 3600; custom_proposal_types := [] |}.

(** A crypto provider by its two methods. *)
Record CryptoProvider := { provider_for : Z → option CipherSuiteProvider; provider_suites : list Z }.

Inductive Missing := missing.

Record ConfigInner (Kpr Ps Gss Ip Pr Cp : Type) := {
  settings : Settings;
  b_key_package_repo : Kpr;
  b_psk_store : Ps;
  b_group_state_storage : Gss;
  b_identity_provider : Ip;
  b_mls_rules : Pr;
  b_crypto_provider : Cp;
  b_signer : option bytes;
  b_signing_identity : option (SigningIdentity * Z);
  b_version : Z;
}.
Arguments settings {Kpr Ps Gss Ip Pr Cp}.
Arguments b_key_package_repo {Kpr Ps Gss Ip Pr Cp}.
Arguments b_psk_store {Kpr Ps Gss Ip Pr Cp}.
Arguments b_group_state_storage {Kpr Ps Gss Ip Pr Cp}.
Arguments b_identity_provider {Kpr Ps Gss Ip Pr Cp}.
Arguments b_mls_rules {Kpr Ps Gss Ip Pr Cp}.
Arguments b_crypto_provider {Kpr Ps Gss Ip Pr Cp}.
Arguments b_signer {Kpr Ps Gss Ip Pr Cp}.
Arguments b_signing_identity {Kpr Ps Gss Ip Pr Cp}.
Arguments b_version {Kpr Ps Gss Ip Pr Cp}.

Definition MLS_10 : Z := 1.
Definition all_versions : list Z := [MLS_10].

(** [BaseConfig]: in-memory storage and the default rules. *)
Definition builder_new (rules : DefaultMlsRules)
    : ConfigInner InMemory.InMemoryKeyPackageStorage InMemory.InMemoryPreSharedKeyStorage InMemory.InMemoryGroupStateStorage
        Missing DefaultMlsRules Missing := {|
  settings := settings_default; b_key_package_repo := {| InMemory.packages := ∅ |};
  b_psk_store := {| InMemory.psk_map := ∅ |}; b_group_state_storage := InMemory.new; b_identity_provider := missing;
  b_mls_rules := rules; b_crypto_provider := missing; b_signer := None; b_signing_identity := None; b_version := MLS_10 |}.

Definition builder_new_empty : ConfigInner Missing Missing Missing Missing Missing Missing := {|
  settings := settings_default; b_key_package_repo := missing; b_psk_store := missing; b_group_state_storage := missing;
  b_identity_provider := missing; b_mls_rules := missing; b_crypto_provider := missing; b_signer := None;
  b_signing_identity := None; b_version := MLS_10 |}.

Section builder.
Context {Kpr Ps Gss Ip Pr Cp : Type}.
Notation Inner := (ConfigInner Kpr Ps Gss Ip Pr Cp).
Implicit Types (c : Inner).

(** [c.0.settings.f = v], and the same for the fields of the configuration. *)
Definition with_settings c (s : Settings) : Inner := {|
  settings := s; b_key_package_repo := b_key_package_repo c; b_psk_store := b_psk_store c;
  b_group_state_storage := b_group_state_storage c; b_identity_provider := b_identity_provider c; b_mls_rules := b_mls_rules c;
  b_crypto_provider := b_crypto_provider c; b_signer := b_signer c; b_signing_identity := b_signing_identity c;
  b_version := b_version c |}.

Definition add_extension_types c (types : list Z) : Inner :=
  let s := settings c in with_settings c {|
    extension_types := extension_types s ++ types; settings_protocol_versions := settings_protocol_versions s;
    custom_proposal_types := custom_proposal_types s; settings_key_package_extensions := settings_key_package_extensions s;
    settings_leaf_node_extensions := settings_leaf_node_extensions s; lifetime_in_s := lifetime_in_s s |}.
Definition add_extension_type c (ty : Z) : Inner := add_extension_types c [ty].

Definition add_custom_proposal_types c (types : list Z) : Inner :=
  let s := settings c in with_settings c {|
    extension_types := extension_types s; settings_protocol_versions := settings_protocol_versions s;
    custom_proposal_types := custom_proposal_types s ++ types; settings_key_package_extensions := settings_key_package_extensions s;
    settings_leaf_node_extensions := settings_leaf_node_extensions s; lifetime_in_s := lifetime_in_s s |}.
Definition add_custom_proposal_type c (ty : Z) : Inner := add_custom_proposal_types c [ty].

Definition add_protocol_versions c (versions : list Z) : Inner :=
  let s := settings c in with_settings c {|
    extension_types := extension_types s; settings_protocol_versions := settings_protocol_versions s ++ versions;
    custom_proposal_types := custom_proposal_types s; settings_key_package_extensions := settings_key_package_extensions s;
    settings_leaf_node_extensions := settings_leaf_node_extensions s; lifetime_in_s := lifetime_in_s s |}.
Definition add_protocol_version c (version : Z) : Inner := add_protocol_versions c [version].

Definition set_key_package_ext c (exts : ExtensionList.t) : Inner :=
  let s := settings c in with_settings c {|
    extension_types := extension_types s; settings_protocol_versions := settings_protocol_versions s;
    custom_proposal_types := custom_proposal_types s; settings_key_package_extensions := exts;
    settings_leaf_node_extensions := settings_leaf_node_extensions s; lifetime_in_s := lifetime_in_s s |}.
Definition key_package_extension {E} `{!MlsCodecExtension E} c (extension : E) : Result ExtensionErr Inner :=
  exts ← set_from (settings_key_package_extensions (settings c)) extension; Ok (set_key_package_ext c exts).
Definition add_key_package_extensions c (extensions : ExtensionList.t) : Inner :=
  set_key_package_ext c (ExtensionList.append (settings_key_package_extensions (settings c)) extensions).

Definition set_leaf_node_ext c (exts : ExtensionList.t) : Inner :=
  let s := settings c in with_settings c {|
    extension_types := extension_types s; settings_protocol_versions := settings_protocol_versions s;
    custom_proposal_types := custom_proposal_types s; settings_key_package_extensions := settings_key_package_extensions s;
    settings_leaf_node_extensions := exts; lifetime_in_s := lifetime_in_s s |}.
Definition leaf_node_extension {E} `{!MlsCodecExtension E} c (extension : E) : Result ExtensionErr Inner :=
  exts ← set_from (settings_leaf_node_extensions (settings c)) extension; Ok (set_leaf_node_ext c exts).
Definition add_leaf_node_extensions c (extensions : ExtensionList.t) : Inner :=
  set_leaf_node_ext c (ExtensionList.append (settings_leaf_node_extensions (settings c)) extensions).

Definition key_package_lifetime c (duration_in_s : Z) : Inner :=
  let s := settings c in with_settings c {|
    extension_types := extension_types s; settings_protocol_versions := settings_protocol_versions s;
    custom_proposal_types := custom_proposal_types s; settings_key_package_extensions := settings_key_package_extensions s;
    settings_leaf_node_extensions := settings_leaf_node_extensions s; lifetime_in_s := duration_in_s |}.
(** Setting a service changes the type of the configuration. *)
Definition with_key_package_repo {T} c (v : T) : ConfigInner T Ps Gss Ip Pr Cp := {|
  settings := settings c; b_key_package_repo := v; b_psk_store := b_psk_store c; b_group_state_storage :=
  b_group_state_storage c; b_identity_provider := b_identity_provider c; b_mls_rules := b_mls_rules c;
  b_crypto_provider := b_crypto_provider c; b_signer := b_signer c; b_signing_identity := b_signing_identity c;
  b_version := b_version c |}.
Definition with_psk_store {T} c (v : T) : ConfigInner Kpr T Gss Ip Pr Cp := {|
  settings := settings c; b_key_package_repo := b_key_package_repo c; b_psk_store := v; b_group_state_storage :=
  b_group_state_storage c; b_identity_provider := b_identity_provider c; b_mls_rules := b_mls_rules c;
  b_crypto_provider := b_crypto_provider c; b_signer := b_signer c; b_signing_identity := b_signing_identity c;
  b_version := b_version c |}.
Definition with_group_state_storage {T} c (v : T) : ConfigInner Kpr Ps T Ip Pr Cp := {|
  settings := settings c; b_key_package_repo := b_key_package_repo c; b_psk_store := b_psk_store c;
  b_group_state_storage := v; b_identity_provider := b_identity_provider c; b_mls_rules := b_mls_rules c;
  b_crypto_provider := b_crypto_provider c; b_signer := b_signer c; b_signing_identity := b_signing_identity c;
  b_version := b_version c |}.
Definition with_identity_provider {T} c (v : T) : ConfigInner Kpr Ps Gss T Pr Cp := {|
  settings := settings c; b_key_package_repo := b_key_package_repo c; b_psk_store := b_psk_store c;
  b_group_state_storage := b_group_state_storage c; b_identity_provider := v; b_mls_rules := b_mls_rules c;
  b_crypto_provider := b_crypto_provider c; b_signer := b_signer c; b_signing_identity := b_signing_identity c;
  b_version := b_version c |}.
Definition with_crypto_provider {T} c (v : T) : ConfigInner Kpr Ps Gss Ip Pr T := {|
  settings := settings c; b_key_package_repo := b_key_package_repo c; b_psk_store := b_psk_store c;
  b_group_state_storage := b_group_state_storage c; b_identity_provider := b_identity_provider c; b_mls_rules :=
  b_mls_rules c; b_crypto_provider := v; b_signer := b_signer c; b_signing_identity := b_signing_identity c; b_version
  := b_version c |}.
Definition with_mls_rules {T} c (v : T) : ConfigInner Kpr Ps Gss Ip T Cp := {|
  settings := settings c; b_key_package_repo := b_key_package_repo c; b_psk_store := b_psk_store c;
  b_group_state_storage := b_group_state_storage c; b_identity_provider := b_identity_provider c; b_mls_rules := v;
  b_crypto_provider := b_crypto_provider c; b_signer := b_signer c; b_signing_identity := b_signing_identity c;
  b_version := b_version c |}.

Definition used_protocol_version c (v : Z) : Inner := {|
  settings := settings c; b_key_package_repo := b_key_package_repo c; b_psk_store := b_psk_store c;
  b_group_state_storage := b_group_state_storage c; b_identity_provider := b_identity_provider c; b_mls_rules :=
  b_mls_rules c; b_crypto_provider := b_crypto_provider c; b_signer := b_signer c; b_signing_identity :=
  b_signing_identity c; b_version := v |}.
Definition with_signer c (signer : bytes) : Inner := {|
  settings := settings c; b_key_package_repo := b_key_package_repo c; b_psk_store := b_psk_store c;
  b_group_state_storage := b_group_state_storage c; b_identity_provider := b_identity_provider c; b_mls_rules :=
  b_mls_rules c; b_crypto_provider := b_crypto_provider c; b_signer := Some signer; b_signing_identity := b_signing_identity c;
  b_version := b_version c |}.

Definition with_signing_identity c (s : SigningIdentity) (signer : bytes) (cipher_suite : Z) : Inner := {|
  settings := settings c; b_key_package_repo := b_key_package_repo c; b_psk_store := b_psk_store c;
  b_group_state_storage := b_group_state_storage c; b_identity_provider := b_identity_provider c; b_mls_rules := b_mls_rules c;
  b_crypto_provider := b_crypto_provider c; b_signer := Some signer; b_signing_identity := Some (s, cipher_suite);
  b_version := b_version c |}.

(** Without any version named, all the crate knows. *)
Definition build_config c : Inner :=
  match settings_protocol_versions (settings c) with
  | [] => add_protocol_versions c all_versions
  | _ => c
  end.
End builder.

(** [psk], for the in-memory store. *)
Definition add_psk {Kpr Gss Ip Pr Cp} (c : ConfigInner Kpr InMemory.InMemoryPreSharedKeyStorage Gss Ip Pr Cp) (psk_id psk : bytes)
    : ConfigInner Kpr InMemory.InMemoryPreSharedKeyStorage Gss Ip Pr Cp :=
  with_psk_store c {| InMemory.psk_map := <[psk_id := psk]> (InMemory.psk_map (b_psk_store c)) |}.

(** ** A configuration in use *)
Section built.
Context {S K P R : Type}.
Notation Inner := (ConfigInner K P S IdentityProvider R CryptoProvider).
Implicit Types (c : Inner).

(** [ClientConfig::lifetime] at the time [now], in 64 bits. *)
Definition lifetime_at c (now : Z) : Lifetime :=
  {| not_before := now; not_after := wrap 64 (now + lifetime_in_s (settings c)) |}.

Definition config_of c (now : Z) : ClientConfig S K P R := {|
  supported_extensions := extension_types (settings c);
  supported_custom_proposals := custom_proposal_types (settings c);
  supported_protocol_versions := settings_protocol_versions (settings c);
  cfg_key_package_repo := b_key_package_repo c;
  cfg_mls_rules := b_mls_rules c;
  secret_store := b_psk_store c;
  Config.group_state_storage := b_group_state_storage c;
  cfg_identity_provider := b_identity_provider c;
  crypto_provider := provider_for (b_crypto_provider c);
  supported_cipher_suites := provider_suites (b_crypto_provider c);
  key_package_extensions := settings_key_package_extensions (settings c);
  leaf_node_extensions := settings_leaf_node_extensions (settings c);
  cfg_lifetime := lifetime_at c now |}.

Definition build c (now : Z) : Client S K P R :=
  let c := build_config c in
  client_new (config_of c now) (b_signer c) (b_signing_identity c) (b_version c).

Definition recreate_config (cfg : ClientConfig S K P R) (signer : option bytes) (s : option (SigningIdentity * Z)) (version : Z)
    : Inner := {|
  settings := {|
    extension_types := supported_extensions cfg; settings_protocol_versions := supported_protocol_versions cfg;
    custom_proposal_types := supported_custom_proposals cfg; settings_key_package_extensions := key_package_extensions cfg;
    settings_leaf_node_extensions := leaf_node_extensions cfg;
    lifetime_in_s := wrap 64 (not_after (cfg_lifetime cfg) - not_before (cfg_lifetime cfg)) |};
  b_key_package_repo := cfg_key_package_repo cfg; b_psk_store := secret_store cfg;
  b_group_state_storage := Config.group_state_storage cfg; b_identity_provider := cfg_identity_provider cfg;
  b_mls_rules := cfg_mls_rules cfg;
  b_crypto_provider := {| provider_for := crypto_provider cfg; provider_suites := supported_cipher_suites cfg |};
  b_signer := signer; b_signing_identity := s; b_version := version |}.

Definition to_builder (cl : Client S K P R) : Inner :=
  recreate_config (cl_config cl) (cl_signer cl) (cl_signing_identity cl) (cl_version cl).

Lemma build_config_idem c : build_config (build_config c) = build_config c.
Proof. by destruct c as [[? [|v vs] ? ? ? ?] ? ? ? ? ? ? ? ? ?]. Qed.

(** The builder made of a client builds that client again: the same settings,
    services and identity, and key packages of the same duration, whenever either
    is asked.  (The clock and the duration only have to be 64-bit numbers: where
    their sum wraps, it wraps back.) *)
Theorem recreated_config_same c now now' :
  is_u64 now → is_u64 (lifetime_in_s (settings c)) →
  to_builder (build c now) = build_config c ∧ build (to_builder (build c now)) now' = build c now'.
Proof.
  intros Hn Hl. assert (to_builder (build c now) = build_config c) as E.
  { assert (lifetime_in_s (settings (build_config c)) = lifetime_in_s (settings c)) as El by (unfold build_config; by case_match).
    unfold to_builder, build, recreate_config. cbn. unfold wrap. rewrite Zminus_mod_idemp_l.
    replace (now + lifetime_in_s (settings (build_config c)) - now) with (lifetime_in_s (settings c)) by lia.
    rewrite Z.mod_small by apply Hl. rewrite <- El. by destruct (build_config c) as [[] ? ? ? ? ? [] ? ? ?]. }
  split; [done|]. rewrite E. unfold build. by rewrite build_config_idem.
Qed.

(** A built client supports some version of the protocol. *)
Lemma build_has_version c now : supported_protocol_versions (cl_config (build c now)) ≠ [].
Proof. unfold build, build_config. destruct (settings_protocol_versions (settings c)) eqn:E; cbn; rewrite ?E; discriminate. Qed.

(** The leaf of a key package declares its own extensions exactly when the
    application has named their types: giving an extension does not. *)
Lemma built_leaf_supported c now e :
  e ∈ Kem.new_extensions (leaf_properties (config_of c now)) →
  extension_type e ∈ cap_extensions (Kem.new_capabilities (leaf_properties (config_of c now))) ↔
  extension_type e ∈ extension_types (settings c).
Proof. done. Qed.
End built.

(** ** Extensions given twice *)

(** A list with two extensions of a type can be written but not read. *)
Lemma duplicates_unreadable (l : ExtensionList.t) bs rest :
  Forall LeafCodecs.extension_wf l → ¬ NoDup (extension_type <$> l) →
  mls_encode ExtensionList.codec l [] = Ok bs → is_ok (mls_decode ExtensionList.codec (bs ++ rest)) = false.
Proof.
  intros Hl Hdup Hbs. destruct (mls_decode ExtensionList.codec (bs ++ rest)) as [[k r]| | |] eqn:E; [|done..]. exfalso.
  pose proof (vec_laws extension_codec LeafCodecs.extension_wf LeafCodecs.extension_nonempty) as Hv.
  apply (decode_sound (wf:=LeafCodecs.ext_list_wf)) in E as ([Hk Hkl] & bk & Hbk & Heq).
  pose proof (decode_encode (c:=vec_codec extension_codec) l bs rest Hl Hbs) as D1.
  pose proof (decode_encode (c:=vec_codec extension_codec) k bk r Hkl Hbk) as D2.
  rewrite Heq, D2 in D1. injection D1 as -> _. done.
Qed.

(** Adding a list of extensions appends it.  Extensions that are given twice, or
    that replace ones given before, stay in the key package twice, and then nobody
    can read it. *)
Theorem appended_twice_unreadable {Kpr Ps Gss Ip Pr Cp} (c : ConfigInner Kpr Ps Gss Ip Pr Cp) (exts : ExtensionList.t) e bs rest :
  let l := settings_key_package_extensions (settings (add_key_package_extensions c exts)) in
  Forall LeafCodecs.extension_wf l → e ∈ exts →
  ExtensionList.has_extension (settings_key_package_extensions (settings c)) (extension_type e) = true →
  mls_encode ExtensionList.codec l [] = Ok bs → is_ok (mls_decode ExtensionList.codec (bs ++ rest)) = false.
Proof.
  intros l Hl He Hh. apply duplicates_unreadable; [done|]. unfold l. cbn. unfold ExtensionList.append. rewrite fmap_app.
  intros (_ & Hd & _)%NoDup_app. apply (Hd (extension_type e)); [by apply ExtensionListFacts.has_extension_spec|].
  apply list_elem_of_fmap. by exists e.
Qed.
