(* ===== verification/ExternalBuilder.v ===== *)
(** * Building an external client (mls-rs/src/external_client/builder.rs)

    As Builder.v, for the client that observes groups.  Of what the builder keeps,
    the signing keys by identifier have no reader: [ExternalClientConfig] of
    External.v has no such field, for nothing in the crate asks for them.
    [external_defaults]: what a client is that was only given the services it
    must have. *)
From S2P Require Import Prelude Codec Types TreeIndex Crypto Storage Rules Config External Builder.

Record ExternalSettings := {
  xs_extension_types : list Z;
  xs_custom_proposal_types : list Z;
  xs_protocol_versions : list Z;
  external_signing_keys : gmap bytes bytes;
  xs_max_epoch_jitter : option Z;
  xs_cache_proposals : bool;
}.

Definition external_settings_default : ExternalSettings := {|
  xs_cache_proposals := true; xs_extension_types := []; xs_protocol_versions := []; external_signing_keys := ∅;
  xs_max_epoch_jitter := None; xs_custom_proposal_types := [] |}.

Record ExternalConfigInner (Ip Pr Cp : Type) := {
  xb_settings : ExternalSettings;
  xb_identity_provider : Ip;
  xb_mls_rules : Pr;
  xb_crypto_provider : Cp;
  xb_signing_data : option (bytes * SigningIdentity);
}.
Arguments xb_settings {Ip Pr Cp}.
Arguments xb_identity_provider {Ip Pr Cp}.
Arguments xb_mls_rules {Ip Pr Cp}.
Arguments xb_crypto_provider {Ip Pr Cp}.
Arguments xb_signing_data {Ip Pr Cp}.

Definition external_builder_new (rules : DefaultMlsRules) : ExternalConfigInner Missing DefaultMlsRules Missing := {|
  xb_settings := external_settings_default; xb_identity_provider := missing; xb_mls_rules := rules;
  xb_crypto_provider := missing; xb_signing_data := None |}.

Section builder.
Context {Ip Pr Cp : Type}.
Notation Inner := (ExternalConfigInner Ip Pr Cp).
Implicit Types (c : Inner).

Definition with_external_settings c (s : ExternalSettings) : Inner := {|
  xb_settings := s; xb_identity_provider := xb_identity_provider c; xb_mls_rules := xb_mls_rules c; xb_crypto_provider
  := xb_crypto_provider c; xb_signing_data := xb_signing_data c |}.

Definition external_extension_types c (types : list Z) : Inner :=
  let s := xb_settings c in with_external_settings c {|
    xs_extension_types := xs_extension_types s ++ types; xs_custom_proposal_types := xs_custom_proposal_types s;
  xs_protocol_versions := xs_protocol_versions s; external_signing_keys := external_signing_keys s;
  xs_max_epoch_jitter := xs_max_epoch_jitter s; xs_cache_proposals := xs_cache_proposals s |}.
Definition external_extension_type c (ty : Z) : Inner := external_extension_types c [ty].

Definition external_custom_proposal_types c (types : list Z) : Inner :=
  let s := xb_settings c in with_external_settings c {|
    xs_extension_types := xs_extension_types s; xs_custom_proposal_types := xs_custom_proposal_types s ++ types;
  xs_protocol_versions := xs_protocol_versions s; external_signing_keys := external_signing_keys s;
  xs_max_epoch_jitter := xs_max_epoch_jitter s; xs_cache_proposals := xs_cache_proposals s |}.
Definition external_custom_proposal_type c (ty : Z) : Inner := external_custom_proposal_types c [ty].

Definition external_protocol_versions c (versions : list Z) : Inner :=
  let s := xb_settings c in with_external_settings c {|
    xs_extension_types := xs_extension_types s; xs_custom_proposal_types := xs_custom_proposal_types s;
  xs_protocol_versions := xs_protocol_versions s ++ versions; external_signing_keys := external_signing_keys s;
  xs_max_epoch_jitter := xs_max_epoch_jitter s; xs_cache_proposals := xs_cache_proposals s |}.
Definition external_protocol_version c (version : Z) : Inner := external_protocol_versions c [version].

Definition external_signing_key c (id key : bytes) : Inner :=
  let s := xb_settings c in with_external_settings c {|
    xs_extension_types := xs_extension_types s; xs_custom_proposal_types := xs_custom_proposal_types s;
  xs_protocol_versions := xs_protocol_versions s; external_signing_keys := <[id := key]> (external_signing_keys s);
  xs_max_epoch_jitter := xs_max_epoch_jitter s; xs_cache_proposals := xs_cache_proposals s |}.

Definition set_max_epoch_jitter c (max_jitter : Z) : Inner :=
  let s := xb_settings c in with_external_settings c {|
    xs_extension_types := xs_extension_types s; xs_custom_proposal_types := xs_custom_proposal_types s;
  xs_protocol_versions := xs_protocol_versions s; external_signing_keys := external_signing_keys s;
  xs_max_epoch_jitter := Some max_jitter; xs_cache_proposals := xs_cache_proposals s |}.

Definition set_cache_proposals c (cache_proposals : bool) : Inner :=
  let s := xb_settings c in with_external_settings c {|
    xs_extension_types := xs_extension_types s; xs_custom_proposal_types := xs_custom_proposal_types s;
  xs_protocol_versions := xs_protocol_versions s; external_signing_keys := external_signing_keys s;
  xs_max_epoch_jitter := xs_max_epoch_jitter s; xs_cache_proposals := cache_proposals |}.

Definition external_with_identity_provider {T} c (v : T) : ExternalConfigInner T Pr Cp := {|
  xb_settings := xb_settings c; xb_identity_provider := v; xb_mls_rules := xb_mls_rules c; xb_crypto_provider :=
  xb_crypto_provider c; xb_signing_data := xb_signing_data c |}.

Definition external_with_crypto_provider {T} c (v : T) : ExternalConfigInner Ip Pr T := {|
  xb_settings := xb_settings c; xb_identity_provider := xb_identity_provider c; xb_mls_rules := xb_mls_rules c;
  xb_crypto_provider := v; xb_signing_data := xb_signing_data c |}.

Definition external_with_mls_rules {T} c (v : T) : ExternalConfigInner Ip T Cp := {|
  xb_settings := xb_settings c; xb_identity_provider := xb_identity_provider c; xb_mls_rules := v; xb_crypto_provider
  := xb_crypto_provider c; xb_signing_data := xb_signing_data c |}.

Definition external_with_signer c (signer : bytes) (s : SigningIdentity) : Inner := {|
  xb_settings := xb_settings c; xb_identity_provider := xb_identity_provider c; xb_mls_rules := xb_mls_rules c;
  xb_crypto_provider := xb_crypto_provider c; xb_signing_data := Some (signer, s) |}.

Definition external_build_config c : Inner :=
  match xs_protocol_versions (xb_settings c) with
  | [] => external_protocol_versions c all_versions
  | _ => c
  end.
End builder.

(** ** A configuration in use *)
Section built.
Context {R : Type}.
Notation Inner := (ExternalConfigInner IdentityProvider R CryptoProvider).
Implicit Types (c : Inner).

Definition external_config_of c : ExternalClientConfig R := {|
  ex_supported_extensions := xs_extension_types (xb_settings c);
  ex_supported_custom_proposals := xs_custom_proposal_types (xb_settings c);
  ex_supported_protocol_versions := xs_protocol_versions (xb_settings c);
  ex_identity_provider := xb_identity_provider c;
  ex_crypto_provider := provider_for (xb_crypto_provider c);
  ex_mls_rules := xb_mls_rules c;
  ex_cache_proposals := xs_cache_proposals (xb_settings c);
  max_epoch_jitter := xs_max_epoch_jitter (xb_settings c) |}.

Definition external_build c : ExternalClient (R:=R) :=
  let c := external_build_config c in
  {| xc_config := external_config_of c; xc_signing_data := xb_signing_data c |}.

(** Naming no version is naming all of them, and it is done once. *)
Lemma external_build_config_idem c : external_build_config (external_build_config c) = external_build_config c.
Proof. by destruct c as [[? ? [|v vs] ? ? ?] ? ? ? ?]. Qed.
End built.

(** A client with nothing but the services it must have speaks every version the
    crate knows, caches the proposals it sees, keeps all epochs and cannot sign. *)
Theorem external_defaults (rules : DefaultMlsRules) ip cp :
  external_build (external_with_crypto_provider (external_with_identity_provider (external_builder_new rules) ip) cp) =
  {| xc_config := {| ex_supported_extensions := []; ex_supported_custom_proposals := []; ex_supported_protocol_versions := all_versions;
       ex_identity_provider := ip; ex_crypto_provider := provider_for cp; ex_mls_rules := rules; ex_cache_proposals := true;
       max_epoch_jitter := None |}; xc_signing_data := None |}.
Proof. done. Qed.
